(* ===== verification/_CoqProject ===== *)
-Q . S2P
Prelude.v
Bytes.v
Primes.v
MasseyOmura.v
ElGamal.v
Crypto.v
Op.v
StateMachine.v
RoundSpec.v
StateMachineProps.v
Representation.v
EliminationQueue.v
Client.v
Layers.v
Protocol.v
ProtocolWitness.v
RespChannels.v
Server.v
ServerProps.v
Pipeline.v
LastStateMachine.v
ClientLoop.v
ClientLoopProps.v
Debug.v
System.v
SystemProps.v
SystemDelivery.v
SystemRun.v
ResultSound.v
Raft.v
Membership.v
ClientLife.v
MembershipLive.v
Persister.v
ResChannel.v
GoString.v
Labgob.v
RpcServer.v
Network.v
NetworkProps.v
NetworkTheorems.v
ConnectionProvider.v
NetPipeline.v
NetPipelineRun.v
ResultOrder.v
Shuffle.v
Anonymity.v
Links.v
Base64.v
Harness.v
HarnessProps.v
HarnessNames.v
HarnessChecks.v
OneRound.v
Confessions.v
ConfessionsInput.v
Setup.v
