(* ===== verification/Prelude.v ===== *)
(** * Eggscrambler: a verification library

    Eggscrambler (src/) is an anonymous broadcast service.  Participants run a
    protocol in rounds: everybody joins with a hash of a private key, submits a
    message encrypted under that key, encrypts and shuffles all messages once,
    and finally reveals the key, so that the messages can be opened but not
    attributed.  The rounds are kept in a state machine that is replicated with
    Raft among servers; the clients read it through update channels and change
    it by submitting operations to the leader.

    ** Parts of the program and the files that model them

    Foundations.
    - Prelude: panics as values ([outcome]), the monads [GoM] and state passing,
      64-bit wrap-around, generic lemmas and automation.
    - Bytes: byte slices and the operations of math/big the program uses.
    - Primes: certificates that make the moduli of the examples provably prime.
    - GoString: the functions of strings, strconv and sort that are used.

    Cryptography.
    - MasseyOmura: package masseyomura (basics.go, keygen.go, encrypt.go);
      crypto/rand is a [Reader] argument, [ProbablyPrime] a parameter.
    - Crypto: anonbcast/crypto.go.  The Go interface [CommutativeCrypto] is a
      type class, what its clients rely on the class [CommutativeCryptoLaws];
      [masseyOmuraCrypto] is an instance of both.  [sha256.Sum256] is a parameter.
    - ElGamal: package elgamal (basics.go, keygen.go, encrypt.go), a cipher that
      the repository keeps for reference.

    Replicated state.
    - Op: the eight operations of anonbcast/op.go.
    - StateMachine: anonbcast/statemachine.go, every function, with the ring
      buffer of the last three rounds, pointers into it, and the assertions.
    - RoundSpec: the rules documented in op.go as a relation, the specification
      that StateMachineProps proves [Apply] to implement.
    - Representation: what checkRep checks, and DeepCopy.

    Server.
    - RespChannels: anonbcast/respchannels.go, a refinement of a flat map.
    - Server: anonbcast/server.go; each critical section is one function and
      [sys_step] interleaves them.  ServerProps holds the proofs.
    - Raft: the Raft interface (libraft/raft.go, configurationChange.go) as a
      class, mockraft/mockraft.go as an instance of it, and SubmitOp, Kill and
      the handlers of anonbcast/serverconfigurationchange.go on top of it.
    - Persister: libraft/persister.go on a heap of buffers shared with callers.

    Client.
    - EliminationQueue: anonbcast/eliminationqueue.go and its interleavings.
    - Client: the protocol steps of anonbcast/client.go, whose results are the
      operations a client adds to the queue, and sendRoundResult.
    - LastStateMachine: anonbcast/laststatemachine.go.
    - ClientLoop, ClientLoopProps: the iterations of the goroutines of client.go.
    - Membership: anonbcast/clientconfigurationchange.go, submitOp and submitOps,
      as loops over an [Environment] (RPC, clock, kill flag, other goroutines), and
      how they can panic; MembershipLive runs them against a cluster with a stable
      leader.
    - ResChannel: CreateResCh, DestroyResCh and the hand-over of results.
    - ClientLife: NewClient, concurrent calls of Kill with the abort and the
      BecomeInactive they begin with, and the seed that the package takes from
      crypto/rand.
    - Pipeline: the composition of the queue, submitOps and any number of servers.
    - NetPipeline: the same with the connection provider and the simulated network
      between client and servers; NetPipelineRun gives a codec and complete runs.
    - Debug: anonbcast/debug.go and the methods assertf and dump of client,
      server and state machine, on a process with an environment, printed lines
      and a mutex.  Everywhere else a failed assertion is a panic that depends on
      a flag ([assertf]); Debug shows when this is what happens.

    The whole protocol.
    - Layers, Protocol: honest participants, driven by the functions of Client,
      on the state machine of StateMachine, over any crypto that satisfies the
      laws; ProtocolWitness carries a complete round with a real modulus.
    - System: the composition of the parts.  Clients run readUpdates on updates
      of the replicated state, the goroutines they start compute operations, and
      Raft applies what is submitted, in any order.  SystemProps has the
      invariants, SystemDelivery the theorem, SystemRun an executable version
      and a complete run.
    - ResultSound: what a client may conclude from a result that it accepts when
      servers and participants are malicious, and when such a result crashes it.
    - Shuffle: rand.Shuffle as a bijection between draws and permutations, and
      the anonymity of [scramble] of client.go.
    - Anonymity: the turns of the participants in the scramble phase, composed with
      the state machine, of which a single one is honest.

    Network.
    - Labgob: the checks that labgob/labgob.go adds to encoding/gob, on a
      universe of types.
    - RpcServer: Server, Service and MakeService of labrpc/labrpc.go; gob is the
      class [Codec] with the laws [CodecLaws].
    - Network, NetworkProps, NetworkTheorems: ClientEnd.Call, Network and
      processReq of labrpc/labrpc.go as a transition system in which the calls,
      their handlers and timers and the test program take turns; its invariants;
      its guarantees.
    - ConnectionProvider: network/labrpc_connection_provider.go, and
      network/libp2p.go, with the creation of the host, over a record of the
      libp2p functions it calls.

    Applications and tests.
    - ResultOrder: resultOrderer of localconfessions/confessions.go and of
      anonbcast/config.go.
    - Confessions: the main loops and message generators of
      localconfessions/confessions.go and confessions/confessions.go.
    - ConfessionsInput: how readInput, the message generator and the main loop of
      confessions/confessions.go share the input channel.
    - Setup: makeRaft (anonbcast/raft.go), MakeServer (anonbcast/server.go) and
      the set-up of both applications.
    - Links: connect, disconnect, partition and make_partition of
      anonbcast/config.go.
    - Base64: randstring and makeSeed of anonbcast/config.go, with the encoding of
      encoding/base64 that randstring uses.
    - Harness, HarnessProps, HarnessNames: start and shutdown of servers and
      clients in anonbcast/config.go, on top of Network, ConnectionProvider and
      Persister; HarnessNames instantiates the names with those of randstring.
    - HarnessChecks: the checks that config.go makes of results, of the leader
      and of configurations.
    - OneRound: oneRound with its waiting loops, and the statistics of a test.

    ** What the theorems show

    - Protocol: a round of honest clients that ends in DonePhase gives every
      participant exactly the submitted messages, although operations are
      computed from stale snapshots; and such a round can always be finished.  The
      conditions are those of [good]: valid keys, and messages that with their
      header are strictly shorter than the capacity of the crypto; and that the
      random bytes of the headers differ.
    - Whole system: the same for clients that run the real update loop, when
      updates are late or missing and operations are committed late, repeatedly,
      out of order or never.
    - Malicious servers and participants: a result that a client accepts carries
      the messages, and is opened by keys with the hashes, that the client had
      recorded in the reveal phase of some round before it revealed its own key of
      that round; that this is the round reported is only an assertion.  A client
      reveals its key only when it holds such a record.
    - State machine: [Apply] implements the documented rules on every input and,
      with assertions disabled, never panics, while with assertions enabled it does
      the same or fails one of them; GuaranteedNoEffect is sound; MayPrecede holds along every
      execution; finished rounds persist while they are among the last three;
      well-formed operations never trip an assertion; DeepCopy is the identity
      exactly on machines with one message per participant.
    - Server: a reply OK means that the operation was applied or can never have
      an effect; replicas agree; update channels carry the changed states in
      order; waiting requests are answered on commit and on loss of leadership.
      The contract of Raft that these proofs assume is proved of mockraft.
    - Client: the elimination queue hands out the newest operation and never
      loses it; a client acts at most once per round whatever its server sends;
      the aborter respects its timeouts; the search for the leader reaches every server.
    - Membership: BecomeActive and BecomeInactive return only when the flag has
      the wanted value or the client is dead; under a stable leader requests find
      the leader within a bounded number of attempts.  Both functions are shown to
      return if the leader also carries out changes promptly, which the interface of
      Raft does not promise.
    - Client and servers together: an operation that a client has finished was
      applied, or is rejected whatever is applied later; when the queue is empty,
      every operation is no newer than such a one.  This holds with failing calls
      (Pipeline) and with calls over a network that loses, delays and reorders
      messages and is reconfigured at any time (NetPipeline), where a request that
      has arrived at a server that commits it can always be completed, whereupon
      the client takes the next operation.
    - Life of a client: concurrent calls of Kill do not deadlock, their only panic
      is the explicit one of removeSelf on an answer AR_NOT_PROVISIONAL, and a
      channel is closed only by its own client.
    - Assertions: the model with a flag is what the code does unless debugging
      and dumping are both enabled; then the assertions under a mutex deadlock.
    - Result channel: no panic, no result twice, DestroyResCh always finishes.
    - Persister: saved contents cannot be changed through the callers' slices.
    - Cryptography (both ciphers): encryption under several keys is undone in
      any order; the padding round trip and its exact limits; key generation.
    - Anonymity: from the same messages in any order [scramble] can produce the
      same operations, each from exactly one sequence of draws; and however the
      other participants draw, the draws of a single one make the state after the
      scramble phase independent of the order of the messages.
    - Network: a call that returns true was executed once, on a server that was
      still registered when the reply was checked, before it was delayed; no call is executed or answered
      twice; calls return unless their handler blocks on a live server; on a
      reliable network they succeed with the value that the handler left; the
      statistics are exact.
    - Encoding checks: they terminate on recursive types and report every
      lower-case field exactly once.
    - Applications: results come out in the order of the rounds, so that
      localconfessions never exits because of them; both set-ups yield clients
      that can reach their server; a typed line is sent by at most one call of
      the message generator, and unchanged.
    - Test harness: random names are distinct when the bytes drawn are;
      make_config yields a connected cluster, every operation on it (a new client
      needs a running server) succeeds and keeps it well-formed, partition cuts exactly the links between
      its groups, a server that is shut down is isolated, the checks accept
      exactly the right results, and oneRound returns only after two rounds whose
      results passed them.
    - Deviations: a message of exactly the maximal size cannot be extracted; an
      operation with too many messages makes DeepCopy panic; a client that first
      sees a machine in round 2 or later trips an assertion; the generator of
      ElGamal need not have the documented order; the main loop of confessions
      exits when a round after the first ends before its result is read; without
      assertions a client accepts the evidence of another round; a participant who submits
      a message that is shorter than a header crashes the clients of the others;
      make_partition lists
      server 0 twice when the number of servers is even; the clients of the test
      harness address servers in a random order.

    ** Bounds and parameters

    Go's [int] is [Z] with wrap-around written out where the code computes
    ([wrap64]).  Loops follow the list they range over, and rejection sampling
    follows the list of answers that the random source delivers, so that
    termination of key generation is a statement about that list.  Fuel is taken
    by the retry loops of Membership ([loop]), where the theorems of
    MembershipLive hold for all sufficiently large fuel and the bound grows with
    the number of servers, of transient errors and of clock ticks; and by
    [checkType] of Labgob, where one more than the number of types is shown to be
    enough.  The round counter overflows only after 2^63 finished rounds; without
    assertions [run] is shown never to panic below that bound.

    Raft's answers, the clock, random bytes, sha256, ProbablyPrime, gob, libp2p,
    plugins and unicode.IsUpper are arguments; what is assumed of them is stated
    as named hypotheses of the theorems that use it, and every such theorem is
    followed by a concrete instance.

    ** Not modelled

    The Raft implementation is not part of the repository.  The text of log lines
    and of dumps is an argument of Debug and left out elsewhere; printing, the
    parsing of flags, signals and the number of processors are input/output or
    calls of libraries.  reflect is modelled as far as it is used: a type is an
    entry of a finite table.  What remains of the implementation is the import
    lists, interface declarations, wrappers of the log functions and small helpers
    whose effect is written where they are called, such as [min] and
    [getActiveUnlocked] of client.go. *)

From stdpp Require Export prelude list.
From stdpp Require Import numbers.

#[global] Set Default Goal Selector "!".
#[global] Set Warnings "-clear-no-such-hyp".

(** ** Panics and outcomes

    A Go function either returns or panics.  [outcome] is the result of
    running a piece of Go code that may panic; a panic carries the reason, so
    that the failure of a debug assertion ([assertf] of debug.go), an
    out-of-range index raised by the runtime, an explicit [panic] of the source
    and an exit through [log.Fatalf] or the [Fatalf] of a test ([Fatal]) stay
    distinguishable. *)

Inductive panic_reason : Set :=
| AssertionError
| IndexOutOfRange
| NilDereference
| NegativeSize
| BadTypeAssertion
| ClosedChannel
| SliceOutOfRange
| DivideByZero
| ExplicitPanic
| Fatal.

#[export] Instance panic_reason_eq_dec : EqDecision panic_reason.
Proof. solve_decision. Defined.

Inductive outcome (A : Type) : Type :=
| Ret (a : A)
| Panic (r : panic_reason).
Arguments Ret {A} a.
Arguments Panic {A} r.

#[export] Instance outcome_ret : MRet outcome := fun A a => Ret a.
#[export] Instance outcome_bind : MBind outcome := fun A B f m =>
  match m with Ret a => f a | Panic r => Panic r end.

(** [GoM S A] threads a mutable object of type [S] through code that may
    panic.  A panic loses the state: it takes the process down. *)
Definition GoM (S A : Type) : Type := S → outcome (A * S).

#[export] Instance GoM_ret {S} : MRet (GoM S) := fun A a s => Ret (a, s).
#[export] Instance GoM_bind {S} : MBind (GoM S) := fun A B f m s =>
  match m s with Ret (a, s') => f a s' | Panic r => Panic r end.

(** Running panicking code that does not touch the state. *)
Definition lift {S A} (o : outcome A) : GoM S A := fun s =>
  match o with Ret a => Ret (a, s) | Panic r => Panic r end.
Definition get {S} : GoM S S := fun s => Ret (s, s).
Definition put {S} (s : S) : GoM S unit := fun _ => Ret (tt, s).


(** [assertf] of debug.go: it panics only when the DEBUG environment variable
    is set ([debug]) and the condition is false. *)
Definition assertf (debug condition : bool) : outcome unit :=
  if debug && negb condition then Panic AssertionError else Ret tt.

(** Running a check for every element of a range loop. *)
Fixpoint for_each {A} (f : A → outcome unit) (l : list A) : outcome unit :=
  match l with
  | [] => Ret tt
  | x :: l' => f x ;; for_each f l'
  end.

(** Appending the results of a loop body ([xs = append(xs, f(x))]). *)
Fixpoint map_outcome {A B} (f : A → outcome B) (l : list A) : outcome (list B) :=
  match l with
  | [] => Ret []
  | x :: l' => y ← f x; ys ← map_outcome f l'; Ret (y :: ys)
  end.

(** ** Slices

    A slice is the list of its elements; a nil slice is the empty list (the
    source only tells them apart in [s == nil || len(s) == 0]). *)

Definition slice_get {A} (l : list A) (i : nat) : outcome A :=
  match l !! i with Some x => Ret x | None => Panic IndexOutOfRange end.

Definition slice_set {A} (l : list A) (i : nat) (x : A) : outcome (list A) :=
  if decide (i < length l) then Ret (<[i:=x]> l) else Panic IndexOutOfRange.

Declare Scope go_scope.
Delimit Scope go_scope with go.
Notation "l .[ i ]" := (slice_get l i) (at level 1) : go_scope.
Notation "l .[ i <- x ]" := (slice_set l i x) (at level 1) : go_scope.
Open Scope go_scope.

(** [copy(dst, src)]: overwrites the common prefix, keeps the rest of [dst]. *)
Definition go_copy {A} (dst src : list A) : list A :=
  take (length dst) src ++ drop (length src) dst.

(** [make([]T, n)] with a machine integer [n]. *)
Definition make_slice {A} (zero : A) (n : Z) : outcome (list A) :=
  if decide (n < 0)%Z then Panic NegativeSize else Ret (replicate (Z.to_nat n) zero).

(** The loops of the source that count the true flags of a slice. *)
Fixpoint count_true (l : list bool) : nat :=
  match l with
  | [] => 0
  | true :: l' => S (count_true l')
  | false :: l' => count_true l'
  end.

(** ** Machine integers

    Go's [int] has 64 bits; [/] and [%] truncate toward zero, which are
    [Z.quot] and [Z.rem]. *)

Definition int_max : Z := (2 ^ 63 - 1)%Z.
Definition int_min : Z := (- 2 ^ 63)%Z.
Definition wrap64 (z : Z) : Z := ((z + 2 ^ 63) `mod` 2 ^ 64 - 2 ^ 63)%Z.

Lemma wrap64_id z : (int_min ≤ z ≤ int_max)%Z → wrap64 z = z.
Proof. unfold wrap64, int_min, int_max. intros. rewrite Z.mod_small; lia. Qed.

Lemma wrap64_range z : (int_min ≤ wrap64 z ≤ int_max)%Z.
Proof.
  unfold wrap64, int_min, int_max.
  pose proof (Z.mod_pos_bound (z + 2 ^ 63) (2 ^ 64)). lia.
Qed.

Lemma wrap64_add a b : wrap64 (wrap64 a + b) = wrap64 (a + b).
Proof.
  unfold wrap64. f_equal.
  replace ((a + 2 ^ 63) `mod` 2 ^ 64 - 2 ^ 63 + b + 2 ^ 63)%Z
    with ((a + 2 ^ 63) `mod` 2 ^ 64 + b)%Z by lia.
  rewrite Zplus_mod_idemp_l. f_equal. lia.
Qed.

(** ** Tactics *)

(** Case analysis on the scrutinee of the innermost [match] or [if]. *)
Ltac case_all :=
  repeat match goal with
  | H : context [match ?x with _ => _ end] |- _ => destruct x eqn:?; simplify_eq/=
  | |- context [match ?x with _ => _ end] => destruct x eqn:?; simplify_eq/=
  end.

(** Turns boolean tests of the source into propositions. *)
Ltac bool_to_prop :=
  repeat match goal with
  | H : bool_decide _ = true |- _ => apply bool_decide_eq_true in H
  | H : bool_decide _ = false |- _ => apply bool_decide_eq_false in H
  | H : negb _ = true |- _ => apply negb_true_iff in H
  | H : negb _ = false |- _ => apply negb_false_iff in H
  | H : _ && _ = true |- _ => apply andb_true_iff in H as [? ?]
  | H : _ || _ = false |- _ => apply orb_false_iff in H as [? ?]
  | H : (_ <? _)%Z = true |- _ => apply Z.ltb_lt in H
  | H : (_ <? _)%Z = false |- _ => apply Z.ltb_ge in H
  | H : (_ <=? _)%Z = true |- _ => apply Z.leb_le in H
  | H : (_ <=? _)%Z = false |- _ => apply Z.leb_gt in H
  | H : (_ =? _)%Z = true |- _ => apply Z.eqb_eq in H
  | H : (_ =? _)%Z = false |- _ => apply Z.eqb_neq in H
  end.

(** [lia] for goals with [/], [mod], [quot] and [rem]. *)
Ltac lia_div := Z.to_euclidean_division_equations; lia.

Create HintDb go discriminated.
Create Rewrite HintDb go_rw.

(** ** Outcomes: inversion and rewriting lemmas *)

Lemma bind_ret {A B} (a : A) (f : A → outcome B) : (x ← Ret a; f x) = f a.
Proof. done. Qed.

Lemma bind_ret_inv {A B} (m : outcome A) (f : A → outcome B) b :
  (x ← m; f x) = Ret b → ∃ a, m = Ret a ∧ f a = Ret b.
Proof. destruct m; simpl; [eauto | discriminate]. Qed.

Lemma assertf_ret_inv debug c u : assertf debug c = Ret u → debug = true → c = true.
Proof. unfold assertf. destruct debug, c; naive_solver. Qed.

Lemma assertf_false c : assertf false c = Ret tt.
Proof. done. Qed.

Lemma assertf_true debug : assertf debug true = Ret tt.
Proof. by destruct debug. Qed.

Lemma for_each_ret {A} (f : A → outcome unit) l :
  for_each f l = Ret tt ↔ Forall (fun x => f x = Ret tt) l.
Proof.
  induction l as [|x l IH]; simpl; [done|].
  rewrite Forall_cons_iff, <- IH. destruct (f x) as [[]|]; simpl; split; (done || by intros [??]).
Qed.

Lemma slice_get_ret {A} (l : list A) i x : slice_get l i = Ret x ↔ l !! i = Some x.
Proof. unfold slice_get. destruct (l !! i); naive_solver. Qed.

Lemma slice_set_ret {A} (l : list A) i x :
  i < length l → slice_set l i x = Ret (<[i:=x]> l).
Proof. intros. unfold slice_set. by case_decide. Qed.

Lemma slice_set_inv {A} (l : list A) i x l' :
  slice_set l i x = Ret l' → i < length l ∧ l' = <[i:=x]> l.
Proof. unfold slice_set. case_decide; naive_solver. Qed.

Lemma go_copy_same {A} (dst src : list A) :
  length dst = length src → go_copy dst src = src.
Proof.
  intros H. unfold go_copy. rewrite H, firstn_all, drop_ge by lia. apply app_nil_r.
Qed.

Lemma go_copy_prefix {A} (dst src : list A) :
  length src ≤ length dst → go_copy dst src = src ++ drop (length src) dst.
Proof. intros H. unfold go_copy. by rewrite take_ge. Qed.

#[export] Hint Resolve slice_set_ret assertf_true : go.
#[export] Hint Rewrite @bind_ret assertf_true assertf_false : go_rw.

(** ** Lists of flags *)

Lemma count_true_le l : count_true l ≤ length l.
Proof. induction l as [|[] l IH]; simpl; lia. Qed.

Lemma count_true_full l : count_true l = length l ↔ Forall (fun b => b = true) l.
Proof.
  induction l as [|[] l IH]; simpl; [done| |].
  - rewrite Forall_cons_iff, <- IH. lia.
  - rewrite Forall_cons_iff. pose proof (count_true_le l). split; [lia | by intros [??]].
Qed.

Lemma count_true_replicate_false n : count_true (replicate n false) = 0.
Proof. by induction n. Qed.

Lemma count_true_app l k : count_true (l ++ k) = count_true l + count_true k.
Proof. induction l as [|[] l IH]; simpl; lia. Qed.

Lemma count_true_insert l i :
  l !! i = Some false → count_true (<[i:=true]> l) = S (count_true l).
Proof.
  revert i. induction l as [|[] l IH]; intros [|i] Hi; simplify_eq/=; try done.
  - by rewrite IH.
  - by apply IH.
Qed.

Lemma count_true_not_full l i : l !! i = Some false → count_true l < length l.
Proof.
  intros Hi. pose proof (count_true_le l).
  destruct (decide (count_true l = length l)) as [Hf%count_true_full|]; [|lia].
  rewrite Forall_lookup in Hf. by specialize (Hf _ _ Hi).
Qed.

(** ** Sums over lists *)

Definition sum_with {A} (f : A → Z) (l : list A) : Z := foldr (fun x z => f x + z)%Z 0%Z l.

Lemma sum_with_app {A} (f : A → Z) l k : sum_with f (l ++ k) = (sum_with f l + sum_with f k)%Z.
Proof. induction l as [|x l IH]; simpl; [done|]. rewrite IH. lia. Qed.

Lemma sum_with_insert {A} (f : A → Z) l i x y :
  l !! i = Some x → sum_with f (<[i := y]> l) = (sum_with f l + (f y - f x))%Z.
Proof.
  revert i. induction l as [|z l IH]; intros [|i] Hi; simplify_eq/=; [lia|]. rewrite (IH i Hi). lia.
Qed.

#[export] Instance sum_with_perm {A} (f : A → Z) : Proper ((≡ₚ) ==> (=)) (sum_with f).
Proof. induction 1; simpl; lia. Qed.
