(* ===== verification/Bytes.v ===== *)
(** * Bytes and big integers

    The part of the Go standard library that the cryptographic packages use:
    byte slices and the [math/big] operations [SetBytes], [Bytes], [BitLen]
    and [Exp].  A [*big.Int] is a [Z]; a byte slice is a [list byte].  The
    central lemmas say that [Bytes] and [SetBytes] are inverse up to the
    leading zero bytes, which an integer cannot represent. *)

From Stdlib Require Import Strings.Byte Zpow_facts.
From S2P Require Import Prelude.

Local Open Scope Z_scope.

#[export] Instance byte_eq_dec : EqDecision byte := Byte.byte_eq_dec.

Definition b2z (b : byte) : Z := Z.of_N (Byte.to_N b).
Definition z2b (z : Z) : byte := default Byte.x00 (Byte.of_N (Z.to_N (z mod 256))).

(** [new(big.Int).SetBytes(buf)]: big-endian. *)
Definition SetBytes (buf : list byte) : Z :=
  fold_left (fun acc b => acc * 256 + b2z b) buf 0.

(** The [n] low-order bytes of [z], big-endian. *)
Fixpoint be_bytes (n : nat) (z : Z) : list byte :=
  match n with
  | O => []
  | S n' => be_bytes n' (z / 256) ++ [z2b z]
  end.

(** [x.BitLen()]: 0 for 0, else the position of the highest bit of |x|. *)
Definition BitLen (x : Z) : Z := if bool_decide (x = 0) then 0 else Z.log2 (Z.abs x) + 1.

(** [x.Bytes()]: the absolute value, big-endian, without leading zeros. *)
Definition Bytes (x : Z) : list byte :=
  be_bytes (Z.to_nat ((BitLen x + 7) / 8)) (Z.abs x).

(** [new(big.Int).Exp(x, y, m)] for a nonnegative exponent: a zero modulus
    means no modulus.  [Zpow_mod] is square-and-multiply. *)
Definition Exp (x y m : Z) : Z :=
  if bool_decide (m = 0) then x ^ y
  else Zpow_mod x y (Z.abs m).

(** A slice without a leading zero byte: what [Bytes] produces. *)
Definition canonical (l : list byte) : Prop := hd_error l ≠ Some Byte.x00.

#[export] Instance canonical_dec l : Decision (canonical l).
Proof. unfold canonical. apply _. Defined.

Fixpoint strip_zeros (l : list byte) : list byte :=
  match l with
  | Byte.x00 :: l' => strip_zeros l'
  | _ => l
  end.

(** ** Single bytes *)

Lemma b2z_range b : 0 ≤ b2z b < 256.
Proof. unfold b2z. pose proof (Byte.to_N_bounded b). lia. Qed.

Lemma z2b_b2z b : z2b (b2z b) = b.
Proof.
  unfold z2b. pose proof (b2z_range b). rewrite Z.mod_small by lia.
  unfold b2z. by rewrite N2Z.id, Byte.of_to_N.
Qed.

Lemma b2z_z2b z : b2z (z2b z) = z mod 256.
Proof.
  unfold z2b. pose proof (Z.mod_pos_bound z 256).
  destruct (Byte.of_N (Z.to_N (z mod 256))) as [b|] eqn:E; simpl.
  - apply Byte.to_of_N in E. unfold b2z. rewrite E. lia.
  - apply Byte.of_N_None_iff in E. lia.
Qed.

Lemma b2z_inj b c : b2z b = b2z c → b = c.
Proof. intros H. by rewrite <- (z2b_b2z b), <- (z2b_b2z c), H. Qed.

Lemma b2z_zero b : b2z b = 0 ↔ b = Byte.x00.
Proof. split; [|by intros ->]. intros H. by apply b2z_inj. Qed.

(** ** [SetBytes] *)

Lemma SetBytes_snoc l b : SetBytes (l ++ [b]) = SetBytes l * 256 + b2z b.
Proof. unfold SetBytes. by rewrite fold_left_app. Qed.

Lemma SetBytes_app l k :
  SetBytes (l ++ k) = SetBytes l * 256 ^ Z.of_nat (length k) + SetBytes k.
Proof.
  induction k as [|b k IH] using rev_ind; [rewrite app_nil_r; change (SetBytes []) with 0; simpl; lia|].
  rewrite app_assoc, !SetBytes_snoc, IH, length_app. simpl length.
  rewrite Nat2Z.inj_add, Z.pow_add_r by lia. simpl Z.of_nat. lia.
Qed.

Lemma SetBytes_cons b l :
  SetBytes (b :: l) = b2z b * 256 ^ Z.of_nat (length l) + SetBytes l.
Proof. apply (SetBytes_app [b] l). Qed.

Lemma SetBytes_range l : 0 ≤ SetBytes l < 256 ^ Z.of_nat (length l).
Proof.
  induction l as [|b l IH] using rev_ind; [done|].
  pose proof (b2z_range b).
  rewrite SetBytes_snoc, length_app. simpl length.
  rewrite Nat2Z.inj_add, Z.pow_add_r by lia. simpl Z.of_nat. lia.
Qed.

Lemma length_be_bytes n z : length (be_bytes n z) = n.
Proof. revert z. induction n as [|n IH]; intros z; simpl; [done|]. rewrite length_app, IH. simpl. lia. Qed.

Lemma SetBytes_be_bytes n z : 0 ≤ z → SetBytes (be_bytes n z) = z mod 256 ^ Z.of_nat n.
Proof.
  revert z. induction n as [|n IH]; intros z Hz; [simpl; by rewrite Z.mod_1_r|].
  simpl be_bytes. rewrite SetBytes_snoc, IH, b2z_z2b by (apply Z.div_pos; lia).
  replace (Z.of_nat (S n)) with (Z.of_nat n + 1) by lia.
  rewrite Z.pow_add_r, Z.pow_1_r, (Z.mul_comm (256 ^ _)), Z.rem_mul_r by lia. lia.
Qed.

(** Equal length and equal value make equal slices. *)
Lemma SetBytes_inj l k : length l = length k → SetBytes l = SetBytes k → l = k.
Proof.
  revert k. induction l as [|b l IH] using rev_ind; intros k Hlen Heq.
  - by destruct k.
  - destruct k as [|c k _] using rev_ind; [rewrite length_app in Hlen; simpl in *; lia|].
    rewrite !length_app in Hlen. simpl in Hlen. rewrite !SetBytes_snoc in Heq.
    pose proof (b2z_range b). pose proof (b2z_range c).
    assert (SetBytes l = SetBytes k ∧ b2z b = b2z c) as [? ?%b2z_inj] by lia.
    subst. f_equal. apply IH; [lia | done].
Qed.

(** ** [BitLen] and [Bytes] *)

Lemma BitLen_spec x n : 0 < n → (BitLen x ≤ n ↔ Z.abs x < 2 ^ n).
Proof.
  intros Hn. unfold BitLen. case_bool_decide as Hx.
  - subst. simpl. pose proof (Z.pow_pos_nonneg 2 n). lia.
  - rewrite (Z.log2_lt_pow2 (Z.abs x) n) by lia. lia.
Qed.

Lemma BitLen_exact x n : 0 < n → 2 ^ (n - 1) ≤ x < 2 ^ n → BitLen x = n.
Proof.
  intros Hn [Hl Hu]. pose proof (Z.pow_pos_nonneg 2 (n - 1)).
  unfold BitLen. rewrite bool_decide_false by lia.
  rewrite (Z.log2_unique (Z.abs x) (n - 1)); [lia|lia|].
  rewrite Z.abs_eq by lia. by replace (Z.succ (n - 1)) with n by lia.
Qed.

Lemma BitLen_nonneg x : 0 ≤ BitLen x.
Proof. unfold BitLen. case_bool_decide; [lia|]. pose proof (Z.log2_nonneg (Z.abs x)). lia. Qed.

Lemma BitLen_lower x : x ≠ 0 → 2 ^ (BitLen x - 1) ≤ Z.abs x.
Proof.
  intros. unfold BitLen. rewrite bool_decide_false by done. rewrite Z.add_simpl_r.
  by apply Z.log2_spec; lia.
Qed.

Lemma SetBytes_Bytes x : 0 ≤ x → SetBytes (Bytes x) = x.
Proof.
  intros Hx. unfold Bytes. rewrite Z.abs_eq, SetBytes_be_bytes by done.
  apply Z.mod_small. split; [done|].
  pose proof (BitLen_nonneg x). destruct (decide (x = 0)) as [->|]; [done|].
  change 256 with (2 ^ 8). rewrite <- Z.pow_mul_r by lia.
  assert (0 < BitLen x) by (unfold BitLen; rewrite bool_decide_false by done;
    pose proof (Z.log2_nonneg (Z.abs x)); lia).
  enough (Z.abs x < 2 ^ (8 * Z.of_nat (Z.to_nat ((BitLen x + 7) / 8)))) by lia.
  apply BitLen_spec; lia_div.
Qed.

Lemma length_Bytes x : length (Bytes x) = Z.to_nat ((BitLen x + 7) / 8).
Proof. apply length_be_bytes. Qed.

Lemma length_Bytes_SetBytes_canonical l :
  canonical l → length (Bytes (SetBytes l)) = length l.
Proof.
  intros Hc. rewrite length_Bytes. destruct l as [|b l]; [done|].
  pose proof (SetBytes_range l) as Hr. pose proof (b2z_range b).
  assert (b2z b ≠ 0) by (rewrite b2z_zero; intros ->; by apply Hc).
  change 256 with (2 ^ 8) in Hr. rewrite <- Z.pow_mul_r in Hr by lia.
  set (n := Z.of_nat (length l)) in *.
  assert (8 * n + 1 ≤ BitLen (SetBytes (b :: l)) ≤ 8 * n + 8); [|simpl; lia_div].
  assert (2 ^ (8 * n) ≤ SetBytes (b :: l) < 2 ^ (8 * n + 8)) as [Hl Hu].
  { rewrite SetBytes_cons. change 256 with (2 ^ 8).
    rewrite <- Z.pow_mul_r by lia. fold n. rewrite (Z.pow_add_r 2) by lia.
    change (2 ^ 8) with 256 in *. nia. }
  assert (0 < 2 ^ (8 * n)) by (apply Z.pow_pos_nonneg; lia).
  split; [|apply BitLen_spec; [lia|rewrite Z.abs_eq; lia]].
  destruct (decide (n = 0)) as [Hn|Hn].
  - unfold BitLen. rewrite bool_decide_false by lia.
    pose proof (Z.log2_nonneg (Z.abs (SetBytes (b :: l)))). lia.
  - pose proof (BitLen_spec (SetBytes (b :: l)) (8 * n)). lia.
Qed.

Lemma Bytes_SetBytes l : canonical l → Bytes (SetBytes l) = l.
Proof.
  intros Hc. apply SetBytes_inj; [by apply length_Bytes_SetBytes_canonical|].
  apply SetBytes_Bytes, SetBytes_range.
Qed.

Lemma SetBytes_strip_zeros l : SetBytes (strip_zeros l) = SetBytes l.
Proof.
  induction l as [|b l IH]; [done|].
  destruct (decide (b = Byte.x00)) as [->|Hb]; [|by destruct b].
  simpl strip_zeros. rewrite IH, SetBytes_cons. done.
Qed.

Lemma strip_zeros_canonical l : canonical (strip_zeros l).
Proof.
  induction l as [|b l IH]; [done|].
  destruct (decide (b = Byte.x00)) as [->|Hb]; [done|].
  unfold canonical. destruct b; simpl; congruence.
Qed.

(** The integer forgets exactly the leading zeros. *)
Lemma Bytes_SetBytes_strip l : Bytes (SetBytes l) = strip_zeros l.
Proof.
  rewrite <- SetBytes_strip_zeros. apply Bytes_SetBytes, strip_zeros_canonical.
Qed.

Lemma Bytes_canonical x : 0 ≤ x → canonical (Bytes x).
Proof.
  intros. rewrite <- (SetBytes_Bytes x), Bytes_SetBytes_strip by done.
  apply strip_zeros_canonical.
Qed.

Lemma Bytes_nil x : 0 ≤ x → (Bytes x = [] ↔ x = 0).
Proof.
  intros Hx. split; [|by intros ->]. intros H. by rewrite <- (SetBytes_Bytes x), H by done.
Qed.

(** ** [Exp] *)

Lemma Exp_mod x y m : 0 < m → 0 ≤ y → Exp x y m = x ^ y mod m.
Proof.
  intros Hm Hy. unfold Exp. rewrite bool_decide_false, Z.abs_eq by lia.
  apply Zpow_mod_correct. lia.
Qed.

Lemma Exp_range x y m : 0 < m → 0 ≤ y → 0 ≤ Exp x y m < m.
Proof. intros. rewrite Exp_mod by done. by apply Z.mod_pos_bound. Qed.

#[export] Hint Resolve b2z_range SetBytes_range BitLen_nonneg : go.
