(* ===== verification/Primes.v ===== *)
(** * Checking primality

    The source relies on [ProbablyPrime] of math/big; the witnesses of this
    library need moduli that are proved prime.  Two certificates: trial
    division for small numbers and Proth's criterion, which proves a modulus
    of the size the program uses by one modular exponentiation. *)

From Stdlib Require Import Zpow_facts Znumtheory ZmodInv.
From S2P Require Import Prelude.

Local Open Scope Z_scope.

(** Every number above 1 has a prime divisor. *)
Lemma prime_divisor n : 1 < n → ∃ q, Z.prime q ∧ (q | n) ∧ q ≤ n.
Proof.
  induction (Z.lt_wf 0 n) as [n _ IH]. intros Hn.
  destruct (prime_dec n) as [Hp%prime_alt|Hp].
  { exists n. split; [done|]. split; [apply Z.divide_refl | lia]. }
  destruct (not_prime_divide n Hn Hp) as (d & Hd & Hdn).
  destruct (IH d) as (q & Hq & Hqd & Hle); [lia..|].
  exists q. split; [done|]. split; [by eapply Z.divide_trans | lia].
Qed.

(** A number without a prime divisor up to its square root is prime. *)
Lemma prime_sqrt p :
  1 < p → (∀ q, Z.prime q → (q | p) → q * q ≤ p → False) → Z.prime p.
Proof.
  intros Hp Hno. split; [done|]. intros n Hn [m Hm].
  assert (0 < m) by nia. assert (1 < m) by nia.
  destruct (prime_divisor (Z.min n m)) as (q & Hq & Hqd & Hle); [lia|].
  apply (Hno q Hq); [|pose proof (Z.prime_ge_2 _ Hq); nia].
  destruct (Z.min_spec n m) as [[_ E]|[_ E]]; rewrite E in Hqd; rewrite Hm.
  - by apply Z.divide_mul_r.
  - by apply Z.divide_mul_l.
Qed.

(** ** Trial division *)

Fixpoint no_divisor (fuel : nat) (d p : Z) : bool :=
  match fuel with
  | O => p <? d * d
  | S fuel' => if p <? d * d then true
               else if p mod d =? 0 then false else no_divisor fuel' (d + 1) p
  end.

Definition trial_prime (p : Z) : bool :=
  (1 <? p) && no_divisor (Z.to_nat (Z.sqrt p)) 2 p.

Lemma no_divisor_sound fuel : ∀ d p q,
  no_divisor fuel d p = true → 0 < d ≤ q → q * q ≤ p → ¬ (q | p).
Proof.
  induction fuel as [|fuel IH]; simpl; intros d p q Hd Hdq Hqp Hdiv.
  - bool_to_prop. nia.
  - destruct (p <? d * d) eqn:E1; bool_to_prop; [nia|].
    destruct (p mod d =? 0) eqn:E2; bool_to_prop; [done|].
    destruct (decide (q = d)) as [->|].
    + apply E2. by apply Z.mod_divide; [lia|].
    + apply (IH (d + 1) p q); (done || lia).
Qed.

Lemma trial_prime_sound p : trial_prime p = true → Z.prime p.
Proof.
  unfold trial_prime. intros H. bool_to_prop. apply prime_sqrt; [done|].
  intros q Hq Hdiv Hqp. pose proof (Z.prime_ge_2 _ Hq).
  by eapply (no_divisor_sound _ 2 p q); [done|lia|..].
Qed.

(** ** Proth's criterion *)

(** [p = k * 2^m + 1] with [k < 2^m] and [a^((p-1)/2) = -1] modulo [p]. *)
Definition proth_check (k m a : Z) : bool :=
  let p := k * 2 ^ m + 1 in
  (0 <? m) && (0 <? k) && (k <? 2 ^ m) && (Zpow_mod a (k * 2 ^ (m - 1)) p =? p - 1).

Lemma pow_mod_dvd a x p q : (q | p) → 0 < q → 0 < p → a ^ x mod p = p - 1 → a ^ x mod q = (-1) mod q.
Proof.
  intros [c Hc] Hq Hp H. rewrite <- (Z.mod_mod_divide (a ^ x) p q) by (by exists c).
  rewrite H, Hc. replace (c * q - 1) with (-1 + c * q) by lia. by apply Z.mod_add; lia.
Qed.

Lemma neg_one_odd_pow q t : 0 < q → 0 ≤ t → Z.odd t = true → (-1) ^ t mod q = (-1) mod q.
Proof.
  intros Hq Ht Ho. apply Zodd_bool_iff, Zodd_ex in Ho as [u ->].
  rewrite Z.pow_add_r, Z.pow_1_r, Z.pow_mul_r by lia. simpl. by rewrite Z.pow_1_l by lia.
Qed.

Lemma odd_part n : 0 < n → ∃ s t, 0 ≤ s ∧ 0 < t ∧ Z.odd t = true ∧ n = 2 ^ s * t.
Proof.
  induction (Z.lt_wf 0 n) as [n _ IH]. intros Hn. destruct (Z.odd n) eqn:Ho.
  { exists 0, n. rewrite Ho. split_and!; lia. }
  pose proof (Zdiv2_odd_eqn n) as Hd. rewrite Ho in Hd.
  destruct (IH (Z.div2 n)) as (s & t & Hs & Ht & Hto & Heq); [lia..|].
  exists (s + 1), t. rewrite Z.pow_add_r by lia. split_and!; (done || lia).
Qed.

(** A prime divisor of a Proth number is congruent to 1 modulo [2^m]. *)
Lemma proth_divisor k m a p q :
  0 < m → 0 < k → p = k * 2 ^ m + 1 → a ^ (k * 2 ^ (m - 1)) mod p = p - 1 →
  Z.prime q → (q | p) → 2 ^ m ≤ q - 1.
Proof.
  intros Hm Hk Hp Hpow Hq Hqp. pose proof (Z.prime_ge_2 _ Hq).
  assert (0 < 2 ^ (m - 1)) by (apply Z.pow_pos_nonneg; lia).
  assert (2 ^ m = 2 * 2 ^ (m - 1)) as H2m by (rewrite <- Z.pow_succ_r by lia; f_equal; lia).
  pose proof (pow_mod_dvd a _ p q Hqp ltac:(lia) ltac:(nia) Hpow) as Hq1.
  destruct (odd_part (q - 1)) as (s & t & Hs & Ht & Hto & Hst); [lia|].
  destruct (decide (m ≤ s)) as [Hms|Hms].
  { assert (2 ^ m ≤ 2 ^ s) by (apply Z.pow_le_mono_r; lia). nia. }
  exfalso. set (b := a ^ k) in *.
  rewrite Z.pow_mul_r in Hq1 by lia. fold b in Hq1.
  assert (b mod q ≠ 0) as Hb.
  { intros Hb0. rewrite <- Z.mod_pow_l, Hb0, Z.pow_0_l, Z.mod_0_l in Hq1 by lia.
    assert ((-1) mod q = q - 1) by (symmetry; apply (Z.mod_unique _ _ (-1)); lia). lia. }
  pose proof (Z.fermat_nz q b Hq Hb) as Hf.
  assert ((b ^ 2 ^ (m - 1)) ^ t mod q = 1) as H1.
  { rewrite <- Z.pow_mul_r by lia.
    replace (2 ^ (m - 1) * t) with ((q - 1) * 2 ^ (m - 1 - s)).
    - rewrite Z.pow_mul_r by (try lia; apply Z.pow_nonneg; lia).
      rewrite <- Z.mod_pow_l, Hf, Z.pow_1_l by (apply Z.pow_nonneg; lia).
      apply Z.mod_1_l. lia.
    - rewrite Hst, (Z.mul_comm (2 ^ s)), <- Z.mul_assoc, <- Z.pow_add_r by lia.
      rewrite Z.mul_comm. do 2 f_equal. lia. }
  rewrite <- Z.mod_pow_l, Hq1, Z.mod_pow_l, neg_one_odd_pow in H1 by (done || lia).
  assert (q = 2) as ->.
  { apply (f_equal (fun z => (z + 1) mod q)) in H1.
    rewrite Z.add_mod_idemp_l in H1 by lia. simpl in H1. rewrite Z.mod_0_l in H1 by lia.
    symmetry in H1. apply Z.mod_divide in H1; [|lia]. apply Z.divide_pos_le in H1; lia. }
  destruct Hqp as [c Hc]. nia.
Qed.

Lemma proth_prime k m a : proth_check k m a = true → Z.prime (k * 2 ^ m + 1).
Proof.
  unfold proth_check. intros H. bool_to_prop.
  assert (0 < 2 ^ m) by (apply Z.pow_pos_nonneg; lia).
  apply prime_sqrt; [nia|]. intros q Hq Hdiv Hqq.
  assert (2 ^ m ≤ q - 1); [|nia].
  eapply (proth_divisor k m a); [done|done|reflexivity| |done|done].
  rewrite <- Zpow_mod_correct by nia. done.
Qed.
