(* ===== verification/MasseyOmura.v ===== *)
(** * The Massey-Omura commutative cipher

    Model of the package [masseyomura] (src/masseyomura/basics.go, keygen.go
    and encrypt.go): key generation, padding, and encryption by modular
    exponentiation.  The theorems show that generated keys are inverse
    exponents, that encryption under any number of keys can be undone in any
    order, and how far the padding round trip really reaches. *)

From Stdlib Require Import Strings.Byte Zpow_facts Zcong Znumtheory ZmodInv.
From S2P Require Import Prelude Bytes Primes.

Local Open Scope Z_scope.

Module masseyomura.

(** ** basics.go *)

Record SystemKey := mkSystemKey { P : Z }.

Record PrivateKey := mkPrivateKey { SysKey : SystemKey; E : Z; D : Z }.

(** An [io.Reader] of randomness, as the successive answers of the functions
    of crypto/rand that read from it: [None] is a read error, and so is an
    exhausted reader. *)
Definition Reader : Type := list (option Z).

(** [rand.Int(random, max)]: uniform in [0, max); panics when max <= 0. *)
Definition rand_Int (random : Reader) (max : Z) : outcome (option Z * Reader) :=
  if max <=? 0 then Panic ExplicitPanic
  else match random with
       | [] => Ret (None, [])
       | None :: random' => Ret (None, random')
       | Some v :: random' => Ret (Some (v mod max), random')
       end.

(** [rand.Prime(random, bits)]: an error for fewer than 2 bits. *)
Definition rand_Prime (random : Reader) (bits : Z) : option Z * Reader :=
  if bits <? 2 then (None, random)
  else match random with
       | [] => (None, [])
       | r :: random' => (r, random')
       end.

Definition randHelp (random : Reader) (Q : Z) : outcome (option Z * Reader) :=
  '(r, random') ← rand_Int random (Q - 1);
  match r with
  | None => Ret (None, random')
  | Some r => Ret (Some (r + 1), random')
  end.

(** ** encrypt.go *)

Definition bytesMaxSize (bits : Z) : Z := wrap64 (Z.quot (wrap64 (bits - 1)) 8 - 1).

Definition BitsMaxSize (bytes : Z) : Z := wrap64 (wrap64 (8 * wrap64 (bytes + 1)) + 1).

(** The loop [for i := 0; i < k; i++ { padded[i] = 1 }]. *)
Fixpoint fill_ones (i k : nat) (padded : list byte) : outcome (list byte) :=
  match k with
  | O => Ret padded
  | S k' => padded' ← padded.[i <- Byte.x01]; fill_ones (S i) k' padded'
  end.

Definition pad (msg : list byte) (targetlen : Z) : outcome (list byte) :=
  let len := Z.of_nat (length msg) in
  if targetlen <? len then Panic ExplicitPanic
  else if len =? targetlen then Panic ExplicitPanic
  else
    padded ← make_slice Byte.x00 targetlen;
    padded ← fill_ones 0 (Z.to_nat (targetlen - 1 - len)) padded;
    padded ← padded.[Z.to_nat (targetlen - 1 - len) <- Byte.x00];
    let at_ := Z.to_nat (targetlen - len) in
    Ret (take at_ padded ++ go_copy (drop at_ padded) msg).

Fixpoint unPad (msg : list byte) : outcome (list byte) :=
  match msg with
  | [] => Panic ExplicitPanic
  | b :: rest => if bool_decide (b = Byte.x00) then Ret rest else unPad rest
  end.

(** [None] is the error [message size .. too long for .. bit key]. *)
Definition PrepareMsg (msg : list byte) (plen : Z) : outcome (option Z) :=
  let maxsize := bytesMaxSize plen in
  if maxsize <? Z.of_nat (length msg) then Ret None
  else padded ← pad msg (maxsize + 1); Ret (Some (SetBytes padded)).

Definition Encrypt (privkey : PrivateKey) (prevC : Z) : Z :=
  Exp prevC (E privkey) (P (SysKey privkey)).

Definition Decrypt (privkey : PrivateKey) (prevD : Z) : Z :=
  Exp prevD (D privkey) (P (SysKey privkey)).

Definition ExtractMsg (D : Z) : outcome (list byte) := unPad (Bytes D).

(** ** keygen.go *)

Inductive SysKeyError := ErrBitLen (actual expected : Z) | ErrNotPrime.

(** [ModInverse(g, n)]: nil when [g] and [n] are not coprime. *)
Definition ModInverse (g n : Z) : option Z :=
  if bool_decide (Z.gcd g n = 1) then Some (Z.invmod g n) else None.

(** The loop of [GenUserKey]: each iteration draws once from [random], so the
    recursion follows the reader. *)
Fixpoint drawExponent (random : Reader) (p1 : Z) : outcome (option Z * Reader) :=
  '(e, random1) ← randHelp random p1;
  match e, random with
  | Some e, _ :: random' =>
      if bool_decide (BitLen (Z.gcd e p1) ≠ 1) then drawExponent random' p1
      else Ret (Some e, random1)
  | _, _ => Ret (None, random1)
  end.

(** The result is [None] on an error of the reader. *)
Definition GenUserKey (random : Reader) (syskey : SystemKey) : outcome (option PrivateKey * Reader) :=
  let p1 := P syskey - 1 in
  '(e, random') ← drawExponent random p1;
  match e with
  | None => Ret (None, random')
  | Some e =>
      match ModInverse e p1 with
      | None => Ret (None, random')
      | Some d => Ret (Some (mkPrivateKey syskey e d), random')
      end
  end.

Section keygen.

(** [x.ProbablyPrime(n)] of math/big. *)
Context (ProbablyPrime : Z → Z → bool).

(** The loop of [GenSysKey], along the reader as in [drawExponent]. *)
Fixpoint GenSysKey (random : Reader) (bitsp : Z) : option SystemKey * Reader :=
  let '(p, random1) := rand_Prime random bitsp in
  match p, random with
  | Some p, _ :: random' =>
      if ProbablyPrime p 40 then (Some (mkSystemKey p), random1)
      else GenSysKey random' bitsp
  | _, _ => (None, random1)
  end.

(** [None] is the nil error. *)
Definition VerifySysKey (syskey : SystemKey) (bitsp : Z) : option SysKeyError :=
  if bool_decide (BitLen (P syskey) ≠ bitsp) then Some (ErrBitLen (BitLen (P syskey)) bitsp)
  else if negb (ProbablyPrime (P syskey) 40) then Some ErrNotPrime
  else None.

End keygen.

(** ** Keys *)

(** What [GenUserKey] promises: inverse exponents modulo [P - 1]. *)
Definition valid_key (k : PrivateKey) : Prop :=
  0 ≤ E k ∧ 0 ≤ D k ∧ (E k * D k) mod (P (SysKey k) - 1) = 1 mod (P (SysKey k) - 1).

(** A group element that encryption can carry. *)
Definition in_group (p m : Z) : Prop := 0 < m < p.

(** The first draw of the reader whose exponent is coprime with [p1]. *)
Definition coprime_draw (p1 : Z) (d : option Z) : bool :=
  match d with Some v => Z.gcd (v mod (p1 - 1) + 1) p1 =? 1 | None => false end.

Lemma gcd_BitLen e p1 : p1 ≠ 0 → (BitLen (Z.gcd e p1) = 1 ↔ Z.gcd e p1 = 1).
Proof.
  intros Hp. pose proof (Z.gcd_nonneg e p1) as Hn.
  assert (Z.gcd e p1 ≠ 0) by (intros [_ ?]%Z.gcd_eq_0; done).
  split; [|by intros ->]. intros HB.
  assert (BitLen (Z.gcd e p1) ≤ 1) as HB' by lia.
  apply BitLen_spec in HB'; lia.
Qed.

Lemma drawExponent_coprime random p1 e random' :
  1 < p1 → drawExponent random p1 = Ret (Some e, random') →
  1 ≤ e < p1 ∧ Z.gcd e p1 = 1.
Proof.
  intros Hp. induction random as [|d random IH];
    simpl; unfold randHelp, rand_Int; case_match; simpl; try done.
  bool_to_prop. destruct d as [v|]; simpl; [|done].
  pose proof (Z.mod_pos_bound v (p1 - 1)).
  case_bool_decide as HB; [apply IH|].
  intros [= <- <-]. apply gcd_BitLen in HB; lia.
Qed.

(** The loop ends at the first suitable draw. *)
Lemma drawExponent_finds p1 v draws :
  2 < p1 → coprime_draw p1 (Some v) = true → ∀ skipped,
  Forall (fun d => is_Some d ∧ coprime_draw p1 d = false) skipped →
  drawExponent (skipped ++ Some v :: draws) p1 = Ret (Some (v mod (p1 - 1) + 1), draws).
Proof.
  intros Hp Hv skipped Hs. induction Hs as [|d l [[w ->] Hd] Hs IH]; simpl;
    unfold randHelp, rand_Int; (case_match; bool_to_prop; [lia|]); simpl.
  - rewrite bool_decide_false; [done|]. intros HB. apply HB, gcd_BitLen; [lia|].
    simpl in Hv. by bool_to_prop.
  - rewrite bool_decide_true; [done|]. rewrite gcd_BitLen by lia.
    simpl in Hd. by bool_to_prop.
Qed.

Lemma invmod_range e n : 0 < n → 0 ≤ Z.invmod e n < n.
Proof. intros. rewrite <- Z.mod_invmod. by apply Z.mod_pos_bound. Qed.

Lemma inverse_exponents_valid sys e :
  1 < P sys → 0 ≤ e → Z.gcd e (P sys - 1) = 1 →
  valid_key (mkPrivateKey sys e (Z.invmod e (P sys - 1))).
Proof.
  intros Hp He Hg. pose proof (invmod_range e (P sys - 1)).
  repeat split; simpl; [done|lia|].
  rewrite Z.mul_comm. by apply Z.invmod_coprime'.
Qed.

(** ** Exponentiation in the group *)

Lemma pow_nonzero_mod p m x : Z.prime p → in_group p m → 0 ≤ x → m ^ x mod p ≠ 0.
Proof.
  intros Hp Hm Hx H0. apply Z.mod_divide in H0; [|unfold in_group in Hm; lia].
  revert H0. revert x Hx. apply (natlike_ind (fun x => ¬ (p | m ^ x))).
  - intros H%Z.divide_1_r_nonneg; [|unfold in_group in Hm; lia].
    subst. by apply Z.not_prime_1 in Hp.
  - intros x Hx IH H. rewrite Z.pow_succ_r in H by done.
    apply Z.divide_prime_mul in H as [H|H]; [|done..].
    apply Z.divide_pos_le in H; unfold in_group in Hm; lia.
Qed.

(** Exponents congruent to 1 modulo [p - 1] act as the identity. *)
Lemma pow_one_mod p m x :
  Z.prime p → in_group p m → 0 ≤ x → x mod (p - 1) = 1 mod (p - 1) → m ^ x mod p = m.
Proof.
  unfold in_group. intros Hp Hm Hx Hmod. pose proof (Z.prime_ge_2 _ Hp).
  destruct (decide (p = 2)) as [->|]; [by replace m with 1 by lia; rewrite Z.pow_1_l|].
  rewrite (Z.mod_small 1) in Hmod by lia.
  pose proof (Z.div_mod x (p - 1) ltac:(lia)) as Hdm. rewrite Hmod in Hdm.
  assert (0 ≤ x / (p - 1)) by (apply Z.div_pos; lia).
  rewrite Hdm, Z.pow_add_r, Z.pow_1_r, Z.pow_mul_r by nia.
  rewrite <- Z.mul_mod_idemp_l by lia. rewrite <- Z.mod_pow_l.
  assert (m mod p ≠ 0) by (rewrite (Z.mod_small m p) by lia; lia).
  rewrite Z.fermat_nz by done.
  rewrite Z.pow_1_l, Z.mod_1_l, Z.mul_1_l by lia. apply Z.mod_small. lia.
Qed.

Lemma Exp_Exp p m x y : 0 < p → 0 ≤ x → 0 ≤ y → Exp (Exp m x p) y p = m ^ (x * y) mod p.
Proof. intros. rewrite !Exp_mod, Z.mod_pow_l, <- Z.pow_mul_r by done. done. Qed.

Lemma Exp_in_group p m x : Z.prime p → in_group p m → 0 ≤ x → in_group p (Exp m x p).
Proof.
  intros Hp Hm Hx. unfold in_group in *. rewrite Exp_mod by lia.
  pose proof (pow_nonzero_mod p m x Hp Hm Hx).
  pose proof (Z.mod_pos_bound (m ^ x) p). lia.
Qed.

(** Exponentiations commute, whatever the exponents. *)
Lemma Exp_comm p m x y :
  0 < p → 0 ≤ x → 0 ≤ y → Exp (Exp m x p) y p = Exp (Exp m y p) x p.
Proof. intros. rewrite !Exp_Exp by done. by rewrite Z.mul_comm. Qed.

Lemma Exp_cancel p m x y :
  Z.prime p → in_group p m → 0 ≤ x → 0 ≤ y →
  (x * y) mod (p - 1) = 1 mod (p - 1) → Exp (Exp m x p) y p = m.
Proof.
  intros Hp Hm Hx Hy H. unfold in_group in Hm. rewrite Exp_Exp by lia.
  apply pow_one_mod; (done || lia).
Qed.

(** ** Padding *)

Lemma fill_ones_spec k : ∀ pre suf,
  (k ≤ length suf)%nat →
  fill_ones (length pre) k (pre ++ suf) = Ret (pre ++ replicate k Byte.x01 ++ drop k suf).
Proof.
  induction k as [|k IH]; intros pre suf Hk; [done|].
  destruct suf as [|b suf]; simpl in Hk; [lia|]. simpl.
  rewrite slice_set_ret by (rewrite length_app; simpl; lia). simpl.
  rewrite insert_app_r_alt, Nat.sub_diag by lia. simpl.
  specialize (IH (pre ++ [Byte.x01]) suf).
  rewrite length_app, Nat.add_1_r, <- app_assoc in IH. simpl in IH.
  rewrite IH by lia. by rewrite <- app_assoc.
Qed.

(** [pad] lays out ones, one zero, and the message. *)
Lemma pad_spec msg n :
  pad msg (Z.of_nat (length msg + S n)) = Ret (replicate n Byte.x01 ++ Byte.x00 :: msg).
Proof.
  unfold pad. rewrite (proj2 (Z.ltb_ge _ _)), (proj2 (Z.eqb_neq _ _)) by lia.
  unfold make_slice. rewrite decide_False, Nat2Z.id by lia. simpl.
  replace (Z.to_nat (Z.of_nat (length msg + S n) - 1 - Z.of_nat (length msg))) with n by lia.
  replace (Z.to_nat (Z.of_nat (length msg + S n) - Z.of_nat (length msg))) with (S n) by lia.
  pose proof (fill_ones_spec n [] (replicate (length msg + S n) Byte.x00)) as Hf.
  simpl in Hf. rewrite Hf by (rewrite length_replicate; lia). simpl.
  rewrite drop_replicate. replace (length msg + S n - n)%nat with (S (length msg)) by lia.
  simpl. rewrite slice_set_ret by (rewrite length_app, !length_replicate; simpl; lia). simpl.
  rewrite insert_app_r_alt, length_replicate, Nat.sub_diag by (by rewrite length_replicate).
  simpl. f_equal.
  change (Byte.x00 :: replicate (length msg) Byte.x00)
    with ([Byte.x00] ++ replicate (length msg) Byte.x00).
  rewrite app_assoc, take_app_length', drop_app_length', go_copy_same;
    rewrite ?length_app, ?length_replicate; simpl; try lia.
  by rewrite <- app_assoc.
Qed.

Lemma unPad_skip n rest : unPad (replicate n Byte.x01 ++ rest) = unPad rest.
Proof. by induction n. Qed.

Lemma unPad_no_zero l : Byte.x00 ∉ l → unPad l = Panic ExplicitPanic.
Proof.
  induction l as [|b l IH]; [done|]. rewrite not_elem_of_cons. intros [Hb Hl]. simpl.
  rewrite bool_decide_false by done. by apply IH.
Qed.

Lemma bytesMaxSize_eq bits : 1 ≤ bits ≤ int_max → bytesMaxSize bits = (bits - 1) / 8 - 1.
Proof.
  unfold int_max. intros H. unfold bytesMaxSize. rewrite (wrap64_id (bits - 1)) by (unfold int_min, int_max; lia).
  rewrite Z.quot_div_nonneg by lia. apply wrap64_id. unfold int_min, int_max. lia_div.
Qed.

(** What [PrepareMsg] computes when the message fits. *)
Lemma PrepareMsg_spec msg plen :
  1 ≤ plen ≤ int_max → Z.of_nat (length msg) ≤ bytesMaxSize plen →
  PrepareMsg msg plen = Ret (Some (SetBytes
    (replicate (Z.to_nat (bytesMaxSize plen) - length msg) Byte.x01 ++ Byte.x00 :: msg))).
Proof.
  intros Hp Hl. unfold PrepareMsg. rewrite (proj2 (Z.ltb_ge _ _)) by done.
  replace (bytesMaxSize plen + 1) with
    (Z.of_nat (length msg + S (Z.to_nat (bytesMaxSize plen) - length msg))) by lia.
  by rewrite pad_spec.
Qed.

Lemma prepared_range n msg (k : Z) :
  8 * (Z.of_nat n + 1 + Z.of_nat (length msg)) ≤ k →
  0 ≤ SetBytes (replicate n Byte.x01 ++ Byte.x00 :: msg) < 2 ^ k.
Proof.
  intros Hk. pose proof (SetBytes_range (replicate n Byte.x01 ++ Byte.x00 :: msg)) as [H0 H1].
  split; [done|]. eapply Z.lt_le_trans; [exact H1|].
  rewrite length_app, length_replicate. simpl. change 256 with (2 ^ 8).
  rewrite <- Z.pow_mul_r by lia. apply Z.pow_le_mono_r; lia.
Qed.

Lemma prepared_positive n msg : 0 < SetBytes (replicate (S n) Byte.x01 ++ Byte.x00 :: msg).
Proof.
  simpl. rewrite SetBytes_cons. pose proof (SetBytes_range (replicate n Byte.x01 ++ Byte.x00 :: msg)).
  change (b2z Byte.x01) with 1. lia.
Qed.

Lemma extract_prepared n msg :
  ExtractMsg (SetBytes (replicate (S n) Byte.x01 ++ Byte.x00 :: msg)) = Ret msg.
Proof.
  unfold ExtractMsg. rewrite Bytes_SetBytes by done. by rewrite unPad_skip.
Qed.

Lemma extract_unpadded msg :
  ExtractMsg (SetBytes (Byte.x00 :: msg)) = unPad (strip_zeros msg).
Proof. unfold ExtractMsg. by rewrite Bytes_SetBytes_strip. Qed.

Lemma strip_zeros_no_zero msg : Byte.x00 ∉ msg → strip_zeros msg = msg.
Proof. destruct msg as [|b msg]; [done|]. rewrite not_elem_of_cons. by destruct b; intros [??]. Qed.

Lemma prepare_extract msg p :
  0 < p → BitLen p ≤ int_max → Z.of_nat (length msg) < bytesMaxSize (BitLen p) →
  ∃ m, PrepareMsg msg (BitLen p) = Ret (Some m) ∧ ExtractMsg m = Ret msg ∧ in_group p m.
Proof.
  intros Hp Hb Hl. assert (1 ≤ BitLen p) as Hb1.
  { unfold BitLen. rewrite bool_decide_false by lia. pose proof (Z.log2_nonneg (Z.abs p)). lia. }
  eexists. split; [apply PrepareMsg_spec; lia|].
  pose proof (bytesMaxSize_eq (BitLen p) ltac:(lia)) as Heq.
  destruct (Z.to_nat (bytesMaxSize (BitLen p)) - length msg)%nat as [|n] eqn:Hn; [lia|].
  split; [apply extract_prepared|]. split; [apply prepared_positive|].
  pose proof (BitLen_lower p ltac:(lia)) as Hlow. rewrite (Z.abs_eq p) in Hlow by lia.
  eapply Z.lt_le_trans; [|exact Hlow]. apply prepared_range. lia_div.
Qed.

Lemma GenUserKey_valid random sys k random' :
  3 < P sys → GenUserKey random sys = Ret (Some k, random') → SysKey k = sys ∧ valid_key k.
Proof.
  intros Hp HG. unfold GenUserKey in HG.
  apply bind_ret_inv in HG as ([[e|] r1] & He & HG); [|done].
  apply drawExponent_coprime in He as [He Hg]; [|lia].
  unfold ModInverse in HG. rewrite bool_decide_true in HG by done. simplify_eq.
  split; [done|]. apply inverse_exponents_valid; (done || lia).
Qed.

(** ** Several keys of one system *)

Definition encrypt_all (ks : list PrivateKey) (m : Z) : Z := foldl (fun c k => Encrypt k c) m ks.
Definition decrypt_all (ks : list PrivateKey) (c : Z) : Z := foldl (fun c k => Decrypt k c) c ks.

Section keyring.
Context (sys : SystemKey) (Hprime : Z.prime (P sys)).

Definition ring_key (k : PrivateKey) : Prop := SysKey k = sys ∧ valid_key k.

Lemma Encrypt_in_group k m : ring_key k → in_group (P sys) m → in_group (P sys) (Encrypt k m).
Proof. intros [Hk (He & _ & _)] Hm. unfold Encrypt. rewrite Hk. by apply Exp_in_group. Qed.

Lemma Decrypt_in_group k m : ring_key k → in_group (P sys) m → in_group (P sys) (Decrypt k m).
Proof. intros [Hk (_ & Hd & _)] Hm. unfold Decrypt. rewrite Hk. by apply Exp_in_group. Qed.

Lemma Decrypt_Encrypt k m : ring_key k → in_group (P sys) m → Decrypt k (Encrypt k m) = m.
Proof.
  intros [Hk (He & Hd & Hv)] Hm. unfold Decrypt, Encrypt. rewrite Hk in *.
  by apply Exp_cancel.
Qed.

Lemma Decrypt_Encrypt_comm k k' m :
  ring_key k → ring_key k' → in_group (P sys) m →
  Decrypt k (Encrypt k' m) = Encrypt k' (Decrypt k m).
Proof.
  intros [Hk (_ & Hd & _)] [Hk' (He & _ & _)] Hm. unfold Decrypt, Encrypt. rewrite Hk, Hk'.
  apply Exp_comm; [unfold in_group in Hm; lia|done..].
Qed.

Lemma encrypt_all_in_group ks m :
  Forall ring_key ks → in_group (P sys) m → in_group (P sys) (encrypt_all ks m).
Proof.
  intros Hks. revert m. induction Hks as [|k ks Hk Hks IH]; intros m Hm; [done|].
  simpl. by apply IH, Encrypt_in_group.
Qed.

Lemma Decrypt_encrypt_all k ks m :
  ring_key k → Forall ring_key ks → in_group (P sys) m →
  Decrypt k (encrypt_all ks m) = encrypt_all ks (Decrypt k m).
Proof.
  intros Hk Hks. revert m. induction Hks as [|k' ks Hk' Hks IH]; intros m Hm; [done|].
  simpl. rewrite IH by by apply Encrypt_in_group. by rewrite Decrypt_Encrypt_comm.
Qed.

(** Removing one layer wherever it lies. *)
Lemma Decrypt_layer k ks1 ks2 m :
  Forall ring_key (ks1 ++ k :: ks2) → in_group (P sys) m →
  Decrypt k (encrypt_all (ks1 ++ k :: ks2) m) = encrypt_all (ks1 ++ ks2) m.
Proof.
  intros Hks Hm. apply Forall_app in Hks as [H1 [Hk H2]%Forall_cons_iff].
  unfold encrypt_all. rewrite !foldl_app. simpl.
  fold (encrypt_all ks1 m). pose proof (encrypt_all_in_group ks1 m H1 Hm).
  change (Decrypt k (encrypt_all ks2 (Encrypt k (encrypt_all ks1 m)))
    = encrypt_all ks2 (encrypt_all ks1 m)).
  rewrite Decrypt_encrypt_all by (done || by apply Encrypt_in_group).
  by rewrite Decrypt_Encrypt.
Qed.

Lemma decrypt_all_encrypt_all ks ks' m :
  Forall ring_key ks → ks' ≡ₚ ks → in_group (P sys) m →
  decrypt_all ks' (encrypt_all ks m) = m.
Proof.
  intros Hks Hp Hm. revert ks Hks Hp. induction ks' as [|k ks' IH]; intros ks Hks Hp.
  - apply Permutation_nil_l in Hp. by subst.
  - destruct (Permutation_cons_inv_l _ _ _ Hp) as (l1 & l2 & -> & Hp').
    simpl. rewrite Decrypt_layer by done. apply IH; [|done].
    apply Forall_app in Hks as [? [? ?]%Forall_cons_iff]. by apply Forall_app.
Qed.

End keyring.

(** ** Properties *)

(** C10: onion encryption.  For a prime modulus, a message of the group encrypted
    under any sequence of valid user keys is recovered exactly by decrypting
    with the same keys in any order. *)
Theorem massey_omura_any_order sys ks ks' m :
  Z.prime (P sys) → Forall (ring_key sys) ks → ks' ≡ₚ ks → in_group (P sys) m →
  decrypt_all ks' (encrypt_all ks m) = m.
Proof. intros. by eapply decrypt_all_encrypt_all. Qed.

(** [GenUserKey] returns, at the first draw that is coprime with P - 1, a key
    whose exponents are in range and inverse to each other, and leaves the
    rest of the reader. *)
Theorem GenUserKey_finds_key sys skipped v rest :
  3 < P sys →
  Forall (fun d => is_Some d ∧ coprime_draw (P sys - 1) d = false) skipped →
  coprime_draw (P sys - 1) (Some v) = true →
  ∃ k, GenUserKey (skipped ++ Some v :: rest) sys = Ret (Some k, rest) ∧
    SysKey k = sys ∧ valid_key k ∧
    1 ≤ E k < P sys - 1 ∧ 0 ≤ D k < P sys - 1.
Proof.
  intros Hp Hs Hv. unfold GenUserKey. rewrite drawExponent_finds by (done || lia). simpl in *.
  bool_to_prop. unfold ModInverse. rewrite bool_decide_true by done.
  pose proof (Z.mod_pos_bound v (P sys - 1 - 1)).
  pose proof (invmod_range (v mod (P sys - 1 - 1) + 1) (P sys - 1) ltac:(lia)).
  eexists; split_and!; [done|done|apply inverse_exponents_valid; (done || lia)|simpl; lia..].
Qed.

(** C30: [PrepareMsg] and [ExtractMsg] are inverse for every message strictly
    shorter than the maximum size of the modulus, and the prepared integer is
    a nonzero residue of any modulus with that many bits. *)
Theorem PrepareMsg_ExtractMsg_roundtrip msg p :
  0 < p → BitLen p ≤ int_max → Z.of_nat (length msg) < bytesMaxSize (BitLen p) →
  ∃ m, PrepareMsg msg (BitLen p) = Ret (Some m) ∧ ExtractMsg m = Ret msg ∧ in_group p m.
Proof. apply prepare_extract. Qed.

(** C31: a message of exactly the maximum size passes [PrepareMsg], but its zero
    separator becomes the leading byte of an integer and is lost: [ExtractMsg]
    panics on every such message that holds no zero byte. *)
Theorem full_size_message_cannot_be_extracted msg plen :
  1 ≤ plen ≤ int_max → Z.of_nat (length msg) = bytesMaxSize plen → Byte.x00 ∉ msg →
  ∃ m, PrepareMsg msg plen = Ret (Some m) ∧ ExtractMsg m = Panic ExplicitPanic.
Proof.
  intros Hp Hl Hz. eexists. split; [apply PrepareMsg_spec; lia|].
  replace (Z.to_nat (bytesMaxSize plen) - length msg)%nat with 0%nat by lia.
  simpl. rewrite extract_unpadded, strip_zeros_no_zero by done. by apply unPad_no_zero.
Qed.

(** The size computations agree: a key generated for messages of [n] bytes
    accepts exactly the messages of at most [n] bytes, and [PrepareMsg] never
    panics on such a key. *)
Theorem PrepareMsg_accepts_iff_fits msg n :
  0 ≤ n < 2 ^ 59 →
  bytesMaxSize (BitsMaxSize n) = n ∧
  ((∃ m, PrepareMsg msg (BitsMaxSize n) = Ret (Some m)) ↔ Z.of_nat (length msg) ≤ n) ∧
  (PrepareMsg msg (BitsMaxSize n) = Ret None ↔ n < Z.of_nat (length msg)).
Proof.
  intros Hn. assert (BitsMaxSize n = 8 * n + 9) as Hb.
  { unfold BitsMaxSize.
    rewrite (wrap64_id (n + 1)), (wrap64_id (8 * (n + 1))), wrap64_id;
      unfold int_min, int_max; lia. }
  assert (1 ≤ BitsMaxSize n ≤ int_max) by (unfold int_max; lia).
  assert (bytesMaxSize (BitsMaxSize n) = n) as Hm
    by (rewrite bytesMaxSize_eq by done; rewrite Hb; lia_div).
  split; [done|]. destruct (decide (Z.of_nat (length msg) ≤ n)) as [Hl|Hl].
  - rewrite PrepareMsg_spec by lia. split; split; try (eauto || done || lia).
  - unfold PrepareMsg. rewrite Hm, (proj2 (Z.ltb_lt _ _)) by lia.
    split; split; try (done || lia). by intros [? ?].
Qed.

(** The system key returned by [GenSysKey] passes [VerifySysKey] for the same
    bit length, provided crypto/rand answers with numbers of that length. *)
Lemma GenSysKey_passes_VerifySysKey ProbablyPrime random bitsp key random' :
  Forall (fun r => match r with Some p => BitLen p = bitsp | None => True end) random →
  GenSysKey ProbablyPrime random bitsp = (Some key, random') →
  VerifySysKey ProbablyPrime key bitsp = None.
Proof.
  intros Hr. induction Hr as [|r random Hr Hrs IH]; simpl; unfold rand_Prime;
    destruct (bitsp <? 2); simpl; try done.
  destruct r as [p|]; [|done]. destruct (ProbablyPrime p 40) eqn:Hpp; [|done].
  intros [= <- <-]. unfold VerifySysKey. simpl. by rewrite bool_decide_false, Hpp by naive_solver.
Qed.

(** ** Concrete keys *)

(** The prime 23, with two pairs of exponents that are inverse modulo 22. *)
Definition sys23 : SystemKey := mkSystemKey 23.
Definition key_a : PrivateKey := mkPrivateKey sys23 3 15.
Definition key_b : PrivateKey := mkPrivateKey sys23 7 19.

Lemma prime_23 : Z.prime (P sys23).
Proof. apply trial_prime_sound. reflexivity. Qed.

Lemma massey_omura_any_order_witness :
  decrypt_all [key_a; key_b] (encrypt_all [key_a; key_b] 5) = 5 ∧
  decrypt_all [key_b; key_a] (encrypt_all [key_a; key_b] 5) = 5.
Proof.
  split; (apply (massey_omura_any_order sys23);
    [apply prime_23 | repeat constructor; vm_compute; congruence
    | first [reflexivity | apply Permutation_swap] | vm_compute; split; reflexivity]).
Defined.

Lemma GenUserKey_finds_key_witness :
  ∃ k, GenUserKey [Some 10; Some 2; Some 7] sys23 = Ret (Some k, [Some 7]) ∧ SysKey k = sys23 ∧
    valid_key k ∧ 1 ≤ E k < 22 ∧ 0 ≤ D k < 22.
Proof.
  apply (GenUserKey_finds_key sys23 [Some 10] 2 [Some 7]); [reflexivity| |reflexivity].
  repeat constructor. by exists 10.
Defined.

Lemma PrepareMsg_ExtractMsg_roundtrip_witness :
  ∃ m, PrepareMsg [Byte.x41] (BitLen (2 ^ 24)) = Ret (Some m) ∧ ExtractMsg m = Ret [Byte.x41] ∧
    in_group (2 ^ 24) m.
Proof.
  apply PrepareMsg_ExtractMsg_roundtrip; [reflexivity|vm_compute; congruence|reflexivity].
Defined.

Lemma full_size_message_cannot_be_extracted_witness :
  ∃ m, PrepareMsg [Byte.x41; Byte.x42] 25 = Ret (Some m) ∧ ExtractMsg m = Panic ExplicitPanic.
Proof.
  apply full_size_message_cannot_be_extracted;
    [vm_compute; split; congruence|reflexivity|by apply (bool_decide_unpack _)].
Defined.

Lemma PrepareMsg_accepts_iff_fits_witness :
  (∃ m, PrepareMsg [Byte.x41; Byte.x42] (BitsMaxSize 2) = Ret (Some m)) ↔ 2 ≤ 2.
Proof.
  apply (PrepareMsg_accepts_iff_fits [Byte.x41; Byte.x42] 2).
  vm_compute. split; congruence.
Defined.

Example GenSysKey_passes_VerifySysKey_23 :
  VerifySysKey (fun p _ => trial_prime p) sys23 5 = None.
Proof.
  apply (GenSysKey_passes_VerifySysKey _ [Some 21; Some 23] 5 sys23 []).
  - repeat constructor; reflexivity.
  - reflexivity.
Defined.

End masseyomura.
