(* ===== verification/ElGamal.v ===== *)
(** * The commutative ElGamal cipher

    Model of the package [elgamal] (src/elgamal/basics.go, keygen.go and
    encrypt.go), an alternative to Massey-Omura that the repository keeps for
    reference.  The theorems show that several layers can be removed in any
    order, which messages the padding can carry, and which group the generated
    parameters really span.  crypto/rand and math/big are modelled as in
    MasseyOmura. *)

From Stdlib Require Import Strings.Byte Zpow_facts Zcong Znumtheory ZmodInv.
From S2P Require Import Prelude Bytes Primes MasseyOmura.

Local Open Scope Z_scope.

Module elgamal.
Import masseyomura (Reader, rand_Int, rand_Prime, ModInverse, fill_ones).

(** ** basics.go *)

Record SystemKey := mkSystemKey { sysP : Z; sysQ : Z; sysG : Z }.

Record PublicKey := mkPublicKey { P : Z; Q : Z; G : Z; Y : Z }.

Record PrivateKey := mkPrivateKey { Pub : PublicKey; X : Z }.

(** On a read error [rand.Int] returns nil, and [r.Add] dereferences it before
    the error is looked at. *)
Definition randHelp (random : Reader) (Q : Z) : outcome (option Z * Reader) :=
  '(r, random') ← rand_Int random (Q - 1);
  match r with
  | None => Panic NilDereference
  | Some r => Ret (Some (r + 1), random')
  end.

(** ** encrypt.go *)

Definition pad (msg : list byte) (targetlen : Z) : outcome (list byte) :=
  let len := Z.of_nat (length msg) in
  if targetlen <? len then Panic ExplicitPanic
  else if len =? targetlen then Panic ExplicitPanic
  else
    padded ← make_slice Byte.x00 (targetlen - 1);
    padded ← fill_ones 0 (Z.to_nat (targetlen - 2 - len)) padded;
    padded ← (if targetlen - 2 - len <? 0 then Panic IndexOutOfRange
              else padded.[Z.to_nat (targetlen - 2 - len) <- Byte.x00]);
    let at_ := Z.to_nat (targetlen - len - 1) in
    Ret (take at_ padded ++ go_copy (drop at_ padded) msg).

Fixpoint unpad (msg : list byte) : outcome (list byte) :=
  match msg with
  | [] => Panic ExplicitPanic
  | b :: rest => if bool_decide (b = Byte.x00) then Ret rest else unpad rest
  end.

Definition maxsize (plen : Z) : Z := wrap64 (Z.quot (wrap64 (plen + 7)) 8 - 2).

(** [None] is the error [Message size .. too long for .. bit key]. *)
Definition PrepareMsg (msg : list byte) (plen : Z) : outcome (option Z) :=
  if maxsize plen <? Z.of_nat (length msg) then Ret None
  else padded ← pad msg (maxsize plen); Ret (Some (SetBytes padded)).

(** The pair [(K, C)]; the product is not reduced modulo P. *)
Definition Encrypt (random : Reader) (pubkey : PublicKey) (prevC : Z)
    : outcome (option (Z * Z) * Reader) :=
  '(r, random') ← randHelp random (Q pubkey);
  match r with
  | None => Ret (None, random')
  | Some r => Ret (Some (Exp (G pubkey) r (P pubkey), Exp (Y pubkey) r (P pubkey) * prevC), random')
  end.

(** [None] is the error [Decrypt received invalid private key]. *)
Definition Decrypt (privkey : PrivateKey) (K prevD : Z) : option Z :=
  match ModInverse (Exp K (X privkey) (P (Pub privkey))) (P (Pub privkey)) with
  | None => None
  | Some denom => Some ((prevD * denom) mod P (Pub privkey))
  end.

Definition ExtractMsg (D : Z) : outcome (list byte) := unpad (Bytes D).

(** ** keygen.go *)

Section keygen.
Context (ProbablyPrime : Z → Z → bool).

(** The two nested loops that choose q, r and p.  Every pass of the inner loop
    draws a candidate for q; when it is rejected, or when the p made from it is,
    the state of the loops is the initial one, so both continue here. *)
Fixpoint genPQ (random : Reader) (bitsq : Z) : outcome (option (Z * Z * Z) * Reader) :=
  let '(q, random1) := rand_Prime random bitsq in
  match q, random with
  | Some q, _ :: random' =>
      if ProbablyPrime q 40 then
        '(r, random2) ← randHelp random' 10;
        match r, random' with
        | Some r, _ :: random'' =>
            let p := r * q * 2 + 1 in
            if ProbablyPrime p 40 then Ret (Some (p, q, r), random2) else genPQ random'' bitsq
        | _, _ => Ret (None, random2)
        end
      else genPQ random' bitsq
  | _, _ => Ret (None, random1)
  end.

(** The loop that chooses the generator. *)
Fixpoint genG (random : Reader) (p q r : Z) : outcome (option Z * Reader) :=
  '(h, random1) ← randHelp random q;
  match h, random with
  | Some h, _ :: random' =>
      let g := Exp h r p in
      if 1 <? BitLen g then Ret (Some g, random1) else genG random' p q r
  | _, _ => Ret (None, random1)
  end.

Definition GenSysKey (random : Reader) (bitsq : Z) : outcome (option SystemKey * Reader) :=
  '(pqr, random) ← genPQ random bitsq;
  match pqr with
  | None => Ret (None, random)
  | Some (p, q, r) =>
      '(g, random) ← genG random p q r;
      match g with
      | None => Ret (None, random)
      | Some g => Ret (Some (mkSystemKey p q g), random)
      end
  end.

End keygen.

Definition GenUserKey (random : Reader) (syskey : SystemKey) : outcome (option PrivateKey * Reader) :=
  '(x, random') ← randHelp random (sysQ syskey);
  match x with
  | None => Ret (None, random')
  | Some x =>
      Ret (Some (mkPrivateKey
             (mkPublicKey (sysP syskey) (sysQ syskey) (sysG syskey) (Exp (sysG syskey) x (sysP syskey)))
             x), random')
  end.

(** ** Padding *)

Lemma unpad_unPad l : unpad l = masseyomura.unPad l.
Proof. induction l as [|b l IH]; simpl; [done|]. by rewrite IH. Qed.

(** The layout is the one of [masseyomura.pad] with one byte less. *)
Lemma pad_shift msg t :
  Z.of_nat (length msg) < t → pad msg (t + 1) = masseyomura.pad msg t.
Proof.
  intros Hl. unfold pad, masseyomura.pad.
  rewrite !(proj2 (Z.ltb_ge _ (Z.of_nat (length msg)))), !(proj2 (Z.eqb_neq _ _)) by lia.
  replace (t + 1 - 1) with t by lia.
  replace (t + 1 - 2 - Z.of_nat (length msg)) with (t - 1 - Z.of_nat (length msg)) by lia.
  rewrite (proj2 (Z.ltb_ge _ 0)) by lia.
  by replace (t + 1 - Z.of_nat (length msg) - 1) with (t - Z.of_nat (length msg)) by lia.
Qed.

Lemma maxsize_eq plen : 1 ≤ plen ≤ int_max - 7 → maxsize plen = (plen + 7) / 8 - 2.
Proof.
  unfold int_max. intros H. unfold maxsize.
  rewrite (wrap64_id (plen + 7)) by (unfold int_min, int_max; lia).
  rewrite Z.quot_div_nonneg by lia. apply wrap64_id. unfold int_min, int_max. lia_div.
Qed.

Lemma PrepareMsg_layout msg plen :
  Z.of_nat (length msg) < maxsize plen - 1 →
  PrepareMsg msg plen = Ret (Some (SetBytes
    (replicate (Z.to_nat (maxsize plen - 2 - Z.of_nat (length msg))) Byte.x01 ++ Byte.x00 :: msg))).
Proof.
  intros Hl. unfold PrepareMsg. rewrite (proj2 (Z.ltb_ge _ _)) by lia.
  replace (maxsize plen) with (maxsize plen - 1 + 1) at 1 by lia. rewrite pad_shift by lia.
  replace (maxsize plen - 1) with (Z.of_nat (length msg +
    S (Z.to_nat (maxsize plen - 2 - Z.of_nat (length msg))))) by lia.
  by rewrite masseyomura.pad_spec.
Qed.

(** Extraction from a slice that lost its separator gives something shorter. *)
Lemma unpad_shorter l m : unpad l = Ret m → (length m < length l)%nat.
Proof.
  induction l as [|b l IH]; simpl; [done|]. case_bool_decide; [intros [= <-]; lia|].
  intros ?%IH. lia.
Qed.

Lemma length_strip_zeros l : (length (strip_zeros l) ≤ length l)%nat.
Proof. induction l as [|b l IH]; simpl; [done|]. destruct b; simpl; lia. Qed.

Lemma extract_lost_separator msg : ExtractMsg (SetBytes (Byte.x00 :: msg)) ≠ Ret msg.
Proof.
  unfold ExtractMsg. rewrite Bytes_SetBytes_strip. intros H%unpad_shorter.
  pose proof (length_strip_zeros msg). simpl in H. lia.
Qed.

(** ** Layers *)

(** Encrypting under several keys in turn; every user saves its own K. *)
Fixpoint encrypt_all (ks : list PrivateKey) (random : Reader) (C : Z)
    : outcome (option (list (PrivateKey * Z) * Z) * Reader) :=
  match ks with
  | [] => Ret (Some ([], C), random)
  | k :: ks =>
      '(kc, random) ← Encrypt random (Pub k) C;
      match kc with
      | None => Ret (None, random)
      | Some (K, C) =>
          '(rows, random) ← encrypt_all ks random C;
          Ret (match rows with Some (rows, C) => Some ((k, K) :: rows, C) | None => None end, random)
      end
  end.

Fixpoint decrypt_all (rows : list (PrivateKey * Z)) (D : Z) : option Z :=
  match rows with
  | [] => Some D
  | (k, K) :: rows => D ← Decrypt k K D; decrypt_all rows D
  end.

Lemma cong_cancel p a c b :
  0 < p → Z.coprime b p → (a * b) mod p = (c * b) mod p → a mod p = c mod p.
Proof.
  intros Hp Hb H. apply Z.cong_iff_0. apply (Z.cong_mul_cancel_r_coprime _ b); [lia|done|].
  rewrite Z.mul_sub_distr_r. by apply Z.cong_iff_0.
Qed.

Section keyring.
Context (sys : SystemKey) (Hprime : Z.prime (sysP sys)).

(** What [GenUserKey] promises. *)
Definition ring_key (k : PrivateKey) : Prop :=
  P (Pub k) = sysP sys ∧ Q (Pub k) = sysQ sys ∧ G (Pub k) = sysG sys ∧
  0 ≤ X k ∧ Y (Pub k) = Exp (sysG sys) (X k) (sysP sys).

Definition row_ok (row : PrivateKey * Z) : Prop :=
  P (Pub row.1) = sysP sys ∧ 0 ≤ X row.1 ∧ masseyomura.in_group (sysP sys) row.2.

(** The factor by which the rows blind a message. *)
Definition blinding (rows : list (PrivateKey * Z)) : Z :=
  foldr (fun row acc => row.2 ^ X row.1 * acc) 1 rows.

#[local] Instance blinding_perm : Proper (Permutation ==> eq) blinding.
Proof.
  intros l l' Hp. induction Hp as [|x l l' _ IH|x y l|l1 l2 l3 _ IH1 _ IH2]; simpl;
    [done|by rewrite IH|ring|congruence].
Qed.

Lemma sysP_ge_2 : 2 ≤ sysP sys.
Proof. by apply Z.prime_ge_2. Qed.

(** One decryption divides by one factor. *)
Lemma Decrypt_spec row D :
  row_ok row → ∃ D', Decrypt row.1 row.2 D = Some D' ∧ 0 ≤ D' < sysP sys ∧
    (D' * row.2 ^ X row.1) mod sysP sys = D mod sysP sys.
Proof.
  intros (HP & HX & HK). pose proof sysP_ge_2 as Hp2. unfold Decrypt, ModInverse. rewrite HP.
  set (d := Exp row.2 (X row.1) (sysP sys)).
  assert (masseyomura.in_group (sysP sys) d) as Hd by (by apply masseyomura.Exp_in_group).
  assert (d mod sysP sys ≠ 0) as Hnz by (rewrite Z.mod_small; unfold masseyomura.in_group in Hd; lia).
  assert (Z.gcd d (sysP sys) = 1) as Hg.
  { rewrite Z.gcd_comm. apply Z.coprime_prime_l; [done|]. by rewrite <- Z.mod_divide by lia. }
  rewrite bool_decide_true by done. eexists. split; [done|].
  split; [apply Z.mod_pos_bound; lia|].
  assert (d = row.2 ^ X row.1 mod sysP sys) as Hdm by (unfold d; apply Exp_mod; lia).
  rewrite Z.mul_mod_idemp_l by lia. rewrite <- Z.mul_mod_idemp_r, <- Hdm by lia.
  rewrite <- Z.mul_assoc, <- Z.mul_mod_idemp_r by lia.
  rewrite (Z.invmod_coprime' d) by (done || lia).
  rewrite Z.mul_mod_idemp_r, Z.mul_1_r by lia. done.
Qed.

(** All decryptions together divide by the blinding factor. *)
Lemma decrypt_all_spec rows : Forall row_ok rows → ∀ D m,
  D mod sysP sys = (m * blinding rows) mod sysP sys →
  ∃ D', decrypt_all rows D = Some D' ∧ D' mod sysP sys = m mod sysP sys ∧
    (rows ≠ [] → 0 ≤ D' < sysP sys).
Proof.
  pose proof sysP_ge_2. induction 1 as [|row rows Hrow Hrows IH]; intros D m HD.
  - exists D. simpl in HD. rewrite Z.mul_1_r in HD. done.
  - destruct (Decrypt_spec row D Hrow) as (D1 & HD1 & Hr1 & Hm1).
    destruct row as [k K]. simpl in *. rewrite HD1. simpl.
    destruct (IH D1 m) as (D2 & HD2 & Hm2 & Hr2).
    + destruct Hrow as (_ & HX & HK). simpl in *.
      apply (cong_cancel _ _ _ (K ^ X k)); [lia| |].
      * unfold Z.coprime. rewrite Z.gcd_comm. apply Z.coprime_prime_l; [done|].
        rewrite <- Z.mod_divide by lia. by apply masseyomura.pow_nonzero_mod.
      * rewrite Hm1, HD. f_equal. ring.
    + exists D2. split_and!; [done..|]. intros _.
      destruct rows as [|row' rows]; [|by apply Hr2]. simpl in HD2. by simplify_eq.
Qed.

(** Encryption blinds by the factors of the rows it returns. *)
Lemma encrypt_all_spec ks : Forall ring_key ks → 2 < sysQ sys → masseyomura.in_group (sysP sys) (sysG sys) →
  ∀ draws rest m, length draws = length ks →
  ∃ rows C, encrypt_all ks (map Some draws ++ rest) m = Ret (Some (rows, C), rest) ∧
    rows.*1 = ks ∧ Forall row_ok rows ∧ C mod sysP sys = (m * blinding rows) mod sysP sys ∧
    (ks = [] → C = m).
Proof.
  intros Hks HQ HG. pose proof sysP_ge_2.
  induction Hks as [|k ks (HP & HQk & HGk & HX & HY) Hks IH]; intros draws rest m Hlen.
  - destruct draws; [|done]. exists [], m. simpl. rewrite Z.mul_1_r. done.
  - destruct draws as [|v draws]; [done|]. simpl in Hlen. injection Hlen as Hlen.
    simpl. unfold Encrypt, randHelp, rand_Int. rewrite HQk, (proj2 (Z.leb_gt _ _)) by lia. simpl.
    rewrite HP, HGk, HY. set (e := v mod (sysQ sys - 1) + 1).
    assert (0 ≤ e) by (pose proof (Z.mod_pos_bound v (sysQ sys - 1)); lia).
    destruct (IH draws rest (Exp (Exp (sysG sys) (X k) (sysP sys)) e (sysP sys) * m) Hlen)
      as (rows & C & -> & Hk & Hrows & HC & _).
    simpl. eexists _, C. split; [done|]. split; [by rewrite fmap_cons, Hk|]. split; [|split; [|done]].
    + constructor; [|done]. split_and!; [done..|]. by apply masseyomura.Exp_in_group.
    + rewrite HC. simpl. rewrite masseyomura.Exp_Exp, !(Exp_mod (sysG sys) e) by lia.
      rewrite <- (Z.mul_mod_idemp_r m (_ * _)), <- (Z.mul_mod_idemp_l (_ ^ X k)), Z.mod_pow_l by lia.
      rewrite <- Z.pow_mul_r, (Z.mul_comm (X k)) by lia.
      rewrite Z.mul_mod_idemp_l, Z.mul_mod_idemp_r, <- Z.mul_assoc, Z.mul_mod_idemp_l by lia.
      f_equal. ring.
Qed.

End keyring.

(** ** Generated parameters *)

Lemma randHelp_range random Q r random' :
  randHelp random Q = Ret (r, random') → ∃ v, r = Some v ∧ 1 ≤ v < Q.
Proof.
  unfold randHelp, rand_Int. case_match; [done|]. bool_to_prop.
  destruct random as [|[v|] random]; simpl; [done| |done]. intros [= <- <-].
  pose proof (Z.mod_pos_bound v (Q - 1)). eexists. split; [done|lia].
Qed.

Lemma genPQ_spec PP random bitsq p q r random' :
  genPQ PP random bitsq = Ret (Some (p, q, r), random') →
  p = 2 * r * q + 1 ∧ 1 ≤ r < 10 ∧ PP p 40 = true ∧ PP q 40 = true.
Proof.
  induction random as [random IH] using (well_founded_ind (well_founded_ltof _ (@length (option Z)))).
  destruct random as [|d random]; simpl; unfold ltof, rand_Prime in *; destruct (bitsq <? 2); try done.
  destruct d as [q'|]; [|done]. destruct (PP q' 40) eqn:Hq; [|apply IH; simpl; lia].
  intros ([r' random2] & Hr & HG)%bind_ret_inv.
  destruct (randHelp_range _ _ _ _ Hr) as (v & -> & Hv). destruct random as [|d' random]; [done|].
  destruct (PP (v * q' * 2 + 1) 40) eqn:Hp; [|by apply (IH random); [simpl; lia|]].
  simplify_eq. split_and!; (done || lia).
Qed.

Lemma genG_spec random p q r g random' :
  genG random p q r = Ret (Some g, random') →
  1 < BitLen g ∧ ∃ h, 1 ≤ h < q ∧ g = Exp h r p.
Proof.
  induction random as [|d random IH]; cbn [genG]; intros ([h random1] & Hh & HG)%bind_ret_inv;
    destruct (randHelp_range _ _ _ _ Hh) as (v & -> & Hv); [done|].
  destruct (1 <? BitLen (Exp v r p)) eqn:E; [|by apply IH].
  simplify_eq. bool_to_prop. eauto.
Qed.

(** ** Properties *)

(** Layers of ElGamal commute.  When every participant encrypts with its own
    randomness and saves its K, the message is recovered exactly by decrypting
    with the saved rows in any order, and no step fails. *)
Theorem elgamal_any_order sys ks draws rest m :
  Z.prime (sysP sys) → 2 < sysQ sys → masseyomura.in_group (sysP sys) (sysG sys) →
  Forall (ring_key sys) ks → length draws = length ks → masseyomura.in_group (sysP sys) m →
  ∃ rows C, encrypt_all ks (map Some draws ++ rest) m = Ret (Some (rows, C), rest) ∧
    rows.*1 = ks ∧ ∀ rows', rows' ≡ₚ rows → decrypt_all rows' C = Some m.
Proof.
  intros Hp HQ HG Hks Hlen Hm.
  destruct (encrypt_all_spec sys Hp ks Hks HQ HG draws rest m Hlen) as (rows & C & He & Hk & Hr & HC & Hnil).
  exists rows, C. split_and!; [done..|]. intros rows' Hperm.
  destruct (decrypt_all_spec sys Hp rows') with (D := C) (m := m) as (D & HD & Hmod & Hrange).
  { by rewrite Hperm. }
  { by rewrite (blinding_perm _ _ Hperm). }
  rewrite HD. f_equal. unfold masseyomura.in_group in Hm.
  destruct rows' as [|row rows'].
  - apply Permutation_nil_l in Hperm. subst. simpl in *. simplify_eq. by apply Hnil.
  - rewrite <- (Z.mod_small D (sysP sys)), Hmod by (by apply Hrange). apply Z.mod_small. lia.
Qed.

(** C36: what the padding can carry, on every branch.  Messages up to
    [maxsize - 3] bytes make the round trip and fit the modulus; [maxsize - 2]
    bytes are accepted but never extracted again; [maxsize - 1] bytes fail with
    an index out of range, [maxsize] bytes with the explicit panic, and only
    longer ones are reported as an error. *)
Theorem PrepareMsg_limits msg p :
  0 < p → BitLen p ≤ int_max - 7 →
  let len := Z.of_nat (length msg) in let max := maxsize (BitLen p) in
  (len < max - 2 → ∃ m, PrepareMsg msg (BitLen p) = Ret (Some m) ∧
     ExtractMsg m = Ret msg ∧ masseyomura.in_group p m) ∧
  (len = max - 2 → ∃ m, PrepareMsg msg (BitLen p) = Ret (Some m) ∧ ExtractMsg m ≠ Ret msg) ∧
  (len = max - 1 → PrepareMsg msg (BitLen p) = Panic IndexOutOfRange) ∧
  (len = max → PrepareMsg msg (BitLen p) = Panic ExplicitPanic) ∧
  (max < len → PrepareMsg msg (BitLen p) = Ret None).
Proof.
  intros Hp Hb len max. split_and!; intros Hl.
  - eexists. split; [apply PrepareMsg_layout; lia|].
    destruct (Z.to_nat _) as [|n] eqn:Hn; [lia|]. split.
    { unfold ExtractMsg. rewrite unpad_unPad. apply masseyomura.extract_prepared. }
    split; [apply masseyomura.prepared_positive|].
    pose proof (BitLen_lower p ltac:(lia)) as Hlow. rewrite (Z.abs_eq p) in Hlow by lia.
    assert (1 ≤ BitLen p).
    { unfold BitLen. rewrite bool_decide_false by lia. pose proof (Z.log2_nonneg (Z.abs p)). lia. }
    pose proof (maxsize_eq (BitLen p) ltac:(lia)).
    eapply Z.lt_le_trans; [|exact Hlow]. apply masseyomura.prepared_range. lia_div.
  - eexists. split; [apply PrepareMsg_layout; lia|].
    replace (Z.to_nat _) with 0%nat by lia. apply extract_lost_separator.
  - unfold PrepareMsg, pad. fold len max.
    rewrite (proj2 (Z.ltb_ge max len)), (proj2 (Z.eqb_neq _ _)) by lia.
    unfold make_slice. rewrite decide_False by lia.
    replace (Z.to_nat (max - 2 - len)) with 0%nat by lia.
    cbn [mbind outcome_bind fill_ones]. by rewrite (proj2 (Z.ltb_lt _ 0)) by lia.
  - unfold PrepareMsg, pad. fold len max.
    by rewrite (proj2 (Z.ltb_ge max len)), (proj2 (Z.eqb_eq _ _)) by lia.
  - unfold PrepareMsg. fold len max. by rewrite (proj2 (Z.ltb_lt _ _)) by lia.
Qed.

(** The group of the generated parameters.  With a prime P, the generator
    G is above 1 and its order divides 2Q; that it has order Q, as the comment
    of [GenSysKey] says, is not true of all results. *)
Theorem GenSysKey_group_order :
  (∀ PP random bitsq k random',
     GenSysKey PP random bitsq = Ret (Some k, random') → Z.prime (sysP k) →
     1 < sysG k < sysP k ∧ sysG k ^ (2 * sysQ k) mod sysP k = 1) ∧
  (∃ PP random bitsq k, GenSysKey PP random bitsq = Ret (Some k, []) ∧
     Z.prime (sysP k) ∧ Z.prime (sysQ k) ∧ sysG k ^ sysQ k mod sysP k ≠ 1).
Proof.
  split.
  - intros PP random bitsq k random' HS Hp. unfold GenSysKey in HS.
    apply bind_ret_inv in HS as ([[[[p q] r]|] random1] & HPQ & HS); [|done].
    apply bind_ret_inv in HS as ([[g|] random2] & HG & HS); [|done]. simplify_eq. simpl in *.
    apply genPQ_spec in HPQ as (-> & Hr & _ & _). apply genG_spec in HG as (Hbit & h & Hh & ->).
    set (p := 2 * r * q + 1) in *.
    assert (masseyomura.in_group p h) as Hgrp by (unfold masseyomura.in_group; nia).
    pose proof (masseyomura.Exp_in_group p h r Hp Hgrp ltac:(lia)) as [Hg0 Hg1].
    split.
    + split; [|done]. destruct (decide (Exp h r p = 1)) as [E|]; [by rewrite E in Hbit|lia].
    + rewrite Exp_mod, Z.mod_pow_l, <- Z.pow_mul_r by (unfold masseyomura.in_group in Hgrp; lia).
      replace (r * (2 * q)) with (p - 1) by lia. apply Z.fermat_nz; [done|].
      rewrite Z.mod_small; unfold masseyomura.in_group in Hgrp; lia.
  - exists (fun x _ => trial_prime x), [Some 5; Some 0; Some 1], 3, (mkSystemKey 11 5 2).
    split_and!; [reflexivity|by apply trial_prime_sound..|by vm_compute].
Qed.

(** ** Concrete keys *)

Definition sys11 : SystemKey := mkSystemKey 11 5 3.
Definition key_x : PrivateKey := mkPrivateKey (mkPublicKey 11 5 3 9) 2.
Definition key_y : PrivateKey := mkPrivateKey (mkPublicKey 11 5 3 4) 4.

Lemma elgamal_any_order_witness :
  ∃ rows C, encrypt_all [key_x; key_y] (map Some [6; 3] ++ [None]) 7 = Ret (Some (rows, C), [None]) ∧
    rows.*1 = [key_x; key_y] ∧ ∀ rows', rows' ≡ₚ rows → decrypt_all rows' C = Some 7.
Proof.
  apply (elgamal_any_order sys11);
    [by apply trial_prime_sound|reflexivity|split; reflexivity| |reflexivity|split; reflexivity].
  repeat constructor; vm_compute; congruence.
Defined.

Lemma PrepareMsg_limits_witness :
  PrepareMsg [Byte.x41; Byte.x42] (BitLen (2 ^ 32)) = Panic IndexOutOfRange ∧
  ∃ m, PrepareMsg [Byte.x41] (BitLen (2 ^ 32)) = Ret (Some m) ∧ ExtractMsg m ≠ Ret [Byte.x41].
Proof.
  split.
  - apply PrepareMsg_limits; [reflexivity|vm_compute; congruence|reflexivity].
  - apply PrepareMsg_limits; [reflexivity|vm_compute; congruence|reflexivity].
Defined.

End elgamal.
