(* ===== verification/Crypto.v ===== *)
(** * Messages, keys and the commutative-crypto interface

    Model of src/anonbcast/crypto.go.  [Msg] and [PrivateKey] hold big
    integers as byte slices, because that is what travels over RPC.  The Go
    interface [CommutativeCrypto] is a type class of operations; what its
    clients rely on is the class [CommutativeCryptoLaws].  The implementation
    [masseyOmuraCrypto] is an instance of both: the laws are proved from the
    theorems of MasseyOmura. *)

From Stdlib Require Import Strings.Byte.
From S2P Require Import Prelude Bytes MasseyOmura.

Local Open Scope Z_scope.

(** ** Standard-library parameters *)

(** [sha256.Sum256] of crypto/sha256. *)
Class Sha256 := Sum256 : list byte → list byte.

(** [x.ProbablyPrime(n)] of math/big. *)
Class BigProbablyPrime := ProbablyPrime : Z → Z → bool.

(** ** Msg *)

Definition bigInt (bytes : list byte) : Z := SetBytes bytes.

Record Msg := mkMsg { M : list byte }.

#[export] Instance Msg_eq_dec : EqDecision Msg.
Proof. solve_decision. Defined.

Definition getM (m : Msg) : Z := bigInt (M m).

(** The loop [for i, b := range a { if b != c[i] { return false } }], shared by
    [Msg.Equal] and [PrivateKey.HashEquals]; it is only reached when the
    lengths agree. *)
Fixpoint same_bytes (a c : list byte) : bool :=
  match a, c with
  | [], _ => true
  | b :: a', b' :: c' => bool_decide (b = b') && same_bytes a' c'
  | _ :: _, [] => false
  end.

Definition Msg_Equal (m m2 : Msg) : bool :=
  if bool_decide (length (M m) ≠ length (M m2)) then false else same_bytes (M m) (M m2).

Definition Msg_DeepCopy (m : Msg) : Msg :=
  mkMsg (go_copy (replicate (length (M m)) Byte.x00) (M m)).

Definition Msg_Nil (m : Msg) : bool := bool_decide (M m = []).

Definition NilMsg : Msg := mkMsg [].

Definition NewMsg (m : Z) : Msg := mkMsg (Bytes m).

(** ** PrivateKey *)

Record PrivateKey := mkPrivateKey { E : list byte; D : list byte }.

#[export] Instance PrivateKey_eq_dec : EqDecision PrivateKey.
Proof. solve_decision. Defined.

Definition getE (pk : PrivateKey) : Z := bigInt (E pk).
Definition getD (pk : PrivateKey) : Z := bigInt (D pk).

Definition PrivateKey_DeepCopy (pk : PrivateKey) : PrivateKey :=
  mkPrivateKey (go_copy (replicate (length (E pk)) Byte.x00) (E pk))
               (go_copy (replicate (length (D pk)) Byte.x00) (D pk)).

Definition NilPrivateKey : PrivateKey := mkPrivateKey [] [].

Definition PrivateKey_Nil (pk : PrivateKey) : bool := bool_decide (E pk = []).

Section hash.
Context `{Sha256}.

Definition Hash (pk : PrivateKey) : list byte :=
  let ed := replicate (length (E pk) + length (D pk)) Byte.x00 in
  let ed := go_copy ed (E pk) in
  let ed := take (length (E pk)) ed ++ go_copy (drop (length (E pk)) ed) (D pk) in
  Sum256 ed.

Definition HashEquals (pk : PrivateKey) (hash : list byte) : bool :=
  let meHash := Hash pk in
  if bool_decide (length hash ≠ length meHash) then false else same_bytes meHash hash.

End hash.

(** ** The interface *)

Class CommutativeCrypto (C : Type) := {
  PrepareMsg : C → list byte → outcome (option Msg);
  Encrypt : C → PrivateKey → Msg → Msg;
  Decrypt : C → PrivateKey → Msg → Msg;
  ExtractMsg : C → Msg → outcome (list byte);
  GenKey : bool → C → masseyomura.Reader → outcome (PrivateKey * masseyomura.Reader);
  DeepCopyCrypto : C → C;
  Verify : C → Z → option masseyomura.SysKeyError
}.

(** What the protocol needs: on a sound crypto [c], valid keys act on the set
    of messages [carries c] by commuting permutations, decryption inverts
    encryption, and messages below the capacity survive preparation. *)
Class CommutativeCryptoLaws (C : Type) `{CommutativeCrypto C} := {
  sound : C → Prop;
  key_ok : C → PrivateKey → Prop;
  carries : C → Msg → Prop;
  capacity : C → Z;
  carries_not_nil : ∀ c m, carries c m → Msg_Nil m = false;
  key_not_nil : ∀ c k, sound c → key_ok c k → PrivateKey_Nil k = false;
  Encrypt_carries : ∀ c k m, sound c → key_ok c k → carries c m → carries c (Encrypt c k m);
  Decrypt_carries : ∀ c k m, sound c → key_ok c k → carries c m → carries c (Decrypt c k m);
  Decrypt_Encrypt : ∀ c k m, sound c → key_ok c k → carries c m →
    Decrypt c k (Encrypt c k m) = m;
  Encrypt_Encrypt : ∀ c k k' m, sound c → key_ok c k → key_ok c k' → carries c m →
    Encrypt c k (Encrypt c k' m) = Encrypt c k' (Encrypt c k m);
  PrepareMsg_ExtractMsg : ∀ c msg, sound c → Z.of_nat (length msg) < capacity c →
    ∃ m, PrepareMsg c msg = Ret (Some m) ∧ carries c m ∧ ExtractMsg c m = Ret msg;
  GenKey_ok : ∀ debug c r k r', sound c → GenKey debug c r = Ret (k, r') → key_ok c k;
  DeepCopyCrypto_id : ∀ c, DeepCopyCrypto c = c
}.

(** ** masseyOmuraCrypto *)

Record masseyOmuraCrypto := mkMasseyOmuraCrypto { P : list byte }.

#[export] Instance masseyOmuraCrypto_eq_dec : EqDecision masseyOmuraCrypto.
Proof. solve_decision. Defined.

Definition getP (mo : masseyOmuraCrypto) : Z := bigInt (P mo).

Definition createSysKey (mo : masseyOmuraCrypto) : masseyomura.SystemKey :=
  masseyomura.mkSystemKey (getP mo).

Definition createPrivateKey (mo : masseyOmuraCrypto) (key : PrivateKey) : masseyomura.PrivateKey :=
  masseyomura.mkPrivateKey (createSysKey mo) (getE key) (getD key).

Definition mo_PrepareMsg (mo : masseyOmuraCrypto) (msg : list byte) : outcome (option Msg) :=
  m ← masseyomura.PrepareMsg msg (BitLen (getP mo));
  match m with
  | None => Ret None
  | Some m => Ret (Some (NewMsg m))
  end.

Definition mo_Encrypt (mo : masseyOmuraCrypto) (key : PrivateKey) (m : Msg) : Msg :=
  NewMsg (masseyomura.Encrypt (createPrivateKey mo key) (getM m)).

Definition mo_Decrypt (mo : masseyOmuraCrypto) (key : PrivateKey) (m : Msg) : Msg :=
  NewMsg (masseyomura.Decrypt (createPrivateKey mo key) (getM m)).

Definition mo_ExtractMsg (mo : masseyOmuraCrypto) (m : Msg) : outcome (list byte) :=
  masseyomura.ExtractMsg (getM m).

(** A reader error fails the assertion, or dereferences the nil key when
    assertions are off. *)
Definition mo_GenKey (debug : bool) (mo : masseyOmuraCrypto) (random : masseyomura.Reader)
    : outcome (PrivateKey * masseyomura.Reader) :=
  '(pk, random') ← masseyomura.GenUserKey random (createSysKey mo);
  match pk with
  | None => assertf debug false ;; Panic NilDereference
  | Some pk => Ret (mkPrivateKey (Bytes (masseyomura.E pk)) (Bytes (masseyomura.D pk)), random')
  end.

Definition mo_DeepCopy (mo : masseyOmuraCrypto) : masseyOmuraCrypto :=
  mkMasseyOmuraCrypto (go_copy (replicate (length (P mo)) Byte.x00) (P mo)).

Section verify.
Context `{BigProbablyPrime}.

Definition mo_Verify (mo : masseyOmuraCrypto) (messageSize : Z) : option masseyomura.SysKeyError :=
  masseyomura.VerifySysKey ProbablyPrime (createSysKey mo) (masseyomura.BitsMaxSize messageSize).

Definition newMasseyOmuraCrypto (debug : bool) (messageSize : Z) (random : masseyomura.Reader)
    : outcome (masseyOmuraCrypto * masseyomura.Reader) :=
  let '(syskey, random') :=
    masseyomura.GenSysKey ProbablyPrime random (masseyomura.BitsMaxSize messageSize) in
  match syskey with
  | None => assertf debug false ;; Panic NilDereference
  | Some syskey => Ret (mkMasseyOmuraCrypto (Bytes (masseyomura.P syskey)), random')
  end.

#[export] Instance masseyOmura_CommutativeCrypto : CommutativeCrypto masseyOmuraCrypto := {|
  PrepareMsg := mo_PrepareMsg;
  Encrypt := mo_Encrypt;
  Decrypt := mo_Decrypt;
  ExtractMsg := mo_ExtractMsg;
  GenKey := mo_GenKey;
  DeepCopyCrypto := mo_DeepCopy;
  Verify := mo_Verify
|}.

End verify.

(** ** Copies and comparisons *)

Lemma copy_of_bytes (l : list byte) : go_copy (replicate (length l) Byte.x00) l = l.
Proof. apply go_copy_same. by rewrite length_replicate. Qed.

Lemma Msg_DeepCopy_id m : Msg_DeepCopy m = m.
Proof. destruct m. unfold Msg_DeepCopy. simpl. by rewrite copy_of_bytes. Qed.

Lemma PrivateKey_DeepCopy_id pk : PrivateKey_DeepCopy pk = pk.
Proof. destruct pk. unfold PrivateKey_DeepCopy. simpl. by rewrite !copy_of_bytes. Qed.

Lemma same_bytes_eq a c : length a = length c → (same_bytes a c = true ↔ a = c).
Proof.
  revert c. induction a as [|b a IH]; intros [|b' c] Hl; simplify_eq/=; [done|].
  rewrite andb_true_iff, bool_decide_eq_true, IH by done.
  split; [by intros [-> ->] | by intros [= -> ->]].
Qed.

Lemma Msg_Equal_eq m m2 : Msg_Equal m m2 = true ↔ m = m2.
Proof.
  destruct m as [a], m2 as [c]. unfold Msg_Equal. simpl. case_bool_decide.
  - split; [done|]. intros [= ->]. done.
  - rewrite same_bytes_eq by done. naive_solver.
Qed.

Lemma Msg_Equal_refl m : Msg_Equal m m = true.
Proof. by apply Msg_Equal_eq. Qed.

Lemma Hash_eq `{Sha256} pk : Hash pk = Sum256 (E pk ++ D pk).
Proof.
  unfold Hash. f_equal. rewrite (go_copy_prefix _ (E pk)) by (rewrite length_replicate; lia).
  rewrite drop_replicate, take_app_length, drop_app_length.
  replace (length (E pk) + length (D pk) - length (E pk))%nat with (length (D pk)) by lia.
  by rewrite copy_of_bytes.
Qed.

Lemma HashEquals_eq `{Sha256} pk hash : HashEquals pk hash = true ↔ hash = Hash pk.
Proof.
  unfold HashEquals. case_bool_decide as Hl.
  - split; [done|]. by intros ->.
  - rewrite same_bytes_eq by done. naive_solver.
Qed.

Lemma NewMsg_getM x : 0 ≤ x → getM (NewMsg x) = x.
Proof. apply SetBytes_Bytes. Qed.

Lemma getM_NewMsg m : canonical (M m) → NewMsg (getM m) = m.
Proof. destruct m. intros. unfold NewMsg, getM, bigInt. simpl. by rewrite Bytes_SetBytes. Qed.

(** ** Massey-Omura implements the interface *)

Section laws.
Context `{BigProbablyPrime}.

Definition mo_sound (mo : masseyOmuraCrypto) : Prop :=
  Z.prime (getP mo) ∧ 3 < getP mo ∧ BitLen (getP mo) ≤ int_max.

Definition mo_key_ok (mo : masseyOmuraCrypto) (k : PrivateKey) : Prop :=
  masseyomura.valid_key (createPrivateKey mo k).

Definition mo_carries (mo : masseyOmuraCrypto) (m : Msg) : Prop :=
  canonical (M m) ∧ masseyomura.in_group (getP mo) (getM m).

Definition mo_capacity (mo : masseyOmuraCrypto) : Z :=
  masseyomura.bytesMaxSize (BitLen (getP mo)).

Lemma key_ring_key mo k :
  mo_key_ok mo k → masseyomura.ring_key (createSysKey mo) (createPrivateKey mo k).
Proof. by split. Qed.

Lemma NewMsg_carries mo x : masseyomura.in_group (getP mo) x → mo_carries mo (NewMsg x).
Proof.
  intros Hx. assert (0 ≤ x) by (unfold masseyomura.in_group in Hx; lia).
  split; [by apply Bytes_canonical | by rewrite NewMsg_getM].
Qed.

Lemma mo_carries_not_nil mo m : mo_carries mo m → Msg_Nil m = false.
Proof.
  intros [_ Hg]. unfold Msg_Nil. apply bool_decide_eq_false. intros E.
  unfold masseyomura.in_group, getM, bigInt in Hg. rewrite E in Hg.
  change (SetBytes []) with 0 in Hg. lia.
Qed.

Lemma mo_key_not_nil mo k : mo_sound mo → mo_key_ok mo k → PrivateKey_Nil k = false.
Proof.
  intros (_ & Hp & _) (_ & _ & Hv). unfold PrivateKey_Nil. apply bool_decide_eq_false. intros HE.
  unfold createPrivateKey, getE, bigInt in Hv. simpl in Hv. rewrite HE in Hv.
  change (SetBytes []) with 0 in Hv. rewrite Z.mul_0_l, Z.mod_0_l, Z.mod_small in Hv by lia. lia.
Qed.

Lemma mo_Encrypt_carries mo k m :
  mo_sound mo → mo_key_ok mo k → mo_carries mo m → mo_carries mo (mo_Encrypt mo k m).
Proof.
  intros [Hp _] Hk [_ Hm]. apply NewMsg_carries.
  by apply (masseyomura.Encrypt_in_group (createSysKey mo)); [|apply key_ring_key|].
Qed.

Lemma mo_Decrypt_carries mo k m :
  mo_sound mo → mo_key_ok mo k → mo_carries mo m → mo_carries mo (mo_Decrypt mo k m).
Proof.
  intros [Hp _] Hk [_ Hm]. apply NewMsg_carries.
  by apply (masseyomura.Decrypt_in_group (createSysKey mo)); [|apply key_ring_key|].
Qed.

Lemma mo_Decrypt_Encrypt mo k m :
  mo_sound mo → mo_key_ok mo k → mo_carries mo m → mo_Decrypt mo k (mo_Encrypt mo k m) = m.
Proof.
  intros Hs Hk Hm. destruct (mo_Encrypt_carries mo k m Hs Hk Hm) as [_ [HE _]].
  destruct Hs as [Hp _], Hm as [Hc Hm]. unfold mo_Decrypt, mo_Encrypt in *.
  rewrite NewMsg_getM.
  - rewrite (masseyomura.Decrypt_Encrypt (createSysKey mo)) by (done || by apply key_ring_key).
    by apply getM_NewMsg.
  - destruct (masseyomura.Encrypt_in_group (createSysKey mo) Hp _ _ (key_ring_key _ _ Hk) Hm). lia.
Qed.

Lemma mo_Encrypt_Encrypt mo k k' m :
  mo_sound mo → mo_key_ok mo k → mo_key_ok mo k' → mo_carries mo m →
  mo_Encrypt mo k (mo_Encrypt mo k' m) = mo_Encrypt mo k' (mo_Encrypt mo k m).
Proof.
  intros [Hp _] Hk Hk' [_ Hm]. unfold mo_Encrypt.
  pose proof (masseyomura.Encrypt_in_group (createSysKey mo) Hp) as Hg.
  rewrite !NewMsg_getM by (apply Z.lt_le_incl; eapply Hg; [by apply key_ring_key|done]).
  f_equal. destruct Hk as (? & _), Hk' as (? & _).
  apply masseyomura.Exp_comm; [unfold masseyomura.in_group in Hm; simpl; lia|done..].
Qed.

Lemma mo_PrepareMsg_ExtractMsg mo msg :
  mo_sound mo → Z.of_nat (length msg) < mo_capacity mo →
  ∃ m, mo_PrepareMsg mo msg = Ret (Some m) ∧ mo_carries mo m ∧ mo_ExtractMsg mo m = Ret msg.
Proof.
  intros (_ & Hp & Hb) Hl.
  destruct (masseyomura.prepare_extract msg (getP mo)) as (m & HP & HE & Hg); [lia|done..|].
  exists (NewMsg m). unfold mo_PrepareMsg, mo_ExtractMsg. rewrite HP. split; [done|].
  split; [by apply NewMsg_carries|].
  rewrite NewMsg_getM; [done|]. unfold masseyomura.in_group in Hg. lia.
Qed.

Lemma mo_GenKey_ok debug mo r k r' :
  mo_sound mo → mo_GenKey debug mo r = Ret (k, r') → mo_key_ok mo k.
Proof.
  intros (_ & Hp & _) HG. unfold mo_GenKey in HG.
  apply bind_ret_inv in HG as ([[pk|] r1] & HG & Hk); [|by destruct debug]. simplify_eq.
  destruct (masseyomura.GenUserKey_valid _ (createSysKey mo) _ _ Hp HG) as (Hs & (He & Hd & Hv)).
  unfold mo_key_ok, masseyomura.valid_key, createPrivateKey, getE, getD, bigInt. simpl.
  rewrite !SetBytes_Bytes by done. rewrite Hs in Hv. done.
Qed.

Lemma mo_DeepCopy_id mo : mo_DeepCopy mo = mo.
Proof. destruct mo. unfold mo_DeepCopy. simpl. by rewrite copy_of_bytes. Qed.

#[export] Instance masseyOmura_laws : CommutativeCryptoLaws masseyOmuraCrypto := {|
  sound := mo_sound;
  key_ok := mo_key_ok;
  carries := mo_carries;
  capacity := mo_capacity;
  carries_not_nil := mo_carries_not_nil;
  key_not_nil := mo_key_not_nil;
  Encrypt_carries := mo_Encrypt_carries;
  Decrypt_carries := mo_Decrypt_carries;
  Decrypt_Encrypt := mo_Decrypt_Encrypt;
  Encrypt_Encrypt := mo_Encrypt_Encrypt;
  PrepareMsg_ExtractMsg := mo_PrepareMsg_ExtractMsg;
  GenKey_ok := mo_GenKey_ok;
  DeepCopyCrypto_id := mo_DeepCopy_id
|}.

End laws.
