(* ===== verification/Op.v ===== *)
(** * Operations of the replicated state machine

    Model of src/anonbcast/op.go.  The Go interface [Op] with its eight
    implementing structs is an inductive type with one constructor per
    struct; [op_Type] and [op_Round] are the interface's two methods.  The
    type is parametric in the implementation [C] of the crypto interface; a
    nil [CommutativeCrypto] in a [StartOp] is [None]. *)

From Stdlib Require Import Strings.Byte.
From S2P Require Import Prelude Bytes Crypto.

(** [uuid.UUID] is the array type [[16]byte]; only [==] is used on it. *)
Abbreviation UUID := (list byte) (only parsing).

Inductive OpType : Set :=
| JoinOpType | StartOpType | MessageOpType | EncryptedOpType
| ScrambledOpType | DecryptedOpType | RevealOpType | AbortOpType.

#[export] Instance OpType_eq_dec : EqDecision OpType.
Proof. solve_decision. Defined.

Inductive Op (C : Type) : Type :=
| JoinOp (Id : UUID) (R : Z)
| StartOp (Id : UUID) (R : Z) (Crypto : option C)
| MessageOp (Id : UUID) (R : Z) (Message : Msg) (RevealKeyHash : list byte)
| EncryptedOp (Id : UUID) (R : Z) (Messages : list Msg) (Prev : Z)
| ScrambledOp (Id : UUID) (R : Z) (Messages : list Msg)
| DecryptedOp (Id : UUID) (R : Z) (Messages : list Msg) (Prev : Z)
| RevealOp (Id : UUID) (R : Z) (RevealKey : PrivateKey)
| AbortOp (R : Z).

Arguments JoinOp {C} Id R.
Arguments StartOp {C} Id R Crypto.
Arguments MessageOp {C} Id R Message RevealKeyHash.
Arguments EncryptedOp {C} Id R Messages Prev.
Arguments ScrambledOp {C} Id R Messages.
Arguments DecryptedOp {C} Id R Messages Prev.
Arguments RevealOp {C} Id R RevealKey.
Arguments AbortOp {C} R.

#[export] Instance Op_eq_dec `{EqDecision C} : EqDecision (Op C).
Proof. solve_decision. Defined.

Definition op_Type {C} (op : Op C) : OpType :=
  match op with
  | JoinOp _ _ => JoinOpType
  | StartOp _ _ _ => StartOpType
  | MessageOp _ _ _ _ => MessageOpType
  | EncryptedOp _ _ _ _ => EncryptedOpType
  | ScrambledOp _ _ _ => ScrambledOpType
  | DecryptedOp _ _ _ _ => DecryptedOpType
  | RevealOp _ _ _ => RevealOpType
  | AbortOp _ => AbortOpType
  end.

Definition op_Round {C} (op : Op C) : Z :=
  match op with
  | JoinOp _ R | StartOp _ R _ | MessageOp _ R _ _ | EncryptedOp _ R _ _
  | ScrambledOp _ R _ | DecryptedOp _ R _ _ | RevealOp _ R _ | AbortOp R => R
  end.
