(* ===== verification/StateMachine.v ===== *)
(** * The shared state machine

    Model of src/anonbcast/statemachine.go: the replicated state of the
    anonymous broadcasting protocol.  A [*RoundInfo] points either into the
    ring buffer of the last three rounds or at a fresh struct ([riRef]); every
    operation of the file is a state-passing function over [StateMachine] that
    may panic ([SM]).  [debug] is the value of [IsDebug()].

    The invariants and theorems about these definitions are in RoundSpec and
    StateMachineProps. *)

From Stdlib Require Import Strings.Byte.
From S2P Require Import Prelude Bytes Crypto Op.

Local Open Scope Z_scope.

(** ** Data *)

(** The strings of the type [Phase]; [NoPhase] is the zero value of the type. *)
Inductive Phase : Set :=
| NoPhase | PreparePhase | SubmitPhase | EncryptPhase | ScramblePhase
| DecryptPhase | RevealPhase | DonePhase | FailedPhase.

#[export] Instance Phase_eq_dec : EqDecision Phase.
Proof. solve_decision. Defined.

Definition NumRoundsPersisted : Z := 3.

Record RoundInfo (C : Type) := mkRoundInfo {
  phase : Phase;
  Crypto : option C;
  Participants : list UUID;
  Messages : list Msg;
  Encrypted : list bool;
  Scrambled : list bool;
  Decrypted : list bool;
  RevealedKeys : list PrivateKey;
  RevealKeyHashes : list (list byte)
}.
Arguments mkRoundInfo {C} _ _ _ _ _ _ _ _ _.
Arguments phase {C} _.
Arguments Crypto {C} _.
Arguments Participants {C} _.
Arguments Messages {C} _.
Arguments Encrypted {C} _.
Arguments Scrambled {C} _.
Arguments Decrypted {C} _.
Arguments RevealedKeys {C} _.
Arguments RevealKeyHashes {C} _.

(** [Rounds] is a Go array of length 3. *)
Record StateMachine (C : Type) := mkStateMachine {
  Round : Z;
  Rounds : list (RoundInfo C)
}.
Arguments mkStateMachine {C} _ _.
Arguments Round {C} _.
Arguments Rounds {C} _.

(** The zero value of the struct. *)
Definition zeroRoundInfo {C} : RoundInfo C := mkRoundInfo NoPhase None [] [] [] [] [] [] [].

(** Assignments to single fields. *)
Section setters.
Context {C : Type}.
Implicit Types ri : RoundInfo C.

Definition set_phase (p : Phase) ri : RoundInfo C :=
  mkRoundInfo p (Crypto ri) (Participants ri) (Messages ri) (Encrypted ri) (Scrambled ri)
    (Decrypted ri) (RevealedKeys ri) (RevealKeyHashes ri).
Definition set_Crypto (c : option C) ri : RoundInfo C :=
  mkRoundInfo (phase ri) c (Participants ri) (Messages ri) (Encrypted ri) (Scrambled ri)
    (Decrypted ri) (RevealedKeys ri) (RevealKeyHashes ri).
Definition set_Messages (ms : list Msg) ri : RoundInfo C :=
  mkRoundInfo (phase ri) (Crypto ri) (Participants ri) ms (Encrypted ri) (Scrambled ri)
    (Decrypted ri) (RevealedKeys ri) (RevealKeyHashes ri).
Definition set_Encrypted (fs : list bool) ri : RoundInfo C :=
  mkRoundInfo (phase ri) (Crypto ri) (Participants ri) (Messages ri) fs (Scrambled ri)
    (Decrypted ri) (RevealedKeys ri) (RevealKeyHashes ri).
Definition set_Scrambled (fs : list bool) ri : RoundInfo C :=
  mkRoundInfo (phase ri) (Crypto ri) (Participants ri) (Messages ri) (Encrypted ri) fs
    (Decrypted ri) (RevealedKeys ri) (RevealKeyHashes ri).
Definition set_Decrypted (fs : list bool) ri : RoundInfo C :=
  mkRoundInfo (phase ri) (Crypto ri) (Participants ri) (Messages ri) (Encrypted ri)
    (Scrambled ri) fs (RevealedKeys ri) (RevealKeyHashes ri).
Definition set_RevealedKeys (ks : list PrivateKey) ri : RoundInfo C :=
  mkRoundInfo (phase ri) (Crypto ri) (Participants ri) (Messages ri) (Encrypted ri)
    (Scrambled ri) (Decrypted ri) ks (RevealKeyHashes ri).
Definition set_RevealKeyHashes (hs : list (list byte)) ri : RoundInfo C :=
  mkRoundInfo (phase ri) (Crypto ri) (Participants ri) (Messages ri) (Encrypted ri)
    (Scrambled ri) (Decrypted ri) (RevealedKeys ri) hs.
End setters.

(** ** Rounds *)

Section round_info.
Context {C : Type}.
Implicit Types ri : RoundInfo C.

(** [participantIndex]: the index, or the error [participant not found]. *)
Fixpoint indexOf (id : UUID) (ps : list UUID) : option nat :=
  match ps with
  | [] => None
  | p :: ps' => if bool_decide (p = id) then Some O else S <$> indexOf id ps'
  end.

Definition participantIndex ri (id : UUID) : option nat := indexOf id (Participants ri).

Definition numEncrypted ri : nat := count_true (Encrypted ri).
Definition numScrambled ri : nat := count_true (Scrambled ri).
Definition numDecrypted ri : nat := count_true (Decrypted ri).

(** [RoundInfo.checkRep]: the representation invariant, checked when
    debugging. *)
Definition ri_checkRep (debug : bool) ri : outcome unit :=
  if negb debug then Ret tt else
  let n := length (Participants ri) in
  assertf debug (bool_decide (n = length (Messages ri))) ;;
  assertf debug (bool_decide (n = length (Encrypted ri))) ;;
  assertf debug (bool_decide (n = length (Scrambled ri))) ;;
  assertf debug (bool_decide (n = length (Decrypted ri))) ;;
  assertf debug (bool_decide (n = length (RevealedKeys ri))) ;;
  assertf debug (bool_decide (n = length (RevealKeyHashes ri))) ;;
  assertf debug (bool_decide (phase ri = NoPhase) || bool_decide (phase ri = PreparePhase)
    || bool_decide (phase ri = FailedPhase) || bool_decide (is_Some (Crypto ri))) ;;
  assertf debug (bool_decide (phase ri ≠ PreparePhase) || bool_decide (Crypto ri = None)) ;;
  for_each (fun '(i, s) =>
    if bool_decide (0 < i)%nat && s then
      before ← (Scrambled ri).[i - 1]; assertf debug before
    else Ret tt) (imap pair (Scrambled ri)) ;;
  for_each (fun '(i1, p1) =>
    for_each (fun '(i2, p2) =>
      if bool_decide (p1 = p2) && bool_decide (i1 ≠ i2) then assertf debug false else Ret tt)
      (imap pair (Participants ri))) (imap pair (Participants ri)) ;;
  for_each (fun '(i, m) =>
    hash ← (RevealKeyHashes ri).[i];
    if negb (Msg_Nil m) then assertf debug (bool_decide (hash ≠ []))
    else assertf debug (bool_decide (hash = []))) (imap pair (Messages ri)).

(** [for i, x := range xs { dst[i] = f(x) }]: panics when [xs] is longer than
    [dst], leaves the tail of [dst] when it is shorter. *)
Fixpoint copy_each {A} (f : A → A) (i : nat) (xs dst : list A) : outcome (list A) :=
  match xs with
  | [] => Ret dst
  | x :: xs' => dst' ← dst.[i <- f x]; copy_each f (S i) xs' dst'
  end.

Definition ri_DeepCopy `{CommutativeCrypto C} ri : outcome (RoundInfo C) :=
  let n := length (Participants ri) in
  let riCopy := mkRoundInfo (phase ri) None (replicate n []) (replicate n NilMsg)
    (replicate n false) (replicate n false) (replicate n false)
    (replicate n NilPrivateKey) (replicate n []) in
  let riCopy := match Crypto ri with
                | Some c => set_Crypto (Some (DeepCopyCrypto c)) riCopy
                | None => riCopy
                end in
  let ps := go_copy (Participants riCopy) (Participants ri) in
  msgs ← copy_each Msg_DeepCopy 0 (Messages ri) (Messages riCopy);
  let enc := go_copy (Encrypted riCopy) (Encrypted ri) in
  let scr := go_copy (Scrambled riCopy) (Scrambled ri) in
  let dec := go_copy (Decrypted riCopy) (Decrypted ri) in
  keys ← copy_each PrivateKey_DeepCopy 0 (RevealedKeys ri) (RevealedKeys riCopy);
  hashes ← copy_each (fun b => go_copy (replicate (length b) Byte.x00) b) 0
    (RevealKeyHashes ri) (RevealKeyHashes riCopy);
  Ret (mkRoundInfo (phase riCopy) (Crypto riCopy) ps msgs enc scr dec keys hashes).

End round_info.

(** ** The state machine *)

(** What a [*RoundInfo] returned by [GetRoundInfo] points at. *)
Inductive riRef : Set := RiAt (i : nat) | RiFresh.

Inductive RoundError : Set := ErrFuture | ErrNegative | ErrTooOld.

Section state_machine.
Context {C : Type} (debug : bool).
Implicit Types sm : StateMachine C.

Definition SM (A : Type) : Type := GoM (StateMachine C) A.
#[local] Instance SM_ret : MRet SM := GoM_ret.
#[local] Instance SM_bind : MBind SM := GoM_bind.

Definition load (r : riRef) : SM (RoundInfo C) := fun sm =>
  match r with
  | RiAt i => ri ← (Rounds sm).[i]; Ret (ri, sm)
  | RiFresh => Ret (zeroRoundInfo, sm)
  end.

Definition store (r : riRef) (ri : RoundInfo C) : SM unit := fun sm =>
  match r with
  | RiAt i => rs ← (Rounds sm).[i <- ri]; Ret (tt, mkStateMachine (Round sm) rs)
  | RiFresh => Ret (tt, sm)
  end.

Definition checkRep sm : outcome unit :=
  if negb debug then Ret tt else
  assertf debug (0 <=? Round sm) ;;
  for_each (fun i => ri ← (Rounds sm).[i]; ri_checkRep debug ri) [0; 1; 2]%nat.

Definition GetRoundInfo sm (round : Z) : riRef * option RoundError :=
  if Round sm <? round then (RiFresh, Some ErrFuture)
  else if round <? 0 then (RiFresh, Some ErrNegative)
  else if round <=? wrap64 (Round sm - NumRoundsPersisted) then (RiFresh, Some ErrTooOld)
  else (RiAt (Z.to_nat (Z.rem round NumRoundsPersisted)), None).

Definition CurrentRoundInfo : SM riRef := fun sm =>
  let '(r, err) := GetRoundInfo sm (Round sm) in
  assertf debug (bool_decide (err = None)) ;; Ret (r, sm).

Definition initRound (round : Z) : SM unit := fun sm =>
  assertf debug (Round sm =? round) ;;
  let i := Z.rem round NumRoundsPersisted in
  if i <? 0 then Panic IndexOutOfRange else
  rs ← (Rounds sm).[Z.to_nat i <- set_phase PreparePhase zeroRoundInfo];
  Ret (tt, mkStateMachine (Round sm) rs).

(** [sm.Round++; sm.initRound(sm.Round)], the end of [reveal] and [abort]. *)
Definition nextRound : SM unit := fun sm =>
  let sm := mkStateMachine (wrap64 (Round sm + 1)) (Rounds sm) in
  initRound (Round sm) sm.

Definition join (Id : UUID) : SM bool :=
  r ← CurrentRoundInfo; ri ← load r;
  if bool_decide (phase ri ≠ PreparePhase) then mret false else
  match participantIndex ri Id with
  | None =>
      store r (mkRoundInfo (phase ri) (Crypto ri) (Participants ri ++ [Id])
        (Messages ri ++ [NilMsg]) (Encrypted ri ++ [false]) (Scrambled ri ++ [false])
        (Decrypted ri ++ [false]) (RevealedKeys ri ++ [NilPrivateKey])
        (RevealKeyHashes ri ++ [[]])) ;;
      mret true
  | Some _ => mret false
  end.

Definition start (crypto : option C) : SM bool :=
  r ← CurrentRoundInfo; ri ← load r;
  if bool_decide (phase ri ≠ PreparePhase) then mret false else
  store r (set_Crypto crypto (set_phase SubmitPhase ri)) ;; mret true.

Definition message (Id : UUID) (Message : Msg) (RevealKeyHash : list byte) : SM bool :=
  r ← CurrentRoundInfo; ri ← load r;
  if bool_decide (phase ri ≠ SubmitPhase) then mret false else
  match participantIndex ri Id with
  | None => mret false
  | Some p =>
      msgs ← lift (Messages ri).[p <- Message];
      hashes ← lift (RevealKeyHashes ri).[p <- RevealKeyHash];
      let ri := set_RevealKeyHashes hashes (set_Messages msgs ri) in
      if existsb Msg_Nil (Messages ri) then store r ri ;; mret true
      else store r (set_phase EncryptPhase ri) ;; mret true
  end.

Definition encrypted (Id : UUID) (msgs : list Msg) (Prev : Z) : SM bool :=
  r ← CurrentRoundInfo; ri ← load r;
  if bool_decide (phase ri ≠ EncryptPhase) then mret false else
  match participantIndex ri Id with
  | None => mret false
  | Some p =>
      if bool_decide (Z.of_nat (numEncrypted ri) ≠ Prev) then mret false else
      already ← lift (Encrypted ri).[p];
      if already : bool then mret false else
      flags ← lift (Encrypted ri).[p <- true];
      let ri := set_Encrypted flags (set_Messages msgs ri) in
      if bool_decide (numEncrypted ri = length (Encrypted ri))
      then store r (set_phase ScramblePhase ri) ;; mret true
      else store r ri ;; mret true
  end.

Definition scrambled (Id : UUID) (msgs : list Msg) : SM bool :=
  r ← CurrentRoundInfo; ri ← load r;
  if bool_decide (phase ri ≠ ScramblePhase) then mret false else
  match participantIndex ri Id with
  | None => mret false
  | Some p =>
      if bool_decide (numScrambled ri ≠ p) then mret false else
      already ← lift (Scrambled ri).[p];
      if already : bool then mret false else
      flags ← lift (Scrambled ri).[p <- true];
      let ri := set_Scrambled flags (set_Messages msgs ri) in
      if bool_decide (numScrambled ri = length (Scrambled ri))
      then store r (set_phase DecryptPhase ri) ;; mret true
      else store r ri ;; mret true
  end.

Definition decrypted (Id : UUID) (msgs : list Msg) (Prev : Z) : SM bool :=
  r ← CurrentRoundInfo; ri ← load r;
  if bool_decide (phase ri ≠ DecryptPhase) then mret false else
  match participantIndex ri Id with
  | None => mret false
  | Some p =>
      if bool_decide (Z.of_nat (numDecrypted ri) ≠ Prev) then mret false else
      already ← lift (Decrypted ri).[p];
      if already : bool then mret false else
      flags ← lift (Decrypted ri).[p <- true];
      let ri := set_Decrypted flags (set_Messages msgs ri) in
      if bool_decide (numDecrypted ri = length (Decrypted ri))
      then store r (set_phase RevealPhase ri) ;; mret true
      else store r ri ;; mret true
  end.

Definition reveal (Id : UUID) (RevealKey : PrivateKey) : SM bool :=
  r ← CurrentRoundInfo; ri ← load r;
  if bool_decide (phase ri ≠ RevealPhase) then mret false else
  match participantIndex ri Id with
  | None => mret false
  | Some p =>
      keys ← lift (RevealedKeys ri).[p <- RevealKey];
      let ri := set_RevealedKeys keys ri in
      if existsb PrivateKey_Nil (RevealedKeys ri) then store r ri ;; mret true
      else
        store r (set_phase DonePhase ri) ;;
        nextRound ;;
        mret true
  end.

Definition abort : SM bool :=
  r ← CurrentRoundInfo; ri ← load r;
  store r (set_phase FailedPhase ri) ;;
  nextRound ;;
  mret true.

Definition dispatch (op : Op C) : SM bool :=
  match op with
  | JoinOp Id _ => join Id
  | StartOp _ _ crypto => start crypto
  | MessageOp Id _ m h => message Id m h
  | EncryptedOp Id _ ms prev => encrypted Id ms prev
  | ScrambledOp Id _ ms => scrambled Id ms
  | DecryptedOp Id _ ms prev => decrypted Id ms prev
  | RevealOp Id _ k => reveal Id k
  | AbortOp _ => abort
  end.

(** [Apply]: the representation is checked on entry and, by [defer], on exit. *)
Definition Apply (op : Op C) : SM bool := fun sm =>
  checkRep sm ;;
  '(updated, sm') ← (if bool_decide (op_Round op ≠ Round sm) then Ret (false, sm)
                     else dispatch op sm);
  checkRep sm' ;;
  Ret (updated, sm').

(** [GuaranteedNoEffect]: the [fallthrough]s make the tests of a phase include
    those of all earlier phases. *)
Definition noEffectInPhase (p : Phase) (t : OpType) : outcome bool :=
  let submit := bool_decide (t = JoinOpType) || bool_decide (t = StartOpType) in
  let encrypt := bool_decide (t = MessageOpType) || submit in
  let scramble := bool_decide (t = EncryptedOpType) || encrypt in
  let decrypt := bool_decide (t = ScrambledOpType) || scramble in
  let reveal := bool_decide (t = DecryptedOpType) || decrypt in
  match p with
  | RevealPhase => Ret reveal
  | DecryptPhase => Ret decrypt
  | ScramblePhase => Ret scramble
  | EncryptPhase => Ret encrypt
  | SubmitPhase => Ret submit
  | PreparePhase => Ret false
  | NoPhase | DonePhase | FailedPhase => assertf debug false ;; Ret false
  end.

Definition GuaranteedNoEffect (op : Op C) sm : outcome bool :=
  if op_Round op <? Round sm then Ret true
  else if op_Round op =? Round sm then
    '(r, _) ← CurrentRoundInfo sm;
    '(ri, _) ← load r sm;
    noEffectInPhase (phase ri) (op_Type op)
  else Ret false.

Definition DeepCopy `{CommutativeCrypto C} sm : outcome (StateMachine C) :=
  checkRep sm ;;
  checkRep (mkStateMachine (Round sm) (replicate 3 zeroRoundInfo)) ;;
  rs ← map_outcome ri_DeepCopy (Rounds sm);
  let smCopy := mkStateMachine (Round sm) rs in
  checkRep smCopy ;; checkRep sm ;; Ret smCopy.

(** [Snapshot] is not implemented. *)
Definition Snapshot sm : outcome (list byte) := Panic ExplicitPanic.

(** [NewStateMachine(nil)]. *)
Definition NewStateMachine : outcome (StateMachine C) :=
  '(_, sm) ← initRound 0 (mkStateMachine 0 (replicate 3 zeroRoundInfo)); Ret sm.

(** The map [phaseOrder]; a missing key reads as 0. *)
Definition phaseOrder (p : Phase) : Z :=
  match p with
  | PreparePhase => 0 | SubmitPhase => 1 | EncryptPhase => 2 | ScramblePhase => 3
  | DecryptPhase => 4 | RevealPhase => 5 | DonePhase => 6 | FailedPhase => 7
  | NoPhase => 0
  end.

Definition MayPrecede sm sm2 : outcome bool :=
  if Round sm <? Round sm2 then Ret true
  else if Round sm2 <? Round sm then Ret false
  else
    '(r, _) ← CurrentRoundInfo sm; '(ri, _) ← load r sm;
    '(r2, _) ← CurrentRoundInfo sm2; '(ri2, _) ← load r2 sm2;
    if phaseOrder (phase ri2) <? phaseOrder (phase ri) then Ret false else Ret true.

(** Applying a log of operations in order. *)
Fixpoint run (ops : list (Op C)) sm : outcome (StateMachine C) :=
  match ops with
  | [] => Ret sm
  | op :: ops' => '(_, sm') ← Apply op sm; run ops' sm'
  end.

End state_machine.

#[global] Arguments load : simpl never.
#[global] Arguments store : simpl never.
#[global] Arguments checkRep : simpl never.
#[global] Arguments GetRoundInfo : simpl never.
#[global] Arguments CurrentRoundInfo : simpl never.
#[global] Arguments Apply : simpl never.
