(* ===== verification/RoundSpec.v ===== *)
(** * Specification of one round

    The rules of src/anonbcast/op.go, which document each operation, as an
    inductive relation on [RoundInfo]: [round_step ri op ri' fin] says that
    [op] is allowed in [ri] and leads to [ri'], ending the round when [fin].
    [ri_inv] is the representation invariant that every step preserves for
    arbitrary operations, including those no legal client would send. *)

From Stdlib Require Import Strings.Byte.
From S2P Require Import Prelude Bytes Crypto Op StateMachine.

Section spec.
Context {C : Type}.
Implicit Types ri : RoundInfo C.

(** ** The rules *)

Definition add_participant (Id : UUID) ri : RoundInfo C :=
  mkRoundInfo (phase ri) (Crypto ri) (Participants ri ++ [Id]) (Messages ri ++ [NilMsg])
    (Encrypted ri ++ [false]) (Scrambled ri ++ [false]) (Decrypted ri ++ [false])
    (RevealedKeys ri ++ [NilPrivateKey]) (RevealKeyHashes ri ++ [[]]).

Definition advance (complete : bool) (next : Phase) ri : RoundInfo C :=
  if complete then set_phase next ri else ri.

Definition put_message (p : nat) (m : Msg) (h : list byte) ri : RoundInfo C :=
  set_RevealKeyHashes (<[p:=h]> (RevealKeyHashes ri)) (set_Messages (<[p:=m]> (Messages ri)) ri).

Definition mark_encrypted (p : nat) (ms : list Msg) ri : RoundInfo C :=
  set_Encrypted (<[p:=true]> (Encrypted ri)) (set_Messages ms ri).

Definition mark_scrambled (p : nat) (ms : list Msg) ri : RoundInfo C :=
  set_Scrambled (<[p:=true]> (Scrambled ri)) (set_Messages ms ri).

Definition mark_decrypted (p : nat) (ms : list Msg) ri : RoundInfo C :=
  set_Decrypted (<[p:=true]> (Decrypted ri)) (set_Messages ms ri).

Definition put_key (p : nat) (k : PrivateKey) ri : RoundInfo C :=
  set_RevealedKeys (<[p:=k]> (RevealedKeys ri)) ri.

Definition all_submitted ri : bool := negb (existsb Msg_Nil (Messages ri)).
Definition all_encrypted ri : bool := bool_decide (numEncrypted ri = length (Encrypted ri)).
Definition all_scrambled ri : bool := bool_decide (numScrambled ri = length (Scrambled ri)).
Definition all_decrypted ri : bool := bool_decide (numDecrypted ri = length (Decrypted ri)).
Definition all_revealed ri : bool := negb (existsb PrivateKey_Nil (RevealedKeys ri)).

Inductive round_step ri : Op C → RoundInfo C → bool → Prop :=
| step_join Id R :
    phase ri = PreparePhase → Id ∉ Participants ri →
    round_step ri (JoinOp Id R) (add_participant Id ri) false
| step_start Id R c :
    phase ri = PreparePhase →
    round_step ri (StartOp Id R c) (set_Crypto c (set_phase SubmitPhase ri)) false
| step_message Id R m h p ri' :
    phase ri = SubmitPhase → Participants ri !! p = Some Id →
    ri' = put_message p m h ri →
    round_step ri (MessageOp Id R m h) (advance (all_submitted ri') EncryptPhase ri') false
| step_encrypted Id R ms prev p ri' :
    phase ri = EncryptPhase → Participants ri !! p = Some Id →
    prev = Z.of_nat (numEncrypted ri) → Encrypted ri !! p = Some false →
    ri' = mark_encrypted p ms ri →
    round_step ri (EncryptedOp Id R ms prev) (advance (all_encrypted ri') ScramblePhase ri') false
| step_scrambled Id R ms p ri' :
    phase ri = ScramblePhase → Participants ri !! p = Some Id →
    numScrambled ri = p → Scrambled ri !! p = Some false →
    ri' = mark_scrambled p ms ri →
    round_step ri (ScrambledOp Id R ms) (advance (all_scrambled ri') DecryptPhase ri') false
| step_decrypted Id R ms prev p ri' :
    phase ri = DecryptPhase → Participants ri !! p = Some Id →
    prev = Z.of_nat (numDecrypted ri) → Decrypted ri !! p = Some false →
    ri' = mark_decrypted p ms ri →
    round_step ri (DecryptedOp Id R ms prev) (advance (all_decrypted ri') RevealPhase ri') false
| step_reveal Id R k p ri' :
    phase ri = RevealPhase → Participants ri !! p = Some Id →
    ri' = put_key p k ri →
    round_step ri (RevealOp Id R k) (advance (all_revealed ri') DonePhase ri') (all_revealed ri')
| step_abort R :
    round_step ri (AbortOp R) (set_phase FailedPhase ri) true.

(** ** Looking up participants *)

Lemma indexOf_Some id ps p : indexOf id ps = Some p → ps !! p = Some id.
Proof.
  revert p. induction ps as [|x ps IH]; simpl; intros p H; [done|].
  case_bool_decide as E; simplify_eq/=; [done|].
  apply fmap_Some in H as (q & Hq & ->). by apply IH.
Qed.

Lemma indexOf_None id ps : indexOf id ps = None ↔ id ∉ ps.
Proof.
  induction ps as [|x ps IH]; simpl; [set_solver|].
  case_bool_decide as E.
  - subst. split; [done|]. intros []. left.
  - rewrite fmap_None, IH, not_elem_of_cons. split; [done | by intros [_ ?]].
Qed.

Lemma indexOf_lookup id ps p : NoDup ps → ps !! p = Some id → indexOf id ps = Some p.
Proof.
  intros Hnd Hp. destruct (indexOf id ps) as [q|] eqn:E.
  - apply indexOf_Some in E. f_equal. by eapply NoDup_lookup.
  - apply indexOf_None in E. destruct E. by eapply list_elem_of_lookup_2.
Qed.

(** ** The invariant *)

Definition none_set (l : list bool) : Prop := Forall (fun b => b = false) l.
Definition all_set (l : list bool) : Prop := Forall (fun b => b = true) l.
Definition no_keys ri : Prop := Forall (fun k => k = NilPrivateKey) (RevealedKeys ri).

(** The flags each phase allows: the protocol's phases in sequence. *)
Definition phase_flags ri : Prop :=
  match phase ri with
  | NoPhase => ri = zeroRoundInfo
  | PreparePhase =>
      none_set (Encrypted ri) ∧ none_set (Scrambled ri) ∧ none_set (Decrypted ri) ∧
      no_keys ri ∧ Crypto ri = None ∧ Forall (fun m => m = NilMsg) (Messages ri)
  | SubmitPhase | EncryptPhase =>
      (phase ri = SubmitPhase → none_set (Encrypted ri)) ∧
      none_set (Scrambled ri) ∧ none_set (Decrypted ri) ∧ no_keys ri
  | ScramblePhase => all_set (Encrypted ri) ∧ none_set (Decrypted ri) ∧ no_keys ri
  | DecryptPhase => all_set (Encrypted ri) ∧ all_set (Scrambled ri) ∧ no_keys ri
  | RevealPhase => all_set (Encrypted ri) ∧ all_set (Scrambled ri) ∧ all_set (Decrypted ri)
  | DonePhase =>
      all_set (Encrypted ri) ∧ all_set (Scrambled ri) ∧ all_set (Decrypted ri) ∧
      Forall (fun k => PrivateKey_Nil k = false) (RevealedKeys ri)
  | FailedPhase => True
  end.

Record ri_inv ri : Prop := {
  inv_encrypted : length (Encrypted ri) = length (Participants ri);
  inv_scrambled : length (Scrambled ri) = length (Participants ri);
  inv_decrypted : length (Decrypted ri) = length (Participants ri);
  inv_keys : length (RevealedKeys ri) = length (Participants ri);
  inv_hashes : length (RevealKeyHashes ri) = length (Participants ri);
  inv_messages : phase ri = PreparePhase ∨ phase ri = SubmitPhase →
    length (Messages ri) = length (Participants ri);
  inv_distinct : NoDup (Participants ri);
  inv_in_order : Scrambled ri = replicate (numScrambled ri) true
    ++ replicate (length (Participants ri) - numScrambled ri) false;
  inv_flags : phase_flags ri
}.

(** The phases a round goes through before it ends. *)
Definition active (p : Phase) : Prop :=
  p ≠ NoPhase ∧ p ≠ DonePhase ∧ p ≠ FailedPhase.
Definition finished (p : Phase) : Prop := p = DonePhase ∨ p = FailedPhase.

Lemma none_set_count l : none_set l → count_true l = 0.
Proof. by induction 1; simplify_eq/=. Qed.

Lemma none_set_replicate l : none_set l → l = replicate (length l) false.
Proof. induction 1; simplify_eq/=; congruence. Qed.

Lemma none_set_snoc l : none_set l → none_set (l ++ [false]).
Proof. intros. apply Forall_app. by repeat constructor. Qed.

Lemma all_set_count l : all_set l ↔ count_true l = length l.
Proof. symmetry. apply count_true_full. Qed.

Lemma count_true_ones k n : count_true (replicate k true ++ replicate n false) = k.
Proof. rewrite count_true_app, count_true_replicate_false. induction k; simpl; lia. Qed.

Lemma insert_next_flag k n :
  <[k:=true]> (replicate k true ++ replicate (S n) false) = replicate (S k) true ++ replicate n false.
Proof.
  rewrite insert_app_r_alt, length_replicate, Nat.sub_diag by (by rewrite length_replicate).
  by rewrite (replicate_S_end k true), <- app_assoc.
Qed.

(** [Scrambled] grows from left to right. *)
Lemma mark_in_order (l : list bool) n k :
  length l = n → k = count_true l → l !! k = Some false →
  l = replicate (count_true l) true ++ replicate (n - count_true l) false →
  count_true (<[k:=true]> l) = S k ∧
  <[k:=true]> l = replicate (S k) true ++ replicate (n - S k) false.
Proof.
  intros Hn -> Hk Hl. split; [by apply count_true_insert|].
  pose proof (count_true_not_full _ _ Hk) as Hlt.
  rewrite Hl at 2. replace (n - count_true l) with (S (n - S (count_true l))) by lia.
  apply insert_next_flag.
Qed.

Lemma existsb_keys_false ks :
  existsb PrivateKey_Nil ks = false → Forall (fun k => PrivateKey_Nil k = false) ks.
Proof.
  induction ks as [|k ks IH]; simpl; [done|]. intros [??]%orb_false_iff. by constructor; auto.
Qed.

(** ** Preservation *)

Lemma ri_inv_zero : ri_inv zeroRoundInfo.
Proof. split; simpl; try done; constructor. Qed.

Lemma ri_inv_prepare : ri_inv (set_phase PreparePhase zeroRoundInfo).
Proof. split; simpl; try done; [constructor|]. repeat split; constructor. Qed.

Lemma add_participant_inv Id ri :
  ri_inv ri → phase ri = PreparePhase → Id ∉ Participants ri → ri_inv (add_participant Id ri).
Proof.
  intros [He Hs Hd Hk Hh Hm Hnd Ho Hf] Hp HId.
  unfold phase_flags in Hf. rewrite Hp in Hf. destruct Hf as (Ee & Es & Ed & Ek & Ec & Em).
  split; simpl; rewrite ?length_app; simpl; try lia.
  - intros _. rewrite Hm by auto. done.
  - apply NoDup_app. split; [done|]. split; [|apply NoDup_singleton].
    intros x Hx Hx'%list_elem_of_singleton. by subst.
  - unfold numScrambled. simpl. rewrite none_set_count by by apply none_set_snoc. simpl.
    rewrite Nat.sub_0_r, <- Hs. rewrite (none_set_replicate (Scrambled ri ++ [false])) at 1
      by by apply none_set_snoc.
    rewrite length_app. done.
  - unfold phase_flags. simpl. rewrite Hp. split_and!; try (by apply none_set_snoc); try done.
    + apply Forall_app. by repeat constructor.
    + apply Forall_app. by repeat constructor.
Qed.

(** Steps that change neither the participants nor the flags' lengths keep
    everything but the phase-dependent part. *)
Lemma ri_inv_update ri ri' :
  ri_inv ri → Participants ri' = Participants ri →
  length (Encrypted ri') = length (Encrypted ri) →
  length (Decrypted ri') = length (Decrypted ri) →
  length (RevealedKeys ri') = length (RevealedKeys ri) →
  length (RevealKeyHashes ri') = length (RevealKeyHashes ri) →
  Scrambled ri' = Scrambled ri →
  (phase ri' = PreparePhase ∨ phase ri' = SubmitPhase →
     length (Messages ri') = length (Participants ri)) →
  phase_flags ri' → ri_inv ri'.
Proof.
  intros [He Hs Hd Hk Hh Hm Hnd Ho Hf] HP HE HD HK HH HS HM HF.
  split; rewrite ?HP; try congruence; try done.
  unfold numScrambled in *. by rewrite HS.
Qed.

Lemma advance_cases (b : bool) next ri :
  (b = true ∧ advance b next ri = set_phase next ri) ∨ (b = false ∧ advance b next ri = ri).
Proof. destruct b; auto. Qed.

Ltac flags_of Hf Hp := unfold phase_flags in Hf; rewrite Hp in Hf.

Lemma start_inv c ri :
  ri_inv ri → phase ri = PreparePhase → ri_inv (set_Crypto c (set_phase SubmitPhase ri)).
Proof.
  intros Hi Hp. pose proof (inv_flags _ Hi) as Hf. flags_of Hf Hp.
  destruct Hf as (Ee & Es & Ed & Ek & _).
  apply (ri_inv_update ri); simpl; try done.
  intros _. apply inv_messages; auto.
Qed.

Lemma message_inv p m h ri ri' :
  ri_inv ri → phase ri = SubmitPhase → ri' = put_message p m h ri →
  ri_inv (advance (all_submitted ri') EncryptPhase ri').
Proof.
  intros Hi Hp ->. pose proof (inv_flags _ Hi) as Hf. flags_of Hf Hp.
  destruct Hf as (Ee & Es & Ed & Ek).
  destruct (advance_cases (all_submitted (put_message p m h ri)) EncryptPhase (put_message p m h ri))
    as [[_ ->]|[_ ->]]; apply (ri_inv_update ri); simpl; rewrite ?length_insert; try done.
  - by intros [?|?].
  - intros _. apply inv_messages; auto.
  - unfold phase_flags. simpl. by rewrite Hp.
Qed.

Lemma encrypted_inv p ms ri ri' :
  ri_inv ri → phase ri = EncryptPhase → ri' = mark_encrypted p ms ri →
  ri_inv (advance (all_encrypted ri') ScramblePhase ri').
Proof.
  intros Hi Hp ->. pose proof (inv_flags _ Hi) as Hf. flags_of Hf Hp.
  destruct Hf as (_ & Es & Ed & Ek).
  destruct (advance_cases (all_encrypted (mark_encrypted p ms ri)) ScramblePhase
    (mark_encrypted p ms ri)) as [[Hall ->]|[_ ->]];
    apply (ri_inv_update ri); simpl; rewrite ?length_insert, ?Hp; try done.
  - by intros [?|?].
  - unfold phase_flags. simpl. split_and!; try done.
    apply all_set_count. by apply bool_decide_eq_true in Hall.
  - by intros [?|?].
  - unfold phase_flags. simpl. rewrite Hp. by split_and!.
Qed.

Lemma scrambled_inv ms ri ri' :
  ri_inv ri → phase ri = ScramblePhase → Scrambled ri !! numScrambled ri = Some false →
  ri' = mark_scrambled (numScrambled ri) ms ri →
  ri_inv (advance (all_scrambled ri') DecryptPhase ri').
Proof.
  intros Hi Hp Hsc ->. pose proof (inv_flags _ Hi) as Hf. flags_of Hf Hp.
  destruct Hf as (Ee & Ed & Ek). destruct Hi as [He Hs Hd Hk Hh Hm Hnd Ho _].
  destruct (mark_in_order _ _ (numScrambled ri) Hs eq_refl Hsc Ho) as [Hc Ho'].
  assert (numScrambled (mark_scrambled (numScrambled ri) ms ri) = S (numScrambled ri)) as Hn
    by exact Hc.
  destruct (advance_cases (all_scrambled (mark_scrambled (numScrambled ri) ms ri)) DecryptPhase
    (mark_scrambled (numScrambled ri) ms ri)) as [[Hall ->]|[_ ->]];
    split; simpl; rewrite ?length_insert, ?Hp; try done.
  - by intros [?|?].
  - change (numScrambled (set_phase DecryptPhase ?x)) with (numScrambled x). by rewrite Hn, Ho'.
  - unfold phase_flags. simpl. split_and!; try done.
    apply all_set_count. by apply bool_decide_eq_true in Hall.
  - by intros [?|?].
  - by rewrite Hn, Ho'.
  - unfold phase_flags. simpl. rewrite Hp. by split_and!.
Qed.

Lemma decrypted_inv p ms ri ri' :
  ri_inv ri → phase ri = DecryptPhase → ri' = mark_decrypted p ms ri →
  ri_inv (advance (all_decrypted ri') RevealPhase ri').
Proof.
  intros Hi Hp ->. pose proof (inv_flags _ Hi) as Hf. flags_of Hf Hp.
  destruct Hf as (Ee & Es & Ek).
  destruct (advance_cases (all_decrypted (mark_decrypted p ms ri)) RevealPhase
    (mark_decrypted p ms ri)) as [[Hall ->]|[_ ->]];
    apply (ri_inv_update ri); simpl; rewrite ?length_insert, ?Hp; try done.
  - by intros [?|?].
  - unfold phase_flags. simpl. split_and!; try done.
    apply all_set_count. by apply bool_decide_eq_true in Hall.
  - by intros [?|?].
  - unfold phase_flags. simpl. rewrite Hp. by split_and!.
Qed.

Lemma reveal_inv p k ri ri' :
  ri_inv ri → phase ri = RevealPhase → ri' = put_key p k ri →
  ri_inv (advance (all_revealed ri') DonePhase ri').
Proof.
  intros Hi Hp ->. pose proof (inv_flags _ Hi) as Hf. flags_of Hf Hp.
  destruct Hf as (Ee & Es & Ed).
  destruct (advance_cases (all_revealed (put_key p k ri)) DonePhase (put_key p k ri))
    as [[Hall ->]|[_ ->]]; apply (ri_inv_update ri); simpl; rewrite ?length_insert, ?Hp; try done.
  - by intros [?|?].
  - unfold phase_flags. simpl. split_and!; try done.
    apply existsb_keys_false. by apply negb_true_iff in Hall.
  - by intros [?|?].
  - unfold phase_flags. simpl. rewrite Hp. by split_and!.
Qed.

Lemma abort_inv ri : ri_inv ri → ri_inv (set_phase FailedPhase ri).
Proof. intros Hi. apply (ri_inv_update ri); simpl; try done. by intros [?|?]. Qed.

(** Every step keeps the invariant; a step that ends the round leaves it in
    [DonePhase] or [FailedPhase], any other leaves it active. *)
Lemma round_step_inv ri op ri' fin :
  ri_inv ri → active (phase ri) → round_step ri op ri' fin →
  ri_inv ri' ∧ (if fin then finished (phase ri') else active (phase ri')).
Proof.
  intros Hi Ha Hs. split.
  - destruct Hs; subst; eauto using add_participant_inv, start_inv, message_inv, encrypted_inv,
      scrambled_inv, decrypted_inv, reveal_inv, abort_inv.
  - destruct Hs; subst; try done;
      try (match goal with |- context [advance ?b _ _] => destruct b end; done).
    + match goal with |- context [advance ?b _ _] => destruct b end; [by left|done].
    + by right.
Qed.

(** ** Phases only move forward *)

Lemma round_step_phase ri op ri' fin :
  round_step ri op ri' fin → (phaseOrder (phase ri) ≤ phaseOrder (phase ri'))%Z.
Proof.
  destruct 1; subst; simpl; try (match goal with |- context [advance ?b _ _] => destruct b end);
    simpl; try match goal with H : phase ri = _ |- _ => rewrite H end; simpl; try lia.
  destruct (phase ri); simpl; lia.
Qed.

(** The relation is a partial function of the operation. *)
Lemma round_step_det ri op ri1 fin1 ri2 fin2 :
  NoDup (Participants ri) →
  round_step ri op ri1 fin1 → round_step ri op ri2 fin2 → ri1 = ri2 ∧ fin1 = fin2.
Proof.
  intros Hnd H1 H2. destruct H1; inversion H2; subst; try done;
    match goal with
    | Ha : Participants ri !! ?p = Some ?i, Hb : Participants ri !! ?q = Some ?i |- _ =>
        assert (p = q) by (by eapply NoDup_lookup)
    end; by subst.
Qed.

End spec.

#[export] Hint Resolve ri_inv_zero ri_inv_prepare : go.
