(* ===== verification/StateMachineProps.v ===== *)
(** * Correctness of the state machine

    The functions of StateMachine refine the rules of RoundSpec: on every
    reachable state, and for every operation whatsoever, [Apply] either
    performs exactly the step the rules allow or leaves the state alone.  From
    that follow the invariant of the three-round ring buffer, the meaning of
    the return value, and the soundness of [GuaranteedNoEffect] and of
    [MayPrecede]. *)

From Stdlib Require Import Strings.Byte.
From S2P Require Import Prelude Bytes Crypto Op StateMachine RoundSpec.

Local Open Scope Z_scope.

(** ** The ring buffer *)

(** The index in [Rounds] of round [q]. *)
Definition slot (q : Z) : nat := Z.to_nat (q mod 3).

Lemma slot_lt q : (slot q < 3)%nat.
Proof. unfold slot. pose proof (Z.mod_pos_bound q 3). lia. Qed.

Lemma slot_rem q : 0 ≤ q → Z.to_nat (Z.rem q NumRoundsPersisted) = slot q.
Proof. intros. unfold slot, NumRoundsPersisted. by rewrite Z.rem_mod_nonneg by lia. Qed.

Lemma slot_inj q q' : -3 < q - q' < 3 → slot q = slot q' → q = q'.
Proof. unfold slot. intros. lia_div. Qed.

Section props.
Context {C : Type}.
Implicit Types (sm : StateMachine C) (ri : RoundInfo C) (op : Op C).

Definition current sm : option (RoundInfo C) := Rounds sm !! slot (Round sm).

(** Overwriting the current round, and moving on to the next one. *)
Definition set_current sm ri : StateMachine C :=
  mkStateMachine (Round sm) (<[slot (Round sm) := ri]> (Rounds sm)).

Definition next_round sm : StateMachine C :=
  mkStateMachine (Round sm + 1)
    (<[slot (Round sm + 1) := set_phase PreparePhase zeroRoundInfo]> (Rounds sm)).

Definition commit sm ri (fin : bool) : StateMachine C :=
  if fin then next_round (set_current sm ri) else set_current sm ri.

(** What round [q] looks like in a machine whose current round is [r]. *)
Definition slot_inv (r q : Z) ri : Prop :=
  ri_inv ri ∧ (q = r → active (phase ri)) ∧ (0 ≤ q < r → finished (phase ri)) ∧
  (q < 0 → ri = zeroRoundInfo).

Record sm_inv sm : Prop := {
  inv_round : 0 ≤ Round sm ≤ int_max;
  inv_size : length (Rounds sm) = 3%nat;
  inv_slots : ∀ q, Round sm - 3 < q ≤ Round sm →
    ∃ ri, Rounds sm !! slot q = Some ri ∧ slot_inv (Round sm) q ri
}.

(** One application of an operation to a state of the machine. *)
Definition sm_step (debug : bool) sm op sm' : Prop := ∃ b, Apply debug op sm = Ret (b, sm').

Lemma current_inv sm :
  sm_inv sm → ∃ ri, current sm = Some ri ∧ ri_inv ri ∧ active (phase ri).
Proof.
  intros Hi. destruct (inv_slots _ Hi (Round sm)) as (ri & Hl & Hri & Ha & _); [lia|].
  exists ri. eauto.
Qed.

(** ** Reading and writing through the current pointer *)

Section access.
Context (debug : bool) sm ri (Hr : 0 ≤ Round sm ≤ int_max) (Hsz : length (Rounds sm) = 3%nat)
  (Hc : current sm = Some ri).

Lemma GetRoundInfo_current : GetRoundInfo sm (Round sm) = (RiAt (slot (Round sm)), None).
Proof.
  clear Hsz Hc. unfold GetRoundInfo. rewrite Z.ltb_irrefl, (proj2 (Z.ltb_ge _ _)) by lia.
  unfold NumRoundsPersisted at 1. unfold int_max in Hr.
  rewrite wrap64_id by (unfold int_min, int_max; lia).
  rewrite (proj2 (Z.leb_gt _ _)), slot_rem by lia. done.
Qed.

Lemma CurrentRoundInfo_eq : CurrentRoundInfo debug sm = Ret (RiAt (slot (Round sm)), sm).
Proof. unfold CurrentRoundInfo. rewrite GetRoundInfo_current. by destruct debug. Qed.

Lemma load_current : load (RiAt (slot (Round sm))) sm = Ret (ri, sm).
Proof. unfold load, slice_get. unfold current in Hc. by rewrite Hc. Qed.

Lemma store_current ri' : store (RiAt (slot (Round sm))) ri' sm = Ret (tt, set_current sm ri').
Proof.
  unfold store. rewrite slice_set_ret by (rewrite Hsz; apply slot_lt). done.
Qed.

Lemma nextRound_current ri' :
  Round sm < int_max → nextRound debug (set_current sm ri') = Ret (tt, next_round (set_current sm ri')).
Proof.
  intros Hlt. unfold nextRound, initRound. simpl.
  rewrite wrap64_id by (unfold int_min, int_max in *; lia).
  rewrite Z.eqb_refl, assertf_true. simpl.
  rewrite (proj2 (Z.ltb_ge _ _)) by (apply Z.rem_nonneg; unfold NumRoundsPersisted; lia).
  rewrite slot_rem by lia. rewrite slice_set_ret; [done|].
  rewrite length_insert, Hsz. apply slot_lt.
Qed.

End access.

(** ** Each operation follows its rule *)

Definition refines debug sm ri op : Prop :=
  (∃ ri' fin, round_step ri op ri' fin ∧ dispatch debug op sm = Ret (true, commit sm ri' fin)) ∨
  ((∀ ri' fin, ¬ round_step ri op ri' fin) ∧ dispatch debug op sm = Ret (false, sm)).

Section refinement.
Context (debug : bool) sm ri (Hr : 0 ≤ Round sm < int_max) (Hsz : length (Rounds sm) = 3%nat)
  (Hc : current sm = Some ri) (Hri : ri_inv ri).

Lemma at_current {A} (k : riRef → RoundInfo C → SM A) :
  SM_bind _ _ (fun r => SM_bind _ _ (k r) (load r)) (CurrentRoundInfo debug) sm
  = k (RiAt (slot (Round sm))) ri sm.
Proof.
  unfold SM_bind, GoM_bind. rewrite CurrentRoundInfo_eq by lia. by rewrite (load_current _ ri Hc).
Qed.

Lemma store_then {A} ri' (k : SM A) :
  SM_bind _ _ (fun _ => k) (store (RiAt (slot (Round sm))) ri') sm = k (set_current sm ri').
Proof. unfold SM_bind, GoM_bind. by rewrite store_current. Qed.

Lemma nextRound_then {A} ri' (k : SM A) :
  SM_bind _ _ (fun _ => k) (nextRound debug) (set_current sm ri') = k (next_round (set_current sm ri')).
Proof. unfold SM_bind, GoM_bind. by rewrite nextRound_current by lia. Qed.

Lemma lift_ret {A B} (x : A) (k : A → SM B) : SM_bind _ _ k (lift (Ret x)) sm = k x sm.
Proof. done. Qed.

Ltac by_rule :=
  unfold refines, dispatch, join, start, message, encrypted, scrambled, decrypted, reveal, abort;
  unfold mbind; rewrite at_current.
Ltac no_rule := right; split; [intros ri' fin Hst; inversion Hst; subst | done].

Lemma join_refines Id R : refines debug sm ri (JoinOp Id R).
Proof.
  by_rule. case_bool_decide as Hp; [no_rule; done|].
  unfold participantIndex. destruct (indexOf Id (Participants ri)) as [p|] eqn:Hx.
  - no_rule. apply indexOf_Some in Hx. by apply list_elem_of_lookup_2 in Hx.
  - left. do 2 eexists. split; [apply step_join; [done | by apply indexOf_None]|].
    by rewrite store_then.
Qed.

Lemma start_refines Id R c : refines debug sm ri (StartOp Id R c).
Proof.
  by_rule. case_bool_decide as Hp; [no_rule; done|].
  left. do 2 eexists. split; [by apply step_start|]. by rewrite store_then.
Qed.

(** A participant that the operation names, or the warning branch. *)
Lemma indexOf_cases Id :
  (∃ p, indexOf Id (Participants ri) = Some p ∧ Participants ri !! p = Some Id ∧
        (p < length (Participants ri))%nat) ∨
  (indexOf Id (Participants ri) = None ∧ ∀ p, Participants ri !! p ≠ Some Id).
Proof.
  destruct (indexOf Id (Participants ri)) as [p|] eqn:Hx.
  - left. apply indexOf_Some in Hx. eauto using lookup_lt_Some.
  - right. split; [done|]. intros p Hp. apply indexOf_None in Hx. destruct Hx.
    by eapply list_elem_of_lookup_2.
Qed.

Lemma participant_unique p q Id :
  Participants ri !! p = Some Id → Participants ri !! q = Some Id → p = q.
Proof. intros. eapply NoDup_lookup; eauto. apply Hri. Qed.

Ltac find_participant Id p Hx Hp :=
  unfold participantIndex;
  destruct (indexOf_cases Id) as [(p & Hx & Hp & ?)|[Hx Hp]];
    rewrite Hx; [|no_rule; by eapply Hp].

(** Closes a case where the rule asks for flags the participant lacks. *)
Ltac same_participant :=
  first
    [ congruence
    | match goal with
      | H1 : Participants ri !! ?p = Some ?i, H2 : Participants ri !! ?q = Some ?i |- _ =>
          pose proof (participant_unique _ _ _ H1 H2)
      end; congruence ].

Lemma message_refines Id R m h : refines debug sm ri (MessageOp Id R m h).
Proof.
  by_rule. case_bool_decide as Hph; [no_rule; done|].
  find_participant Id p Hx Hp.
  rewrite (slice_set_ret (Messages ri)) by (rewrite inv_messages; auto). rewrite lift_ret.
  rewrite slice_set_ret by (rewrite inv_hashes; auto). rewrite lift_ret.
  left. do 2 eexists. split; [by eapply step_message|].
  unfold all_submitted, advance. simpl. destruct (existsb _ _); simpl; by rewrite store_then.
Qed.

Lemma encrypted_refines Id R ms prev : refines debug sm ri (EncryptedOp Id R ms prev).
Proof.
  by_rule. case_bool_decide as Hph; [no_rule; done|].
  find_participant Id p Hx Hp.
  case_bool_decide as Hprev; [no_rule; done|].
  destruct (lookup_lt_is_Some_2 (Encrypted ri) p) as [f Hf]; [by rewrite inv_encrypted|].
  unfold slice_get. rewrite Hf, lift_ret. destruct f.
  { no_rule. same_participant. }
  rewrite slice_set_ret by (by rewrite inv_encrypted). rewrite lift_ret.
  left. do 2 eexists. split; [by eapply step_encrypted|].
  unfold all_encrypted, advance, mark_encrypted. case_bool_decide; by rewrite store_then.
Qed.

Lemma scrambled_refines Id R ms : refines debug sm ri (ScrambledOp Id R ms).
Proof.
  by_rule. case_bool_decide as Hph; [no_rule; done|].
  find_participant Id p Hx Hp.
  case_bool_decide as Hprev.
  { no_rule. same_participant. }
  destruct (lookup_lt_is_Some_2 (Scrambled ri) p) as [f Hf]; [by rewrite inv_scrambled|].
  unfold slice_get. rewrite Hf, lift_ret. destruct f.
  { no_rule. same_participant. }
  rewrite slice_set_ret by (by rewrite inv_scrambled). rewrite lift_ret.
  left. do 2 eexists. split; [by eapply step_scrambled|].
  unfold all_scrambled, advance, mark_scrambled. case_bool_decide; by rewrite store_then.
Qed.

Lemma decrypted_refines Id R ms prev : refines debug sm ri (DecryptedOp Id R ms prev).
Proof.
  by_rule. case_bool_decide as Hph; [no_rule; done|].
  find_participant Id p Hx Hp.
  case_bool_decide as Hprev; [no_rule; done|].
  destruct (lookup_lt_is_Some_2 (Decrypted ri) p) as [f Hf]; [by rewrite inv_decrypted|].
  unfold slice_get. rewrite Hf, lift_ret. destruct f.
  { no_rule. same_participant. }
  rewrite slice_set_ret by (by rewrite inv_decrypted). rewrite lift_ret.
  left. do 2 eexists. split; [by eapply step_decrypted|].
  unfold all_decrypted, advance, mark_decrypted. case_bool_decide; by rewrite store_then.
Qed.

Lemma reveal_refines Id R k : refines debug sm ri (RevealOp Id R k).
Proof.
  by_rule. case_bool_decide as Hph; [no_rule; done|].
  find_participant Id p Hx Hp.
  rewrite slice_set_ret by (by rewrite inv_keys). rewrite lift_ret.
  left. do 2 eexists. split; [by eapply step_reveal|].
  unfold all_revealed, advance. simpl. destruct (existsb _ _); simpl; rewrite store_then; [done|].
  by rewrite nextRound_then.
Qed.

Lemma abort_refines R : refines debug sm ri (AbortOp R).
Proof.
  by_rule. left. do 2 eexists. split; [apply step_abort|].
  unfold mbind. by rewrite store_then, nextRound_then.
Qed.

Lemma dispatch_refines op : refines debug sm ri op.
Proof.
  destruct op; auto using join_refines, start_refines, message_refines, encrypted_refines,
    scrambled_refines, decrypted_refines, reveal_refines, abort_refines.
Qed.

End refinement.

(** ** The invariant of the machine *)

Lemma Apply_nodebug op sm :
  Apply false op sm =
  (if bool_decide (op_Round op ≠ Round sm) then Ret (false, sm) else dispatch false op sm).
Proof.
  unfold Apply. simpl. case_bool_decide; [done|].
  by destruct (dispatch false op sm) as [[b sm']|].
Qed.

Lemma set_current_inv sm ri :
  sm_inv sm → ri_inv ri → active (phase ri) → sm_inv (set_current sm ri).
Proof.
  intros [Hr Hsz Hs] Hri Ha. split; simpl; [done|by rewrite length_insert|].
  intros q Hq. destruct (decide (q = Round sm)) as [->|Hne].
  - exists ri. split; [apply list_lookup_insert_eq; rewrite Hsz; apply slot_lt|].
    split_and!; try done; lia.
  - rewrite list_lookup_insert_ne by (intros ?%slot_inj; lia). by apply Hs.
Qed.

Lemma next_round_inv sm ri :
  sm_inv sm → Round sm < int_max → ri_inv ri → finished (phase ri) →
  sm_inv (next_round (set_current sm ri)).
Proof.
  intros [Hr Hsz Hs] Hlt Hri Hf.
  split; simpl; [lia|by rewrite !length_insert|].
  intros q Hq. destruct (decide (q = Round sm + 1)) as [->|Hne].
  - eexists. split; [apply list_lookup_insert_eq; rewrite length_insert, Hsz; apply slot_lt|].
    split; [apply ri_inv_prepare|]. simpl. split_and!; intros; (done || lia).
  - rewrite list_lookup_insert_ne by (intros ?%slot_inj; lia).
    destruct (decide (q = Round sm)) as [->|Hne'].
    + exists ri. split; [apply list_lookup_insert_eq; rewrite Hsz; apply slot_lt|].
      split_and!; try done; lia.
    + rewrite list_lookup_insert_ne by (intros ?%slot_inj; lia).
      destruct (Hs q ltac:(lia)) as (ri0 & Hl & H1 & H2 & H3 & H4).
      exists ri0. split; [done|]. split_and!; try done. intros. apply H3. lia.
Qed.

Lemma commit_inv sm ri op ri' fin :
  sm_inv sm → Round sm < int_max → current sm = Some ri → round_step ri op ri' fin →
  sm_inv (commit sm ri' fin).
Proof.
  intros Hi Hlt Hc Hst. destruct (current_inv _ Hi) as (ri0 & Hc' & Hri & Ha). simplify_eq.
  destruct (round_step_inv _ _ _ _ Hri Ha Hst) as [Hri' Hf].
  destruct fin; [by apply next_round_inv | by apply set_current_inv].
Qed.

Lemma NewStateMachine_inv debug :
  ∃ sm, NewStateMachine debug = Ret sm ∧ sm_inv sm ∧ Round sm = 0.
Proof.
  exists (mkStateMachine 0 [set_phase PreparePhase zeroRoundInfo; zeroRoundInfo; zeroRoundInfo]).
  split; [by destruct debug|]. split; [|done]. split; [by vm_compute|done|].
  intros q Hq. simpl in Hq. destruct (decide (q = 0)) as [->|].
  - eexists. split; [done|]. split; [apply ri_inv_prepare|].
    split_and!; simpl; intros; (done || lia).
  - exists zeroRoundInfo. assert (q = -1 ∨ q = -2) as [-> | ->] by lia;
      (split; [done|]); (split; [apply ri_inv_zero|]); split_and!; try lia; done.
Qed.

(** [Apply] without debugging: what it returns, on any operation. *)
Lemma Apply_cases op sm :
  sm_inv sm → Round sm < int_max →
  (∃ ri ri' fin, op_Round op = Round sm ∧ current sm = Some ri ∧ round_step ri op ri' fin ∧
     Apply false op sm = Ret (true, commit sm ri' fin)) ∨
  ((∀ ri ri' fin, op_Round op = Round sm → current sm = Some ri → ¬ round_step ri op ri' fin) ∧
     Apply false op sm = Ret (false, sm)).
Proof.
  intros Hi Hlt. destruct (current_inv _ Hi) as (ri & Hc & Hri & Ha). rewrite Apply_nodebug.
  case_bool_decide as HR; [right; split; [by intros ??? ?|done]|].
  destruct (dispatch_refines false sm ri ltac:(split; [apply Hi|done]) (inv_size _ Hi) Hc Hri op)
    as [(ri' & fin & Hst & ->)|[Hno ->]].
  - left. exists ri, ri', fin. split_and!; try done.
  - right. split; [|done]. intros ri0 ri' fin _ Hc'. simplify_eq. apply Hno.
Qed.

Lemma Apply_inv op sm b sm' :
  sm_inv sm → Round sm < int_max → Apply false op sm = Ret (b, sm') →
  sm_inv sm' ∧ Round sm ≤ Round sm' ≤ Round sm + 1.
Proof.
  intros Hi Hlt HA. destruct (Apply_cases op sm Hi Hlt) as
    [(ri & ri' & fin & _ & Hc & Hst & E)|[_ E]]; rewrite E in HA; simplify_eq.
  - split; [by eapply commit_inv|]. destruct fin; simpl; lia.
  - split; [done|lia].
Qed.

(** ** Logs *)

(** The log is short enough for the round counter to stay in range. *)
Definition in_range sm (ops : list (Op C)) : Prop := Round sm + Z.of_nat (length ops) ≤ int_max.

Lemma run_ind (Pr : StateMachine C → StateMachine C → Prop) :
  (∀ sm, sm_inv sm → Pr sm sm) →
  (∀ sm op b sm' sm'', sm_inv sm → Round sm < int_max → Apply false op sm = Ret (b, sm') →
     sm_inv sm' → sm_inv sm'' → Pr sm' sm'' → Pr sm sm'') →
  ∀ ops sm, sm_inv sm → in_range sm ops →
  ∃ sm', run false ops sm = Ret sm' ∧ sm_inv sm' ∧ Round sm' ≤ Round sm + Z.of_nat (length ops) ∧
    Pr sm sm'.
Proof.
  intros H0 HS. induction ops as [|op ops IH]; intros sm Hi Hr.
  - exists sm. simpl. split_and!; auto; lia.
  - unfold in_range in Hr. simpl length in Hr.
    assert (Round sm < int_max) as Hlt by lia.
    assert (∃ b sm1, Apply false op sm = Ret (b, sm1)) as (b & sm1 & HA).
    { destruct (Apply_cases op sm Hi Hlt) as [(?&?&?&?&?&?&?)|[??]]; eauto. }
    destruct (Apply_inv _ _ _ _ Hi Hlt HA) as [Hi1 Hr1].
    destruct (IH sm1 Hi1) as (sm' & Hrun & Hi' & Hr' & HP); [unfold in_range; lia|].
    exists sm'. simpl. rewrite HA. simpl. split_and!; eauto. simpl length. lia.
Qed.

Lemma run_app debug ops ops' sm sm1 :
  run debug ops sm = Ret sm1 → run debug (ops ++ ops') sm = run debug ops' sm1.
Proof.
  revert sm. induction ops as [|op ops IH]; intros sm; simpl; [by intros [= ->]|].
  intros ([b sm'] & HA & Hr)%bind_ret_inv. rewrite HA. simpl. by apply IH.
Qed.

Lemma run_bound ops sm sm' :
  sm_inv sm → run false ops sm = Ret sm' → in_range sm ops →
  sm_inv sm' ∧ Round sm ≤ Round sm' ≤ Round sm + Z.of_nat (length ops).
Proof.
  intros Hi Hr Hb. destruct (run_ind (fun sm sm' => Round sm ≤ Round sm')) with (ops := ops) (sm := sm)
    as (sm1 & E & Hi' & Hle & Hge); try done.
  - intros s op b s1 s2 Hs Hlt HA Hs1 Hs2 Hle. destruct (Apply_inv _ _ _ _ Hs Hlt HA). lia.
  - rewrite E in Hr. injection Hr as <-. by split; [|lia].
Qed.

(** ** Order of states *)

Definition precedes sm sm' : Prop :=
  Round sm < Round sm' ∨
  (Round sm = Round sm' ∧ ∃ ri ri', current sm = Some ri ∧ current sm' = Some ri' ∧
    phaseOrder (phase ri) ≤ phaseOrder (phase ri')).

Lemma precedes_refl sm : sm_inv sm → precedes sm sm.
Proof. intros (ri & Hc & _)%current_inv. right. split; [done|]. by exists ri, ri. Qed.

Lemma precedes_trans sm1 sm2 sm3 : precedes sm1 sm2 → precedes sm2 sm3 → precedes sm1 sm3.
Proof.
  intros [H1|(H1 & r1 & r2 & C1 & C2 & P1)] [H2|(H2 & r2' & r3 & C2' & C3 & P2)];
    [left; lia..|]. simplify_eq.
  right. split; [lia|]. exists r1, r3. split_and!; try done. lia.
Qed.

Lemma Apply_precedes op sm b sm' :
  sm_inv sm → Round sm < int_max → Apply false op sm = Ret (b, sm') → precedes sm sm'.
Proof.
  intros Hi Hlt HA. destruct (Apply_cases op sm Hi Hlt) as
    [(ri & ri' & fin & _ & Hc & Hst & E)|[_ E]]; rewrite E in HA; simplify_eq;
    [|by apply precedes_refl].
  destruct fin; [left; simpl; lia|]. right. split; [done|].
  exists ri, ri'. split_and!; [done| |by eapply round_step_phase].
  unfold current. simpl. apply list_lookup_insert_eq. rewrite inv_size by done. apply slot_lt.
Qed.

Lemma run_precedes ops sm :
  sm_inv sm → in_range sm ops → ∃ sm', run false ops sm = Ret sm' ∧ sm_inv sm' ∧ precedes sm sm'.
Proof.
  intros Hi Hr. destruct (run_ind precedes) with (ops := ops) (sm := sm)
    as (sm' & H1 & H2 & _ & H3); eauto using precedes_refl, precedes_trans, Apply_precedes.
Qed.

Lemma MayPrecede_spec debug sm sm' :
  sm_inv sm → sm_inv sm' →
  ∃ b, MayPrecede debug sm sm' = Ret b ∧ (b = true ↔ precedes sm sm').
Proof.
  intros Hi Hi'. destruct (current_inv _ Hi) as (ri & Hc & _), (current_inv _ Hi') as (ri' & Hc' & _).
  unfold MayPrecede, precedes.
  destruct (Round sm <? Round sm') eqn:E1; bool_to_prop; [exists true; naive_solver|].
  destruct (Round sm' <? Round sm) eqn:E2; bool_to_prop; [exists false; split; [done|]; split; [done|lia]|].
  rewrite !CurrentRoundInfo_eq by (apply inv_round; done). simpl.
  rewrite (load_current sm ri Hc), (load_current sm' ri' Hc'). simpl.
  destruct (phaseOrder (phase ri') <? phaseOrder (phase ri)) eqn:E3; bool_to_prop.
  - exists false. split; [done|]. split; [done|]. intros [|(_ & x & y & ? & ? & ?)]; [lia|].
    simplify_eq. lia.
  - exists true. split; [done|]. split; [|done]. intros _. right. split; [lia|]. eauto.
Qed.

(** ** Operations whose time has passed *)

(** The position of the only phase in which an operation can take effect. *)
Definition op_order (t : OpType) : option Z :=
  match t with
  | JoinOpType | StartOpType => Some 0
  | MessageOpType => Some 1
  | EncryptedOpType => Some 2
  | ScrambledOpType => Some 3
  | DecryptedOpType => Some 4
  | RevealOpType => Some 5
  | AbortOpType => None
  end.

Lemma round_step_order ri op ri' fin k :
  round_step ri op ri' fin → op_order (op_Type op) = Some k → phaseOrder (phase ri) = k.
Proof. by destruct 1 as [? ? -> ?|? ? ? ->|? ? ? ? ? ? ->|? ? ? ? ? ? ->|? ? ? ? ? ->|? ? ? ? ? ? ->|? ? ? ? ? ->|?];
  intros [= <-]. Qed.

Lemma noEffectInPhase_order debug p t :
  noEffectInPhase debug p t = Ret true → ∃ k, op_order t = Some k ∧ k < phaseOrder p.
Proof.
  unfold noEffectInPhase. destruct p; try (by destruct debug); destruct t; simpl;
    intros [=]; by eexists.
Qed.

(** An operation of an earlier round, or of an earlier phase, has no effect. *)
Lemma expired_no_effect op sm :
  sm_inv sm → Round sm < int_max →
  op_Round op < Round sm ∨
    (∃ ri k, current sm = Some ri ∧ op_order (op_Type op) = Some k ∧ k < phaseOrder (phase ri)) →
  Apply false op sm = Ret (false, sm).
Proof.
  intros Hi Hlt Hexp. destruct (Apply_cases op sm Hi Hlt) as
    [(ri & ri' & fin & HR & Hc & Hst & _)|[_ E]]; [|done].
  destruct Hexp as [?|(ri0 & k & Hc' & Ho & Hk)]; [lia|]. simplify_eq.
  pose proof (round_step_order _ _ _ _ _ Hst Ho). lia.
Qed.

(** The operation is too late: its round, or the phase it belongs to, is over. *)
Definition expired op sm : Prop :=
  op_Round op < Round sm ∨ (op_Round op = Round sm ∧ ∃ ri k, current sm = Some ri ∧
    op_order (op_Type op) = Some k ∧ k < phaseOrder (phase ri)).

Lemma expired_precedes op sm sm' : precedes sm sm' → expired op sm → expired op sm'.
Proof.
  intros [?|(? & r1 & r2 & C1 & C2 & ?)] [?|(HR & ri & k & Hc & Ho & Hk)]; try (left; lia).
  right. simplify_eq. split; [lia|]. exists r2, k. split_and!; try done. lia.
Qed.

(** An expired operation stays without effect. *)
Lemma expired_rejected op sm (ops : list (Op C)) :
  sm_inv sm → Round sm + Z.of_nat (length ops) < int_max → expired op sm →
  ∃ sm', run false ops sm = Ret sm' ∧ Apply false op sm' = Ret (false, sm').
Proof.
  intros Hi Hr He.
  destruct (run_ind precedes) with (ops := ops) (sm := sm)
    as (sm' & Hrun & Hi' & Hle & Hp);
    eauto using precedes_refl, precedes_trans, Apply_precedes; [unfold in_range; lia|].
  exists sm'. split; [done|]. apply expired_no_effect; [done|lia|].
  destruct (expired_precedes _ _ _ Hp He) as [?|[_ ?]]; auto.
Qed.

Lemma GuaranteedNoEffect_expired debug op sm :
  sm_inv sm → GuaranteedNoEffect debug op sm = Ret true → expired op sm.
Proof.
  intros Hi. destruct (current_inv _ Hi) as (ri & Hc & _). unfold GuaranteedNoEffect, expired.
  destruct (_ <? _) eqn:E1; bool_to_prop; [auto|].
  destruct (_ =? _) eqn:E2; bool_to_prop; [|done].
  rewrite CurrentRoundInfo_eq by by apply inv_round. simpl. rewrite (load_current sm ri Hc). simpl.
  intros (k & Ho & Hk)%noEffectInPhase_order. right. eauto 10.
Qed.

(** ** Finished rounds *)

Lemma commit_history sm ri fin q :
  Round sm - 3 < q < Round sm → Round (commit sm ri fin) - 3 < q →
  Rounds (commit sm ri fin) !! slot q = Rounds sm !! slot q.
Proof.
  intros Hq Hq'. destruct fin; simpl in *;
    rewrite !list_lookup_insert_ne by (intros ?%slot_inj; lia); done.
Qed.

Lemma run_history ops sm q :
  sm_inv sm → in_range sm ops → Round sm - 3 < q < Round sm →
  ∃ sm', run false ops sm = Ret sm' ∧ sm_inv sm' ∧ Round sm ≤ Round sm' ∧
    (Round sm' - 3 < q → Rounds sm' !! slot q = Rounds sm !! slot q).
Proof.
  intros Hi Hr Hq.
  destruct (run_ind (fun sm sm' => Round sm ≤ Round sm' ∧ (∀ q, Round sm - 3 < q < Round sm →
    Round sm' - 3 < q → Rounds sm' !! slot q = Rounds sm !! slot q))) with (ops := ops) (sm := sm)
    as (sm' & H1 & H2 & _ & H3 & H4); [done| |done..|eauto 10].
  clear. intros sm op b sm' sm'' Hi Hlt HA Hi' Hi'' [Hle IH].
  destruct (Apply_inv _ _ _ _ Hi Hlt HA) as [_ Hr]. split; [lia|].
  intros q Hq Hq'. rewrite IH by lia.
  destruct (Apply_cases op sm Hi Hlt) as
    [(ri & ri' & fin & _ & Hc & Hst & E)|[_ E]]; rewrite E in HA; simplify_eq; [|done].
  apply commit_history; lia.
Qed.

Lemma GetRoundInfo_window sm q :
  sm_inv sm →
  GetRoundInfo sm q =
    if bool_decide (Round sm < q) then (RiFresh, Some ErrFuture)
    else if bool_decide (q < 0) then (RiFresh, Some ErrNegative)
    else if bool_decide (q ≤ Round sm - 3) then (RiFresh, Some ErrTooOld)
    else (RiAt (slot q), None).
Proof.
  intros Hi. pose proof (inv_round _ Hi) as Hr. unfold int_max in Hr. unfold GetRoundInfo, NumRoundsPersisted.
  rewrite wrap64_id by (unfold int_min, int_max; lia).
  repeat (case_bool_decide; [by match goal with |- context [if ?b then _ else _] =>
    replace b with true by lia end| match goal with |- context [if ?b then _ else _] =>
    replace b with false by lia end]).
  by rewrite slot_rem by lia.
Qed.

End props.

(** ** Properties *)

Section theorems.
Context {C : Type}.
Implicit Types (sm : StateMachine C) (op : Op C).

(** C3: refinement.  With assertions disabled, on every state that satisfies the
    invariant and whose round is below the largest int, and for every
    operation, honest or not, [Apply] returns without panicking and the result
    satisfies the invariant again; it returns true exactly when the operation
    is for the current round and the rules of op.go allow it there, and then
    the new state is the one the rules prescribe; otherwise nothing changes. *)
Theorem Apply_refines_round_rules op sm :
  sm_inv sm → Round sm < int_max →
  ∃ b sm', Apply false op sm = Ret (b, sm') ∧ sm_inv sm' ∧
    (b = true ↔ ∃ ri ri' fin, op_Round op = Round sm ∧ current sm = Some ri ∧
       round_step ri op ri' fin) ∧
    (∀ ri ri' fin, current sm = Some ri → op_Round op = Round sm → round_step ri op ri' fin →
       sm' = commit sm ri' fin) ∧
    (b = false → sm' = sm).
Proof.
  intros Hi Hlt. destruct (current_inv _ Hi) as (ri0 & Hc0 & Hri0 & _).
  destruct (Apply_cases op sm Hi Hlt) as
    [(ri & ri' & fin & HR & Hc & Hst & E)|[Hno E]]; do 2 eexists; (split; [exact E|]).
  - split; [by eapply commit_inv|]. split; [split; eauto 10|]. split; [|done].
    intros ri1 ri1' fin1 Hc1 _ Hst1. simplify_eq.
    by destruct (round_step_det _ _ _ _ _ _ (inv_distinct _ Hri0) Hst Hst1) as [-> ->].
  - split; [done|]. split; [|split; [|done]].
    + split; [done|]. intros (ri & ri' & fin & HR & Hc & Hst). by destruct (Hno ri ri' fin).
    + intros ri ri' fin Hc HR Hst. by destruct (Hno ri ri' fin).
Qed.

(** C22: [GuaranteedNoEffect] is sound: when it answers true, then after any
    further operations the given operation is rejected and changes nothing. *)
Theorem GuaranteedNoEffect_sound op sm (ops : list (Op C)) :
  sm_inv sm → Round sm + Z.of_nat (length ops) < int_max →
  GuaranteedNoEffect false op sm = Ret true →
  ∃ sm', run false ops sm = Ret sm' ∧ Apply false op sm' = Ret (false, sm').
Proof.
  intros Hi Hr HG. apply expired_rejected; [done..|]. by eapply GuaranteedNoEffect_expired.
Qed.

(** [MayPrecede] holds between a state and every state the machine reaches
    from it: rounds never decrease, and within a round phases never go back. *)
Theorem MayPrecede_of_reachable debug sm (ops : list (Op C)) :
  sm_inv sm → in_range sm ops →
  ∃ sm', run false ops sm = Ret sm' ∧ MayPrecede debug sm sm' = Ret true.
Proof.
  intros Hi Hr. destruct (run_precedes ops sm Hi Hr) as (sm' & Hrun & Hi' & Hp).
  exists sm'. split; [done|]. destruct (MayPrecede_spec debug _ _ Hi Hi') as (b & -> & Hb).
  f_equal. by apply Hb.
Qed.

(** The ring buffer persists results.  As long as a finished round is among
    the last three, [GetRoundInfo] finds it, it is in [DonePhase] or
    [FailedPhase], and it is the very record with which the round ended,
    whatever operations are applied in the meantime. *)
Theorem finished_round_persists sm (ops : list (Op C)) q :
  sm_inv sm → in_range sm ops → 0 ≤ q < Round sm → Round sm - 3 < q →
  ∃ sm' ri, run false ops sm = Ret sm' ∧ Rounds sm !! slot q = Some ri ∧ finished (phase ri) ∧
    (Round sm' - 3 < q →
       GetRoundInfo sm' q = (RiAt (slot q), None) ∧ Rounds sm' !! slot q = Some ri).
Proof.
  intros Hi Hr Hq Hq3. destruct (inv_slots _ Hi q) as (ri & Hl & _ & _ & Hf & _); [lia|].
  destruct (run_history ops sm q Hi Hr ltac:(lia)) as (sm' & Hrun & Hi' & Hle & Hkeep).
  exists sm', ri. split_and!; try done; [by apply Hf|]. intros Hw. rewrite Hkeep by done.
  split; [|done]. rewrite GetRoundInfo_window by done.
  by rewrite !bool_decide_false by lia.
Qed.

(** [GetRoundInfo] answers with one of its three errors exactly outside the
    window of rounds that are not in the future, not negative and among the
    last three. *)
Theorem GetRoundInfo_error_iff sm q :
  sm_inv sm →
  ((GetRoundInfo sm q).2 = Some ErrFuture ↔ Round sm < q) ∧
  ((GetRoundInfo sm q).2 = Some ErrNegative ↔ q < 0) ∧
  ((GetRoundInfo sm q).2 = Some ErrTooOld ↔ 0 ≤ q ≤ Round sm - 3) ∧
  ((GetRoundInfo sm q).2 = None ↔ 0 ≤ q ∧ Round sm - 3 < q ≤ Round sm).
Proof.
  intros Hi. pose proof (inv_round _ Hi). rewrite GetRoundInfo_window by done.
  repeat case_bool_decide; simpl; split_and!; (split; [intros [=]|]; intros; try done; lia).
Qed.

End theorems.

(** ** A concrete run *)

Module Demo.

Definition alice : UUID := [Byte.x0a].
Definition bob : UUID := [Byte.x0b].
Definition a_msg : Msg := mkMsg [Byte.x05].
Definition a_key : PrivateKey := mkPrivateKey [Byte.x03] [Byte.x07].

Section demo.
Context {C : Type} (c : C).

(** Two participants carry one round to the encrypt, then to the reveal phase. *)
Definition to_encrypt : list (Op C) :=
  [ JoinOp alice 0; JoinOp bob 0; StartOp alice 0 (Some c);
    MessageOp alice 0 a_msg [Byte.x01]; MessageOp bob 0 a_msg [Byte.x02] ].

Definition to_reveal : list (Op C) := to_encrypt ++
  [ EncryptedOp bob 0 [a_msg; a_msg] 0; EncryptedOp alice 0 [a_msg; a_msg] 1;
    ScrambledOp alice 0 [a_msg; a_msg]; ScrambledOp bob 0 [a_msg; a_msg];
    DecryptedOp alice 0 [a_msg; a_msg] 0; DecryptedOp bob 0 [a_msg; a_msg] 1 ].

Definition one_round : list (Op C) :=
  to_reveal ++ [RevealOp bob 0 a_key; RevealOp alice 0 a_key].

Definition after (ops : list (Op C)) : StateMachine C :=
  match NewStateMachine false ≫= run false ops with
  | Ret sm => sm
  | Panic _ => mkStateMachine 0 []
  end.

Lemma after_inv ops : Z.of_nat (length ops) ≤ int_max → sm_inv (after ops).
Proof.
  intros Hl. destruct (@NewStateMachine_inv C false) as (sm0 & H0 & Hi & HR).
  destruct (run_ind (C:=C) (fun _ _ => True)) with (ops := ops) (sm := sm0)
    as (sm & Hrun & Hi' & _); try done; [unfold in_range; lia|].
  unfold after. rewrite H0. simpl. by rewrite Hrun.
Qed.

End demo.

End Demo.

Import Demo.

Lemma Apply_refines_round_rules_witness :
  sm_inv (after (to_reveal tt)) ∧
  ∃ b sm', Apply false (RevealOp bob 0 a_key) (after (to_reveal tt)) = Ret (b, sm') ∧ sm_inv sm'.
Proof.
  assert (sm_inv (after (to_reveal tt))) as Hi by (by apply after_inv).
  split; [exact Hi|].
  destruct (Apply_refines_round_rules (RevealOp bob 0 a_key) (after (to_reveal tt)) Hi)
    as (b & sm' & HA & Hi' & _); [by vm_compute|].
  exists b, sm'. exact (conj HA Hi').
Defined.

Lemma GuaranteedNoEffect_sound_witness :
  GuaranteedNoEffect false (StartOp bob 0 (Some tt)) (after (to_reveal tt)) = Ret true ∧
  ∃ sm', run false [RevealOp bob 0 a_key; AbortOp 0] (after (to_reveal tt)) = Ret sm' ∧
    Apply false (StartOp bob 0 (Some tt)) sm' = Ret (false, sm').
Proof.
  split; [by vm_compute|].
  apply GuaranteedNoEffect_sound; [by apply after_inv|by vm_compute|by vm_compute].
Defined.

Lemma MayPrecede_of_reachable_witness :
  ∃ sm', run false [RevealOp bob 0 a_key; RevealOp alice 0 a_key] (after (to_reveal tt)) = Ret sm' ∧
    MayPrecede true (after (to_reveal tt)) sm' = Ret true.
Proof. apply MayPrecede_of_reachable; [by apply after_inv|by vm_compute]. Defined.

Lemma finished_round_persists_witness :
  ∃ sm' ri, run false [AbortOp 1; JoinOp bob 2] (after (one_round tt)) = Ret sm' ∧
    Rounds (after (one_round tt)) !! slot 0 = Some ri ∧ finished (phase ri) ∧
    (Round sm' - 3 < 0 →
       GetRoundInfo sm' 0 = (RiAt (slot 0), None) ∧ Rounds sm' !! slot 0 = Some ri).
Proof.
  apply finished_round_persists; [by apply after_inv|by vm_compute|by vm_compute|by vm_compute].
Defined.

Lemma GetRoundInfo_error_iff_witness :
  (GetRoundInfo (after (one_round tt)) 5).2 = Some ErrFuture ↔ 1 < 5.
Proof. apply (GetRoundInfo_error_iff (after (one_round tt)) 5). by apply after_inv. Defined.
