(* ===== verification/Representation.v ===== *)
(** * Representation invariant and deep copies

    What the debug assertions of statemachine.go check ([ri_checkRep] is
    equivalent to [rep_ok]), for which operations they can never fire, and
    what [DeepCopy] returns: an equal machine while every round has one message
    per participant, and a panic once an operation has stored more messages
    than there are participants. *)

From Stdlib Require Import Strings.Byte.
From S2P Require Import Prelude Bytes Primes Crypto Op StateMachine RoundSpec StateMachineProps.

Local Open Scope Z_scope.

(** ** Loops with assertions *)

Lemma bind_tt_ret (m : outcome unit) (k : outcome unit) :
  (m ;; k) = Ret tt ↔ m = Ret tt ∧ k = Ret tt.
Proof. destruct m as [[]|]; simpl; split; (done || by intros []). Qed.

Lemma assertf_ret debug c : assertf debug c = Ret tt ↔ (debug = true → c = true).
Proof. unfold assertf. destruct debug, c; naive_solver. Qed.

Lemma for_each_imap_ret {A} (f : nat * A → outcome unit) (l : list A) :
  for_each f (imap pair l) = Ret tt ↔ ∀ i x, l !! i = Some x → f (i, x) = Ret tt.
Proof.
  rewrite for_each_ret, Forall_lookup. split.
  - intros Hf i x Hx. apply (Hf i). by rewrite list_lookup_imap, Hx.
  - intros Hf i y. rewrite list_lookup_imap. destruct (l !! i) as [x|] eqn:Hx; simpl; [|done].
    intros [= <-]. by apply Hf.
Qed.

(** A check that returns or fails an assertion, and does not panic otherwise. *)
Definition only_asserts (o : outcome unit) : Prop := o = Ret tt ∨ o = Panic AssertionError.

Lemma only_asserts_assertf debug c : only_asserts (assertf debug c).
Proof. unfold only_asserts, assertf. destruct debug, c; simpl; auto. Qed.

Lemma only_asserts_then (o k : outcome unit) :
  only_asserts o → (o = Ret tt → only_asserts k) → only_asserts (o ;; k).
Proof. intros [-> | ->] Hk; [by apply Hk|by right]. Qed.

Lemma only_asserts_imap {A} (f : nat * A → outcome unit) (l : list A) :
  (∀ i x, l !! i = Some x → only_asserts (f (i, x))) → only_asserts (for_each f (imap pair l)).
Proof.
  intros Hf. assert (Forall (fun y => only_asserts (f y)) (imap pair l)) as Ha.
  { apply Forall_lookup. intros i y. rewrite list_lookup_imap.
    destruct (l !! i) as [x|] eqn:Hx; [|done]. intros [= <-]. by apply Hf. }
  induction Ha as [|y ys Hy Hys IH]; simpl; [by left|]. by apply only_asserts_then.
Qed.

Section representation.
Context {C : Type}.
Implicit Types (sm : StateMachine C) (ri : RoundInfo C) (op : Op C).

(** ** The representation invariant *)

Record rep_ok ri : Prop := {
  rep_messages : length (Messages ri) = length (Participants ri);
  rep_encrypted : length (Encrypted ri) = length (Participants ri);
  rep_scrambled : length (Scrambled ri) = length (Participants ri);
  rep_decrypted : length (Decrypted ri) = length (Participants ri);
  rep_keys : length (RevealedKeys ri) = length (Participants ri);
  rep_hashes : length (RevealKeyHashes ri) = length (Participants ri);
  rep_crypto : phase ri = NoPhase ∨ phase ri = PreparePhase ∨ phase ri = FailedPhase ∨
    is_Some (Crypto ri);
  rep_no_crypto : phase ri = PreparePhase → Crypto ri = None;
  rep_in_order : ∀ i, Scrambled ri !! S i = Some true → Scrambled ri !! i = Some true;
  rep_distinct : NoDup (Participants ri);
  rep_committed : ∀ i m h, Messages ri !! i = Some m → RevealKeyHashes ri !! i = Some h →
    (Msg_Nil m = true ↔ h = [])
}.

Lemma scrambled_loop_ret (l : list bool) :
  for_each (fun '(i, s) => if bool_decide (0 < i)%nat && s then
      before ← l.[i - 1]; assertf true before else Ret tt) (imap pair l) = Ret tt ↔
  ∀ i, l !! S i = Some true → l !! i = Some true.
Proof.
  rewrite for_each_imap_ret. split.
  - intros Hf i Hi. specialize (Hf (S i) true Hi). simpl in Hf. rewrite Nat.sub_0_r in Hf.
    unfold slice_get in Hf. destruct (l !! i) as [[]|]; done.
  - intros Hl [|i] [] Hi; simpl; try done. rewrite Nat.sub_0_r. unfold slice_get.
    by rewrite (Hl _ Hi).
Qed.

Lemma distinct_loop_ret (l : list UUID) :
  for_each (fun '(i1, p1) => for_each (fun '(i2, p2) =>
      if bool_decide (p1 = p2) && bool_decide (i1 ≠ i2) then assertf true false else Ret tt)
      (imap pair l)) (imap pair l) = Ret tt ↔ NoDup l.
Proof.
  rewrite for_each_imap_ret, NoDup_alt. split.
  - intros Hf i j x Hi Hj. specialize (Hf _ _ Hi). cbn beta iota in Hf.
    rewrite for_each_imap_ret in Hf. specialize (Hf _ _ Hj). cbn beta iota in Hf.
    rewrite bool_decide_true in Hf by done. case_bool_decide as E; [done|].
    destruct (decide (i = j)); done.
  - intros Hn i x Hi. apply for_each_imap_ret. intros j y Hj.
    case_bool_decide as E; [subst y|done]. rewrite bool_decide_false; [done|].
    intros Hne. apply Hne. by eapply Hn.
Qed.

Lemma committed_loop_ret (ms : list Msg) (hs : list (list byte)) :
  length ms = length hs →
  for_each (fun '(i, m) =>
      hash ← hs.[i];
      if negb (Msg_Nil m) then assertf true (bool_decide (hash ≠ []))
      else assertf true (bool_decide (hash = []))) (imap pair ms) = Ret tt ↔
  ∀ i m h, ms !! i = Some m → hs !! i = Some h → (Msg_Nil m = true ↔ h = []).
Proof.
  intros Hl. rewrite for_each_imap_ret. split.
  - intros Hf i m h Hm Hh. specialize (Hf _ _ Hm). simpl in Hf. unfold slice_get in Hf.
    rewrite Hh in Hf. simpl in Hf. unfold assertf in Hf. destruct (Msg_Nil m), h; simpl in Hf; try done.
  - intros Hc i m Hm. destruct (lookup_lt_is_Some_2 hs i) as [h Hh].
    { rewrite <- Hl. by eapply lookup_lt_Some. }
    unfold slice_get. rewrite Hh. simpl. specialize (Hc _ _ _ Hm Hh).
    unfold assertf. destruct (Msg_Nil m), h; simpl; try done; exfalso; naive_solver.
Qed.

(** The assertions of [RoundInfo.checkRep] hold exactly on [rep_ok] rounds. *)
Lemma ri_checkRep_ret ri : ri_checkRep true ri = Ret tt ↔ rep_ok ri.
Proof.
  unfold ri_checkRep. simpl. rewrite !bind_tt_ret, !assertf_ret.
  rewrite scrambled_loop_ret, distinct_loop_ret.
  setoid_rewrite orb_true_iff. setoid_rewrite bool_decide_eq_true. split.
  - intros (H1 & H2 & H3 & H4 & H5 & H6 & H7 & H8 & H9 & H10 & H11).
    specialize (H1 eq_refl). specialize (H6 eq_refl).
    rewrite committed_loop_ret in H11 by congruence.
    specialize (H7 eq_refl). rewrite !orb_true_iff, !bool_decide_eq_true in H7.
    split; try (by symmetry; auto); try done; [tauto|]. intros Hp. by destruct (H8 eq_refl).
  - intros [H1 H2 H3 H4 H5 H6 H7 H8 H9 H10 H11].
    rewrite committed_loop_ret by congruence.
    split_and!; try done; intros _. 
    + rewrite !orb_true_iff, !bool_decide_eq_true. tauto.
    + destruct (decide (phase ri = PreparePhase)); [right; auto|by left].
Qed.

(** The checks index no slice out of range: the lengths are compared first. *)
Lemma ri_checkRep_asserts debug ri : only_asserts (ri_checkRep debug ri).
Proof.
  unfold ri_checkRep. destruct debug; [|by left]. simpl.
  do 8 (apply only_asserts_then; [apply only_asserts_assertf|let E := fresh "E" in intros E]).
  apply (fun H => proj1 (assertf_ret _ _) H eq_refl) in E, E4. bool_to_prop.
  apply only_asserts_then; [|intros _; apply only_asserts_then; [|intros _]]; apply only_asserts_imap.
  - intros [|i] [] Hi; simpl; try (by left). rewrite Nat.sub_0_r. unfold slice_get.
    destruct (lookup_lt_is_Some_2 (Scrambled ri) i) as [b ->]; [apply lookup_lt_Some in Hi; lia|].
    apply only_asserts_assertf.
  - intros i p _. apply only_asserts_imap. intros j q _. case_match; [apply only_asserts_assertf|by left].
  - intros i m Hm. unfold slice_get.
    destruct (lookup_lt_is_Some_2 (RevealKeyHashes ri) i) as [h ->]; [apply lookup_lt_Some in Hm; lia|].
    simpl. destruct (negb (Msg_Nil m)); apply only_asserts_assertf.
Qed.

(** ** Rounds driven by well-formed operations *)

(** What a client puts into an operation: a crypto, a non-nil message with its
    hash, and as many messages as there are participants. *)
Definition op_wf ri op : Prop :=
  match op with
  | StartOp _ _ c => is_Some c
  | MessageOp _ _ m h => Msg_Nil m = false ∧ h ≠ []
  | EncryptedOp _ _ ms _ | ScrambledOp _ _ ms | DecryptedOp _ _ ms _ =>
      length ms = length (Participants ri) ∧ Forall (fun m => Msg_Nil m = false) ms
  | JoinOp _ _ | RevealOp _ _ _ | AbortOp _ => True
  end.

Definition carrying (p : Phase) : Prop :=
  p = EncryptPhase ∨ p = ScramblePhase ∨ p = DecryptPhase ∨ p = RevealPhase.

Definition commits (m : Msg) (h : list byte) : Prop := Msg_Nil m = true ↔ h = [].

Record legal_ri ri : Prop := {
  leg_messages : length (Messages ri) = length (Participants ri);
  leg_crypto : phase ri = NoPhase ∨ phase ri = PreparePhase ∨ phase ri = FailedPhase ∨
    is_Some (Crypto ri);
  leg_committed : Forall2 commits (Messages ri) (RevealKeyHashes ri);
  leg_no_nil : carrying (phase ri) → Forall (fun m => Msg_Nil m = false) (Messages ri)
}.

Lemma flags_in_order k n i :
  (replicate k true ++ replicate n false) !! S i = Some true →
  (replicate k true ++ replicate n false) !! i = Some true.
Proof.
  intros [H|[_ H]]%lookup_app_Some; apply lookup_replicate in H as [H Hi]; [|done].
  apply lookup_app_Some. left. apply lookup_replicate. split; [done|lia].
Qed.

Lemma legal_rep_ok ri : ri_inv ri → legal_ri ri → rep_ok ri.
Proof.
  intros [I1 I2 I3 I4 I5 I6 I7 I8 I9] [L1 L2 L3 L4]. split; try done.
  - intros Hp. unfold phase_flags in I9. rewrite Hp in I9. tauto.
  - intros i. rewrite I8. apply flags_in_order.
  - intros i m h Hm Hh. by eapply Forall2_lookup_lr in L3.
Qed.

Lemma legal_zero : legal_ri zeroRoundInfo.
Proof. split; simpl; auto using Forall_nil, Forall2_nil. Qed.

Lemma legal_prepare : legal_ri (set_phase PreparePhase zeroRoundInfo).
Proof. split; simpl; auto using Forall_nil, Forall2_nil. Qed.

Lemma existsb_nil_false ms :
  existsb Msg_Nil ms = false → Forall (fun m => Msg_Nil m = false) ms.
Proof.
  induction ms as [|m ms IH]; simpl; [done|]. intros [??]%orb_false_iff. by constructor; auto.
Qed.

(** Replacing all messages by non-nil ones keeps every commitment. *)
Lemma replace_messages ms ms' hs :
  Forall2 commits ms hs → Forall (fun m => Msg_Nil m = false) ms →
  length ms' = length hs → Forall (fun m => Msg_Nil m = false) ms' → Forall2 commits ms' hs.
Proof.
  intros Hc. revert ms'. induction Hc as [|m h ms hs Hmh Hc IH]; intros [|m' ms'] Hn Hl Hn';
    simpl in *; try done.
  apply Forall_cons in Hn as [Hm Hn], Hn' as [Hm' Hn']. constructor; [|apply IH; [done|lia|done]].
  unfold commits in *. rewrite Hm' . rewrite Hm in Hmh. done.
Qed.

Lemma legal_advance next ri (b : bool) :
  legal_ri ri → is_Some (Crypto ri) →
  (b = true → carrying next → Forall (fun m => Msg_Nil m = false) (Messages ri)) →
  legal_ri (advance b next ri).
Proof.
  intros [L1 L2 L3 L4] Hc Hn. destruct b; simpl; [|by split]. split; simpl; auto.
Qed.

Lemma carrying_crypto ri : legal_ri ri → carrying (phase ri) → is_Some (Crypto ri).
Proof. intros [_ L _ _] Hp. unfold carrying in Hp. intuition congruence. Qed.

Lemma set_messages_legal ms ri :
  ri_inv ri → legal_ri ri → carrying (phase ri) →
  length ms = length (Participants ri) → Forall (fun m => Msg_Nil m = false) ms →
  legal_ri (set_Messages ms ri).
Proof.
  intros Hi [L1 L2 L3 L4] Hp Hl Hn. split; simpl; auto.
  eapply replace_messages; eauto. by rewrite (inv_hashes _ Hi).
Qed.

Lemma legal_flags ri ri' :
  legal_ri ri → Messages ri' = Messages ri → Participants ri' = Participants ri →
  Crypto ri' = Crypto ri → phase ri' = phase ri → RevealKeyHashes ri' = RevealKeyHashes ri →
  legal_ri ri'.
Proof. intros [L1 L2 L3 L4] E1 E2 E3 E4 E5. split; rewrite ?E1, ?E2, ?E3, ?E4, ?E5; done. Qed.

(** A step that replaces the messages and sets a flag. *)
Lemma legal_mark ms next (b : bool) ri ri' :
  ri_inv ri → legal_ri ri → carrying (phase ri) →
  length ms = length (Participants ri) → Forall (fun m => Msg_Nil m = false) ms →
  Messages ri' = ms → Participants ri' = Participants ri → Crypto ri' = Crypto ri →
  phase ri' = phase ri → RevealKeyHashes ri' = RevealKeyHashes ri →
  legal_ri (advance b next ri').
Proof.
  intros Hi Hl Hp Hlen Hn E1 E2 E3 E4 E5.
  apply legal_advance; [|rewrite E3; by apply carrying_crypto|by rewrite E1].
  by apply (legal_flags (set_Messages ms ri)); [apply set_messages_legal|..].
Qed.

Lemma round_step_legal ri op ri' fin :
  ri_inv ri → legal_ri ri → op_wf ri op → round_step ri op ri' fin → legal_ri ri'.
Proof.
  intros Hi Hl Hwf Hst.
  destruct Hst as [Id R Hp Hn|Id R c Hp|Id R m h p ri1 Hp Hx ->|Id R ms prev p ri1 Hp Hx Hv Hf ->
    |Id R ms p ri1 Hp Hx Hv Hf ->|Id R ms prev p ri1 Hp Hx Hv Hf ->|Id R k p ri1 Hp Hx ->|R];
    simpl in Hwf.
  - destruct Hl as [L1 L2 L3 L4]. split; simpl; rewrite ?length_app, ?L1; try done.
    + apply Forall2_app; [done|]. by repeat constructor.
    + rewrite Hp. unfold carrying. intuition discriminate.
  - destruct Hl as [L1 L2 L3 L4]. split; simpl; auto. unfold carrying. intuition discriminate.
  - destruct Hl as [L1 L2 L3 L4], Hwf as [Hm Hh].
    assert (is_Some (Crypto ri)) by (intuition congruence).
    apply legal_advance; [split; simpl|done|].
    + by rewrite length_insert.
    + auto.
    + apply Forall2_insert; [done|]. unfold commits. by rewrite Hm.
    + rewrite Hp. unfold carrying. intuition discriminate.
    + simpl. intros Hall _. apply existsb_nil_false. by apply negb_true_iff in Hall.
  - destruct Hwf. apply (legal_mark ms _ _ ri); try done. rewrite Hp. unfold carrying. auto.
  - destruct Hwf. apply (legal_mark ms _ _ ri); try done. rewrite Hp. unfold carrying. auto.
  - destruct Hwf. apply (legal_mark ms _ _ ri); try done. rewrite Hp. unfold carrying. auto.
  - apply legal_advance.
    + by apply (legal_flags ri).
    + apply (carrying_crypto ri); [done|]. rewrite Hp. unfold carrying. auto.
    + unfold carrying. intuition discriminate.
  - destruct Hl as [L1 L2 L3 L4]. split; simpl; auto. unfold carrying. intuition discriminate.
Qed.

(** ** Legal machines *)

Definition legal sm : Prop := Forall legal_ri (Rounds sm).

Lemma commit_legal sm ri fin : legal sm → legal_ri ri → legal (commit sm ri fin).
Proof.
  intros Hl Hri. destruct fin; simpl; unfold legal; simpl;
    repeat apply Forall_insert; auto using legal_prepare.
Qed.

Lemma slots_inv sm : sm_inv sm → Forall ri_inv (Rounds sm).
Proof.
  intros Hi. apply Forall_lookup. intros i ri Hr.
  assert (∃ q, Round sm - 3 < q ≤ Round sm ∧ slot q = i) as (q & Hq & <-).
  { assert (i < 3)%nat by (rewrite <- (inv_size _ Hi); by eapply lookup_lt_Some).
    exists (Round sm - (Round sm - Z.of_nat i) mod 3).
    pose proof (Z.mod_pos_bound (Round sm - Z.of_nat i) 3). split; [lia|].
    unfold slot. lia_div. }
  destruct (inv_slots _ Hi q Hq) as (ri' & Hr' & Hri & _). congruence.
Qed.

Lemma checkRep_ret sm :
  sm_inv sm → checkRep true sm = Ret tt ↔ Forall rep_ok (Rounds sm).
Proof.
  intros Hi. unfold checkRep. simpl. pose proof (inv_round _ Hi).
  rewrite (proj2 (Z.leb_le _ _)) by lia. rewrite assertf_true, bind_ret.
  pose proof (inv_size _ Hi) as Hs. destruct (Rounds sm) as [|r0 [|r1 [|r2 [|]]]]; try done.
  simpl. rewrite !Forall_cons, !bind_tt_ret, !ri_checkRep_ret. split; [|tauto].
  intros (?&?&?&_). split_and!; auto.
Qed.

Lemma legal_checkRep debug sm : sm_inv sm → legal sm → checkRep debug sm = Ret tt.
Proof.
  intros Hi Hl. destruct debug; [|done]. apply checkRep_ret; [done|].
  pose proof (slots_inv _ Hi) as Hs. unfold legal in Hl.
  apply Forall_lookup. intros i ri Hr. rewrite Forall_lookup in Hs, Hl.
  eapply legal_rep_ok; eauto.
Qed.

Lemma checkRep_asserts debug sm : sm_inv sm → only_asserts (checkRep debug sm).
Proof.
  intros Hi. unfold checkRep. destruct debug; [|by left]. simpl.
  apply only_asserts_then; [apply only_asserts_assertf|intros _]. pose proof (inv_size _ Hi) as Hs.
  destruct (Rounds sm) as [|r0 [|r1 [|r2 [|]]]]; try done. simpl.
  do 3 (apply only_asserts_then; [apply ri_checkRep_asserts|intros _]). by left.
Qed.

(** With assertions enabled, any operation does the same or fails one of them. *)
Lemma Apply_asserts debug op sm :
  sm_inv sm → Round sm < int_max →
  Apply debug op sm = Apply false op sm ∨ Apply debug op sm = Panic AssertionError.
Proof.
  intros Hi Hlt. destruct (current_inv _ Hi) as (ri & Hc & Hri & Ha).
  assert (0 ≤ Round sm < int_max) as Hr by (split; [apply Hi|done]).
  destruct (Apply_cases op sm Hi Hlt) as
    [(ri1 & ri' & fin & HR & Hc1 & Hst & E)|[Hno E]]; rewrite E; unfold Apply;
    (destruct (checkRep_asserts debug sm Hi) as [-> | ->]; [rewrite bind_ret|by right]).
  - rewrite bool_decide_false by (intros Hne; by apply Hne). simplify_eq.
    destruct (dispatch_refines debug sm ri Hr (inv_size _ Hi) Hc Hri op) as [(ri2 & fin2 & Hst2 & ->)|[Hno _]];
      [|by edestruct Hno; eauto].
    destruct (round_step_det _ _ _ _ _ _ (inv_distinct _ Hri) Hst Hst2) as [<- <-]. simpl.
    destruct (checkRep_asserts debug (commit sm ri' fin) (commit_inv _ _ _ _ _ Hi Hlt Hc Hst)) as [-> | ->]; auto.
  - assert ((if bool_decide (op_Round op ≠ Round sm) then Ret (false, sm) else dispatch debug op sm)
      = Ret (false, sm)) as ->.
    { case_bool_decide as HR; [done|]. assert (op_Round op = Round sm) as HR' by lia.
      destruct (dispatch_refines debug sm ri Hr (inv_size _ Hi) Hc Hri op) as [(ri2 & fin2 & Hst2 & _)|[_ ->]]; [|done].
      by destruct (Hno ri ri2 fin2). }
    simpl. destruct (checkRep_asserts debug sm Hi) as [-> | ->]; auto.
Qed.

Lemma run_asserts ops : ∀ sm, sm_inv sm → in_range sm ops →
  run true ops sm = run false ops sm ∨ run true ops sm = Panic AssertionError.
Proof.
  induction ops as [|op ops IH]; intros sm Hi Hr; [by left|]. unfold in_range in Hr. simpl length in Hr.
  cbn [run]. destruct (Apply_asserts true op sm Hi ltac:(lia)) as [-> | ->]; [|by right].
  destruct (Apply false op sm) as [[b sm']|r] eqn:E; [|by left]. cbn [mbind outcome_bind].
  destruct (Apply_inv _ _ _ _ Hi ltac:(lia) E) as [Hi' Hle]. apply IH; [done|unfold in_range; lia].
Qed.

(** With assertions enabled, a well-formed operation does exactly the same. *)
Lemma Apply_legal debug op sm :
  sm_inv sm → Round sm < int_max → legal sm →
  (∀ ri, op_Round op = Round sm → current sm = Some ri → op_wf ri op) →
  ∃ b sm', Apply debug op sm = Ret (b, sm') ∧ Apply false op sm = Ret (b, sm') ∧ legal sm'.
Proof.
  intros Hi Hlt Hl Hwf. destruct (current_inv _ Hi) as (ri & Hc & Hri & Ha).
  assert (0 ≤ Round sm < int_max) as Hr by (split; [apply Hi|done]).
  rewrite Apply_nodebug. unfold Apply. rewrite (legal_checkRep debug _ Hi Hl), bind_ret.
  case_bool_decide as HR.
  { exists false, sm. simpl. by rewrite (legal_checkRep debug _ Hi Hl). }
  destruct (dispatch_refines debug sm ri Hr (inv_size _ Hi) Hc Hri op) as [(ri' & fin & Hst & ->)|[Hno ->]];
    destruct (dispatch_refines false sm ri Hr (inv_size _ Hi) Hc Hri op) as [(ri2 & fin2 & Hst2 & ->)|[Hno2 ->]];
    try naive_solver.
  - destruct (round_step_det _ _ _ _ _ _ (inv_distinct _ Hri) Hst Hst2) as [<- <-].
    assert (legal (commit sm ri' fin)) as Hl'.
    { apply commit_legal; [done|]. eapply round_step_legal; [done| |apply Hwf; [lia|done]|done].
      unfold legal in Hl. rewrite Forall_lookup in Hl. by eapply Hl. }
    eexists _, _. split_and!; [|done|done]. simpl.
    rewrite legal_checkRep; [done|by eapply commit_inv|done].
  - exists false, sm. simpl. by rewrite (legal_checkRep debug _ Hi Hl).
Qed.

(** A log all of whose operations are well-formed where they are applied. *)
Fixpoint legal_log (ops : list (Op C)) sm : Prop :=
  match ops with
  | [] => True
  | op :: ops' =>
      (∀ ri, op_Round op = Round sm → current sm = Some ri → op_wf ri op) ∧
      (∀ b sm', Apply false op sm = Ret (b, sm') → legal_log ops' sm')
  end.

Lemma run_legal debug ops sm :
  sm_inv sm → legal sm → in_range sm ops → legal_log ops sm →
  ∃ sm', run debug ops sm = Ret sm' ∧ run false ops sm = Ret sm' ∧ sm_inv sm' ∧ legal sm'.
Proof.
  revert sm. induction ops as [|op ops IH]; simpl; intros sm Hi Hl Hr Hlog; [eauto 10|].
  destruct Hlog as [Hwf Hlog]. unfold in_range in Hr. simpl in Hr.
  destruct (Apply_legal debug op sm Hi ltac:(lia) Hl Hwf) as (b & sm' & E1 & E2 & Hl').
  rewrite E1, E2. simpl. destruct (Apply_inv _ _ _ _ Hi ltac:(lia) E2) as [Hi' Hle].
  apply IH; try done; [unfold in_range; lia|by eapply Hlog].
Qed.

End representation.

(** ** Deep copies *)

Lemma copy_each_spec {A} (f : A → A) (Hf : ∀ x, f x = x) xs : ∀ pre dst,
  copy_each f (length pre) xs (pre ++ dst) =
  if decide (length xs ≤ length dst)%nat then Ret (pre ++ xs ++ drop (length xs) dst)
  else Panic IndexOutOfRange.
Proof.
  induction xs as [|x xs IH]; intros pre dst; [done|]. simpl. destruct dst as [|y dst].
  - unfold slice_set. rewrite decide_False by (rewrite length_app; simpl; lia). done.
  - rewrite slice_set_ret by (rewrite length_app; simpl; lia). simpl.
    rewrite insert_app_r_alt, Nat.sub_diag by lia. simpl. rewrite Hf.
    specialize (IH (pre ++ [x]) dst). rewrite length_app, Nat.add_1_r, <- !app_assoc in IH.
    simpl in IH. rewrite IH. repeat case_decide; (done || lia).
Qed.

Lemma copy_each_all {A} (f : A → A) (Hf : ∀ x, f x = x) xs z n :
  copy_each f 0 xs (replicate n z) =
  if decide (length xs ≤ n)%nat then Ret (xs ++ replicate (n - length xs) z)
  else Panic IndexOutOfRange.
Proof.
  pose proof (copy_each_spec f Hf xs [] (replicate n z)) as Hc. simpl in Hc. rewrite Hc.
  by rewrite length_replicate, drop_replicate.
Qed.

Lemma map_outcome_ret {A B} (f : A → outcome B) (g : A → B) l :
  Forall (fun x => f x = Ret (g x)) l → map_outcome f l = Ret (map g l).
Proof. induction 1 as [|x l Hx Hl IH]; simpl; [done|]. by rewrite Hx, IH. Qed.

Lemma map_outcome_panic {A B} (f : A → outcome B) r l x :
  (∀ y, y ∈ l → (∃ z, f y = Ret z) ∨ f y = Panic r) → x ∈ l → f x = Panic r →
  map_outcome f l = Panic r.
Proof.
  intros Hf. induction l as [|y l IH]; intros Hx Hp; [by apply elem_of_nil in Hx|].
  simpl. destruct (Hf y) as [[z E]|E]; [left| |by rewrite E].
  apply elem_of_cons in Hx as [->|Hx]; [congruence|]. rewrite E. simpl.
  rewrite IH; try done. intros y' Hy'. apply Hf. by right.
Qed.

Lemma map_outcome_lookup {A B} (f : A → outcome B) l ys i x :
  map_outcome f l = Ret ys → l !! i = Some x → ∃ y, f x = Ret y ∧ ys !! i = Some y.
Proof.
  revert ys i. induction l as [|x' l IH]; intros ys i Hm Hi; [done|]. simpl in Hm.
  apply bind_ret_inv in Hm as (y & Hy & (ys' & Hys & [= <-])%bind_ret_inv).
  destruct i as [|i]; simplify_eq/=; [eauto|]. by eapply IH.
Qed.

Lemma checkRep_zero {C} debug r :
  0 ≤ r → checkRep (C := C) debug (mkStateMachine r (replicate 3 zeroRoundInfo)) = Ret tt.
Proof.
  intros Hr. unfold checkRep. destruct debug; simpl; [|done].
  by rewrite (proj2 (Z.leb_le _ _)) by done.
Qed.

Section deepcopy.
Context {C : Type} `{CommutativeCryptoLaws C}.
Implicit Types (sm : StateMachine C) (ri : RoundInfo C) (op : Op C).

(** The copy of a round: the messages are padded with nil messages up to the
    number of participants. *)
Definition padded ri : RoundInfo C :=
  set_Messages (Messages ri ++
    replicate (length (Participants ri) - length (Messages ri)) NilMsg) ri.

Lemma padded_id ri : length (Messages ri) = length (Participants ri) → padded ri = ri.
Proof.
  intros Hl. unfold padded. rewrite Hl, Nat.sub_diag. simpl. rewrite app_nil_r. by destruct ri.
Qed.

Lemma ri_DeepCopy_spec ri :
  ri_inv ri →
  ri_DeepCopy ri =
  if decide (length (Messages ri) ≤ length (Participants ri))%nat then Ret (padded ri)
  else Panic IndexOutOfRange.
Proof.
  intros [I1 I2 I3 I4 I5 _ _ _ _]. unfold ri_DeepCopy.
  assert (∀ (c : option C) ri0, match c with
    | Some c => set_Crypto (Some (DeepCopyCrypto c)) ri0 | None => ri0 end
    = match c with Some c => set_Crypto (Some c) ri0 | None => ri0 end) as Hc.
  { intros [c|] ?; [by rewrite DeepCopyCrypto_id|done]. }
  rewrite Hc. clear Hc. set (n := length (Participants ri)) in *.
  destruct ri as [p [c|] ps ms en sc de ks hs]; simpl in *;
    rewrite (copy_each_all _ Msg_DeepCopy_id); (case_decide; [|done]); rewrite bind_ret;
    rewrite (copy_each_all _ PrivateKey_DeepCopy_id), decide_True, bind_ret by lia;
    rewrite (copy_each_all _ copy_of_bytes), decide_True, bind_ret by lia;
    rewrite !go_copy_same, I4, I5, Nat.sub_diag by (rewrite length_replicate; lia);
    simpl; rewrite !app_nil_r; done.
Qed.

(** All rounds have one message per participant. *)
Definition sized sm : Prop :=
  Forall (fun ri => length (Messages ri) = length (Participants ri)) (Rounds sm).

Lemma legal_sized sm : legal sm → sized sm.
Proof. unfold legal, sized. intros Hl. eapply Forall_impl; [exact Hl|]. by intros ri []. Qed.

Lemma DeepCopy_sized sm : sm_inv sm → sized sm → DeepCopy false sm = Ret sm.
Proof.
  intros Hi Hs. unfold DeepCopy. simpl. rewrite (map_outcome_ret _ id).
  - simpl. rewrite map_id. by destruct sm.
  - pose proof (slots_inv _ Hi) as Hr. unfold sized in Hs.
    rewrite Forall_lookup in *. intros i ri Hl. specialize (Hs _ _ Hl). specialize (Hr _ _ Hl).
    rewrite ri_DeepCopy_spec by done. rewrite decide_True by lia. by rewrite padded_id.
Qed.

Lemma DeepCopy_oversized sm ri :
  sm_inv sm → ri ∈ Rounds sm → (length (Participants ri) < length (Messages ri))%nat →
  DeepCopy false sm = Panic IndexOutOfRange.
Proof.
  intros Hi Hin Hl. unfold DeepCopy. simpl.
  rewrite (map_outcome_panic _ IndexOutOfRange _ ri); [done| |done|].
  - intros y Hy. pose proof (slots_inv _ Hi) as Hr. rewrite Forall_forall in Hr.
    rewrite ri_DeepCopy_spec by by apply Hr. case_decide; eauto.
  - pose proof (slots_inv _ Hi) as Hr. rewrite Forall_forall in Hr.
    rewrite ri_DeepCopy_spec by by apply Hr. rewrite decide_False by lia. done.
Qed.

Lemma DeepCopy_legal debug sm : sm_inv sm → legal sm → DeepCopy debug sm = Ret sm.
Proof.
  intros Hi Hl. pose proof (DeepCopy_sized sm Hi (legal_sized _ Hl)) as HD.
  unfold DeepCopy in *. simpl in HD. apply bind_ret_inv in HD as (rs & Hrs & [= E]).
  rewrite (legal_checkRep debug sm Hi Hl), bind_ret.
  rewrite (checkRep_zero debug) by apply Hi. rewrite bind_ret, Hrs, bind_ret, E.
  by rewrite (legal_checkRep debug sm Hi Hl).
Qed.

(** ** Properties *)

(** C15: on logs of well-formed operations the debug assertions never fire:
    starting from [NewStateMachine] the machine behaves the same with and
    without assertions, and its deep copy is always equal to it. *)
Theorem legal_log_never_trips_assertions debug (ops : list (Op C)) :
  Z.of_nat (length ops) ≤ int_max →
  (∀ sm0, NewStateMachine debug = Ret sm0 → legal_log ops sm0) →
  ∃ sm0 sm, NewStateMachine debug = Ret sm0 ∧ run debug ops sm0 = Ret sm ∧
    run false ops sm0 = Ret sm ∧ checkRep true sm = Ret tt ∧ DeepCopy debug sm = Ret sm.
Proof.
  intros Hl Hlog. destruct (@NewStateMachine_inv C debug) as (sm0 & HN & Hi & HR).
  assert (legal sm0) as Hleg.
  { destruct debug; vm_compute in HN; injection HN as <-;
      repeat constructor; (done || by intuition). }
  destruct (run_legal debug ops sm0 Hi Hleg) as (sm & E1 & E2 & Hi' & Hleg').
  { unfold in_range. lia. } { by apply Hlog. }
  exists sm0, sm. split_and!; try done; [by apply legal_checkRep|].
  by apply DeepCopy_legal.
Qed.

(** C24: no log crashes the machine.  Starting from [NewStateMachine], any
    sequence of operations shorter than 2^63 - 1, well-formed or not, is applied
    without a panic when assertions are disabled, keeps the invariant, and
    advances the round counter at most once per operation, so that the counter
    never overflows.  When assertions are enabled, the machine ends in the same
    state, or an assertion of [checkRep] fails; no index is out of range. *)
Theorem run_from_start_never_panics (ops : list (Op C)) :
  Z.of_nat (length ops) ≤ int_max →
  ∃ sm0 sm, (∀ debug, NewStateMachine debug = Ret sm0) ∧ run false ops sm0 = Ret sm ∧ sm_inv sm ∧
    0 ≤ Round sm ≤ Z.of_nat (length ops) ∧
    (run true ops sm0 = Ret sm ∨ run true ops sm0 = Panic AssertionError).
Proof.
  intros Hl. destruct (@NewStateMachine_inv C false) as (sm0 & HN & Hi & HR).
  assert (in_range sm0 ops) as Hr by (unfold in_range; lia).
  destruct (run_ind (C:=C) (fun _ _ => True)) with (ops := ops) (sm := sm0)
    as (sm & Hrun & Hi' & Hle & _); try done.
  exists sm0, sm. split_and!; try done; [by intros []|apply Hi'|lia|].
  rewrite <- Hrun. by apply run_asserts.
Qed.

(** [DeepCopy] returns an equal machine exactly when every persisted round
    has one message per participant. *)
Theorem DeepCopy_equal_iff_sized sm :
  sm_inv sm → (DeepCopy false sm = Ret sm ↔ sized sm).
Proof.
  intros Hi. split; [|by apply DeepCopy_sized]. intros HD. apply Forall_forall. intros ri Hin.
  destruct (decide (length (Participants ri) < length (Messages ri))%nat) as [Hlt|Hge].
  { by rewrite (DeepCopy_oversized sm ri Hi Hin Hlt) in HD. }
  unfold DeepCopy in HD. simpl in HD.
  apply bind_ret_inv in HD as (rs & Hrs & [= E]).
  pose proof (slots_inv _ Hi) as Hr. rewrite Forall_forall in Hr.
  apply list_elem_of_lookup in Hin as [i Hl].
  destruct (map_outcome_lookup _ _ _ _ _ Hrs Hl) as (ri' & Hc & Hl').
  rewrite ri_DeepCopy_spec in Hc by (apply Hr; by eapply list_elem_of_lookup_2).
  rewrite decide_True in Hc by lia. injection Hc as <-.
  assert (padded ri = ri) as Hp. { destruct sm. simpl in *. congruence. }
  apply (f_equal (fun r => length (Messages r))) in Hp. simpl in Hp.
  rewrite length_app, length_replicate in Hp. lia.
Qed.

(** C32: an oversized operation crashes the server.  In the encrypt phase an
    [EncryptedOp] of a participant whose turn it is, carrying more messages
    than there are participants, is accepted by [Apply], and the [DeepCopy]
    with which the server announces the new state panics with an index out of
    range. *)
Theorem oversized_operation_breaks_DeepCopy sm ri Id ms p :
  sm_inv sm → Round sm < int_max → current sm = Some ri → phase ri = EncryptPhase →
  Participants ri !! p = Some Id → Encrypted ri !! p = Some false →
  (length (Participants ri) < length ms)%nat →
  ∃ sm', Apply false (EncryptedOp Id (Round sm) ms (Z.of_nat (numEncrypted ri))) sm = Ret (true, sm') ∧
    DeepCopy false sm' = Panic IndexOutOfRange.
Proof.
  intros Hi Hlt Hc Hp Hx Hf Hl.
  destruct (Apply_cases (EncryptedOp Id (Round sm) ms (Z.of_nat (numEncrypted ri))) sm Hi Hlt)
    as [(ri0 & ri' & fin & _ & Hc' & Hst & E)|[Hno _]].
  - eexists. split; [exact E|]. assert (ri0 = ri) as -> by congruence.
    assert (Messages ri' = ms ∧ Participants ri' = Participants ri ∧ fin = false) as (Em & Ep & ->).
    { inversion Hst; subst. by destruct (advance_cases (all_encrypted (mark_encrypted p0 ms ri))
        ScramblePhase (mark_encrypted p0 ms ri)) as [[_ ->]|[_ ->]]. }
    apply (DeepCopy_oversized _ ri'); [by eapply commit_inv| |by rewrite Em, Ep].
    eapply list_elem_of_lookup_2. apply list_lookup_insert_eq.
    rewrite (inv_size _ Hi). apply slot_lt.
  - exfalso. eapply (Hno ri); [done..|]. by eapply step_encrypted.
Qed.

End deepcopy.

(** ** Witnesses *)

Module RepDemo.
Import Demo.

#[local] Instance trial : BigProbablyPrime := fun p _ => Primes.trial_prime p.

Definition mo23 : masseyOmuraCrypto := mkMasseyOmuraCrypto [Byte.x17].

(** A legal log is recognised by evaluation. *)
Ltac legal_step :=
  split; [intros ri _ Hri; vm_compute in Hri; injection Hri as <-;
          first [exact I | by eexists | by split | by split; [|repeat constructor]]
         |let b := fresh in let sm' := fresh in let E := fresh in
          intros b sm' E; vm_compute in E; injection E as <- <-].

Lemma one_round_legal sm0 : NewStateMachine true = Ret sm0 → legal_log (one_round mo23) sm0.
Proof.
  intros E. vm_compute in E. injection E as <-.
  do 13 legal_step. exact I.
Qed.

Lemma legal_log_never_trips_assertions_witness :
  ∃ sm0 sm, NewStateMachine true = Ret sm0 ∧ run true (one_round mo23) sm0 = Ret sm ∧
    run false (one_round mo23) sm0 = Ret sm ∧ checkRep true sm = Ret tt ∧ DeepCopy true sm = Ret sm.
Proof.
  apply (legal_log_never_trips_assertions true (one_round mo23));
    [vm_compute; congruence | apply one_round_legal].
Defined.

Lemma DeepCopy_equal_iff_sized_witness :
  DeepCopy false (after (one_round mo23)) = Ret (after (one_round mo23)) ↔
  sized (after (one_round mo23)).
Proof. apply DeepCopy_equal_iff_sized. by apply after_inv. Defined.

Definition encrypting : RoundInfo masseyOmuraCrypto :=
  default zeroRoundInfo (current (after (to_encrypt mo23))).

Lemma oversized_operation_breaks_DeepCopy_witness :
  ∃ sm', Apply false (EncryptedOp alice 0 [a_msg; a_msg; a_msg] 0) (after (to_encrypt mo23))
      = Ret (true, sm') ∧ DeepCopy false sm' = Panic IndexOutOfRange.
Proof.
  apply (oversized_operation_breaks_DeepCopy (after (to_encrypt mo23)) encrypting alice
    [a_msg; a_msg; a_msg] 0%nat); 
    [by apply after_inv|by vm_compute..|vm_compute; lia].
Defined.

Lemma run_from_start_never_panics_witness :
  ∃ sm0 sm, (∀ debug, NewStateMachine (C := masseyOmuraCrypto) debug = Ret sm0) ∧
    run false (StartOp alice 0 None :: one_round mo23) sm0 = Ret sm ∧ sm_inv sm ∧ 0 ≤ Round sm ≤ 14 ∧
    (run true (StartOp alice 0 None :: one_round mo23) sm0 = Ret sm ∨
     run true (StartOp alice 0 None :: one_round mo23) sm0 = Panic AssertionError).
Proof. apply (run_from_start_never_panics (StartOp alice 0 None :: one_round mo23)). by vm_compute. Defined.

End RepDemo.
