(* ===== verification/EliminationQueue.v ===== *)
(** * The elimination queue

    Model of src/anonbcast/eliminationqueue.go: the one-place queue of pending
    operations between the goroutines that create operations and the goroutine
    that submits them to the leader.  Every method runs under the queue's
    mutex, so a method is one atomic step; [add] also reports whether it
    signals the condition variable on which [get] waits.

    [compare] is shown to be a total preorder (the lexicographic order of
    [op_key]); the queue refines the abstract specification "the newest
    operation added so far, unless it is finished". *)

From S2P Require Import Prelude Bytes Crypto Op.

Local Open Scope Z_scope.

Section queue.
Context {C : Type}.
Implicit Types (op a b : Op C).

(** ** Comparing operations *)

Inductive opComparison : Set := opNewer | opOlder | opEqual | opIncomparable.

#[export] Instance opComparison_eq_dec : EqDecision opComparison.
Proof. solve_decision. Defined.

Definition opIndex op : Z :=
  match op_Type op with
  | JoinOpType => 0
  | StartOpType => 1
  | MessageOpType => 2
  | EncryptedOpType => 3
  | ScrambledOpType => 4
  | DecryptedOpType => 5
  | RevealOpType => 6
  | AbortOpType => 7
  end.

(** The two equal branches of the type switch: [None] falls out of it. *)
Definition comparePrev (aPrev bPrev : Z) : option opComparison :=
  if aPrev <? bPrev then Some opOlder
  else if bPrev <? aPrev then Some opNewer
  else None.

Definition compare (debug : bool) a b : outcome opComparison :=
  if op_Round a <? op_Round b then Ret opOlder
  else if op_Round b <? op_Round a then Ret opNewer
  else
    let aIndex := opIndex a in
    let bIndex := opIndex b in
    if aIndex <? bIndex then Ret opOlder
    else if bIndex <? aIndex then Ret opNewer
    else
      inner ← match a with
              | EncryptedOp _ _ _ aPrev =>
                  match b with
                  | EncryptedOp _ _ _ bPrev => Ret (comparePrev aPrev bPrev)
                  | _ => Panic BadTypeAssertion
                  end
              | DecryptedOp _ _ _ aPrev =>
                  match b with
                  | DecryptedOp _ _ _ bPrev => Ret (comparePrev aPrev bPrev)
                  | _ => Panic BadTypeAssertion
                  end
              | _ => Ret None
              end;
      match inner with
      | Some c => Ret c
      | None =>
          if bool_decide (op_Type a = op_Type b) then Ret opEqual
          else assertf debug false ;; Ret opIncomparable
      end.

(** ** The queue *)

Record eliminationQueue := mkQueue { ops : list (Op C); lastFinished : Op C }.

Definition queue_checkRep (debug : bool) (p : eliminationQueue) : outcome unit :=
  if negb debug then Ret tt else assertf debug (bool_decide (length (ops p) ≤ 1)%nat).

Definition newEliminationQueue : eliminationQueue := mkQueue [] (AbortOp (-1)).

(** The result says whether the condition variable was signalled. *)
Definition add (debug : bool) op (p : eliminationQueue) : outcome (bool * eliminationQueue) :=
  queue_checkRep debug p ;;
  '(signalled, p') ←
    (c ← compare debug op (lastFinished p);
     if bool_decide (c ≠ opNewer) then Ret (false, p)
     else if bool_decide (length (ops p) ≠ 0%nat) then
       head ← (ops p).[0];
       c ← compare debug head op;
       match c with
       | opNewer | opEqual => Ret (false, p)
       | opOlder | opIncomparable =>
           ops' ← (ops p).[0 <- op]; Ret (true, mkQueue ops' (lastFinished p))
       end
     else Ret (true, mkQueue (ops p ++ [op]) (lastFinished p)));
  queue_checkRep debug p' ;;
  Ret (signalled, p').

(** [None] while the goroutine waits on the condition variable. *)
Definition get_op (debug : bool) (p : eliminationQueue) : outcome (option (Op C)) :=
  queue_checkRep debug p ;;
  if bool_decide (length (ops p) = 0%nat) then Ret None
  else
    head ← (ops p).[0];
    queue_checkRep debug p ;;
    Ret (Some head).

Definition finish (debug : bool) op (p : eliminationQueue) : outcome eliminationQueue :=
  queue_checkRep debug p ;;
  p ← (if bool_decide (0 < length (ops p))%nat then
         head ← (ops p).[0];
         c ← compare debug head op;
         if bool_decide (c = opEqual) then Ret (mkQueue [] (lastFinished p)) else Ret p
       else Ret p);
  c ← compare debug (lastFinished p) op;
  let p := if bool_decide (c = opOlder) then mkQueue (ops p) op else p in
  queue_checkRep debug p ;;
  Ret p.

(** ** The order *)

(** What [compare] looks at: round, kind, and [Prev] for the two kinds of
    operation that carry it. *)
Definition op_prev op : Z :=
  match op with
  | EncryptedOp _ _ _ p | DecryptedOp _ _ _ p => p
  | _ => 0
  end.

Definition older a b : Prop :=
  op_Round a < op_Round b ∨
  op_Round a = op_Round b ∧ (opIndex a < opIndex b ∨
    opIndex a = opIndex b ∧ op_prev a < op_prev b).

Definition same_age a b : Prop :=
  op_Round a = op_Round b ∧ opIndex a = opIndex b ∧ op_prev a = op_prev b.

Lemma opIndex_inj a b : opIndex a = opIndex b → op_Type a = op_Type b.
Proof. by destruct a, b. Qed.

Lemma comparePrev_cases x y :
  x < y ∧ comparePrev x y = Some opOlder ∨ y < x ∧ comparePrev x y = Some opNewer ∨
  x = y ∧ comparePrev x y = None.
Proof.
  unfold comparePrev. destruct (x <? y) eqn:E1; bool_to_prop; [auto|].
  destruct (y <? x) eqn:E2; bool_to_prop; [auto|]. right. right. split; [lia|done].
Qed.

(** [compare] never panics and never answers [opIncomparable]. *)
Lemma compare_cases debug a b :
  older a b ∧ compare debug a b = Ret opOlder ∨
  older b a ∧ compare debug a b = Ret opNewer ∨
  same_age a b ∧ compare debug a b = Ret opEqual.
Proof.
  unfold compare, older, same_age.
  destruct (op_Round a <? op_Round b) eqn:E1; bool_to_prop; [left; split; [lia|done]|].
  destruct (op_Round b <? op_Round a) eqn:E2; bool_to_prop; [right; left; split; [lia|done]|].
  destruct (opIndex a <? opIndex b) eqn:E3; bool_to_prop; [left; split; [lia|done]|].
  destruct (opIndex b <? opIndex a) eqn:E4; bool_to_prop; [right; left; split; [lia|done]|].
  assert (opIndex a = opIndex b) as Hi by lia. pose proof (opIndex_inj _ _ Hi) as Ht.
  rewrite (bool_decide_true _ Ht).
  destruct a as [| | |? ? ? x| |? ? ? x| |], b as [| | |? ? ? y| |? ? ? y| |]; try done; simpl in *;
    try (right; right; split; [lia|done]);
    destruct (comparePrev_cases x y) as [[? ->]|[[? ->]|[? ->]]]; simpl; intuition lia.
Qed.

(** [a] is no newer than [b]. *)
Definition upto a b : Prop := older a b ∨ same_age a b.

Ltac age := unfold upto, older, same_age in *; lia.

Lemma older_irrefl a : ¬ older a a.
Proof. age. Qed.
Lemma older_trans a b c : older a b → older b c → older a c.
Proof. age. Qed.
Lemma upto_refl a : upto a a.
Proof. age. Qed.
Lemma upto_trans a b c : upto a b → upto b c → upto a c.
Proof. age. Qed.
Lemma upto_older a b c : upto a b → older b c → older a c.
Proof. age. Qed.
Lemma older_upto a b c : older a b → upto b c → older a c.
Proof. age. Qed.
Lemma same_age_sym a b : same_age a b → same_age b a.
Proof. age. Qed.

(** ** The methods on a queue with at most one element *)

(** The contents of the queue. *)
Definition pending (p : eliminationQueue) : option (Op C) := head (ops p).

Definition one_place (p : eliminationQueue) : Prop := (length (ops p) ≤ 1)%nat.

Ltac one := unfold one_place; simpl; lia.

Lemma queue_checkRep_ok debug p : one_place p → queue_checkRep debug p = Ret tt.
Proof.
  intros Hp. unfold queue_checkRep. destruct debug; simpl; [|done].
  by rewrite bool_decide_true.
Qed.

Lemma one_place_cases p :
  one_place p → (∃ l, p = mkQueue [] l) ∨ ∃ h l, p = mkQueue [h] l.
Proof. destruct p as [[|h [|? ?]] l]; unfold one_place; simpl; intros; eauto; lia. Qed.

Lemma add_cases debug op p :
  one_place p →
  older (lastFinished p) op ∧ (∀ h, pending p = Some h → older h op) ∧
    add debug op p = Ret (true, mkQueue [op] (lastFinished p)) ∨
  (upto op (lastFinished p) ∨ ∃ h, pending p = Some h ∧ upto op h) ∧
    add debug op p = Ret (false, p).
Proof.
  intros Hp. unfold add. rewrite (queue_checkRep_ok _ _ Hp). simpl.
  destruct (compare_cases debug op (lastFinished p)) as [[Hl ->]|[[Hl ->]|[Hl ->]]]; simpl;
    try (right; rewrite (queue_checkRep_ok _ _ Hp); split; [age|done]).
  destruct (one_place_cases p Hp) as [[l ->]|(h & l & ->)]; simpl in *.
  - left. split_and!; try done. by rewrite queue_checkRep_ok by one.
  - destruct (compare_cases debug h op) as [[Hh ->]|[[Hh ->]|[Hh ->]]]; simpl;
      rewrite queue_checkRep_ok by one; simpl.
    + left. split_and!; try done. by intros ? [= <-].
    + right. split; [|done]. right. exists h. split; [done|age].
    + right. split; [|done]. right. exists h. split; [done|age].
Qed.

Lemma get_op_eq debug p : one_place p → get_op debug p = Ret (pending p).
Proof.
  intros Hp. unfold get_op. rewrite (queue_checkRep_ok _ _ Hp).
  destruct (one_place_cases p Hp) as [[l ->]|(h & l & ->)]; done.
Qed.

Lemma finish_cases debug op p :
  one_place p →
  ∃ p', finish debug op p = Ret p' ∧ one_place p' ∧
    (lastFinished p' = lastFinished p ∧ upto op (lastFinished p) ∨
     lastFinished p' = op ∧ older (lastFinished p) op) ∧
    (pending p' = None ∧ (∀ h, pending p = Some h → same_age h op) ∨
     pending p' = pending p ∧ ∃ h, pending p = Some h ∧ ¬ same_age h op).
Proof.
  intros Hp. unfold finish. rewrite (queue_checkRep_ok _ _ Hp). simpl.
  destruct (one_place_cases p Hp) as [[l ->]|(h & l & ->)]; simpl;
    [|destruct (compare_cases debug h op) as [[Hh ->]|[[Hh ->]|[Hh ->]]]; simpl];
    (destruct (compare_cases debug l op) as [[Hl ->]|[[Hl ->]|[Hl ->]]]; simpl;
     rewrite queue_checkRep_ok by one; simpl; eexists; (split; [done|]);
     (split; [one|]); simpl;
     (split; [first [solve [left; split; [done|age]] | solve [right; split; [done|age]]]|]));
    try (left; split; [done|]; by intros ? [= <-]);
    right; split; try done; exists h; (split; [done|age]).
Qed.

(** ** The queue in use *)

(** The goroutine [submitOps] of client.go, the only caller of [get] and
    [finish]: it takes an operation, submits it, and finishes it or, after a
    failed submission, tries again. *)
Inductive submitter := Waiting | Submitting op.

Inductive event := EvAdd op | EvGet op | EvFail op | EvFinish op.

#[export] Instance event_eq_dec `{EqDecision C} : EqDecision event.
Proof. solve_decision. Defined.

Inductive qstep (debug : bool) :
    eliminationQueue * submitter → event → eliminationQueue * submitter → Prop :=
| qs_add op p s p' w : add debug op p = Ret (s, p') → qstep debug (p, w) (EvAdd op) (p', w)
| qs_get op p : get_op debug p = Ret (Some op) →
    qstep debug (p, Waiting) (EvGet op) (p, Submitting op)
| qs_fail op p : qstep debug (p, Submitting op) (EvFail op) (p, Waiting)
| qs_finish op p p' : finish debug op p = Ret p' →
    qstep debug (p, Submitting op) (EvFinish op) (p', Waiting).

(** The states reached by a sequence of events. *)
Inductive qrun (debug : bool) : list event → eliminationQueue * submitter → Prop :=
| qrun_nil : qrun debug [] (newEliminationQueue, Waiting)
| qrun_snoc tr st e st' :
    qrun debug tr st → qstep debug st e st' → qrun debug (tr ++ [e]) st'.

Record queue_inv (tr : list event) (p : eliminationQueue) (w : submitter) : Prop := {
  inv_one : one_place p;
  inv_newer : ∀ h, pending p = Some h → older (lastFinished p) h ∧ EvAdd h ∈ tr;
  inv_newest : ∀ op, EvAdd op ∈ tr →
    upto op (lastFinished p) ∨ ∃ h, pending p = Some h ∧ upto op h;
  inv_submitting : ∀ op, w = Submitting op →
    older (lastFinished p) op ∧ EvAdd op ∈ tr ∧ ∃ h, pending p = Some h ∧ upto op h;
  inv_finished : ∀ op, EvFinish op ∈ tr → upto op (lastFinished p);
  inv_got : ∀ op, EvGet op ∈ tr → EvAdd op ∈ tr
}.

Lemma queue_inv_init : queue_inv [] newEliminationQueue Waiting.
Proof. split; try done; try (intros ? H; by apply elem_of_nil in H). one. Qed.

Lemma add_inv debug op tr p w s p' :
  queue_inv tr p w → add debug op p = Ret (s, p') → queue_inv (tr ++ [EvAdd op]) p' w.
Proof.
  intros [H1 H2 H3 H4 H5 H6] HA.
  destruct (add_cases debug op p H1) as [(Hl & Hh & E)|[Hold E]]; rewrite E in HA; simplify_eq.
  - split; simpl; [one|..].
    + intros h [= <-]. split; [done|set_solver].
    + intros op' [Hin|Hin]%elem_of_app.
      * destruct (H3 _ Hin) as [?|(h & Hp & ?)]; [by left|]. right. exists op. split; [done|].
        specialize (Hh _ Hp). age.
      * apply list_elem_of_singleton in Hin as [= ->]. right. exists op. split; [done|age].
    + intros op' ->. destruct (H4 _ eq_refl) as (? & ? & h & Hp & ?).
      split_and!; [done|set_solver|]. exists op. split; [done|]. specialize (Hh _ Hp). age.
    + intros op' Hin. apply H5. set_solver.
    + intros op' Hin. set_solver.
  - split; try done.
    + intros h Hp. destruct (H2 _ Hp). split; [done|set_solver].
    + intros op' [Hin|Hin]%elem_of_app; [by apply H3|].
      by apply list_elem_of_singleton in Hin as [= ->].
    + intros op' Hw. destruct (H4 _ Hw) as (? & ? & ?). split_and!; [done|set_solver|done].
    + intros op' Hin. apply H5. set_solver.
    + intros op' Hin. set_solver.
Qed.

(** Events that leave the queue alone. *)
Lemma idle_inv tr p w w' e :
  queue_inv tr p w → (∀ op, e ≠ EvAdd op) → (∀ op, e ≠ EvFinish op) →
  (∀ op, e = EvGet op → EvAdd op ∈ tr) →
  (∀ op, w' = Submitting op →
    older (lastFinished p) op ∧ EvAdd op ∈ tr ∧ ∃ h, pending p = Some h ∧ upto op h) →
  queue_inv (tr ++ [e]) p w'.
Proof.
  intros [H1 H2 H3 H4 H5 H6] Ha Hf Hg Hw. split; try done.
  - intros h Hp. destruct (H2 _ Hp). split; [done|set_solver].
  - intros op [Hin|Hin]%elem_of_app; [by apply H3|].
    apply list_elem_of_singleton in Hin. by destruct (Ha op).
  - intros op E. destruct (Hw _ E) as (? & ? & ?). split_and!; [done|set_solver|done].
  - intros op [Hin|Hin]%elem_of_app; [by apply H5|].
    apply list_elem_of_singleton in Hin. by destruct (Hf op).
  - intros op [Hin|Hin]%elem_of_app; [set_solver|].
    apply list_elem_of_singleton in Hin. apply elem_of_app. left. by apply Hg.
Qed.

Lemma finish_inv debug op tr p p' :
  queue_inv tr p (Submitting op) → finish debug op p = Ret p' →
  queue_inv (tr ++ [EvFinish op]) p' Waiting ∧ lastFinished p' = op.
Proof.
  intros [H1 H2 H3 H4 H5 H6] HF.
  destruct (H4 _ eq_refl) as (Hl & Hadd & h & Hh & Hle).
  destruct (finish_cases debug op p H1) as (p1 & E & Hone & HL & HP).
  rewrite E in HF. simplify_eq.
  assert (lastFinished p' = op) as HL'. { destruct HL as [[_ ?]|[? _]]; [age|done]. }
  split; [|done]. split; try done.
  - intros h' Hp'. destruct HP as [[HP _]|[HP (h0 & Hp0 & Hne)]]; [congruence|].
    rewrite HP in Hp'. destruct (H2 _ Hp'). rewrite HL'. rewrite Hp' in *.
    injection Hh as ->. injection Hp0 as ->. split; [age|set_solver].
  - intros op' [Hin|Hin]%elem_of_app; [|by apply list_elem_of_singleton in Hin].
    rewrite HL'. destruct (H3 _ Hin) as [?|(h0 & Hp0 & ?)]; [left; age|].
    rewrite Hh in Hp0. injection Hp0 as <-.
    destruct HP as [[HP Hs]|[HP _]]; [left; specialize (Hs _ Hh); age|].
    right. exists h. by rewrite HP.
  - intros op' [Hin|Hin]%elem_of_app; rewrite HL'.
    + specialize (H5 _ Hin). age.
    + apply list_elem_of_singleton in Hin as [= ->]. age.
  - intros op' Hin. set_solver.
Qed.

(** What the submitting goroutine finds after it has finished an operation: the
    newest operation added, if that is newer than the finished one, and an empty
    queue otherwise. *)
Definition next_op (debug : bool) (tr : list event) (p : eliminationQueue) op (next : option (Op C)) : Prop :=
  get_op debug p = Ret next ∧
  match next with
  | Some n => EvAdd n ∈ tr ∧ older op n ∧ ∀ a, EvAdd a ∈ tr → upto a n
  | None => ∀ a, EvAdd a ∈ tr → upto a op
  end.

Lemma after_finish debug op tr p p' :
  queue_inv tr p (Submitting op) → finish debug op p = Ret p' →
  lastFinished p' = op ∧ ∃ next, next_op debug tr p' op next.
Proof.
  intros Hi HF. destruct (finish_inv _ _ _ _ _ Hi HF) as [[H1 H2 H3 _ _ _] HL]. split; [done|].
  exists (pending p'). split; [by apply get_op_eq|]. destruct (pending p') as [h|] eqn:Hp.
  - destruct (H2 _ eq_refl) as [Ho Hin]. rewrite HL in Ho. split_and!; [set_solver|done|].
    intros a Ha. destruct (H3 a) as [Hu|(h' & [= <-] & Hu)]; [set_solver| |done]. rewrite HL in Hu. age.
  - intros a Ha. destruct (H3 a) as [Hu|(h' & ? & _)]; [set_solver| |done]. by rewrite HL in Hu.
Qed.

Lemma qrun_inv debug tr p w : qrun debug tr (p, w) → queue_inv tr p w.
Proof.
  remember (p, w) as st eqn:E. intros Hr. revert p w E.
  induction Hr as [|tr st e st' Hr IH Hs]; intros p w E; [simplify_eq; apply queue_inv_init|].
  destruct Hs as [op p0 s p' w0 HA|op p0 HG|op p0|op p0 p' HF]; simplify_eq;
    specialize (IH _ _ eq_refl); simpl in *.
  - by eapply add_inv.
  - rewrite get_op_eq in HG by apply IH. injection HG as HG.
    destruct (inv_newer _ _ _ IH _ HG). eapply idle_inv; try done.
    + by intros ? [= ->].
    + intros ? [= <-]. split_and!; try done. exists op. split; [done|age].
  - by eapply idle_inv.
  - by eapply finish_inv.
Qed.

Lemma qrun_last debug tr e st' :
  qrun debug (tr ++ [e]) st' → ∃ st, qrun debug tr st ∧ qstep debug st e st'.
Proof.
  intros H. inversion H as [Hn|tr0 st e0 st0 Hr Hs Heq]; subst; [by destruct tr|].
  apply app_inj_tail in Heq as [-> ->]. eauto.
Qed.

Lemma qrun_prefix debug tr1 tr2 st : qrun debug (tr1 ++ tr2) st → ∃ st1, qrun debug tr1 st1.
Proof.
  revert st. induction tr2 as [|e tr2 IH] using rev_ind; intros st H.
  - rewrite app_nil_r in H. eauto.
  - rewrite app_assoc in H. apply qrun_last in H as (st1 & H & _). by eapply IH.
Qed.

(** What is recorded as finished last was finished, except in the beginning. *)
Lemma last_finished debug tr p w :
  qrun debug tr (p, w) → lastFinished p = AbortOp (-1) ∨ EvFinish (lastFinished p) ∈ tr.
Proof.
  remember (p, w) as st eqn:E. intros Hr. revert p w E.
  induction Hr as [|tr st e st' Hr IH Hs]; intros p w E; [simplify_eq; by left|].
  destruct Hs as [op p0 s p' w0 HA|op p0 HG|op p0|op p0 p' HF]; simplify_eq;
    specialize (IH _ _ eq_refl); pose proof (qrun_inv _ _ _ _ Hr) as Hi.
  - assert (lastFinished p = lastFinished p0) as ->; [|set_solver].
    destruct (add_cases debug op p0 (inv_one _ _ _ Hi)) as [(_ & _ & HE)|[_ HE]]; rewrite HE in HA; by simplify_eq.
  - set_solver.
  - set_solver.
  - destruct (finish_inv _ _ _ _ _ Hi HF) as [_ ->]. right. set_solver.
Qed.

(** When [get] has to wait, everything added is no newer than what was finished
    last. *)
Lemma get_waits debug tr p w :
  qrun debug tr (p, w) → get_op debug p = Ret None ↔ ∀ a, EvAdd a ∈ tr → upto a (lastFinished p).
Proof.
  intros Hr. pose proof (qrun_inv _ _ _ _ Hr) as Hi. rewrite get_op_eq by apply Hi. split.
  - intros [= Hn] a Ha. destruct (inv_newest _ _ _ Hi _ Ha) as [?|(h & Hp & _)]; [done|congruence].
  - intros Hall. destruct (pending p) as [h|] eqn:Hp; [|done].
    destruct (inv_newer _ _ _ Hi _ Hp) as [Hl Hin]. specialize (Hall _ Hin). age.
Qed.

(** ** Properties *)

(** [compare] decides a total preorder: it never panics nor answers
    [opIncomparable]; exchanging the arguments exchanges newer and older;
    "newer" is transitive and "equal" is compatible with it. *)
Theorem compare_total_preorder debug a b c :
  (∃ r, compare debug a b = Ret r ∧ r ≠ opIncomparable) ∧
  (compare debug a b = Ret opNewer ↔ compare debug b a = Ret opOlder) ∧
  (compare debug a b = Ret opEqual ↔ compare debug b a = Ret opEqual) ∧
  (compare debug a b = Ret opNewer → compare debug b c = Ret opNewer →
     compare debug a c = Ret opNewer) ∧
  (compare debug a b = Ret opEqual → compare debug a c = compare debug b c).
Proof.
  destruct (compare_cases debug a b) as [[H1 ->]|[[H1 ->]|[H1 ->]]],
    (compare_cases debug b a) as [[H2 ->]|[[H2 ->]|[H2 ->]]], (compare_cases debug b c) as
    [[H3 ->]|[[H3 ->]|[H3 ->]]], (compare_cases debug a c) as [[H4 ->]|[[H4 ->]|[H4 ->]]];
    try (exfalso; age); split_and!; eauto; done.
Qed.

(** C9: the queue hands out the newest operation.  However the goroutines that
    add operations interleave with the one that submits them, an operation
    returned by [get] was added before, no operation added so far is newer,
    and every operation finished so far is strictly older. *)
Theorem get_returns_newest debug tr op st :
  qrun debug (tr ++ [EvGet op]) st →
  EvAdd op ∈ tr ∧ (∀ a, EvAdd a ∈ tr → upto a op) ∧ (∀ f, EvFinish f ∈ tr → older f op).
Proof.
  intros ([p w] & Hr & Hs)%qrun_last. pose proof (qrun_inv _ _ _ _ Hr) as Hi.
  inversion Hs as [|? ? HG| |]; subst. rewrite get_op_eq in HG by apply Hi. injection HG as HG.
  destruct (inv_newer _ _ _ Hi _ HG) as [Hl Hin]. split_and!; [done| |].
  - intros a Ha. destruct (inv_newest _ _ _ Hi _ Ha) as [?|(h & Hp & ?)]; [age|].
    rewrite HG in Hp. by injection Hp as ->.
  - intros f Hf. pose proof (inv_finished _ _ _ Hi _ Hf). age.
Qed.

(** No operation is finished twice: the operations whose submission
    succeeded are strictly increasing along every run. *)
Theorem finished_strictly_increasing debug tr1 f1 tr2 f2 tr3 st :
  qrun debug (tr1 ++ EvFinish f1 :: tr2 ++ EvFinish f2 :: tr3) st → older f1 f2.
Proof.
  intros H. replace (tr1 ++ EvFinish f1 :: tr2 ++ EvFinish f2 :: tr3) with
    (((tr1 ++ EvFinish f1 :: tr2) ++ [EvFinish f2]) ++ tr3) in H
    by (by rewrite <- !app_assoc).
  apply qrun_prefix in H as (st1 & ([p w] & Hr & Hs)%qrun_last).
  pose proof (qrun_inv _ _ _ _ Hr) as Hi. inversion Hs; subst.
  destruct (inv_submitting _ _ _ Hi _ eq_refl) as (Hl & _).
  assert (upto f1 (lastFinished p)) by (apply (inv_finished _ _ _ Hi); set_solver). age.
Qed.

(** Nothing is lost and nobody sleeps through an operation.  In every
    reachable state, also with assertions enabled, [add] returns; it signals
    the waiting goroutine exactly when it changes the queue; and [get] keeps
    waiting only if every operation added so far is no newer than one whose
    submission succeeded. *)
Theorem queue_never_loses_newest debug tr p w op :
  qrun debug tr (p, w) →
  (∃ s p', add debug op p = Ret (s, p') ∧ (s = true ↔ pending p' ≠ pending p)) ∧
  (get_op debug p = Ret None ↔ ∀ a, EvAdd a ∈ tr → upto a (lastFinished p)).
Proof.
  intros Hr. pose proof (qrun_inv _ _ _ _ Hr) as Hi. split.
  - destruct (add_cases debug op p (inv_one _ _ _ Hi)) as [(Hl & Hh & E)|[_ E]];
      do 2 eexists; (split; [exact E|]); split; try done.
    intros _. simpl. intros Hp. symmetry in Hp. specialize (Hh _ Hp). by apply older_irrefl in Hh.
  - by eapply get_waits.
Qed.

End queue.

(** ** A concrete run *)

Module QueueDemo.

Definition enc0 : Op unit := EncryptedOp [] 0 [] 0.
Definition enc1 : Op unit := EncryptedOp [] 0 [] 1.
Definition rev1 : Op unit := RevealOp [] 1 NilPrivateKey.

(** [enc0] is overtaken by [enc1] while it is being submitted. *)
Definition overtaken : list (event (C := unit)) :=
  [EvAdd enc0; EvGet enc0; EvAdd enc1; EvFinish enc0; EvAdd enc0; EvGet enc1; EvFail enc1;
   EvAdd rev1; EvGet rev1; EvFinish rev1].

Lemma run_overtaken : qrun true overtaken (mkQueue [] rev1, Waiting).
Proof.
  unfold overtaken.
  apply (qrun_snoc _ [_;_;_;_;_;_;_;_;_] (mkQueue [rev1] enc0, Submitting rev1)); [|by constructor].
  apply (qrun_snoc _ [_;_;_;_;_;_;_;_] (mkQueue [rev1] enc0, Waiting)); [|by constructor].
  apply (qrun_snoc _ [_;_;_;_;_;_;_] (mkQueue [enc1] enc0, Waiting)); [|by econstructor].
  apply (qrun_snoc _ [_;_;_;_;_;_] (mkQueue [enc1] enc0, Submitting enc1)); [|by constructor].
  apply (qrun_snoc _ [_;_;_;_;_] (mkQueue [enc1] enc0, Waiting)); [|by constructor].
  apply (qrun_snoc _ [_;_;_;_] (mkQueue [enc1] enc0, Waiting)); [|by econstructor].
  apply (qrun_snoc _ [_;_;_] (mkQueue [enc1] (AbortOp (-1)), Submitting enc0)); [|by constructor].
  apply (qrun_snoc _ [_;_] (mkQueue [enc0] (AbortOp (-1)), Submitting enc0)); [|by econstructor].
  apply (qrun_snoc _ [_] (mkQueue [enc0] (AbortOp (-1)), Waiting)); [|by constructor].
  apply (qrun_snoc _ [] (newEliminationQueue, Waiting)); [|by econstructor].
  constructor.
Qed.

End QueueDemo.

Import QueueDemo.

Lemma get_returns_newest_witness : upto enc1 rev1 ∧ older enc0 rev1.
Proof.
  destruct (qrun_prefix true (take 9 overtaken) [EvFinish rev1] _ run_overtaken) as [st Hst].
  destruct (get_returns_newest true (take 8 overtaken) rev1 st Hst) as (_ & Ha & Hf).
  split; [apply Ha | apply Hf]; apply (bool_decide_unpack _); by vm_compute.
Defined.

Lemma finished_strictly_increasing_witness : older enc0 rev1.
Proof.
  apply (finished_strictly_increasing true (take 3 overtaken) enc0
    [EvAdd enc0; EvGet enc1; EvFail enc1; EvAdd rev1; EvGet rev1] rev1 [] _ run_overtaken).
Defined.

Lemma queue_never_loses_newest_witness :
  get_op true (mkQueue [] rev1) = Ret None ↔ ∀ a, EvAdd a ∈ overtaken → upto a rev1.
Proof. apply (queue_never_loses_newest true overtaken _ Waiting enc0 run_overtaken). Defined.
