(* ===== verification/Client.v ===== *)
(** * What a client contributes to a round

    Model of the protocol steps of src/anonbcast/client.go: the operations a
    client derives from a snapshot of the current round ([prepare], [submit],
    [encrypt], [scramble], [decrypt], [reveal]), the message header, and
    [sendRoundResult], which opens the messages of a finished round and looks
    for signs of tampering.

    A goroutine that ends in [c.pending.add(op)] is a function that returns
    [Some op]; one that adds nothing returns [None].  Randomness is an
    argument: the random bytes of a header, the draws of [rand.Shuffle]. *)

From Stdlib Require Import Strings.Byte.
From S2P Require Import Prelude Bytes Crypto Op StateMachine.

Local Open Scope Z_scope.

(** ** Slices of the standard library *)

(** [l[:n]], for a slice whose capacity is its length. *)
Definition slice_to {A} (l : list A) (n : nat) : outcome (list A) :=
  if decide (n ≤ length l)%nat then Ret (take n l) else Panic SliceOutOfRange.

(** The swap passed to [rand.Shuffle]. *)
Definition swap {A} (l : list A) (i j : nat) : outcome (list A) :=
  x ← l.[i]; y ← l.[j]; l' ← l.[i <- y]; l'.[j <- x].

(** [rand.Shuffle(i + 1, swap)]: position [i] down to 1 is exchanged with a
    drawn position not above it. *)
Fixpoint shuffle_from {A} (i : nat) (draws : list nat) (l : list A) : outcome (list A) :=
  match i with
  | O => Ret l
  | S i' => l' ← swap l i (hd O draws mod S i)%nat; shuffle_from i' (tail draws) l'
  end.

Definition rand_Shuffle {A} (draws : list nat) (l : list A) : outcome (list A) :=
  shuffle_from (length l - 1) draws l.

(** ** Message headers *)

Definition messageHeaderLength : nat := 16.

(** [r] are the bytes that [crand.Read] delivers; fewer than eight mean an error,
    to which only an assertion objects, and leave the rest of the buffer zero. *)
Definition messageHeader (debug : bool) (r : list byte) : outcome (list byte) :=
  (if bool_decide (length r < 8)%nat then assertf debug false else Ret tt) ;;
  let h := replicate 8 Byte.x0d ++ go_copy (replicate 8 Byte.x00) r in
  assertf debug (bool_decide (length h = messageHeaderLength)) ;;
  Ret h.

(** The loop over the first eight bytes; true is the nil error. *)
Fixpoint header_bytes (i k : nat) (h : list byte) : outcome bool :=
  match k with
  | O => Ret true
  | S k' => b ← h.[i]; if bool_decide (b ≠ Byte.x0d) then Ret false else header_bytes (S i) k' h
  end.

Definition verifyHeader (debug : bool) (h : list byte) : outcome bool :=
  assertf debug (bool_decide (length h = 16%nat)) ;; header_bytes 0 8 h.

Definition messageWithHeader (debug : bool) (r m : list byte) : outcome (list byte) :=
  h ← messageHeader debug r; Ret (h ++ m).

(** The loop [for i, p := range ri.Participants { if p == c.Id { me = i } }]:
    the last position that holds the id; [None] is -1. *)
Fixpoint myIndex (Id : UUID) (i : nat) (ps : list UUID) (me : option nat) : option nat :=
  match ps with
  | [] => me
  | p :: ps' => myIndex Id (S i) ps' (if bool_decide (p = Id) then Some i else me)
  end.

Definition whereAmI {C} (Id : UUID) (ri : RoundInfo C) : option nat :=
  myIndex Id 0 (Participants ri) None.

(** ** Operations of a participant *)

Section operations.
Context {C : Type} `{CommutativeCrypto C} `{Sha256} (debug : bool).
Context (Id : UUID) (MessageSize : Z).
Implicit Types ri : RoundInfo C.

(** Calling a method of the round's crypto: a nil interface panics. *)
Definition crypto_of ri : outcome C :=
  match Crypto ri with Some c => Ret c | None => Panic NilDereference end.

Definition prepare (round : Z) (me : option nat) : option (Op C) :=
  match me with
  | None => Some (JoinOp Id round)
  | Some _ => None
  end.

Definition client_abort (round : Z) : Op C := AbortOp round.

(** [answer] is what the user returned, or [None] after the timeout; [r1] and
    [r2] are the random bytes of the headers of the first and second attempt. *)
Definition submit (round : Z) ri (me : nat) (encryptKey revealKey : PrivateKey)
    (answer : option (list byte)) (r1 r2 : list byte) : outcome (option (Op C)) :=
  mine ← (Messages ri).[me];
  if Msg_Nil mine then
    let msg := default [] answer in
    crypto ← crypto_of ri;
    full ← messageWithHeader debug r1 msg;
    prepared ← PrepareMsg crypto full;
    m ← match prepared with
        | None =>
            assertf debug (MessageSize <? Z.of_nat (length msg)) ;;
            empty ← messageWithHeader debug r2 [];
            prepared ← PrepareMsg crypto empty;
            assertf debug (bool_decide (is_Some prepared)) ;;
            Ret (default NilMsg prepared)
        | Some m =>
            assertf debug (Z.of_nat (length msg) <=? MessageSize) ;; Ret m
        end;
    let encryptedM := Encrypt crypto encryptKey m in
    Ret (Some (MessageOp Id round encryptedM (Hash revealKey)))
  else Ret None.

(** The loop over [ri.Messages] in [encrypt], from position [i]. *)
Fixpoint encrypt_others ri (key : PrivateKey) (me i : nat) (ms : list Msg) : outcome (list Msg) :=
  match ms with
  | [] => Ret []
  | m :: ms' =>
      m' ← (if bool_decide (i = me) then Ret (Msg_DeepCopy m)
            else crypto ← crypto_of ri; Ret (Encrypt crypto key m));
      rest ← encrypt_others ri key me (S i) ms';
      Ret (m' :: rest)
  end.

Definition encrypt (round : Z) ri (me : nat) (encryptKey : PrivateKey) : outcome (option (Op C)) :=
  already ← (Encrypted ri).[me];
  if negb already then
    let prev := count_true (Encrypted ri) in
    encryptedMessages ← encrypt_others ri encryptKey me 0 (Messages ri);
    Ret (Some (EncryptedOp Id round encryptedMessages (Z.of_nat prev)))
  else Ret None.

Definition scramble (round : Z) ri (me : nat) (scrambleKey revealKey : PrivateKey)
    (draws : list nat) : outcome (option (Op C)) :=
  already ← (Scrambled ri).[me];
  if negb already then
    scrambledMessages ← map_outcome (fun m =>
      crypto ← crypto_of ri;
      let m1 := Encrypt crypto scrambleKey m in
      let m2 := Encrypt crypto revealKey m1 in
      Ret m2) (Messages ri);
    scrambledMessages ← rand_Shuffle draws scrambledMessages;
    Ret (Some (ScrambledOp Id round scrambledMessages))
  else Ret None.

Definition decrypt (round : Z) ri (me : nat) (scrambleKey encryptKey : PrivateKey)
    : outcome (option (Op C)) :=
  already ← (Decrypted ri).[me];
  if negb already then
    let prev := count_true (Decrypted ri) in
    decryptedMessages ← map_outcome (fun m =>
      crypto ← crypto_of ri;
      let m1 := Decrypt crypto scrambleKey m in
      let m2 := Decrypt crypto encryptKey m1 in
      Ret m2) (Messages ri);
    Ret (Some (DecryptedOp Id round decryptedMessages (Z.of_nat prev)))
  else Ret None.

Definition client_reveal (round : Z) ri (me : nat) (revealKey : PrivateKey)
    : outcome (option (Op C)) :=
  mine ← (RevealedKeys ri).[me];
  if PrivateKey_Nil mine then Ret (Some (RevealOp Id round revealKey)) else Ret None.

(** ** The result of a round *)

(** The errors [sendRoundResult] reports to the user. *)
Inductive MaliciousErr : Set :=
| RevealKeySubmitted | NumberOfMessagesChanged | MessagesChanged
| RevealKeyHashMismatch | HeaderInvalid | HeaderDuplicated.

Record RoundResult := mkRoundResult {
  rr_Round : Z;
  Succeeded : bool;
  rr_Messages : list (list byte);
  MaliciousError : option MaliciousErr
}.

Definition failure (round : Z) (e : option MaliciousErr) : RoundResult :=
  mkRoundResult round false [] e.

(** The comparison with the messages seen in the reveal phase; false when a
    message differs. *)
Fixpoint messages_unchanged (i : nat) (ms before : list Msg) : outcome bool :=
  match ms with
  | [] => Ret true
  | m :: ms' =>
      b ← before.[i];
      if Msg_Equal m b then messages_unchanged (S i) ms' before else Ret false
  end.

(** Removing the reveal layers of one message, checking every key against the
    hash committed to in the submit phase; [None] when a hash does not match. *)
Fixpoint remove_layers ri (hashes : list (list byte)) (i : nat) (keys : list PrivateKey) (om : Msg)
    : outcome (option Msg) :=
  match keys with
  | [] => Ret (Some om)
  | revealKey :: keys' =>
      hash ← hashes.[i];
      if negb (HashEquals revealKey hash) then Ret None else
      crypto ← crypto_of ri;
      remove_layers ri hashes (S i) keys' (Decrypt crypto revealKey om)
  end.

Fixpoint open_messages ri (hashes : list (list byte)) (ms : list Msg)
    : outcome (option (list (list byte))) :=
  match ms with
  | [] => Ret (Some [])
  | m :: ms' =>
      om ← remove_layers ri hashes 0 (RevealedKeys ri) m;
      match om with
      | None => Ret None
      | Some om =>
          crypto ← crypto_of ri;
          plain ← ExtractMsg crypto om;
          rest ← open_messages ri hashes ms';
          Ret (option_map (cons plain) rest)
      end
  end.

(** Splitting off the headers; messages with nothing after the header are
    dropped; [None] when a header is invalid. *)
Fixpoint check_headers (ms : list (list byte)) : outcome (option (list (list byte * list byte))) :=
  match ms with
  | [] => Ret (Some [])
  | m :: ms' =>
      header ← slice_to m messageHeaderLength;
      valid ← verifyHeader debug header;
      if negb valid then Ret None else
      rest ← check_headers ms';
      if bool_decide (messageHeaderLength < length m)%nat
      then Ret (option_map (cons (header, drop messageHeaderLength m)) rest)
      else Ret rest
  end.

(** The inner loop over the bytes of two headers. *)
Fixpoint same_header (j : nat) (h1 h2 : list byte) (equal : bool) : outcome bool :=
  match h1 with
  | [] => Ret equal
  | b :: h1' => b' ← h2.[j]; same_header (S j) h1' h2 (equal && bool_decide (b = b'))
  end.

(** The loops over pairs [i1 < i2]; true when two headers are equal. *)
Fixpoint header_repeats (h1 : list byte) (hs : list (list byte)) : outcome bool :=
  match hs with
  | [] => Ret false
  | h2 :: hs' =>
      assertf debug (bool_decide (length h1 = length h2)) ;;
      equal ← same_header 0 h1 h2 true;
      if equal : bool then Ret true else header_repeats h1 hs'
  end.

Fixpoint headers_repeat (hs : list (list byte)) : outcome bool :=
  match hs with
  | [] => Ret false
  | h1 :: hs' =>
      dup ← header_repeats h1 hs';
      if dup : bool then Ret true else headers_repeat hs'
  end.

(** The result sent to the user; [None] when the user did not participate. *)
Definition sendRoundResult (sm : StateMachine C) (round : Z) (revealKeyHashes : list (list byte))
    (revealKeyHashesRound : Z) (messagesBeforeReveal : list Msg)
    (numberOfMessagesWhenScrambled : nat) : outcome (option RoundResult) :=
  let last := wrap64 (round - 1) in
  let '(r, err) := GetRoundInfo sm last in
  assertf debug (bool_decide (err = None)) ;;
  '(ri, _) ← load r sm;
  assertf debug (bool_decide (phase ri = DonePhase) || bool_decide (phase ri = FailedPhase)) ;;
  if negb (existsb (fun p => bool_decide (p = Id)) (Participants ri)) then Ret None else
  if bool_decide (phase ri = FailedPhase) then
    Ret (Some (failure last
      (if revealKeyHashesRound =? last then Some RevealKeySubmitted else None)))
  else
  assertf debug (revealKeyHashesRound =? last) ;;
  if bool_decide (length (Messages ri) ≠ numberOfMessagesWhenScrambled) then
    Ret (Some (failure last (Some NumberOfMessagesChanged)))
  else
  same ← messages_unchanged 0 (Messages ri) messagesBeforeReveal;
  if negb same then Ret (Some (failure last (Some MessagesChanged))) else
  messages ← open_messages ri revealKeyHashes (Messages ri);
  match messages with
  | None => Ret (Some (failure last (Some RevealKeyHashMismatch)))
  | Some messages =>
      checked ← check_headers messages;
      match checked with
      | None => Ret (Some (failure last (Some HeaderInvalid)))
      | Some checked =>
          dup ← headers_repeat (map fst checked);
          if dup : bool then Ret (Some (failure last (Some HeaderDuplicated))) else
          Ret (Some (mkRoundResult last (bool_decide (phase ri = DonePhase))
            (map snd checked) None))
      end
  end.

End operations.
