(* ===== verification/Layers.v ===== *)
(** * Layers of encryption

    Reasoning about what the messages of a round hold: a prepared message
    under a set of encryption layers.  Layers commute, so that only the
    multiset of keys matters; which keys have been applied is read off the
    flags of the round.  Everything is proved against the interface
    [CommutativeCryptoLaws].  The file also shows that [rand.Shuffle] permutes. *)

From S2P Require Import Prelude Bytes Crypto Client.

(** ** Shuffling *)

Definition transpose (i j k : nat) : nat :=
  if decide (k = i) then j else if decide (k = j) then i else k.

Lemma transpose_inj i j : Inj (=) (=) (transpose i j).
Proof. intros k k'. unfold transpose. repeat case_decide; congruence. Qed.

Lemma swap_perm {A} (l : list A) i j :
  i < length l → j < length l → ∃ l', swap l i j = Ret l' ∧ l' ≡ₚ l.
Proof.
  intros Hi Hj. destruct (lookup_lt_is_Some_2 l i Hi) as [x Hx].
  destruct (lookup_lt_is_Some_2 l j Hj) as [y Hy].
  unfold swap. rewrite (proj2 (slice_get_ret _ _ _) Hx), (proj2 (slice_get_ret _ _ _) Hy). simpl.
  rewrite slice_set_ret by done. simpl.
  rewrite slice_set_ret by (by rewrite length_insert). eexists. split; [done|].
  apply Permutation_inj. split; [by rewrite !length_insert|].
  exists (transpose i j). split; [apply transpose_inj|].
  intros k. unfold transpose. destruct (decide (k = i)) as [->|Hki]; [|case_decide as Hkj].
  - destruct (decide (i = j)) as [->|].
    + rewrite list_lookup_insert_eq by (by rewrite length_insert). congruence.
    + rewrite list_lookup_insert_ne, list_lookup_insert_eq by done. done.
  - subst. rewrite list_lookup_insert_eq by (by rewrite length_insert). done.
  - by rewrite !list_lookup_insert_ne by done.
Qed.

Lemma shuffle_from_perm {A} i : ∀ draws (l : list A),
  (i < length l ∨ i = 0) → ∃ l', shuffle_from i draws l = Ret l' ∧ l' ≡ₚ l.
Proof.
  induction i as [|i IH]; intros draws l Hi; [by exists l|]. cbn [shuffle_from].
  pose proof (Nat.mod_upper_bound (hd 0 draws) (S (S i))).
  destruct (swap_perm l (S i) (hd 0 draws mod S (S i))) as (l1 & -> & Hp1); [lia..|].
  cbn [mbind outcome_bind]. destruct (IH (tail draws) l1) as (l' & -> & Hp2).
  { rewrite Hp1. lia. }
  exists l'. split; [done|]. by rewrite Hp2.
Qed.

Lemma rand_Shuffle_perm {A} draws (l : list A) :
  ∃ l', rand_Shuffle draws l = Ret l' ∧ l' ≡ₚ l.
Proof. apply shuffle_from_perm. lia. Qed.

(** ** Keys selected by flags *)

Fixpoint chosen {A} (flags : list bool) (ks : list A) : list A :=
  match flags, ks with
  | b :: flags', k :: ks' => (if b then [k] else []) ++ chosen flags' ks'
  | _, _ => []
  end.

Lemma chosen_insert {A} flags (ks : list A) q k :
  flags !! q = Some false → ks !! q = Some k →
  chosen (<[q:=true]> flags) ks ≡ₚ k :: chosen flags ks.
Proof.
  revert ks q. induction flags as [|b flags IH]; intros [|k' ks] [|q] Hf Hk; simplify_eq/=; [done|].
  rewrite (IH ks q) by done. symmetry. apply Permutation_middle.
Qed.

Lemma chosen_clear {A} flags (ks : list A) q k :
  flags !! q = Some true → ks !! q = Some k →
  chosen flags ks ≡ₚ k :: chosen (<[q:=false]> flags) ks.
Proof.
  revert ks q. induction flags as [|b flags IH]; intros [|k' ks] [|q] Hf Hk; simplify_eq/=; [done|].
  rewrite (IH ks q) by done. symmetry. apply Permutation_middle.
Qed.

Lemma chosen_none {A} flags (ks : list A) : Forall (fun b => b = false) flags → chosen flags ks = [].
Proof.
  intros Hf. revert ks. induction Hf as [|b flags -> Hf IH]; intros [|k ks]; simpl; auto.
Qed.

Lemma chosen_all {A} flags (ks : list A) :
  Forall (fun b => b = true) flags → length flags = length ks → chosen flags ks = ks.
Proof.
  intros Hf. revert ks. induction Hf as [|b flags -> Hf IH]; intros [|k ks] Hl; simplify_eq/=; auto.
  by rewrite IH.
Qed.

Lemma chosen_subseteq {A} flags (ks : list A) k : k ∈ chosen flags ks → k ∈ ks.
Proof.
  revert ks. induction flags as [|b flags IH]; intros [|k' ks]; simpl; try set_solver.
  destruct b; simpl; set_solver.
Qed.

Lemma Forall_chosen {A} (P : A → Prop) flags ks : Forall P ks → Forall P (chosen flags ks).
Proof. rewrite !Forall_forall. intros HP k Hk. by eapply HP, chosen_subseteq. Qed.

(** ** Layers *)

Section layers.
Context {C : Type} `{CommutativeCryptoLaws C}.
Context (c : C) (Hc : sound c).

Definition layers (ks : list PrivateKey) (m : Msg) : Msg := foldr (Encrypt c) m ks.

Lemma layers_carries ks m : Forall (key_ok c) ks → carries c m → carries c (layers ks m).
Proof. intros Hks Hm. induction Hks; simpl; [done|]. by apply Encrypt_carries. Qed.

Lemma layers_perm ks ks' m :
  ks ≡ₚ ks' → Forall (key_ok c) ks → carries c m → layers ks m = layers ks' m.
Proof.
  intros Hp. induction Hp as [|k ks ks' Hp IH|k k' ks|ks ks' ks'' Hp IH Hp' IH']; intros Hks Hm.
  - done.
  - apply Forall_cons in Hks as [Hk Hks]. simpl. by rewrite IH.
  - apply Forall_cons in Hks as [Hk [Hk' Hks]%Forall_cons]. simpl.
    apply Encrypt_Encrypt; auto. by apply layers_carries.
  - rewrite IH by done. apply IH'; [|done]. by rewrite <- Hp.
Qed.

Lemma add_layer k ks ks' m :
  ks' ≡ₚ k :: ks → Forall (key_ok c) ks' → carries c m →
  Encrypt c k (layers ks m) = layers ks' m.
Proof. intros Hp Hks Hm. symmetry. by rewrite (layers_perm ks' (k :: ks)) by done. Qed.

Lemma remove_layer k ks ks' m :
  ks ≡ₚ k :: ks' → Forall (key_ok c) ks → carries c m →
  Decrypt c k (layers ks m) = layers ks' m.
Proof.
  intros Hp Hks Hm. rewrite (layers_perm ks (k :: ks')) by done. simpl.
  rewrite Hp in Hks. apply Forall_cons in Hks as [Hk Hks].
  apply Decrypt_Encrypt; auto. by apply layers_carries.
Qed.

(** Decrypting with all keys in their order, as the result of a round does. *)
Lemma remove_all_layers ks m :
  Forall (key_ok c) ks → carries c m →
  foldl (fun m k => Decrypt c k m) (layers ks m) ks = m.
Proof.
  intros Hks Hm. induction Hks as [|k ks Hk Hks IH]; [done|]. simpl.
  rewrite Decrypt_Encrypt; auto. by apply layers_carries.
Qed.

End layers.
