(* ===== verification/Protocol.v ===== *)
(** * The protocol from end to end

    Participants that follow client.go drive one round of the state machine.
    Every operation is computed by the client functions of Client from a
    snapshot of the round, which may be stale by the time the operation is
    applied.  The invariant [payload] says which encryption layers the messages
    carry in each phase; the theorems show that a round that ends in
    [DonePhase] gives every participant exactly the messages that were
    submitted, in some order, and that honest participants can always finish a
    round.  Cryptography enters through [CommutativeCryptoLaws] only. *)

From Stdlib Require Import Strings.Byte.
From S2P Require Import Prelude Bytes Primes MasseyOmura Crypto Op StateMachine RoundSpec.
From S2P Require Import StateMachineProps Representation Client Layers.

Local Open Scope nat_scope.

(** ** Finding oneself *)

Section finding.
Context {C : Type}.
Implicit Types ri : RoundInfo C.

Lemma myIndex_spec Id i ps me :
  (∃ p, myIndex Id i ps me = Some (i + p) ∧ ps !! p = Some Id) ∨
  myIndex Id i ps me = me ∧ Id ∉ ps.
Proof.
  revert i me. induction ps as [|q ps IH]; intros i me; simpl; [right; split; [done|set_solver]|].
  destruct (IH (S i) (if bool_decide (q = Id) then Some i else me)) as [(p & -> & Hp)|[-> Hn]].
  - left. exists (S p). split; [by rewrite Nat.add_succ_r|done].
  - case_bool_decide as E; [left; exists 0; subst; by rewrite Nat.add_0_r|].
    right. split; [done|]. set_solver.
Qed.

Lemma whereAmI_Some Id ri me : whereAmI Id ri = Some me → Participants ri !! me = Some Id.
Proof.
  unfold whereAmI. destruct (myIndex_spec Id 0 (Participants ri) None) as [(p & -> & Hp)|[-> _]];
    simpl; congruence.
Qed.

Lemma whereAmI_lookup Id ri p :
  NoDup (Participants ri) → Participants ri !! p = Some Id → whereAmI Id ri = Some p.
Proof.
  intros Hn Hp. unfold whereAmI.
  destruct (myIndex_spec Id 0 (Participants ri) None) as [(q & -> & Hq)|[_ Hq]].
  - f_equal. by eapply NoDup_lookup.
  - destruct Hq. by eapply list_elem_of_lookup_2.
Qed.

Lemma whereAmI_None Id ri : whereAmI Id ri = None → Id ∉ Participants ri.
Proof.
  unfold whereAmI. by destruct (myIndex_spec Id 0 (Participants ri) None) as [(p & -> & Hp)|[_ Hq]].
Qed.
End finding.

(** What a participant brings to a round: its keys, its message, and the random
    bytes of its header. *)
Record participant := mkParticipant {
  ek : PrivateKey;
  sk : PrivateKey;
  rk : PrivateKey;
  plain : list byte;
  nonce : list byte
}.

Section honest.
Context {C : Type} `{CommutativeCryptoLaws C} `{Sha256} (debug : bool) (MessageSize : Z).
Context (c : C) (Hc : sound c) (who : UUID → participant).
Implicit Types (ri : RoundInfo C) (x y : participant) (op : Op C).

Definition full x : list byte := (replicate 8 Byte.x0d ++ nonce x) ++ plain x.

Definition prep x : Msg :=
  match PrepareMsg c (full x) with Ret (Some m) => m | _ => NilMsg end.

Record good x : Prop := {
  good_ek : key_ok c (ek x);
  good_sk : key_ok c (sk x);
  good_rk : key_ok c (rk x);
  good_nonce : length (nonce x) = 8;
  good_fits : (Z.of_nat (length (full x)) < capacity c)%Z;
  good_size : (Z.of_nat (length (plain x)) ≤ MessageSize)%Z;
  good_hash : Hash (rk x) ≠ []
}.

Lemma prep_spec x :
  good x → PrepareMsg c (full x) = Ret (Some (prep x)) ∧ carries c (prep x) ∧
    ExtractMsg c (prep x) = Ret (full x).
Proof.
  intros Hg. destruct (PrepareMsg_ExtractMsg c (full x) Hc (good_fits _ Hg)) as (m & Hm & ? & ?).
  unfold prep. by rewrite Hm.
Qed.

Lemma prep_carries x : good x → carries c (prep x).
Proof. intros Hg. by apply prep_spec. Qed.

(** ** What the messages carry *)

Definition parts ri : list participant := map who (Participants ri).
Definition eks ri : list PrivateKey := map ek (parts ri).
Definition sks ri : list PrivateKey := map sk (parts ri).
Definition rks ri : list PrivateKey := map rk (parts ri).

Definition carried ri (ks : list PrivateKey) : Prop :=
  Messages ri ≡ₚ map (fun x => layers c ks (prep x)) (parts ri).

Definition hashed ri : Prop := RevealKeyHashes ri = map (fun x => Hash (rk x)) (parts ri).

Definition payload ri : Prop :=
  Forall good (parts ri) ∧
  match phase ri with
  | NoPhase | FailedPhase => True
  | PreparePhase => Forall (fun h => h = []) (RevealKeyHashes ri)
  | SubmitPhase =>
      Crypto ri = Some c ∧
      ∀ p x m h, parts ri !! p = Some x → Messages ri !! p = Some m →
        RevealKeyHashes ri !! p = Some h →
        m = NilMsg ∧ h = [] ∨ m = Encrypt c (ek x) (prep x) ∧ h = Hash (rk x)
  | EncryptPhase =>
      Crypto ri = Some c ∧ hashed ri ∧
      Messages ri = imap (fun p x =>
        layers c (chosen (<[p:=true]> (Encrypted ri)) (eks ri)) (prep x)) (parts ri)
  | ScramblePhase =>
      Crypto ri = Some c ∧ hashed ri ∧
      carried ri (chosen (Scrambled ri) (sks ri) ++ chosen (Scrambled ri) (rks ri) ++ eks ri)
  | DecryptPhase =>
      Crypto ri = Some c ∧ hashed ri ∧
      carried ri (chosen (map negb (Decrypted ri)) (sks ri)
        ++ chosen (map negb (Decrypted ri)) (eks ri) ++ rks ri)
  | RevealPhase =>
      Crypto ri = Some c ∧ hashed ri ∧ carried ri (rks ri) ∧
      Forall2 (fun x k => k = NilPrivateKey ∨ k = rk x) (parts ri) (RevealedKeys ri)
  | DonePhase =>
      Crypto ri = Some c ∧ hashed ri ∧ carried ri (rks ri) ∧ RevealedKeys ri = rks ri
  end.

(** ** Operations computed by the client *)

Inductive honest_op (R : Z) ri : Op C → Prop :=
| honest_join Id op :
    good (who Id) → phase ri = PreparePhase →
    prepare Id R (whereAmI Id ri) = Some op → honest_op R ri op
| honest_start Id :
    phase ri = PreparePhase → honest_op R ri (StartOp Id R (Some c))
| honest_message Id me answer r2 op :
    phase ri = SubmitPhase → whereAmI Id ri = Some me → default [] answer = plain (who Id) →
    submit debug Id MessageSize R ri me (ek (who Id)) (rk (who Id)) answer (nonce (who Id)) r2
      = Ret (Some op) → honest_op R ri op
| honest_encrypt Id me op :
    phase ri = EncryptPhase → whereAmI Id ri = Some me →
    encrypt Id R ri me (ek (who Id)) = Ret (Some op) → honest_op R ri op
| honest_scramble Id me draws op :
    phase ri = ScramblePhase → whereAmI Id ri = Some me → me = numScrambled ri →
    scramble Id R ri me (sk (who Id)) (rk (who Id)) draws = Ret (Some op) → honest_op R ri op
| honest_decrypt Id me op :
    phase ri = DecryptPhase → whereAmI Id ri = Some me →
    decrypt Id R ri me (sk (who Id)) (ek (who Id)) = Ret (Some op) → honest_op R ri op
| honest_reveal Id me op :
    phase ri = RevealPhase → whereAmI Id ri = Some me →
    client_reveal Id R ri me (rk (who Id)) = Ret (Some op) → honest_op R ri op
| honest_abort : honest_op R ri (client_abort R).

Lemma parts_lookup ri p Id : Participants ri !! p = Some Id → parts ri !! p = Some (who Id).
Proof. unfold parts. rewrite list_lookup_fmap. by intros ->. Qed.

Lemma parts_lookup_inv ri p x :
  parts ri !! p = Some x → ∃ Id, Participants ri !! p = Some Id ∧ x = who Id.
Proof. unfold parts. rewrite list_lookup_fmap_Some. naive_solver. Qed.

Lemma key_lookup {A} (f : participant → A) ri p Id :
  Participants ri !! p = Some Id → map f (parts ri) !! p = Some (f (who Id)).
Proof. intros Hp. by rewrite list_lookup_fmap, (parts_lookup _ _ _ Hp). Qed.

Lemma eks_ok ri : Forall good (parts ri) → Forall (key_ok c) (eks ri).
Proof. intros Hg. apply Forall_map. eapply Forall_impl; [exact Hg|]. by intros ? []. Qed.
Lemma sks_ok ri : Forall good (parts ri) → Forall (key_ok c) (sks ri).
Proof. intros Hg. apply Forall_map. eapply Forall_impl; [exact Hg|]. by intros ? []. Qed.
Lemma rks_ok ri : Forall good (parts ri) → Forall (key_ok c) (rks ri).
Proof. intros Hg. apply Forall_map. eapply Forall_impl; [exact Hg|]. by intros ? []. Qed.

Lemma parts_length ri : length (parts ri) = length (Participants ri).
Proof. apply length_map. Qed.

Lemma length_keys {A} (f : participant → A) ri : length (map f (parts ri)) = length (Participants ri).
Proof. by rewrite length_map, parts_length. Qed.

(** ** What the client functions compute *)

Lemma messageHeader_eval dbg r : length r = 8 → messageHeader dbg r = Ret (replicate 8 Byte.x0d ++ r).
Proof.
  intros Hr. unfold messageHeader. rewrite (bool_decide_false (length r < 8)) by (rewrite Hr; lia). cbn [mbind outcome_bind].
  rewrite go_copy_same by done.
  by rewrite bool_decide_true, assertf_true by (rewrite length_app, Hr; done).
Qed.

Section evaluation.
Context ri (Hcr : Crypto ri = Some c) (R : Z) (Id : UUID) (me : nat).

Lemma submit_eval m answer r2 :
  good (who Id) → Messages ri !! me = Some m → default [] answer = plain (who Id) →
  submit debug Id MessageSize R ri me (ek (who Id)) (rk (who Id)) answer (nonce (who Id)) r2 =
  Ret (if Msg_Nil m
       then Some (MessageOp Id R (Encrypt c (ek (who Id)) (prep (who Id))) (Hash (rk (who Id))))
       else None).
Proof.
  intros Hg Hm Ha. unfold submit. rewrite (proj2 (slice_get_ret _ _ _) Hm). simpl.
  destruct (Msg_Nil m); [|done]. unfold crypto_of. rewrite Hcr, Ha. simpl.
  unfold messageWithHeader. rewrite (messageHeader_eval _ _ (good_nonce _ Hg)).
  destruct (prep_spec _ Hg) as (HP & _ & _). unfold full in HP. cbn [mbind outcome_bind].
  rewrite HP. simpl.
  rewrite (proj2 (Z.leb_le _ _) (good_size _ Hg)), assertf_true. done.
Qed.

Lemma encrypt_others_eval key ms : ∀ i,
  encrypt_others ri key me i ms =
  Ret (imap (fun j m => if decide (i + j = me) then m else Encrypt c key m) ms).
Proof.
  induction ms as [|m ms IH]; intros i; [done|]. simpl. rewrite IH. unfold crypto_of. rewrite Hcr.
  rewrite Nat.add_0_r. case_bool_decide; simpl; rewrite ?decide_True, ?decide_False by done;
    rewrite ?Msg_DeepCopy_id; f_equal; f_equal; apply imap_ext; intros j m' _; simpl;
    by rewrite Nat.add_succ_r.
Qed.

Lemma encrypt_eval key (b : bool) :
  Encrypted ri !! me = Some b →
  encrypt Id R ri me key = Ret (if b then None else
    Some (EncryptedOp Id R
      (imap (fun j m => if decide (j = me) then m else Encrypt c key m) (Messages ri))
      (Z.of_nat (numEncrypted ri)))).
Proof.
  intros Hb. unfold encrypt. rewrite (proj2 (slice_get_ret _ _ _) Hb). simpl.
  destruct b; simpl; [done|]. by rewrite encrypt_others_eval.
Qed.

Lemma scramble_eval k1 k2 draws (b : bool) :
  Scrambled ri !! me = Some b →
  ∃ ms, scramble Id R ri me k1 k2 draws = Ret (if b then None else Some (ScrambledOp Id R ms)) ∧
    ms ≡ₚ map (fun m => Encrypt c k2 (Encrypt c k1 m)) (Messages ri).
Proof.
  intros Hb. unfold scramble. rewrite (proj2 (slice_get_ret _ _ _) Hb). simpl.
  destruct (rand_Shuffle_perm draws (map (fun m => Encrypt c k2 (Encrypt c k1 m)) (Messages ri)))
    as (ms & Hs & Hp). exists ms. split; [|done].
  destruct b; simpl; [done|]. unfold crypto_of. rewrite Hcr. simpl.
  rewrite (map_outcome_ret _ (fun m => Encrypt c k2 (Encrypt c k1 m))).
  - simpl. by rewrite Hs.
  - by apply Forall_forall.
Qed.

Lemma decrypt_eval k1 k2 (b : bool) :
  Decrypted ri !! me = Some b →
  decrypt Id R ri me k1 k2 = Ret (if b then None else
    Some (DecryptedOp Id R (map (fun m => Decrypt c k2 (Decrypt c k1 m)) (Messages ri))
      (Z.of_nat (numDecrypted ri)))).
Proof.
  intros Hb. unfold decrypt. rewrite (proj2 (slice_get_ret _ _ _) Hb). simpl.
  destruct b; simpl; [done|]. unfold crypto_of. rewrite Hcr. simpl.
  rewrite (map_outcome_ret _ (fun m => Decrypt c k2 (Decrypt c k1 m))); [done|].
  by apply Forall_forall.
Qed.

End evaluation.

Lemma reveal_eval ri R Id me k k0 :
  RevealedKeys ri !! me = Some k0 →
  client_reveal Id R ri me k = Ret (if PrivateKey_Nil k0 then Some (RevealOp Id R k) else None).
Proof.
  intros Hk. unfold client_reveal. rewrite (proj2 (slice_get_ret _ _ _) Hk). simpl.
  by destruct (PrivateKey_Nil k0).
Qed.

(** ** Snapshots *)

(** A snapshot [ri0] taken before the round reached [ri]. *)
Record before ri0 ri : Prop := {
  bf_phase : (phaseOrder (phase ri0) ≤ phaseOrder (phase ri))%Z;
  bf_parts : phase ri0 ≠ PreparePhase → Participants ri = Participants ri0;
  bf_enc : ∀ p, Encrypted ri0 !! p = Some true → Encrypted ri !! p = Some true;
  bf_dec : ∀ p, Decrypted ri0 !! p = Some true → Decrypted ri !! p = Some true;
  bf_hashes : carrying (phase ri0) → RevealKeyHashes ri = RevealKeyHashes ri0;
  bf_messages : phase ri0 = RevealPhase → Messages ri = Messages ri0
}.

Lemma before_refl ri : before ri ri.
Proof. by split. Qed.

Lemma advance_fields b next ri :
  Participants (advance b next ri) = Participants ri ∧
  Messages (advance b next ri) = Messages ri ∧
  Encrypted (advance b next ri) = Encrypted ri ∧
  Scrambled (advance b next ri) = Scrambled ri ∧
  Decrypted (advance b next ri) = Decrypted ri ∧
  RevealedKeys (advance b next ri) = RevealedKeys ri ∧
  RevealKeyHashes (advance b next ri) = RevealKeyHashes ri ∧
  Crypto (advance b next ri) = Crypto ri.
Proof. by destruct b. Qed.

Lemma insert_flag_mono (fl : list bool) p q :
  fl !! q = Some true → <[p:=true]> fl !! q = Some true.
Proof.
  intros Hq. destruct (decide (p = q)) as [->|].
  - apply list_lookup_insert_eq. by eapply lookup_lt_Some.
  - by rewrite list_lookup_insert_ne.
Qed.

Lemma before_step ri0 ri op ri' fin :
  active (phase ri0) → round_step ri op ri' fin → before ri0 ri → before ri0 ri'.
Proof.
  intros (Ha & _) Hst [B1 B2 B3 B4 B5 B6].
  pose proof (round_step_phase _ _ _ _ Hst) as Hph. split; [lia|..]; clear Hph.
  all: assert (∀ p, phase ri = p → (phaseOrder (phase ri0) ≤ phaseOrder p)%Z) as Hle by (by intros ? <-).
  all: destruct Hst as [Id R Hp Hn|Id R cr Hp|Id R m h p ri1 Hp Hx ->|Id R ms prev p ri1 Hp Hx Hv Hf ->
    |Id R ms p ri1 Hp Hx Hv Hf ->|Id R ms prev p ri1 Hp Hx Hv Hf ->|Id R k p ri1 Hp Hx ->|R].
  all: try (specialize (Hle _ Hp); simpl in Hle).
  all: rewrite ?(proj1 (advance_fields _ _ _)).
  all: try match goal with |- context [advance ?b ?n ?r] =>
    destruct (advance_fields b n r) as (E1 & E2 & E3 & E4 & E5 & E6 & E7 & E8);
    rewrite ?E1, ?E2, ?E3, ?E4, ?E5, ?E6, ?E7, ?E8 end.
  all: simpl; auto using insert_flag_mono, lookup_app_l_Some.
  all: unfold carrying; intros Hq; destruct (phase ri0); simpl in *;
    try done; try lia; try (by intuition).
Qed.

(** ** Changing layers *)

Lemma relayer (f : Msg → Msg) ri ks ks' ms :
  Forall good (parts ri) → carried ri ks → ms ≡ₚ map f (Messages ri) →
  (∀ x, good x → f (layers c ks (prep x)) = layers c ks' (prep x)) →
  ms ≡ₚ map (fun x => layers c ks' (prep x)) (parts ri).
Proof.
  intros Hg Hcar Hms Hf. unfold carried in Hcar. rewrite Hms, Hcar, map_map.
  erewrite map_ext_in; [done|]. intros x Hx. apply Hf.
  rewrite Forall_forall in Hg. by apply Hg, list_elem_of_In.
Qed.

Lemma carried_perm ri ks ks' :
  Forall good (parts ri) → Forall (key_ok c) ks → ks ≡ₚ ks' → carried ri ks → carried ri ks'.
Proof.
  intros Hg Hks Hp Hcar. apply (relayer id ri ks); try done; [by rewrite map_id|].
  intros x Hx. by apply layers_perm, prep_carries.
Qed.

Lemma flags_eq (l k : list bool) :
  length l = length k → (∀ p, l !! p = Some true → k !! p = Some true) →
  count_true l = count_true k → l = k.
Proof.
  revert k. induction l as [|b l IH]; intros [|b' k] Hl Hm Hcnt; simplify_eq/=; [done|].
  assert (∀ p, l !! p = Some true → k !! p = Some true) as Hm' by (intros p; apply (Hm (S p))).
  assert (count_true l ≤ count_true k) as Hle.
  { clear -Hm' Hl. revert k Hl Hm'. induction l as [|a l IH]; intros [|a' k] Hl Hm; simplify_eq/=; [lia|].
    specialize (IH k Hl (fun p => Hm (S p))). specialize (Hm 0). destruct a, a'; simpl in *; try lia.
    by specialize (Hm eq_refl). }
  specialize (Hm 0). destruct b, b'; simpl in *; try lia.
  - f_equal. apply IH; auto.
  - by specialize (Hm eq_refl).
  - f_equal. apply IH; auto.
Qed.

Lemma map_negb_insert (fl : list bool) p :
  map negb (<[p:=true]> fl) = <[p:=false]> (map negb fl).
Proof. revert p. induction fl as [|b fl IH]; intros [|p]; simpl; [done..|]. by rewrite IH. Qed.

Lemma map_negb_none fl : none_set fl → all_set (map negb fl).
Proof. intros Hf. apply Forall_map. eapply Forall_impl; [exact Hf|]. by intros ? ->. Qed.

Lemma map_negb_all fl : all_set fl → none_set (map negb fl).
Proof. intros Hf. apply Forall_map. eapply Forall_impl; [exact Hf|]. by intros ? ->. Qed.

(** ** Every step keeps the payload *)

Lemma payload_join Id ri :
  ri_inv ri → payload ri → phase ri = PreparePhase → good (who Id) → payload (add_participant Id ri).
Proof.
  intros Hi [Hg Hp] Hph HId. rewrite Hph in Hp. unfold payload. simpl. rewrite Hph.
  split; [|apply Forall_app; by repeat constructor].
  unfold parts. simpl. rewrite map_app. apply Forall_app. split; [done|]. by apply Forall_singleton.
Qed.

Lemma payload_start ri :
  ri_inv ri → payload ri → phase ri = PreparePhase →
  payload (set_Crypto (Some c) (set_phase SubmitPhase ri)).
Proof.
  intros Hi [Hg Hp] Hph. rewrite Hph in Hp. split; [done|]. simpl. split; [done|].
  pose proof (inv_flags _ Hi) as Hf. unfold phase_flags in Hf. rewrite Hph in Hf.
  destruct Hf as (_ & _ & _ & _ & _ & Hm).
  intros p x m h _ Hlm Hlh. left. rewrite Forall_lookup in Hm. simpl in Hp.
  rewrite Forall_lookup in Hp. eauto.
Qed.

Lemma payload_submitted ri :
  ri_inv ri → phase ri = SubmitPhase → payload ri → all_submitted ri = true →
  payload (set_phase EncryptPhase ri).
Proof.
  intros Hi Hph [Hg Hp] Hall. rewrite Hph in Hp. destruct Hp as [Hcr Hp].
  pose proof (inv_flags _ Hi) as Hf. unfold phase_flags in Hf. rewrite Hph in Hf.
  destruct Hf as (He & _). specialize (He eq_refl).
  pose proof (inv_messages _ Hi (or_intror Hph)) as Hlm.
  unfold all_submitted in Hall. apply negb_true_iff, existsb_nil_false in Hall.
  assert (∀ p x, parts ri !! p = Some x →
    Messages ri !! p = Some (Encrypt c (ek x) (prep x)) ∧
    RevealKeyHashes ri !! p = Some (Hash (rk x))) as Hsub.
  { intros p x Hx. pose proof (lookup_lt_Some _ _ _ Hx) as Hlt. rewrite parts_length in Hlt.
    destruct (lookup_lt_is_Some_2 (Messages ri) p) as [m Hm]; [by rewrite Hlm|].
    destruct (lookup_lt_is_Some_2 (RevealKeyHashes ri) p) as [h Hh]; [by rewrite (inv_hashes _ Hi)|].
    destruct (Hp _ _ _ _ Hx Hm Hh) as [[-> _]|[-> ->]]; [|done].
    rewrite Forall_lookup in Hall. by specialize (Hall _ _ Hm). }
  split; [done|]. simpl. split_and!; [done| |].
  - apply (list_eq_same_length _ _ (length (Participants ri)));
      [by rewrite length_keys|exact (inv_hashes _ Hi)|].
    intros p h h' _ Hh. rewrite list_lookup_fmap. simpl.
    change (parts (set_phase EncryptPhase ri)) with (parts ri).
    intros (x & Hx & ->)%fmap_Some. destruct (Hsub _ _ Hx) as [_ E]. simpl in *. congruence.
  - apply (list_eq_same_length _ _ (length (Participants ri)));
      [by rewrite length_imap, parts_length|done|].
    intros p m m' _ Hm. rewrite list_lookup_imap.
    change (parts (set_phase EncryptPhase ri)) with (parts ri).
    intros (x & Hx & ->)%fmap_Some. destruct (Hsub _ _ Hx) as [E _]. simpl in *.
    assert (m = Encrypt c (ek x) (prep x)) as -> by congruence.
    pose proof (lookup_lt_Some _ _ _ Hx) as Hlt. rewrite parts_length in Hlt.
    assert (Encrypted ri !! p = Some false) as Hfp.
    { destruct (lookup_lt_is_Some_2 (Encrypted ri) p) as [b Hb]; [by rewrite (inv_encrypted _ Hi)|].
      unfold none_set in He. rewrite Forall_lookup in He. by rewrite (He _ _ Hb) in Hb. }
    assert (eks ri !! p = Some (ek x)) as Hek by (unfold eks; by rewrite list_lookup_fmap, Hx).
    rewrite Forall_lookup in Hg. pose proof (Hg _ _ Hx) as Hgx.
    change (eks (set_phase EncryptPhase ri)) with (eks ri).
    rewrite (layers_perm c Hc _ [ek x]); [done| | |by apply prep_carries].
    + rewrite (chosen_insert _ _ _ _ Hfp Hek), chosen_none by done. done.
    + apply Forall_chosen, eks_ok. by apply Forall_lookup.
Qed.

Lemma payload_message p Id ri :
  ri_inv ri → payload ri → phase ri = SubmitPhase → Participants ri !! p = Some Id →
  payload (put_message p (Encrypt c (ek (who Id)) (prep (who Id))) (Hash (rk (who Id))) ri).
Proof.
  intros Hi [Hg Hp] Hph Hx. rewrite Hph in Hp. destruct Hp as [Hcr Hp].
  split; [done|]. simpl. rewrite Hph. split; [done|]. intros q y m h Hy.
  change (parts (put_message p ?m ?h ri)) with (parts ri) in Hy.
  destruct (decide (p = q)) as [<-|Hne].
  - intros Hm Hh. right. rewrite (parts_lookup _ _ _ Hx) in Hy. injection Hy as <-.
    pose proof (lookup_lt_Some _ _ _ Hx) as Hlt.
    rewrite list_lookup_insert_eq in Hm by (rewrite inv_messages; auto).
    rewrite list_lookup_insert_eq in Hh by (rewrite inv_hashes; auto).
    split; congruence.
  - rewrite !list_lookup_insert_ne by done. by apply Hp.
Qed.

(** The messages after participant [p] has added its layer to all but its own. *)
Lemma encrypt_layers p Id ri :
  Forall good (parts ri) → length (Encrypted ri) = length (Participants ri) →
  Participants ri !! p = Some Id → Encrypted ri !! p = Some false →
  imap (fun j m => if decide (j = p) then m else Encrypt c (ek (who Id)) m)
    (imap (fun q x => layers c (chosen (<[q:=true]> (Encrypted ri)) (eks ri)) (prep x)) (parts ri)) =
  imap (fun q x => layers c (chosen (<[q:=true]> (<[p:=true]> (Encrypted ri))) (eks ri)) (prep x))
    (parts ri).
Proof.
  intros Hg Hl Hx Hf. apply list_eq. intros q. rewrite !list_lookup_imap.
  destruct (parts ri !! q) as [y|] eqn:Hy; simpl; [f_equal|done].
  destruct (decide (q = p)) as [->|Hne]; [by rewrite list_insert_insert_eq|].
  rewrite list_insert_insert_ne by done. apply add_layer; [done| | |].
  - apply chosen_insert; [by rewrite list_lookup_insert_ne|]. by apply key_lookup.
  - by apply Forall_chosen, eks_ok.
  - rewrite Forall_lookup in Hg. by eapply prep_carries, Hg.
Qed.

Lemma payload_encrypted p Id ri ms :
  ri_inv ri → payload ri → phase ri = EncryptPhase → Participants ri !! p = Some Id →
  Encrypted ri !! p = Some false →
  ms = imap (fun j m => if decide (j = p) then m else Encrypt c (ek (who Id)) m) (Messages ri) →
  payload (advance (all_encrypted (mark_encrypted p ms ri)) ScramblePhase (mark_encrypted p ms ri)).
Proof.
  intros Hi [Hg Hp] Hph Hx Hf ->. rewrite Hph in Hp. destruct Hp as (Hcr & Hh & HM).
  rewrite HM, encrypt_layers by (done || apply (inv_encrypted _ Hi)).
  set (fl := <[p:=true]> (Encrypted ri)).
  destruct (advance_cases (all_encrypted (mark_encrypted p
    (imap (fun q x => layers c (chosen (<[q:=true]> fl) (eks ri)) (prep x)) (parts ri)) ri))
    ScramblePhase (mark_encrypted p
    (imap (fun q x => layers c (chosen (<[q:=true]> fl) (eks ri)) (prep x)) (parts ri)) ri))
    as [[Hall ->]|[_ ->]]; (split; [done|]); simpl; rewrite ?Hph.
  - split_and!; try done. apply bool_decide_eq_true, all_set_count in Hall. simpl in Hall.
    pose proof (inv_flags _ Hi) as Hfl. unfold phase_flags in Hfl. rewrite Hph in Hfl.
    destruct Hfl as (_ & Hsc & _). unfold carried. simpl.
    rewrite !(chosen_none (Scrambled ri)) by done. simpl.
    apply Permutation_refl'. rewrite (imap_ext _ (fun _ x => layers c (eks ri) (prep x))).
    + apply (imap_const (fun x => layers c (eks ri) (prep x))).
    + intros q y Hy. f_equal. rewrite chosen_all; [done| |].
      * by apply Forall_insert.
      * unfold fl, eks. rewrite !length_insert, length_keys. by apply inv_encrypted.
  - by split_and!.
Qed.

Lemma payload_scrambled p Id ri ms :
  ri_inv ri → payload ri → phase ri = ScramblePhase → Participants ri !! p = Some Id →
  Scrambled ri !! p = Some false →
  ms ≡ₚ map (fun m => Encrypt c (rk (who Id)) (Encrypt c (sk (who Id)) m)) (Messages ri) →
  payload (advance (all_scrambled (mark_scrambled p ms ri)) DecryptPhase (mark_scrambled p ms ri)).
Proof.
  intros Hi [Hg Hp] Hph Hx Hf Hms. rewrite Hph in Hp. destruct Hp as (Hcr & Hh & HM).
  set (fl := <[p:=true]> (Scrambled ri)).
  assert (Forall (key_ok c) (chosen fl (sks ri) ++ chosen fl (rks ri) ++ eks ri)) as Hok.
  { repeat apply Forall_app_2; auto using Forall_chosen, eks_ok, sks_ok, rks_ok. }
  assert (ms ≡ₚ map (fun x => layers c (chosen fl (sks ri) ++ chosen fl (rks ri) ++ eks ri) (prep x))
    (parts ri)) as HM'.
  { eapply relayer; [done|exact HM|exact Hms|]. intros x Hgx. cbn beta.
    assert (chosen fl (sks ri) ++ chosen fl (rks ri) ++ eks ri ≡ₚ rk (who Id) :: sk (who Id) ::
      chosen (Scrambled ri) (sks ri) ++ chosen (Scrambled ri) (rks ri) ++ eks ri) as Hperm.
    { unfold fl, sks, rks. rewrite (chosen_insert _ _ _ _ Hf (key_lookup sk _ _ _ Hx)).
      rewrite (chosen_insert _ _ _ _ Hf (key_lookup rk _ _ _ Hx)). solve_Permutation. }
    assert (Forall (key_ok c) (rk (who Id) :: sk (who Id) ::
      chosen (Scrambled ri) (sks ri) ++ chosen (Scrambled ri) (rks ri) ++ eks ri)) as Hok'
      by (by rewrite <- Hperm).
    apply Forall_cons in Hok' as [_ Hok'].
    erewrite (add_layer c Hc (sk (who Id))); [|reflexivity|exact Hok'|by apply prep_carries].
    by apply add_layer; [|exact Hperm| |apply prep_carries]. }
  destruct (advance_cases (all_scrambled (mark_scrambled p ms ri)) DecryptPhase
    (mark_scrambled p ms ri)) as [[Hall ->]|[_ ->]]; (split; [done|]); simpl; rewrite ?Hph;
    split_and!; try done.
  apply bool_decide_eq_true, all_set_count in Hall. simpl in Hall. fold fl in Hall.
  pose proof (inv_flags _ Hi) as Hfl. unfold phase_flags in Hfl. rewrite Hph in Hfl.
  destruct Hfl as (_ & Hde & _). apply map_negb_none in Hde.
  assert (length fl = length (Participants ri)) as Hlen
    by (unfold fl; rewrite length_insert; by apply inv_scrambled).
  assert (length (map negb (Decrypted ri)) = length (Participants ri)) as Hlen'
    by (rewrite length_map; by apply inv_decrypted).
  change (carried (set_phase DecryptPhase (mark_scrambled p ms ri))
    (chosen (map negb (Decrypted ri)) (sks ri) ++ chosen (map negb (Decrypted ri)) (eks ri) ++ rks ri)).
  eapply carried_perm; [done|exact Hok| |exact HM'].
  rewrite !(chosen_all fl), !(chosen_all (map negb (Decrypted ri))) by
    (done || by (etransitivity; [eassumption|]; symmetry; apply length_keys)).
  solve_Permutation.
Qed.

Lemma decrypt_perm (ks1 ks2 rest : list PrivateKey) fl p k1 k2 :
  fl !! p = Some false → ks1 !! p = Some k1 → ks2 !! p = Some k2 →
  chosen (map negb fl) ks1 ++ chosen (map negb fl) ks2 ++ rest ≡ₚ
  k1 :: k2 :: chosen (map negb (<[p:=true]> fl)) ks1 ++ chosen (map negb (<[p:=true]> fl)) ks2 ++ rest.
Proof.
  intros Hf Hk1 Hk2. rewrite map_negb_insert.
  assert (map negb fl !! p = Some true) as Hn by (by rewrite list_lookup_fmap, Hf).
  rewrite (chosen_clear _ _ _ _ Hn Hk1), (chosen_clear _ _ _ _ Hn Hk2). solve_Permutation.
Qed.

Lemma payload_decrypted p Id ri ms :
  ri_inv ri → payload ri → phase ri = DecryptPhase → Participants ri !! p = Some Id →
  Decrypted ri !! p = Some false →
  ms ≡ₚ map (fun m => Decrypt c (ek (who Id)) (Decrypt c (sk (who Id)) m)) (Messages ri) →
  payload (advance (all_decrypted (mark_decrypted p ms ri)) RevealPhase (mark_decrypted p ms ri)).
Proof.
  intros Hi [Hg Hp] Hph Hx Hf Hms. rewrite Hph in Hp. destruct Hp as (Hcr & Hh & HM).
  set (fl := <[p:=true]> (Decrypted ri)).
  pose proof (decrypt_perm _ _ (rks ri) _ _ _ _ Hf (key_lookup sk _ _ _ Hx) (key_lookup ek _ _ _ Hx))
    as Hperm. fold fl (sks ri) (eks ri) in Hperm.
  assert (Forall (key_ok c) (chosen (map negb (Decrypted ri)) (sks ri)
    ++ chosen (map negb (Decrypted ri)) (eks ri) ++ rks ri)) as Hok.
  { repeat apply Forall_app_2; auto using Forall_chosen, eks_ok, sks_ok, rks_ok. }
  assert (ms ≡ₚ map (fun x => layers c (chosen (map negb fl) (sks ri) ++
    chosen (map negb fl) (eks ri) ++ rks ri) (prep x)) (parts ri)) as HM'.
  { eapply relayer; [done|exact HM|exact Hms|]. intros x Hgx. cbn beta.
    rewrite (remove_layer c Hc _ _ _ _ Hperm Hok) by by apply prep_carries.
    rewrite Hperm in Hok. apply Forall_cons in Hok as [_ Hok].
    by apply remove_layer; [| |exact Hok|apply prep_carries]. }
  destruct (advance_cases (all_decrypted (mark_decrypted p ms ri)) RevealPhase
    (mark_decrypted p ms ri)) as [[Hall ->]|[_ ->]]; (split; [done|]); simpl; rewrite ?Hph;
    split_and!; try done.
  - apply bool_decide_eq_true, all_set_count in Hall. simpl in Hall. fold fl in Hall.
    apply map_negb_all in Hall. unfold carried. simpl.
    rewrite !(chosen_none (map negb fl)) in HM' by done. exact HM'.
  - pose proof (inv_flags _ Hi) as Hfl. unfold phase_flags in Hfl. rewrite Hph in Hfl.
    destruct Hfl as (_ & _ & Hk). unfold no_keys in Hk.
    apply Forall2_same_length_lookup_2.
    + transitivity (length (Participants ri));
        [exact (parts_length ri)|symmetry; exact (inv_keys _ Hi)].
    + intros i x k _ Hik. left. rewrite Forall_lookup in Hk. by eapply Hk.
Qed.

Lemma payload_revealed p Id ri :
  ri_inv ri → payload ri → phase ri = RevealPhase → Participants ri !! p = Some Id →
  payload (advance (all_revealed (put_key p (rk (who Id)) ri)) DonePhase
    (put_key p (rk (who Id)) ri)).
Proof.
  intros Hi [Hg Hp] Hph Hx. rewrite Hph in Hp. destruct Hp as (Hcr & Hh & HM & Hk).
  assert (Forall2 (fun x k => k = NilPrivateKey ∨ k = rk x) (parts ri)
    (<[p:=rk (who Id)]> (RevealedKeys ri))) as Hk'.
  { rewrite <- (list_insert_id (parts ri) p (who Id)) by by apply parts_lookup.
    apply Forall2_insert; auto. }
  destruct (advance_cases (all_revealed (put_key p (rk (who Id)) ri)) DonePhase
    (put_key p (rk (who Id)) ri)) as [[Hall ->]|[_ ->]]; (split; [done|]); simpl; rewrite ?Hph;
    split_and!; try done.
  apply negb_true_iff, existsb_keys_false in Hall. simpl in Hall.
  unfold rks. change (parts (set_phase DonePhase ?r)) with (parts ri).
  clear -Hk' Hall. revert Hk' Hall. generalize (<[p:=rk (who Id)]> (RevealedKeys ri)) as ks.
  generalize (parts ri) as ps. clear. induction 1 as [|x k ps ks Hxk Hps IH]; [done|].
  intros [Hk Hks]%Forall_cons. simpl. destruct Hxk as [->| ->]; [done|]. by rewrite IH.
Qed.

Lemma payload_abort ri : payload ri → payload (set_phase FailedPhase ri).
Proof. by intros [Hg _]. Qed.

(** ** Stale snapshots *)

(** A snapshot that agrees with the round on the count the operation tests for
    agrees with it on the flags. *)
Lemma same_encrypted ri0 ri :
  ri_inv ri0 → ri_inv ri → before ri0 ri → phase ri0 = EncryptPhase →
  numEncrypted ri0 = numEncrypted ri → Encrypted ri0 = Encrypted ri.
Proof.
  intros Hi0 Hi Hb Hph Hn. apply flags_eq; [|by apply bf_enc|done].
  rewrite (inv_encrypted _ Hi0), (inv_encrypted _ Hi), (bf_parts _ _ Hb); congruence.
Qed.

Lemma same_decrypted ri0 ri :
  ri_inv ri0 → ri_inv ri → before ri0 ri → phase ri0 = DecryptPhase →
  numDecrypted ri0 = numDecrypted ri → Decrypted ri0 = Decrypted ri.
Proof.
  intros Hi0 Hi Hb Hph Hn. apply flags_eq; [|by apply bf_dec|done].
  rewrite (inv_decrypted _ Hi0), (inv_decrypted _ Hi), (bf_parts _ _ Hb); congruence.
Qed.

Lemma same_scrambled ri0 ri :
  ri_inv ri0 → ri_inv ri → before ri0 ri → phase ri0 = ScramblePhase →
  numScrambled ri0 = numScrambled ri → Scrambled ri0 = Scrambled ri.
Proof.
  intros Hi0 Hi Hb Hph Hn. rewrite (inv_in_order _ Hi0), (inv_in_order _ Hi), Hn.
  rewrite (bf_parts _ _ Hb); congruence.
Qed.

(** ** Honest steps *)

Section step.
Context (R : Z) ri0 ri ri' (fin : bool).
Context (Hi0 : ri_inv ri0) (Hi : ri_inv ri) (Hp0 : payload ri0) (Hp : payload ri)
  (Hb : before ri0 ri).

(** The participant named in the snapshot is the one the rule finds. *)
Lemma same_position Id me p :
  phase ri0 ≠ PreparePhase → whereAmI Id ri0 = Some me → Participants ri !! p = Some Id → me = p.
Proof.
  intros Hph Hme Hx. apply whereAmI_Some in Hme. rewrite <- (bf_parts _ _ Hb) in Hme by done.
  eapply NoDup_lookup; [apply Hi|done|done].
Qed.

Lemma same_parts : phase ri0 ≠ PreparePhase → parts ri = parts ri0.
Proof. intros Hph. unfold parts. by rewrite (bf_parts _ _ Hb). Qed.

Lemma snapshot_good Id p : Participants ri !! p = Some Id → good (who Id).
Proof.
  intros Hx. destruct Hp as [Hg _]. rewrite Forall_lookup in Hg. by eapply Hg, parts_lookup.
Qed.

Lemma step_message_payload Id me answer r2 op :
  phase ri0 = SubmitPhase → whereAmI Id ri0 = Some me → default [] answer = plain (who Id) →
  submit debug Id MessageSize R ri0 me (ek (who Id)) (rk (who Id)) answer (nonce (who Id)) r2
    = Ret (Some op) → round_step ri op ri' fin → payload ri'.
Proof.
  intros Hph Hme Ha Hs Hst. pose proof (whereAmI_Some _ _ _ Hme) as Hx0.
  destruct Hp0 as [Hg0 Hpl0]. rewrite Hph in Hpl0. destruct Hpl0 as [Hcr0 _].
  assert (good (who Id)) as Hgood by (rewrite Forall_lookup in Hg0; by eapply Hg0, parts_lookup).
  destruct (lookup_lt_is_Some_2 (Messages ri0) me) as [m Hm].
  { rewrite (inv_messages _ Hi0) by auto. by eapply lookup_lt_Some. }
  rewrite (submit_eval ri0 Hcr0 R Id me m answer r2 Hgood Hm Ha) in Hs.
  destruct (Msg_Nil m); [|done]. injection Hs as <-.
  inversion Hst as [| |? ? ? ? p ? Hph' Hx ? HE| | | | |]; subst.
  destruct (advance_cases (all_submitted (put_message p (Encrypt c (ek (who Id)) (prep (who Id)))
    (Hash (rk (who Id))) ri)) EncryptPhase (put_message p (Encrypt c (ek (who Id)) (prep (who Id)))
    (Hash (rk (who Id))) ri)) as [[Hall ->]|[_ ->]]; [|by apply payload_message].
  apply payload_submitted; try done; [|by apply payload_message].
  pose proof (message_inv p (Encrypt c (ek (who Id)) (prep (who Id))) (Hash (rk (who Id))) ri _
    Hi Hph' eq_refl) as Hinv.
  apply (ri_inv_update ri); simpl; rewrite ?length_insert; try done.
  - intros _. apply inv_messages; auto.
  - pose proof (inv_flags _ Hi) as Hf. unfold phase_flags in *. simpl. by rewrite Hph' in *.
Qed.

Lemma step_encrypt_payload Id me op :
  phase ri0 = EncryptPhase → whereAmI Id ri0 = Some me →
  encrypt Id R ri0 me (ek (who Id)) = Ret (Some op) → round_step ri op ri' fin → payload ri'.
Proof.
  intros Hph Hme Hs Hst. pose proof (whereAmI_Some _ _ _ Hme) as Hx0.
  destruct Hp0 as [Hg0 Hpl0]. rewrite Hph in Hpl0. destruct Hpl0 as (Hcr0 & Hh0 & HM0).
  destruct (lookup_lt_is_Some_2 (Encrypted ri0) me) as [b Hf0].
  { rewrite (inv_encrypted _ Hi0). by eapply lookup_lt_Some. }
  rewrite (encrypt_eval ri0 Hcr0 R Id me _ b Hf0) in Hs. destruct b; [done|]. injection Hs as <-.
  inversion Hst as [| | |? ? ? ? p ? Hph' Hx Hprev Hf ? HE| | | |]; subst.
  assert (me = p) as -> by (eapply same_position; [congruence|done|done]).
  assert (Encrypted ri0 = Encrypted ri) as Hfl by (apply same_encrypted; (done || lia)).
  apply (payload_encrypted p Id); try done.
  pose proof Hp as [_ Hpl]. rewrite Hph' in Hpl. destruct Hpl as (_ & _ & HM).
  unfold eks in *. rewrite HM0, HM, Hfl, same_parts by congruence. done.
Qed.

Lemma step_scramble_payload Id me draws op :
  phase ri0 = ScramblePhase → whereAmI Id ri0 = Some me → me = numScrambled ri0 →
  scramble Id R ri0 me (sk (who Id)) (rk (who Id)) draws = Ret (Some op) →
  round_step ri op ri' fin → payload ri'.
Proof.
  intros Hph Hme Hturn Hs Hst. pose proof (whereAmI_Some _ _ _ Hme) as Hx0.
  destruct Hp0 as [Hg0 Hpl0]. rewrite Hph in Hpl0. destruct Hpl0 as (Hcr0 & Hh0 & HM0).
  destruct (lookup_lt_is_Some_2 (Scrambled ri0) me) as [b Hf0].
  { rewrite (inv_scrambled _ Hi0). by eapply lookup_lt_Some. }
  destruct (scramble_eval ri0 Hcr0 R Id me (sk (who Id)) (rk (who Id)) draws b Hf0) as (ms & E & Hms).
  rewrite E in Hs. destruct b; [done|]. injection Hs as <-.
  subst me. inversion Hst as [| | | |? ? ? p ? Hph' Hx Hprev Hf ? HE| | |]; subst.
  assert (numScrambled ri0 = numScrambled ri)
    by (eapply same_position; [congruence|done|done]).
  assert (Scrambled ri0 = Scrambled ri) as Hfl by (apply same_scrambled; (done || congruence)).
  apply (payload_scrambled _ Id); try done.
  pose proof Hp as [_ Hpl]. rewrite Hph' in Hpl. destruct Hpl as (_ & _ & HM).
  unfold carried, sks, rks, eks in *. rewrite Hms, HM, HM0, Hfl, same_parts by congruence. done.
Qed.

Lemma step_decrypt_payload Id me op :
  phase ri0 = DecryptPhase → whereAmI Id ri0 = Some me →
  decrypt Id R ri0 me (sk (who Id)) (ek (who Id)) = Ret (Some op) →
  round_step ri op ri' fin → payload ri'.
Proof.
  intros Hph Hme Hs Hst. pose proof (whereAmI_Some _ _ _ Hme) as Hx0.
  destruct Hp0 as [Hg0 Hpl0]. rewrite Hph in Hpl0. destruct Hpl0 as (Hcr0 & Hh0 & HM0).
  destruct (lookup_lt_is_Some_2 (Decrypted ri0) me) as [b Hf0].
  { rewrite (inv_decrypted _ Hi0). by eapply lookup_lt_Some. }
  rewrite (decrypt_eval ri0 Hcr0 R Id me _ _ b Hf0) in Hs. destruct b; [done|]. injection Hs as <-.
  inversion Hst as [| | | | |? ? ? ? p ? Hph' Hx Hprev Hf ? HE| |]; subst.
  assert (me = p) as -> by (eapply same_position; [congruence|done|done]).
  assert (Decrypted ri0 = Decrypted ri) as Hfl by (apply same_decrypted; (done || lia)).
  apply (payload_decrypted p Id); try done.
  pose proof Hp as [_ Hpl]. rewrite Hph' in Hpl. destruct Hpl as (_ & _ & HM).
  unfold carried, sks, rks, eks in *. rewrite HM, HM0, Hfl, same_parts by congruence. done.
Qed.

Lemma step_reveal_payload Id me op :
  phase ri0 = RevealPhase → whereAmI Id ri0 = Some me →
  client_reveal Id R ri0 me (rk (who Id)) = Ret (Some op) →
  round_step ri op ri' fin → payload ri'.
Proof.
  intros Hph Hme Hs Hst. pose proof (whereAmI_Some _ _ _ Hme) as Hx0.
  destruct (lookup_lt_is_Some_2 (RevealedKeys ri0) me) as [k Hk].
  { rewrite (inv_keys _ Hi0). by eapply lookup_lt_Some. }
  rewrite (reveal_eval ri0 R Id me (rk (who Id)) k Hk) in Hs.
  destruct (PrivateKey_Nil k); [|done]. injection Hs as <-.
  inversion Hst as [| | | | | |? ? ? p ? Hph' Hx ? HE|]; subst. by apply payload_revealed.
Qed.

Lemma payload_step op : honest_op R ri0 op → round_step ri op ri' fin → payload ri'.
Proof.
  intros Hop Hst. destruct Hop; eauto using step_message_payload, step_encrypt_payload,
    step_scramble_payload, step_decrypt_payload, step_reveal_payload.
  - unfold prepare in *. destruct (whereAmI Id ri0); simplify_eq.
    inversion Hst; subst. by apply payload_join.
  - inversion Hst; subst. by apply payload_start.
  - inversion Hst; subst. by apply payload_abort.
Qed.

End step.

(** ** Opening the messages of a finished round *)

Definition header x : list byte := replicate 8 Byte.x0d ++ nonce x.

Lemma remove_layers_eval ri hashes keys : ∀ i om,
  Crypto ri = Some c → (∀ j k, keys !! j = Some k → hashes !! (i + j) = Some (Hash k)) →
  remove_layers ri hashes i keys om = Ret (Some (foldl (fun m k => Decrypt c k m) om keys)).
Proof.
  induction keys as [|k keys IH]; intros i om Hcr Hh; [done|]. simpl.
  pose proof (Hh 0 k eq_refl) as Hk. rewrite Nat.add_0_r in Hk.
  rewrite (proj2 (slice_get_ret _ _ _) Hk). simpl.
  rewrite (proj2 (HashEquals_eq _ _) eq_refl). simpl. unfold crypto_of. rewrite Hcr. simpl.
  apply IH; [done|]. intros j k' Hj. specialize (Hh (S j) k' Hj). by rewrite Nat.add_succ_r in Hh.
Qed.

Lemma open_messages_eval ri hashes xs :
  Crypto ri = Some c → Forall good (parts ri) → RevealedKeys ri = rks ri →
  hashes = map (fun x => Hash (rk x)) (parts ri) → Forall good xs →
  open_messages ri hashes (map (fun x => layers c (rks ri) (prep x)) xs) = Ret (Some (map full xs)).
Proof.
  intros Hcr Hg Hk -> Hxs. induction Hxs as [|x xs Hx Hxs IH]; [done|]. simpl.
  rewrite remove_layers_eval; [simpl|done|].
  - rewrite Hk, remove_all_layers by (done || by apply rks_ok || by apply prep_carries).
    unfold crypto_of. rewrite Hcr. simpl. destruct (prep_spec x Hx) as (_ & _ & ->). simpl.
    by rewrite IH.
  - rewrite Hk. intros j k Hj. unfold rks in Hj. rewrite list_lookup_fmap in Hj.
    simpl. rewrite list_lookup_fmap. apply fmap_Some in Hj as (x' & -> & ->). done.
Qed.

Lemma header_length x : length (nonce x) = 8 → length (header x) = 16.
Proof. intros Hn. unfold header. by rewrite length_app, Hn. Qed.

Lemma check_headers_eval xs :
  Forall (fun x => length (nonce x) = 8) xs →
  check_headers debug (map full xs) =
  Ret (Some (map (fun x => (header x, plain x)) (filter (fun x => plain x ≠ []) xs))).
Proof.
  induction 1 as [|x xs Hx Hxs IH]; [done|]. cbn [map check_headers].
  pose proof (header_length x Hx) as Hl. change (full x) with (header x ++ plain x).
  unfold slice_to, messageHeaderLength.
  rewrite decide_True by (rewrite length_app; lia).
  rewrite take_app_length', drop_app_length' by done. cbn [mbind outcome_bind].
  assert (verifyHeader debug (header x) = Ret true) as ->.
  { unfold verifyHeader. rewrite bool_decide_true, assertf_true by done. done. }
  cbn [mbind outcome_bind negb]. rewrite IH. cbn [mbind outcome_bind].
  rewrite filter_cons, length_app, Hl.
  destruct (plain x) as [|b m] eqn:E.
  - rewrite bool_decide_false by (simpl; lia). rewrite decide_False by (by intros []). done.
  - rewrite bool_decide_true by (simpl; lia). rewrite decide_True by done. simpl. by rewrite E.
Qed.

Lemma same_header_eval h1 : ∀ pre h2 b,
  length h1 = length h2 →
  same_header (length pre) h1 (pre ++ h2) b = Ret (b && bool_decide (h1 = h2)).
Proof.
  induction h1 as [|x h1 IH]; intros pre [|y h2] b Hl; simplify_eq/=.
  - by rewrite andb_true_r.
  - unfold slice_get. rewrite list_lookup_middle by done. simpl.
    specialize (IH (pre ++ [y]) h2 (b && bool_decide (x = y)) Hl).
    rewrite length_app, Nat.add_1_r, <- app_assoc in IH. simpl in IH. rewrite IH.
    f_equal. rewrite <- andb_assoc. f_equal.
    destruct (decide (x = y)) as [->|Hne].
    + rewrite bool_decide_true by done. simpl. apply bool_decide_ext. split; congruence.
    + rewrite (bool_decide_false (x = y)) by done. simpl.
      symmetry. apply bool_decide_eq_false. by intros [= ? ?].
Qed.

Lemma headers_repeat_eval hs n :
  Forall (fun h => length h = n) hs → NoDup hs → headers_repeat debug hs = Ret false.
Proof.
  intros Hl Hn. induction Hn as [|h hs Hh Hn IH]; [done|]. apply Forall_cons in Hl as [Hlh Hl].
  simpl. assert (header_repeats debug h hs = Ret false) as ->; [|simpl; auto].
  clear IH Hn. induction Hl as [|h2 hs Hl2 Hl IH]; [done|]. simpl.
  rewrite bool_decide_true, assertf_true by congruence. simpl.
  pose proof (same_header_eval h [] h2 true ltac:(congruence)) as E. simpl in E.
  rewrite E. simpl.
  apply not_elem_of_cons in Hh as [Hne Hh]. rewrite bool_decide_false by done. by apply IH.
Qed.

Lemma messages_unchanged_refl ms : ∀ pre,
  messages_unchanged (length pre) ms (pre ++ ms) = Ret true.
Proof.
  induction ms as [|m ms IH]; intros pre; [done|]. simpl. unfold slice_get.
  rewrite list_lookup_middle by done. simpl. rewrite Msg_Equal_refl.
  specialize (IH (pre ++ [m])). by rewrite length_app, Nat.add_1_r, <- app_assoc in IH.
Qed.

(** The result of a finished round, for every participant. *)
Lemma result_eval Id sm R ri :
  sm_inv sm → (0 ≤ R)%Z → (Round sm = R + 1)%Z → Rounds sm !! slot R = Some ri →
  phase ri = DonePhase → payload ri → Id ∈ Participants ri → NoDup (map nonce (parts ri)) →
  ∃ msgs,
    sendRoundResult debug Id sm (R + 1) (RevealKeyHashes ri) R (Messages ri) (length (Participants ri))
      = Ret (Some (mkRoundResult R true msgs None)) ∧
    msgs ≡ₚ filter (fun m => m ≠ []) (map plain (parts ri)).
Proof.
  intros Hi HR0 HR Hl Hph [Hg Hp] HId Hnd. rewrite Hph in Hp. destruct Hp as (Hcr & Hh & HM & Hk).
  unfold carried in HM. apply Permutation_map_inv in HM as (xs & HM & Hxs).
  assert (Forall good xs) as Hgx by (by rewrite <- Hxs).
  exists (map plain (filter (fun x => plain x ≠ []) xs)). split.
  - unfold sendRoundResult. pose proof (inv_round _ Hi) as Hr. unfold int_max in Hr.
    replace (R + 1 - 1)%Z with R by lia. rewrite wrap64_id by (unfold int_min, int_max; lia).
    rewrite GetRoundInfo_window, !bool_decide_false by (done || lia).
    rewrite bool_decide_true, assertf_true, bind_ret by done.
    unfold load. rewrite (proj2 (slice_get_ret _ _ _) Hl). cbn [mbind outcome_bind].
    rewrite Hph, (bool_decide_true (DonePhase = DonePhase)), assertf_true by done.
    cbn [mbind outcome_bind orb].
    assert (existsb (fun p => bool_decide (p = Id)) (Participants ri) = true) as ->.
    { apply existsb_exists. exists Id. split; [by apply list_elem_of_In|].
      by apply bool_decide_eq_true. }
    cbn [negb]. rewrite (bool_decide_false (DonePhase = FailedPhase)) by done.
    rewrite Z.eqb_refl, assertf_true. cbn [mbind outcome_bind].
    rewrite bool_decide_false.
    2: { rewrite HM, length_map, <- Hxs, parts_length. by intros []. }
    pose proof (messages_unchanged_refl (Messages ri) []) as Hmu. simpl in Hmu. rewrite Hmu.
    cbn [mbind outcome_bind negb]. rewrite HM at 1. rewrite open_messages_eval by done.
    cbn [mbind outcome_bind]. rewrite check_headers_eval
      by (eapply Forall_impl; [exact Hgx|]; by intros ? []).
    cbn [mbind outcome_bind]. rewrite !map_map. cbn [fst snd].
    rewrite (headers_repeat_eval _ 16).
    + done.
    + apply Forall_map, Forall_forall. intros x [_ Hx]%list_elem_of_filter.
      rewrite Forall_forall in Hgx. apply header_length, good_nonce. by apply Hgx.
    + apply (NoDup_fmap_1 (drop 8)). rewrite <- list_fmap_compose.
      apply (sublist_NoDup _ (map nonce xs)); [by rewrite <- Hxs|].
      unfold compose. simpl. apply fmap_sublist, sublist_filter.
  - rewrite Hxs. clear. induction xs as [|x xs IH]; [done|]. simpl.
    rewrite !filter_cons. destruct (decide (plain x ≠ [])); simpl; by rewrite IH.
Qed.

(** ** Executions *)

(** Machine states of one round, newest first.  Every operation is computed
    from the current round of some earlier state of the execution. *)
Inductive honest_exec (R : Z) : list (StateMachine C) → Prop :=
| exec_init sm :
    sm_inv sm → Round sm = R → current sm = Some (set_phase PreparePhase zeroRoundInfo) →
    honest_exec R [sm]
| exec_step sm hist sm0 ri0 op b sm' :
    honest_exec R (sm :: hist) → Round sm = R → (R < int_max)%Z →
    sm0 ∈ sm :: hist → Round sm0 = R → current sm0 = Some ri0 → honest_op R ri0 op →
    Apply false op sm = Ret (b, sm') → honest_exec R (sm' :: sm :: hist).

(** What is known of the round [R] in a state that follows [hist]. *)
Record exec_inv (R : Z) sm (hist : list (StateMachine C)) ri : Prop := {
  ei_sm : sm_inv sm;
  ei_round : (0 ≤ R)%Z ∧ (Round sm = R ∧ active (phase ri) ∨ Round sm = (R + 1)%Z);
  ei_lookup : Rounds sm !! slot R = Some ri;
  ei_inv : ri_inv ri;
  ei_payload : payload ri;
  ei_hist : ∀ sm0 ri0, sm0 ∈ sm :: hist → Round sm0 = R → current sm0 = Some ri0 →
    ri_inv ri0 ∧ active (phase ri0) ∧ payload ri0 ∧ before ri0 ri
}.

Lemma commit_lookup sm ri fin :
  sm_inv sm → Rounds (commit sm ri fin) !! slot (Round sm) = Some ri.
Proof.
  intros Hi. pose proof (inv_size _ Hi) as Hs. pose proof (slot_lt (Round sm)).
  destruct fin; simpl.
  - rewrite list_lookup_insert_ne by (intros ?%slot_inj; lia).
    apply list_lookup_insert_eq. lia.
  - apply list_lookup_insert_eq. lia.
Qed.

Lemma exec_inv_step R sm hist ri sm0 ri0 op b sm' :
  exec_inv R sm hist ri → Round sm = R → (R < int_max)%Z → sm0 ∈ sm :: hist → Round sm0 = R →
  current sm0 = Some ri0 → honest_op R ri0 op → Apply false op sm = Ret (b, sm') →
  ∃ ri', exec_inv R sm' (sm :: hist) ri'.
Proof.
  intros [E1 [E2 E3] E4 E5 E6 E7] HR Hlt Hin HR0 Hc0 Hop HA.
  destruct (E7 _ _ Hin HR0 Hc0) as (Hi0 & Ha0 & Hp0 & Hb0).
  assert (current sm = Some ri) as Hcur by (unfold current; by rewrite HR).
  destruct E3 as [[_ Ha]|?]; [|lia].
  destruct (Apply_cases op sm E1 ltac:(lia)) as [(r1 & ri' & fin & _ & Hc1 & Hst & E)|[_ E]];
    rewrite E in HA; simplify_eq.
  - destruct (round_step_inv _ _ _ _ E5 Ha Hst) as [Hri' Hph'].
    exists ri'. split; [by eapply commit_inv| |by apply commit_lookup|done| |].
    + split; [done|]. destruct fin; simpl in *; auto.
    + eapply (payload_step _ ri0 ri); eassumption.
    + intros sm1 r0 [->|Hin1]%elem_of_cons HR1 Hc2.
      * unfold current in Hc2. rewrite HR1, commit_lookup in Hc2 by done. injection Hc2 as <-.
        split; [done|]. split; [destruct fin; simpl in *; [lia|done]|].
        split; [eapply (payload_step _ ri0 ri); eassumption|apply before_refl].
      * destruct (E7 _ _ Hin1 HR1 Hc2) as (? & ? & ? & ?). split_and!; try done.
        by eapply before_step.
  - exists ri. split; try done; [auto|].
    intros sm1 r0 [->|Hin1]%elem_of_cons; [by apply E7; left|by apply E7].
Qed.

Lemma exec_inv_init sm :
  sm_inv sm → current sm = Some (set_phase PreparePhase zeroRoundInfo) →
  exec_inv (Round sm) sm [] (set_phase PreparePhase zeroRoundInfo).
Proof.
  intros Hi Hc'. assert (payload (set_phase PreparePhase zeroRoundInfo)) as Hp by (by repeat constructor).
  split; try done; [split; [apply Hi|by left]|apply ri_inv_prepare|].
  intros sm0 ri0 ->%list_elem_of_singleton _ Hc0. simplify_eq.
  split; [apply ri_inv_prepare|]. split; [done|]. split; [done|apply before_refl].
Qed.

Lemma honest_exec_inv R sm hist :
  honest_exec R (sm :: hist) → ∃ ri, exec_inv R sm hist ri.
Proof.
  remember (sm :: hist) as l eqn:E. intros He. revert sm hist E.
  induction He as [sm0 Hi HR Hc'|sm1 hist1 sm0 ri0 op b sm' He IH HR Hlt Hin HR0 Hc0 Hop HA];
    intros sm hist E; simplify_eq.
  - eexists. by apply exec_inv_init.
  - destruct (IH _ _ eq_refl) as [ri Hri]. by eapply exec_inv_step.
Qed.

(** ** Progress *)

Definition started (p : Phase) : Prop :=
  p = SubmitPhase ∨ p = EncryptPhase ∨ p = ScramblePhase ∨ p = DecryptPhase ∨ p = RevealPhase.

(** Somebody still has to act: the phase is not complete. *)
Definition phase_open ri : Prop :=
  match phase ri with
  | SubmitPhase => ∃ p m, Messages ri !! p = Some m ∧ Msg_Nil m = true
  | EncryptPhase => numEncrypted ri < length (Encrypted ri)
  | ScramblePhase => numScrambled ri < length (Scrambled ri)
  | DecryptPhase => numDecrypted ri < length (Decrypted ri)
  | RevealPhase => ∃ p k, RevealedKeys ri !! p = Some k ∧ PrivateKey_Nil k = true
  | _ => False
  end.

(** The operations a round still needs. *)
Definition work ri : nat :=
  let n := length (Participants ri) in
  match phase ri with
  | SubmitPhase => count_true (map Msg_Nil (Messages ri)) + 4 * n
  | EncryptPhase => (n - numEncrypted ri) + 3 * n
  | ScramblePhase => (n - numScrambled ri) + 2 * n
  | DecryptPhase => (n - numDecrypted ri) + n
  | RevealPhase => count_true (map PrivateKey_Nil (RevealedKeys ri))
  | _ => 0
  end.

Lemma flag_unset (l : list bool) : count_true l < length l → ∃ p, l !! p = Some false.
Proof.
  induction l as [|b l IH]; simpl; [lia|]. destruct b; simpl; intros Hl.
  - destruct IH as [p Hp]; [lia|]. by exists (S p).
  - by exists 0.
Qed.

Lemma existsb_lookup {A} (f : A → bool) l :
  existsb f l = true → ∃ p (a : A), l !! p = Some a ∧ f a = true.
Proof.
  intros (x & Hx & Hf)%existsb_exists. apply list_elem_of_In, list_elem_of_lookup in Hx as [p Hp].
  eauto.
Qed.

Lemma count_true_replace {A} (f : A → bool) l p (a b : A) :
  l !! p = Some a → f a = true → f b = false →
  count_true (map f l) = S (count_true (map f (<[p:=b]> l))).
Proof.
  revert p. induction l as [|z l IH]; intros [|p] Hp Hx Hy; simplify_eq/=; [by rewrite Hx, Hy|].
  rewrite (IH p) by done. destruct (f z); simpl; lia.
Qed.

Lemma existsb_count {A} (f : A → bool) l : existsb f l = false → count_true (map f l) = 0.
Proof. induction l as [|x l IH]; simpl; [done|]. intros [-> ?]%orb_false_iff. auto. Qed.

(** An open phase of an honest round: a next step, after which less is left. *)
Definition can_step (R : Z) ri : Prop :=
  ∃ op ri' fin, honest_op R ri op ∧ op_Round op = R ∧ round_step ri op ri' fin ∧
    if fin : bool then phase ri' = DonePhase ∧ 0 < work ri
    else started (phase ri') ∧ phase_open ri' ∧ work ri' < work ri.

Section progress.
Context (R : Z) ri (Hi : ri_inv ri) (Hp : payload ri) (Hopen : phase_open ri).

Lemma participant_at p : p < length (Participants ri) →
  ∃ Id, Participants ri !! p = Some Id ∧ whereAmI Id ri = Some p ∧ good (who Id).
Proof.
  intros Hlt. destruct (lookup_lt_is_Some_2 (Participants ri) p Hlt) as [Id HId].
  exists Id. split_and!; [done|apply whereAmI_lookup; [apply Hi|done]|].
  destruct Hp as [Hg _]. rewrite Forall_lookup in Hg. by eapply Hg, parts_lookup.
Qed.

Lemma progress_submit : phase ri = SubmitPhase → can_step R ri.
Proof.
  intros Hph. unfold phase_open in Hopen. rewrite Hph in Hopen. destruct Hopen as (p & m & Hm & Hn).
  pose proof (inv_messages _ Hi (or_intror Hph)) as Hl.
  destruct (participant_at p) as (Id & HId & Hme & Hg); [rewrite <- Hl; by eapply lookup_lt_Some|].
  pose proof Hp as [_ Hpl]. rewrite Hph in Hpl. destruct Hpl as [Hcr _].
  set (m' := Encrypt c (ek (who Id)) (prep (who Id))).
  assert (Msg_Nil m' = false) as Hm'.
  { eapply carries_not_nil, Encrypt_carries; [done|by apply good_ek|by apply prep_carries]. }
  eexists _, _, _. split; [|split; [|split; [by eapply step_message|]]]; [| |].
  - eapply honest_message; [done|exact Hme|apply (eq_refl (default [] (Some (plain (who Id)))))|].
    rewrite (submit_eval ri Hcr R Id p m (Some (plain (who Id))) [] Hg Hm eq_refl), Hn. done.
  - done.
  - fold m'. pose proof (count_true_replace Msg_Nil (Messages ri) p m m' Hm Hn Hm') as Hcnt.
    destruct (advance_cases (all_submitted (put_message p m' (Hash (rk (who Id))) ri)) EncryptPhase
      (put_message p m' (Hash (rk (who Id))) ri)) as [[Hall ->]|[Hall ->]].
    + split; [unfold started; simpl; auto|]. unfold phase_open, work. simpl. rewrite Hph.
      pose proof (inv_flags _ Hi) as Hf. unfold phase_flags in Hf. rewrite Hph in Hf.
      destruct Hf as (He & _). specialize (He eq_refl). unfold numEncrypted. simpl.
      rewrite (none_set_count _ He), (inv_encrypted _ Hi).
      pose proof (lookup_lt_Some _ _ _ HId). lia.
    + split; [unfold started; simpl; auto|]. unfold phase_open, work. simpl. rewrite Hph.
      apply negb_false_iff, existsb_lookup in Hall as (q & mq & Hq & Hqn). split; [eauto|]. lia.
Qed.

Lemma progress_encrypt : phase ri = EncryptPhase → can_step R ri.
Proof.
  intros Hph. unfold phase_open in Hopen. rewrite Hph in Hopen.
  destruct (flag_unset _ Hopen) as [p Hf]. pose proof (inv_encrypted _ Hi) as Hl.
  destruct (participant_at p) as (Id & HId & Hme & Hg); [rewrite <- Hl; by eapply lookup_lt_Some|].
  pose proof Hp as [_ Hpl]. rewrite Hph in Hpl. destruct Hpl as (Hcr & _).
  eexists _, _, _. split; [|split; [|split; [by eapply step_encrypted|]]]; [| |].
  - eapply honest_encrypt; [done|exact Hme|]. by rewrite (encrypt_eval ri Hcr R Id p _ false Hf).
  - done.
  - set (ms := imap _ _). pose proof (count_true_insert _ _ Hf) as Hcnt.
    pose proof (inv_flags _ Hi) as Hfl. unfold phase_flags in Hfl. rewrite Hph in Hfl.
    destruct Hfl as (_ & Hsc & _).
    destruct (advance_cases (all_encrypted (mark_encrypted p ms ri)) ScramblePhase
      (mark_encrypted p ms ri)) as [[Hall ->]|[Hall ->]]; unfold all_encrypted in Hall;
      bool_to_prop; unfold started, phase_open, work, numEncrypted, numScrambled in *; simpl in *;
      rewrite ?Hph, ?length_insert, ?Hcnt, ?(none_set_count _ Hsc) in *; split; auto.
    + rewrite (inv_scrambled _ Hi). lia.
    + pose proof (count_true_le (<[p:=true]> (Encrypted ri))) as Hle. rewrite length_insert in Hle. lia.
Qed.

Lemma progress_scramble : phase ri = ScramblePhase → can_step R ri.
Proof.
  intros Hph. unfold phase_open in Hopen. rewrite Hph in Hopen. pose proof (inv_scrambled _ Hi) as Hl.
  set (p := numScrambled ri) in *.
  assert (Scrambled ri !! p = Some false) as Hf.
  { rewrite (inv_in_order _ Hi), lookup_app_r, length_replicate; [|rewrite length_replicate; done].
    fold p. rewrite Nat.sub_diag. apply lookup_replicate. split; [done|lia]. }
  destruct (participant_at p) as (Id & HId & Hme & Hg); [by rewrite <- Hl|].
  pose proof Hp as [_ Hpl]. rewrite Hph in Hpl. destruct Hpl as (Hcr & _).
  destruct (scramble_eval ri Hcr R Id p (sk (who Id)) (rk (who Id)) [] false Hf) as (ms & E & _).
  eexists _, _, _. split; [|split; [|split; [by eapply step_scrambled|]]]; [| |].
  - by eapply honest_scramble.
  - done.
  - pose proof (count_true_insert _ _ Hf) as Hcnt.
    pose proof (inv_flags _ Hi) as Hfl. unfold phase_flags in Hfl. rewrite Hph in Hfl.
    destruct Hfl as (_ & Hde & _).
    destruct (advance_cases (all_scrambled (mark_scrambled p ms ri)) DecryptPhase
      (mark_scrambled p ms ri)) as [[Hall ->]|[Hall ->]]; unfold all_scrambled in Hall;
      bool_to_prop; unfold started, phase_open, work, numDecrypted in *; simpl in *;
      rewrite ?Hph, ?(none_set_count _ Hde) in *; (split; [by auto|]).
    + rewrite (inv_decrypted _ Hi). lia.
    + unfold p, numScrambled in *. simpl in *. rewrite ?length_insert, ?Hcnt in *.
      pose proof (count_true_le (<[count_true (Scrambled ri):=true]> (Scrambled ri))) as Hle.
      rewrite length_insert in Hle. lia.
Qed.

Lemma progress_decrypt : phase ri = DecryptPhase → can_step R ri.
Proof.
  intros Hph. unfold phase_open in Hopen. rewrite Hph in Hopen.
  destruct (flag_unset _ Hopen) as [p Hf]. pose proof (inv_decrypted _ Hi) as Hl.
  destruct (participant_at p) as (Id & HId & Hme & Hg); [rewrite <- Hl; by eapply lookup_lt_Some|].
  pose proof Hp as [_ Hpl]. rewrite Hph in Hpl. destruct Hpl as (Hcr & _).
  eexists _, _, _. split; [|split; [|split; [by eapply step_decrypted|]]]; [| |].
  - eapply honest_decrypt; [done|exact Hme|]. by rewrite (decrypt_eval ri Hcr R Id p _ _ false Hf).
  - done.
  - set (ms := map _ _). pose proof (count_true_insert _ _ Hf) as Hcnt.
    pose proof (inv_flags _ Hi) as Hfl. unfold phase_flags in Hfl. rewrite Hph in Hfl.
    destruct Hfl as (_ & _ & Hk).
    assert (∀ q, q < length (RevealedKeys ri) → RevealedKeys ri !! q = Some NilPrivateKey) as Hnil.
    { intros q Hq. destruct (lookup_lt_is_Some_2 _ _ Hq) as [k Hkq]. unfold no_keys in Hk.
      rewrite Forall_lookup in Hk. by rewrite <- (Hk _ _ Hkq). }
    destruct (advance_cases (all_decrypted (mark_decrypted p ms ri)) RevealPhase
      (mark_decrypted p ms ri)) as [[Hall ->]|[Hall ->]]; unfold all_decrypted in Hall;
      bool_to_prop; unfold started, phase_open, work, numDecrypted in *; simpl in *;
      rewrite ?Hph, ?length_insert, ?Hcnt in *; (split; [by auto|]); split.
    + exists p, NilPrivateKey. split; [|done]. apply Hnil. rewrite (inv_keys _ Hi).
      by eapply lookup_lt_Some.
    + pose proof (count_true_le (map PrivateKey_Nil (RevealedKeys ri))) as Hle.
      rewrite length_map, (inv_keys _ Hi) in Hle. lia.
    + pose proof (count_true_le (<[p:=true]> (Decrypted ri))) as Hle. rewrite length_insert in Hle. lia.
    + lia.
Qed.

Lemma progress_reveal : phase ri = RevealPhase → can_step R ri.
Proof.
  intros Hph. unfold phase_open in Hopen. rewrite Hph in Hopen. destruct Hopen as (p & k & Hk & Hn).
  destruct (participant_at p) as (Id & HId & Hme & Hg).
  { rewrite <- (inv_keys _ Hi). by eapply lookup_lt_Some. }
  eexists _, _, _. split; [|split; [|split; [by eapply step_reveal|]]]; [| |].
  - eapply honest_reveal; [done|exact Hme|]. by rewrite (reveal_eval ri R Id p _ k Hk), Hn.
  - done.
  - assert (PrivateKey_Nil (rk (who Id)) = false) as Hn'
      by (apply (key_not_nil c); [done|by apply good_rk]).
    pose proof (count_true_replace PrivateKey_Nil _ p k (rk (who Id)) Hk Hn Hn') as Hcnt.
    destruct (all_revealed (put_key p (rk (who Id)) ri)) eqn:Hall.
    { split; [done|]. unfold work. rewrite Hph. lia. }
    apply negb_false_iff, existsb_lookup in Hall as (q & kq & Hq & Hqn).
    unfold started, phase_open, work. simpl. rewrite Hph. split; [by auto|]. split; [eauto|].
    simpl in Hcnt. lia.
Qed.

Lemma progress : started (phase ri) → can_step R ri.
Proof.
  intros [?|[?|[?|[?|?]]]]; auto using progress_submit, progress_encrypt, progress_scramble,
    progress_decrypt, progress_reveal.
Qed.

End progress.

(** A started round with participants always waits for somebody; this holds for
    arbitrary operations. *)
Definition waits ri : Prop := started (phase ri) → Participants ri ≠ [] → phase_open ri.

Lemma all_nil_lookup {A} (P : A → Prop) (l : list A) ps :
  Forall P l → length l = length (ps : list UUID) → ps ≠ [] → ∃ p a, l !! p = Some a ∧ P a.
Proof.
  intros Hl Hlen Hne. destruct l as [|a l], ps; try done. apply Forall_cons in Hl as [? _].
  by exists 0, a.
Qed.

Lemma not_empty_length (ps : list UUID) : ps ≠ [] → 0 < length ps.
Proof. destruct ps; simpl; [done|lia]. Qed.

Lemma not_all_set p (fl : list bool) :
  count_true (<[p:=true]> fl) ≠ length (<[p:=true]> fl) →
  count_true (<[p:=true]> fl) < length (<[p:=true]> fl).
Proof. intros Hne. pose proof (count_true_le (<[p:=true]> fl)). lia. Qed.

Lemma round_step_waits ri op ri' : ri_inv ri → round_step ri op ri' false → waits ri'.
Proof.
  intros Hi Hst. remember false as fin eqn:Efin.
  destruct Hst as [Id R Hp Hn|Id R cr Hp|Id R m h p ri1 Hp Hx ->|Id R ms prev p ri1 Hp Hx Hv Hf ->
    |Id R ms p ri1 Hp Hx Hv Hf ->|Id R ms prev p ri1 Hp Hx Hv Hf ->|Id R k p ri1 Hp Hx ->|R];
    try done; intros Hs Hne; pose proof (inv_flags _ Hi) as Hfl; unfold phase_flags in Hfl;
    rewrite Hp in Hfl; unfold phase_open.
  - simpl in *. rewrite Hp in Hs. unfold started in Hs. intuition discriminate.
  - simpl. destruct Hfl as (_ & _ & _ & _ & _ & Hm).
    destruct (all_nil_lookup _ _ (Participants ri) Hm) as (q & a & Hq & ->);
      [apply inv_messages; auto|done|]. by exists q, NilMsg.
  - destruct (advance_cases (all_submitted (put_message p m h ri)) EncryptPhase
      (put_message p m h ri)) as [[Hall E]|[Hall E]]; rewrite E in *; simpl in *; rewrite ?Hp.
    + destruct Hfl as (He & _). unfold numEncrypted. simpl.
      rewrite (none_set_count _ (He eq_refl)), (inv_encrypted _ Hi). by apply not_empty_length.
    + by apply negb_false_iff, existsb_lookup in Hall.
  - destruct (advance_cases (all_encrypted (mark_encrypted p ms ri)) ScramblePhase
      (mark_encrypted p ms ri)) as [[Hall E]|[Hall E]]; rewrite E in *; simpl in *; rewrite ?Hp.
    + destruct Hfl as (_ & Hsc & _). unfold numScrambled. simpl.
      rewrite (none_set_count _ Hsc), (inv_scrambled _ Hi). by apply not_empty_length.
    + apply bool_decide_eq_false in Hall. by apply not_all_set.
  - destruct (advance_cases (all_scrambled (mark_scrambled p ms ri)) DecryptPhase
      (mark_scrambled p ms ri)) as [[Hall E]|[Hall E]]; rewrite E in *; simpl in *; rewrite ?Hp.
    + destruct Hfl as (_ & Hde & _). unfold numDecrypted. simpl.
      rewrite (none_set_count _ Hde), (inv_decrypted _ Hi). by apply not_empty_length.
    + apply bool_decide_eq_false in Hall. by apply not_all_set.
  - destruct (advance_cases (all_decrypted (mark_decrypted p ms ri)) RevealPhase
      (mark_decrypted p ms ri)) as [[Hall E]|[Hall E]]; rewrite E in *; simpl in *; rewrite ?Hp.
    + destruct Hfl as (_ & _ & Hk).
      destruct (all_nil_lookup _ _ (Participants ri) Hk) as (q & a & Hq & ->);
        [apply inv_keys; auto|done|]. by exists q, NilPrivateKey.
    + apply bool_decide_eq_false in Hall. by apply not_all_set.
  - rewrite Efin. simpl. rewrite Hp. by apply negb_false_iff, existsb_lookup in Efin.
Qed.

Lemma exec_waits R sm hist ri :
  honest_exec R (sm :: hist) → Round sm = R → current sm = Some ri → waits ri.
Proof.
  remember (sm :: hist) as l eqn:E. intros He. revert sm hist ri E.
  induction He as [sm0 Hi HR Hc'|sm1 hist1 sm0 ri0 op b sm' He IH HR Hlt Hin HR0 Hc0 Hop HA];
    intros sm hist ri E HR' Hcur; simplify_eq.
  - intros Hs. unfold started in Hs. simpl in Hs. intuition discriminate.
  - destruct (honest_exec_inv _ _ _ He) as [r1 [E1 _ E3 E4 _ _]].
    destruct (Apply_cases op sm1 E1 ltac:(lia)) as [(r2 & ri' & fin & _ & Hc1 & Hst & E)|[_ E]];
      rewrite E in HA; simplify_eq; [|by eapply IH].
    destruct fin; simpl in HR'; [lia|].
    unfold current in Hcur. simpl Round in Hcur. rewrite (commit_lookup sm1 ri' false E1) in Hcur.
    injection Hcur as <-. eapply round_step_waits; [|done].
    unfold current in Hc1. congruence.
Qed.

Lemma work_bound ri : ri_inv ri → work ri ≤ 5 * length (Participants ri).
Proof.
  intros Hi. unfold work. destruct (phase ri) eqn:Hph; try lia.
  - pose proof (count_true_le (map Msg_Nil (Messages ri))) as Hle.
    rewrite length_map, (inv_messages _ Hi) in Hle by auto. lia.
  - pose proof (count_true_le (map PrivateKey_Nil (RevealedKeys ri))) as Hle.
    rewrite length_map, (inv_keys _ Hi) in Hle. lia.
Qed.

(** The execution that lets the participants act one after the other. *)
Lemma exec_finish n : ∀ R sm hist ri,
  honest_exec R (sm :: hist) → Round sm = R → (R < int_max)%Z → current sm = Some ri →
  started (phase ri) → phase_open ri → work ri ≤ n →
  ∃ sm' new ri', honest_exec R (sm' :: new ++ sm :: hist) ∧ Round sm' = (R + 1)%Z ∧
    Rounds sm' !! slot R = Some ri' ∧ phase ri' = DonePhase ∧ length new < n.
Proof.
  induction n as [n IH] using lt_wf_ind. intros R sm hist ri He HR Hlt Hcur Hs Ho Hw.
  destruct (honest_exec_inv _ _ _ He) as [r1 [E1 _ E3 E4 E5 _]].
  assert (r1 = ri) as -> by (unfold current in Hcur; congruence).
  destruct (progress R ri E4 E5 Ho Hs) as (op & ri' & fin & Hop & HopR & Hst & Hfin).
  destruct (Apply_cases op sm E1 ltac:(lia)) as [(r2 & ri2 & fin2 & _ & Hc1 & Hst2 & E)|[Hno _]];
    [|by destruct (Hno ri ri' fin); congruence].
  assert (r2 = ri) as -> by congruence.
  destruct (round_step_det _ _ _ _ _ _ (inv_distinct _ E4) Hst Hst2) as [<- <-].
  assert (honest_exec R (commit sm ri' fin :: sm :: hist)) as He'
    by (eapply exec_step; try done; left).
  pose proof (commit_lookup sm ri' fin E1) as Hl. rewrite HR in Hl.
  destruct fin.
  - exists (commit sm ri' true), [], ri'. destruct Hfin.
    split_and!; try done; simpl; lia.
  - destruct Hfin as (Hs' & Ho' & Hw').
    destruct (IH (work ri') ltac:(lia) R (commit sm ri' false) (sm :: hist) ri')
      as (sm' & new & ri2 & H2 & H3 & H4 & H5 & H6); try done.
    { unfold current. change (Round (commit sm ri' false)) with (Round sm). by rewrite HR. }
    exists sm', (new ++ [commit sm ri' false]), ri2. rewrite <- app_assoc. split_and!; try done.
    rewrite length_app. simpl. lia.
Qed.

(** ** Properties *)

(** C2: anonymous broadcast.  Consider a round in which every operation was computed
    by a client that follows the protocol, from a possibly stale snapshot, and which
    ended in [DonePhase]; let its crypto satisfy the laws of a commutative cipher,
    let every client have valid keys with a non-empty hash of the reveal key, eight
    random bytes, and a message that is at most [MessageSize] long and, with its
    header, strictly shorter than the capacity of the crypto (a message that fills
    the capacity cannot be read back), and let the random bytes of the
    participants be pairwise different.  Then every participant that recorded the
    key hashes and messages in the reveal phase and the number of messages in the
    scramble phase gets a result that succeeds, reports no malicious error, and
    contains exactly the non-empty messages that the participants submitted, in
    some order. *)
Theorem honest_round_delivers_messages R sm hist ri smr rir sms ris Id :
  honest_exec R (sm :: hist) → Round sm = (R + 1)%Z →
  Rounds sm !! slot R = Some ri → phase ri = DonePhase →
  Id ∈ Participants ri → NoDup (map nonce (parts ri)) →
  smr ∈ hist → Round smr = R → current smr = Some rir → phase rir = RevealPhase →
  sms ∈ hist → Round sms = R → current sms = Some ris → phase ris = ScramblePhase →
  ∃ msgs,
    sendRoundResult debug Id sm (R + 1) (RevealKeyHashes rir) R (Messages rir)
      (length (Messages ris)) = Ret (Some (mkRoundResult R true msgs None)) ∧
    msgs ≡ₚ filter (fun m => m ≠ []) (map plain (parts ri)).
Proof.
  intros He HR Hl Hph HId Hnd Hr HRr Hcr Hpr Hs HRs Hcs Hps.
  destruct (honest_exec_inv _ _ _ He) as [ri1 [E1 [E2 _] E3 E4 E5 E6]].
  assert (ri1 = ri) as -> by congruence.
  destruct (E6 smr rir) as (_ & _ & _ & Hbr); [by right|done|done|].
  destruct (E6 sms ris) as (_ & _ & [_ Hpls] & Hbs); [by right|done|done|].
  rewrite Hps in Hpls. destruct Hpls as (_ & _ & Hcar). apply Permutation_length in Hcar.
  rewrite length_map, parts_length, <- (bf_parts _ _ Hbs) in Hcar by congruence.
  rewrite Hcar, <- (bf_hashes _ _ Hbr), <- (bf_messages _ _ Hbr) by (unfold carrying; auto).
  by apply result_eval.
Qed.

(** C5: a started round can always be completed.  From every state of such an
    execution in which the round has started with at least one participant,
    and whatever the participants did so far, at most five operations per
    participant, each computed by a client from the current state, bring the
    round to [DonePhase]. *)
Theorem honest_round_can_finish R sm hist ri :
  honest_exec R (sm :: hist) → Round sm = R → (R < int_max)%Z → current sm = Some ri →
  started (phase ri) → Participants ri ≠ [] →
  ∃ sm' new ri', honest_exec R (sm' :: new ++ sm :: hist) ∧ Round sm' = (R + 1)%Z ∧
    Rounds sm' !! slot R = Some ri' ∧ phase ri' = DonePhase ∧
    S (length new) ≤ 5 * length (Participants ri).
Proof.
  intros He HR Hlt Hcur Hs Hne.
  destruct (honest_exec_inv _ _ _ He) as [r1 [E1 _ E3 E4 E5 _]].
  assert (r1 = ri) as -> by (unfold current in Hcur; congruence).
  eapply exec_finish; try done; [by eapply exec_waits|by apply work_bound].
Qed.

End honest.
