(* ===== verification/ProtocolWitness.v ===== *)
(** * A complete round with a real modulus

    The hypotheses of the end-to-end theorems are satisfiable: two participants
    carry a round of Massey-Omura, with the 153-bit prime 4143 * 2^140 + 1, from
    the join to the result.  Some operations are computed from stale snapshots
    and rejected on the way. *)

From Stdlib Require Import Strings.Byte.
From S2P Require Import Prelude Bytes Primes MasseyOmura Crypto Op StateMachine RoundSpec.
From S2P Require Import StateMachineProps Representation Client Layers Protocol.

Local Open Scope Z_scope.

Module ProtocolWitness.

(** Concrete instances of the standard-library parameters. *)
#[local] Instance pass_through : Sha256 := fun bytes => bytes.
#[local] Instance known_prime : BigProbablyPrime := fun p _ => p =? 4143 * 2 ^ 140 + 1.

Definition modulus : Z := 4143 * 2 ^ 140 + 1.
Definition crypto : masseyOmuraCrypto := Eval vm_compute in mkMasseyOmuraCrypto (Bytes modulus).

Lemma crypto_sound : sound crypto.
Proof.
  assert (getP crypto = modulus) as E by (by vm_compute). split; [|split].
  - rewrite E. apply (proth_prime 4143 140 11). by vm_compute.
  - rewrite E. by vm_compute.
  - by vm_compute.
Qed.

(** An exponent and its inverse modulo [modulus - 1]. *)
Definition key (e : Z) : PrivateKey :=
  mkPrivateKey (Bytes e) (Bytes (Z.invmod e (modulus - 1))).

Definition alice : UUID := [Byte.x0a].
Definition bob : UUID := [Byte.x0b].

Definition alice_data : participant := Eval vm_compute in
  mkParticipant (key 5) (key 7) (key 11) [Byte.x41] (replicate 8 Byte.x01).
Definition bob_data : participant := Eval vm_compute in
  mkParticipant (key 13) (key 17) (key 19) [Byte.x42] (replicate 8 Byte.x02).

Definition who (id : UUID) : participant :=
  if bool_decide (id = alice) then alice_data else bob_data.

Lemma who_good id : good 2 crypto (who id).
Proof. unfold who. case_bool_decide; split; vm_compute; (split_and! || idtac); (done || congruence). Qed.

(** ** The operations *)

Definition the_op (o : outcome (option (Op masseyOmuraCrypto))) : Op masseyOmuraCrypto :=
  match o with Ret (Some op) => op | _ => AbortOp 0 end.

Definition next (op : Op masseyOmuraCrypto) (sm : StateMachine masseyOmuraCrypto) :=
  match Apply false op sm with Ret (_, sm') => sm' | Panic _ => sm end.

Definition cur (sm : StateMachine masseyOmuraCrypto) : RoundInfo masseyOmuraCrypto :=
  default zeroRoundInfo (current sm).

Definition do_submit (id : UUID) (me : nat) sm :=
  the_op (submit false id 2 0 (cur sm) me (ek (who id)) (rk (who id)) (Some (plain (who id)))
    (nonce (who id)) []).
Definition do_encrypt (id : UUID) (me : nat) sm :=
  the_op (encrypt id 0 (cur sm) me (ek (who id))).
Definition do_scramble (id : UUID) (me : nat) sm :=
  the_op (scramble id 0 (cur sm) me (sk (who id)) (rk (who id)) [0%nat]).
Definition do_decrypt (id : UUID) (me : nat) sm :=
  the_op (decrypt id 0 (cur sm) me (sk (who id)) (ek (who id))).
Definition do_reveal (id : UUID) (me : nat) sm :=
  the_op (client_reveal id 0 (cur sm) me (rk (who id))).

Definition st0 := Eval vm_compute in
  match NewStateMachine (C := masseyOmuraCrypto) false with Ret sm => sm | Panic _ => mkStateMachine 0 [] end.
Definition st1 := Eval vm_compute in next (JoinOp alice 0) st0.
Definition st2 := Eval vm_compute in next (JoinOp bob 0) st1.
Definition st3 := Eval vm_compute in next (StartOp alice 0 (Some crypto)) st2.
Definition st4 := Eval vm_compute in next (do_submit bob 1 st3) st3.
Definition st5 := Eval vm_compute in next (do_submit alice 0 st3) st4.
Definition st6 := Eval vm_compute in next (do_encrypt bob 1 st5) st5.
(** Computed from [st5], hence rejected. *)
Definition st7 := Eval vm_compute in next (do_encrypt alice 0 st5) st6.
Definition st8 := Eval vm_compute in next (do_encrypt alice 0 st6) st7.
Definition st9 := Eval vm_compute in next (do_scramble alice 0 st8) st8.
Definition st10 := Eval vm_compute in next (do_scramble bob 1 st9) st9.
Definition st11 := Eval vm_compute in next (do_decrypt alice 0 st10) st10.
Definition st12 := Eval vm_compute in next (do_decrypt bob 1 st11) st11.
Definition st13 := Eval vm_compute in next (do_reveal bob 1 st12) st12.
Definition st14 := Eval vm_compute in next (do_reveal alice 0 st12) st13.

Definition exec := honest_exec (C := masseyOmuraCrypto) false 2 crypto who 0.

Ltac find_state := repeat first [apply list_elem_of_here | apply list_elem_of_further].

(** One step of the execution: the state the snapshot was taken in, and the
    proof that the client computes the operation there. *)
Ltac exec_by sm0 tac :=
  eapply (exec_step _ _ _ _ _ _ _ sm0 (cur sm0));
  [eassumption | reflexivity | by vm_compute | solve [find_state]
  | reflexivity | by vm_compute | tac | vm_compute; reflexivity].

Lemma exec_start : exec [st3; st2; st1; st0].
Proof.
  assert (exec [st0]) as E0.
  { apply exec_init; [|done|by vm_compute].
    destruct (@NewStateMachine_inv masseyOmuraCrypto false) as (sm & HN & Hi & _).
    vm_compute in HN. by injection HN as <-. }
  assert (exec [st1; st0]) as E1.
  { exec_by st0 ltac:(eapply (honest_join _ _ _ _ _ _ alice); [apply who_good|done|done]). }
  assert (exec [st2; st1; st0]) as E2.
  { exec_by st1 ltac:(eapply (honest_join _ _ _ _ _ _ bob); [apply who_good|done|done]). }
  exec_by st2 ltac:(by apply (honest_start _ _ _ _ _ _ alice)).
Qed.

(** The operation of a participant, evaluated in the snapshot. *)
Ltac by_message id me :=
  eapply (honest_message _ _ _ _ _ _ id me (Some (plain (who id))) []);
  [reflexivity|reflexivity|reflexivity|vm_compute; reflexivity].
Ltac by_encrypt id me :=
  eapply (honest_encrypt _ _ _ _ _ _ id me); [reflexivity|reflexivity|vm_compute; reflexivity].
Ltac by_scramble id me :=
  eapply (honest_scramble _ _ _ _ _ _ id me [0%nat]);
  [reflexivity|reflexivity|reflexivity|vm_compute; reflexivity].
Ltac by_decrypt id me :=
  eapply (honest_decrypt _ _ _ _ _ _ id me); [reflexivity|reflexivity|vm_compute; reflexivity].
Ltac by_reveal id me :=
  eapply (honest_reveal _ _ _ _ _ _ id me); [reflexivity|reflexivity|vm_compute; reflexivity].

Definition past : list (StateMachine masseyOmuraCrypto) :=
  [st13; st12; st11; st10; st9; st8; st7; st6; st5; st4; st3; st2; st1; st0].

Lemma exec_complete : exec (st14 :: past).
Proof.
  pose proof exec_start as E3.
  assert (exec [st4; st3; st2; st1; st0]) as E4 by
    (exec_by st3 ltac:(by_message bob 1%nat)).
  assert (exec [st5; st4; st3; st2; st1; st0]) as E5 by
    (exec_by st3 ltac:(by_message alice 0%nat)).
  assert (exec [st6; st5; st4; st3; st2; st1; st0]) as E6 by
    (exec_by st5 ltac:(by_encrypt bob 1%nat)).
  assert (exec [st7; st6; st5; st4; st3; st2; st1; st0]) as E7 by
    (exec_by st5 ltac:(by_encrypt alice 0%nat)).
  assert (exec [st8; st7; st6; st5; st4; st3; st2; st1; st0]) as E8 by
    (exec_by st6 ltac:(by_encrypt alice 0%nat)).
  assert (exec [st9; st8; st7; st6; st5; st4; st3; st2; st1; st0]) as E9 by
    (exec_by st8 ltac:(by_scramble alice 0%nat)).
  assert (exec [st10; st9; st8; st7; st6; st5; st4; st3; st2; st1; st0]) as E10 by
    (exec_by st9 ltac:(by_scramble bob 1%nat)).
  assert (exec [st11; st10; st9; st8; st7; st6; st5; st4; st3; st2; st1; st0]) as E11 by
    (exec_by st10 ltac:(by_decrypt alice 0%nat)).
  assert (exec [st12; st11; st10; st9; st8; st7; st6; st5; st4; st3; st2; st1; st0]) as E12 by
    (exec_by st11 ltac:(by_decrypt bob 1%nat)).
  assert (exec [st13; st12; st11; st10; st9; st8; st7; st6; st5; st4; st3; st2; st1; st0]) as E13 by
    (exec_by st12 ltac:(by_reveal bob 1%nat)).
  exec_by st12 ltac:(by_reveal alice 0%nat).
Qed.

Lemma honest_round_delivers_messages_witness :
  ∃ msgs,
    sendRoundResult false bob st14 1 (RevealKeyHashes (cur st12)) 0 (Messages (cur st12)) 2
      = Ret (Some (mkRoundResult 0 true msgs None)) ∧ msgs ≡ₚ [[Byte.x41]; [Byte.x42]].
Proof.
  destruct (honest_round_delivers_messages false 2 crypto crypto_sound who 0 st14 past
    (default zeroRoundInfo (Rounds st14 !! 0%nat)) st12 (cur st12) st8 (cur st8) bob)
    as (msgs & E & Hp);
    [..|exists msgs; split; [exact E|rewrite Hp; by vm_compute]];
    first [exact exec_complete | reflexivity | apply (bool_decide_unpack _); by vm_compute
          | unfold past; solve [find_state]].
Defined.

Lemma honest_round_can_finish_witness :
  ∃ sm' new ri', honest_exec false 2 crypto who 0 (sm' :: new ++ [st3; st2; st1; st0]) ∧
    Round sm' = 1 ∧ Rounds sm' !! slot 0 = Some ri' ∧ phase ri' = DonePhase ∧
    (S (length new) ≤ 10)%nat.
Proof.
  apply (honest_round_can_finish false 2 crypto crypto_sound who 0 st3 [st2; st1; st0] (cur st3));
    [exact exec_start|reflexivity|by vm_compute|reflexivity|by left|by vm_compute].
Defined.

End ProtocolWitness.
