(* ===== verification/RespChannels.v ===== *)
(** * Response channels

    Model of src/anonbcast/respchannels.go: a nested map from Raft term and log
    index to a channel on which the outcome of a request is announced.
    Channels are names; [closed] records the ones that were closed, since
    closing a channel twice, or closing nil, panics.

    The nested map is a representation of a flat one: [flat] is the abstraction
    function, and every method commutes with it. *)

From stdpp Require Import gmap.
From S2P Require Import Prelude.

Local Open Scope Z_scope.

(** The name of a [chan bool]. *)
Definition chan : Type := nat.

Record respChannels := mkRespChannels {
  chan_map : gmap Z (gmap Z chan);
  next_chan : chan;
  closed : gset chan
}.

Definition NewRespChannels : respChannels := mkRespChannels ∅ 0%nat ∅.

Definition resp_Get (i j : Z) (r : respChannels) : option chan :=
  match chan_map r !! i with
  | None => None
  | Some mm => mm !! j
  end.

Definition resp_Create (debug : bool) (i j : Z) (r : respChannels)
    : outcome (chan * respChannels) :=
  assertf debug (bool_decide (resp_Get i j r = None)) ;;
  let ch := next_chan r in
  let mm := default ∅ (chan_map r !! i) in
  Ret (ch, mkRespChannels (<[i := <[j := ch]> mm]> (chan_map r)) (S ch) (closed r)).

(** The built-in [close]. *)
Definition close_chan (ch : option chan) (r : respChannels) : outcome respChannels :=
  match ch with
  | None => Panic NilDereference
  | Some ch =>
      if bool_decide (ch ∈ closed r) then Panic ClosedChannel
      else Ret (mkRespChannels (chan_map r) (next_chan r) ({[ch]} ∪ closed r))
  end.

Definition resp_Close (debug : bool) (i j : Z) (r : respChannels) : outcome respChannels :=
  assertf debug (bool_decide (resp_Get i j r ≠ None)) ;;
  r ← close_chan (resp_Get i j r) r;
  let mm := delete j (default ∅ (chan_map r !! i)) in
  let m := if bool_decide (chan_map r !! i = None) then chan_map r else <[i := mm]> (chan_map r) in
  let m := if bool_decide (size mm = 0%nat) then delete i m else m in
  Ret (mkRespChannels m (next_chan r) (closed r)).

(** The loops of [Clear] visit the channels in some order. *)
Definition all_chans (m : gmap Z (gmap Z chan)) : list chan :=
  concat (map (fun '(_, mm) => map snd (map_to_list mm)) (map_to_list m)).

Fixpoint close_all (chs : list chan) (r : respChannels) : outcome respChannels :=
  match chs with
  | [] => Ret r
  | ch :: chs' => r' ← close_chan (Some ch) r; close_all chs' r'
  end.

Definition resp_Clear (r : respChannels) : outcome respChannels :=
  r ← close_all (all_chans (chan_map r)) r;
  Ret (mkRespChannels ∅ (next_chan r) (closed r)).

(** ** The flat map *)

Definition flat (r : respChannels) (k : Z * Z) : option chan := resp_Get k.1 k.2 r.

(** Registered channels were created, are open, and belong to one request. *)
Record resp_inv (r : respChannels) : Prop := {
  reg_fresh : ∀ k ch, flat r k = Some ch → (ch < next_chan r)%nat;
  reg_open : ∀ k ch, flat r k = Some ch → ch ∉ closed r;
  reg_inj : ∀ k k' ch, flat r k = Some ch → flat r k' = Some ch → k = k';
  closed_old : ∀ ch, ch ∈ closed r → (ch < next_chan r)%nat
}.

Lemma resp_inv_new : resp_inv NewRespChannels.
Proof. split; unfold flat, resp_Get; simpl; intros; by rewrite ?lookup_empty in *. Qed.

Lemma elem_of_all_chans m ch :
  ch ∈ all_chans m ↔ ∃ i j mm, m !! i = Some mm ∧ mm !! j = Some ch.
Proof.
  unfold all_chans. rewrite list_elem_of_In, in_concat. split.
  - intros (l & Hl & Hch). apply in_map_iff in Hl as ([i mm] & <- & Hi).
    apply in_map_iff in Hch as ([j ch'] & <- & Hj).
    apply list_elem_of_In, elem_of_map_to_list in Hi, Hj. eauto.
  - intros (i & j & mm & Hi & Hj). exists (map snd (map_to_list mm)). split.
    + apply in_map_iff. exists (i, mm). split; [done|]. by apply list_elem_of_In, elem_of_map_to_list.
    + apply in_map_iff. exists (j, ch). split; [done|]. by apply list_elem_of_In, elem_of_map_to_list.
Qed.

Lemma elem_of_all_chans_flat r ch : ch ∈ all_chans (chan_map r) ↔ ∃ k, flat r k = Some ch.
Proof.
  rewrite elem_of_all_chans. unfold flat, resp_Get. split.
  - intros (i & j & mm & Hi & Hj). exists (i, j). simpl. by rewrite Hi.
  - intros [[i j] Hk]. simpl in Hk. destruct (chan_map r !! i) as [mm|] eqn:Hi; [|done]. eauto.
Qed.

Lemma NoDup_concat_map {A B} (f : A → list B) (l : list A) :
  NoDup l → (∀ a, a ∈ l → NoDup (f a)) →
  (∀ a a' b, a ∈ l → a' ∈ l → b ∈ f a → b ∈ f a' → a = a') → NoDup (concat (map f l)).
Proof.
  induction 1 as [|a l Ha Hl IH]; intros Hf Hd; simpl; [constructor|].
  apply NoDup_app. split_and!; [apply Hf; left| |apply IH; [|]].
  - intros b Hb Hc. apply list_elem_of_In, in_concat in Hc as (lb & Hlb & Hbl).
    apply in_map_iff in Hlb as (a' & <- & Ha'). apply list_elem_of_In in Ha', Hbl.
    assert (a = a') as <- by (eapply Hd; [left|by right|done|done]). done.
  - intros a' Ha'. apply Hf. by right.
  - intros a1 a2 b H1 H2. apply Hd; by right.
Qed.

Lemma all_chans_NoDup r : resp_inv r → NoDup (all_chans (chan_map r)).
Proof.
  intros Hi. unfold all_chans. apply NoDup_concat_map.
  - apply NoDup_map_to_list.
  - intros [i mm] Hmm. apply elem_of_map_to_list in Hmm. apply NoDup_fmap_2_strong.
    + intros [j ch] [j' ch'] Hj Hj' E. simpl in E. subst ch'.
      apply elem_of_map_to_list in Hj, Hj'.
      assert ((i, j) = (i, j')) as [= ->]; [|done].
      eapply (reg_inj _ Hi); unfold flat, resp_Get; simpl; by rewrite Hmm.
    + apply NoDup_map_to_list.
  - intros [i mm] [i' mm'] ch Hm Hm' Hc Hc'. apply elem_of_map_to_list in Hm, Hm'.
    apply list_elem_of_fmap in Hc as ([j c1] & E & Hj). simpl in E. subst c1.
    apply list_elem_of_fmap in Hc' as ([j' c1] & E & Hj'). simpl in E. subst c1.
    apply elem_of_map_to_list in Hj, Hj'.
    assert ((i, j) = (i', j')) as [= -> ->]; [|congruence].
    eapply (reg_inj _ Hi); unfold flat, resp_Get; simpl; [by rewrite Hm|by rewrite Hm'].
Qed.

Lemma close_all_spec chs : ∀ r,
  NoDup chs → (∀ ch, ch ∈ chs → ch ∉ closed r) →
  close_all chs r = Ret (mkRespChannels (chan_map r) (next_chan r) (list_to_set chs ∪ closed r)).
Proof.
  induction chs as [|ch chs IH]; intros r Hn Ho; simpl.
  - rewrite (left_id_L ∅ (∪)). by destruct r.
  - apply NoDup_cons in Hn as [Hc Hn]. rewrite bool_decide_false by (apply Ho; left). simpl.
    rewrite IH; simpl; [|done|].
    + f_equal. f_equal. set_solver.
    + intros ch' Hin. pose proof (Ho ch' (list_elem_of_further _ _ _ Hin)). set_solver.
Qed.

Lemma resp_Create_spec debug i j r :
  resp_inv r → flat r (i, j) = None →
  ∃ r', resp_Create debug i j r = Ret (next_chan r, r') ∧ resp_inv r' ∧ closed r' = closed r ∧
    next_chan r' = S (next_chan r) ∧
    ∀ k, flat r' k = if decide (k = (i, j)) then Some (next_chan r) else flat r k.
Proof.
  intros Hi Hn. unfold resp_Create. rewrite bool_decide_true, assertf_true, bind_ret by done.
  eexists. split; [done|].
  assert (∀ k, flat (mkRespChannels (<[i:=<[j:=next_chan r]> (default ∅ (chan_map r !! i))]> (chan_map r))
    (S (next_chan r)) (closed r)) k = if decide (k = (i, j)) then Some (next_chan r) else flat r k) as Hf.
  { intros [i' j']. unfold flat, resp_Get. simpl.
    destruct (decide (i' = i)) as [->|Hne].
    - rewrite lookup_insert_eq. destruct (decide (j' = j)) as [->|Hnj].
      + by rewrite lookup_insert_eq, decide_True.
      + rewrite lookup_insert_ne, decide_False by congruence.
        by destruct (chan_map r !! i); simpl; rewrite ?lookup_empty.
    - rewrite lookup_insert_ne, decide_False by congruence. done. }
  split; [|done]. destruct Hi as [H1 H2 H3 H4]. split; simpl.
  - intros k ch. rewrite Hf. case_decide; [intros [= <-]; lia|]. intros Hk. specialize (H1 _ _ Hk). lia.
  - intros k ch. rewrite Hf. case_decide; [intros [= <-] Hc; specialize (H4 _ Hc); lia|by apply H2].
  - intros k k' ch. rewrite !Hf. repeat case_decide; try congruence; try (by apply H3).
    + intros [= <-] Hk. specialize (H1 _ _ Hk). lia.
    + intros Hk [= <-]. specialize (H1 _ _ Hk). lia.
  - intros ch Hc. specialize (H4 _ Hc). lia.
Qed.

Lemma resp_Clear_spec r :
  resp_inv r →
  ∃ r', resp_Clear r = Ret r' ∧ resp_inv r' ∧ (∀ k, flat r' k = None) ∧
    next_chan r' = next_chan r ∧
    ∀ ch, ch ∈ closed r' ↔ ch ∈ closed r ∨ ∃ k, flat r k = Some ch.
Proof.
  intros Hi. unfold resp_Clear. rewrite close_all_spec.
  2: by apply all_chans_NoDup.
  2: { intros ch [k Hk]%elem_of_all_chans_flat. by eapply reg_open. }
  simpl. eexists. split; [done|]. split; [|split; [|split; [done|]]].
  - split; simpl; try (intros k; unfold flat, resp_Get; simpl; by rewrite lookup_empty).
    intros ch [Hc|Hc]%elem_of_union; [|by apply (closed_old _ Hi)].
    apply elem_of_list_to_set, elem_of_all_chans_flat in Hc as [k Hk]. by eapply reg_fresh.
  - intros k. unfold flat, resp_Get. simpl. by rewrite lookup_empty.
  - intros ch. simpl. rewrite elem_of_union, elem_of_list_to_set, elem_of_all_chans_flat. tauto.
Qed.

Lemma resp_Close_spec debug i j ch r :
  resp_inv r → flat r (i, j) = Some ch →
  ∃ r', resp_Close debug i j r = Ret r' ∧ resp_inv r' ∧ closed r' = {[ch]} ∪ closed r ∧
    ∀ k, flat r' k = if decide (k = (i, j)) then None else flat r k.
Proof.
  intros Hi Hk. unfold resp_Close.
  assert (resp_Get i j r = Some ch) as Hg by done. rewrite Hg.
  rewrite bool_decide_true, assertf_true, bind_ret by done. simpl.
  rewrite bool_decide_false by (by eapply reg_open). simpl.
  unfold resp_Get in Hg. destruct (chan_map r !! i) as [mm|] eqn:Hm; [|done]. simpl.
  eexists. split; [done|].
  set (m' := if bool_decide _ then _ else _).
  assert (∀ k, flat (mkRespChannels m' (next_chan r) ({[ch]} ∪ closed r)) k =
    if decide (k = (i, j)) then None else flat r k) as Hf.
  { intros [i' j']. unfold flat, resp_Get, m'. simpl.
    destruct (decide (i' = i)) as [->|Hne].
    - case_bool_decide as Hz.
      + rewrite lookup_delete_eq, Hm. case_decide; [done|].
        apply map_size_empty_iff in Hz. assert (delete j mm !! j' = None) as Hd by (by rewrite Hz).
        by rewrite lookup_delete_ne in Hd by congruence.
      + rewrite lookup_insert_eq, Hm. destruct (decide (j' = j)) as [->|Hnj].
        * by rewrite lookup_delete_eq, decide_True.
        * by rewrite lookup_delete_ne, decide_False by congruence.
    - rewrite decide_False by congruence.
      case_bool_decide; rewrite ?lookup_delete_ne, ?lookup_insert_ne by done; done. }
  clearbody m'. destruct Hi as [H1 H2 H3 H4]. split; [split|done]; simpl.
  - intros k c. rewrite Hf. case_decide; [done|]. apply H1.
  - intros k c. rewrite Hf. case_decide as Hd; [done|]. intros Hc [->%elem_of_singleton|Hin]%elem_of_union.
    + apply Hd. by eapply H3.
    + by eapply H2.
  - intros k k' c. rewrite !Hf. repeat case_decide; try done. apply H3.
  - intros c [->%elem_of_singleton|Hin]%elem_of_union; [by eapply H1|auto].
Qed.

(** ** Properties *)

(** C34: the nested map behaves as a map from (term, index) pairs: in a state
    reached by the methods, creating a channel for a new request returns a
    fresh open channel that [Get] finds under that pair only, [Close] removes
    exactly that pair, and [Clear] closes every registered channel once and
    forgets them all; none of them panics. *)
Theorem resp_channels_refine_flat_map debug i j r :
  resp_inv r →
  (flat r (i, j) = None → ∃ r', resp_Create debug i j r = Ret (next_chan r, r') ∧ resp_inv r' ∧
     ∀ k, flat r' k = if decide (k = (i, j)) then Some (next_chan r) else flat r k) ∧
  (∀ ch, flat r (i, j) = Some ch → ∃ r', resp_Close debug i j r = Ret r' ∧ resp_inv r' ∧
     closed r' = {[ch]} ∪ closed r ∧
     ∀ k, flat r' k = if decide (k = (i, j)) then None else flat r k) ∧
  (∃ r', resp_Clear r = Ret r' ∧ resp_inv r' ∧ (∀ k, flat r' k = None) ∧
     ∀ ch, ch ∈ closed r' ↔ ch ∈ closed r ∨ ∃ k, flat r k = Some ch).
Proof.
  intros Hi. split_and!.
  - intros Hn. destruct (resp_Create_spec debug i j r Hi Hn) as (r' & ? & ? & _ & _ & ?). eauto.
  - intros ch Hk. by apply resp_Close_spec.
  - destruct (resp_Clear_spec r Hi) as (r' & ? & ? & ? & _ & ?). eauto 10.
Qed.

(** Two requests of term 1 are pending. *)
Definition create (i j : Z) (r : respChannels) : respChannels :=
  match resp_Create false i j r with Ret (_, r') => r' | Panic _ => r end.
Definition two_pending : respChannels := create 1 5 (create 1 4 NewRespChannels).

Lemma create_inv i j r : resp_inv r → flat r (i, j) = None → resp_inv (create i j r).
Proof.
  intros Hi Hn. unfold create.
  by destruct (resp_Create_spec false i j r Hi Hn) as (r' & -> & Hi' & _).
Qed.

Lemma resp_channels_refine_flat_map_witness :
  flat two_pending (1, 4) = Some 0%nat ∧
  ∃ r', resp_Close true 1 4 two_pending = Ret r' ∧ closed r' = {[0%nat]} ∪ closed two_pending ∧
    flat r' (1, 5) = Some 1%nat ∧ flat r' (1, 4) = None.
Proof.
  split; [by vm_compute|].
  assert (resp_inv two_pending) as Hi
    by (repeat apply create_inv; [apply resp_inv_new|done|done]).
  destruct (resp_channels_refine_flat_map true 1 4 two_pending Hi) as (_ & Hclose & _).
  destruct (Hclose 0%nat) as (r' & E & _ & Hc & Hf); [by vm_compute|].
  exists r'. split; [exact E|]. split; [exact Hc|]. rewrite !Hf. split; by vm_compute.
Defined.
