(* ===== verification/Server.v ===== *)
(** * The server

    Model of src/anonbcast/server.go: the state machine on top of Raft.  Raft
    itself is not part of the repository (only its interface, libraft/raft.go);
    its answers are arguments: what [Start] returns and the messages on the
    apply channel.  Every method body between [mu.Lock] and [mu.Unlock] is one
    atomic function; [sys_step] interleaves them.

    A channel of the map [updChs] is the list of updates sent on it so far: the
    reader is documented to be always reading, so a send does not block. *)

From stdpp Require Import gmap strings.
From S2P Require Import Prelude Bytes Crypto Op StateMachine RoundSpec StateMachineProps.
From S2P Require Import Representation RespChannels.

Local Open Scope Z_scope.

(** ** Messages *)

(** A Go [map[string]bool] used as a set of server names. *)
Abbreviation Config := (gmap string bool) (only parsing).

Section server.
Context {C : Type} `{CommutativeCrypto C} (debug : bool).
Implicit Types (op : Op C) (sm : StateMachine C).

(** [ApplyMsg] of libraft; a command that is not an [Op] is [None]. *)
Record ApplyMsg := mkApplyMsg {
  CommandValid : bool;
  Command : option (Op C);
  CommandTerm : Z;
  CommandIndex : Z;
  SnapshotValid : bool;
  RaftUpdateValid : bool;
  IsLeader : bool;
  ConfigValid : bool;
  msg_Configuration : Config
}.

Record UpdateMsg := mkUpdateMsg {
  ConfigurationValid : bool;
  Configuration : Config;
  StateMachineValid : bool;
  upd_StateMachine : StateMachine C
}.

Inductive Err : Set := OK | ErrWrongLeader.

(** ** The server *)

Record Server := mkServer {
  srv_sm : StateMachine C;
  updChs : gmap Z (list UpdateMsg);
  updChIndex : Z;
  resps : respChannels
}.

Definition NewServer : outcome Server :=
  sm ← NewStateMachine debug;
  Ret (mkServer sm ∅ 0 NewRespChannels).

(** The update that carries a state machine, and the one that carries a
    configuration; the other fields have their zero values. *)
Definition sm_update sm : UpdateMsg := mkUpdateMsg false ∅ true sm.
Definition conf_update (conf : Config) : UpdateMsg :=
  mkUpdateMsg true conf false (mkStateMachine 0 (replicate 3 zeroRoundInfo)).

Definition broadcast (u : UpdateMsg) (chs : gmap Z (list UpdateMsg)) : gmap Z (list UpdateMsg) :=
  (fun sent => sent ++ [u]) <$> chs.

(** The loop body copies the machine once per channel, so not at all without
    channels. *)
Definition sendStateMachineUpdate (s : Server) : outcome Server :=
  if bool_decide (updChs s = ∅) then Ret s else
  copy ← DeepCopy debug (srv_sm s);
  Ret (mkServer (srv_sm s) (broadcast (sm_update copy) (updChs s)) (updChIndex s) (resps s)).

Definition sendConfigurationUpdate (conf : Config) (s : Server) : Server :=
  mkServer (srv_sm s) (broadcast (conf_update conf) (updChs s)) (updChIndex s) (resps s).

Definition GetUpdCh (s : Server) : outcome (Z * Server) :=
  let index := updChIndex s in
  copy ← DeepCopy debug (srv_sm s);
  Ret (index, mkServer (srv_sm s) (<[index := [sm_update copy]]> (updChs s))
    (wrap64 (updChIndex s + 1)) (resps s)).

Definition CloseUpdCh (index : Z) (s : Server) : outcome Server :=
  match updChs s !! index with
  | None => Panic NilDereference
  | Some _ => Ret (mkServer (srv_sm s) (delete index (updChs s)) (updChIndex s) (resps s))
  end.

(** What [SubmitOp] does before it waits: it replies, or it waits on a channel
    with the mutex released. *)
Inductive Submitted := Replied (e : Err) | WaitOn (ch : chan).

(** [start] is what [rf.Start] returns: index, term, ok. *)
Definition SubmitOp_begin op (start : Z * Z * bool) (s : Server) : outcome (Submitted * Server) :=
  noEffect ← GuaranteedNoEffect debug op (srv_sm s);
  if noEffect : bool then Ret (Replied OK, s) else
  let '(index, term, ok) := start in
  if negb ok then Ret (Replied ErrWrongLeader, s) else
  '(ch, r) ← resp_Create debug term index (resps s);
  Ret (WaitOn ch, mkServer (srv_sm s) (updChs s) (updChIndex s) r).

(** What it replies after receiving [resp] from the channel; a closed channel
    yields false. *)
Definition SubmitOp_end (resp : bool) : Err := if negb resp then ErrWrongLeader else OK.

(** One iteration of [applier]; the result is the channel on which it then
    sends true, with the mutex released. *)
Definition applier_step (msg : ApplyMsg) (s : Server) : outcome (option chan * Server) :=
  if CommandValid msg then
    match Command msg with
    | None => Panic BadTypeAssertion
    | Some op =>
        '(updated, sm) ← Apply debug op (srv_sm s);
        let s := mkServer sm (updChs s) (updChIndex s) (resps s) in
        s ← (if updated : bool then sendStateMachineUpdate s else Ret s);
        Ret (resp_Get (CommandTerm msg) (CommandIndex msg) (resps s), s)
    end
  else if RaftUpdateValid msg then
    if negb (IsLeader msg) then
      r ← resp_Clear (resps s);
      Ret (None, mkServer (srv_sm s) (updChs s) (updChIndex s) r)
    else Ret (None, s)
  else if SnapshotValid msg then assertf debug false ;; Ret (None, s)
  else if ConfigValid msg then Ret (None, sendConfigurationUpdate (msg_Configuration msg) s)
  else assertf debug false ;; Ret (None, s).

(** ** Interleavings *)

(** A request whose [SubmitOp] waits. *)
Record request := mkRequest { rq_op : Op C; rq_term : Z; rq_index : Z; rq_chan : chan }.

(** [sending] is the channel on which the applier is blocked, if any; [dead]
    is set by [Kill]. *)
Record sys := mkSys { srv : Server; waiting : list request; sending : option chan; dead : bool }.

Inductive event :=
| EStart op (term index : Z)
| EReply op (e : Err)
| ECommand op (term index : Z) (updated : bool) sm
| EMessage
| ESubscribe (k : Z) sm
| EUnsubscribe (k : Z)
| EKill.

Inductive sys_step : sys → event → sys → Prop :=
| step_submit_reply op start s s' e w b d :
    SubmitOp_begin op start s = Ret (Replied e, s') →
    sys_step (mkSys s w b d) (EReply op e) (mkSys s' w b d)
| step_submit_wait op index term ok s s' ch w b d :
    SubmitOp_begin op (index, term, ok) s = Ret (WaitOn ch, s') →
    sys_step (mkSys s w b d) (EStart op term index)
      (mkSys s' (mkRequest op term index ch :: w) b d)
| step_command msg op s s' w b d updated sm' :
    CommandValid msg = true → Command msg = Some op → applier_step msg s = Ret (b, s') →
    Apply debug op (srv_sm s) = Ret (updated, sm') →
    sys_step (mkSys s w None d) (ECommand op (CommandTerm msg) (CommandIndex msg) updated sm')
      (mkSys s' w b d)
| step_message msg s s' w b d :
    CommandValid msg = false → applier_step msg s = Ret (b, s') →
    sys_step (mkSys s w None d) EMessage (mkSys s' w b d)
| step_deliver s w1 rq w2 d :
    sys_step (mkSys s (w1 ++ rq :: w2) (Some (rq_chan rq)) d) (EReply (rq_op rq) (SubmitOp_end true))
      (mkSys s (w1 ++ w2) None d)
| step_closed s w1 rq w2 b d :
    rq_chan rq ∈ closed (resps s) →
    sys_step (mkSys s (w1 ++ rq :: w2) b d) (EReply (rq_op rq) (SubmitOp_end false))
      (mkSys s (w1 ++ w2) b d)
| step_subscribe s k s' w b d :
    GetUpdCh s = Ret (k, s') →
    sys_step (mkSys s w b d) (ESubscribe k (srv_sm s)) (mkSys s' w b d)
| step_unsubscribe s k s' w b d :
    CloseUpdCh k s = Ret s' → sys_step (mkSys s w b d) (EUnsubscribe k) (mkSys s' w b d)
| step_kill s w b d : sys_step (mkSys s w b d) EKill (mkSys s w b true)
| step_killed s w1 rq w2 b :
    sys_step (mkSys s (w1 ++ rq :: w2) b true) (EReply (rq_op rq) (SubmitOp_end false))
      (mkSys s (w1 ++ w2) b true).

(** Traces from a new server. *)
Inductive sys_run : list event → sys → Prop :=
| run_new s : NewServer = Ret s → sys_run [] (mkSys s [] None false)
| run_snoc tr y e y' : sys_run tr y → sys_step y e y' → sys_run (tr ++ [e]) y'.

End server.
