(* ===== verification/ServerProps.v ===== *)
(** * Correctness of the server

    What a client can conclude from the reply to [SubmitOp], that the state is
    the fold of the committed commands, and what arrives on an update channel.
    Two documented facts about Raft are named hypotheses: [Start] never hands
    out the same term and index twice, and a command committed at some term and
    index is the one that was started there. *)

From stdpp Require Import gmap strings.
From S2P Require Import Prelude Bytes Crypto Op StateMachine RoundSpec StateMachineProps.
From S2P Require Import Primes Representation RespChannels Server.

Local Open Scope Z_scope.

Section props.
Context {C : Type} `{CommutativeCrypto C} (debug : bool).
Implicit Types (op : Op C) (sm : StateMachine C) (tr : list (event (C := C))) (y : sys (C := C)).

(** ** Hypotheses about Raft *)

Definition start_unique tr : Prop :=
  ∀ tr1 op t i tr2, tr = tr1 ++ EStart op t i :: tr2 → ∀ op', EStart op' t i ∉ tr1.

Definition log_matching tr : Prop :=
  ∀ op op' t i b sm, EStart op t i ∈ tr → ECommand op' t i b sm ∈ tr → op = op'.

Lemma start_unique_prefix tr tr' : start_unique (tr ++ tr') → start_unique tr.
Proof. intros Hu tr1 op t i tr2 ->. eapply (Hu tr1 op t i (tr2 ++ tr')). by rewrite <- app_assoc. Qed.

Lemma log_matching_prefix tr tr' : log_matching (tr ++ tr') → log_matching tr.
Proof. intros Hl op op' t i b sm H1 H2. eapply Hl; apply elem_of_app; left; eassumption. Qed.

(** ** Single steps *)

Lemma SubmitOp_begin_cases op start s r s' :
  SubmitOp_begin debug op start s = Ret (r, s') →
  (r = Replied OK ∧ s' = s ∧ GuaranteedNoEffect debug op (srv_sm s) = Ret true) ∨
  (r = Replied ErrWrongLeader ∧ s' = s) ∨
  (∃ index term ch r', start = (index, term, true) ∧ r = WaitOn ch ∧
     resp_Create debug term index (resps s) = Ret (ch, r') ∧
     s' = mkServer (srv_sm s) (updChs s) (updChIndex s) r').
Proof.
  unfold SubmitOp_begin. intros (ne & Hne & HS)%bind_ret_inv.
  destruct ne; simplify_eq; [by left|]. right.
  destruct start as [[index term] ok]. destruct ok; simplify_eq/=; [|by left].
  apply bind_ret_inv in HS as ([ch r'] & Hc & HS). simplify_eq. right. eauto 10.
Qed.

Lemma sendStateMachineUpdate_frame s s' :
  sendStateMachineUpdate debug s = Ret s' → srv_sm s' = srv_sm s ∧ resps s' = resps s.
Proof.
  unfold sendStateMachineUpdate. case_bool_decide; [by intros [= ->]|].
  by intros (copy & _ & [= <-])%bind_ret_inv.
Qed.

Lemma applier_command msg op s b s' :
  CommandValid msg = true → Command msg = Some op → applier_step debug msg s = Ret (b, s') →
  ∃ updated sm, Apply debug op (srv_sm s) = Ret (updated, sm) ∧ srv_sm s' = sm ∧
    resps s' = resps s ∧ b = flat (resps s) (CommandTerm msg, CommandIndex msg).
Proof.
  intros Hv Hc. unfold applier_step. rewrite Hv, Hc.
  intros ([updated sm] & HA & (s1 & Hs1 & [= <- <-])%bind_ret_inv)%bind_ret_inv.
  exists updated, sm. destruct updated.
  - apply sendStateMachineUpdate_frame in Hs1 as [E1 E2]. simpl in *.
    unfold flat. rewrite E2. by split_and!.
  - injection Hs1 as <-. by split_and!.
Qed.

(** A message that is not a command keeps the state; it may close channels. *)
Lemma applier_other msg s b s' :
  resp_inv (resps s) → CommandValid msg = false → applier_step debug msg s = Ret (b, s') →
  b = None ∧ srv_sm s' = srv_sm s ∧ resp_inv (resps s') ∧
  ((resps s' = resps s) ∨
   (∀ k, flat (resps s') k = None) ∧
   (∀ ch, ch ∈ closed (resps s') ↔ ch ∈ closed (resps s) ∨ ∃ k, flat (resps s) k = Some ch)).
Proof.
  intros Hi Hv. unfold applier_step. rewrite Hv.
  destruct (RaftUpdateValid msg).
  { destruct (IsLeader msg); simpl; [intros [= <- <-]; auto|].
    destruct (resp_Clear_spec _ Hi) as (r & -> & Hi' & Hn & _ & Hcl). simpl.
    intros [= <- <-]. simpl. auto 10. }
  destruct (SnapshotValid msg); [by intros ([] & _ & [= <- <-])%bind_ret_inv; auto|].
  destruct (ConfigValid msg); [by intros [= <- <-]; auto|].
  by intros ([] & _ & [= <- <-])%bind_ret_inv; auto.
Qed.

(** ** Requests and channels *)

Record sys_inv tr y : Prop := {
  si_resps : resp_inv (resps (srv y));
  si_started : ∀ k ch, flat (resps (srv y)) k = Some ch → ∃ op, EStart op k.1 k.2 ∈ tr;
  si_waiting : ∀ rq, rq ∈ waiting y →
    EStart (rq_op rq) (rq_term rq) (rq_index rq) ∈ tr ∧
    (flat (resps (srv y)) (rq_term rq, rq_index rq) = Some (rq_chan rq) ∨
     rq_chan rq ∈ closed (resps (srv y)));
  si_sending : ∀ ch, sending y = Some ch →
    ∃ op t i b sm, ECommand op t i b sm ∈ tr ∧ flat (resps (srv y)) (t, i) = Some ch
}.

Lemma sys_inv_new s : NewServer debug = Ret s → sys_inv [] (mkSys s [] None false).
Proof.
  unfold NewServer. intros (sm & _ & [= <-])%bind_ret_inv. split; simpl; [apply resp_inv_new| | |done].
  - intros k ch. unfold flat, resp_Get. simpl. by rewrite lookup_empty.
  - intros rq Hrq. by apply elem_of_nil in Hrq.
Qed.

(** Steps that keep the channels and forget requests at most. *)
Lemma sys_inv_frame tr y y' e :
  sys_inv tr y → resps (srv y') = resps (srv y) → (∀ rq, rq ∈ waiting y' → rq ∈ waiting y) →
  (∀ ch, sending y' = Some ch → sending y = Some ch) → sys_inv (tr ++ [e]) y'.
Proof.
  intros [S1 S2 S3 S4] E1 E2 E3. split; rewrite ?E1; try done.
  - intros k ch Hk. destruct (S2 _ _ Hk) as [op Hop]. exists op. set_solver.
  - intros rq Hrq. destruct (S3 _ (E2 _ Hrq)) as [H1 H2]. split; [set_solver|done].
  - intros ch Hch. destruct (S4 _ (E3 _ Hch)) as (op & t & i & b & sm & H1 & H2).
    exists op, t, i, b, sm. split; [set_solver|done].
Qed.

Lemma sys_inv_wait tr s w b d op term index ch r' :
  sys_inv tr (mkSys s w b d) → (∀ op', EStart op' term index ∉ tr) →
  resp_Create debug term index (resps s) = Ret (ch, r') →
  sys_inv (tr ++ [EStart op term index])
    (mkSys (mkServer (srv_sm s) (updChs s) (updChIndex s) r') (mkRequest op term index ch :: w) b d).
Proof.
  intros [S1 S2 S3 S4] Hnew HC. simpl in *.
  assert (flat (resps s) (term, index) = None) as Hn.
  { destruct (flat (resps s) (term, index)) eqn:E; [|done].
    destruct (S2 _ _ E) as [op' Hin]. by apply Hnew in Hin. }
  destruct (resp_Create_spec debug term index _ S1 Hn) as (r1 & E & Hi & Hcl & _ & Hf).
  rewrite E in HC. injection HC as <- <-.
  split; simpl; [done| | |].
  - intros k ch. rewrite Hf. case_decide as Hk; [subst k; intros _; exists op; set_solver|].
    intros Hk'. destruct (S2 _ _ Hk') as [op' ?]. exists op'. set_solver.
  - intros rq [->|Hrq]%elem_of_cons; simpl.
    + split; [set_solver|]. left. by rewrite Hf, decide_True.
    + destruct (S3 _ Hrq) as [H1 H2]. split; [set_solver|]. rewrite Hcl, Hf.
      case_decide as Hk; [|done]. injection Hk as Ht Hx. rewrite Ht, Hx in H1.
      by apply Hnew in H1.
  - intros ch Hch. destruct (S4 _ Hch) as (op' & t & i & b' & sm & H1 & H2).
    exists op', t, i, b', sm. split; [set_solver|]. rewrite Hf.
    case_decide as Hk; [congruence|done].
Qed.

Lemma sys_inv_other tr s w d msg b s' :
  sys_inv tr (mkSys s w None d) → CommandValid msg = false → applier_step debug msg s = Ret (b, s') →
  sys_inv (tr ++ [EMessage]) (mkSys s' w b d).
Proof.
  intros Hi Hv HA. pose proof Hi as [S1 S2 S3 S4]. simpl in *.
  destruct (applier_other _ _ _ _ S1 Hv HA) as (-> & _ & Hi' & [E|[Hn Hcl]]).
  - by eapply sys_inv_frame.
  - split; simpl; try done.
    + intros k ch Hk. congruence.
    + intros rq Hrq. destruct (S3 _ Hrq) as [H1 H2]. split; [set_solver|]. right. apply Hcl.
      destruct H2; eauto.
Qed.

Lemma sys_inv_command tr s w d msg op b s' updated sm :
  sys_inv tr (mkSys s w None d) → CommandValid msg = true → Command msg = Some op →
  applier_step debug msg s = Ret (b, s') →
  sys_inv (tr ++ [ECommand op (CommandTerm msg) (CommandIndex msg) updated sm]) (mkSys s' w b d).
Proof.
  intros Hi Hv Hc HA. pose proof Hi as [S1 S2 S3 S4]. simpl in *.
  destruct (applier_command _ _ _ _ _ Hv Hc HA) as (u & sm1 & _ & _ & E & ->).
  split; simpl; rewrite ?E; try done.
  - intros k ch Hk. destruct (S2 _ _ Hk) as [op' ?]. exists op'. set_solver.
  - intros rq Hrq. destruct (S3 _ Hrq) as [H1 H2]. split; [set_solver|done].
  - intros ch Hch. exists op, (CommandTerm msg), (CommandIndex msg), updated, sm. split; [set_solver|done].
Qed.

Lemma sys_run_inv tr y : sys_run debug tr y → start_unique tr → sys_inv tr y.
Proof.
  induction 1 as [s Hs|tr y e y' Hr IH Hst]; intros Hu; [by apply sys_inv_new|].
  specialize (IH (start_unique_prefix _ _ Hu)).
  destruct Hst as [op start s s' e w b d HS|op index term ok s s' ch w b d HS
    |msg op s s' w b d updated sm' Hv Hc HA HAp|msg s s' w b d Hv HA|s w1 rq w2 d|s w1 rq w2 b d Hcl
    |s k s' w b d HG|s k s' w b d HC|s w b d|s w1 rq w2 b].
  - apply SubmitOp_begin_cases in HS as [(_ & -> & _)|[[_ ->]|(?&?&?&?&_&[=]&_)]];
      by eapply sys_inv_frame.
  - apply SubmitOp_begin_cases in HS as [([=] & _)|[([=] & _)|(i&t&ch'&r'&[= -> -> ->]&[= ->]&HC& ->)]].
    eapply sys_inv_wait; [done| |done]. intros op'. by eapply (Hu tr op t i []).
  - by eapply sys_inv_command.
  - by eapply sys_inv_other.
  - eapply sys_inv_frame; [done|done|simpl; set_solver|done].
  - eapply sys_inv_frame; [done|done|simpl; set_solver|done].
  - unfold GetUpdCh in HG. apply bind_ret_inv in HG as (copy & _ & [= <- <-]).
    by eapply sys_inv_frame.
  - unfold CloseUpdCh in HC. destruct (updChs s !! k); [|done]. injection HC as <-.
    by eapply sys_inv_frame.
  - by eapply sys_inv_frame.
  - eapply sys_inv_frame; [done|done|simpl; set_solver|done].
Qed.

Lemma sys_run_last tr e y' :
  sys_run debug (tr ++ [e]) y' → ∃ y, sys_run debug tr y ∧ sys_step debug y e y'.
Proof.
  intros Hr. inversion Hr as [? ? Hn|tr0 y0 e0 y1 Hr0 Hs Heq]; subst; [by destruct tr|].
  apply app_inj_tail in Heq as [-> ->]. eauto.
Qed.

(** ** The state machine *)

(** The commands that Raft has committed, in order. *)
Definition command_of (e : event (C := C)) : option (Op C) :=
  match e with ECommand op _ _ _ _ => Some op | _ => None end.
Definition commands tr : list (Op C) := omap command_of tr.

Lemma commands_snoc tr e :
  commands (tr ++ [e]) = commands tr ++ match command_of e with Some op => [op] | None => [] end.
Proof. unfold commands. rewrite omap_app. simpl. by destruct (command_of e). Qed.

(** A step changes the state machine only by applying a command. *)
Lemma step_state y e y' :
  sys_step debug y e y' →
  match command_of e with
  | Some op => ∃ b, Apply debug op (srv_sm (srv y)) = Ret (b, srv_sm (srv y'))
  | None => srv_sm (srv y') = srv_sm (srv y)
  end.
Proof.
  destruct 1 as [op start s s' e w b d HS|op index term ok s s' ch w b d HS
    |msg op s s' w b d updated sm' Hv Hc HA HAp|msg s s' w b d Hv HA|s w1 rq w2 d|s w1 rq w2 b d Hcl
    |s k s' w b d HG|s k s' w b d HC|s w b d|s w1 rq w2 b]; simpl; try done.
  - by apply SubmitOp_begin_cases in HS as [(_ & -> & _)|[[_ ->]|(?&?&?&?&_&[=]&_)]].
  - by apply SubmitOp_begin_cases in HS as [([=] & _)|[([=] & _)|(?&?&?&?&_&_&_& ->)]].
  - destruct (applier_command _ _ _ _ _ Hv Hc HA) as (u & sm1 & HA1 & <- & _). eauto.
  - unfold applier_step in HA. rewrite Hv in HA. destruct (RaftUpdateValid msg).
    + destruct (IsLeader msg); simpl in HA; [by injection HA as _ <-|].
      by apply bind_ret_inv in HA as (r & _ & [= _ <-]).
    + destruct (SnapshotValid msg); [by apply bind_ret_inv in HA as ([] & _ & [= _ <-])|].
      destruct (ConfigValid msg); [by injection HA as _ <-|].
      by apply bind_ret_inv in HA as ([] & _ & [= _ <-]).
  - by apply bind_ret_inv in HG as (copy & _ & [= _ <-]).
  - unfold CloseUpdCh in HC. destruct (updChs s !! k); by simplify_eq.
Qed.

Lemma sys_run_state tr y sm0 :
  sys_run debug tr y → NewStateMachine debug = Ret sm0 →
  run debug (commands tr) sm0 = Ret (srv_sm (srv y)).
Proof.
  intros Hr H0. induction Hr as [s Hs|tr y e y' Hr IH Hst].
  - unfold NewServer in Hs. by apply bind_ret_inv in Hs as (sm & E & [= <-]); simpl; congruence.
  - apply step_state in Hst. rewrite commands_snoc. destruct (command_of e) as [op|].
    + destruct Hst as [b HA]. rewrite (run_app _ _ _ _ _ IH). simpl. by rewrite HA.
    + rewrite app_nil_r. congruence.
Qed.

(** What an OK reply means, for the composition with the client. *)
Lemma ok_reply tr op y :
  sys_run debug (tr ++ [EReply op OK]) y →
  start_unique tr → log_matching tr →
  (∃ t i b sm, ECommand op t i b sm ∈ tr) ∨ GuaranteedNoEffect debug op (srv_sm (srv y)) = Ret true.
Proof.
  intros (y0 & Hr & Hst)%sys_run_last Hu Hl. pose proof (sys_run_inv _ _ Hr Hu) as [S1 S2 S3 S4].
  inversion Hst as [op0 start s s' e w b d HS| | | |s w1 rq w2 d| | | | |]; subst.
  - apply SubmitOp_begin_cases in HS as [(_ & -> & HG)|[([=] & _)|(?&?&?&?&_&[=]&_)]]. by right.
  - left. simpl in *. destruct (S3 rq) as [Hs Hrq]; [set_solver|].
    destruct (S4 _ eq_refl) as (op' & t & i & b & sm & Hc & Hf).
    destruct Hrq as [Hrq|Hrq]; [|by destruct (reg_open _ S1 _ _ Hf)].
    pose proof (reg_inj _ S1 _ _ _ Hf Hrq) as [= -> ->].
    exists (rq_term rq), (rq_index rq), b, sm. by rewrite (Hl _ _ _ _ _ _ Hs Hc).
Qed.

(** A run passes through the state after each prefix of its trace, and the
    commands after the prefix lead from that state to the last one. *)
Lemma sys_run_split tr1 tr2 y :
  sys_run debug (tr1 ++ tr2) y →
  ∃ y1, sys_run debug tr1 y1 ∧ run debug (commands tr2) (srv_sm (srv y1)) = Ret (srv_sm (srv y)).
Proof.
  revert y. induction tr2 as [|e tr2 IH] using rev_ind; intros y Hr.
  - rewrite app_nil_r in Hr. by exists y.
  - rewrite app_assoc in Hr. apply sys_run_last in Hr as (y0 & Hr & Hst).
    destruct (IH _ Hr) as (y1 & H1 & H2). exists y1. split; [done|].
    apply step_state in Hst. rewrite commands_snoc. destruct (command_of e) as [op|].
    + destruct Hst as [b HA]. rewrite (run_app _ _ _ _ _ H2). simpl. by rewrite HA.
    + rewrite app_nil_r. congruence.
Qed.

(** ** Properties *)

(** C7: the meaning of OK.  Whenever [SubmitOp] replies OK for an operation,
    either the operation was applied to the state machine before, or it is
    guaranteed to have no effect in the current state. *)
Theorem SubmitOp_OK_sound tr op y :
  sys_run debug (tr ++ [EReply op OK]) y →
  start_unique tr → log_matching tr →
  (∃ t i b sm, ECommand op t i b sm ∈ tr) ∨ GuaranteedNoEffect debug op (srv_sm (srv y)) = Ret true.
Proof. apply ok_reply. Qed.

(** C28: no request is forgotten.  A waiting request whose channel is still open
    is answered: when the applier applies the command of its term and index it
    sends on the request's own channel, and when the server loses leadership
    the channel is closed. *)
Theorem waiting_request_is_answered tr y rq msg b s' :
  sys_run debug tr y → start_unique tr → rq ∈ waiting y →
  rq_chan rq ∉ closed (resps (srv y)) → applier_step debug msg (srv y) = Ret (b, s') →
  (CommandValid msg = true → is_Some (Command msg) →
   CommandTerm msg = rq_term rq → CommandIndex msg = rq_index rq → b = Some (rq_chan rq)) ∧
  (CommandValid msg = false → RaftUpdateValid msg = true → IsLeader msg = false →
   rq_chan rq ∈ closed (resps s')).
Proof.
  intros Hr Hu Hrq Hop HA. pose proof (sys_run_inv _ _ Hr Hu) as [S1 S2 S3 S4].
  destruct (S3 _ Hrq) as [_ [Hf|?]]; [|done]. split.
  - intros Hv [op Hc] Ht Hx. destruct (applier_command _ _ _ _ _ Hv Hc HA) as (_ & _ & _ & _ & _ & ->).
    by rewrite Ht, Hx.
  - intros Hv Hupd Hlead. unfold applier_step in HA. rewrite Hv, Hupd, Hlead in HA. simpl in HA.
    destruct (resp_Clear_spec _ S1) as (r & Hcl & _ & _ & _ & Hin). rewrite Hcl in HA. simpl in HA.
    injection HA as <- <-. simpl. apply Hin. eauto.
Qed.

End props.

Section replicas.
Context {C : Type} `{CommutativeCrypto C}.

(** C12: replicas agree.  With assertions disabled and fewer than 2^63 commands, the
    state of a server is the result of applying the committed commands, in order, to the initial state; so two servers that
    have seen the same commands hold the same state, and if one is ahead of the
    other, [MayPrecede] holds between their states. *)
Theorem replicas_agree (tr1 tr2 : list (event (C := C))) y1 y2 later :
  sys_run false tr1 y1 → sys_run false tr2 y2 → commands tr2 = commands tr1 ++ later →
  Z.of_nat (length (commands tr2)) ≤ int_max →
  (later = [] → srv_sm (srv y1) = srv_sm (srv y2)) ∧
  run false later (srv_sm (srv y1)) = Ret (srv_sm (srv y2)) ∧
  MayPrecede false (srv_sm (srv y1)) (srv_sm (srv y2)) = Ret true.
Proof.
  intros H1 H2 Hc Hlen. destruct (@NewStateMachine_inv C false) as (sm0 & H0 & Hi & HR).
  pose proof (sys_run_state _ _ _ sm0 H1 H0) as R1. pose proof (sys_run_state _ _ _ sm0 H2 H0) as R2.
  rewrite Hc, length_app in Hlen. rewrite Hc, (run_app _ _ _ _ _ R1) in R2.
  destruct (run_bound _ _ _ Hi R1) as [Hi1 Hb1]; [unfold in_range; lia|].
  split; [|split; [done|]].
  - intros ->. by injection R2.
  - destruct (run_precedes later (srv_sm (srv y1)) Hi1) as (sm' & Hr & Hi2 & Hp);
      [unfold in_range; lia|].
    rewrite R2 in Hr. injection Hr as <-.
    destruct (MayPrecede_spec false _ _ Hi1 Hi2) as (b & -> & Hb). f_equal. by apply Hb.
Qed.

End replicas.

(** ** Update channels *)

Section updates.
Context {C : Type} `{CommutativeCryptoLaws C} (debug : bool).
Implicit Types (op : Op C) (sm : StateMachine C) (tr : list (event (C := C))) (y : sys (C := C)).

(** The states carried by the updates of a channel. *)
Definition state_updates (sent : list (UpdateMsg (C := C))) : list (StateMachine C) :=
  map upd_StateMachine (filter (fun u => StateMachineValid u = true) sent).

(** What the subscriber with index [k] is promised: the state at the time of
    the subscription, then every state that differs from its predecessor. *)
Definition observe (k : Z) (acc : option (list (StateMachine C))) (e : event (C := C))
    : option (list (StateMachine C)) :=
  match e with
  | ESubscribe k' sm => if decide (k' = k) then Some [sm] else acc
  | ECommand _ _ _ true sm => (fun l => l ++ [sm]) <$> acc
  | EUnsubscribe k' => if decide (k' = k) then None else acc
  | _ => acc
  end.
Definition seen (k : Z) tr : option (list (StateMachine C)) := foldl (observe k) None tr.

Lemma seen_snoc k tr e : seen k (tr ++ [e]) = observe k (seen k tr) e.
Proof. unfold seen. by rewrite foldl_app. Qed.

Lemma state_updates_sm sent sm : state_updates (sent ++ [sm_update sm]) = state_updates sent ++ [sm].
Proof. unfold state_updates. by rewrite filter_app, map_app. Qed.

Lemma state_updates_conf sent conf : state_updates (sent ++ [conf_update conf]) = state_updates sent.
Proof. unfold state_updates. rewrite filter_app, map_app. by rewrite app_nil_r. Qed.

Lemma applier_updates msg op s b s' updated sm' :
  CommandValid msg = true → Command msg = Some op → applier_step debug msg s = Ret (b, s') →
  Apply debug op (srv_sm s) = Ret (updated, sm') → DeepCopy debug sm' = Ret sm' →
  updChs s' = if updated then broadcast (sm_update sm') (updChs s) else updChs s.
Proof.
  intros Hv Hc HA HAp HD. unfold applier_step in HA. rewrite Hv, Hc, HAp in HA. simpl in HA.
  apply bind_ret_inv in HA as (s1 & Hs1 & [= _ <-]). destruct updated; [|by injection Hs1 as <-].
  unfold sendStateMachineUpdate in Hs1. simpl in Hs1. case_bool_decide as He.
  - injection Hs1 as <-. simpl. rewrite He. unfold broadcast. by rewrite fmap_empty.
  - rewrite HD in Hs1. simpl in Hs1. by injection Hs1 as <-.
Qed.

Lemma legal_log_prefix ops ops' sm : legal_log (ops ++ ops') sm → legal_log ops sm.
Proof.
  revert sm. induction ops as [|op ops IH]; intros sm; simpl; [done|].
  intros [Hwf Hl]. split; [done|]. intros b sm' HA. by eapply IH, Hl.
Qed.

Lemma legal_log_last ops op sm sm1 :
  legal_log (ops ++ [op]) sm → run false ops sm = Ret sm1 → legal_log [op] sm1.
Proof.
  revert sm. induction ops as [|o ops IH]; intros sm; simpl; [by intros ? [= <-]|].
  intros [_ Hl] ([b sm'] & HA & Hr)%bind_ret_inv. by eapply IH, Hr; eapply Hl.
Qed.

(** Messages other than commands leave the state updates alone. *)
Lemma applier_other_updates msg s b s' k :
  CommandValid msg = false → applier_step debug msg s = Ret (b, s') →
  state_updates <$> (updChs s' !! k) = state_updates <$> (updChs s !! k).
Proof.
  intros Hv HA. unfold applier_step in HA. rewrite Hv in HA. destruct (RaftUpdateValid msg).
  { destruct (IsLeader msg); simpl in HA; [by injection HA as _ <-|].
    by apply bind_ret_inv in HA as (r & _ & [= _ <-]). }
  destruct (SnapshotValid msg); [by apply bind_ret_inv in HA as ([] & _ & [= _ <-])|].
  destruct (ConfigValid msg); [|by apply bind_ret_inv in HA as ([] & _ & [= _ <-])].
  injection HA as _ <-. simpl. unfold broadcast. rewrite lookup_fmap.
  destruct (updChs s !! k); simpl; [by rewrite state_updates_conf|done].
Qed.

Section run.
Context sm0 (H0n : NewStateMachine debug = Ret sm0).

Lemma initial_legal : sm_inv sm0 ∧ Round sm0 = 0 ∧ legal sm0.
Proof.
  destruct (@NewStateMachine_inv C debug) as (sm & HN & Hi & HR). rewrite H0n in HN.
  injection HN as <-. split; [done|]. split; [done|].
  destruct debug; vm_compute in H0n; injection H0n as <-; repeat constructor; (done || by intuition).
Qed.

(** The state reached by a legal log can be copied. *)
Lemma sys_run_legal tr y :
  sys_run debug tr y → legal_log (commands tr) sm0 →
  Z.of_nat (length (commands tr)) ≤ int_max →
  sm_inv (srv_sm (srv y)) ∧ legal (srv_sm (srv y)) ∧ Round (srv_sm (srv y)) ≤ Z.of_nat (length (commands tr)).
Proof.
  intros Hr Hl Hb. destruct initial_legal as (Hi & HR & Hleg).
  destruct (run_legal debug (commands tr) sm0 Hi Hleg)
    as (sm & E1 & E2 & Hi' & Hleg'); [unfold in_range; lia|done|].
  rewrite (sys_run_state _ _ _ sm0 Hr H0n) in E1. injection E1 as <-. split; [done|]. split; [done|].
  destruct (run_bound _ _ _ Hi E2) as [_ ?]; [unfold in_range; lia|]. lia.
Qed.

Lemma sys_run_seen tr y k :
  sys_run debug tr y → legal_log (commands tr) sm0 →
  Z.of_nat (length (commands tr)) ≤ int_max →
  state_updates <$> (updChs (srv y) !! k) = seen k tr.
Proof.
  induction 1 as [s Hs|tr y e y' Hr IH Hst]; intros Hl Hb.
  { unfold NewServer in Hs. apply bind_ret_inv in Hs as (sm & E & [= <-]).
    simpl. by rewrite lookup_empty. }
  pose proof (run_snoc _ _ _ _ _ Hr Hst) as Hr'.
  destruct (sys_run_legal _ _ Hr' Hl Hb) as (Hi' & Hleg' & _).
  rewrite commands_snoc, length_app in Hb. rewrite commands_snoc in Hl.
  pose proof (legal_log_prefix _ _ _ Hl) as Hl0.
  destruct (sys_run_legal _ _ Hr Hl0 ltac:(lia)) as (Hi & Hleg & _).
  specialize (IH Hl0 ltac:(lia)). rewrite seen_snoc, <- IH. clear IH Hl Hb Hr Hr' Hl0.
  destruct Hst as [op start s s' e w b d HS|op index term ok s s' ch w b d HS
    |msg op s s' w b d updated sm' Hv Hc HA HAp|msg s s' w b d Hv HA|s w1 rq w2 d|s w1 rq w2 b d Hcl
    |s k' s' w b d HG|s k' s' w b d HC|s w b d|s w1 rq w2 b]; simpl in *; try done.
  - by apply SubmitOp_begin_cases in HS as [(_ & -> & _)|[[_ ->]|(?&?&?&?&_&[=]&_)]].
  - by apply SubmitOp_begin_cases in HS as [([=] & _)|[([=] & _)|(?&?&?&?&_&_&_& ->)]].
  - destruct (applier_command _ _ _ _ _ _ Hv Hc HA) as (u & sm1 & HA1 & E1 & _).
    rewrite HAp in HA1. injection HA1 as <- <-. rewrite E1 in Hi', Hleg'.
    rewrite (applier_updates _ _ _ _ _ _ _ Hv Hc HA HAp (DeepCopy_legal debug _ Hi' Hleg')).
    destruct updated; [|done]. unfold broadcast. rewrite lookup_fmap.
    destruct (updChs s !! k); simpl; [by rewrite state_updates_sm|done].
  - by eapply applier_other_updates.
  - unfold GetUpdCh in HG. rewrite (DeepCopy_legal debug _ Hi Hleg) in HG. simpl in HG.
    injection HG as <- <-. simpl. destruct (decide (updChIndex s = k)) as [->|Hne].
    + by rewrite lookup_insert_eq.
    + by rewrite lookup_insert_ne.
  - unfold CloseUpdCh in HC. destruct (updChs s !! k') as [l|] eqn:E; [|done]. injection HC as <-. simpl.
    destruct (decide (k' = k)) as [->|Hne]; [by rewrite lookup_delete_eq|by rewrite lookup_delete_ne].
Qed.

End run.

(** Consecutive elements of a list are related. *)
Definition chained (l : list (StateMachine C)) : Prop :=
  ∀ i a b, l !! i = Some a → l !! S i = Some b → precedes a b.

Lemma chained_snoc l sm sm' : chained (l ++ [sm]) → precedes sm sm' → chained ((l ++ [sm]) ++ [sm']).
Proof.
  intros Hch Hp i a b Ha Hb. destruct (decide (S i < length (l ++ [sm]))%nat) as [Hlt|Hge].
  - rewrite lookup_app_l in Ha, Hb by lia. by eapply Hch.
  - apply lookup_lt_Some in Hb as Hlt. rewrite !length_app in *. simpl in *.
    assert (i = length l) as -> by lia.
    rewrite lookup_app_l in Ha by (rewrite length_app; simpl; lia).
    rewrite list_lookup_middle in Ha by done. injection Ha as <-.
    rewrite lookup_app_r in Hb by (rewrite length_app; simpl; lia).
    rewrite length_app in Hb. simpl in Hb. replace (S (length l) - (length l + 1))%nat with 0%nat in Hb by lia.
    by injection Hb as <-.
Qed.

Section order.
Context sm0 (H0n : NewStateMachine debug = Ret sm0).

Lemma seen_chained tr y k l :
  sys_run debug tr y → legal_log (commands tr) sm0 →
  Z.of_nat (length (commands tr)) ≤ int_max → seen k tr = Some l →
  (∃ l', l = l' ++ [srv_sm (srv y)]) ∧ chained l ∧ Forall sm_inv l.
Proof.
  intros Hr. revert l. induction Hr as [s Hs|tr y e y' Hr IH Hst]; intros l Hl Hb Hseen; [done|].
  pose proof (run_snoc _ _ _ _ _ Hr Hst) as Hr'.
  destruct (sys_run_legal sm0 H0n _ _ Hr' Hl Hb) as (Hi' & Hleg' & _).
  rewrite commands_snoc, length_app in Hb. rewrite commands_snoc in Hl.
  pose proof (legal_log_prefix _ _ _ Hl) as Hl0.
  destruct (sys_run_legal sm0 H0n _ _ Hr Hl0 ltac:(lia)) as (Hi & Hleg & HR).
  specialize (fun l => IH l Hl0 ltac:(lia)). rewrite seen_snoc in Hseen.
  pose proof (step_state _ _ _ _ Hst) as Hstate.
  assert (command_of e = None → observe k (seen k tr) e = seen k tr ∨
    (∃ sm, e = ESubscribe k sm ∧ observe k (seen k tr) e = Some [sm]) ∨ observe k (seen k tr) e = None) as Hcases.
  { destruct e; simpl; try done; auto; case_decide; subst; eauto 10. }
  destruct (command_of e) as [op|] eqn:He.
  - clear Hcases. destruct e as [| |op' t i u smn| | | |]; try done. simpl in He. injection He as ->.
    destruct Hstate as [b HA].
    assert (smn = srv_sm (srv y') ∧ u = b) as [-> ->].
    { inversion Hst as [| |msg op0 s s' w bb d u0 smn0 Hv Hc HAs HAp| | | | | | |]; subst. simpl in *. split; congruence. }
    assert (precedes (srv_sm (srv y)) (srv_sm (srv y')) ∧
      (b = false → srv_sm (srv y') = srv_sm (srv y))) as [Hp Hsame].
    { simpl in Hb. destruct (Apply_legal debug op (srv_sm (srv y)) Hi ltac:(lia) Hleg) as (b' & sm' & E1 & E2 & _).
      - apply legal_log_last with (sm1 := srv_sm (srv y)) in Hl; [by destruct Hl|].
        destruct (initial_legal sm0 H0n) as (Hi0 & HR0 & Hleg0).
        destruct (run_legal debug (commands tr) sm0 Hi0 Hleg0) as (smx & X1 & X2 & _);
          [unfold in_range; lia|done|].
        rewrite (sys_run_state _ _ _ sm0 Hr H0n) in X1. by injection X1 as <-.
      - rewrite HA in E1. injection E1 as <- <-. split; [by eapply Apply_precedes; [done|lia|done]|].
        intros ->. destruct (Apply_cases op (srv_sm (srv y)) Hi ltac:(lia)) as
          [(?&?&?&_&_&_&E)|[_ E]]; rewrite E2 in E; by injection E. }
    destruct b; simpl in Hseen.
    + destruct (seen k tr) as [l0|]; [|done]. injection Hseen as <-.
      destruct (IH _ eq_refl) as ((l' & ->) & Hch & Hall).
      split; [by eexists|]. split; [by apply chained_snoc|]. apply Forall_app_2; [done|]. by constructor.
    + rewrite Hsame by done. by apply IH.
  - destruct (Hcases eq_refl) as [E|[(sm & -> & E)|E]]; rewrite E in Hseen; [| |done].
    + rewrite Hstate. by apply IH.
    + injection Hseen as <-. inversion Hst; subst. simpl in *. rewrite Hstate.
      split; [by exists []|]. split; [by intros [|] ? ?|by constructor].
Qed.

End order.

(** C11: updates arrive completely and in order.  On a log of well-formed
    operations, the states sent on an update channel are the state at the time
    of the subscription followed by every state that an operation changed, in
    order; the last of them is the current state, and [MayPrecede] holds between
    any two consecutive ones, as the client asserts. *)
Theorem update_channel_in_order tr y k sm0 :
  sys_run debug tr y → NewStateMachine debug = Ret sm0 → legal_log (commands tr) sm0 →
  Z.of_nat (length (commands tr)) ≤ int_max →
  state_updates <$> (updChs (srv y) !! k) = seen k tr ∧
  ∀ l, seen k tr = Some l →
    last l = Some (srv_sm (srv y)) ∧
    ∀ i a b, l !! i = Some a → l !! S i = Some b → MayPrecede debug a b = Ret true.
Proof.
  intros Hr HN Hl Hb. split; [by eapply sys_run_seen|]. intros l Hs.
  destruct (seen_chained sm0 HN _ _ _ _ Hr Hl Hb Hs) as ((l' & ->) & Hch & Hall).
  split; [apply last_snoc|]. intros i a b Ha Hb'. rewrite Forall_lookup in Hall.
  destruct (MayPrecede_spec debug a b (Hall _ _ Ha) (Hall _ _ Hb')) as (r & -> & Hr').
  f_equal. by apply Hr', (Hch i).
Qed.

End updates.

(** ** A concrete trace *)

Module ServerDemo.
Import Demo.

#[local] Instance trial : BigProbablyPrime := fun p _ => Primes.trial_prime p.

Definition st (ops : list (Op masseyOmuraCrypto)) : StateMachine masseyOmuraCrypto := after ops.
Definition joined : Op masseyOmuraCrypto := JoinOp alice 0.

(** A client subscribes, submits a [JoinOp], and Raft commits it. *)
Definition registered : respChannels := create 1 7 NewRespChannels.
Definition trace : list (event (C := masseyOmuraCrypto)) :=
  [ESubscribe 0 (st []); EStart joined 1 7; ECommand joined 1 7 true (st [joined]); EReply joined OK].

Definition commit_msg : ApplyMsg (C := masseyOmuraCrypto) :=
  mkApplyMsg true (Some joined) 1 7 false false false false ∅.
Definition lost_msg : ApplyMsg (C := masseyOmuraCrypto) :=
  mkApplyMsg false None 0 0 false true false false ∅.

Definition y0 : sys := mkSys (mkServer (st []) ∅ 0 NewRespChannels) [] None false.
Definition y1 : sys :=
  mkSys (mkServer (st []) {[0 := [sm_update (st [])]]} 1 NewRespChannels) [] None false.
Definition rq : request := mkRequest joined 1 7 0%nat.
Definition y2 : sys :=
  mkSys (mkServer (st []) {[0 := [sm_update (st [])]]} 1 registered) [rq] None false.
Definition served : Server :=
  mkServer (st [joined]) {[0 := [sm_update (st []); sm_update (st [joined])]]} 1 registered.
Definition y3 : sys := mkSys served [rq] (Some 0%nat) false.
Definition y4 : sys := mkSys served [] None false.

Lemma run_y2 : sys_run false (take 2 trace) y2.
Proof.
  apply (run_snoc _ [ESubscribe 0 (st [])] y1).
  - apply (run_snoc _ [] y0); [by apply run_new|]. by apply step_subscribe.
  - by apply (step_submit_wait _ joined 7 1 true).
Qed.

Lemma run_y4 : sys_run false trace y4.
Proof.
  apply (run_snoc _ (take 3 trace) y3).
  - apply (run_snoc _ (take 2 trace) y2); [apply run_y2|].
    by apply (step_command _ commit_msg joined).
  - apply (step_deliver _ served [] rq []).
Qed.

Lemma one_start_unique : start_unique (take 3 trace).
Proof.
  intros tr1 op t i tr2 E op' Hin. unfold trace in E. simpl in E.
  destruct tr1 as [|e1 [|e2 [|e3 tr1]]]; simplify_eq/=.
  - by apply list_elem_of_singleton in Hin.
  - by destruct tr1.
Qed.

Lemma one_log_matching : log_matching (take 3 trace).
Proof.
  intros op op' t i b sm Hs Hc. unfold trace in *. simpl in *.
  apply elem_of_cons in Hs as [?|[E|[?|Hs]%elem_of_cons]%elem_of_cons]; try done;
    [|by apply elem_of_nil in Hs].
  apply elem_of_cons in Hc as [?|[?|[E'|Hc]%elem_of_cons]%elem_of_cons]; try done;
    [|by apply elem_of_nil in Hc]. congruence.
Qed.

Lemma SubmitOp_OK_sound_witness :
  (∃ t i b sm, ECommand joined t i b sm ∈ take 3 trace) ∨
  GuaranteedNoEffect false joined (srv_sm (srv y4)) = Ret true.
Proof.
  exact (SubmitOp_OK_sound false (take 3 trace) joined y4 run_y4 one_start_unique one_log_matching).
Defined.

Lemma waiting_request_is_answered_witness :
  (∃ b, applier_step false commit_msg (srv y2) = Ret (b, served) ∧ b = Some (rq_chan rq)) ∧
  ∃ s', applier_step false lost_msg (srv y2) = Ret (None, s') ∧ 0%nat ∈ closed (resps s').
Proof.
  pose proof (start_unique_prefix (take 2 trace) [ECommand joined 1 7 true (st [joined])]
    one_start_unique) as Hu.
  assert (rq_chan rq ∉ closed (resps (srv y2))) as Ho by (apply (bool_decide_unpack _); by vm_compute).
  assert (rq ∈ waiting y2) as Hrq by left. split.
  - assert (applier_step false commit_msg (srv y2) = Ret (Some 0%nat, served)) as E by done.
    eexists. split; [exact E|].
    apply (waiting_request_is_answered false (take 2 trace) y2 rq commit_msg (Some 0%nat) served
      run_y2 Hu Hrq Ho E); done.
  - eexists. split; [vm_compute; reflexivity|].
    refine (proj2 (waiting_request_is_answered false (take 2 trace) y2 rq lost_msg None _
      run_y2 Hu Hrq Ho _) _ _ _); [vm_compute; reflexivity|done..].
Defined.

Lemma run_commands :
  sys_run false [ECommand joined 1 7 true (st [joined]); ECommand (AbortOp 0) 1 8 true (st [joined; AbortOp 0])]
    (mkSys (mkServer (st [joined; AbortOp 0]) ∅ 0 NewRespChannels) [] None false).
Proof.
  apply (run_snoc _ [_] (mkSys (mkServer (st [joined]) ∅ 0 NewRespChannels) [] None false)).
  - apply (run_snoc _ [] y0); [by apply run_new|]. by apply (step_command _ commit_msg joined).
  - by apply (step_command _ (mkApplyMsg true (Some (AbortOp 0)) 1 8 false false false false ∅) (AbortOp 0)).
Qed.

Lemma replicas_agree_witness :
  run false [AbortOp 0] (srv_sm (srv y4)) = Ret (st [joined; AbortOp 0]) ∧
  MayPrecede false (srv_sm (srv y4)) (st [joined; AbortOp 0]) = Ret true.
Proof.
  apply (replicas_agree trace _ y4 _ [AbortOp 0] run_y4 run_commands); [done|by vm_compute].
Defined.

Lemma update_channel_in_order_witness :
  state_updates <$> (updChs (srv y4) !! 0) = seen 0 trace ∧
  seen 0 trace = Some [st []; st [joined]] ∧ MayPrecede false (st []) (st [joined]) = Ret true.
Proof.
  destruct (update_channel_in_order false trace y4 0 (st []) run_y4) as [E Hl]; [done| |by vm_compute|].
  - split; [by intros ri _ _|]. by intros b sm' _.
  - split; [exact E|]. split; [by vm_compute|].
    destruct (Hl [st []; st [joined]]) as [_ Hp]; [by vm_compute|].
    by apply (Hp 0%nat).
Defined.

End ServerDemo.
