(* ===== verification/Pipeline.v ===== *)
(** * From the client's queue to the servers

    The composition of the elimination queue, of the goroutine [submitOps] with
    [submitOp] (src/anonbcast/client.go) and of any number of servers
    (src/anonbcast/server.go): a client adds operations, takes the newest one,
    calls [SubmitOp] of the server that it takes for the leader, and finishes the
    operation when the call returns with OK.

    A call may fail at any time, also after the server has executed it; it
    returns OK only if the called server has replied OK to a request for this
    operation since the call began; NetPipeline puts the simulated network in the
    place of these calls.  Other clients, Raft, and requests that are left over from
    calls that failed are the other steps of the servers. *)

From stdpp Require Import gmap strings.
From S2P Require Import Prelude Bytes Crypto Op StateMachine RoundSpec StateMachineProps.
From S2P Require Import Primes Representation RespChannels Server ServerProps EliminationQueue.

Local Open Scope Z_scope.

Section pipeline.
Context {C : Type} `{CommutativeCrypto C} `{EqDecision C}.
Implicit Types (op f a : Op C).

Abbreviation qevent := (EliminationQueue.event (C := C)) (only parsing).
Abbreviation sevent := (Server.event (C := C)) (only parsing).

(** [queue] and [history] are the elimination queue with the state of the
    submitting goroutine and what has happened to it; [servers] has for each
    server what has happened to it and its state; [asked] is the server whose
    reply the client waits for, and whether it has replied OK. *)
Record pipe := mkPipe {
  history : list qevent;
  queue : eliminationQueue (C := C) * submitter (C := C);
  servers : list (list sevent * sys (C := C));
  asked : option (nat * bool)
}.

(** The effect of an event of server [k] on a waiting caller. *)
Definition observe (q : eliminationQueue (C := C) * submitter (C := C)) (k : nat) (e : sevent)
    (asked : option (nat * bool)) : option (nat * bool) :=
  match asked, q, e with
  | Some (k', false), (_, Submitting op), EReply op' OK =>
      if bool_decide (k' = k ∧ op' = op) then Some (k', true) else asked
  | _, _, _ => asked
  end.

Inductive pipe_step (debug : bool) : pipe → pipe → Prop :=
| ps_add op h q q' ss w :
    qstep debug q (EvAdd op) q' →
    pipe_step debug (mkPipe h q ss w) (mkPipe (h ++ [EvAdd op]) q' ss w)
| ps_get op h q q' ss :
    qstep debug q (EvGet op) q' →
    pipe_step debug (mkPipe h q ss None) (mkPipe (h ++ [EvGet op]) q' ss None)
| ps_call op h p ss k :
    (k < length ss)%nat →
    pipe_step debug (mkPipe h (p, Submitting op) ss None) (mkPipe h (p, Submitting op) ss (Some (k, false)))
| ps_server h q ss w k tr y e y' :
    ss !! k = Some (tr, y) → sys_step false y e y' →
    pipe_step debug (mkPipe h q ss w) (mkPipe h q (<[k := (tr ++ [e], y')]> ss) (observe q k e w))
| ps_error op h q q' ss k b :
    qstep debug q (EvFail op) q' →
    pipe_step debug (mkPipe h q ss (Some (k, b))) (mkPipe (h ++ [EvFail op]) q' ss None)
| ps_ok op h q q' ss k :
    qstep debug q (EvFinish op) q' →
    pipe_step debug (mkPipe h q ss (Some (k, true))) (mkPipe (h ++ [EvFinish op]) q' ss None).

(** A new client, among servers that may have been running for some time. *)
Definition pipe_start (P : pipe) : Prop :=
  history P = [] ∧ queue P = (newEliminationQueue, Waiting) ∧ asked P = None ∧
  Forall (fun ty => sys_run false (fst ty) (snd ty)) (servers P).

Inductive pipe_reachable (debug : bool) : pipe → Prop :=
| pr_start P : pipe_start P → pipe_reachable debug P
| pr_step P P' : pipe_reachable debug P → pipe_step debug P P' → pipe_reachable debug P'.

(** ** The invariant *)

(** A server has replied OK to a request for the operation. *)
Definition approved (ss : list (list sevent * sys (C := C))) op : Prop :=
  ∃ k tr y, ss !! k = Some (tr, y) ∧ EReply op OK ∈ tr.

Record pipe_inv (debug : bool) (P : pipe) : Prop := {
  pi_queue : qrun debug (history P) (queue P);
  pi_servers : Forall (fun ty => sys_run false (fst ty) (snd ty)) (servers P);
  pi_asked : ∀ k p op, asked P = Some (k, true) → queue P = (p, Submitting op) → approved (servers P) op;
  pi_finished : ∀ f, EvFinish f ∈ history P → approved (servers P) f
}.

Lemma approved_step ss k tr y e y' op :
  ss !! k = Some (tr, y) → approved ss op → approved (<[k := (tr ++ [e], y')]> ss) op.
Proof.
  intros Hk (k' & tr' & z & Hk' & Hin). destruct (decide (k = k')) as [<-|Hne].
  - simplify_eq. exists k, (tr ++ [e]), y'. rewrite list_lookup_insert_eq by (by eapply lookup_lt_Some).
    split; [done|set_solver].
  - exists k', tr', z. by rewrite list_lookup_insert_ne.
Qed.

Lemma qstep_submitting debug q e p op : qstep debug q e (p, Submitting op) →
  e = EvGet op ∨ ∃ p', q = (p', Submitting op).
Proof. inversion 1; subst; eauto. Qed.

Lemma observe_true q k e w k' :
  observe q k e w = Some (k', true) →
  w = Some (k', true) ∨ k' = k ∧ ∃ p op, q = (p, Submitting op) ∧ e = EReply op OK.
Proof.
  unfold observe. intros Ho.
  destruct w as [[k0 [|]]|], q as [p [|op]], e; simplify_eq; eauto.
  destruct e; simplify_eq. case_bool_decide as Hb; simplify_eq. destruct Hb as [-> ->]. right. eauto.
Qed.

Lemma pipe_step_inv debug P P' : pipe_step debug P P' → pipe_inv debug P → pipe_inv debug P'.
Proof.
  intros Hs [Q S A F].
  destruct Hs as [op h q q' ss w Hq|op h q q' ss Hq|op h p ss k Hk|h q ss w k tr y e y' Hk Hy
    |op h q q' ss k b Hq|op h q q' ss k Hq]; simpl in *.
  - split; simpl; [by eapply qrun_snoc|done| |set_solver].
    intros k p op' -> ->. apply qstep_submitting in Hq as [?|[p' ->]]; [done|]. by eapply A.
  - split; simpl; [by eapply qrun_snoc|done..|set_solver].
  - split; simpl; [done..|set_solver].
  - pose proof (lookup_lt_Some _ _ _ Hk) as Hlt. split; simpl; [done| | |].
    + apply Forall_insert; [done|]. simpl. eapply run_snoc; [|done].
      by apply (Forall_lookup_1 _ _ _ _ S Hk).
    + intros k' p op [->|(-> & p' & op' & -> & ->)]%observe_true Heq; simplify_eq.
      * eapply approved_step; [done|]. by eapply A.
      * exists k, (tr ++ [EReply op OK]), y'. rewrite list_lookup_insert_eq by done. split; [done|set_solver].
    + intros f Hf. eapply approved_step; eauto.
  - split; simpl; [by eapply qrun_snoc|done..|set_solver].
  - split; simpl; [by eapply qrun_snoc|done|done|].
    intros f [Hf|Hf]%elem_of_app; [by apply F|]. apply list_elem_of_singleton in Hf as [= ->].
    inversion Hq; subst. by eapply A.
Qed.

Lemma pipe_reachable_inv debug P : pipe_reachable debug P → pipe_inv debug P.
Proof.
  induction 1 as [P (Hh & Hq & Ha & Hs)|P P' _ IH Hs]; [|by eapply pipe_step_inv].
  split; [rewrite Hh, Hq; constructor|done|by rewrite Ha|]. rewrite Hh. set_solver.
Qed.

(** ** What happens to an operation *)

(** What is assumed of Raft, for the trace of a server, and a bound that keeps
    the round counter in range. *)
Record raft_ok (tr : list sevent) : Prop := {
  ro_start : start_unique tr;
  ro_log : log_matching tr;
  ro_bound : Z.of_nat (length (commands tr)) < int_max
}.

(** The operation has been applied by the server, or it is and will be rejected
    whatever is applied from now on. *)
Definition settled (tr : list sevent) (y : sys (C := C)) op : Prop :=
  (∃ t i b sm, ECommand op t i b sm ∈ tr) ∨
  ∀ ops, Round (srv_sm (srv y)) + Z.of_nat (length ops) < int_max →
    ∃ sm, run false ops (srv_sm (srv y)) = Ret sm ∧ Apply false op sm = Ret (false, sm).

Lemma approved_settled tr y op :
  sys_run false tr y → raft_ok tr → EReply op OK ∈ tr → settled tr y op.
Proof.
  intros Hr [Hu Hl Hb] (tr1 & tr2 & ->)%list_elem_of_split.
  rewrite cons_middle, app_assoc in *.
  destruct (sys_run_split _ _ _ _ Hr) as (y1 & H1 & H2).
  destruct (NewStateMachine_inv (C := C) false) as (sm0 & H0 & Hi0 & HR0).
  assert (in_range sm0 (commands (tr1 ++ [EReply op OK]))) as Hb1.
  { unfold in_range, commands in *. rewrite omap_app, length_app in Hb. lia. }
  destruct (run_bound _ _ _ Hi0 (sys_run_state _ _ _ _ H1 H0) Hb1) as [Hi1 HR1].
  destruct (ok_reply _ _ _ _ H1) as [(t & i & b & sm & Hc)|HG].
  { rewrite <- app_assoc in Hu. by eapply start_unique_prefix. }
  { rewrite <- app_assoc in Hl. by eapply log_matching_prefix. }
  { left. exists t, i, b, sm. set_solver. }
  right. intros ops Hops.
  assert (in_range (srv_sm (srv y1)) (commands tr2)) as Hb2.
  { unfold in_range, commands in *. rewrite omap_app, length_app in Hb. lia. }
  destruct (run_precedes _ _ Hi1 Hb2) as (sm & Hrun & Hi2 & Hp).
  rewrite H2 in Hrun. injection Hrun as <-.
  apply expired_rejected; [done..|]. eapply expired_precedes; [done|]. by eapply GuaranteedNoEffect_expired.
Qed.

(** What the client's history says about its operations, once every finished
    operation has been approved. *)
Lemma finished_settled debug h q ss :
  qrun debug h q → Forall (fun ty => sys_run false (fst ty) (snd ty)) ss →
  Forall (fun ty => raft_ok (fst ty)) ss → (∀ f, EvFinish f ∈ h → approved ss f) →
  (∀ f, EvFinish f ∈ h → ∃ k tr y, ss !! k = Some (tr, y) ∧ settled tr y f) ∧
  (get_op debug (fst q) = Ret None → ∀ a, EvAdd a ∈ h → 0 ≤ op_Round a →
     ∃ f k tr y, EvFinish f ∈ h ∧ upto a f ∧ ss !! k = Some (tr, y) ∧ settled tr y f).
Proof.
  intros Q S Hok F.
  assert (∀ f, EvFinish f ∈ h → ∃ k tr y, ss !! k = Some (tr, y) ∧ settled tr y f) as Hf.
  { intros f (k & tr & y & Hk & Hin)%F. exists k, tr, y. split; [done|].
    apply approved_settled; [apply (Forall_lookup_1 _ _ _ _ S Hk)|apply (Forall_lookup_1 _ _ _ _ Hok Hk)|done]. }
  split; [done|]. destruct q as [p w]. simpl. intros Hg a Ha Hpos.
  pose proof (proj1 (get_waits _ _ _ _ Q) Hg a Ha) as Hup.
  destruct (last_finished _ _ _ _ Q) as [Hl|Hl].
  { rewrite Hl in Hup. unfold upto, older, same_age in Hup. simpl in Hup. lia. }
  destruct (Hf _ Hl) as (k & tr & y & Hk & Hs). eauto 10.
Qed.

(** No operation is lost between a client and the servers.  In every state that
    a client reaches together with any number of servers, whatever calls fail,
    are executed without a reply or are repeated: every operation that the client
    has finished was applied by a server, or is rejected there whatever is applied
    from now on; and when the client has nothing left to submit, then every
    operation it has added is no newer than one for which this holds. *)
Theorem no_operation_lost debug P :
  pipe_reachable debug P → Forall (fun ty => raft_ok (fst ty)) (servers P) →
  (∀ f, EvFinish f ∈ history P → ∃ k tr y, servers P !! k = Some (tr, y) ∧ settled tr y f) ∧
  (get_op debug (fst (queue P)) = Ret None → ∀ a, EvAdd a ∈ history P → 0 ≤ op_Round a →
     ∃ f k tr y, EvFinish f ∈ history P ∧ upto a f ∧ servers P !! k = Some (tr, y) ∧ settled tr y f).
Proof. intros [Q S A F]%pipe_reachable_inv Hok. by eapply finished_settled. Qed.

End pipeline.

(** ** A concrete run *)

Module PipelineDemo.
Import Demo ServerDemo.
#[local] Existing Instance ServerDemo.trial.

Definition start : pipe := mkPipe [] (newEliminationQueue, Waiting) [([ESubscribe 0 (st [])], y1)] None.

(** The client joins: its operation is added, taken, submitted to the only server,
    committed, and finished. *)
Definition finished : pipe :=
  mkPipe [EvAdd joined; EvGet joined; EvFinish joined] (mkQueue [] joined, Waiting) [(trace, y4)] None.

(** While the client waits for the reply. *)
Definition calling tr y b : pipe :=
  mkPipe [EvAdd joined; EvGet joined] (mkQueue [joined] (AbortOp (-1)), Submitting joined) [(tr, y)]
    (Some (0%nat, b)).

Lemma server_turn tr y e y' b :
  sys_step false y e y' →
  observe (mkQueue [joined] (AbortOp (-1)), Submitting joined) 0 e (Some (0%nat, false)) = Some (0%nat, b) →
  pipe_step true (calling tr y false) (calling (tr ++ [e]) y' b).
Proof.
  intros Hs Ho. unfold calling at 2. rewrite <- Ho.
  by apply (ps_server true _ _ [(tr, y)] (Some (0%nat, false)) 0%nat tr y e y').
Qed.

Lemma finished_reachable : pipe_reachable true finished.
Proof.
  apply (pr_step _ (calling trace y4 true)); [|by apply (ps_ok _ joined [_; _]); constructor].
  apply (pr_step _ (calling (take 3 trace) y3 false));
    [|apply (server_turn (take 3 trace)); [apply (step_deliver _ served [] rq [])|by vm_compute]].
  apply (pr_step _ (calling (take 2 trace) y2 false));
    [|apply (server_turn (take 2 trace)); [by apply (step_command _ commit_msg joined)|done]].
  apply (pr_step _ (calling (take 1 trace) y1 false));
    [|apply (server_turn (take 1 trace)); [by apply (step_submit_wait _ joined 7 1 true)|done]].
  apply (pr_step _ (mkPipe [EvAdd joined; EvGet joined]
    (mkQueue [joined] (AbortOp (-1)), Submitting joined) [(take 1 trace, y1)] None)); [|apply ps_call; simpl; lia].
  apply (pr_step _ (mkPipe [EvAdd joined] (mkQueue [joined] (AbortOp (-1)), Waiting) [(take 1 trace, y1)] None));
    [|by apply (ps_get _ joined [_]); constructor].
  apply (pr_step _ start); [|apply (ps_add _ joined []); by apply (qs_add _ joined _ true)].
  apply pr_start. split_and!; [done..|]. repeat constructor. simpl.
  apply (run_snoc _ [] y0); [by apply run_new|]. by apply step_subscribe.
Qed.

Lemma trace_raft_ok : raft_ok trace.
Proof.
  split; [| |by vm_compute].
  - intros tr1 op t i tr2 E op' Hin. unfold trace in E.
    destruct tr1 as [|e1 [|e2 [|e3 [|e4 tr1]]]]; simplify_eq/=; [|by destruct tr1].
    by apply list_elem_of_singleton in Hin.
  - intros op op' t i b sm Hs Hc.
    apply (one_log_matching op op' t i b sm); unfold trace in *; simpl in *; set_solver.
Qed.

Lemma no_operation_lost_witness : ∃ f tr y, upto joined f ∧ settled tr y f.
Proof.
  destruct (proj2 (no_operation_lost true finished finished_reachable
    (Forall_cons_2 _ (trace, y4) _ trace_raft_ok (Forall_nil_2 _))) eq_refl joined) as (f & k & tr & y & _ & Hu & _ & Hs).
  - apply elem_of_cons. by left.
  - simpl. lia.
  - eauto.
Defined.

End PipelineDemo.
