(* ===== verification/LastStateMachine.v ===== *)
(** * The last state machine seen by a client

    Model of src/anonbcast/laststatemachine.go.  The updates are stored by
    goroutines that race with each other ([go c.lastUpdate.set(sm, version)]),
    so [set] compares versions; the theorem is that the order in which the
    goroutines run does not matter.  Times are nanoseconds in [Z]; [now] is what
    [time.Now] returns. *)

From S2P Require Import Prelude Bytes Primes Crypto Op StateMachine RoundSpec StateMachineProps.

Local Open Scope Z_scope.

Section last.
Context {C : Type} (debug : bool).
Implicit Types sm : StateMachine C.

Record lastStateMachine := mkLast {
  last_sm : StateMachine C;
  version : Z;
  timestamp : Z;
  phaseTimestamp : Z
}.

Definition newLastStateMachine (now : Z) : outcome lastStateMachine :=
  '(_, sm) ← initRound debug 0 (mkStateMachine 0 (replicate 3 zeroRoundInfo));
  Ret (mkLast sm (-1) now now).

(** [sm.CurrentRoundInfo().Phase]. *)
Definition currentPhase sm : outcome Phase :=
  '(r, _) ← CurrentRoundInfo debug sm; '(ri, _) ← load r sm; Ret (phase ri).

Definition set (sm : StateMachine C) (v now : Z) (l : lastStateMachine) : outcome lastStateMachine :=
  if version l <? v then
    changed ← (if negb (Round sm =? Round (last_sm l)) then Ret true
               else p ← currentPhase sm; q ← currentPhase (last_sm l); Ret (bool_decide (p ≠ q)));
    Ret (mkLast sm v now (if changed : bool then now else phaseTimestamp l))
  else Ret l.

Definition get_last (l : lastStateMachine) : StateMachine C := last_sm l.

Definition deepCopy `{CommutativeCrypto C} (l : lastStateMachine) : outcome lastStateMachine :=
  sm ← DeepCopy debug (last_sm l);
  Ret (mkLast sm (version l) (timestamp l) (phaseTimestamp l)).

(** The goroutines that store updates, in the order in which they run. *)
Fixpoint set_all (us : list (StateMachine C * Z * Z)) (l : lastStateMachine) : outcome lastStateMachine :=
  match us with
  | [] => Ret l
  | (sm, v, now) :: us' => l' ← set sm v now l; set_all us' l'
  end.

(** ** Lemmas *)

Lemma currentPhase_eq sm ri : sm_inv sm → current sm = Some ri → currentPhase sm = Ret (phase ri).
Proof.
  intros Hi Hc. unfold currentPhase. rewrite CurrentRoundInfo_eq by apply Hi. simpl.
  by rewrite (load_current sm ri Hc).
Qed.

Lemma set_spec sm v now l :
  sm_inv sm → sm_inv (last_sm l) →
  ∃ pt, set sm v now l = Ret (if version l <? v then mkLast sm v now pt else l) ∧
    (pt = now ∨ pt = phaseTimestamp l).
Proof.
  intros Hs Hl. unfold set. destruct (version l <? v); [|by exists now; auto].
  destruct (current_inv _ Hs) as (ri & Hri & _), (current_inv _ Hl) as (ri' & Hri' & _).
  destruct (negb _); simpl; [exists now; auto|].
  rewrite (currentPhase_eq _ _ Hs Hri), (currentPhase_eq _ _ Hl Hri'). simpl.
  case_bool_decide; eexists; (split; [done|]); auto.
Qed.

(** What is stored is the update with the highest version, or what was there. *)
Definition newest_of (us : list (StateMachine C * Z * Z)) (l0 l : lastStateMachine) : Prop :=
  (∀ sm v now, (sm, v, now) ∈ us → v ≤ version l) ∧ version l0 ≤ version l ∧
  (last_sm l = last_sm l0 ∧ version l = version l0 ∨ ∃ now, (last_sm l, version l, now) ∈ us).

Lemma set_all_newest us : ∀ l0,
  sm_inv (last_sm l0) → Forall (fun u => sm_inv u.1.1) us →
  ∃ l, set_all us l0 = Ret l ∧ sm_inv (last_sm l) ∧ newest_of us l0 l.
Proof.
  induction us as [|[[sm v] now] us IH]; intros l0 Hi Hus; simpl.
  { exists l0. split; [done|]. split; [done|]. split; [|split; [lia|by left]].
    intros ? ? ? Hin. by apply elem_of_nil in Hin. }
  apply Forall_cons in Hus as [Hs Hus]. simpl in Hs.
  destruct (set_spec sm v now l0 Hs Hi) as (pt & -> & _). simpl.
  destruct (version l0 <? v) eqn:Hv; bool_to_prop.
  - destruct (IH (mkLast sm v now pt) Hs Hus) as (l & E & Hi' & H1 & H2 & H3). simpl in *.
    exists l. split; [done|]. split; [done|]. split_and!; [|lia|].
    + intros sm' v' now' [[= -> -> ->]|Hin]%elem_of_cons; [done|by eapply H1].
    + right. destruct H3 as [[-> ->]|[now' Hin]]; [exists now; left|exists now'; by right].
  - destruct (IH l0 Hi Hus) as (l & E & Hi' & H1 & H2 & H3).
    exists l. split; [done|]. split; [done|]. split_and!; [|lia|].
    + intros sm' v' now' [[= -> -> ->]|Hin]%elem_of_cons; [lia|by eapply H1].
    + destruct H3 as [?|[now' Hin]]; [by left|]. right. exists now'. by right.
Qed.

End last.

(** ** Properties *)

(** Races between updates are harmless.  Updates with distinct versions, all
    newer than what is stored, leave the same state machine and version behind
    in whatever order their goroutines run: those of the highest version. *)
Theorem set_order_irrelevant {C} debug (l0 : lastStateMachine (C := C)) us us' :
  sm_inv (last_sm l0) → Forall (fun u => sm_inv u.1.1) us →
  (∀ sm v now sm' now', (sm, v, now) ∈ us → (sm', v, now') ∈ us → sm = sm') →
  (∀ sm v now, (sm, v, now) ∈ us → version l0 < v) → us' ≡ₚ us →
  ∃ l l', set_all debug us l0 = Ret l ∧ set_all debug us' l0 = Ret l' ∧
    last_sm l' = last_sm l ∧ version l' = version l ∧
    (∀ sm v now, (sm, v, now) ∈ us → v ≤ version l).
Proof.
  intros Hi Hus Hd Hnew Hp.
  destruct (set_all_newest debug us l0 Hi Hus) as (l & E & _ & H1 & _ & H3).
  destruct (set_all_newest debug us' l0 Hi) as (l' & E' & _ & H1' & _ & H3'); [by rewrite Hp|].
  exists l, l'. split; [done|]. split; [done|]. setoid_rewrite Hp in H1'.
  assert (∀ (a : lastStateMachine (C := C)) now, (last_sm a, version a, now) ∈ us' →
    (last_sm a, version a, now) ∈ us) as Hin by (intros a now; by rewrite Hp).
  destruct H3 as [[Es Ev]|[now H3]], H3' as [[Es' Ev']|[now' H3']].
  - split_and!; [congruence|congruence|done].
  - apply Hin in H3'. pose proof (H1 _ _ _ H3'). pose proof (Hnew _ _ _ H3'). lia.
  - pose proof (H1' _ _ _ H3). pose proof (Hnew _ _ _ H3). lia.
  - apply Hin in H3'. pose proof (H1 _ _ _ H3'). pose proof (H1' _ _ _ H3).
    assert (version l' = version l) as Ev by lia. rewrite Ev in H3'.
    split_and!; [by eapply Hd|done|done].
Qed.

Import Demo.

Lemma set_order_irrelevant_witness :
  let us := [(after (to_encrypt tt), 0, 10); (after (one_round tt), 1, 20)] in
  ∃ l l', set_all true us (mkLast (after []) (-1) 0 0) = Ret l ∧
    set_all true (rev us) (mkLast (after []) (-1) 0 0) = Ret l' ∧ last_sm l' = last_sm l.
Proof.
  intros us.
  destruct (set_order_irrelevant true (mkLast (after []) (-1) 0 0) us (rev us))
    as (l & l' & E & E' & Es & _).
  - by apply after_inv.
  - repeat constructor; by apply after_inv.
  - unfold us. clear us. generalize (after (to_encrypt tt)) (after (one_round tt)).
    intros a b sm v now sm' now' H1 H2.
    repeat (apply elem_of_cons in H1 as [H1|H1]); repeat (apply elem_of_cons in H2 as [H2|H2]);
      try (by apply elem_of_nil in H1); try (by apply elem_of_nil in H2); congruence.
  - unfold us. clear us. generalize (after (to_encrypt tt)) (after (one_round tt)).
    intros a b sm v now H1. simpl.
    repeat (apply elem_of_cons in H1 as [H1|H1]); [..|by apply elem_of_nil in H1];
      injection H1 as _ -> _; lia.
  - symmetry. apply Permutation_rev.
  - exists l, l'. exact (conj E (conj E' Es)).
Defined.
