(* ===== verification/ClientLoop.v ===== *)
(** * The client's goroutines

    Model of the long-running parts of src/anonbcast/client.go: one iteration of
    [readUpdates] (for a state machine update and for a configuration update),
    one iteration of [aborter], the choice of the presumed leader, [Start] and
    [Kill].  The goroutines that an iteration starts are its [action]s; what
    they compute is the subject of Client.

    The theorems hold for arbitrary updates, because the server a client is
    connected to may be malicious. *)

From stdpp Require Import gmap strings.
From Stdlib Require Import Strings.Byte.
From S2P Require Import Prelude Bytes Primes MasseyOmura Crypto Op StateMachine RoundSpec.
From S2P Require Import StateMachineProps Client LastStateMachine.

Local Open Scope Z_scope.

Section loop.
Context {C : Type} `{CommutativeCrypto C} (debug : bool) (Id : UUID) (MessageSize : Z).
Implicit Types (sm : StateMachine C) (ri : RoundInfo C).

(** ** readUpdates *)

(** The local variables of [readUpdates]; [version] counts the updates. *)
Record loopState := mkLoop {
  lastResChSend : Z;
  lastMessageRound : Z;
  upd_version : Z;
  encryptKey : PrivateKey;
  scrambleKey : PrivateKey;
  revealKey : PrivateKey;
  lastKeyGen : Z;
  lastRevealKeyHashes : list (list byte);
  lastMessagesBeforeReveal : list Msg;
  lastRevealKeyHashesRound : Z;
  lastNumberOfMessageWhenScrambled : nat;
  lastScrambledRound : Z;
  lastSm : StateMachine C
}.

Definition initialLoop : outcome loopState :=
  '(_, sm) ← initRound debug 0 (mkStateMachine 0 (replicate 3 zeroRoundInfo));
  Ret (mkLoop (-1) (-1) 0 NilPrivateKey NilPrivateKey NilPrivateKey (-1) [] [] (-1) 0%nat (-1) sm).

(** The goroutines started by an iteration. *)
Inductive action :=
| GoSet sm (v : Z)
| GoSendRoundResult sm (round : Z) (hashes : list (list byte)) (hashesRound : Z)
    (before : list Msg) (number : nat)
| GoPrepare (round : Z) (me : option nat)
| GoAbort (round : Z)
| GoSubmit (round : Z) ri (me : nat) (ek rk : PrivateKey)
| GoEncrypt (round : Z) ri (me : nat) (ek : PrivateKey)
| GoScramble (round : Z) ri (me : nat) (sk rk : PrivateKey)
| GoDecrypt (round : Z) ri (me : nat) (sk ek : PrivateKey)
| GoReveal (round : Z) ri (me : nat) (rk : PrivateKey).

(** Assignments to the local variables. *)
Definition with_sm sm (st : loopState) : loopState :=
  mkLoop (lastResChSend st) (lastMessageRound st) (wrap64 (upd_version st + 1)) (encryptKey st)
    (scrambleKey st) (revealKey st) (lastKeyGen st) (lastRevealKeyHashes st)
    (lastMessagesBeforeReveal st) (lastRevealKeyHashesRound st)
    (lastNumberOfMessageWhenScrambled st) (lastScrambledRound st) sm.
Definition with_sent (r : Z) (st : loopState) : loopState :=
  mkLoop r (lastMessageRound st) (upd_version st) (encryptKey st) (scrambleKey st) (revealKey st)
    (lastKeyGen st) (lastRevealKeyHashes st) (lastMessagesBeforeReveal st)
    (lastRevealKeyHashesRound st) (lastNumberOfMessageWhenScrambled st) (lastScrambledRound st)
    (lastSm st).
Definition with_message (r : Z) (st : loopState) : loopState :=
  mkLoop (lastResChSend st) r (upd_version st) (encryptKey st) (scrambleKey st) (revealKey st)
    (lastKeyGen st) (lastRevealKeyHashes st) (lastMessagesBeforeReveal st)
    (lastRevealKeyHashesRound st) (lastNumberOfMessageWhenScrambled st) (lastScrambledRound st)
    (lastSm st).
Definition with_keys (ek sk rk : PrivateKey) (r : Z) (st : loopState) : loopState :=
  mkLoop (lastResChSend st) (lastMessageRound st) (upd_version st) ek sk rk r
    (lastRevealKeyHashes st) (lastMessagesBeforeReveal st) (lastRevealKeyHashesRound st)
    (lastNumberOfMessageWhenScrambled st) (lastScrambledRound st) (lastSm st).
Definition with_scrambled (n : nat) (r : Z) (st : loopState) : loopState :=
  mkLoop (lastResChSend st) (lastMessageRound st) (upd_version st) (encryptKey st) (scrambleKey st)
    (revealKey st) (lastKeyGen st) (lastRevealKeyHashes st) (lastMessagesBeforeReveal st)
    (lastRevealKeyHashesRound st) n r (lastSm st).
Definition with_reveal (hs : list (list byte)) (ms : list Msg) (r : Z) (st : loopState) : loopState :=
  mkLoop (lastResChSend st) (lastMessageRound st) (upd_version st) (encryptKey st) (scrambleKey st)
    (revealKey st) (lastKeyGen st) hs ms r (lastNumberOfMessageWhenScrambled st)
    (lastScrambledRound st) (lastSm st).

(** [make]+[copy] of every element of a slice of slices. *)
Definition copy_hashes (hs : list (list byte)) : list (list byte) :=
  map (fun h => go_copy (replicate (length h) Byte.x00) h) hs.

Definition onPrepare sm (round : Z) (me : option nat) (active leaving : bool) (st : loopState)
    : outcome (list action * loopState) :=
  '(sent, st) ←
    (if lastResChSend st <? wrap64 (round - 1) then
       assertf debug (lastResChSend st =? wrap64 (round - 2)) ;;
       Ret ([GoSendRoundResult sm round (copy_hashes (lastRevealKeyHashes st))
               (lastRevealKeyHashesRound st) (map Msg_DeepCopy (lastMessagesBeforeReveal st))
               (lastNumberOfMessageWhenScrambled st)],
            with_sent (wrap64 (round - 1)) st)
     else Ret ([], st));
  if active && negb leaving then Ret (sent ++ [GoPrepare round me], st) else Ret (sent, st).

(** The keys of a new round, unless the round's crypto is refused ([None]);
    [random] feeds the three calls of [GenKey]. *)
Definition roundKeys (round : Z) ri (random : masseyomura.Reader) (st : loopState)
    : outcome (option (loopState * masseyomura.Reader)) :=
  if lastKeyGen st <? round then
    crypto ← crypto_of ri;
    match Verify crypto (wrap64 (MessageSize + Z.of_nat messageHeaderLength)) with
    | Some _ => Ret None
    | None =>
        '(ek, random) ← GenKey debug crypto random;
        '(sk, random) ← GenKey debug crypto random;
        '(rk, random) ← GenKey debug crypto random;
        Ret (Some (with_keys ek sk rk round st, random))
    end
  else Ret (Some (st, random)).

Definition onSubmit (round : Z) ri (me : nat) (random : masseyomura.Reader) (st : loopState)
    : outcome (list action * loopState * masseyomura.Reader) :=
  keyed ← roundKeys round ri random st;
  match keyed with
  | None => Ret ([GoAbort round], st, random)
  | Some (st, random) =>
      if lastMessageRound st <? round then
        Ret ([GoSubmit round ri me (PrivateKey_DeepCopy (encryptKey st))
                (PrivateKey_DeepCopy (revealKey st))], with_message round st, random)
      else Ret ([], st, random)
  end.

Definition onScramble (round : Z) ri (me : nat) (st : loopState) : list action * loopState :=
  if lastScrambledRound st <? round then
    if bool_decide (me ≠ numScrambled ri) then ([], st)
    else ([GoScramble round ri me (PrivateKey_DeepCopy (scrambleKey st))
             (PrivateKey_DeepCopy (revealKey st))],
          with_scrambled (length (Messages ri)) round st)
  else ([], st).

Definition onReveal (round : Z) ri (me : nat) (st : loopState) : list action * loopState :=
  let st := if lastRevealKeyHashesRound st <? round
            then with_reveal (copy_hashes (RevealKeyHashes ri)) (map Msg_DeepCopy (Messages ri)) round st
            else st in
  ([GoReveal round ri me (PrivateKey_DeepCopy (revealKey st))], st).

(** One iteration for a state machine update; [active] and [leaving] are the
    client's flags. *)
Definition onStateMachine sm (active leaving : bool) (random : masseyomura.Reader) (st : loopState)
    : outcome (list action * loopState * masseyomura.Reader) :=
  may ← MayPrecede debug (lastSm st) sm;
  assertf debug may ;;
  let set := GoSet sm (upd_version st) in
  let st := with_sm sm st in
  let round := Round sm in
  '(r, _) ← CurrentRoundInfo debug sm;
  '(ri, _) ← load r sm;
  let me := whereAmI Id ri in
  match phase ri with
  | PreparePhase =>
      '(acts, st) ← onPrepare sm round me active leaving st; Ret (set :: acts, st, random)
  | SubmitPhase =>
      match active, me with
      | true, Some me =>
          '(acts, st, random) ← onSubmit round ri me random st; Ret (set :: acts, st, random)
      | _, _ => Ret ([set], st, random)
      end
  | EncryptPhase =>
      match active, me with
      | true, Some me =>
          Ret ([set; GoEncrypt round ri me (PrivateKey_DeepCopy (encryptKey st))], st, random)
      | _, _ => Ret ([set], st, random)
      end
  | ScramblePhase =>
      match active, me with
      | true, Some me => let '(acts, st) := onScramble round ri me st in Ret (set :: acts, st, random)
      | _, _ => Ret ([set], st, random)
      end
  | DecryptPhase =>
      match active, me with
      | true, Some me =>
          Ret ([set; GoDecrypt round ri me (PrivateKey_DeepCopy (scrambleKey st))
                 (PrivateKey_DeepCopy (encryptKey st))], st, random)
      | _, _ => Ret ([set], st, random)
      end
  | RevealPhase =>
      match active, me with
      | true, Some me => let '(acts, st) := onReveal round ri me st in Ret (set :: acts, st, random)
      | _, _ => Ret ([set], st, random)
      end
  | NoPhase | DonePhase | FailedPhase => assertf debug false ;; Ret ([set], st, random)
  end.

(** ** Configuration and presumed leader *)

(** The fields of [Client] protected by its mutex. *)
Record membership := mkMembership {
  active : bool;
  leaving : bool;
  currConf : list string;
  lastKnownLeaderInd : Z
}.

(** The order of a [range] over the map is unspecified: some enumeration of it. *)
Definition mapToSlice (conf : gmap string bool) : list string := map fst (map_to_list conf).

(** The part of a configuration update that runs under the client's mutex. *)
Definition setConfiguration (serverId : string) (conf : gmap string bool) (m : membership)
    : outcome membership :=
  let '(act, leav) := match conf !! serverId with
                      | Some _ => (true, leaving m)
                      | None => (false, false)
                      end in
  let conf' := mapToSlice conf in
  assertf debug (bool_decide (0 < length conf')%nat) ;;
  Ret (mkMembership act leav conf' 0).

Definition onConfiguration (serverId : string) (conf : gmap string bool) (last : StateMachine C)
    (m : membership) : outcome (list action * membership) :=
  m ← setConfiguration serverId conf m;
  '(r, _) ← CurrentRoundInfo debug last;
  '(ri, _) ← load r last;
  if active m && negb (leaving m) then Ret ([GoPrepare (Round last) (whereAmI Id ri)], m)
  else Ret ([], m).

(** [currConf[lastKnownLeaderInd]]. *)
Definition potentialLeader (m : membership) : outcome string :=
  if lastKnownLeaderInd m <? 0 then Panic IndexOutOfRange
  else (currConf m).[Z.to_nat (lastKnownLeaderInd m)].

(** Integer remainder by zero panics. *)
Definition updateLeader (m : membership) : outcome membership :=
  match currConf m with
  | [] => Panic DivideByZero
  | _ => Ret (mkMembership (active m) (leaving m) (currConf m)
           (Z.rem (wrap64 (lastKnownLeaderInd m + 1)) (Z.of_nat (length (currConf m)))))
  end.

(** ** aborter *)

Record ClientConfig := mkClientConfig { MessageTimeout : Z; ProtocolTimeout : Z }.

(** One iteration at time [now]: the abort that is submitted, if any, and the
    time to sleep. *)
Definition aborter (cfg : ClientConfig) (l : lastStateMachine (C := C)) (now : Z)
    : outcome (option (Op C) * Z) :=
  p ← currentPhase debug (last_sm l);
  let abort := Some (client_abort (Round (last_sm l))) in
  '(op, sleepAmount) ←
    match p with
    | PreparePhase => Ret (None, ProtocolTimeout cfg)
    | SubmitPhase =>
        let submitTimeout := MessageTimeout cfg + ProtocolTimeout cfg in
        let timeSince := now - phaseTimestamp l in
        if submitTimeout <? timeSince then Ret (abort, ProtocolTimeout cfg)
        else Ret (None, Z.min (ProtocolTimeout cfg) (submitTimeout - timeSince))
    | EncryptPhase | ScramblePhase | DecryptPhase =>
        let timeSince := now - timestamp l in
        if ProtocolTimeout cfg <? timeSince then Ret (abort, ProtocolTimeout cfg)
        else Ret (None, ProtocolTimeout cfg - timeSince)
    | RevealPhase =>
        let timeSince := now - phaseTimestamp l in
        if ProtocolTimeout cfg <? timeSince then Ret (abort, ProtocolTimeout cfg)
        else Ret (None, ProtocolTimeout cfg - timeSince)
    | NoPhase | DonePhase | FailedPhase => assertf debug false ;; Ret (None, -1)
    end;
  assertf debug (0 <=? sleepAmount) ;;
  Ret (op, sleepAmount).

(** ** Calls by the user *)

Inductive StartError : Set := NotCurrentRound | NotParticipating.

(** [Start]: the operation it adds to the pending ones, or the error. *)
Definition Start (newCrypto : C) (last : StateMachine C) (round : Z)
    : outcome (StartError + Op C) :=
  if negb (Round last =? round) then Ret (inl NotCurrentRound) else
  '(r, _) ← CurrentRoundInfo debug last;
  '(ri, _) ← load r last;
  if negb (existsb (fun p => bool_decide (p = Id)) (Participants ri)) then Ret (inl NotParticipating)
  else Ret (inr (StartOp Id round (Some newCrypto))).

(** [Kill]: the abort it submits first, if any. *)
Definition killAbort (last : StateMachine C) : outcome (option (Op C)) :=
  '(r, _) ← CurrentRoundInfo debug last;
  '(ri, _) ← load r last;
  if bool_decide (phase ri ≠ DonePhase) && bool_decide (phase ri ≠ FailedPhase)
     && existsb (fun p => bool_decide (p = Id)) (Participants ri)
  then Ret (Some (AbortOp (Round last))) else Ret None.

End loop.
