(* ===== verification/ClientLoopProps.v ===== *)
(** * Properties of the client's goroutines

    What a client does at most once per round whatever its server tells it,
    when it reveals its key, when it aborts, and how it looks for the leader. *)

From stdpp Require Import gmap strings sorting.
From Stdlib Require Import Strings.Byte.
From S2P Require Import Prelude Bytes Primes MasseyOmura Crypto Op StateMachine RoundSpec.
From S2P Require Import StateMachineProps Representation Client LastStateMachine ClientLoop.

Local Open Scope Z_scope.

Section loop.
Context {C : Type} `{CommutativeCrypto C} (debug : bool) (Id : UUID) (MessageSize : Z).
Implicit Types (sm : StateMachine C) (ri : RoundInfo C) (acts : list (action (C := C)))
  (st : loopState (C := C)).

(** The states of [readUpdates] and all goroutines started so far, for
    arbitrary updates. *)
Inductive loop_run : loopState → list action → Prop :=
| loop_init st : initialLoop debug = Ret st → loop_run st []
| loop_update st acts sm act leav random acts' st' random' :
    loop_run st acts →
    onStateMachine debug Id MessageSize sm act leav random st = Ret (acts', st', random') →
    loop_run st' (acts ++ acts').

(** The rounds in which a goroutine of a kind was started, in order. *)
Definition scramble_round (a : action (C := C)) : option Z :=
  match a with GoScramble r _ _ _ _ => Some r | _ => None end.
Definition submit_round (a : action (C := C)) : option Z :=
  match a with GoSubmit r _ _ _ _ => Some r | _ => None end.
Definition result_round (a : action (C := C)) : option Z :=
  match a with GoSendRoundResult _ r _ _ _ _ => Some (wrap64 (r - 1)) | _ => None end.
Definition rounds_of (f : action (C := C) → option Z) acts : list Z := omap f acts.

(** The guard variable [old] either stays, or grows to the only round reported. *)
Definition guarded (rs : list Z) (old new : Z) : Prop :=
  rs = [] ∧ new = old ∨ ∃ r, rs = [r] ∧ old < r ∧ new = r.

Ltac skip_assert HS :=
  try match type of HS with
  | assertf _ _ ≫= _ = Ret _ => apply bind_ret_inv in HS as ([] & _ & HS)
  end.

Lemma onPrepare_guarded sm round me act leav st acts st' :
  onPrepare debug sm round me act leav st = Ret (acts, st') →
  guarded (rounds_of result_round acts) (lastResChSend st) (lastResChSend st') ∧
  rounds_of scramble_round acts = [] ∧ rounds_of submit_round acts = [] ∧
  lastScrambledRound st' = lastScrambledRound st ∧ lastMessageRound st' = lastMessageRound st.
Proof.
  unfold onPrepare. intros ([sent st1] & HS & HE)%bind_ret_inv.
  assert (∃ extra, acts = sent ++ extra ∧ st' = st1 ∧ rounds_of result_round extra = [] ∧
    rounds_of scramble_round extra = [] ∧ rounds_of submit_round extra = []) as
    (extra & -> & -> & X1 & X2 & X3).
  { destruct (act && negb leav); simplify_eq; [by exists [GoPrepare round me]|].
    exists []. by rewrite app_nil_r. }
  unfold rounds_of in *. rewrite !omap_app, X1, X2, X3, !app_nil_r.
  destruct (lastResChSend st <? wrap64 (round - 1)) eqn:Hlt; bool_to_prop.
  - apply bind_ret_inv in HS as ([] & _ & [= <- <-]). split_and!; try done. right. eauto.
  - injection HS as <- <-. split_and!; try done. by left.
Qed.

(** Generating keys touches nothing else. *)
Lemma roundKeys_frame round ri random st st1 random1 :
  roundKeys debug MessageSize round ri random st = Ret (Some (st1, random1)) →
  lastMessageRound st1 = lastMessageRound st ∧ lastScrambledRound st1 = lastScrambledRound st ∧
  lastResChSend st1 = lastResChSend st ∧
  (lastRevealKeyHashesRound st1 = lastRevealKeyHashesRound st ∧
   lastRevealKeyHashes st1 = lastRevealKeyHashes st ∧
   lastMessagesBeforeReveal st1 = lastMessagesBeforeReveal st).
Proof.
  unfold roundKeys. destruct (lastKeyGen st <? round); [|by intros [= <- <-]].
  intros (cr & _ & HK)%bind_ret_inv. destruct (Verify cr _); [done|].
  apply bind_ret_inv in HK as ([ek r1] & _ & HK).
  apply bind_ret_inv in HK as ([sk r2] & _ & HK).
  apply bind_ret_inv in HK as ([rk r3] & _ & HK). by injection HK as <- <-.
Qed.

Lemma onSubmit_guarded round ri me random st acts st' random' :
  onSubmit debug MessageSize round ri me random st = Ret (acts, st', random') →
  guarded (rounds_of submit_round acts) (lastMessageRound st) (lastMessageRound st') ∧
  rounds_of scramble_round acts = [] ∧ rounds_of result_round acts = [] ∧
  lastScrambledRound st' = lastScrambledRound st ∧ lastResChSend st' = lastResChSend st.
Proof.
  unfold onSubmit. intros (keyed & HK & HS)%bind_ret_inv.
  destruct keyed as [[st1 rnd]|]; [|injection HS as <- <- <-; split_and!; try done; by left].
  apply roundKeys_frame in HK as (X1 & X2 & X3 & _).
  rewrite <- X1, <- X2, <- X3. destruct (lastMessageRound st1 <? round) eqn:Hlt; bool_to_prop;
    injection HS as <- <- <-; split_and!; try done; [right; eauto|by left].
Qed.

(** One iteration starts at most one goroutine of each kind, and only for a
    round beyond its guard. *)
Lemma onStateMachine_guarded sm act leav random st acts st' random' :
  onStateMachine debug Id MessageSize sm act leav random st = Ret (acts, st', random') →
  guarded (rounds_of scramble_round acts) (lastScrambledRound st) (lastScrambledRound st') ∧
  guarded (rounds_of submit_round acts) (lastMessageRound st) (lastMessageRound st') ∧
  guarded (rounds_of result_round acts) (lastResChSend st) (lastResChSend st').
Proof.
  unfold onStateMachine. intros (may & _ & ([] & _ & HS)%bind_ret_inv)%bind_ret_inv.
  apply bind_ret_inv in HS as ([r sm1] & _ & HS). apply bind_ret_inv in HS as ([ri sm2] & _ & HS).
  assert (∀ acts1 st1, acts = GoSet sm (upd_version st) :: acts1 → st' = st1 →
    guarded (rounds_of scramble_round acts1) (lastScrambledRound st) (lastScrambledRound st1) →
    guarded (rounds_of submit_round acts1) (lastMessageRound st) (lastMessageRound st1) →
    guarded (rounds_of result_round acts1) (lastResChSend st) (lastResChSend st1) →
    guarded (rounds_of scramble_round acts) (lastScrambledRound st) (lastScrambledRound st') ∧
    guarded (rounds_of submit_round acts) (lastMessageRound st) (lastMessageRound st') ∧
    guarded (rounds_of result_round acts) (lastResChSend st) (lastResChSend st')) as Hset.
  { by intros acts1 st1 -> -> ? ? ?. }
  destruct (phase ri); skip_assert HS;
    try (destruct act, (whereAmI Id ri) as [me|]);
    try (injection HS as <- <- <-; eapply Hset; [done|done|by left..]).
  all: try (apply bind_ret_inv in HS as ([acts1 st1] & HP & [= <- <- <-]);
    apply onPrepare_guarded in HP as (G & X1 & X2 & X3 & X4); simpl in *;
    eapply Hset; [done|done|left; split; done|left; split; done|exact G]).
  - apply bind_ret_inv in HS as ([[acts1 st1] rnd] & HP & [= <- <- <-]).
    apply onSubmit_guarded in HP as (G & X1 & X2 & X3 & X4). simpl in *.
    eapply Hset; [done|done|left; by split|exact G|left; by split].
  - unfold onScramble in HS. simpl in HS.
    destruct (lastScrambledRound st <? Round sm) eqn:Hlt; bool_to_prop;
      [case_bool_decide|]; injection HS as <- <- <-;
      (eapply Hset; [done|done| |by left|by left]); [by left|right; simpl; eauto|by left].
  - unfold onReveal in HS. destruct (_ <? _); injection HS as <- <- <-;
      (eapply Hset; [done|done|by left..]).
Qed.

(** A list of rounds that grows strictly and stays below its guard. *)
Definition climbing (rs : list Z) (bound : Z) : Prop :=
  StronglySorted Z.lt rs ∧ Forall (fun r => r ≤ bound) rs.

Lemma climbing_snoc rs b r : climbing rs b → b < r → climbing (rs ++ [r]) r.
Proof.
  intros [Hs Hb] Hlt. split.
  - induction Hs as [|x rs Hs IH Hx]; [by repeat constructor|].
    apply Forall_cons in Hb as [Hxb Hb]. simpl. constructor; [auto|].
    apply Forall_app_2; [done|]. constructor; [lia|constructor].
  - apply Forall_app_2; [|by constructor].
    eapply Forall_impl; [exact Hb|]. simpl. intros. lia.
Qed.

Lemma climbing_guarded rs b rs' b' : climbing rs b → guarded rs' b b' → climbing (rs ++ rs') b'.
Proof.
  intros Hc [[-> ->]|(r & -> & Hlt & ->)]; [by rewrite app_nil_r|by eapply climbing_snoc].
Qed.

(** ** The reveal snapshot *)

Definition reveal_round (a : action (C := C)) : option Z :=
  match a with GoReveal r _ _ _ => Some r | _ => None end.

Lemma onPrepare_keeps sm round me act leav st acts st' :
  onPrepare debug sm round me act leav st = Ret (acts, st') →
  lastRevealKeyHashesRound st' = lastRevealKeyHashesRound st ∧
  lastRevealKeyHashes st' = lastRevealKeyHashes st ∧
  lastMessagesBeforeReveal st' = lastMessagesBeforeReveal st ∧ rounds_of reveal_round acts = [].
Proof.
  unfold onPrepare. intros ([sent st1] & HS & HE)%bind_ret_inv.
  destruct (lastResChSend st <? wrap64 (round - 1));
    [apply bind_ret_inv in HS as ([] & _ & [= <- <-])|injection HS as <- <-];
    destruct (act && negb leav); by injection HE as <- <-.
Qed.

(** The recorded hashes and messages are replaced only by those of a later
    round, and a goroutine that reveals is started only for a recorded round. *)
Lemma onStateMachine_reveal sm act leav random st acts st' random' :
  onStateMachine debug Id MessageSize sm act leav random st = Ret (acts, st', random') →
  (lastRevealKeyHashesRound st' = lastRevealKeyHashesRound st ∧
   lastRevealKeyHashes st' = lastRevealKeyHashes st ∧
   lastMessagesBeforeReveal st' = lastMessagesBeforeReveal st ∨
   lastRevealKeyHashesRound st < lastRevealKeyHashesRound st') ∧
  (∀ r, r ∈ rounds_of reveal_round acts → r ≤ lastRevealKeyHashesRound st').
Proof.
  unfold onStateMachine. intros (may & _ & ([] & _ & HS)%bind_ret_inv)%bind_ret_inv.
  apply bind_ret_inv in HS as ([r sm1] & _ & HS). apply bind_ret_inv in HS as ([ri sm2] & _ & HS).
  assert (∀ l : list Z, l = [] → ∀ r b, r ∈ l → r ≤ b) as Hnil
    by (intros l -> ? ? Hr; by apply elem_of_nil in Hr).
  destruct (phase ri); skip_assert HS;
    try (destruct act, (whereAmI Id ri) as [me|]);
    try (injection HS as <- <- <-; split; [by left|intros; by eapply Hnil]).
  all: try (apply bind_ret_inv in HS as ([acts1 st1] & HP & [= <- <- <-]);
    apply onPrepare_keeps in HP as (X1 & X2 & X3 & X4); simpl in *;
    split; [left; by split_and!|intros; by eapply Hnil]).
  - apply bind_ret_inv in HS as ([[acts1 st1] rnd] & HP & [= <- <- <-]).
    unfold onSubmit in HP. apply bind_ret_inv in HP as (keyed & HK & HP).
    destruct keyed as [[st2 rnd2]|]; [|injection HP as <- <- <-; split; [by left|intros; by eapply Hnil]].
    apply roundKeys_frame in HK as (_ & _ & _ & X).
    destruct (lastMessageRound st2 <? Round sm); injection HP as <- <- <-;
      (split; [by left|intros; by eapply Hnil]).
  - unfold onScramble in HS. destruct (_ <? _); [case_bool_decide|]; injection HS as <- <- <-;
      (split; [by left|intros; by eapply Hnil]).
  - unfold onReveal in HS. simpl in HS.
    destruct (lastRevealKeyHashesRound st <? Round sm) eqn:Hlt; bool_to_prop; injection HS as <- <- <-;
      simpl; (split; [auto|]); intros r0 ->%list_elem_of_singleton; lia.
Qed.

Lemma loop_guards st acts :
  loop_run st acts →
  climbing (rounds_of scramble_round acts) (lastScrambledRound st) ∧
  climbing (rounds_of submit_round acts) (lastMessageRound st) ∧
  climbing (rounds_of result_round acts) (lastResChSend st) ∧
  Forall (fun r => r ≤ lastRevealKeyHashesRound st) (rounds_of reveal_round acts).
Proof.
  induction 1 as [st HI|st acts sm act leav random acts' st' random' Hr IH HS].
  { split_and!; try (split; constructor); constructor. }
  destruct IH as (G1 & G2 & G3 & G4).
  pose proof (onStateMachine_guarded _ _ _ _ _ _ _ _ HS) as (X1 & X2 & X3).
  pose proof (onStateMachine_reveal _ _ _ _ _ _ _ _ HS) as [X4 X5].
  unfold rounds_of in *. rewrite !omap_app. split_and!; try (by eapply climbing_guarded).
  apply Forall_app_2; [|by apply Forall_forall].
  eapply Forall_impl; [exact G4|]. simpl. intros r Hrr. destruct X4 as [[-> _]|?]; lia.
Qed.

(** ** Properties *)

(** C17: a client scrambles, asks for a message and reports a result at most once
    per round, whatever sequence of state machines its server sends: the
    rounds in which it does so are strictly increasing. *)
Theorem once_per_round st acts :
  loop_run st acts →
  StronglySorted Z.lt (rounds_of scramble_round acts) ∧
  StronglySorted Z.lt (rounds_of submit_round acts) ∧
  StronglySorted Z.lt (rounds_of result_round acts).
Proof. intros (G1 & G2 & G3 & _)%loop_guards. split_and!; [apply G1|apply G2|apply G3]. Qed.

(** C35: a client that starts late trips an assertion.  When the first update a
    client receives is a machine in the prepare phase of round 2 or later, and
    assertions are enabled, [readUpdates] panics: the assertion that results
    are sent for consecutive rounds does not hold for a client that did not
    see the earlier ones. *)
Theorem late_client_trips_assertion sm ri act leav random st :
  initialLoop true = Ret st → sm_inv sm → current sm = Some ri → phase ri = PreparePhase →
  2 ≤ Round sm →
  onStateMachine true Id MessageSize sm act leav random st = Panic AssertionError.
Proof.
  intros HI Hi Hcur Hph HR. injection HI as <-. unfold onStateMachine. simpl lastSm.
  assert (MayPrecede true (mkStateMachine 0 [set_phase PreparePhase zeroRoundInfo; zeroRoundInfo;
    zeroRoundInfo]) sm = Ret true) as Hmay.
  { unfold MayPrecede. simpl. by rewrite (proj2 (Z.ltb_lt _ _)) by lia. }
  simpl in Hmay. simpl. rewrite Hmay. simpl.
  rewrite CurrentRoundInfo_eq by apply Hi. simpl. rewrite (load_current sm ri Hcur). simpl. rewrite Hph.
  pose proof (inv_round _ Hi) as Hr. unfold int_max in Hr.
  unfold onPrepare. cbn [lastResChSend with_sm].
  rewrite !wrap64_id by (unfold int_min, int_max; lia).
  rewrite (proj2 (Z.ltb_lt _ _)), (proj2 (Z.eqb_neq _ _)) by lia. done.
Qed.

(** ** Timeouts *)

(** When the current phase has taken too long at time [t]. *)
Definition overdue (cfg : ClientConfig) (l : lastStateMachine (C := C)) (p : Phase) (t : Z) : Prop :=
  match p with
  | SubmitPhase => MessageTimeout cfg + ProtocolTimeout cfg < t - phaseTimestamp l
  | EncryptPhase | ScramblePhase | DecryptPhase => ProtocolTimeout cfg < t - timestamp l
  | RevealPhase => ProtocolTimeout cfg < t - phaseTimestamp l
  | _ => False
  end.

(** [aborter] aborts exactly when the phase is overdue, never during the
    prepare phase; the time it sleeps is between 0 and the protocol timeout,
    and as long as no update arrives the phase does not become overdue while
    it sleeps. *)
Theorem aborter_respects_timeouts cfg l now ri :
  sm_inv (last_sm l) → current (last_sm l) = Some ri →
  0 ≤ ProtocolTimeout cfg → 0 ≤ MessageTimeout cfg → timestamp l ≤ now → phaseTimestamp l ≤ now →
  ∃ op sleep, aborter debug cfg l now = Ret (op, sleep) ∧ 0 ≤ sleep ≤ ProtocolTimeout cfg ∧
    (op = Some (AbortOp (Round (last_sm l))) ↔ overdue cfg l (phase ri) now) ∧
    (op = None ↔ ¬ overdue cfg l (phase ri) now) ∧
    (op = None → ∀ t, now ≤ t ≤ now + sleep → ¬ overdue cfg l (phase ri) t).
Proof.
  intros Hi Hcur Hp Hm Ht Hpt. unfold aborter. rewrite (currentPhase_eq debug _ _ Hi Hcur). simpl.
  destruct (current_inv _ Hi) as (ri' & Hcur' & _ & (Ha1 & Ha2 & Ha3)).
  assert (ri' = ri) as -> by congruence.
  unfold client_abort. destruct (phase ri); try done; simpl;
    try match goal with |- context [?a <? ?b] => destruct (a <? b) eqn:Hlt; bool_to_prop end; simpl;
    (eexists _, _; split; [rewrite (proj2 (Z.leb_le _ _)), assertf_true by lia; done|]);
    (split; [lia|]); repeat split; try done; try lia; intros; lia.
Qed.

(** ** Looking for the leader *)

Fixpoint updateLeader_times (k : nat) (m : membership) : outcome membership :=
  match k with
  | O => Ret m
  | S k' => m' ← updateLeader m; updateLeader_times k' m'
  end.

Lemma updateLeader_index k : ∀ m,
  0 ≤ lastKnownLeaderInd m < Z.of_nat (length (currConf m)) → Z.of_nat (length (currConf m)) ≤ int_max →
  updateLeader_times k m = Ret (mkMembership (active m) (leaving m) (currConf m)
    ((lastKnownLeaderInd m + Z.of_nat k) mod Z.of_nat (length (currConf m)))).
Proof.
  induction k as [|k IH]; intros m Hm Hlen.
  - simpl. rewrite Z.add_0_r, Z.mod_small by done. by destruct m.
  - cbn [updateLeader_times]. unfold updateLeader.
    destruct (currConf m) as [|s ss] eqn:Hc; [simpl in Hm; lia|]. rewrite <- Hc in *.
    unfold int_max in Hlen. rewrite wrap64_id by (unfold int_min, int_max; lia).
    rewrite Z.rem_mod_nonneg by lia. cbn [mbind outcome_bind].
    rewrite IH; simpl; [|apply Z.mod_pos_bound; lia|unfold int_max; lia].
    rewrite Z.add_mod_idemp_l by lia.
    by replace (lastKnownLeaderInd m + 1 + Z.of_nat k) with (lastKnownLeaderInd m + Z.of_nat (S k)) by lia.
Qed.

(** The search for the leader reaches every server.  As long as the index is
    valid, which [updateLeader] preserves, fewer than n calls of [updateLeader]
    make any given one of the n known servers the presumed leader. *)
Theorem updateLeader_reaches_everyone m j srv :
  0 ≤ lastKnownLeaderInd m < Z.of_nat (length (currConf m)) →
  Z.of_nat (length (currConf m)) ≤ int_max → currConf m !! j = Some srv →
  ∃ k m', (k < length (currConf m))%nat ∧ updateLeader_times k m = Ret m' ∧
    currConf m' = currConf m ∧ potentialLeader m' = Ret srv ∧
    0 ≤ lastKnownLeaderInd m' < Z.of_nat (length (currConf m')).
Proof.
  intros Hm Hlen Hj. pose proof (lookup_lt_Some _ _ _ Hj) as Hlt.
  set (n := Z.of_nat (length (currConf m))) in *.
  set (k := (Z.of_nat j - lastKnownLeaderInd m) mod n).
  assert (0 ≤ k < n) as Hk by (apply Z.mod_pos_bound; lia).
  assert ((lastKnownLeaderInd m + k) mod n = Z.of_nat j) as Hidx.
  { unfold k. rewrite Z.add_mod_idemp_r by lia.
    replace (lastKnownLeaderInd m + (Z.of_nat j - lastKnownLeaderInd m)) with (Z.of_nat j) by lia.
    apply Z.mod_small. lia. }
  exists (Z.to_nat k). eexists. split; [lia|]. split; [by apply updateLeader_index|]. simpl.
  fold n. rewrite Z2Nat.id, Hidx by lia. split; [done|]. split; [|lia].
  unfold potentialLeader. simpl. rewrite (proj2 (Z.ltb_ge _ _)), Nat2Z.id by lia.
  unfold slice_get. by rewrite Hj.
Qed.

End loop.

(** ** Concrete runs *)

Module LoopDemo.
Import Demo RepDemo.

#[local] Instance trial : BigProbablyPrime := fun p _ => Primes.trial_prime p.

Definition prepare_sm : StateMachine masseyOmuraCrypto := after [].
Definition scramble_sm : StateMachine masseyOmuraCrypto :=
  after (to_encrypt mo23 ++ [EncryptedOp bob 0 [a_msg; a_msg] 0; EncryptedOp alice 0 [a_msg; a_msg] 1]).

Definition st0 : loopState (C := masseyOmuraCrypto) :=
  mkLoop (-1) (-1) 0 NilPrivateKey NilPrivateKey NilPrivateKey (-1) [] [] (-1) 0%nat (-1) (after []).

(** One iteration of alice's loop, as a function. *)
Definition iterate (sm : StateMachine masseyOmuraCrypto) (st : loopState) : list action * loopState :=
  match onStateMachine false alice 4 sm true false [] st with
  | Ret (acts, st', _) => (acts, st')
  | Panic _ => ([], st)
  end.

Definition acts1 := (iterate scramble_sm st0).1.
Definition st1 := (iterate scramble_sm st0).2.
Definition acts2 := (iterate scramble_sm st1).1.
Definition st2 := (iterate scramble_sm st1).2.

(** The same state, seen twice. *)
Lemma run_twice : loop_run false alice 4 st2 (([] ++ acts1) ++ acts2).
Proof.
  apply (loop_update _ _ _ st1 _ scramble_sm true false [] _ _ []); [|by vm_compute].
  apply (loop_update _ _ _ st0 _ scramble_sm true false [] _ _ []); [|by vm_compute].
  by apply loop_init.
Qed.

Lemma once_per_round_witness :
  rounds_of scramble_round (([] ++ acts1) ++ acts2) = [0] ∧
  StronglySorted Z.lt (rounds_of scramble_round (([] ++ acts1) ++ acts2)).
Proof.
  split; [by vm_compute|].
  exact (proj1 (once_per_round false alice 4 st2 (([] ++ acts1) ++ acts2) run_twice)).
Defined.

Definition round2 : StateMachine masseyOmuraCrypto := after [AbortOp 0; AbortOp 1].

Lemma late_client_trips_assertion_witness :
  onStateMachine true alice 4 round2 true false [] st0 = Panic AssertionError.
Proof.
  apply (late_client_trips_assertion alice 4 round2 (set_phase PreparePhase zeroRoundInfo));
    [by vm_compute|by apply after_inv|by vm_compute..].
Defined.

Lemma aborter_respects_timeouts_witness :
  ∃ op sleep, aborter true (mkClientConfig 30 10) (mkLast scramble_sm 3 100 90) 120 = Ret (op, sleep) ∧
    op = Some (AbortOp 0).
Proof.
  destruct (aborter_respects_timeouts true (mkClientConfig 30 10) (mkLast scramble_sm 3 100 90) 120
    (default zeroRoundInfo (current scramble_sm))) as (op & sleep & E & _ & Habort & _);
    [by apply after_inv|by vm_compute|done..|].
  exists op, sleep. split; [exact E|]. apply Habort. by vm_compute.
Defined.

Lemma updateLeader_reaches_everyone_witness :
  ∃ k m', (k < 3)%nat ∧
    updateLeader_times k (mkMembership true false ["a"; "b"; "c"] 2) = Ret m' ∧
    potentialLeader m' = Ret "b"%string.
Proof.
  destruct (updateLeader_reaches_everyone (mkMembership true false ["a"; "b"; "c"]%string 2) 1 "b"%string)
    as (k & m' & Hk & E & _ & Hp & _); [done|by vm_compute|done|].
  exists k, m'. exact (conj Hk (conj E Hp)).
Defined.

End LoopDemo.
