(* ===== verification/Debug.v ===== *)
(** * Debugging output and assertions

    Model of src/anonbcast/debug.go and of the methods [logHeader], [logf],
    [assertf] and [dump] of the client, the server and the state machine: the
    environment variables DEBUG and DUMP, the lines that are logged, and the
    mutex that [dump] takes.  Everywhere else in the development debugging is a
    flag and [assertf] a function of it; this file justifies that, and says when
    it is wrong: an assertion that is evaluated while the mutex is held blocks
    for ever when dumping is enabled. *)

From stdpp Require Import gmap strings.
From S2P Require Import Prelude Bytes Primes MasseyOmura Crypto Op StateMachine.
From S2P Require Import RespChannels Server Client LastStateMachine ClientLoop.

Local Open Scope string_scope.
Local Open Scope Z_scope.

(** ** The process *)

(** The environment of the process, the lines written to the log, and whether
    the mutex of the object at hand is locked. *)
Record proc := mkProc { environ : gmap string string; lines : list string; locked : bool }.

(** A goroutine finishes, crashes the process, or waits for ever. *)
Inductive result (A : Type) :=
| Finished (a : A) (p : proc)
| Crashed (r : panic_reason) (p : proc)
| Blocked.
Arguments Finished {A} _ _.
Arguments Crashed {A} _ _.
Arguments Blocked {A}.

Definition PM (A : Type) : Type := proc → result A.
#[export] Instance PM_ret : MRet PM := fun A a p => Finished a p.
#[export] Instance PM_bind : MBind PM := fun A B f m p =>
  match m p with Finished a p' => f a p' | Crashed r p' => Crashed r p' | Blocked => Blocked end.

Definition lift_outcome {A} (o : outcome A) : PM A := fun p =>
  match o with Ret a => Finished a p | Panic r => Crashed r p end.

Definition crash {A} (r : panic_reason) : PM A := fun p => Crashed r p.

(** [sync.Mutex] as one goroutine sees it: locking twice never returns,
    unlocking an unlocked mutex is a fatal error. *)
Definition Lock : PM unit := fun p =>
  if locked p then Blocked else Finished tt (mkProc (environ p) (lines p) true).
Definition Unlock : PM unit := fun p =>
  if locked p then Finished tt (mkProc (environ p) (lines p) false) else Crashed ExplicitPanic p.

(** ** debug.go *)

Definition debugEnvKey : string := "DEBUG".
Definition dumpEnvKey : string := "DUMP".

Inductive logTopic : Set := dError | dWarning | dInfo | dDump.
Definition topic_string (t : logTopic) : string :=
  match t with dError => "ERRO" | dWarning => "WARN" | dInfo => "INFO" | dDump => "DUMP" end.

Definition Getenv (key : string) (p : proc) : string := default "" (environ p !! key).
Definition Setenv (key val : string) (p : proc) : proc := mkProc (<[key := val]> (environ p)) (lines p) (locked p).

Definition SetDebug (debug : bool) (p : proc) : proc := Setenv debugEnvKey (if debug then "true" else "") p.
Definition IsDebug (p : proc) : bool := bool_decide (Getenv debugEnvKey p = "true").
Definition SetDump (dump : bool) (p : proc) : proc := Setenv dumpEnvKey (if dump then "true" else "") p.
Definition IsDump (p : proc) : bool := bool_decide (Getenv dumpEnvKey p = "true").

Definition is_debug : PM bool := fun p => Finished (IsDebug p) p.

(** [text] is the formatted message. *)
Definition logf (topic : logTopic) (header text : string) : PM unit := fun p =>
  Finished tt (if IsDebug p
    then mkProc (environ p) (lines p ++ [topic_string topic +:+ " [" +:+ header +:+ "] " +:+ text]) (locked p)
    else p).

Definition debug_assertf (condition : bool) (header text : string) : PM unit := fun p =>
  if IsDebug p && negb condition
  then (logf dError header text ;; crash AssertionError) p
  else Finished tt p.

(** ** Methods *)

Definition client_logHeader (Id serverId : string) : string := "client " +:+ Id +:+ " (on server " +:+ serverId +:+ ")".
Definition server_logHeader (Me : string) : string := "server " +:+ Me.
Definition sm_logHeader : string := "state machine".

(** [dump] of the client and the server: under the mutex; [text] is what
    spew.Sdump prints. *)
Definition dump (header text : string) : PM unit := fun p =>
  if IsDebug p && IsDump p then (Lock ;; logf dDump header text ;; Unlock) p else Finished tt p.

Definition method_assertf (header dumped : string) (condition : bool) (text : string) : PM unit :=
  dump header dumped ;; debug_assertf condition header text.

Definition server_dump (Me text : string) : PM unit := dump (server_logHeader Me) text.
Definition server_assertf (Me dumped : string) (condition : bool) (text : string) : PM unit :=
  server_dump Me dumped ;; debug_assertf condition (server_logHeader Me) text.

(** [dump] of the state machine and of a round: without a mutex. *)
Definition sm_dump (text : string) : PM unit := fun p =>
  if IsDebug p && IsDump p then logf dDump sm_logHeader text p else Finished tt p.

Definition sm_assertf (dumped : string) (condition : bool) (text : string) : PM unit :=
  sm_dump dumped ;; debug_assertf condition sm_logHeader text.

Definition ri_logHeader : string := "state machine".

Definition ri_dump (text : string) : PM unit := fun p =>
  if IsDebug p && IsDump p then logf dDump ri_logHeader text p else Finished tt p.

Definition ri_assertf (dumped : string) (condition : bool) (text : string) : PM unit :=
  ri_dump dumped ;; debug_assertf condition ri_logHeader text.

(** ** Assertions under a mutex *)

Section callers.
Context {C : Type} `{CommutativeCrypto C} (header dumped text : string).

(** The part of a configuration update under the mutex of the client. *)
Definition setConfiguration_mu (serverId : string) (conf : gmap string bool) (m : membership) : PM membership :=
  Lock ;;
  let '(act, leav) := match conf !! serverId with
                      | Some _ => (true, leaving m)
                      | None => (false, false)
                      end in
  let conf' := mapToSlice conf in
  method_assertf header dumped (bool_decide (0 < length conf')%nat) text ;;
  Unlock ;;
  mret (mkMembership act leav conf' 0).

(** An iteration of [applier] under the mutex of the server. *)
Definition applier_body (debug : bool) (msg : ApplyMsg (C := C)) (s : Server (C := C)) : PM (option chan * Server) :=
  if CommandValid msg then lift_outcome (applier_step debug msg s)
  else if RaftUpdateValid msg then lift_outcome (applier_step debug msg s)
  else if SnapshotValid msg then method_assertf header dumped false text ;; mret (None, s)
  else if ConfigValid msg then mret (None, sendConfigurationUpdate (msg_Configuration msg) s)
  else method_assertf header dumped false text ;; mret (None, s).

Definition applier_mu (msg : ApplyMsg (C := C)) (s : Server (C := C)) : PM (option chan * Server) :=
  Lock ;;
  debug ← is_debug;
  r ← applier_body debug msg s;
  Unlock ;;
  mret r.
End callers.

(** ** Lemmas *)

Lemma IsDebug_SetDebug b p : IsDebug (SetDebug b p) = b.
Proof. unfold IsDebug, Getenv, SetDebug, Setenv. simpl. rewrite lookup_insert_eq. by destruct b. Qed.

Lemma IsDump_SetDump b p : IsDump (SetDump b p) = b.
Proof. unfold IsDump, Getenv, SetDump, Setenv. simpl. rewrite lookup_insert_eq. by destruct b. Qed.

Lemma IsDump_SetDebug b p : IsDump (SetDebug b p) = IsDump p.
Proof. unfold IsDump, Getenv, SetDebug, Setenv. simpl. by rewrite lookup_insert_ne. Qed.

Lemma IsDebug_SetDump b p : IsDebug (SetDump b p) = IsDebug p.
Proof. unfold IsDebug, Getenv, SetDump, Setenv. simpl. by rewrite lookup_insert_ne. Qed.

(** The same process up to the log. *)
Definition same_proc (p p' : proc) : Prop :=
  environ p' = environ p ∧ locked p' = locked p ∧ lines p `prefix_of` lines p'.

Lemma same_proc_refl p : same_proc p p.
Proof. by split_and!. Qed.

Lemma logf_same topic h t p : ∃ p', logf topic h t p = Finished tt p' ∧ same_proc p p' ∧ (IsDebug p = false → p' = p).
Proof.
  unfold logf. eexists. split; [done|]. destruct (IsDebug p); [|split; [apply same_proc_refl|done]].
  split; [|done]. split_and!; try done. by apply prefix_app_r.
Qed.

(** What an outcome becomes in a process. *)
Definition yields {A} (p : proc) (o : outcome A) (r : result A) : Prop :=
  match o, r with
  | Ret a, Finished b p' => b = a ∧ same_proc p p'
  | Panic x, Crashed y _ => y = x
  | _, _ => False
  end.

Lemma same_proc_trans p p' p'' : same_proc p p' → same_proc p' p'' → same_proc p p''.
Proof. intros (? & ? & ?) (? & ? & ?). split_and!; [congruence..|]. by etransitivity. Qed.

Lemma debug_assertf_yields c h t p : yields p (assertf (IsDebug p) c) (debug_assertf c h t p).
Proof.
  unfold debug_assertf, assertf. destruct (IsDebug p && negb c); [|split; [done|apply same_proc_refl]].
  unfold mbind, PM_bind. by destruct (logf_same dError h t p) as (p' & -> & _).
Qed.

(** An assertion where the mutex is free: the flag is all that matters. *)
Lemma method_assertf_free h d c t p :
  locked p = false → yields p (assertf (IsDebug p) c) (method_assertf h d c t p).
Proof.
  intros Hl. unfold method_assertf, mbind, PM_bind.
  assert (∃ p', dump h d p = Finished tt p' ∧ same_proc p p') as (p' & -> & Hs).
  { unfold dump. destruct (IsDebug p && IsDump p); [|eexists; split; [done|apply same_proc_refl]].
    unfold mbind, PM_bind, Lock. rewrite Hl.
    destruct (logf_same dDump h d (mkProc (environ p) (lines p) true)) as (p1 & -> & (E1 & E2 & E3) & _).
    unfold Unlock. simpl in E2. rewrite E2. eexists. split; [done|]. by split_and!. }
  pose proof (debug_assertf_yields c h t p') as Hy.
  assert (IsDebug p' = IsDebug p) as E by (unfold IsDebug, Getenv; by destruct Hs as (-> & _)).
  rewrite E in Hy. destruct (assertf (IsDebug p) c), (debug_assertf c h t p'); simpl in *; try done.
  destruct Hy as [-> Hy]. split; [done|]. by eapply same_proc_trans.
Qed.

(** An assertion where the mutex is held. *)
Lemma method_assertf_held h d c t p :
  locked p = true →
  if IsDebug p && IsDump p then method_assertf h d c t p = Blocked
  else yields p (assertf (IsDebug p) c) (method_assertf h d c t p).
Proof.
  intros Hl. unfold method_assertf, mbind, PM_bind, dump.
  destruct (IsDebug p && IsDump p); [unfold mbind, PM_bind, Lock; by rewrite Hl|]. apply debug_assertf_yields.
Qed.

Lemma sm_assertf_yields d c t p : yields p (assertf (IsDebug p) c) (sm_assertf d c t p).
Proof.
  unfold sm_assertf, mbind, PM_bind.
  assert (∃ p', sm_dump d p = Finished tt p' ∧ same_proc p p') as (p' & -> & Hs).
  { unfold sm_dump. destruct (IsDebug p && IsDump p); [|eexists; split; [done|apply same_proc_refl]].
    destruct (logf_same dDump sm_logHeader d p) as (p' & -> & Hs & _). eauto. }
  pose proof (debug_assertf_yields c sm_logHeader t p') as Hy.
  assert (IsDebug p' = IsDebug p) as E by (unfold IsDebug, Getenv; by destruct Hs as (-> & _)).
  rewrite E in Hy. destruct (assertf (IsDebug p) c), (debug_assertf c sm_logHeader t p'); simpl in *; try done.
  destruct Hy as [-> Hy]. split; [done|]. by eapply same_proc_trans.
Qed.

(** The assertions of a round take no mutex either. *)
Lemma ri_assertf_yields d c t p : yields p (assertf (IsDebug p) c) (ri_assertf d c t p).
Proof. exact (sm_assertf_yields d c t p). Qed.

(** ** Properties *)

Section properties.
Context {C : Type} `{CommutativeCrypto C} (header dumped text : string).

(** The state of the process in a section that holds the mutex. *)
Definition held (p : proc) : proc := mkProc (environ p) (lines p) true.

(** A locked section: what comes between [Lock] and [Unlock] decides. *)
Lemma locked_section {A B} (m : PM A) (k : A → B) (o : outcome A) p :
  locked p = false → yields (held p) o (m (held p)) →
  yields p (a ← o; Ret (k a)) ((Lock ;; r ← m; Unlock ;; mret (k r)) p).
Proof.
  intros Hl Hy. unfold mbind, PM_bind, Lock. rewrite Hl. fold (held p).
  destruct o as [a|x], (m (held p)) as [b p'|y p'|]; simpl in Hy; try done.
  destruct Hy as [-> (E1 & E2 & E3)]. unfold Unlock. simpl in E2. rewrite E2. split; [done|]. by split_and!.
Qed.

(** C40: when assertions are only a flag.  With an environment in which DEBUG or DUMP
    is not set to true, a configuration update of the client and every
    iteration of the applier, whose assertions are evaluated while the mutex is
    held, do what the model without a mutex does (for a command or a leadership
    update, whose handling evaluates no assertion under the mutex, the two models
    have the same body); with both set, every
    configuration update and every message that is neither a command, nor a
    leadership update, nor a configuration blocks for ever, whether or not the
    assertion holds. *)
Theorem assertions_under_mutex (p : proc) serverId conf (m : membership) (msg : ApplyMsg (C := C)) s :
  locked p = false →
  if IsDebug p && IsDump p then
    setConfiguration_mu header dumped text serverId conf m p = Blocked ∧
    (CommandValid msg = false → RaftUpdateValid msg = false →
       SnapshotValid msg = true ∨ ConfigValid msg = false →
       applier_mu header dumped text msg s p = Blocked)
  else
    yields p (setConfiguration (IsDebug p) serverId conf m)
      (setConfiguration_mu header dumped text serverId conf m p) ∧
    yields p (applier_step (IsDebug p) msg s) (applier_mu header dumped text msg s p).
Proof.
  intros Hl. pose proof (fun c => method_assertf_held header dumped c text (held p) eq_refl) as Ha.
  change (IsDebug (held p)) with (IsDebug p) in Ha. change (IsDump (held p)) with (IsDump p) in Ha.
  destruct (IsDebug p && IsDump p) eqn:Hd.
  - split.
    + unfold setConfiguration_mu, mbind, PM_bind, Lock. rewrite Hl. fold (held p).
      destruct (conf !! serverId); by rewrite Ha.
    + intros H1 H2 H3. unfold applier_mu, applier_body, mbind, PM_bind, Lock, is_debug. rewrite Hl, H1, H2. fold (held p).
      destruct (SnapshotValid msg); [by rewrite Ha|]. destruct H3 as [|H3]; [done|]. rewrite H3. by rewrite Ha.
  - split.
    + unfold setConfiguration_mu, setConfiguration.
      destruct (match conf !! serverId with Some _ => (true, leaving m) | None => (false, false) end) as [act leav].
      apply (locked_section (method_assertf header dumped (bool_decide (0 < length (mapToSlice conf))%nat) text)
        (fun _ => mkMembership act leav (mapToSlice conf) 0)); [done|apply Ha].
    + assert (applier_mu header dumped text msg s p =
        (Lock ;; r ← applier_body header dumped text (IsDebug p) msg s; Unlock ;; mret (id r)) p) as ->
        by (unfold applier_mu, mbind, PM_bind, Lock; by rewrite Hl).
      replace (applier_step (IsDebug p) msg s) with (a ← applier_step (IsDebug p) msg s; Ret (id a))
        by (by destruct (applier_step _ _ _)).
      apply locked_section; [done|]. unfold applier_body.
      assert (∀ o : outcome (option chan * Server (C := C)), yields (held p) o (lift_outcome o (held p))) as Hlift
        by (intros []; [split; [done|apply same_proc_refl]|done]).
      assert (yields (held p) (assertf (IsDebug p) false ;; Ret (@None chan, s))
        ((method_assertf header dumped false text ;; mret (None, s)) (held p))) as Hassert.
      { specialize (Ha false). unfold mbind at 2, PM_bind.
        destruct (assertf (IsDebug p) false), (method_assertf _ _ _ _ _); simpl in *; try done.
        destruct Ha as [_ Ha]. by split. }
      destruct (CommandValid msg) eqn:E1; [apply Hlift|].
      destruct (RaftUpdateValid msg) eqn:E2; [apply Hlift|].
      unfold applier_step. rewrite E1, E2. destruct (SnapshotValid msg); [exact Hassert|].
      destruct (ConfigValid msg); [split; [done|apply same_proc_refl]|exact Hassert].
Qed.

End properties.

Module DebugDemo.
#[local] Instance trial : BigProbablyPrime := fun p _ => Primes.trial_prime p.

Definition dumping : proc := SetDump true (SetDebug true (mkProc ∅ [] false)).
Definition quiet : proc := SetDump true (mkProc ∅ [] false).

Definition snapshot_msg : ApplyMsg (C := masseyOmuraCrypto) := mkApplyMsg false None 0 0 true false false false ∅.
Definition some_server : Server (C := masseyOmuraCrypto) :=
  mkServer (mkStateMachine 0 [zeroRoundInfo; zeroRoundInfo; zeroRoundInfo]) ∅ 0 NewRespChannels.

Lemma assertions_under_mutex_witness :
  setConfiguration_mu "client a (on server 0)" "" "" "0" {["0" := true]} (mkMembership true false [] 0) dumping
    = Blocked ∧ applier_mu "server 0" "" "" snapshot_msg some_server dumping = Blocked.
Proof.
  split.
  - exact (proj1 (assertions_under_mutex "client a (on server 0)" "" "" dumping "0" {["0" := true]}
      (mkMembership true false [] 0) snapshot_msg some_server eq_refl)).
  - apply (proj2 (assertions_under_mutex "server 0" "" "" dumping "0" {["0" := true]}
      (mkMembership true false [] 0) snapshot_msg some_server eq_refl)); [reflexivity|reflexivity|by left].
Defined.

(** A failed assertion writes one line and crashes; without DEBUG it is silent. *)
Example failed_assertion :
  server_assertf "0" "" false "x" (SetDebug true (mkProc ∅ [] false)) =
  Crashed AssertionError (mkProc {["DEBUG" := "true"]} ["ERRO [server 0] x"] false).
Proof. by vm_compute. Qed.
Example silent_assertion : server_assertf "0" "" false "x" quiet = Finished tt quiet.
Proof. by vm_compute. Qed.

End DebugDemo.
