(* ===== verification/System.v ===== *)
(** * Clients and the replicated state together

    The composition of the parts: clients that run [readUpdates] (ClientLoop) on
    the updates they receive, the goroutines these start (Client), and the
    replicated state machine to which Raft applies whatever the clients submit.

    A world holds the states of the machine, newest first, and the clients.  A
    client receives states in order, with any delay, and may miss some.  Every
    operation that some goroutine has computed can be committed at any later
    time, never, or several times, in any order.  The flags [active] and
    [leaving] of a client, what the user does (Start, Kill), its timeouts and
    configuration updates are unconstrained.

    The file looks at one round [R].  [c] is the crypto of the operation that
    starts the round and [who] gives the keys, messages and random bytes that the
    clients come up with in this round; both are fixed in advance, which
    resolves the random choices of round [R] and restricts nothing else. *)

From stdpp Require Import gmap strings.
From Stdlib Require Import Strings.Byte.
From S2P Require Import Prelude Bytes Primes MasseyOmura Crypto Op StateMachine RoundSpec.
From S2P Require Import StateMachineProps Representation Client LastStateMachine ClientLoop Layers Protocol.

Local Open Scope Z_scope.

Section system.
Context {C : Type} `{CommutativeCryptoLaws C} `{Sha256} (debug : bool) (MessageSize : Z).
Context (R : Z) (c : C) (who : UUID → participant).
Implicit Types (sm : StateMachine C) (ri : RoundInfo C) (op : Op C) (acts : list (action (C := C))).

(** A client: its identifier, the number of states that are too old to be
    received, the local variables of [readUpdates], and all goroutines started. *)
Record node := mkNode {
  nd_Id : UUID;
  nd_pos : nat;
  nd_st : loopState (C := C);
  nd_acts : list (action (C := C))
}.

Record world := mkWorld { states : list (StateMachine C); nodes : list node }.

(** The operations that the goroutines of a client compute.  In round [R] the
    message and the random bytes are those of [who]. *)
Inductive produces (Id : UUID) acts : Op C → Prop :=
| by_prepare r me op :
    GoPrepare r me ∈ acts → prepare Id r me = Some op → produces Id acts op
| by_configuration serverId conf last m acts' m' r me op :
    onConfiguration debug Id serverId conf last m = Ret (acts', m') → GoPrepare r me ∈ acts' →
    prepare Id r me = Some op → produces Id acts op
| by_submit r ri me k1 k2 answer r1 r2 op :
    GoSubmit r ri me k1 k2 ∈ acts →
    submit debug Id MessageSize r ri me k1 k2 answer r1 r2 = Ret (Some op) →
    (r = R → default [] answer = plain (who Id) ∧ r1 = nonce (who Id)) → produces Id acts op
| by_encrypt r ri me k op :
    GoEncrypt r ri me k ∈ acts → encrypt Id r ri me k = Ret (Some op) → produces Id acts op
| by_scramble r ri me k1 k2 draws op :
    GoScramble r ri me k1 k2 ∈ acts → scramble Id r ri me k1 k2 draws = Ret (Some op) →
    produces Id acts op
| by_decrypt r ri me k1 k2 op :
    GoDecrypt r ri me k1 k2 ∈ acts → decrypt Id r ri me k1 k2 = Ret (Some op) → produces Id acts op
| by_reveal r ri me k op :
    GoReveal r ri me k ∈ acts → client_reveal Id r ri me k = Ret (Some op) → produces Id acts op
| by_abort r :
    GoAbort r ∈ acts → produces Id acts (client_abort r)
| by_aborter cfg l now op sleep :
    aborter debug cfg l now = Ret (Some op, sleep) → produces Id acts op
| by_start newCrypto last round op :
    Start debug Id newCrypto last round = Ret (inr op) → produces Id acts op
| by_kill last op :
    killAbort debug Id last = Ret (Some op) → produces Id acts op.

(** The keys that are generated for round [R] are those of [who]. *)
Definition keys_of (Id : UUID) (st : loopState (C := C)) : Prop :=
  encryptKey st = ek (who Id) ∧ scrambleKey st = sk (who Id) ∧ revealKey st = rk (who Id).

Inductive world_step : world → world → Prop :=
| w_new hist ns Id st :
    Id ∉ nd_Id <$> ns → good MessageSize c (who Id) → initialLoop debug = Ret st →
    world_step (mkWorld hist ns) (mkWorld hist (ns ++ [mkNode Id 0 st []]))
| w_update newer sm older ns i n act leav random acts' st' random' :
    ns !! i = Some n → (nd_pos n ≤ length older)%nat →
    onStateMachine debug (nd_Id n) MessageSize sm act leav random (nd_st n) = Ret (acts', st', random') →
    (lastKeyGen (nd_st n) < R → lastKeyGen st' = R → keys_of (nd_Id n) st') →
    world_step (mkWorld (newer ++ sm :: older) ns)
      (mkWorld (newer ++ sm :: older)
        (<[i := mkNode (nd_Id n) (S (length older)) st' (nd_acts n ++ acts')]> ns))
| w_commit sm hist ns n op b sm' :
    n ∈ ns → produces (nd_Id n) (nd_acts n) op → Round sm < int_max →
    Apply false op sm = Ret (b, sm') →
    (∀ Id cr, op = StartOp Id R cr → b = true → cr = Some c) →
    world_step (mkWorld (sm :: hist) ns) (mkWorld (if b then sm' :: sm :: hist else sm :: hist) ns).

Inductive world_reachable : world → Prop :=
| wr_start sm : NewStateMachine debug = Ret sm → world_reachable (mkWorld [sm] [])
| wr_step w w' : world_reachable w → world_step w w' → world_reachable w'.

(** ** How an update is handled *)

(** The cases of [onStateMachine], for a machine in which round and phase are
    as they should be. *)
Inductive reaction (Id : UUID) sm ri (st : loopState (C := C)) : list (action (C := C)) → loopState → Prop :=
| re_none : reaction Id sm ri st [] (with_sm sm st)
| re_prepare me act leav acts st' :
    phase ri = PreparePhase → onPrepare debug sm (Round sm) me act leav (with_sm sm st) = Ret (acts, st') →
    reaction Id sm ri st acts st'
| re_submit me random random' acts st' :
    phase ri = SubmitPhase → whereAmI Id ri = Some me →
    onSubmit debug MessageSize (Round sm) ri me random (with_sm sm st) = Ret (acts, st', random') →
    reaction Id sm ri st acts st'
| re_encrypt me :
    phase ri = EncryptPhase → whereAmI Id ri = Some me →
    reaction Id sm ri st [GoEncrypt (Round sm) ri me (encryptKey st)] (with_sm sm st)
| re_scramble me acts st' :
    phase ri = ScramblePhase → whereAmI Id ri = Some me →
    onScramble (Round sm) ri me (with_sm sm st) = (acts, st') → reaction Id sm ri st acts st'
| re_decrypt me :
    phase ri = DecryptPhase → whereAmI Id ri = Some me →
    reaction Id sm ri st [GoDecrypt (Round sm) ri me (scrambleKey st) (encryptKey st)] (with_sm sm st)
| re_reveal me acts st' :
    phase ri = RevealPhase → whereAmI Id ri = Some me →
    onReveal (Round sm) ri me (with_sm sm st) = (acts, st') → reaction Id sm ri st acts st'.

(** The current round of a machine of any origin. *)
Definition current_info sm : outcome (RoundInfo C) :=
  '(r, _) ← CurrentRoundInfo debug sm; '(ri, _) ← load r sm; Ret ri.

Lemma current_info_eq sm ri : sm_inv sm → current sm = Some ri → current_info sm = Ret ri.
Proof.
  intros Hi Hc. unfold current_info. rewrite CurrentRoundInfo_eq by apply Hi. cbn [mbind outcome_bind].
  by rewrite (load_current sm ri Hc).
Qed.

Lemma onStateMachine_reaction Id sm act leav random st acts st' random' :
  onStateMachine debug Id MessageSize sm act leav random st = Ret (acts, st', random') →
  ∃ ri acts1, current_info sm = Ret ri ∧ acts = GoSet sm (upd_version st) :: acts1 ∧
    reaction Id sm ri st acts1 st'.
Proof.
  unfold onStateMachine, current_info. intros (may & _ & ([] & _ & HS)%bind_ret_inv)%bind_ret_inv.
  apply bind_ret_inv in HS as ([r sm1] & -> & HS). apply bind_ret_inv in HS as ([ri sm2] & HL & HS).
  exists ri. cbn [mbind outcome_bind]. rewrite HL. cbn [mbind outcome_bind]. clear HL.
  assert (∀ acts1, reaction Id sm ri st acts1 st' → acts = GoSet sm (upd_version st) :: acts1 →
    ∃ acts1, Ret ri = Ret ri ∧ acts = GoSet sm (upd_version st) :: acts1 ∧ reaction Id sm ri st acts1 st') as Hex
    by eauto.
  destruct (phase ri) eqn:Hph;
    try (apply bind_ret_inv in HS as ([] & _ & HS); injection HS as <- <- <-; by eapply Hex; [constructor|]).
  { apply bind_ret_inv in HS as ([acts1 st1] & HP & [= <- <- <-]). by eapply Hex; [eapply re_prepare|]. }
  all: destruct act; [|injection HS as <- <- <-; by eapply Hex; [constructor|]].
  all: destruct (whereAmI Id ri) as [me|] eqn:Hme; [|injection HS as <- <- <-; by eapply Hex; [constructor|]].
  - apply bind_ret_inv in HS as ([[acts1 st1] rnd] & HP & [= <- <- <-]). by eapply Hex; [eapply re_submit|].
  - injection HS as <- <- <-. rewrite PrivateKey_DeepCopy_id in Hex |- *. by eapply Hex; [eapply re_encrypt|].
  - destruct (onScramble (Round sm) ri me (with_sm sm st)) as [acts1 st1] eqn:HP. injection HS as <- <- <-.
    by eapply Hex; [eapply re_scramble|].
  - injection HS as <- <- <-. rewrite !PrivateKey_DeepCopy_id in Hex |- *. by eapply Hex; [eapply re_decrypt|].
  - destruct (onReveal (Round sm) ri me (with_sm sm st)) as [acts1 st1] eqn:HP. injection HS as <- <- <-.
    by eapply Hex; [eapply re_reveal|].
Qed.

End system.
