(* ===== verification/SystemProps.v ===== *)
(** * Invariants of the whole system

    What the composition of System maintains about one round: which states the
    snapshots of the goroutines come from, which keys they use, which evidence
    the clients have recorded, and that everything on the board was put there by
    a client that generated its keys, scrambled and revealed in this round. *)

From stdpp Require Import gmap strings.
From Stdlib Require Import Strings.Byte.
From S2P Require Import Prelude Bytes Primes MasseyOmura Crypto Op StateMachine RoundSpec.
From S2P Require Import StateMachineProps Representation Client LastStateMachine ClientLoop Layers Protocol System.

Local Open Scope Z_scope.

(** ** Reactions *)

Section reactions.
Context {C : Type} `{CommutativeCryptoLaws C} `{Sha256} (debug : bool) (MessageSize : Z).
Implicit Types (sm : StateMachine C) (ri : RoundInfo C) (st : loopState (C := C)).

Lemma copy_hashes_id hs : copy_hashes hs = hs.
Proof.
  unfold copy_hashes. induction hs as [|h hs IH]; [done|]. simpl. rewrite IH.
  by rewrite go_copy_same by (by rewrite length_replicate).
Qed.

Lemma copy_messages_id ms : map Msg_DeepCopy ms = ms.
Proof. induction ms as [|m ms IH]; [done|]. simpl. by rewrite Msg_DeepCopy_id, IH. Qed.

(** What a reaction does to the local variables. *)
Definition same_keys st st' : Prop :=
  lastKeyGen st' = lastKeyGen st ∧ encryptKey st' = encryptKey st ∧
  scrambleKey st' = scrambleKey st ∧ revealKey st' = revealKey st.
Definition same_number st st' : Prop :=
  lastScrambledRound st' = lastScrambledRound st ∧
  lastNumberOfMessageWhenScrambled st' = lastNumberOfMessageWhenScrambled st.
Definition same_evidence st st' : Prop :=
  lastRevealKeyHashesRound st' = lastRevealKeyHashesRound st ∧
  lastRevealKeyHashes st' = lastRevealKeyHashes st ∧
  lastMessagesBeforeReveal st' = lastMessagesBeforeReveal st.

Record reacted sm ri st st' : Prop := {
  rd_sm : lastSm st' = sm;
  rd_keys : same_keys st st' ∨
    phase ri = SubmitPhase ∧ lastKeyGen st < Round sm ∧ lastKeyGen st' = Round sm;
  rd_number : same_number st st' ∨
    phase ri = ScramblePhase ∧ lastScrambledRound st < Round sm ∧ lastScrambledRound st' = Round sm ∧
    lastNumberOfMessageWhenScrambled st' = length (Messages ri);
  rd_evidence : same_evidence st st' ∨
    phase ri = RevealPhase ∧ lastRevealKeyHashesRound st < Round sm ∧
    lastRevealKeyHashesRound st' = Round sm ∧ lastRevealKeyHashes st' = RevealKeyHashes ri ∧
    lastMessagesBeforeReveal st' = Messages ri
}.

(** What a goroutine is started with. *)
Definition from_update (Id : UUID) sm ri st st' (a : action (C := C)) : Prop :=
  match a with
  | GoSendRoundResult sm' r hs hr before number =>
      sm' = sm ∧ r = Round sm ∧ phase ri = PreparePhase ∧ hs = lastRevealKeyHashes st ∧
      hr = lastRevealKeyHashesRound st ∧ before = lastMessagesBeforeReveal st ∧
      number = lastNumberOfMessageWhenScrambled st
  | GoSubmit r ri' me k1 k2 =>
      r = Round sm ∧ ri' = ri ∧ phase ri = SubmitPhase ∧ whereAmI Id ri = Some me ∧
      k1 = encryptKey st' ∧ k2 = revealKey st' ∧ Round sm ≤ lastKeyGen st'
  | GoEncrypt r ri' me k =>
      r = Round sm ∧ ri' = ri ∧ phase ri = EncryptPhase ∧ whereAmI Id ri = Some me ∧ k = encryptKey st'
  | GoScramble r ri' me k1 k2 =>
      r = Round sm ∧ ri' = ri ∧ phase ri = ScramblePhase ∧ whereAmI Id ri = Some me ∧
      k1 = scrambleKey st' ∧ k2 = revealKey st' ∧ me = numScrambled ri ∧ Round sm ≤ lastScrambledRound st'
  | GoDecrypt r ri' me k1 k2 =>
      r = Round sm ∧ ri' = ri ∧ phase ri = DecryptPhase ∧ whereAmI Id ri = Some me ∧
      k1 = scrambleKey st' ∧ k2 = encryptKey st'
  | GoReveal r ri' me k =>
      r = Round sm ∧ ri' = ri ∧ phase ri = RevealPhase ∧ whereAmI Id ri = Some me ∧
      k = revealKey st' ∧ Round sm ≤ lastRevealKeyHashesRound st'
  | GoSet _ _ | GoPrepare _ _ | GoAbort _ => True
  end.

Lemma onPrepare_acts Id sm ri me act leav st acts st' :
  phase ri = PreparePhase → onPrepare debug sm (Round sm) me act leav (with_sm sm st) = Ret (acts, st') →
  reacted sm ri st st' ∧ Forall (from_update Id sm ri st st') acts.
Proof.
  intros Hph. unfold onPrepare. intros ([sent st1] & HS & HE)%bind_ret_inv.
  assert (reacted sm ri st st1 ∧ Forall (from_update Id sm ri st st1) sent) as [Hre Hfr].
  { destruct (_ <? _).
    - apply bind_ret_inv in HS as ([] & _ & [= <- <-]). split; [split; simpl; auto; left; done|].
      repeat constructor; simpl; rewrite ?copy_hashes_id, ?copy_messages_id; done.
    - injection HS as <- <-. split; [split; simpl; auto; left; done|constructor]. }
  destruct (act && negb leav); injection HE as <- <-; [|done].
  split; [done|]. apply Forall_app_2; [done|]. by repeat constructor.
Qed.

Lemma roundKeys_acts sm ri random st st1 random1 :
  phase ri = SubmitPhase →
  roundKeys debug MessageSize (Round sm) ri random (with_sm sm st) = Ret (Some (st1, random1)) →
  reacted sm ri st st1 ∧ Round sm ≤ lastKeyGen st1.
Proof.
  intros Hph. unfold roundKeys. cbn [lastKeyGen with_sm].
  destruct (lastKeyGen st <? Round sm) eqn:Hlt; bool_to_prop.
  - intros (cr & _ & HK)%bind_ret_inv. destruct (Verify cr _); [done|].
    apply bind_ret_inv in HK as ([k1 r1] & _ & HK). apply bind_ret_inv in HK as ([k2 r2] & _ & HK).
    apply bind_ret_inv in HK as ([k3 r3] & _ & HK). injection HK as <- <-.
    split; [|simpl; lia]. split; simpl; auto; left; done.
  - intros [= <- <-]. split; [|simpl; lia]. split; simpl; auto; left; done.
Qed.

Lemma onSubmit_acts Id sm ri me random st acts st' random' :
  phase ri = SubmitPhase → whereAmI Id ri = Some me →
  onSubmit debug MessageSize (Round sm) ri me random (with_sm sm st) = Ret (acts, st', random') →
  reacted sm ri st st' ∧ Forall (from_update Id sm ri st st') acts.
Proof.
  intros Hph Hme. unfold onSubmit. intros (keyed & HK & HS)%bind_ret_inv.
  destruct keyed as [[st1 rnd]|].
  - destruct (roundKeys_acts _ _ _ _ _ _ Hph HK) as [[K1 K2 K3 K4] Hle].
    destruct (lastMessageRound st1 <? Round sm); injection HS as <- <- <-; (split; [by split|]); [|done].
    repeat constructor; rewrite ?PrivateKey_DeepCopy_id; done.
  - injection HS as <- <- <-. split; [split; simpl; auto; left; done|by repeat constructor].
Qed.

Lemma reaction_spec Id sm ri st acts st' :
  reaction debug MessageSize Id sm ri st acts st' →
  reacted sm ri st st' ∧ Forall (from_update Id sm ri st st') acts.
Proof.
  destruct 1 as [|me act leav acts st' Hph HP|me random random' acts st' Hph Hme HP|me Hph Hme
    |me acts st' Hph Hme HP|me Hph Hme|me acts st' Hph Hme HP].
  - split; [split; simpl; auto; left; done|constructor].
  - by eapply onPrepare_acts.
  - by eapply onSubmit_acts.
  - split; [split; simpl; auto; left; done|by repeat constructor].
  - unfold onScramble in HP. cbn [lastScrambledRound with_sm] in HP.
    destruct (lastScrambledRound st <? Round sm) eqn:Hlt; bool_to_prop.
    + case_bool_decide as Hturn; injection HP as <- <-; [split; [split; simpl; auto; left; done|constructor]|].
      split; [split; simpl; auto; left; done|]. apply Forall_singleton. simpl. rewrite !PrivateKey_DeepCopy_id.
      split_and!; done || lia.
    + injection HP as <- <-. split; [split; simpl; auto; left; done|constructor].
  - split; [split; simpl; auto; left; done|by repeat constructor].
  - unfold onReveal in HP. cbn [lastRevealKeyHashesRound with_sm] in HP.
    destruct (lastRevealKeyHashesRound st <? Round sm) eqn:Hlt; bool_to_prop; injection HP as <- <-.
    + rewrite copy_hashes_id, copy_messages_id.
      split; [split; simpl; [done|by left|by left|right; by split_and!]|]. apply Forall_singleton. simpl. rewrite PrivateKey_DeepCopy_id.
      split_and!; done || lia.
    + split; [split; simpl; auto; left; done|]. apply Forall_singleton. simpl. rewrite PrivateKey_DeepCopy_id.
      split_and!; done || lia.
Qed.

End reactions.

(** ** Order *)

Section order.
Context {C : Type}.
Implicit Types (sm : StateMachine C) (ri : RoundInfo C).

(** [sm] is at or past the phase with number [k] of round [r]. *)
Definition reached sm (r k : Z) : Prop :=
  r < Round sm ∨ r = Round sm ∧ ∃ ri, current sm = Some ri ∧ k ≤ phaseOrder (phase ri).

Lemma reached_precedes sm sm' r k : precedes sm sm' → reached sm r k → reached sm' r k.
Proof.
  intros [?|(? & r1 & r2 & C1 & C2 & ?)] [?|(? & ri & Hc & Hk)]; try (left; lia).
  simplify_eq. right. split; [lia|]. exists r2. split; [done|lia].
Qed.

Lemma reached_le sm r k : reached sm r k → r ≤ Round sm.
Proof. intros [?|[? _]]; lia. Qed.

Lemma reached_lt sm ri r k :
  reached sm r k → current sm = Some ri → phaseOrder (phase ri) < k → r < Round sm.
Proof. intros [?|(? & ri' & Hc & ?)] Hc'; [done|]. simplify_eq. lia. Qed.

Lemma reached_now sm ri : current sm = Some ri → reached sm (Round sm) (phaseOrder (phase ri)).
Proof. intros Hc. right. split; [done|]. by exists ri. Qed.

(** Newer states come later. *)
Definition in_order (sts : list (StateMachine C)) : Prop :=
  ∀ newer sm older, sts = newer ++ sm :: older → Forall (precedes sm) newer.

Lemma in_order_head sm hist : in_order (sm :: hist) → sm_inv sm → Forall (fun s => precedes s sm) (sm :: hist).
Proof.
  intros Ho Hi. apply Forall_cons. split; [by apply precedes_refl|]. apply Forall_forall. intros s Hs.
  apply list_elem_of_split in Hs as (l1 & l2 & ->). pose proof (Ho (sm :: l1) s l2 eq_refl) as Hf.
  by apply Forall_cons in Hf as [? _].
Qed.

Lemma in_order_cons sm hist sm' :
  in_order (sm :: hist) → sm_inv sm → precedes sm sm' → in_order (sm' :: sm :: hist).
Proof.
  intros Ho Hi Hp newer s older E. destruct newer as [|x newer]; simplify_eq/=; [constructor|].
  apply Forall_cons. split; [|by eapply Ho].
  pose proof (in_order_head _ _ Ho Hi) as Hf. rewrite Forall_forall in Hf.
  eapply precedes_trans; [|exact Hp]. apply Hf. rewrite H0. set_solver.
Qed.

Lemma precedes_round sm sm' : precedes sm sm' → Round sm ≤ Round sm'.
Proof. intros [?|[? _]]; lia. Qed.

End order.

(** ** The invariant *)

Section system_inv.
Context {C : Type} `{CommutativeCryptoLaws C} `{Sha256} (debug : bool) (MessageSize : Z).
Context (R : Z) (c : C) (who : UUID → participant) (HR0 : 0 ≤ R) (Hc : sound c).
Implicit Types (sm : StateMachine C) (ri : RoundInfo C) (op : Op C) (sts : list (StateMachine C)).
Implicit Types (n : node (C := C)) (ns : list (node (C := C))) (st : loopState (C := C)).

(** Round [R] was seen in phase [ph] as [ri0]. *)
Definition snap sts (ph : Phase) ri0 : Prop :=
  ∃ sm0, sm0 ∈ sts ∧ Round sm0 = R ∧ current sm0 = Some ri0 ∧ phase ri0 = ph.

(** What a goroutine of round [R] was started with. *)
Definition action_ok sts (Id : UUID) st (a : action (C := C)) : Prop :=
  match a with
  | GoSendRoundResult sm r hs hr before number =>
      r = R + 1 → sm ∈ sts ∧ Round sm = R + 1 ∧
        ∀ ri, Rounds sm !! slot R = Some ri → phase ri = DonePhase → Id ∈ Participants ri →
          hs = RevealKeyHashes ri ∧ hr = R ∧ before = Messages ri ∧ number = length (Participants ri)
  | GoSubmit r ri me k1 k2 =>
      r = R → snap sts SubmitPhase ri ∧ whereAmI Id ri = Some me ∧
        k1 = ek (who Id) ∧ k2 = rk (who Id) ∧ R ≤ lastKeyGen st
  | GoEncrypt r ri me k =>
      r = R → snap sts EncryptPhase ri ∧ whereAmI Id ri = Some me ∧ k = ek (who Id)
  | GoScramble r ri me k1 k2 =>
      r = R → snap sts ScramblePhase ri ∧ whereAmI Id ri = Some me ∧ me = numScrambled ri ∧
        k1 = sk (who Id) ∧ k2 = rk (who Id) ∧ R ≤ lastScrambledRound st
  | GoDecrypt r ri me k1 k2 =>
      r = R → snap sts DecryptPhase ri ∧ whereAmI Id ri = Some me ∧ k1 = sk (who Id) ∧ k2 = ek (who Id)
  | GoReveal r ri me k =>
      r = R → snap sts RevealPhase ri ∧ whereAmI Id ri = Some me ∧ k = rk (who Id) ∧
        R ≤ lastRevealKeyHashesRound st
  | GoSet _ _ | GoPrepare _ _ | GoAbort _ => True
  end.

Record node_ok sts n : Prop := {
  no_good : good MessageSize c (who (nd_Id n));
  no_acts : Forall (action_ok sts (nd_Id n) (nd_st n)) (nd_acts n);
  no_keyed : lastKeyGen (nd_st n) = R → keys_of who (nd_Id n) (nd_st n);
  no_keygen : reached (lastSm (nd_st n)) (lastKeyGen (nd_st n)) 1;
  no_scrambled : reached (lastSm (nd_st n)) (lastScrambledRound (nd_st n)) 3;
  no_revealed : reached (lastSm (nd_st n)) (lastRevealKeyHashesRound (nd_st n)) 5;
  no_number : lastScrambledRound (nd_st n) = R → ∃ ri0, snap sts ScramblePhase ri0 ∧
    lastNumberOfMessageWhenScrambled (nd_st n) = length (Messages ri0);
  no_evidence : lastRevealKeyHashesRound (nd_st n) = R → ∃ ri0, snap sts RevealPhase ri0 ∧
    lastRevealKeyHashes (nd_st n) = RevealKeyHashes ri0 ∧ lastMessagesBeforeReveal (nd_st n) = Messages ri0;
  no_later : ∀ newer sm older, sts = newer ++ sm :: older → (nd_pos n ≤ length older)%nat →
    precedes (lastSm (nd_st n)) sm;
  no_newest : ∀ sm hist, sts = sm :: hist → precedes (lastSm (nd_st n)) sm
}.

(** The traces that the participants have left in the round come from clients
    that did the work. *)
Record backer ns ri (p : nat) (Id : UUID) n : Prop := {
  bk_node : n ∈ ns;
  bk_Id : nd_Id n = Id;
  bk_keyed : ∀ h, RevealKeyHashes ri !! p = Some h → h ≠ [] → R ≤ lastKeyGen (nd_st n);
  bk_scrambled : Scrambled ri !! p = Some true → R ≤ lastScrambledRound (nd_st n);
  bk_revealed : ∀ k, RevealedKeys ri !! p = Some k → k ≠ NilPrivateKey →
    R ≤ lastRevealKeyHashesRound (nd_st n)
}.

Definition backed ns ri : Prop :=
  ∀ p Id, Participants ri !! p = Some Id → ∃ n, backer ns ri p Id n.

Definition board_ok sts : Prop :=
  Forall (fun sm => Round sm < R) sts ∨
  ∃ later sm1 hist1 ri, sts = later ++ sm1 :: hist1 ∧ exec_inv MessageSize c who R sm1 hist1 ri ∧
    (Round sm1 = R → later = []) ∧ Forall (fun sm => Round sm ≤ R) hist1 ∧
    Forall (fun sm => R < Round sm ∧ (Round sm = R + 1 → Rounds sm !! slot R = Some ri)) later.

Record world_inv (w : world (C := C)) : Prop := {
  wi_sms : Forall sm_inv (states w);
  wi_some : states w ≠ [];
  wi_order : in_order (states w);
  wi_board : board_ok (states w);
  wi_ids : NoDup (nd_Id <$> nodes w);
  wi_nodes : Forall (node_ok (states w)) (nodes w);
  wi_backed : ∀ sm ri, sm ∈ states w → Round sm = R ∨ Round sm = R + 1 →
    Rounds sm !! slot R = Some ri → backed (nodes w) ri
}.

(** *** Monotonicity *)

Lemma snap_mono sts sts' ph ri0 : sts ⊆ sts' → snap sts ph ri0 → snap sts' ph ri0.
Proof. intros Hs (sm0 & ? & ? & ? & ?). exists sm0. split_and!; auto. Qed.

(** The counters of a client only grow. *)
Definition counts_le st st' : Prop :=
  lastKeyGen st ≤ lastKeyGen st' ∧ lastScrambledRound st ≤ lastScrambledRound st' ∧
  lastRevealKeyHashesRound st ≤ lastRevealKeyHashesRound st'.

Lemma action_ok_mono sts sts' Id st st' a :
  sts ⊆ sts' → counts_le st st' → action_ok sts Id st a → action_ok sts' Id st' a.
Proof.
  intros Hs (H2 & H3 & H4). destruct a; simpl; try done;
    intros Ha Hr; specialize (Ha Hr); destruct_and?; split_and?; eauto using snap_mono; lia.
Qed.

Lemma backed_mono ns ns' ri :
  (∀ n, n ∈ ns → ∃ n', n' ∈ ns' ∧ nd_Id n' = nd_Id n ∧ counts_le (nd_st n) (nd_st n')) →
  backed ns ri → backed ns' ri.
Proof.
  intros Hn Hb p Id Hp. destruct (Hb p Id Hp) as (n & [B1 B2 B3 B4 B5]).
  destruct (Hn n B1) as (n' & ? & ? & ? & ? & ?). exists n'. split; try done; [congruence|..].
  - intros. etransitivity; [by eapply B3|done].
  - intros. etransitivity; [by eapply B4|done].
  - intros. etransitivity; [by eapply B5|done].
Qed.

Lemma reacted_counts sm ri st st' : reacted sm ri st st' → counts_le st st'.
Proof.
  intros [_ K N E]. split_and!.
  - destruct K as [(-> & _)|(_ & ? & ?)]; lia.
  - destruct N as [(-> & _)|(_ & ? & ? & _)]; lia.
  - destruct E as [(-> & _)|(_ & ? & ? & _)]; lia.
Qed.

(** *** What the board says *)

(** A state in which round [R] is visible. *)
Lemma board_info sts sm ri :
  board_ok sts → sm ∈ sts → Round sm = R ∨ Round sm = R + 1 → Rounds sm !! slot R = Some ri →
  ri_inv ri ∧ payload MessageSize c who ri ∧
  (Round sm = R + 1 → ∀ ph ri0, snap sts ph ri0 → payload MessageSize c who ri0 ∧ before ri0 ri).
Proof.
  intros [Hlt|(later & sm1 & hist1 & ri1 & -> & [E1 E2 E3 E4 E5 E6] & Hl & Hold & Hlater)] Hin HR Hri.
  { rewrite Forall_forall in Hlt. specialize (Hlt _ Hin). lia. }
  rewrite Forall_forall in Hlater.
  assert (∀ sm0, sm0 ∈ later ++ sm1 :: hist1 → Round sm0 = R → sm0 ∈ sm1 :: hist1) as Hpast.
  { intros sm0 [Hs|Hs]%elem_of_app HR'; [|done]. destruct (Hlater _ Hs). lia. }
  destruct HR as [HR|HR].
  - destruct (E6 sm ri) as (? & ? & ? & ?); [by apply Hpast|done|unfold current; by rewrite HR|].
    split_and!; try done. lia.
  - assert (ri = ri1) as ->.
    { apply elem_of_app in Hin as [Hin|Hin]; [destruct (Hlater _ Hin) as [_ Hs]; specialize (Hs HR); congruence|].
      apply elem_of_cons in Hin as [->|Hin]; [congruence|].
      rewrite Forall_forall in Hold. specialize (Hold _ Hin). lia. }
    split_and!; try done. intros _ ph ri0 (sm0 & Hin0 & HR' & Hc0 & Hph).
    destruct (E6 sm0 ri0) as (? & ? & ? & ?); auto.
Qed.

Lemma payload_hash ri p Id h :
  payload MessageSize c who ri → carrying (phase ri) → Participants ri !! p = Some Id →
  RevealKeyHashes ri !! p = Some h → h ≠ [].
Proof.
  intros [Hg Hp] Hca Hx Hh.
  assert (RevealKeyHashes ri = map (fun x => Hash (rk x)) (parts who ri)) as E
    by (unfold carrying in Hca; destruct (phase ri); intuition discriminate).
  rewrite E, (key_lookup _ (fun x => Hash (rk x)) _ _ _ Hx) in Hh. injection Hh as <-.
  rewrite Forall_lookup in Hg. by apply (good_hash _ _ _ (Hg _ _ (parts_lookup _ _ _ _ Hx))).
Qed.

Lemma same_node ns n n' :
  NoDup (nd_Id <$> ns) → n ∈ ns → n' ∈ ns → nd_Id n = nd_Id n' → n = n'.
Proof.
  intros Hnd [i Hi]%list_elem_of_lookup [j Hj]%list_elem_of_lookup E.
  assert (i = j) as ->; [|congruence].
  eapply (NoDup_lookup _ i j (nd_Id n)); [exact Hnd|..]; rewrite list_lookup_fmap;
    [by rewrite Hi|rewrite Hj; simpl; congruence].
Qed.

(** *** Receiving an update *)

Section update.
Context ns (newer older : list (StateMachine C)) sm ri n.
Let sts := newer ++ sm :: older.
Context (Hw : world_inv (mkWorld sts ns)) (Hn : n ∈ ns) (Hpos : (nd_pos n ≤ length older)%nat)
  (Hcur : current sm = Some ri).

Lemma update_node : node_ok sts n.
Proof. pose proof (wi_nodes _ Hw) as Hf. rewrite Forall_forall in Hf. by apply Hf. Qed.

Lemma update_in : sm ∈ sts.
Proof. unfold sts. set_solver. Qed.

Lemma update_precedes : precedes (lastSm (nd_st n)) sm.
Proof. by eapply (no_later _ _ update_node). Qed.

(** The client is the one that left the traces under its name. *)
Lemma update_backer ri0 p :
  Round sm = R ∨ Round sm = R + 1 → Rounds sm !! slot R = Some ri0 →
  Participants ri0 !! p = Some (nd_Id n) → backer ns ri0 p (nd_Id n) n.
Proof.
  intros HR Hri Hp. destruct (wi_backed _ Hw sm ri0 update_in HR Hri p _ Hp) as (n' & Hb).
  assert (n' = n) as <-; [|done].
  apply (same_node ns); [exact (wi_ids _ Hw)|exact (bk_node _ _ _ _ _ Hb)|done|exact (bk_Id _ _ _ _ _ Hb)].
Qed.

Lemma update_keys me :
  Round sm = R → carrying (phase ri) → whereAmI (nd_Id n) ri = Some me → keys_of who (nd_Id n) (nd_st n).
Proof.
  intros HR Hca Hme%whereAmI_Some. pose proof Hcur as Hri. unfold current in Hri. rewrite HR in Hri.
  destruct (board_info _ _ _ (wi_board _ Hw) update_in (or_introl HR) Hri) as (Hi & Hp & _).
  destruct (lookup_lt_is_Some_2 (RevealKeyHashes ri) me) as [h Hh].
  { rewrite (inv_hashes _ Hi). by eapply lookup_lt_Some. }
  pose proof (bk_keyed _ _ _ _ _ (update_backer ri me (or_introl HR) Hri Hme) h Hh (payload_hash _ _ _ _ Hp Hca Hme Hh)).
  apply (no_keyed _ _ update_node).
  pose proof (reached_le _ _ _ (reached_precedes _ _ _ _ update_precedes (no_keygen _ _ update_node))). lia.
Qed.

(** The evidence that goes with the result of round [R]. *)
Lemma update_evidence ri0 :
  Round sm = R + 1 → phase ri = PreparePhase → Rounds sm !! slot R = Some ri0 → phase ri0 = DonePhase →
  nd_Id n ∈ Participants ri0 →
  lastRevealKeyHashes (nd_st n) = RevealKeyHashes ri0 ∧ lastRevealKeyHashesRound (nd_st n) = R ∧
  lastMessagesBeforeReveal (nd_st n) = Messages ri0 ∧
  lastNumberOfMessageWhenScrambled (nd_st n) = length (Participants ri0).
Proof.
  intros HR Hph Hri Hdone [me Hme]%list_elem_of_lookup.
  destruct (board_info _ _ _ (wi_board _ Hw) update_in (or_intror HR) Hri) as (Hi & Hp & Hsnap).
  specialize (Hsnap HR). pose proof (update_backer ri0 me (or_intror HR) Hri Hme) as [_ _ _ Bs Br].
  pose proof update_node as No.
  pose proof (inv_flags _ Hi) as Hfl. unfold phase_flags in Hfl. rewrite Hdone in Hfl.
  destruct Hfl as (_ & Fs & _ & Fk). unfold all_set in Fs. rewrite Forall_lookup in Fs. rewrite Forall_lookup in Fk.
  pose proof (lookup_lt_Some _ _ _ Hme) as Hlt.
  assert (lastScrambledRound (nd_st n) = R) as Es.
  { destruct (lookup_lt_is_Some_2 (Scrambled ri0) me) as [b Hb]; [by rewrite (inv_scrambled _ Hi)|].
    rewrite (Fs _ _ Hb) in Hb. specialize (Bs Hb).
    pose proof (reached_lt _ _ _ _ (reached_precedes _ _ _ _ update_precedes (no_scrambled _ _ No)) Hcur) as Hl.
    rewrite Hph in Hl. specialize (Hl ltac:(simpl; lia)). lia. }
  assert (lastRevealKeyHashesRound (nd_st n) = R) as Er.
  { destruct (lookup_lt_is_Some_2 (RevealedKeys ri0) me) as [k Hk]; [by rewrite (inv_keys _ Hi)|].
    assert (k ≠ NilPrivateKey) as Hk' by (intros ->; by specialize (Fk _ _ Hk)). specialize (Br _ Hk Hk').
    pose proof (reached_lt _ _ _ _ (reached_precedes _ _ _ _ update_precedes (no_revealed _ _ No)) Hcur) as Hl.
    rewrite Hph in Hl. specialize (Hl ltac:(simpl; lia)). lia. }
  destruct (no_number _ _ No Es) as (rs & Hs & ->). destruct (no_evidence _ _ No Er) as (rr & Hr & -> & ->).
  destruct (Hsnap _ _ Hs) as [[_ Hpls] Hbs], (Hsnap _ _ Hr) as [_ Hbr].
  destruct Hs as (? & _ & _ & _ & Hs), Hr as (? & _ & _ & _ & Hr).
  rewrite Hs in Hpls. destruct Hpls as (_ & _ & Hcar%Permutation_length).
  rewrite length_map, parts_length, <- (bf_parts _ _ Hbs) in Hcar by congruence.
  split_and!; [symmetry; apply (bf_hashes _ _ Hbr); unfold carrying; auto|done|symmetry; by apply (bf_messages _ _ Hbr)|done].
Qed.

(** Whatever is started by the update is started correctly. *)
Lemma update_action st' a :
  reacted sm ri (nd_st n) st' → (lastKeyGen (nd_st n) < R → lastKeyGen st' = R → keys_of who (nd_Id n) st') →
  from_update (nd_Id n) sm ri (nd_st n) st' a → action_ok sts (nd_Id n) st' a.
Proof.
  intros Hre Hkeys Ha. pose proof update_in as Hin.
  assert (∀ ph, Round sm = R → phase ri = ph → snap sts ph ri) as Hsnap by (intros ph ??; by exists sm).
  assert (Round sm = R → carrying (phase ri) → ∀ me, whereAmI (nd_Id n) ri = Some me → keys_of who (nd_Id n) st') as Hk.
  { intros HR Hca me Hme. destruct (update_keys _ HR Hca Hme) as (K1 & K2 & K3).
    destruct (rd_keys _ _ _ _ Hre) as [(_ & L1 & L2 & L3)|(Hph & _)].
    - unfold keys_of. by rewrite L1, L2, L3.
    - exfalso. rewrite Hph in Hca. unfold carrying in Hca. intuition discriminate. }
  destruct a; simpl in *; try done; intros E; destruct_and!; subst.
  - split_and!; try done. intros ri0 Hri Hdone HId.
    destruct (update_evidence ri0) as (-> & -> & -> & ->); try done.
  - assert (keys_of who (nd_Id n) st') as (K1 & K2 & K3).
    { destruct (rd_keys _ _ _ _ Hre) as [(L0 & L1 & L2 & L3)|(_ & L1 & L2)]; [|apply Hkeys; lia].
      unfold keys_of. rewrite L1, L2, L3. apply (no_keyed _ _ update_node).
      pose proof (reached_le _ _ _ (reached_precedes _ _ _ _ update_precedes (no_keygen _ _ update_node))). lia. }
    split_and!; auto; lia.
  - edestruct Hk as (K1 & K2 & K3); [done|unfold carrying; by auto|done|]. split_and!; auto; lia.
  - edestruct Hk as (K1 & K2 & K3); [done|unfold carrying; by auto|done|]. split_and!; auto; lia.
  - edestruct Hk as (K1 & K2 & K3); [done|unfold carrying; by auto|done|]. split_and!; auto; lia.
  - edestruct Hk as (K1 & K2 & K3); [done|unfold carrying; by auto|done|]. split_and!; auto; lia.
Qed.

Lemma update_node_ok st' acts' v :
  reacted sm ri (nd_st n) st' → (lastKeyGen (nd_st n) < R → lastKeyGen st' = R → keys_of who (nd_Id n) st') →
  Forall (from_update (nd_Id n) sm ri (nd_st n) st') acts' →
  node_ok sts (mkNode (nd_Id n) (S (length older)) st' (nd_acts n ++ GoSet sm v :: acts')).
Proof.
  intros Hre Hkeys Hacts. pose proof update_node as No. pose proof update_precedes as Hpr.
  pose proof (reached_now _ _ Hcur) as Hnow. pose proof update_in as Hin.
  destruct No as [N1 N2 N3 N4 N5 N6 N7 N8 N9 N10].
  apply (reached_precedes _ _ _ _ Hpr) in N4, N5, N6.
  split; simpl; rewrite ?(rd_sm _ _ _ _ Hre).
  - done.
  - apply Forall_app_2; [|apply Forall_cons; split; [done|]].
    + eapply Forall_impl; [exact N2|]. intros a. apply action_ok_mono; [done|by eapply reacted_counts].
    + eapply Forall_impl; [exact Hacts|]. intros a. by apply update_action.
  - destruct (rd_keys _ _ _ _ Hre) as [(L0 & L1 & L2 & L3)|(_ & L1 & L2)]; [|intros ?; apply Hkeys; lia].
    unfold keys_of. by rewrite L0, L1, L2, L3.
  - destruct (rd_keys _ _ _ _ Hre) as [(L0 & _)|(Hph & _ & L2)]; [by rewrite L0|].
    rewrite L2. rewrite Hph in Hnow. done.
  - destruct (rd_number _ _ _ _ Hre) as [(L0 & _)|(Hph & _ & L2 & _)]; [by rewrite L0|].
    rewrite L2. rewrite Hph in Hnow. done.
  - destruct (rd_evidence _ _ _ _ Hre) as [(L0 & _)|(Hph & _ & L2 & _)]; [by rewrite L0|].
    rewrite L2. rewrite Hph in Hnow. done.
  - destruct (rd_number _ _ _ _ Hre) as [(L0 & L1)|(Hph & _ & L2 & L3)]; [by rewrite L0, L1|].
    intros HR. exists ri. split; [|done]. exists sm. split_and!; congruence.
  - destruct (rd_evidence _ _ _ _ Hre) as [(L0 & L1 & L2)|(Hph & _ & L2 & L3)]; [by rewrite L0, L1, L2|].
    intros HR. exists ri. split; [|done]. exists sm. split_and!; congruence.
  - intros newer' sm' older' E Hle. pose proof (wi_order _ Hw newer sm older eq_refl) as Ho.
    rewrite Forall_forall in Ho. apply Ho.
    unfold sts in E. apply app_eq_inv in E as [(k & -> & E)|(k & -> & E)];
      destruct k as [|x k]; injection E as E1 E2; subst; try lia.
    + apply elem_of_app. right. left.
    + rewrite length_app in Hle. simpl in Hle. lia.
  - intros sm' hist E. unfold sts in E. destruct newer as [|x newer']; simplify_eq/=.
    + apply precedes_refl. pose proof (wi_sms _ Hw) as Hs. by apply Forall_cons in Hs as [? _].
    + pose proof (wi_order _ Hw (sm' :: newer') sm older eq_refl) as Ho. by apply Forall_cons in Ho as [? _].
Qed.

End update.

End system_inv.
