(* ===== verification/SystemDelivery.v ===== *)
(** * Delivery by the whole system

    Every step of System keeps the invariant of SystemProps; hence, in every
    reachable world, each client that took part in a completed round reports
    exactly the messages that were submitted. *)

From stdpp Require Import gmap strings.
From Stdlib Require Import Strings.Byte.
From S2P Require Import Prelude Bytes Primes MasseyOmura Crypto Op StateMachine RoundSpec.
From S2P Require Import StateMachineProps Representation Client LastStateMachine ClientLoop Layers Protocol.
From S2P Require Import System SystemProps.

Local Open Scope Z_scope.

(** ** Shapes of the operations *)

Section shapes.
Context {C : Type} `{CommutativeCrypto C} `{Sha256} (debug : bool) (MessageSize : Z).
Implicit Types (sm : StateMachine C) (ri : RoundInfo C) (op : Op C).

Lemma prepare_shape Id r me op : prepare Id r me = Some op → op = JoinOp Id r.
Proof. unfold prepare. destruct me; naive_solver. Qed.

Lemma submit_shape Id r ri me k1 k2 answer r1 r2 op :
  submit debug Id MessageSize r ri me k1 k2 answer r1 r2 = Ret (Some op) → ∃ m h, op = MessageOp Id r m h.
Proof.
  unfold submit. intros (mine & _ & HS)%bind_ret_inv. destruct (Msg_Nil mine); [|done].
  apply bind_ret_inv in HS as (cr & _ & HS). apply bind_ret_inv in HS as (full & _ & HS).
  apply bind_ret_inv in HS as (pr & _ & HS). apply bind_ret_inv in HS as (m & _ & [= <-]). eauto.
Qed.

Lemma encrypt_shape Id r ri me k op :
  encrypt Id r ri me k = Ret (Some op) → ∃ ms prev, op = EncryptedOp Id r ms prev.
Proof.
  unfold encrypt. intros (b & _ & HS)%bind_ret_inv. destruct b; [done|].
  apply bind_ret_inv in HS as (ms & _ & [= <-]). eauto.
Qed.

Lemma scramble_shape Id r ri me k1 k2 draws op :
  scramble Id r ri me k1 k2 draws = Ret (Some op) → ∃ ms, op = ScrambledOp Id r ms.
Proof.
  unfold scramble. intros (b & _ & HS)%bind_ret_inv. destruct b; [done|].
  apply bind_ret_inv in HS as (ms & _ & HS). apply bind_ret_inv in HS as (ms' & _ & [= <-]). eauto.
Qed.

Lemma decrypt_shape Id r ri me k1 k2 op :
  decrypt Id r ri me k1 k2 = Ret (Some op) → ∃ ms prev, op = DecryptedOp Id r ms prev.
Proof.
  unfold decrypt. intros (b & _ & HS)%bind_ret_inv. destruct b; [done|].
  apply bind_ret_inv in HS as (ms & _ & [= <-]). eauto.
Qed.

Lemma reveal_shape Id r ri me k op :
  client_reveal Id r ri me k = Ret (Some op) → op = RevealOp Id r k.
Proof.
  unfold client_reveal. intros (b & _ & HS)%bind_ret_inv. destruct (PrivateKey_Nil b); naive_solver.
Qed.

Lemma aborter_shape cfg l now op sleep :
  aborter (C := C) debug cfg l now = Ret (Some op, sleep) → ∃ r, op = AbortOp r.
Proof.
  unfold aborter. intros (p & _ & ([o s] & HS & ([] & _ & [= -> ->])%bind_ret_inv)%bind_ret_inv)%bind_ret_inv.
  destruct p; try (by apply bind_ret_inv in HS as ([] & _ & [= ?])); try done;
    destruct (_ <? _); simplify_eq; by eexists.
Qed.

Lemma Start_shape Id newCrypto sm r op :
  Start debug Id newCrypto sm r = Ret (inr op) → op = StartOp Id r (Some newCrypto).
Proof.
  unfold Start. destruct (negb _); [done|].
  intros ([a b] & _ & ([d e] & _ & HS)%bind_ret_inv)%bind_ret_inv. destruct (negb _); [done|]. by injection HS as <-.
Qed.

Lemma killAbort_shape Id sm op : killAbort debug Id sm = Ret (Some op) → ∃ r, op = AbortOp r.
Proof.
  unfold killAbort. intros ([a b] & _ & ([d e] & _ & HS)%bind_ret_inv)%bind_ret_inv.
  destruct (_ && _); [|done]. injection HS as <-. by eexists.
Qed.

End shapes.

Section delivery.
Context {C : Type} `{CommutativeCryptoLaws C} `{Sha256} (debug : bool) (MessageSize : Z).
Context (R : Z) (c : C) (who : UUID → participant) (HR0 : 0 ≤ R) (Hc : sound c).
Implicit Types (sm : StateMachine C) (ri : RoundInfo C) (op : Op C) (sts : list (StateMachine C)).
Implicit Types (n : node (C := C)) (ns : list (node (C := C))) (st : loopState (C := C)).

(** ** What a client submits in round [R] *)

(** The client has done the work that the operation claims. *)
Definition op_backed (Id : UUID) st op : Prop :=
  match op with
  | JoinOp Id' _ => Id' = Id
  | MessageOp Id' _ _ _ => Id' = Id ∧ R ≤ lastKeyGen st
  | ScrambledOp Id' _ _ => Id' = Id ∧ R ≤ lastScrambledRound st
  | RevealOp Id' _ _ => Id' = Id ∧ R ≤ lastRevealKeyHashesRound st
  | _ => True
  end.

(** Operations that do not depend on a snapshot. *)
Definition free_op op : Prop :=
  match op with JoinOp _ _ | StartOp _ _ _ | AbortOp _ => True | _ => False end.

Lemma produces_honest sts n op :
  node_ok MessageSize R c who sts n → produces debug MessageSize R who (nd_Id n) (nd_acts n) op → op_Round op = R →
  op_backed (nd_Id n) (nd_st n) op ∧
  (free_op op ∨ ∃ ph ri0, snap R sts ph ri0 ∧ honest_op debug MessageSize c who R ri0 op).
Proof.
  intros No Hpr HR. pose proof (no_acts _ _ _ _ _ _ No) as Ha. rewrite Forall_forall in Ha.
  destruct Hpr as [r me op _ Hop|sid conf last m acts' m' r me op _ _ Hop|r ri me k1 k2 answer r1 r2 op Hin Hop Hw
    |r ri me k op Hin Hop|r ri me k1 k2 draws op Hin Hop|r ri me k1 k2 op Hin Hop|r ri me k op Hin Hop|r _
    |cfg l now op sl Hop|cr last r op Hop|last op Hop].
  - apply prepare_shape in Hop as ->. split; [done|by left].
  - apply prepare_shape in Hop as ->. split; [done|by left].
  - pose proof Hop as (m & h & ->)%submit_shape. simpl in HR. subst r.
    destruct (Ha _ Hin eq_refl) as (Hs & Hme & -> & -> & Hle), (Hw eq_refl) as [Hw1 ->].
    split; [done|]. right. exists SubmitPhase, ri. split; [done|]. destruct Hs as (_ & _ & _ & _ & Hph).
    by eapply honest_message.
  - pose proof Hop as (ms & prev & ->)%encrypt_shape. simpl in HR. subst r.
    destruct (Ha _ Hin eq_refl) as (Hs & Hme & ->). split; [done|]. right. exists EncryptPhase, ri.
    split; [done|]. destruct Hs as (_ & _ & _ & _ & Hph). by eapply honest_encrypt.
  - pose proof Hop as (ms & ->)%scramble_shape. simpl in HR. subst r.
    destruct (Ha _ Hin eq_refl) as (Hs & Hme & Hturn & -> & -> & Hle). split; [done|]. right.
    exists ScramblePhase, ri. split; [done|]. destruct Hs as (_ & _ & _ & _ & Hph). by eapply honest_scramble.
  - pose proof Hop as (ms & prev & ->)%decrypt_shape. simpl in HR. subst r.
    destruct (Ha _ Hin eq_refl) as (Hs & Hme & -> & ->). split; [done|]. right. exists DecryptPhase, ri.
    split; [done|]. destruct Hs as (_ & _ & _ & _ & Hph). by eapply honest_decrypt.
  - pose proof Hop as ->%reveal_shape. simpl in HR. subst r.
    destruct (Ha _ Hin eq_refl) as (Hs & Hme & -> & Hle). split; [done|]. right. exists RevealPhase, ri.
    split; [done|]. destruct Hs as (_ & _ & _ & _ & Hph). by eapply honest_reveal.
  - split; [done|by left].
  - apply aborter_shape in Hop as [r ->]. split; [done|by left].
  - apply Start_shape in Hop as ->. split; [done|by left].
  - apply killAbort_shape in Hop as [r ->]. split; [done|by left].
Qed.

(** ** Committing an operation *)

(** Fields that [advance] leaves alone. *)
Lemma backer_advance b next ns ri p Id n : backer R ns ri p Id n → backer R ns (advance b next ri) p Id n.
Proof. intros [B1 B2 B3 B4 B5]. destruct b; by split. Qed.

Lemma backed_step ns n ri op ri' fin :
  ri_inv ri → (∀ m, m ∈ ns → nd_Id m = nd_Id n → m = n) → n ∈ ns →
  op_backed (nd_Id n) (nd_st n) op → round_step ri op ri' fin → backed R ns ri → backed R ns ri'.
Proof.
  intros Hi Hu Hn Hop Hst Hb.
  assert (∀ p q Id m, Participants ri !! p = Some (nd_Id n) → Participants ri !! q = Some Id →
    p = q → backer R ns ri q Id m → m = n) as Hme.
  { intros p q Id m Hp Hq <- Hm. apply Hu; [by apply Hm|]. rewrite (bk_Id _ _ _ _ _ _ Hm). congruence. }
  destruct Hst as [Id0 r Hp Hx|Id0 r cr Hp|Id0 r m h p ri1 Hp Hx ->|Id0 r ms prev p ri1 Hp Hx Hv Hf ->
    |Id0 r ms p ri1 Hp Hx Hv Hf ->|Id0 r ms prev p ri1 Hp Hx Hv Hf ->|Id0 r k p ri1 Hp Hx ->|r]; intros q Id Hq;
    try (rewrite (proj1 (advance_fields _ _ _)) in Hq); simpl in Hq.
  - apply lookup_snoc_Some in Hq as [[Hl Hq]|[-> ->]].
    + destruct (Hb _ _ Hq) as (m & [B1 B2 B3 B4 B5]). exists m.
      split; simpl; rewrite ?lookup_app_l by (rewrite ?inv_hashes, ?inv_scrambled, ?inv_keys; done); done.
    + exists n. simpl in Hop. subst. split; simpl; try done.
      * rewrite <- (inv_hashes _ Hi), list_lookup_middle by done. by intros h [= <-].
      * by rewrite <- (inv_scrambled _ Hi), list_lookup_middle by done.
      * rewrite <- (inv_keys _ Hi), list_lookup_middle by done. by intros h [= <-].
  - destruct (Hb _ _ Hq) as (m & [B1 B2 B3 B4 B5]). by exists m.
  - destruct (Hb _ _ Hq) as (m1 & Hm). exists m1. apply backer_advance. destruct Hop as [-> Hop].
    pose proof Hm as [B1 B2 B3 B4 B5]. split; simpl; try done.
    intros h' [(E & _ & _)|[_ Hh]]%list_lookup_insert_Some; [|by eapply B3]. by rewrite (Hme _ _ _ _ Hx Hq E Hm).
  - destruct (Hb _ _ Hq) as (m & [B1 B2 B3 B4 B5]). exists m. apply backer_advance. by split.
  - destruct (Hb _ _ Hq) as (m1 & Hm). exists m1. apply backer_advance. destruct Hop as [-> Hop].
    pose proof Hm as [B1 B2 B3 B4 B5]. split; simpl; try done.
    intros [(E & _ & _)|[_ Hh]]%list_lookup_insert_Some; [|by eapply B4]. by rewrite (Hme _ _ _ _ Hx Hq E Hm).
  - destruct (Hb _ _ Hq) as (m & [B1 B2 B3 B4 B5]). exists m. apply backer_advance. by split.
  - destruct (Hb _ _ Hq) as (m1 & Hm). exists m1. apply backer_advance. destruct Hop as [-> Hop].
    pose proof Hm as [B1 B2 B3 B4 B5]. split; simpl; try done.
    intros h' [(E & _ & _)|[_ Hh]]%list_lookup_insert_Some; [|by eapply B5]. by rewrite (Hme _ _ _ _ Hx Hq E Hm).
  - destruct (Hb _ _ Hq) as (m & [B1 B2 B3 B4 B5]). by exists m.
Qed.

(** Committing in a later round leaves round [R] alone. *)
Lemma commit_later sm ri' fin :
  R < Round sm → Round (commit sm ri' fin) = R + 1 →
  Rounds (commit sm ri' fin) !! slot R = Rounds sm !! slot R.
Proof. intros Hlt HR. assert (Round sm = R + 1) by (destruct fin; simpl in *; lia). apply commit_history; lia. Qed.

Lemma commit_Round sm ri' fin : Round sm ≤ Round (commit sm ri' fin) ≤ Round sm + 1.
Proof. destruct fin; simpl; lia. Qed.

(** A round that begins. *)
Lemma commit_new sm ri' :
  sm_inv sm → Rounds (commit sm ri' true) !! slot (Round sm + 1) = Some (set_phase PreparePhase zeroRoundInfo).
Proof.
  intros Hi. simpl. apply list_lookup_insert_eq. rewrite length_insert, (inv_size _ Hi). apply slot_lt.
Qed.

Section commit.
Context sm (hist : list (StateMachine C)) ns n ri op ri' (fin : bool).
Let sts := sm :: hist.
Context (Hw : world_inv MessageSize R c who (mkWorld sts ns)) (Hn : n ∈ ns).
Context (Hpr : produces debug MessageSize R who (nd_Id n) (nd_acts n) op) (Hlt : Round sm < int_max).
Context (HopR : op_Round op = Round sm) (Hcur : current sm = Some ri) (Hst : round_step ri op ri' fin).
Context (HA : Apply false op sm = Ret (true, commit sm ri' fin)).
Context (Hstart : ∀ Id cr, op = StartOp Id R cr → cr = Some c).

Lemma commit_sm : sm_inv sm.
Proof. pose proof (wi_sms _ _ _ _ _ Hw) as Hf. by apply Forall_cons in Hf as [? _]. Qed.

Lemma commit_node : node_ok MessageSize R c who sts n.
Proof. pose proof (wi_nodes _ _ _ _ _ Hw) as Hf. rewrite Forall_forall in Hf. by apply Hf. Qed.

(** The rounds of the older states are not above that of the newest. *)
Lemma commit_rounds : Forall (fun s => Round s ≤ Round sm) sts.
Proof.
  eapply Forall_impl; [apply in_order_head; [exact (wi_order _ _ _ _ _ Hw)|exact commit_sm]|].
  intros s. apply precedes_round.
Qed.

Lemma commit_honest : Round sm = R →
  ∃ sm0 ri0, sm0 ∈ sts ∧ Round sm0 = R ∧ current sm0 = Some ri0 ∧
    honest_op debug MessageSize c who R ri0 op.
Proof.
  intros HR. pose proof HopR as HR'. rewrite HR in HR'.
  destruct (produces_honest _ _ _ commit_node Hpr HR') as [Hbk [Hfree|(ph & ri0 & (sm0 & ? & ? & ? & ?) & ?)]];
    [|by exists sm0, ri0].
  exists sm, ri. split_and!; [left|done|done|]. clear HA.
  destruct Hst as [Id r Hp Hx|Id r cr Hp| | | | | |r]; try done; simpl in *; rewrite ?HR in *; subst r; rewrite ?HR.
  - subst Id. eapply honest_join; [exact (no_good _ _ _ _ _ _ commit_node)|done|].
    destruct (whereAmI (nd_Id n) ri) eqn:Hme; [|done].
    apply whereAmI_Some, list_elem_of_lookup_2 in Hme. done.
  - rewrite (Hstart _ _ eq_refl). by apply honest_start.
  - apply honest_abort.
Qed.

Lemma commit_board : board_ok MessageSize R c who (commit sm ri' fin :: sts).
Proof.
  pose proof commit_sm as Hi. pose proof commit_rounds as Hle.
  destruct (wi_board _ _ _ _ _ Hw) as [Hold|(later & sm1 & hist1 & r1 & E & He & Hl & Hold & Hlater)].
  - simpl in Hold. pose proof Hold as Hold'. apply Forall_cons in Hold' as [Hsm _].
    destruct (decide (Round (commit sm ri' fin) < R)) as [|Hge]; [left; by apply Forall_cons|].
    right. exists [], (commit sm ri' fin), sts, (set_phase PreparePhase zeroRoundInfo).
    destruct fin; simpl in Hge; [|lia]. assert (R = Round sm + 1) as -> by lia.
    split_and!; try done; [|eapply Forall_impl; [exact Hold|]; simpl; lia].
    assert (sm_inv (commit sm ri' true)) as Hi' by (by eapply commit_inv).
    pose proof (exec_inv_init MessageSize c who _ Hi' (commit_new sm ri' Hi)) as [E1 E2 E3 E4 E5 E6].
    split; try done. intros sm0 ri0 [->|Hin]%elem_of_cons HR; [by apply E6; [left|]|].
    rewrite Forall_forall in Hold. specialize (Hold _ Hin). lia.
  - simpl in E. destruct later as [|sm2 later]; injection E as E1 E2; [subst sm1 hist1|subst sm2].
    + destruct (ei_round _ _ _ _ _ _ _ He) as [_ [[HR _]|HR]].
      * destruct (commit_honest HR) as (sm0 & ri0 & G1 & G2 & G3 & G4).
        destruct (exec_inv_step debug MessageSize c Hc who R _ _ _ _ _ _ _ _ He HR ltac:(lia) G1 G2 G3 G4 HA) as [r2 He2].
        right. exists [], (commit sm ri' fin), sts, r2. split_and!; try done. apply Forall_cons. split; [lia|done].
      * right. exists [commit sm ri' fin], sm, hist, r1. split_and!; try done; [lia|].
        apply Forall_singleton. pose proof (commit_Round sm ri' fin). split; [lia|]. intros HR'.
        rewrite commit_later by (done || lia). apply He.
    + apply Forall_cons in Hlater as [[Hr Hs] Hlater]. right.
      exists (commit sm ri' fin :: sm :: later), sm1, hist1, r1. split_and!; try done; [unfold sts; by rewrite E2|..].
      * intros HR. by specialize (Hl HR).
      * apply Forall_cons; split; [|by apply Forall_cons]. pose proof (commit_Round sm ri' fin). split; [lia|].
        intros HR'. rewrite commit_later by done. apply Hs. lia.
Qed.

Lemma commit_precedes : precedes sm (commit sm ri' fin).
Proof. eapply Apply_precedes; [exact commit_sm|done|exact HA]. Qed.

Lemma commit_nodes m : m ∈ ns → node_ok MessageSize R c who (commit sm ri' fin :: sts) m.
Proof.
  intros Hm. pose proof (wi_nodes _ _ _ _ _ Hw) as Hf. rewrite Forall_forall in Hf.
  destruct (Hf _ Hm) as [N1 N2 N3 N4 N5 N6 N7 N8 N9 N10]. pose proof commit_precedes as Hp.
  assert (sts ⊆ commit sm ri' fin :: sts) as Hsub by (intros s Hs; by right).
  split; try done.
  - eapply Forall_impl; [exact N2|]. intros a. by apply action_ok_mono.
  - intros E. destruct (N7 E) as (ri0 & Hs & ?). exists ri0. split; [by eapply snap_mono|done].
  - intros E. destruct (N8 E) as (ri0 & Hs & ?). exists ri0. split; [by eapply snap_mono|done].
  - intros newer s older E Hle. destruct newer as [|x newer]; injection E as E1 E2.
    + subst s. eapply precedes_trans; [by eapply N10|done].
    + by eapply N9.
  - intros s hist' E. injection E as <- E2. eapply precedes_trans; [by eapply N10|done].
Qed.

Lemma commit_backed ri0 :
  Round (commit sm ri' fin) = R ∨ Round (commit sm ri' fin) = R + 1 →
  Rounds (commit sm ri' fin) !! slot R = Some ri0 → backed R ns ri0.
Proof.
  intros HR Hl. pose proof commit_sm as Hi. pose proof (commit_Round sm ri' fin) as Hr.
  assert (∀ r, Round sm = R ∨ Round sm = R + 1 → Rounds sm !! slot R = Some r → backed R ns r) as Hold
    by (intros r; apply (wi_backed _ _ _ _ _ Hw); left).
  destruct (decide (Round sm = R)) as [E|Hne]; [|destruct (decide (Round sm = R + 1)) as [E|Hne']].
  - rewrite <- E, commit_lookup in Hl by done. injection Hl as <-.
    destruct (current_inv _ Hi) as (r & Hr' & Hri & _). rewrite Hcur in Hr'. injection Hr' as <-.
    eapply backed_step; [exact Hri| |exact Hn| |exact Hst|].
    + intros m Hm. by apply (same_node ns m n (wi_ids _ _ _ _ _ Hw)).
    + eapply produces_honest; [exact commit_node|exact Hpr|lia].
    + apply Hold; [by left|]. unfold current in Hcur. by rewrite <- E.
  - assert (fin = false) as Hfin by (destruct fin; simpl in *; [lia|done]).
    rewrite commit_later in Hl by (rewrite ?Hfin; simpl; lia). apply Hold; auto.
  - assert (fin = true ∧ R = Round sm + 1) as [Hfin E] by (destruct fin; simpl in *; [lia|lia]).
    rewrite Hfin, E, commit_new in Hl by done. injection Hl as <-. intros p Id Hp. done.
Qed.

End commit.

(** ** Every step keeps the invariant *)

Lemma initialLoop_ok hist Id st :
  Forall sm_inv hist → good MessageSize c (who Id) → initialLoop debug = Ret st →
  node_ok MessageSize R c who hist (mkNode Id 0 st []).
Proof.
  intros Hs Hg Hst.
  assert (st = mkLoop (-1) (-1) 0 NilPrivateKey NilPrivateKey NilPrivateKey (-1) [] [] (-1) 0%nat (-1)
    (mkStateMachine 0 [set_phase PreparePhase zeroRoundInfo; zeroRoundInfo; zeroRoundInfo])) as ->
    by (destruct debug; by injection Hst as <-).
  assert (∀ sm, sm ∈ hist →
    precedes (mkStateMachine 0 [set_phase PreparePhase zeroRoundInfo; zeroRoundInfo; zeroRoundInfo]) sm) as Hp.
  { intros sm Hin. rewrite Forall_forall in Hs. specialize (Hs _ Hin). pose proof (inv_round _ Hs) as [Hr _].
    destruct (current_inv _ Hs) as (ri & Hcur & _ & _). destruct (decide (Round sm = 0)) as [E|]; [|left; simpl; lia].
    right. split; [done|]. eexists _, ri. split_and!; [done|done|]. destruct (phase ri); simpl; lia. }
  split; simpl; try lia; try done; try (left; simpl; lia).
  - intros newer sm older -> _. apply Hp. set_solver.
  - intros sm hist' ->. apply Hp. set_solver.
Qed.

Lemma new_step_inv hist ns Id st :
  Id ∉ nd_Id <$> ns → good MessageSize c (who Id) → initialLoop debug = Ret st →
  world_inv MessageSize R c who (mkWorld hist ns) →
  world_inv MessageSize R c who (mkWorld hist (ns ++ [mkNode Id 0 st []])).
Proof.
  intros Hid Hg Hst [W1 W2 W3 W4 W5 W6 W7]. split; simpl in *; try done.
  - rewrite fmap_app. apply NoDup_app. split_and!; [done| |apply NoDup_singleton].
    intros x Hx Hx'%list_elem_of_singleton. by subst.
  - apply Forall_app_2; [done|]. apply Forall_singleton. by apply initialLoop_ok.
  - intros sm ri Hin HR Hl. eapply backed_mono; [|by eapply W7].
    intros n Hn. exists n. split; [by apply elem_of_app; left|]. split; [done|]. by split_and!.
Qed.

Lemma update_step_inv newer sm older ns i n act leav random acts' st' random' :
  ns !! i = Some n → (nd_pos n ≤ length older)%nat →
  onStateMachine debug (nd_Id n) MessageSize sm act leav random (nd_st n) = Ret (acts', st', random') →
  (lastKeyGen (nd_st n) < R → lastKeyGen st' = R → keys_of who (nd_Id n) st') →
  world_inv MessageSize R c who (mkWorld (newer ++ sm :: older) ns) →
  world_inv MessageSize R c who (mkWorld (newer ++ sm :: older)
    (<[i := mkNode (nd_Id n) (S (length older)) st' (nd_acts n ++ acts')]> ns)).
Proof.
  intros Hi Hpos Hon Hkeys Hw. pose proof Hw as [W1 W2 W3 W4 W5 W6 W7].
  assert (sm_inv sm) as Hsm by (rewrite Forall_forall in W1; apply W1; simpl; set_solver).
  destruct (current_inv _ Hsm) as (ri & Hcur & _ & _).
  destruct (onStateMachine_reaction _ _ _ _ _ _ _ _ _ _ _ Hon) as (ri1 & acts1 & Hci & -> & Hre).
  rewrite (current_info_eq _ _ _ Hsm Hcur) in Hci. injection Hci as <-.
  apply reaction_spec in Hre as [Hre Hfr].
  pose proof (list_elem_of_lookup_2 _ _ _ Hi) as Hn.
  pose proof (update_node_ok _ _ _ _ HR0 Hc _ _ _ _ _ _ Hw Hn Hpos Hcur _ _ (upd_version (nd_st n)) Hre Hkeys Hfr) as Hok.
  split; simpl in *; try done.
  - rewrite list_fmap_insert. simpl. rewrite list_insert_id; [done|]. by rewrite list_lookup_fmap, Hi.
  - by apply Forall_insert.
  - intros sm0 ri0 Hin HR Hl. eapply backed_mono; [|by eapply W7]. intros m [j Hj]%list_elem_of_lookup.
    destruct (decide (i = j)) as [<-|Hne].
    + simplify_eq. eexists. split; [apply list_elem_of_lookup_2 with i, list_lookup_insert_eq; by eapply lookup_lt_Some|].
      split; [done|]. by eapply reacted_counts.
    + exists m. split; [|split; [done|by split_and!]].
      apply list_elem_of_lookup_2 with j. by rewrite list_lookup_insert_ne.
Qed.

Lemma commit_step_inv sm hist ns n op b sm' :
  n ∈ ns → produces debug MessageSize R who (nd_Id n) (nd_acts n) op → Round sm < int_max →
  Apply false op sm = Ret (b, sm') → (∀ Id cr, op = StartOp Id R cr → b = true → cr = Some c) →
  world_inv MessageSize R c who (mkWorld (sm :: hist) ns) →
  world_inv MessageSize R c who (mkWorld (if b then sm' :: sm :: hist else sm :: hist) ns).
Proof.
  intros Hn Hpr Hlt HA Hstart Hw. pose proof (commit_sm _ _ _ Hw) as Hi.
  destruct (Apply_cases op sm Hi Hlt) as [(ri & ri' & fin & HR & Hcur & Hst & E)|[_ E]];
    rewrite E in HA; injection HA as <- <-; [|done].
  assert (∀ Id cr, op = StartOp Id R cr → cr = Some c) as Hs by (intros; by eapply Hstart).
  pose proof Hw as [W1 W2 W3 W4 W5 W6 W7]. split; simpl in *; try done.
  - apply Forall_cons. split; [by eapply commit_inv|done].
  - apply in_order_cons; [done..|]. by eapply commit_precedes.
  - eapply commit_board; eassumption.
  - apply Forall_forall. intros m Hm. eapply commit_nodes; eassumption.
  - intros sm0 ri0 [->|Hin]%elem_of_cons HR' Hl; [eapply commit_backed; eassumption|by eapply W7].
Qed.

Lemma world_step_inv w w' :
  world_step debug MessageSize R c who w w' → world_inv MessageSize R c who w → world_inv MessageSize R c who w'.
Proof.
  destruct 1; [by apply new_step_inv|by eapply update_step_inv|by eapply commit_step_inv].
Qed.

Lemma world_reachable_inv w : world_reachable debug MessageSize R c who w → world_inv MessageSize R c who w.
Proof.
  induction 1 as [sm Hsm|w w' Hr IH Hst]; [|by eapply world_step_inv].
  destruct (NewStateMachine_inv (C := C) debug) as (sm' & E & Hi & HR). rewrite Hsm in E. injection E as <-.
  assert (current sm = Some (set_phase PreparePhase zeroRoundInfo)) as Hcur
    by (destruct debug; by injection Hsm as <-).
  split; simpl; try done.
  - by apply Forall_singleton.
  - intros newer s older E. destruct newer as [|? [|]]; by simplify_eq.
  - destruct (decide (R = 0)) as [->|Hne]; [|left; apply Forall_singleton; lia].
    right. exists [], sm, [], (set_phase PreparePhase zeroRoundInfo). split_and!; try done.
    pose proof (exec_inv_init MessageSize c who sm Hi Hcur) as He. by rewrite HR in He.
  - constructor.
  - intros sm0 ri ->%list_elem_of_singleton HR' Hl. assert (R = 0) as -> by lia.
    unfold current in Hcur. rewrite HR, Hl in Hcur. injection Hcur as ->. by intros p Id Hp.
Qed.

(** C1: the whole system delivers.  Consider a round [R] started with a crypto [c]
    that satisfies the laws of a commutative cipher, and clients all of which follow
    the protocol and bring to this round valid keys with a non-empty hash of the
    reveal key, eight random bytes, and a message that is at most [MessageSize]
    long and, with its header, strictly shorter than the capacity of the crypto (a
    message that fills the capacity cannot be read back); let the random bytes
    of the participants be pairwise different.  Then, in every world that such
    clients, the goroutines they start and the replicated state machine (with
    assertions disabled) can reach, with updates that arrive late or not at all and
    with operations that are committed late, repeatedly, out of order or never:
    when the loop of a client starts the goroutine that reports round [R], and the
    client took part in this round and the round completed, then this goroutine
    reports success, no malicious error, and exactly the non-empty messages of the
    participants, in some order. *)
Theorem system_delivers_messages w n sm hs hr before number ri :
  world_reachable debug MessageSize R c who w → n ∈ nodes w →
  GoSendRoundResult sm (R + 1) hs hr before number ∈ nd_acts n →
  Rounds sm !! slot R = Some ri → phase ri = DonePhase → nd_Id n ∈ Participants ri →
  NoDup (map nonce (parts who ri)) →
  ∃ msgs, sendRoundResult debug (nd_Id n) sm (R + 1) hs hr before number =
      Ret (Some (mkRoundResult R true msgs None)) ∧
    msgs ≡ₚ filter (fun m => m ≠ []) (map plain (parts who ri)).
Proof.
  intros Hr Hn Hin Hl Hph HId Hnd. pose proof (world_reachable_inv _ Hr) as [W1 W2 W3 W4 W5 W6 W7].
  rewrite Forall_forall in W1. rewrite Forall_forall in W6. pose proof (no_acts _ _ _ _ _ _ (W6 _ Hn)) as Ha. rewrite Forall_forall in Ha.
  destruct (Ha _ Hin eq_refl) as (Hsm & HR & Hev). destruct (Hev _ Hl Hph HId) as (-> & -> & -> & ->).
  destruct (board_info _ _ _ _ _ _ _ W4 Hsm (or_intror HR) Hl) as (_ & Hp & _).
  eapply result_eval; eauto.
Qed.

End delivery.
