(* ===== verification/SystemRun.v ===== *)
(** * A run of the whole system

    An executable version of the steps of System, and a run of it: two clients
    receive updates, generate keys, and carry round 0 from the join to the
    result, with an operation that comes too late and states that a client
    never sees. *)

From stdpp Require Import gmap strings.
From Stdlib Require Import Strings.Byte.
From S2P Require Import Prelude Bytes Primes MasseyOmura Crypto Op StateMachine RoundSpec.
From S2P Require Import StateMachineProps Representation Client LastStateMachine ClientLoop Layers Protocol.
From S2P Require Import ProtocolWitness System SystemProps SystemDelivery.

Local Open Scope Z_scope.

Section run.
Context {C : Type} `{CommutativeCryptoLaws C} `{Sha256} (debug : bool) (MessageSize : Z).
Context (R : Z) (c : C) (who : UUID → participant).
Implicit Types (w : world (C := C)) (n : node (C := C)).

(** A new client, an update (client, age of the state, draws of [GenKey]), the
    end of a goroutine (client, index, draws of [rand.Shuffle]), a call of
    [Start]. *)
Inductive command :=
| CNew (Id : UUID)
| CUpdate (i k : nat) (random : masseyomura.Reader)
| CDone (i j : nat) (draws : list nat)
| CStart (i : nat) (round : Z).

(** The operation computed by a goroutine. *)
Definition goroutine (Id : UUID) (draws : list nat) (a : action (C := C)) : outcome (option (Op C)) :=
  match a with
  | GoPrepare r me => Ret (prepare Id r me)
  | GoSubmit r ri me k1 k2 =>
      submit debug Id MessageSize r ri me k1 k2 (Some (plain (who Id))) (nonce (who Id)) []
  | GoEncrypt r ri me k => encrypt Id r ri me k
  | GoScramble r ri me k1 k2 => scramble Id r ri me k1 k2 draws
  | GoDecrypt r ri me k1 k2 => decrypt Id r ri me k1 k2
  | GoReveal r ri me k => client_reveal Id r ri me k
  | GoAbort r => Ret (Some (client_abort r))
  | GoSet _ _ | GoSendRoundResult _ _ _ _ _ _ => Ret None
  end.

Definition submit_op (op : Op C) w : option (world (C := C)) :=
  match states w with
  | sm :: hist =>
      if decide (Round sm < int_max) then
        match Apply false op sm with
        | Ret (b, sm') => Some (mkWorld (if b then sm' :: sm :: hist else sm :: hist) (nodes w))
        | Panic _ => None
        end
      else None
  | [] => None
  end.

Definition keys_ok (Id : UUID) (st st' : loopState (C := C)) : bool :=
  bool_decide (R ≤ lastKeyGen st) || bool_decide (lastKeyGen st' ≠ R) ||
  (bool_decide (encryptKey st' = ek (who Id)) && bool_decide (scrambleKey st' = sk (who Id)) &&
   bool_decide (revealKey st' = rk (who Id))).

Definition perform (cmd : command) w : option (world (C := C)) :=
  match cmd with
  | CNew Id =>
      if decide (Id ∈ nd_Id <$> nodes w) then None else
      match initialLoop debug with
      | Ret st => Some (mkWorld (states w) (nodes w ++ [mkNode Id 0 st []]))
      | Panic _ => None
      end
  | CUpdate i k random =>
      n ← nodes w !! i; sm ← states w !! k;
      let older := drop (S k) (states w) in
      if decide (nd_pos n ≤ length older)%nat then
        match onStateMachine debug (nd_Id n) MessageSize sm true false random (nd_st n) with
        | Ret (acts', st', _) =>
            if keys_ok (nd_Id n) (nd_st n) st' then
              Some (mkWorld (states w)
                (<[i := mkNode (nd_Id n) (S (length older)) st' (nd_acts n ++ acts')]> (nodes w)))
            else None
        | Panic _ => None
        end
      else None
  | CDone i j draws =>
      n ← nodes w !! i; a ← nd_acts n !! j;
      match goroutine (nd_Id n) draws a with
      | Ret (Some op) => submit_op op w
      | _ => None
      end
  | CStart i round =>
      n ← nodes w !! i;
      match Start debug (nd_Id n) c (lastSm (nd_st n)) round with
      | Ret (inr op) => submit_op op w
      | _ => None
      end
  end.

Fixpoint perform_all (cmds : list command) w : option (world (C := C)) :=
  match cmds with
  | [] => Some w
  | cmd :: cmds' => w' ← perform cmd w; perform_all cmds' w'
  end.

Context (Hgood : ∀ Id, good MessageSize c (who Id)).

Lemma submit_op_step n op w w' :
  n ∈ nodes w → produces debug MessageSize R who (nd_Id n) (nd_acts n) op →
  (∀ Id cr, op = StartOp Id R cr → cr = Some c) → submit_op op w = Some w' →
  world_step debug MessageSize R c who w w'.
Proof.
  intros Hn Hpr Hs. destruct w as [[|sm hist] ns]; unfold submit_op; simpl; [done|].
  case_decide as Hlt; [|done]. destruct (Apply false op sm) as [[b sm']|] eqn:HA; [|done].
  intros [= <-]. eapply w_commit; try done. intros Id cr E _. by eapply Hs.
Qed.

Lemma goroutine_produces Id draws a acts op :
  a ∈ acts → goroutine Id draws a = Ret (Some op) →
  produces debug MessageSize R who Id acts op ∧ ∀ Id' cr, op = StartOp Id' R cr → cr = Some c.
Proof.
  intros Hin Hg. destruct a; simpl in Hg; try done; (split; [|intros Id' cr ->]).
  - injection Hg as Hg. by eapply by_prepare.
  - injection Hg as Hg. by apply prepare_shape in Hg.
  - injection Hg as <-. by apply by_abort.
  - done.
  - by eapply by_submit.
  - by apply submit_shape in Hg as (? & ? & ?).
  - by eapply by_encrypt.
  - by apply encrypt_shape in Hg as (? & ? & ?).
  - by eapply by_scramble.
  - by apply scramble_shape in Hg as (? & ?).
  - by eapply by_decrypt.
  - by apply decrypt_shape in Hg as (? & ? & ?).
  - by eapply by_reveal.
  - by apply reveal_shape in Hg.
Qed.

Lemma perform_step cmd w w' : perform cmd w = Some w' → world_step debug MessageSize R c who w w'.
Proof.
  destruct cmd as [Id|i k random|i j draws|i round]; simpl.
  - case_decide as Hid; [done|]. destruct (initialLoop debug) as [st|] eqn:Hst; [|done]. intros [= <-].
    destruct w. by apply w_new.
  - intros (n & Hn & (sm & Hsm & HP)%bind_Some)%bind_Some. case_decide as Hpos; [|done].
    destruct (onStateMachine _ _ _ _ _ _ _ _) as [[[acts' st'] random']|] eqn:Hon; [|done].
    destruct (keys_ok _ _ _) eqn:Hk; [|done]. injection HP as <-. destruct w as [sts ns]; simpl in *.
    rewrite <- (take_drop_middle _ _ _ Hsm). rewrite <- (take_drop_middle _ _ _ Hsm) in Hpos at 1.
    assert (k < length sts)%nat as Hlt by (by eapply lookup_lt_Some).
    assert (drop (S k) (take k sts ++ sm :: drop (S k) sts) = drop (S k) sts) as E
      by (by rewrite (take_drop_middle _ _ _ Hsm)).
    rewrite E in *. eapply w_update; try done.
    intros Hl Hl'. unfold keys_ok in Hk. rewrite !orb_true_iff, !andb_true_iff, !bool_decide_eq_true in Hk.
    destruct Hk as [[?|?]|[[? ?] ?]]; [lia|done|]. by split_and!.
  - intros (n & Hn & (a & Ha & HP)%bind_Some)%bind_Some.
    destruct (goroutine _ _ _) as [[op|]|] eqn:Hg; [|done..].
    destruct (goroutine_produces _ _ _ (nd_acts n) _ (list_elem_of_lookup_2 _ _ _ Ha) Hg).
    eapply (submit_op_step n op); try done. by eapply list_elem_of_lookup_2.
  - intros (n & Hn & HP)%bind_Some. destruct (Start _ _ _ _ _) as [[|op]|] eqn:Hs; [done| |done].
    eapply (submit_op_step n op); try done; [by eapply list_elem_of_lookup_2|by eapply by_start|].
    apply Start_shape in Hs as ->. by intros ?? [= _ _ <-].
Qed.

Lemma perform_all_reachable cmds : ∀ w w',
  world_reachable debug MessageSize R c who w → perform_all cmds w = Some w' →
  world_reachable debug MessageSize R c who w'.
Proof.
  induction cmds as [|cmd cmds IH]; intros w w' Hr; simpl; [by intros [= <-]|].
  intros (w1 & Hs%perform_step & Hr2)%bind_Some. eapply IH; [|exact Hr2]. by eapply wr_step.
Qed.

End run.

(** ** Two clients *)

Module SystemDemo.
Import ProtocolWitness.
#[local] Existing Instances pass_through known_prime.

Definition new_world : world (C := masseyOmuraCrypto) := mkWorld [st0] [].

(** Goroutines are numbered in the order in which a client starts them. *)
Definition script : list command :=
  (* both join; alice starts the round *)
  [CNew alice; CNew bob; CUpdate 0 0 []; CUpdate 1 0 []; CDone 0 1 []; CDone 1 1 [];
   CUpdate 0 0 []; CStart 0 0;
   (* both generate their keys and submit *)
   CUpdate 0 0 [Some 4; Some 6; Some 10]; CUpdate 1 0 [Some 12; Some 16; Some 18];
   CDone 0 5 []; CDone 1 3 [];
   (* both encrypt; the first attempt of alice is too late *)
   CUpdate 0 0 []; CUpdate 1 0 []; CDone 1 5 []; CDone 0 7 []; CUpdate 0 0 []; CDone 0 9 [];
   (* scramble, decrypt *)
   CUpdate 0 0 []; CDone 0 11 [0%nat]; CUpdate 1 0 []; CDone 1 7 [0%nat];
   CUpdate 0 0 []; CDone 0 13 []; CUpdate 1 0 []; CDone 1 9 [];
   (* reveal; the client of bob learns of the next round *)
   CUpdate 0 0 []; CUpdate 1 0 []; CDone 1 11 []; CDone 0 15 []; CUpdate 1 0 []].

Definition last_world : world (C := masseyOmuraCrypto) := Eval vm_compute in
  default new_world (perform_all false 2 0 crypto who script new_world).

Definition bob_node : node (C := masseyOmuraCrypto) := Eval vm_compute in
  default (mkNode [] 0 (mkLoop 0 0 0 NilPrivateKey NilPrivateKey NilPrivateKey 0 [] [] 0 0 0 st0) [])
    (nodes last_world !! 1%nat).

Lemma last_world_reachable : world_reachable false 2 0 crypto who last_world.
Proof.
  apply (perform_all_reachable false 2 0 crypto who who_good script new_world).
  - by apply wr_start.
  - by vm_compute.
Qed.

Definition done_state : StateMachine masseyOmuraCrypto := Eval vm_compute in
  match states last_world with sm :: _ => sm | [] => st0 end.

(** The goroutine of bob's client that reports round 0. *)
Definition report := nd_acts bob_node !! 13%nat.

Lemma report_started :
  ∃ hs hr before number, report = Some (GoSendRoundResult done_state 1 hs hr before number).
Proof. do 4 eexists. vm_compute. reflexivity. Qed.

Lemma system_delivers_messages_witness :
  ∃ hs hr before number msgs,
    report = Some (GoSendRoundResult done_state 1 hs hr before number) ∧
    sendRoundResult false bob done_state 1 hs hr before number =
      Ret (Some (mkRoundResult 0 true msgs None)) ∧ msgs ≡ₚ [[Byte.x41]; [Byte.x42]].
Proof.
  destruct report_started as (hs & hr & before & number & E).
  destruct (system_delivers_messages false 2 0 crypto who ltac:(done) crypto_sound last_world bob_node
    done_state hs hr before number (default zeroRoundInfo (Rounds done_state !! 0%nat))
    last_world_reachable) as (msgs & E' & Hp).
  - apply (list_elem_of_lookup_2 _ 1). by vm_compute.
  - apply (list_elem_of_lookup_2 _ 13). exact E.
  - reflexivity.
  - reflexivity.
  - apply (bool_decide_unpack _). by vm_compute.
  - apply (bool_decide_unpack _). by vm_compute.
  - exists hs, hr, before, number, msgs. split_and!; [exact E|exact E'|]. rewrite Hp. by vm_compute.
Defined.

End SystemDemo.
