(* ===== verification/ResultSound.v ===== *)
(** * What a client accepts as the result of a round

    The client of an honest user may be served by malicious servers and share a
    round with malicious participants.  This file characterises when
    [sendRoundResult] (src/anonbcast/client.go) reports success, for arbitrary
    machines and evidence, and follows the evidence back to the update in which
    [readUpdates] recorded it.  It also shows how a participant can stop the
    others: a message that is shorter than a header makes the report panic. *)

From stdpp Require Import gmap strings.
From Stdlib Require Import Strings.Byte.
From S2P Require Import Prelude Bytes Primes MasseyOmura Crypto Op StateMachine RoundSpec.
From S2P Require Import StateMachineProps Representation Client LastStateMachine ClientLoop ClientLoopProps.
From S2P Require Import Layers Protocol ProtocolWitness System SystemProps SystemRun.

Local Open Scope Z_scope.

Section verdict.
Context {C : Type} `{CommutativeCrypto C} `{Sha256} (debug : bool) (Id : UUID).
Implicit Types (sm : StateMachine C) (ri : RoundInfo C).

(** ** Specification *)

(** The keys that were revealed are those that were committed to. *)
Definition keys_match ri (hashes : list (list byte)) : Prop :=
  ∀ i k, RevealedKeys ri !! i = Some k → hashes !! i = Some (Hash k).

(** Message [m] decrypts to [p] under all revealed keys. *)
Definition opens ri (hashes : list (list byte)) (m : Msg) (p : list byte) : Prop :=
  keys_match ri hashes ∧
  ∃ c, Crypto ri = Some c ∧ ExtractMsg c (foldl (fun m k => Decrypt c k m) m (RevealedKeys ri)) = Ret p.

Definition header_valid (p : list byte) : Prop :=
  (16 ≤ length p)%nat ∧ take 8 p = replicate 8 Byte.x0d.



(** ** The loops *)

Lemma messages_unchanged_spec ms before : ∀ i,
  messages_unchanged i ms before = Ret true ↔ ms `prefix_of` drop i before.
Proof.
  induction ms as [|m ms IH]; intros i; simpl; [split; [intros _; apply prefix_nil|done]|].
  unfold slice_get. destruct (before !! i) as [b|] eqn:Hb; cbn [mbind outcome_bind].
  - rewrite (drop_S _ _ _ Hb). destruct (Msg_Equal m b) eqn:He.
    + apply Msg_Equal_eq in He as ->. rewrite IH. split; [apply prefix_cons|apply prefix_cons_inv_2].
    + split; [done|]. intros Hp. apply prefix_cons_inv_1 in Hp as ->. by rewrite Msg_Equal_refl in He.
  - split; [done|]. rewrite drop_ge by (by apply lookup_ge_None). intros Hp. by apply prefix_nil_not in Hp.
Qed.

Lemma crypto_of_ret ri c : crypto_of ri = Ret c ↔ Crypto ri = Some c.
Proof. unfold crypto_of. destruct (Crypto ri); naive_solver. Qed.

Lemma remove_layers_spec ri hashes keys : ∀ i om om',
  remove_layers ri hashes i keys om = Ret (Some om') →
  (∀ j k, keys !! j = Some k → hashes !! (i + j)%nat = Some (Hash k)) ∧
  ∀ c, Crypto ri = Some c → om' = foldl (fun m k => Decrypt c k m) om keys.
Proof.
  induction keys as [|k keys IH]; intros i om om'; simpl; [intros [= <-]; by split|].
  intros (h & Hh%slice_get_ret & HR)%bind_ret_inv.
  destruct (HashEquals k h) eqn:He; simpl in HR; [|done]. apply HashEquals_eq in He as ->.
  apply bind_ret_inv in HR as (c & Hc%crypto_of_ret & HR). apply IH in HR as [H1 H2]. split.
  - intros [|j] k'; simpl; [intros [= <-]; by rewrite Nat.add_0_r|].
    intros Hj. rewrite Nat.add_succ_r. by apply (H1 j).
  - intros c' Hc'. simplify_eq. by apply H2.
Qed.

Lemma open_messages_spec ri hashes ms : ∀ ps,
  open_messages ri hashes ms = Ret (Some ps) ↔ Forall2 (opens ri hashes) ms ps.
Proof.
  induction ms as [|m ms IH]; intros ps; simpl.
  { split; [by intros [= <-]|]. by intros ->%Forall2_nil_inv_l. }
  split.
  - intros (om & Hom & HR)%bind_ret_inv. destruct om as [om|]; [|done].
    apply bind_ret_inv in HR as (c & Hc & HR). apply bind_ret_inv in HR as (p & Hp & HR).
    apply bind_ret_inv in HR as (rest & Hrest & HR). destruct rest as [rest|]; [|done].
    injection HR as <-. apply crypto_of_ret in Hc. apply remove_layers_spec in Hom as [Hk Ho].
    constructor; [|by apply IH]. split; [exact Hk|]. exists c. rewrite <- Ho by done. done.
  - intros (p & ps' & [Hk (c & Hc & Hp)] & Hps & ->)%Forall2_cons_inv_l.
    rewrite (remove_layers_eval c ri hashes _ 0 m Hc Hk). cbn [mbind outcome_bind].
    rewrite (proj2 (crypto_of_ret _ _) Hc). cbn [mbind outcome_bind]. rewrite Hp. cbn [mbind outcome_bind].
    apply IH in Hps as ->. done.
Qed.

Lemma header_bytes_spec k : ∀ i h,
  header_bytes i k h = Ret true ↔ take k (drop i h) = replicate k Byte.x0d.
Proof.
  induction k as [|k IH]; intros i h; [done|]. cbn [header_bytes]. unfold slice_get.
  destruct (h !! i) as [b|] eqn:Hb; cbn [mbind outcome_bind].
  - rewrite (drop_S _ _ _ Hb). simpl. case_bool_decide as Hne; [split; [done|naive_solver]|].
    subst b. rewrite IH. split; [by intros ->|by intros [= ?]].
  - rewrite drop_ge by (by apply lookup_ge_None). by split.
Qed.

Lemma verifyHeader_spec h :
  length h = 16%nat → verifyHeader debug h = Ret true ↔ take 8 h = replicate 8 Byte.x0d.
Proof.
  intros Hl. unfold verifyHeader. rewrite bool_decide_true, assertf_true by done. cbn [mbind outcome_bind].
  apply (header_bytes_spec 8 0).
Qed.




Lemma existsb_member (ps : list UUID) : existsb (fun p => bool_decide (p = Id)) ps = bool_decide (Id ∈ ps).
Proof.
  induction ps as [|p ps IH]; [done|]. simpl. rewrite IH.
  rewrite <- bool_decide_or. apply bool_decide_ext. rewrite elem_of_cons. naive_solver.
Qed.




Lemma check_headers_short good p rest :
  Forall header_valid good → (length p < 16)%nat →
  check_headers debug (good ++ p :: rest) = Panic SliceOutOfRange.
Proof.
  intros Hg Hp. induction Hg as [|m ms [Hl Hv] Hms IH]; cbn [app check_headers]; unfold slice_to, messageHeaderLength.
  - by rewrite decide_False by lia.
  - rewrite decide_True by done. cbn [mbind outcome_bind].
    rewrite (proj2 (verifyHeader_spec (take 16 m) ltac:(rewrite length_take; lia))) by (by rewrite take_take).
    cbn [mbind outcome_bind negb]. unfold messageHeaderLength in IH. by rewrite IH.
Qed.

(** C16: a participant can crash the clients of all others.  When a round is done
    and passes all checks that come before, but one of the opened messages is
    shorter than a header, and the ones before it are valid, the goroutine that
    reports the result panics because the slice is out of range, for every participant
    and whether or not assertions are enabled. *)
Theorem short_message_crashes_clients sm i ri round hashes before good p rest :
  let last := wrap64 (round - 1) in
  GetRoundInfo sm last = (RiAt i, None) → Rounds sm !! i = Some ri → phase ri = DonePhase →
  Id ∈ Participants ri → Messages ri `prefix_of` before →
  Forall2 (opens ri hashes) (Messages ri) (good ++ p :: rest) →
  Forall header_valid good → (length p < 16)%nat →
  sendRoundResult debug Id sm round hashes last before (length (Messages ri)) = Panic SliceOutOfRange.
Proof.
  intros last E Hri Hph Hm Hb Ho Hg Hp. unfold sendRoundResult. fold last. rewrite E.
  rewrite bool_decide_true, assertf_true by done. cbn [mbind outcome_bind]. unfold load, slice_get.
  rewrite Hri. cbn [mbind outcome_bind]. rewrite existsb_member, Hph.
  rewrite (bool_decide_true (DonePhase = DonePhase)), assertf_true by done. cbn [mbind outcome_bind].
  rewrite bool_decide_true by done. cbn [negb]. rewrite (bool_decide_false (DonePhase = FailedPhase)) by done.
  rewrite Z.eqb_refl, assertf_true. cbn [mbind outcome_bind]. rewrite bool_decide_false by (by intros []).
  rewrite (proj2 (messages_unchanged_spec _ _ 0) Hb). cbn [mbind outcome_bind negb].
  rewrite (proj2 (open_messages_spec _ _ _ _) Ho). cbn [mbind outcome_bind].
  by rewrite check_headers_short.
Qed.

End verdict.

(** ** Where the evidence comes from *)

Section evidence.
Context {C : Type} `{CommutativeCryptoLaws C} `{Sha256} (debug : bool) (Id : UUID) (MessageSize : Z).
Implicit Types (sm : StateMachine C) (ri : RoundInfo C) (st : loopState (C := C))
  (acts : list (action (C := C))) (ups : list (StateMachine C)).

(** A run of [readUpdates] on arbitrary updates, oldest first. *)
Inductive observed : list (StateMachine C) → loopState → list action → Prop :=
| ob_init st : initialLoop debug = Ret st → observed [] st []
| ob_update ups st acts sm act leav random acts' st' random' :
    observed ups st acts →
    onStateMachine debug Id MessageSize sm act leav random st = Ret (acts', st', random') →
    observed (ups ++ [sm]) st' (acts ++ acts').

(** The hashes and messages are those of an update of round [r] in the reveal
    phase, at which the client had not revealed its key of this round. *)
Definition recorded ups (r : Z) (hs : list (list byte)) (ms : list Msg) : Prop :=
  ∃ ups1 st1 acts1 sm0 ri0, observed ups1 st1 acts1 ∧ ups1 ++ [sm0] `prefix_of` ups ∧
    Forall (fun r' => r' < r) (rounds_of reveal_round acts1) ∧
    Round sm0 = r ∧ current_info debug sm0 = Ret ri0 ∧ phase ri0 = RevealPhase ∧
    RevealKeyHashes ri0 = hs ∧ Messages ri0 = ms.

(** An executable run of an active client. *)
Fixpoint observe (todo : list (StateMachine C * masseyomura.Reader)) ups st acts
    : option (list (StateMachine C) * loopState * list action) :=
  match todo with
  | [] => Some (ups, st, acts)
  | (sm, random) :: todo' =>
      match onStateMachine debug Id MessageSize sm true false random st with
      | Ret (acts', st', _) => observe todo' (ups ++ [sm]) st' (acts ++ acts')
      | Panic _ => None
      end
  end.

Lemma observe_observed todo : ∀ ups st acts ups' st' acts',
  observed ups st acts → observe todo ups st acts = Some (ups', st', acts') → observed ups' st' acts'.
Proof.
  induction todo as [|[sm random] todo IH]; intros ups st acts ups' st' acts' Hob; simpl; [by intros [= <- <- <-]|].
  destruct (onStateMachine _ _ _ _ _ _ _ _) as [[[a s] r]|] eqn:HS; [|done].
  apply IH. by eapply ob_update.
Qed.

Lemma observed_run ups st acts : observed ups st acts → loop_run debug Id MessageSize st acts.
Proof. induction 1; [by apply loop_init|by eapply loop_update]. Qed.

Lemma recorded_snoc ups sm r hs ms : recorded ups r hs ms → recorded (ups ++ [sm]) r hs ms.
Proof.
  intros (u1 & s1 & a1 & sm0 & ri0 & ? & Hp & Hrest). exists u1, s1, a1, sm0, ri0.
  split; [done|]. split; [by apply prefix_app_r|done].
Qed.

(** What the client holds as evidence: nothing yet, or what it recorded in round [r]. *)
Definition evidence ups (r : Z) (hs : list (list byte)) (ms : list Msg) : Prop :=
  r = -1 ∧ hs = [] ∧ ms = [] ∨ 0 ≤ r ∧ recorded ups r hs ms.

Lemma evidence_snoc ups sm r hs ms : evidence ups r hs ms → evidence (ups ++ [sm]) r hs ms.
Proof. intros [?|[? ?]]; [by left|right; auto using recorded_snoc]. Qed.

Definition report_recorded ups (a : action (C := C)) : Prop :=
  match a with
  | GoSendRoundResult _ _ hs hr before _ => evidence ups hr hs before
  | _ => True
  end.

Lemma observed_recorded ups st acts :
  observed ups st acts →
  evidence ups (lastRevealKeyHashesRound st) (lastRevealKeyHashes st) (lastMessagesBeforeReveal st) ∧
  Forall (report_recorded ups) acts.
Proof.
  induction 1 as [st HI|ups st acts sm act leav random acts' st' random' Hob [IH1 IH2] HS].
  { split; [|constructor]. apply bind_ret_inv in HI as ([? ?] & _ & [= <-]). by left. }
  destruct (onStateMachine_reaction _ _ _ _ _ _ _ _ _ _ _ HS) as (ri & acts1 & Hci & -> & Hre).
  apply reaction_spec in Hre as [Hre Hfr]. split.
  - destruct (rd_evidence _ _ _ _ Hre) as [(E1 & E2 & E3)|(Hph & Hlt & E1 & E2 & E3)]; rewrite E1, E2, E3.
    + by apply evidence_snoc.
    + right. split; [destruct IH1 as [(? & _)|[? _]]; lia|]. exists ups, st, acts, sm, ri. split_and!; try done.
      pose proof (loop_guards _ _ _ _ _ (observed_run _ _ _ Hob)) as (_ & _ & _ & G).
      eapply Forall_impl; [exact G|]. simpl. lia.
  - apply Forall_app_2; [|apply Forall_cons; split; [done|]].
    + eapply Forall_impl; [exact IH2|]. intros []; simpl; auto using evidence_snoc.
    + eapply Forall_impl; [exact Hfr|]. intros []; simpl; try done.
      intros (-> & -> & _ & -> & -> & -> & _). by apply evidence_snoc.
Qed.

(** With assertions enabled updates do not go back in time. *)
Lemma update_forward sm act leav random st acts' st' random' :
  onStateMachine debug Id MessageSize sm act leav random st = Ret (acts', st', random') →
  debug = true → Round (lastSm st) ≤ Round sm.
Proof.
  unfold onStateMachine. intros (may & Hm & ([] & Ha & _)%bind_ret_inv)%bind_ret_inv ->.
  apply assertf_ret in Ha; [|done]. subst may. unfold MayPrecede in Hm.
  destruct (Round (lastSm st) <? Round sm) eqn:E1; bool_to_prop; [lia|].
  destruct (Round sm <? Round (lastSm st)) eqn:E2; bool_to_prop; [done|lia].
Qed.

Lemma observed_forward ups st acts :
  observed ups st acts → debug = true → lastRevealKeyHashesRound st ≤ Round (lastSm st).
Proof.
  intros Hob Hd. induction Hob as [st HI|ups st acts sm act leav random acts' st' random' Hob IH HS].
  { rewrite Hd in HI. injection HI as <-. simpl. lia. }
  pose proof (update_forward _ _ _ _ _ _ _ _ HS Hd).
  destruct (onStateMachine_reaction _ _ _ _ _ _ _ _ _ _ _ HS) as (ri & acts1 & _ & _ & Hre).
  apply reaction_spec in Hre as [Hre _]. rewrite (rd_sm _ _ _ _ Hre).
  destruct (rd_evidence _ _ _ _ Hre) as [(E1 & _)|(_ & _ & E1 & _)]; rewrite E1; [specialize (IH); lia|lia].
Qed.

(** Only a round that is not negative has a phase. *)
Lemma current_info_round sm ri : current_info debug sm = Ret ri → phase ri ≠ NoPhase → 0 ≤ Round sm.
Proof.
  unfold current_info, CurrentRoundInfo, GetRoundInfo. intros Hc Hp. rewrite Z.ltb_irrefl in Hc.
  destruct (Round sm <? 0) eqn:E; bool_to_prop; [|lia]. simpl in Hc.
  destruct (assertf debug false); simpl in Hc; [|done]. by injection Hc as <-.
Qed.

(** C20: the reveal key is released only after the evidence is recorded.  For every
    run of [readUpdates] on arbitrary updates: when an update makes the client
    start the goroutine that reveals its key of round [r], then it holds the
    hashes and the messages of an update of round [r] or of a later round in the
    reveal phase, at which it had not yet revealed a key of that round; they are
    those of round [r] if assertions are enabled or the updates do not go back
    behind a round already recorded.  No further update replaces them, except by
    those of a later round. *)
Theorem reveal_after_snapshot ups st acts sm act leav random acts' st' random' r ri me k :
  observed ups st acts →
  onStateMachine debug Id MessageSize sm act leav random st = Ret (acts', st', random') →
  GoReveal r ri me k ∈ acts' →
  recorded (ups ++ [sm]) (lastRevealKeyHashesRound st') (lastRevealKeyHashes st')
    (lastMessagesBeforeReveal st') ∧
  r ≤ lastRevealKeyHashesRound st' ∧
  (debug = true ∨ lastRevealKeyHashesRound st ≤ r → lastRevealKeyHashesRound st' = r) ∧
  (∀ sm2 act2 leav2 random2 acts2 st2 random2',
     onStateMachine debug Id MessageSize sm2 act2 leav2 random2 st' = Ret (acts2, st2, random2') →
     same_evidence st' st2 ∨ lastRevealKeyHashesRound st' < lastRevealKeyHashesRound st2).
Proof.
  intros Hob HS Hin. pose proof (ob_update _ _ _ _ _ _ _ _ _ _ Hob HS) as Hob'.
  destruct (observed_recorded _ _ _ Hob') as [Hev _].
  pose proof (observed_forward _ _ _ Hob) as Hfw. pose proof (update_forward _ _ _ _ _ _ _ _ HS) as Hup.
  destruct (onStateMachine_reaction _ _ _ _ _ _ _ _ _ _ _ HS) as (ri1 & acts1 & Hci & -> & Hre).
  apply reaction_spec in Hre as [Hre Hfr]. apply elem_of_cons in Hin as [?|Hin]; [done|].
  rewrite Forall_forall in Hfr. destruct (Hfr _ Hin) as (-> & -> & Hph & _ & _ & Hle).
  pose proof (current_info_round _ _ Hci ltac:(by rewrite Hph)) as H0r. split_and!.
  - destruct Hev as [(E & _)|[_ Hev]]; [lia|done].
  - done.
  - intros Hor. destruct (rd_evidence _ _ _ _ Hre) as [(E1 & _)|(_ & _ & E1 & _)]; [|done].
    rewrite E1 in *. destruct Hor as [Hd|?]; [specialize (Hfw Hd); specialize (Hup Hd); lia|lia].
  - intros sm2 act2 leav2 random2 acts2 st2 random2' HS2.
    destruct (onStateMachine_reaction _ _ _ _ _ _ _ _ _ _ _ HS2) as (ri2 & acts3 & _ & _ & Hre2).
    apply reaction_spec in Hre2 as [Hre2 _].
    destruct (rd_evidence _ _ _ _ Hre2) as [?|(_ & Hlt & E1 & _)]; [by left|right; lia].
Qed.


End evidence.

(** ** Concrete results *)

Module ResultDemo.
Import ProtocolWitness SystemDemo.
#[local] Existing Instances pass_through known_prime.

(** Bob encrypts a message of one byte without a header; otherwise both follow
    the protocol. *)
Definition bob_short : Op masseyOmuraCrypto :=
  match PrepareMsg crypto [Byte.x42] with
  | Ret (Some m) => MessageOp bob 0 (Encrypt crypto (ek (who bob)) m) (Hash (rk (who bob)))
  | _ => AbortOp 0
  end.
Definition s4 := Eval vm_compute in next bob_short st3.
Definition s5 := Eval vm_compute in next (do_submit alice 0 st3) s4.
Definition s6 := Eval vm_compute in next (do_encrypt bob 1 s5) s5.
Definition s7 := Eval vm_compute in next (do_encrypt alice 0 s6) s6.
Definition s8 := Eval vm_compute in next (do_scramble alice 0 s7) s7.
Definition s9 := Eval vm_compute in next (do_scramble bob 1 s8) s8.
Definition s10 := Eval vm_compute in next (do_decrypt alice 0 s9) s9.
Definition s11 := Eval vm_compute in next (do_decrypt bob 1 s10) s10.
Definition s12 := Eval vm_compute in next (do_reveal bob 1 s11) s11.
Definition s13 := Eval vm_compute in next (do_reveal alice 0 s12) s12.
Definition done_ri := Eval vm_compute in default zeroRoundInfo (Rounds s13 !! 0%nat).
Definition opened : list (list byte) := Eval vm_compute in
  match open_messages done_ri (RevealKeyHashes done_ri) (Messages done_ri) with Ret (Some ps) => ps | _ => [] end.

Lemma short_message_crashes_clients_witness :
  sendRoundResult true alice s13 1 (RevealKeyHashes done_ri) 0 (Messages done_ri) 2 = Panic SliceOutOfRange.
Proof.
  apply (short_message_crashes_clients true alice s13 0 done_ri 1 (RevealKeyHashes done_ri) (Messages done_ri)
    (take 1 opened) [Byte.x42] []).
  - reflexivity.
  - reflexivity.
  - reflexivity.
  - apply (bool_decide_unpack _). by vm_compute.
  - done.
  - apply open_messages_spec. by vm_compute.
  - apply Forall_singleton. split; apply (bool_decide_unpack _); by vm_compute.
  - simpl; lia.
Defined.

(** What the client of bob sees of the honest round. *)
Definition bob_updates : list (StateMachine masseyOmuraCrypto * masseyomura.Reader) :=
  [(st0, []); (st3, [Some 12; Some 16; Some 18]); (st5, []); (st9, []); (st11, []); (st12, []); (st14, [])].

Definition bob_run := Eval vm_compute in
  match initialLoop (C := masseyOmuraCrypto) true with
  | Ret st => observe true bob 2 bob_updates [] st []
  | Panic _ => None
  end.
Definition bob_end : loopState (C := masseyOmuraCrypto) := Eval vm_compute in
  match bob_run with Some (_, st, _) => st | None => mkLoop 0 0 0 NilPrivateKey NilPrivateKey NilPrivateKey 0 [] [] 0 0 0 SystemDemo.done_state end.



(** Bob before and after the update in which he reveals his key. *)
Definition bob_before := Eval vm_compute in
  match initialLoop (C := masseyOmuraCrypto) true with
  | Ret st => observe true bob 2 (take 5 bob_updates) [] st []
  | Panic _ => None
  end.
Definition bob_st : loopState (C := masseyOmuraCrypto) := Eval vm_compute in
  match bob_before with Some (_, st, _) => st | None => bob_end end.
Definition bob_reveals := Eval vm_compute in
  match onStateMachine true bob 2 st12 true false [] bob_st with
  | Ret (acts, st, _) => (acts, st)
  | Panic _ => ([], bob_st)
  end.

Lemma reveal_after_snapshot_witness :
  recorded true bob 2 (map fst (take 5 bob_updates) ++ [st12]) 0
    (RevealKeyHashes (cur st12)) (Messages (cur st12)).
Proof.
  refine (proj1 (reveal_after_snapshot true bob 2 (map fst (take 5 bob_updates)) bob_st
    (match bob_before with Some (_, _, acts) => acts | None => [] end)
    st12 true false [] (fst bob_reveals) (snd bob_reveals) [] 0 (cur st12) 1 (rk (who bob)) _ _ _)).
  - eapply (observe_observed true bob 2 (take 5 bob_updates) []); [apply ob_init; reflexivity|].
    vm_compute. reflexivity.
  - vm_compute. reflexivity.
  - apply (list_elem_of_lookup_2 _ 1). by vm_compute.
Defined.

(** Without assertions bob can be made to accept, as the result of round 1, the
    round 0 of which he holds the evidence: his server sends a machine in round 2
    in which round 1 is a copy of the finished round 0. *)
Definition replayed : StateMachine masseyOmuraCrypto := Eval vm_compute in
  mkStateMachine 2 [zeroRoundInfo; default zeroRoundInfo (Rounds st14 !! 0%nat);
    set_phase PreparePhase zeroRoundInfo].

Definition bob_replay := Eval vm_compute in
  match initialLoop (C := masseyOmuraCrypto) false with
  | Ret st => observe false bob 2 (take 6 bob_updates ++ [(replayed, [])]) [] st []
  | Panic _ => None
  end.

Theorem evidence_of_another_round :
  ∃ ups st acts hs before number rr,
    observed false bob 2 ups st acts ∧ GoSendRoundResult replayed 2 hs 0 before number ∈ acts ∧
    sendRoundResult false bob replayed 2 hs 0 before number = Ret (Some rr) ∧
    Succeeded rr = true ∧ rr_Round rr = 1 ∧ rr_Messages rr = [[Byte.x41]; [Byte.x42]].
Proof.
  destruct bob_replay as [[[ups st] acts]|] eqn:E; [|by vm_compute in E].
  exists ups, st, acts, (RevealKeyHashes (cur st12)), (Messages (cur st12)), 2%nat,
    (mkRoundResult 1 true [[Byte.x41]; [Byte.x42]] None).
  split_and!; [|injection E as _ _ <-; apply (list_elem_of_lookup_2 _ 13); by vm_compute|by vm_compute|done..].
  eapply (observe_observed false bob 2 (take 6 bob_updates ++ [(replayed, [])]) []); [apply ob_init; reflexivity|].
  rewrite <- E. vm_compute. reflexivity.
Qed.

End ResultDemo.
