(* ===== verification/Raft.v ===== *)
(** * The Raft interface, its mock, and the configuration RPCs

    Model of src/libraft/raft.go and configurationChange.go (the interface
    behind which Raft is used), of src/mockraft/mockraft.go (the single-server
    implementation of it that is part of the repository) and of
    src/anonbcast/serverconfigurationchange.go (the RPC handlers that pass
    configuration changes on to Raft).

    The contract of Raft that ServerProps assumes is proved of the mock. *)

From stdpp Require Import gmap strings.
From S2P Require Import Prelude Bytes Crypto Op StateMachine RoundSpec StateMachineProps.
From S2P Require Import Primes Representation RespChannels Server ServerProps.

Local Open Scope Z_scope.

(** ** libraft *)

(** Both error types are strings in the source; the zero value is empty. *)
Abbreviation AddRemoveServerError := string (only parsing).
Definition AR_NOT_LEADER : AddRemoveServerError := "NOT_LEADER".
Definition AR_NOT_PROVISIONAL : AddRemoveServerError := "NOT_PROVISIONAL".
Definition AR_NOT_CAUGHT_UP : AddRemoveServerError := "NOT_CAUGHT_UP".
Definition AR_CONCURRENT_CHANGE : AddRemoveServerError := "CONCURRENT_CHANGE".
Definition AR_ALREADY_COMPLETE : AddRemoveServerError := "ALREADY_IN_CONFIGURATION".
Definition AR_NEW_LEADER : AddRemoveServerError := "NEW_LEADER".
Definition AR_OK : AddRemoveServerError := "OK".

Abbreviation AddProvisionalError := string (only parsing).
Definition AP_NOT_LEADER : AddProvisionalError := "NOT_LEADER".
Definition AP_ALREADY_PROVISIONAL : AddProvisionalError := "ALREADY_PROVISIONAL".
Definition AP_ALREADY_IN_CONFIGURATION : AddProvisionalError := "ALREADY_IN_CONFIGURATION".
Definition AP_SUCCESS : AddProvisionalError := "SUCCESS".

(** The interface [Raft]: [R] is the state of an instance and [Cmd] the type of
    commands.  The channels that [AddServer] and [RemoveServer] also return are
    never read; what arrives on the channel of [GetApplyCh] is an argument of the
    applier. *)
Class Raft (R Cmd : Type) := {
  rf_Start : Cmd → R → (Z * Z * bool) * R;
  rf_Kill : R → R;
  rf_Snapshot : Z → list Byte.byte → R → R;
  rf_CondInstallSnapshot : Z → Z → list Byte.byte → R → bool * R;
  rf_GetState : R → Z * bool;
  rf_GetProvisionalConfiguration : R → bool * Config;
  rf_GetCurrentConfiguration : R → bool * Config;
  rf_AddProvisional : string → R → (Z * AddProvisionalError) * R;
  rf_RemoveServer : string → R → AddRemoveServerError * R;
  rf_AddServer : string → R → AddRemoveServerError * R
}.
#[global] Hint Mode Raft ! - : typeclass_instances.

(** ** Handlers of the server *)

Record AddRemoveArgs := mkAddRemoveArgs { ar_Server : string; IsAdd : bool }.
Record AddRemoveReply := mkAddRemoveReply { Submitted : bool; ar_Error : AddRemoveServerError }.
Record AddProvisionalArgs := mkAddProvisionalArgs { ap_Server : string }.
Record AddProvisionalReply := mkAddProvisionalReply { ap_Error : AddProvisionalError }.
Record InConfigurationArgs := mkInConfigurationArgs { ic_Server : string; IsProvisionalReq : bool }.
Record InConfigurationReply := mkInConfigurationReply { InConf : bool; ic_IsLeader : bool }.

Section handlers.
Context {R Cmd : Type} `{Raft R Cmd}.

Definition InConfiguration (args : InConfigurationArgs) (rf : R) : InConfigurationReply :=
  let '(isLeader, conf) := if IsProvisionalReq args then rf_GetProvisionalConfiguration rf
                           else rf_GetCurrentConfiguration rf in
  mkInConfigurationReply (match conf !! ic_Server args with Some _ => true | None => false end) isLeader.

Definition AddProvisional (args : AddProvisionalArgs) (rf : R) : AddProvisionalReply * R :=
  let '((_, err), rf) := rf_AddProvisional (ap_Server args) rf in (mkAddProvisionalReply err, rf).

Definition AddRemove (args : AddRemoveArgs) (rf : R) : AddRemoveReply * R :=
  let '(err, rf) := if IsAdd args then rf_AddServer (ar_Server args) rf
                    else rf_RemoveServer (ar_Server args) rf in
  if bool_decide (err = AR_OK) || bool_decide (err = AR_ALREADY_COMPLETE)
  then (mkAddRemoveReply true AR_OK, rf) else (mkAddRemoveReply false err, rf).

(** The [IsLeader] RPC of server.go. *)
Definition IsLeader_rpc (rf : R) : Err :=
  let '(_, isLeader) := rf_GetState rf in if isLeader : bool then OK else ErrWrongLeader.

End handlers.

(** ** mockraft *)

Section mockraft.
Context {C : Type} `{CommutativeCrypto C} (debug : bool).
Implicit Types (op : Op C) (tr : list (event (C := C))) (y : sys (C := C)).

(** The message of a committed command; the fields not set have zero values. *)
Definition mock_msg op (index : Z) : ApplyMsg (C := C) :=
  mkApplyMsg true (Some op) 1 index false false false false ∅.

(** [inflight] holds the messages of the goroutines that are still trying to
    send on [applyCh]. *)
Record Mockraft := mkMockraft { mock_log : list (Op C); inflight : list (ApplyMsg (C := C)) }.

Definition mock_New : Mockraft := mkMockraft [] [].

Definition mock_Start op (m : Mockraft) : (Z * Z * bool) * Mockraft :=
  let log := mock_log m ++ [op] in
  let index := Z.of_nat (length log) in
  ((index, 1, true), mkMockraft log (mock_msg op index :: inflight m)).

Definition mock_Kill (m : Mockraft) : Mockraft := m.
Definition mock_Snapshot (index : Z) (snapshot : list Byte.byte) (m : Mockraft) : Mockraft := m.
Definition mock_CondInstallSnapshot (lastIncludedTerm lastIncludedIndex : Z) (snapshot : list Byte.byte)
    (m : Mockraft) : bool * Mockraft := (true, m).

Definition mock_GetState (m : Mockraft) : Z * bool := (1, true).
Definition mock_GetProvisionalConfiguration (m : Mockraft) : bool * Config := (true, ∅).
Definition mock_GetCurrentConfiguration (m : Mockraft) : bool * Config :=
  (true, {["0"%string := true]}).
Definition mock_AddProvisional (peer : string) (m : Mockraft) : (Z * AddProvisionalError) * Mockraft :=
  ((0, AP_SUCCESS), m).
Definition mock_RemoveServer (peer : string) (m : Mockraft) : AddRemoveServerError * Mockraft :=
  (AR_OK, m).
Definition mock_AddServer (peer : string) (m : Mockraft) : AddRemoveServerError * Mockraft :=
  (AR_OK, m).

#[export] Instance mock_Raft : Raft Mockraft (Op C) := {|
  rf_Start := mock_Start;
  rf_Kill := mock_Kill;
  rf_Snapshot := mock_Snapshot;
  rf_CondInstallSnapshot := mock_CondInstallSnapshot;
  rf_GetState := mock_GetState;
  rf_GetProvisionalConfiguration := mock_GetProvisionalConfiguration;
  rf_GetCurrentConfiguration := mock_GetCurrentConfiguration;
  rf_AddProvisional := mock_AddProvisional;
  rf_RemoveServer := mock_RemoveServer;
  rf_AddServer := mock_AddServer
|}.

(** [SubmitOp] on top of a Raft: [Start] is called only for operations that may
    have an effect. *)
Definition SubmitOp_on {R} `{Raft R (Op C)} op (rf : R) (s : Server (C := C))
    : outcome (Server.Submitted * Server (C := C) * R) :=
  noEffect ← GuaranteedNoEffect debug op (srv_sm s);
  if noEffect : bool then Ret (Replied OK, s, rf)
  else let '(start, rf) := rf_Start op rf in
       '(r, s) ← SubmitOp_begin debug op start s; Ret (r, s, rf).

(** [Kill] of the server: the flag, then the Raft instance. *)
Definition Kill_on {R Cmd} `{Raft R Cmd} y (rf : R) : sys (C := C) * R :=
  (mkSys (srv y) (waiting y) (sending y) true, rf_Kill rf).

Definition server_killed y : bool := dead y.

(** Killing a server on top of the mock is a step of the server: it stops the
    applier, and messages that the mock is still sending stay in flight. *)
Lemma Kill_on_mock y (m : Mockraft) :
  sys_step debug y EKill (Kill_on y m).1 ∧ server_killed (Kill_on y m).1 = true ∧ (Kill_on y m).2 = m.
Proof. destruct y. split_and!; [constructor|done..]. Qed.

(** A server on top of the mock takes the steps of a server in which [Start] is
    answered by the mock and the applier receives the messages in flight, in
    any order.  A reply that leaves the waiting requests alone is one that
    [SubmitOp] gives at once. *)
Definition mock_link (e : event (C := C)) (m : Mockraft) y (m' : Mockraft) y' : Prop :=
  match e with
  | EStart op term index => rf_Start op m = ((index, term, true), m')
  | EReply op e =>
      m' = m ∧ (waiting y' = waiting y → SubmitOp_on op m (srv y) = Ret (Replied e, srv y', m))
  | ECommand op term index _ _ =>
      mock_log m' = mock_log m ∧
      ∃ msg, inflight m ≡ₚ msg :: inflight m' ∧ Command msg = Some op ∧
        CommandTerm msg = term ∧ CommandIndex msg = index
  | EMessage => False
  | ESubscribe _ _ | EUnsubscribe _ | EKill => m' = m
  end.

Inductive mock_run : list (event (C := C)) → Mockraft → sys (C := C) → Prop :=
| mrun_new s : NewServer debug = Ret s → mock_run [] mock_New (mkSys s [] None false)
| mrun_snoc tr m y e m' y' :
    mock_run tr m y → sys_step debug y e y' → mock_link e m y m' y' → mock_run (tr ++ [e]) m' y'.

Lemma mock_run_sys tr m y : mock_run tr m y → sys_run debug tr y.
Proof. induction 1; [by apply run_new|by eapply run_snoc]. Qed.

(** ** The contract *)

(** The command at an index of the log. *)
Definition logged (m : Mockraft) op (t i : Z) : Prop :=
  t = 1 ∧ 1 ≤ i ∧ mock_log m !! Z.to_nat (i - 1) = Some op.

Lemma logged_range m op t i : logged m op t i → 1 ≤ i ≤ Z.of_nat (length (mock_log m)).
Proof. intros (_ & Hi & Hl%lookup_lt_Some). lia. Qed.

Lemma logged_mono m m' op t i : mock_log m `prefix_of` mock_log m' → logged m op t i → logged m' op t i.
Proof. intros Hp (Ht & Hi & Hl). split_and!; [done..|]. by eapply prefix_lookup_Some. Qed.

Record mock_inv tr (m : Mockraft) : Prop := {
  mi_started : ∀ op t i, EStart op t i ∈ tr → logged m op t i;
  mi_command : ∀ op t i b sm, ECommand op t i b sm ∈ tr → logged m op t i;
  mi_inflight : ∀ msg op, msg ∈ inflight m → Command msg = Some op →
    logged m op (CommandTerm msg) (CommandIndex msg)
}.

Lemma mock_link_prefix e m y m' y' : mock_link e m y m' y' → mock_log m `prefix_of` mock_log m'.
Proof.
  destruct e as [op t i|? ?|op t i b sm| |? ?|?|]; simpl.
  - unfold mock_Start. intros [= _ _ <-]. simpl. by eexists.
  - by intros [-> _].
  - by intros [-> _].
  - done.
  - by intros ->.
  - by intros ->.
  - by intros ->.
Qed.

(** [Start] logs the command at the index it returns. *)
Lemma logged_started op m t i ok m' : mock_Start op m = ((i, t, ok), m') →
  logged m' op t i ∧ i = Z.of_nat (length (mock_log m)) + 1 ∧
  inflight m' = mock_msg op i :: inflight m.
Proof.
  unfold mock_Start. intros [= <- <- _ <-]. unfold logged. simpl.
  rewrite length_app. simpl. split_and!; [done|lia| |lia|done].
  apply lookup_app_Some. right. replace (Z.to_nat _) with (length (mock_log m)) by lia.
  by rewrite Nat.sub_diag.
Qed.

Lemma mock_link_inv tr m y e m' y' :
  mock_inv tr m → mock_link e m y m' y' → mock_inv (tr ++ [e]) m'.
Proof.
  intros [I1 I2 I3] Hl. pose proof (mock_link_prefix _ _ _ _ _ Hl) as Hp.
  assert (∀ op t i, logged m op t i → logged m' op t i) as Hmono by (intros; by eapply logged_mono).
  assert (∀ msg op, msg ∈ inflight m → Command msg = Some op →
    logged m' op (CommandTerm msg) (CommandIndex msg)) as I3' by eauto.
  split.
  - intros op t i [Hin|Hin]%elem_of_app; [by eauto|]. apply list_elem_of_singleton in Hin as <-.
    by apply (logged_started _ _ _ _ true) in Hl as [? _].
  - intros op t i b sm [Hin|Hin]%elem_of_app; [by eauto|]. apply list_elem_of_singleton in Hin as <-.
    destruct Hl as (_ & msg & Hperm & Hc & <- & <-). apply I3'; [|done]. rewrite Hperm. by left.
  - intros msg op Hin Hc. destruct e as [op' t i|? ?|op' t i b sm| |? ?|?|]; simpl in Hl.
    + pose proof Hl as [= _ Ht _]. apply logged_started in Hl as (Hlog & _ & Hf). rewrite Hf in Hin.
      apply elem_of_cons in Hin as [->|Hin]; [|by auto]. simpl in *. by simplify_eq.
    + destruct Hl as [-> _]. auto.
    + destruct Hl as (_ & msg' & Hperm & _). apply I3'; [|done]. rewrite Hperm. by right.
    + done.
    + subst. auto.
    + subst. auto.
    + subst. auto.
Qed.

Lemma mock_run_inv tr m y : mock_run tr m y → mock_inv tr m.
Proof.
  induction 1 as [s Hs|tr m y e m' y' Hr IH Hst Hl]; [|by eapply mock_link_inv].
  split; simpl; intros *; by intros ?%elem_of_nil.
Qed.

Lemma start_unique_snoc tr e :
  start_unique tr → (∀ op t i, e = EStart op t i → ∀ op', EStart op' t i ∉ tr) →
  start_unique (tr ++ [e]).
Proof.
  intros Hu He tr1 op t i tr2 Heq op' Hin. destruct tr2 as [|e' tr2 _] using rev_ind.
  - apply app_inj_tail in Heq as [-> ->]. by eapply He.
  - rewrite app_comm_cons, app_assoc in Heq. apply app_inj_tail in Heq as [-> ->].
    by eapply (Hu tr1 op t i tr2 eq_refl op').
Qed.

Lemma mock_start_unique tr m y : mock_run tr m y → start_unique tr.
Proof.
  induction 1 as [s Hs|tr m y e m' y' Hr IH Hst Hl].
  - intros tr1 op t i tr2 Heq. by destruct tr1.
  - apply start_unique_snoc; [done|]. intros op t i -> op' Hin.
    apply logged_started in Hl as (_ & -> & _).
    apply (mi_started _ _ (mock_run_inv _ _ _ Hr)), logged_range in Hin. lia.
Qed.

Lemma mock_log_matching tr m y : mock_run tr m y → log_matching tr.
Proof.
  intros Hr op op' t i b sm Hs Hc. destruct (mock_run_inv _ _ _ Hr) as [I1 I2 _].
  destruct (I1 _ _ _ Hs) as (_ & _ & H1). destruct (I2 _ _ _ _ _ Hc) as (_ & _ & H2). congruence.
Qed.

(** Only messages about leadership close channels. *)
Lemma step_closed_frame y e y' :
  sys_step debug y e y' → e ≠ EMessage → closed (resps (srv y')) = closed (resps (srv y)).
Proof.
  destruct 1 as [op start s s' e w b d HS|op index term ok s s' ch w b d HS
    |msg op s s' w b d updated sm' Hv Hc HA HAp|msg s s' w b d Hv HA|s w1 rq w2 d|s w1 rq w2 b d Hcl
    |s k s' w b d HG|s k s' w b d HC|s w b d|s w1 rq w2 b]; simpl; try done; intros _.
  - by apply SubmitOp_begin_cases in HS as [(_ & -> & _)|[[_ ->]|(?&?&?&?&_&[=]&_)]].
  - apply SubmitOp_begin_cases in HS as [([=] & _)|[([=] & _)|(?&?&?&r'&_&_&HC& ->)]]. simpl.
    unfold resp_Create in HC. by apply bind_ret_inv in HC as ([] & _ & [= _ <-]).
  - by destruct (applier_command _ _ _ _ _ _ Hv Hc HA) as (u & sm1 & _ & _ & -> & _).
  - by apply bind_ret_inv in HG as (copy & _ & [= _ <-]).
  - unfold CloseUpdCh in HC. destruct (updChs s !! k); by simplify_eq.
Qed.

Lemma step_dead y e y' : sys_step debug y e y' → e ≠ EKill → dead y' = dead y.
Proof. by destruct 1. Qed.

(** The mock never loses leadership, so no channel is ever closed. *)
Lemma mock_open tr m y :
  mock_run tr m y → EKill ∉ tr → closed (resps (srv y)) = ∅ ∧ dead y = false.
Proof.
  induction 1 as [s Hs|tr m y e m' y' Hr IH Hst Hl].
  - intros _. unfold NewServer in Hs. by apply bind_ret_inv in Hs as (sm & _ & [= <-]).
  - rewrite not_elem_of_app, list_elem_of_singleton. intros [Hk1 Hk2].
    rewrite (step_closed_frame _ _ _ Hst), (step_dead _ _ _ Hst); [auto|by intros ->|].
    by intros ->.
Qed.

Lemma mock_SubmitOp_accepts op (m : Mockraft) s s' m' :
  SubmitOp_on op m s ≠ Ret (Replied ErrWrongLeader, s', m').
Proof.
  unfold SubmitOp_on. intros (ne & Hne & HS)%bind_ret_inv. destruct ne; [done|].
  simpl in HS. unfold mock_Start in HS. apply bind_ret_inv in HS as ([r s1] & HS & [= -> _ _]).
  unfold SubmitOp_begin in HS. rewrite Hne in HS. simpl in HS.
  by apply bind_ret_inv in HS as ([ch r'] & _ & [=]).
Qed.

Lemma mock_no_wrong_leader tr m y op :
  mock_run tr m y → EKill ∉ tr → EReply op ErrWrongLeader ∉ tr.
Proof.
  intros Hr. induction Hr as [s Hs|tr m y e m' y' Hr IH Hst Hl].
  - by intros _ ?%elem_of_nil.
  - rewrite !not_elem_of_app, !list_elem_of_singleton. intros [Hk1 Hk2]. split; [auto|]. intros <-.
    destruct (mock_open _ _ _ Hr Hk1) as [Hc Hd]. destruct Hl as [-> Hl].
    inversion Hst as [op0 start s s' e0 w b d HS| | | |s w1 rq w2 d|s w1 rq w2 b d Hcl| | | |s w1 rq w2 b];
      subst; simpl in *; [|set_solver|done].
    by apply mock_SubmitOp_accepts in Hl.
Qed.

(** ** Properties *)

(** C29: the mock implements the contract of Raft that the server relies on: along
    every run of a server on top of it, no term and index is handed out twice,
    the command applied at a term and index is the one started there, and
    unless the server is killed no request is answered with ErrWrongLeader. *)
Theorem mockraft_meets_contract tr m y :
  mock_run tr m y →
  start_unique tr ∧ log_matching tr ∧ (EKill ∉ tr → ∀ op, EReply op ErrWrongLeader ∉ tr).
Proof.
  intros Hr. split_and!; [by eapply mock_start_unique|by eapply mock_log_matching|].
  intros Hk op. by eapply mock_no_wrong_leader.
Qed.

End mockraft.

(** ** A concrete run *)

Module MockDemo.
Import Demo ServerDemo.

#[local] Instance trial : BigProbablyPrime := fun p _ => Primes.trial_prime p.

(** Two requests are started and the message of the second arrives first. *)
Definition bob_joined : Op masseyOmuraCrypto := JoinOp bob 0.
Definition mock_trace : list (event (C := masseyOmuraCrypto)) :=
  [EStart joined 1 1; EStart bob_joined 1 2; ECommand bob_joined 1 2 true (st [bob_joined]);
   EReply bob_joined OK].

Definition m1 : Mockraft := (mock_Start joined mock_New).2.
Definition m2 : Mockraft := (mock_Start bob_joined m1).2.
Definition m3 : Mockraft := mkMockraft [joined; bob_joined] [mock_msg joined 1].

Definition r1 : respChannels := create 1 1 NewRespChannels.
Definition r2 : respChannels := create 1 2 r1.
Definition rq1 : request := mkRequest joined 1 1 0%nat.
Definition rq2 : request := mkRequest bob_joined 1 2 1%nat.
Definition z0 : sys := mkSys (mkServer (st []) ∅ 0 NewRespChannels) [] None false.
Definition z1 : sys := mkSys (mkServer (st []) ∅ 0 r1) [rq1] None false.
Definition z2 : sys := mkSys (mkServer (st []) ∅ 0 r2) [rq2; rq1] None false.
Definition z3 : sys := mkSys (mkServer (st [bob_joined]) ∅ 0 r2) [rq2; rq1] (Some 1%nat) false.
Definition z4 : sys := mkSys (mkServer (st [bob_joined]) ∅ 0 r2) [rq1] None false.

Lemma mock_run_demo : mock_run false mock_trace m3 z4.
Proof.
  apply (mrun_snoc _ (take 3 mock_trace) m3 z3);
    [|apply (step_deliver _ (srv z3) [] rq2 [rq1])|by split].
  apply (mrun_snoc _ (take 2 mock_trace) m2 z2);
    [|by apply (step_command _ (mock_msg bob_joined 2) bob_joined)
    |by split; [|exists (mock_msg bob_joined 2)]].
  apply (mrun_snoc _ (take 1 mock_trace) m1 z1); [|by apply (step_submit_wait _ bob_joined 2 1 true)|done].
  apply (mrun_snoc _ [] mock_New z0); [by apply mrun_new|by apply (step_submit_wait _ joined 1 1 true)|done].
Qed.

Lemma mockraft_meets_contract_witness :
  start_unique mock_trace ∧ log_matching mock_trace ∧
  (EKill ∉ mock_trace → ∀ op, EReply op ErrWrongLeader ∉ mock_trace).
Proof. exact (mockraft_meets_contract false mock_trace m3 z4 mock_run_demo). Defined.

End MockDemo.
