(* ===== verification/Membership.v ===== *)
(** * Joining and leaving the Raft configuration

    Model of src/anonbcast/clientconfigurationchange.go and of the calls of
    client.go that go to the presumed leader ([submitOp] and one iteration of
    [submitOps]).  These functions are loops of remote calls, reads of the clock
    and short critical sections; what they observe of the rest of the system is
    the class [Environment].  Between two critical sections other goroutines may
    change the fields they share ([other]).

    The loops need not terminate, so they take fuel; [Running] says that it did
    not suffice.  That it suffices, and for which environments, is the subject
    of MembershipLive. *)

From stdpp Require Import gmap strings.
From S2P Require Import Prelude Bytes Crypto Op StateMachine RoundSpec StateMachineProps.
From S2P Require Import Client LastStateMachine ClientLoop RespChannels Server ServerProps Raft.

Local Open Scope Z_scope.

(** ** The environment *)

(** What other goroutines of the client do under its mutex: [readUpdates]
    installs a configuration, [submitOps] moves on to the next server, and other
    calls of [BecomeActive] and [BecomeInactive] set the flags. *)
Inductive other :=
| OtherConfiguration (conf : Config)
| OtherUpdateLeader
| OtherActive (b : bool)
| OtherLeaving.

(** [None] is an RPC without an answer.  Every observation may change the
    environment. *)
Class Environment (W Cmd : Type) := {
  env_killed : W → bool * W;
  env_now : W → Z * W;
  env_sleep : Z → W → W;
  env_others : W → list other * W;
  call_SubmitOp : string → Cmd → W → option Err * W;
  call_InConfiguration : string → InConfigurationArgs → W → option InConfigurationReply * W;
  call_AddProvisional : string → AddProvisionalArgs → W → option AddProvisionalReply * W;
  call_AddRemove : string → AddRemoveArgs → W → option AddRemoveReply * W
}.
#[global] Hint Mode Environment ! - : typeclass_instances.

(** ** Effects *)

Inductive result (W A : Type) : Type :=
| Done (a : A) (w : W) (m : membership)
| Crash (r : panic_reason)
| Running.
Arguments Done {W A}.
Arguments Crash {W A}.
Arguments Running {W A}.

Definition IO (W A : Type) : Type := W → membership → result W A.

#[export] Instance IO_ret {W} : MRet (IO W) := fun A a w m => Done a w m.
#[export] Instance IO_bind {W} : MBind (IO W) := fun A B f c w m =>
  match c w m with Done a w m => f a w m | Crash r => Crash r | Running => Running end.

(** Go's [for cond { body }]: the body tells whether to go on, the condition
    ends the loop with the values of its variables. *)
Fixpoint loop {W St} (n : nat) (cond : IO W bool) (body : St → IO W (bool * St)) (s : St) : IO W St :=
  match n with
  | O => fun _ _ => Running
  | S n' =>
      b ← cond;
      if b : bool then
        '(goOn, s) ← body s;
        if goOn : bool then loop n' cond body s else mret s
      else mret s
  end.

Definition crash {W A} (r : panic_reason) : IO W A := fun _ _ => Crash r.

Section client.
Context {W Cmd : Type} `{Environment W Cmd} (debug : bool) (serverId : string).

(** [!c.killed()] *)
Definition alive : IO W bool := fun w m => let '(b, w) := env_killed w in Done (negb b) w m.
Definition now : IO W Z := fun w m => let '(t, w) := env_now w in Done t w m.
Definition sleep (d : Z) : IO W unit := fun w m => Done tt (env_sleep d w) m.

Definition apply_other (o : other) (m : membership) : outcome membership :=
  match o with
  | OtherConfiguration conf => setConfiguration debug serverId conf m
  | OtherUpdateLeader => updateLeader m
  | OtherActive b => Ret (mkMembership b (leaving m) (currConf m) (lastKnownLeaderInd m))
  | OtherLeaving => Ret (mkMembership (active m) true (currConf m) (lastKnownLeaderInd m))
  end.

Fixpoint apply_others (os : list other) (m : membership) : outcome membership :=
  match os with
  | [] => Ret m
  | o :: os => m ← apply_other o m; apply_others os m
  end.

(** A critical section: what the others did comes first. *)
Definition locked {A} (f : membership → outcome (A * membership)) : IO W A := fun w m =>
  let '(os, w) := env_others w in
  match m ← apply_others os m; f m with
  | Ret (a, m) => Done a w m
  | Panic r => Crash r
  end.

Definition presumedLeader : IO W string := locked (fun m => l ← potentialLeader m; Ret (l, m)).
Definition nextLeader : IO W unit := locked (fun m => m ← updateLeader m; Ret (tt, m)).
Definition readActive : IO W bool := locked (fun m => Ret (active m, m)).
Definition setActiveTo (b : bool) : IO W unit :=
  locked (fun m => Ret (tt, mkMembership b (leaving m) (currConf m) (lastKnownLeaderInd m))).
Definition setLeaving : IO W unit :=
  locked (fun m => Ret (tt, mkMembership (active m) true (currConf m) (lastKnownLeaderInd m))).

Definition call {A} (rpc : W → option A * W) : IO W (option A) := fun w m =>
  let '(reply, w) := rpc w in Done reply w m.

Definition Millisecond : Z := 1000000.
Definition Second : Z := 1000 * Millisecond.

(** ** Requests to the leader *)

(** [submitOp]: true when it returns no error. *)
Definition submitOp (op : Cmd) : IO W bool :=
  leader ← presumedLeader;
  reply ← call (call_SubmitOp leader op);
  mret match reply with Some OK => true | _ => false end.

(** The iterations of [submitOps] while [pending.get] returns the same operation:
    the result tells whether [finish] was reached. *)
Definition submitOps (n : nat) (op : Cmd) : IO W bool :=
  loop n alive (fun _ =>
    ok ← submitOp op;
    if ok : bool then mret (false, true) else nextLeader ;; mret (true, false)) false.

Definition getMembership (n : nat) (isProvisionalReq : bool) : IO W bool :=
  loop n alive (fun _ =>
    leader ← presumedLeader;
    reply ← call (call_InConfiguration leader (mkInConfigurationArgs serverId isProvisionalReq));
    match reply with
    | Some reply =>
        if negb (ic_IsLeader reply) then
          nextLeader ;; sleep (5 * Millisecond) ;; mret (true, InConf reply)
        else mret (false, InConf reply)
    | None => nextLeader ;; sleep (5 * Millisecond) ;; mret (true, false)
    end) false.

Definition setActive (n : nat) : IO W unit :=
  member ← getMembership n false; setActiveTo member.

(** How [readUpdates] begins: it starts [BecomeActive] when the result is true. *)
Definition readUpdates_begin (n : nat) : IO W bool :=
  setActive n ;; a ← readActive; mret (negb a).

Definition attemptProvisional (n : nat) : IO W bool :=
  loop n alive (fun _ =>
    leader ← presumedLeader;
    reply ← call (call_AddProvisional leader (mkAddProvisionalArgs serverId));
    match reply with
    | Some reply =>
        if bool_decide (ap_Error reply = AP_NOT_LEADER) then nextLeader ;; mret (true, false)
        else if bool_decide (ap_Error reply = AP_ALREADY_IN_CONFIGURATION)
        then setActiveTo true ;; mret (false, true)
        else mret (false, false)
    | None => nextLeader ;; mret (true, false)
    end) false.

Definition attemptAddRemove (n : nat) (isAdd : bool) : IO W AddRemoveServerError :=
  loop n alive (fun _ =>
    leader ← presumedLeader;
    reply ← call (call_AddRemove leader (mkAddRemoveArgs serverId isAdd));
    match reply with
    | Some reply =>
        if bool_decide (ar_Error reply = AR_NOT_LEADER) then
          nextLeader ;; mret (true, ar_Error reply)
        else if bool_decide (ar_Error reply = AR_NEW_LEADER)
             || bool_decide (ar_Error reply = AR_CONCURRENT_CHANGE) then
          sleep (50 * Millisecond) ;; mret (true, ar_Error reply)
        else mret (false, ar_Error reply)
    | None => nextLeader ;; mret (true, EmptyString)
    end) EmptyString.

Definition checkMembership (n : nat) (timeout : Z) (isProvisionalReq : bool) : IO W bool :=
  startTime ← now;
  loop n (a ← alive; if a : bool then t ← now; mret (t - startTime <? timeout) else mret false)
    (fun _ =>
      member ← getMembership n isProvisionalReq;
      if member : bool then mret (false, true) else mret (true, false)) false.

Definition addProvisional (n : nat) : IO W unit :=
  loop n alive (fun _ =>
    inActiveConfiguration ← attemptProvisional n;
    if inActiveConfiguration : bool then mret (false, tt)
    else member ← checkMembership n (1 * Second) true;
         if member : bool then mret (false, tt) else mret (true, tt)) tt.

Definition addSelf (n : nat) : IO W unit :=
  loop n alive (fun _ =>
    err ← attemptAddRemove n true;
    if bool_decide (err = AR_NOT_PROVISIONAL) then crash ExplicitPanic else
    tempActive ← readActive;
    if tempActive : bool then mret (false, tt)
    else member ← checkMembership n (1 * Second) false;
         if member : bool then mret (false, tt) else mret (true, tt)) tt.

Definition removeSelf (n : nat) : IO W unit :=
  loop n alive (fun _ =>
    err ← attemptAddRemove n false;
    if bool_decide (err = AR_NOT_PROVISIONAL) then crash ExplicitPanic else
    if bool_decide (err = AR_OK) then setActiveTo false ;; mret (false, tt)
    else member ← checkMembership n (1 * Second) false;
         if negb member then mret (false, tt) else mret (true, tt)) tt.

(** The polling loops of [BecomeActive] and [BecomeInactive]: the result tells
    whether the function returned from inside. *)
Definition pollActive (n : nat) (wanted : bool) (startTime timeout : Z) : IO W bool :=
  loop n (t ← now; mret (t - startTime <? timeout)) (fun _ =>
    tempActive ← readActive;
    if Bool.eqb tempActive wanted then mret (false, true)
    else sleep (50 * Millisecond) ;; mret (true, false)) false.

Definition BecomeActive (n : nat) : IO W unit :=
  addProvisional n ;;
  loop n alive (fun _ =>
    addSelf n ;;
    startTime ← now;
    returned ← pollActive n true startTime (2 * Second);
    mret (negb returned, tt)) tt.

Definition BecomeInactive (n : nat) : IO W unit :=
  setLeaving ;;
  loop n alive (fun _ =>
    removeSelf n ;;
    startTime ← now;
    returned ← pollActive n false startTime (2 * Second);
    mret (negb returned, tt)) tt.

End client.

(** ** Partial correctness *)

Definition wlp {W A} (c : IO W A) (Q : A → W → membership → Prop) (w : W) (m : membership) : Prop :=
  match c w m with Done a w' m' => Q a w' m' | _ => True end.

Lemma wlp_bind {W A B} (c : IO W A) (f : A → IO W B) Q w m :
  wlp c (fun a => wlp (f a) Q) w m → wlp (a ← c; f a) Q w m.
Proof. unfold wlp, mbind, IO_bind. by destruct (c w m). Qed.

Lemma wlp_mono {W A} (c : IO W A) (Q Q' : A → W → membership → Prop) w m :
  (∀ a w m, Q a w m → Q' a w m) → wlp c Q w m → wlp c Q' w m.
Proof. unfold wlp. destruct (c w m); auto. Qed.

(** A loop ends because its condition is false or because its body says so. *)
Lemma wlp_loop {W St} (I : St → Prop) (Q : St → W → membership → Prop) cond body :
  (∀ s w m, I s → wlp cond (fun b w m =>
     if b : bool then wlp (body s) (fun r w m => if r.1 : bool then I r.2 else Q r.2 w m) w m
     else Q s w m) w m) →
  ∀ n s w m, I s → wlp (loop (W := W) n cond body s) Q w m.
Proof.
  intros Hstep n. induction n as [|n IH]; intros s w m Hs; [done|].
  cbn [loop]. apply wlp_bind. eapply wlp_mono; [|by apply Hstep]. simpl. clear w m.
  intros b w m. destruct b; [|done]. intros Hb. apply wlp_bind. eapply wlp_mono; [|exact Hb]. simpl.
  intros [[] s'] w1 m1; simpl; [apply IH|done].
Qed.

Section sound.
Context {W Cmd : Type} `{Environment W Cmd} (debug : bool) (serverId : string).

Lemma wlp_alive (Q : bool → W → membership → Prop) w m :
  (∀ w', env_killed w = (false, w') → Q true w' m) →
  (∀ w', env_killed w = (true, w') → Q false w' m) → wlp alive Q w m.
Proof. intros Ht Hf. unfold wlp, alive. destruct (env_killed w) as [[] w'] eqn:E; simpl; auto. Qed.

Lemma wlp_readActive (Q : bool → W → membership → Prop) w m :
  (∀ w' m', Q (active m') w' m') → wlp (readActive debug serverId) Q w m.
Proof.
  intros HQ. unfold wlp, readActive, locked. destruct (env_others w) as [os w'].
  destruct (apply_others debug serverId os m); [apply HQ|done].
Qed.

(** Polling returns only after the flag has been read with the wanted value. *)
Lemma wlp_pollActive n wanted start timeout (w : W) m :
  wlp (pollActive debug serverId n wanted start timeout)
    (fun r w m => r = true → active m = wanted) w m.
Proof.
  apply (wlp_loop (fun r => r = false)); [|done]. intros s w1 m1 ->. apply wlp_bind.
  unfold now, wlp at 1. destruct (env_now w1) as [t w2]. unfold wlp, mret, IO_ret.
  destruct (t - start <? timeout); [|done]. apply wlp_bind, wlp_readActive.
  intros w3 m3. destruct (Bool.eqb (active m3) wanted) eqn:E; [|done].
  intros _. by apply Bool.eqb_prop.
Qed.

(** The shape that [BecomeActive] and [BecomeInactive] share. *)
Lemma wlp_until n wanted (change : IO W unit) (w : W) m :
  wlp (loop n alive (fun _ =>
         change ;; startTime ← now;
         returned ← pollActive debug serverId n wanted startTime (2 * Second);
         mret (negb returned, tt)) tt)
    (fun _ w m => active m = wanted ∨ ∃ w0, env_killed w0 = (true, w)) w m.
Proof.
  apply (wlp_loop (fun _ => True)); [|done]. intros [] w1 m1 _. apply wlp_alive; [|eauto].
  intros w2 _. apply wlp_bind. unfold wlp at 1. destruct (change w2 m1) as [[] w3 m3| |]; [|done..].
  apply wlp_bind. unfold now, wlp at 1. destruct (env_now w3) as [t w4].
  apply wlp_bind. eapply wlp_mono; [|apply wlp_pollActive].
  intros [] w5 m5 Hr; unfold wlp, mret, IO_ret; simpl; auto.
Qed.

(** C21: the documented promise of both functions, in every environment: when
    [BecomeActive] returns, the client is active or has been killed; when
    [BecomeInactive] returns, it is inactive or has been killed. *)
Theorem membership_change_sound n (w : W) m w' m' :
  (BecomeActive debug serverId n w m = Done tt w' m' →
     active m' = true ∨ ∃ w0, env_killed w0 = (true, w')) ∧
  (BecomeInactive debug serverId n w m = Done tt w' m' →
     active m' = false ∨ ∃ w0, env_killed w0 = (true, w')).
Proof.
  split; unfold BecomeActive, BecomeInactive, mbind, IO_bind.
  - destruct (addProvisional debug serverId n w m) as [[] w1 m1| |]; [|done..]. intros HR.
    pose proof (wlp_until n true (addSelf debug serverId n) w1 m1) as Hw.
    unfold wlp in Hw. unfold mbind, IO_bind in Hw. by rewrite HR in Hw.
  - destruct (setLeaving debug serverId w m) as [[] w1 m1| |]; [|done..]. intros HR.
    pose proof (wlp_until n false (removeSelf debug serverId n) w1 m1) as Hw.
    unfold wlp in Hw. unfold mbind, IO_bind in Hw. by rewrite HR in Hw.
Qed.

End sound.

(** ** Panics *)

(** The presumed leader is one of the known servers. *)
Definition conf_ok (m : membership) : Prop :=
  0 ≤ lastKnownLeaderInd m < Z.of_nat (length (currConf m)) ∧ Z.of_nat (length (currConf m)) ≤ int_max.

(** A configuration has at least one server. *)
Definition conf_proper (conf : Config) : Prop := conf ≠ ∅ ∧ Z.of_nat (size conf) ≤ int_max.

Definition other_proper (o : other) : Prop :=
  match o with OtherConfiguration conf => conf_proper conf | _ => True end.

Lemma length_mapToSlice conf : length (mapToSlice conf) = size conf.
Proof. unfold mapToSlice. by rewrite length_map, length_map_to_list. Qed.

Lemma potentialLeader_ok m : conf_ok m → ∃ l, potentialLeader m = Ret l.
Proof.
  intros [[Hi0 Hi1] _]. unfold potentialLeader, slice_get. rewrite (proj2 (Z.ltb_ge _ _)) by lia.
  destruct (lookup_lt_is_Some_2 (currConf m) (Z.to_nat (lastKnownLeaderInd m))) as [l ->]; [lia|eauto].
Qed.

Lemma updateLeader_ok m : conf_ok m → ∃ m', updateLeader m = Ret m' ∧ conf_ok m'.
Proof.
  intros [[Hi0 Hi1] Hs]. unfold updateLeader. destruct (currConf m) as [|l ls] eqn:E; [simpl in Hi1; lia|].
  rewrite <- E in *. eexists. split; [done|]. unfold conf_ok. cbn [lastKnownLeaderInd currConf].
  rewrite wrap64_id by (unfold int_min, int_max in *; lia). rewrite Z.rem_mod_nonneg by lia.
  pose proof (Z.mod_pos_bound (lastKnownLeaderInd m + 1) (Z.of_nat (length (currConf m)))). lia.
Qed.

Lemma setConfiguration_ok debug serverId conf m :
  conf_proper conf → ∃ m', setConfiguration debug serverId conf m = Ret m' ∧ conf_ok m'.
Proof.
  intros [Hne Hs]. rewrite <- length_mapToSlice in Hs.
  assert (0 < length (mapToSlice conf))%nat as Hlen.
  { rewrite length_mapToSlice. apply map_size_non_empty_iff in Hne. lia. }
  unfold setConfiguration. destruct (match conf !! serverId with Some _ => _ | None => _ end) as [a l].
  rewrite bool_decide_true, assertf_true by done. eexists. split; [done|]. unfold conf_ok. simpl. lia.
Qed.

Lemma apply_other_ok debug serverId o m :
  other_proper o → conf_ok m → ∃ m', apply_other debug serverId o m = Ret m' ∧ conf_ok m'.
Proof. destruct o; simpl; eauto using setConfiguration_ok, updateLeader_ok. Qed.

Lemma apply_others_ok debug serverId os : ∀ m,
  Forall other_proper os → conf_ok m → ∃ m', apply_others debug serverId os m = Ret m' ∧ conf_ok m'.
Proof.
  induction os as [|o os IH]; intros m Hos Hm; [by exists m|]. apply Forall_cons in Hos as [Ho Hos].
  cbn [apply_others]. destruct (apply_other_ok debug serverId o m Ho Hm) as (m' & -> & Hm'). by apply IH.
Qed.

Section panics.
Context {W Cmd : Type} `{Environment W Cmd} (debug : bool) (serverId : string).
Context (Hothers : ∀ w : W, Forall other_proper (env_others w).1).

(** From a valid configuration, [c] crashes only with the panic of [removeSelf],
    and then [R] holds; otherwise the configuration stays valid. *)
Definition safe {A} (R : Prop) (Q : A → Prop) (c : IO W A) : Prop := ∀ w m, conf_ok m →
  match c w m with
  | Done a _ m' => conf_ok m' ∧ Q a
  | Crash r => r = ExplicitPanic ∧ R
  | Running => True
  end.

Lemma safe_ret {A} R Q (a : A) : Q a → safe R Q (mret a).
Proof. intros HQ w m Hm. by split. Qed.

Lemma safe_bind {A B} R (P : A → Prop) (Q : B → Prop) (c : IO W A) (f : A → IO W B) :
  safe R P c → (∀ a, P a → safe R Q (f a)) → safe R Q (a ← c; f a).
Proof.
  intros Hc Hf w m Hm. unfold mbind, IO_bind. specialize (Hc w m Hm). destruct (c w m) as [a w' m'|r|]; [|done..].
  destruct Hc as [Hm' Ha]. by apply Hf.
Qed.

Lemma safe_loop {St} R (I : St → Prop) cond (body : St → IO W (bool * St)) :
  safe R (fun _ => True) cond → (∀ s, I s → safe R (fun r => I r.2) (body s)) →
  ∀ n s, I s → safe R I (loop n cond body s).
Proof.
  intros Hc Hb n. induction n as [|n IH]; intros s Hs; [done|]. cbn [loop].
  apply (safe_bind R _ _ _ _ Hc). intros [] _; [|by apply safe_ret].
  apply (safe_bind R _ _ _ _ (Hb s Hs)). intros [[] s'] Hs'; [by apply IH|by apply safe_ret].
Qed.

Lemma safe_locked {A} R (Q : A → Prop) (f : membership → outcome (A * membership)) :
  (∀ m, conf_ok m → ∃ a m', f m = Ret (a, m') ∧ conf_ok m' ∧ Q a) → safe R Q (locked debug serverId f).
Proof.
  intros Hf w m Hm. unfold locked. pose proof (Hothers w) as Hos. destruct (env_others w) as [os w'].
  destruct (apply_others_ok debug serverId os m Hos Hm) as (m1 & -> & Hm1). simpl.
  by destruct (Hf m1 Hm1) as (a & m2 & -> & Hm2 & Ha).
Qed.

Lemma safe_presumedLeader R : safe R (fun _ => True) (presumedLeader debug serverId).
Proof. apply safe_locked. intros m Hm. destruct (potentialLeader_ok m Hm) as [l ->]. simpl. eauto. Qed.

Lemma safe_nextLeader R : safe R (fun _ => True) (nextLeader debug serverId).
Proof. apply safe_locked. intros m Hm. destruct (updateLeader_ok m Hm) as (m' & -> & ?). simpl. eauto. Qed.

Lemma safe_readActive R : safe R (fun _ => True) (readActive debug serverId).
Proof. apply safe_locked. eauto. Qed.

Lemma safe_setActiveTo R b : safe R (fun _ => True) (setActiveTo debug serverId b).
Proof. apply safe_locked. intros m Hm. by exists tt; eauto. Qed.

Lemma safe_setLeaving R : safe R (fun _ => True) (setLeaving debug serverId).
Proof. apply safe_locked. intros m Hm. by exists tt; eauto. Qed.

Lemma safe_alive R : safe R (fun _ => True) (alive (W := W)).
Proof. intros w m Hm. unfold alive. by destruct (env_killed w). Qed.

Lemma safe_now R : safe R (fun _ => True) (now (W := W)).
Proof. intros w m Hm. unfold now. by destruct (env_now w). Qed.

Lemma safe_sleep R d : safe R (fun _ => True) (sleep (W := W) d).
Proof. intros w m Hm. by split. Qed.

Lemma safe_call {A} R (rpc : W → option A * W) : safe R (fun r => ∃ w, (rpc w).1 = r) (call rpc).
Proof. intros w m Hm. unfold call. destruct (rpc w) as [r w'] eqn:E. split; [done|]. exists w. by rewrite E. Qed.

Hint Resolve safe_presumedLeader safe_nextLeader safe_readActive safe_setActiveTo safe_setLeaving safe_alive
  safe_now safe_sleep : core.

Lemma safe_submitOp (op : Cmd) : safe False (fun _ => True) (submitOp debug serverId op).
Proof.
  unfold submitOp. eapply safe_bind; [done|]. intros l _. eapply safe_bind; [apply safe_call|]. intros r _. by apply safe_ret.
Qed.

(** A removal that a server has refused with [AR_NOT_PROVISIONAL]. *)
Definition removal_refused : Prop :=
  ∃ leader (w : W) reply, (call_AddRemove leader (mkAddRemoveArgs serverId false) w).1 = Some reply ∧
    ar_Error reply = AR_NOT_PROVISIONAL.

Lemma safe_getMembership R n prov : safe R (fun _ => True) (getMembership debug serverId n prov).
Proof.
  apply safe_loop; [done| |done]. intros s _. eapply safe_bind; [done|]. intros l _.
  eapply safe_bind; [apply safe_call|]. intros [r|] _; [destruct (negb (ic_IsLeader r))|];
    try (eapply safe_bind; [done|]; intros _ _; eapply safe_bind; [done|]; intros _ _); by apply safe_ret.
Qed.

Lemma safe_checkMembership R n timeout prov : safe R (fun _ => True) (checkMembership debug serverId n timeout prov).
Proof.
  eapply safe_bind; [done|]. intros t _. apply safe_loop; [|intros s _|done].
  - eapply safe_bind; [done|]. intros [] _; [|by apply safe_ret]. eapply safe_bind; [done|]. intros t' _. by apply safe_ret.
  - eapply safe_bind; [apply safe_getMembership|]. intros [] _; by apply safe_ret.
Qed.

Lemma safe_attemptRemove R n :
  safe R (fun err => err = AR_NOT_PROVISIONAL → removal_refused) (attemptAddRemove debug serverId n false).
Proof.
  apply safe_loop; [done| |done]. intros s Hs. eapply safe_bind; [done|]. intros l _.
  eapply safe_bind; [apply safe_call|]. intros [r|] [w Hw].
  - assert (ar_Error r = AR_NOT_PROVISIONAL → removal_refused) as Hr by (intros E; by exists l, w, r).
    case_bool_decide; [|destruct (_ || _)]; try (eapply safe_bind; [done|]; intros _ _); by apply safe_ret.
  - eapply safe_bind; [done|]. intros _ _. by apply safe_ret.
Qed.

Lemma safe_removeSelf n : safe removal_refused (fun _ => True) (removeSelf debug serverId n).
Proof.
  apply safe_loop; [done| |done]. intros [] _. eapply safe_bind; [apply safe_attemptRemove|]. intros err He.
  case_bool_decide as Hp; [intros w m Hm; by split; auto|]. case_bool_decide.
  - eapply safe_bind; [done|]. intros _ _. by apply safe_ret.
  - eapply safe_bind; [apply safe_checkMembership|]. intros [] _; by apply safe_ret.
Qed.

(** [BecomeInactive] has one panic, the explicit one of [removeSelf]. *)
Lemma safe_BecomeInactive n : safe removal_refused (fun _ => True) (BecomeInactive debug serverId n).
Proof.
  eapply safe_bind; [done|]. intros _ _. apply safe_loop; [done| |done]. intros [] _.
  eapply safe_bind; [apply safe_removeSelf|]. intros _ _. eapply safe_bind; [done|]. intros t _.
  apply (safe_bind _ (fun _ => True)); [|intros r _; by apply safe_ret]. apply safe_loop; [|intros s _|done].
  - eapply safe_bind; [done|]. intros t' _. by apply safe_ret.
  - eapply safe_bind; [done|]. intros a _. destruct (Bool.eqb a false); [by apply safe_ret|].
    eapply safe_bind; [done|]. intros _ _. by apply safe_ret.
Qed.

End panics.
