(* ===== verification/ClientLife.v ===== *)
(** * Creating and killing clients

    Model of [NewClient] and [Kill] of src/anonbcast/client.go on top of the
    update channels of the server.  [Kill] may be called several times, also
    concurrently: its calls are threads with a program counter that share the
    client's [killMu], its flag [dead], its view of the Raft configuration and the
    server.  [Kill] first submits an abort ([killAbort] of ClientLoop, [submitOp]
    of Membership) and calls [BecomeInactive] (Membership), both in an arbitrary
    environment; what they change and how they panic is part of the step. *)

From stdpp Require Import gmap strings.
From Stdlib Require Import Strings.Byte.
From S2P Require Import Prelude Bytes Crypto Op StateMachine RoundSpec StateMachineProps.
From S2P Require Import Representation RespChannels Server ServerProps EliminationQueue Client.
From S2P Require Import LastStateMachine ClientLoop Raft Membership.

Local Open Scope Z_scope.

Section life.
Context {C : Type} `{CommutativeCrypto C} {W : Type} `{!Environment W (Op C)} (debug : bool).
Implicit Types (s : Server (C := C)).

Record client := mkClient {
  cl_Id : UUID;
  cl_Config : ClientConfig;
  cl_serverId : string;
  cl_pending : eliminationQueue (C := C);
  cl_lastUpdate : lastStateMachine (C := C);
  cl_updCh : Z;
  cl_membership : membership;
  cl_dead : bool
}.

(** [NewClient] at time [now], for the server [s] with name [Me]; [Id] is the new
    identifier and [seedConf] the keys of the seed configuration. *)
Definition NewClient (Id : UUID) (now : Z) (Me : string) (seedConf : list string) (conf : ClientConfig) s
    : outcome (client * Server (C := C)) :=
  lastUpdate ← newLastStateMachine debug now;
  '(i, s) ← GetUpdCh debug s;
  assertf debug (bool_decide (0 < length seedConf)%nat) ;;
  Ret (mkClient Id conf Me newEliminationQueue lastUpdate i (mkMembership false false seedConf 0) false, s).

(** Where a call of [Kill] is: submitting the abort, in [BecomeInactive], waiting
    for [killMu], holding it before and after the channel is closed, returned. *)
Inductive kill_pc := KAbort | KInactive | KLock | KLocked | KClosed | KReturned.

#[export] Instance kill_pc_eq_dec : EqDecision kill_pc.
Proof. solve_decision. Defined.

Definition holds_killMu (p : kill_pc) : Prop := p = KLocked ∨ p = KClosed.

(** The server, the clients in the order of their creation, the calls of [Kill],
    each with the number of its client, and the state machines that the server has
    had. *)
Record life := mkLife {
  server : Server (C := C);
  clients : list client;
  kills : list (nat * kill_pc);
  seen : list (StateMachine C)
}.

Definition set_dead (c : client) : client :=
  mkClient (cl_Id c) (cl_Config c) (cl_serverId c) (cl_pending c) (cl_lastUpdate c) (cl_updCh c)
    (cl_membership c) true.
Definition set_membership (m : membership) (c : client) : client :=
  mkClient (cl_Id c) (cl_Config c) (cl_serverId c) (cl_pending c) (cl_lastUpdate c) (cl_updCh c) m (cl_dead c).
Definition set_lastUpdate (l : lastStateMachine (C := C)) (c : client) : client :=
  mkClient (cl_Id c) (cl_Config c) (cl_serverId c) (cl_pending c) l (cl_updCh c) (cl_membership c) (cl_dead c).

Definition killMu_free (j : nat) (ks : list (nat * kill_pc)) : Prop := ∀ p, (j, p) ∈ ks → ¬ holds_killMu p.

(** The first part of [Kill]: the abort, whose result is ignored. *)
Definition Kill_submit (c : client) : IO W unit := fun w m =>
  match killAbort debug (cl_Id c) (last_sm (cl_lastUpdate c)) with
  | Ret (Some op) => (submitOp debug (cl_serverId c) op ;; mret tt) w m
  | Ret None => Done tt w m
  | Panic r => Crash r
  end.

(** How a function ends, if it does. *)
Definition ended {A} (r : result W A) : option (outcome membership) :=
  match r with
  | Done _ _ m => Some (Ret m)
  | Crash r => Some (Panic r)
  | Running => None
  end.

(** One step of the call number [t] of [Kill]. *)
Inductive kill_step (t : nat) : life → outcome life → Prop :=
| k_abort s cs ks h j c w o :
    ks !! t = Some (j, KAbort) → cs !! j = Some c →
    ended (Kill_submit c w (cl_membership c)) = Some o →
    kill_step t (mkLife s cs ks h)
      (m ← o; Ret (mkLife s (<[j := set_membership m c]> cs) (<[t := (j, KInactive)]> ks) h))
| k_inactive s cs ks h j c n w o :
    ks !! t = Some (j, KInactive) → cs !! j = Some c →
    ended (BecomeInactive debug (cl_serverId c) n w (cl_membership c)) = Some o →
    kill_step t (mkLife s cs ks h)
      (m ← o; Ret (mkLife s (<[j := set_membership m c]> cs) (<[t := (j, KLock)]> ks) h))
| k_lock s cs ks h j c :
    ks !! t = Some (j, KLock) → cs !! j = Some c → killMu_free j ks →
    kill_step t (mkLife s cs ks h)
      (Ret (mkLife s cs (<[t := (j, if cl_dead c then KReturned else KLocked)]> ks) h))
| k_close s cs ks h j c o :
    ks !! t = Some (j, KLocked) → cs !! j = Some c → CloseUpdCh (cl_updCh c) s = o →
    kill_step t (mkLife s cs ks h) (s ← o; Ret (mkLife s cs (<[t := (j, KClosed)]> ks) h))
| k_dead s cs ks h j c :
    ks !! t = Some (j, KClosed) → cs !! j = Some c →
    kill_step t (mkLife s cs ks h) (Ret (mkLife s (<[j := set_dead c]> cs) (<[t := (j, KReturned)]> ks) h)).

(** The rest of the program: new clients, which know of at least one server, and
    new calls of [Kill]; the server applies messages of Raft and accepts
    operations; the goroutines of a client store the copies of the server's state
    machine and change the view of the configuration. *)
Inductive life_step : life → life → Prop :=
| l_new s cs ks h Id now Me seed conf c s' :
    seed ≠ [] → Z.of_nat (length seed) ≤ int_max → NewClient Id now Me seed conf s = Ret (c, s') →
    life_step (mkLife s cs ks h) (mkLife s' (cs ++ [c]) ks h)
| l_kill s cs ks h j :
    (j < length cs)%nat → life_step (mkLife s cs ks h) (mkLife s cs (ks ++ [(j, KAbort)]) h)
| l_killing t L L' : kill_step t L (Ret L') → life_step L L'
| l_apply s cs ks h msg b s' :
    applier_step debug msg s = Ret (b, s') → life_step (mkLife s cs ks h) (mkLife s' cs ks (h ++ [srv_sm s']))
| l_submit s cs ks h op start r s' :
    SubmitOp_begin debug op start s = Ret (r, s') → life_step (mkLife s cs ks h) (mkLife s' cs ks h)
| l_update s cs ks h j c sm copy v now l :
    cs !! j = Some c → sm ∈ h → DeepCopy debug sm = Ret copy → set debug copy v now (cl_lastUpdate c) = Ret l →
    life_step (mkLife s cs ks h) (mkLife s (<[j := set_lastUpdate l c]> cs) ks h)
| l_other s cs ks h j c o m :
    cs !! j = Some c → other_proper o → apply_other debug (cl_serverId c) o (cl_membership c) = Ret m →
    life_step (mkLife s cs ks h) (mkLife s (<[j := set_membership m c]> cs) ks h).

Inductive life_reachable : life → Prop :=
| lr_new s : NewServer debug = Ret s → life_reachable (mkLife s [] [] [srv_sm s])
| lr_step L L' : life_reachable L → life_step L L' → life_reachable L'.

(** Configurations that reach the client name at least one server. *)
Context (Hothers : ∀ w : W, Forall other_proper (env_others w).1).

(** ** Reading the last state machine *)

(** The current round can be looked up. *)
Definition readable (sm : StateMachine C) : Prop := 0 ≤ Round sm ≤ int_max ∧ length (Rounds sm) = 3%nat.

Lemma killAbort_ok Id sm : readable sm → ∃ op, killAbort debug Id sm = Ret op.
Proof.
  intros [Hr Hs]. destruct (lookup_lt_is_Some_2 (Rounds sm) (slot (Round sm))) as [ri Hc]; [rewrite Hs; apply slot_lt|].
  unfold killAbort. rewrite CurrentRoundInfo_eq by done. simpl. rewrite (load_current sm ri Hc). simpl.
  destruct (_ && _); eauto.
Qed.

Lemma map_outcome_length {A B} (f : A → outcome B) l ys : map_outcome f l = Ret ys → length ys = length l.
Proof.
  revert ys. induction l as [|x l IH]; intros ys; simpl; [by intros [= <-]|].
  intros (y & _ & (ys' & Hys & [= <-])%bind_ret_inv)%bind_ret_inv. simpl. f_equal. by apply IH.
Qed.

Lemma DeepCopy_readable sm copy : readable sm → DeepCopy debug sm = Ret copy → readable copy.
Proof.
  intros [Hr Hs] HD. unfold DeepCopy in HD.
  apply bind_ret_inv in HD as (_ & _ & (_ & _ & (rs & Hrs & HD)%bind_ret_inv)%bind_ret_inv).
  apply bind_ret_inv in HD as (_ & _ & (_ & _ & [= <-])%bind_ret_inv).
  split; simpl; [done|]. by rewrite (map_outcome_length _ _ _ Hrs).
Qed.

Lemma set_last_cases sm v now (l l' : lastStateMachine (C := C)) :
  set debug sm v now l = Ret l' → last_sm l' = sm ∨ last_sm l' = last_sm l.
Proof.
  unfold set. destruct (version l <? v); [intros (b & _ & [= <-])%bind_ret_inv; by left|]. intros [= <-]. by right.
Qed.

Lemma applier_machine msg s b s' :
  applier_step debug msg s = Ret (b, s') →
  srv_sm s' = srv_sm s ∨ ∃ op u, Apply debug op (srv_sm s) = Ret (u, srv_sm s').
Proof.
  unfold applier_step. destruct (CommandValid msg).
  - destruct (Command msg) as [op|]; [|done].
    intros ([u sm] & HA & (s1 & Hs1 & [= _ <-])%bind_ret_inv)%bind_ret_inv. right. exists op, u. rewrite HA.
    destruct u; [|by injection Hs1 as <-]. unfold sendStateMachineUpdate in Hs1.
    case_bool_decide; [by injection Hs1 as <-|]. by apply bind_ret_inv in Hs1 as (copy & _ & [= <-]).
  - intros HA. left. revert HA. destruct (RaftUpdateValid msg); [destruct (negb _)|].
    + by intros (r & _ & [= _ <-])%bind_ret_inv.
    + by intros [= _ <-].
    + destruct (SnapshotValid msg); [by intros (? & _ & [= _ <-])%bind_ret_inv|].
      destruct (ConfigValid msg); [by intros [= _ <-]|by intros (? & _ & [= _ <-])%bind_ret_inv].
Qed.

(** ** The invariant *)

(** Client number [j] has channel number [j], which is open until a call of [Kill]
    has closed it; at most one call holds the mutex, and none once the client is
    dead. *)
Record life_inv (L : life) : Prop := {
  li_index : updChIndex (server L) = Z.of_nat (length (clients L));
  li_chan : ∀ j c, clients L !! j = Some c → cl_updCh c = Z.of_nat j;
  li_open : ∀ j c, clients L !! j = Some c →
    (updChs (server L) !! Z.of_nat j = None ↔ cl_dead c = true ∨ (j, KClosed) ∈ kills L);
  li_known : ∀ j p, (j, p) ∈ kills L → (j < length (clients L))%nat;
  li_one : ∀ t t' j p p', kills L !! t = Some (j, p) → kills L !! t' = Some (j, p') →
    holds_killMu p → holds_killMu p' → t = t';
  li_alive : ∀ j c p, clients L !! j = Some c → (j, p) ∈ kills L → holds_killMu p → cl_dead c = false
}.

(** The steps of the server that do not concern the set of channels. *)
Definition same_channels s s' : Prop :=
  updChIndex s' = updChIndex s ∧ ∀ k, updChs s' !! k = None ↔ updChs s !! k = None.

Lemma broadcast_none u chs (k : Z) : broadcast (C := C) u chs !! k = None ↔ chs !! k = None.
Proof. unfold broadcast. rewrite lookup_fmap. apply fmap_None. Qed.

Lemma applier_channels msg s b s' : applier_step debug msg s = Ret (b, s') → same_channels s s'.
Proof.
  unfold applier_step, same_channels. destruct (CommandValid msg).
  - destruct (Command msg) as [op|]; [|done].
    intros ([u sm] & _ & (s1 & Hs1 & [= _ <-])%bind_ret_inv)%bind_ret_inv.
    destruct u; [|by injection Hs1 as <-]. unfold sendStateMachineUpdate in Hs1.
    case_bool_decide; [by injection Hs1 as <-|]. apply bind_ret_inv in Hs1 as (copy & _ & [= <-]). simpl.
    split; [done|]. intros k. apply broadcast_none.
  - destruct (RaftUpdateValid msg); [destruct (negb _)|].
    + by intros (r & _ & [= _ <-])%bind_ret_inv.
    + by intros [= _ <-].
    + destruct (SnapshotValid msg); [by intros (? & _ & [= _ <-])%bind_ret_inv|].
      destruct (ConfigValid msg); [|by intros (? & _ & [= _ <-])%bind_ret_inv].
      intros [= _ <-]. split; [done|]. intros k. apply broadcast_none.
Qed.

Lemma submit_channels op start s r s' : SubmitOp_begin debug op start s = Ret (r, s') → same_channels s s'.
Proof. by intros [(_ & -> & _)|[[_ ->]|(?&?&?&?&_&_&_& ->)]]%SubmitOp_begin_cases. Qed.

Lemma life_inv_channels s s' cs ks h h' : same_channels s s' → life_inv (mkLife s cs ks h) → life_inv (mkLife s' cs ks h').
Proof.
  intros [Hi Hk] [L1 L2 L3 L4 L5 L6]. split; simpl in *; try done; [congruence|].
  intros j c Hj. by rewrite Hk, (L3 j c Hj).
Qed.

(** A call of [Kill] moves from [p] to [p']. *)
Lemma elem_of_move (ks : list (nat * kill_pc)) t j p p' x :
  ks !! t = Some (j, p) → x ≠ (j, p) → x ≠ (j, p') → x ∈ <[t := (j, p')]> ks ↔ x ∈ ks.
Proof.
  intros Ht Hp Hp'. rewrite !list_elem_of_lookup. split; intros [i Hi].
  - destruct (decide (i = t)) as [->|Hne]; [|rewrite list_lookup_insert_ne in Hi; eauto].
    rewrite list_lookup_insert_eq in Hi by (by eapply lookup_lt_Some). congruence.
  - destruct (decide (i = t)) as [->|Hne]; [congruence|]. exists i. by rewrite list_lookup_insert_ne.
Qed.

Lemma move_cases (ks : list (nat * kill_pc)) t i x y :
  <[t := x]> ks !! i = Some y → i = t ∧ y = x ∨ i ≠ t ∧ ks !! i = Some y.
Proof. intros [(-> & ? & _)|[? ?]]%list_lookup_insert_Some; auto. Qed.

Lemma move_inv s s' cs ks h t j p p' c c' :
  life_inv (mkLife s cs ks h) → ks !! t = Some (j, p) → cs !! j = Some c → cl_updCh c' = cl_updCh c →
  (holds_killMu p' → holds_killMu p ∨ killMu_free j ks) → updChIndex s' = updChIndex s →
  (∀ k, k ≠ Z.of_nat j → updChs s' !! k = updChs s !! k) →
  (updChs s' !! Z.of_nat j = None ↔ cl_dead c' = true ∨ (j, KClosed) ∈ <[t := (j, p')]> ks) →
  (cl_dead c' = true → killMu_free j (<[t := (j, p')]> ks)) →
  life_inv (mkLife s' (<[j := c']> cs) (<[t := (j, p')]> ks) h).
Proof.
  intros [L1 L2 L3 L4 L5 L6] Ht Hc Hu Hh Hi Hother Hj Hd; simpl in *.
  pose proof (lookup_lt_Some _ _ _ Hc) as Hlt. split; simpl.
  - by rewrite length_insert, Hi.
  - intros j' d [(-> & -> & _)|[? Hd']]%list_lookup_insert_Some; [by rewrite Hu, (L2 _ _ Hc)|by apply L2].
  - intros j' d [(-> & -> & _)|[Hne Hd']]%list_lookup_insert_Some; [done|].
    rewrite Hother by lia. rewrite (elem_of_move _ _ _ _ _ _ Ht) by congruence. by apply L3.
  - intros j' q [i Hq]%list_elem_of_lookup. rewrite length_insert.
    apply move_cases in Hq as [[_ [= -> ->]]|[_ Hq]]; [done|]. eapply L4, list_elem_of_lookup_2, Hq.
  - intros t1 t2 j' q q' Hq Hq' H1 H2.
    apply move_cases in Hq as [[-> [= -> ->]]|[Hn1 Hq]], Hq' as [[-> Heq]|[Hn2 Hq']]; simplify_eq; try done.
    + destruct (Hh H1) as [Hp|Hf]; [by eapply L5|]. by destruct (Hf q'); [eapply list_elem_of_lookup_2|].
    + destruct (Hh H2) as [Hp|Hf]; [by eapply L5|]. by destruct (Hf q); [eapply list_elem_of_lookup_2|].
    + by eapply L5.
  - intros j' d q [(-> & -> & _)|[Hne Hd']]%list_lookup_insert_Some Hq Hh'.
    + destruct (cl_dead d) eqn:E; [|done]. by destruct (Hd eq_refl q).
    + apply (elem_of_move _ _ _ _ _ _ Ht) in Hq; [by eapply L6|congruence..].
Qed.

(** A call of [Kill] that does not hold the mutex moves on without taking it. *)
Lemma move_outside s cs ks h t j p p' c m :
  life_inv (mkLife s cs ks h) → ks !! t = Some (j, p) → cs !! j = Some c → ¬ holds_killMu p → ¬ holds_killMu p' →
  life_inv (mkLife s (<[j := set_membership m c]> cs) (<[t := (j, p')]> ks) h).
Proof.
  intros Hinv Ht Hc Hp Hp'. pose proof Hinv as [L1 L2 L3 L4 L5 L6]. simpl in *.
  eapply move_inv; try done; simpl.
  - assert (p ≠ KClosed ∧ p' ≠ KClosed) as [? ?] by (split; intros ->; [apply Hp|apply Hp']; by right).
    rewrite (elem_of_move _ _ _ _ _ _ Ht) by congruence. by apply L3.
  - intros Hd q [i Hq]%list_elem_of_lookup Hh. apply move_cases in Hq as [[_ [= ->]]|[_ Hq]]; [done|].
    by rewrite (L6 _ _ _ Hc (list_elem_of_lookup_2 _ _ _ Hq) Hh) in Hd.
Qed.

Lemma kill_step_inv t L L' : life_inv L → kill_step t L (Ret L') → life_inv L'.
Proof.
  intros Hinv. pose proof Hinv as [L1 L2 L3 L4 L5 L6]. intros Hs.
  inversion Hs as [s cs ks h j c w o Ht Hc _ E1 E2|s cs ks h j c n w o Ht Hc _ E1 E2|s cs ks h j c Ht Hc Hf E1 E2
    |s cs ks h j c o Ht Hc Ho E1 E2|s cs ks h j c Ht Hc E1 E2]; subst; simpl in *.
  - apply bind_ret_inv in E2 as (m & _ & [= <-]). eapply move_outside; try done; by intros [?|?].
  - apply bind_ret_inv in E2 as (m & _ & [= <-]). eapply move_outside; try done; by intros [?|?].
  - rewrite <- (list_insert_id cs j c) by done. eapply move_inv; try done; [by right| |].
    + rewrite (elem_of_move _ _ _ _ _ _ Ht); [by apply L3|done|by destruct (cl_dead c)].
    + intros -> q [i Hq]%list_elem_of_lookup Hh. apply move_cases in Hq as [[_ [= ->]]|[_ Hq]]; [by destruct Hh|].
      by apply (Hf q); [eapply list_elem_of_lookup_2|].
  - apply bind_ret_inv in E2 as (s' & Hcl & [= <-]).
    unfold CloseUpdCh in Hcl. rewrite (L2 _ _ Hc) in Hcl.
    destruct (updChs s !! Z.of_nat j) eqn:Hch; [|done]. injection Hcl as <-.
    rewrite <- (list_insert_id cs j c) by done. eapply move_inv; try done; simpl.
    + intros _. left. by left.
    + intros k Hk. by rewrite lookup_delete_ne.
    + rewrite lookup_delete_eq. split; [|done]. intros _. right.
      eapply list_elem_of_lookup_2. by apply list_lookup_insert_eq; eapply lookup_lt_Some.
    + intros Hd. rewrite (L6 j c KLocked) in Hd; [done|done|by eapply list_elem_of_lookup_2|by left].
  - eapply move_inv; try done; simpl; [by intros [?|?]| |].
    + split; [by left|]. intros _. apply (L3 _ _ Hc). right. by eapply list_elem_of_lookup_2.
    + intros _ q [i Hq]%list_elem_of_lookup Hh. apply move_cases in Hq as [[_ [= ->]]|[Hne Hq]]; [by destruct Hh|].
      apply Hne. eapply L5; [exact Hq|exact Ht|done|by right].
Qed.

Lemma new_client_inv s s' cs ks h c :
  updChIndex s' = wrap64 (updChIndex s + 1) → Z.of_nat (length cs) < int_max →
  cl_updCh c = updChIndex s → cl_dead c = false → is_Some (updChs s' !! updChIndex s) →
  (∀ k, k ≠ updChIndex s → updChs s' !! k = updChs s !! k) →
  life_inv (mkLife s cs ks h) → life_inv (mkLife s' (cs ++ [c]) ks h).
Proof.
  intros Hi Hb Hu Hd Hnew Hold [L1 L2 L3 L4 L5 L6]; simpl in *. split; simpl.
  - rewrite Hi, L1, length_app. simpl. rewrite wrap64_id by (unfold int_min, int_max in *; lia). lia.
  - intros j d [?|[Hj Hd']]%lookup_app_Some; [by apply L2|]. apply list_lookup_singleton_Some in Hd' as [? <-].
    rewrite Hu, L1. lia.
  - intros j d [Hj|[Hj Hd']]%lookup_app_Some.
    + rewrite Hold by (rewrite L1; apply lookup_lt_Some in Hj; lia). by apply L3.
    + apply list_lookup_singleton_Some in Hd' as [? <-]. replace (Z.of_nat j) with (updChIndex s) by (rewrite L1; lia).
      destruct Hnew as [l ->]. rewrite Hd. split; [done|]. intros [?|Hin]; [done|]. specialize (L4 _ _ Hin). lia.
  - intros j p Hin. rewrite length_app. specialize (L4 _ _ Hin). simpl. lia.
  - done.
  - intros j d p [Hj|[Hj Hd']]%lookup_app_Some Hin Hh; [by eapply L6|].
    by apply list_lookup_singleton_Some in Hd' as [? <-].
Qed.

Lemma NewClient_spec Id now Me seed conf s c s' :
  NewClient Id now Me seed conf s = Ret (c, s') →
  cl_updCh c = updChIndex s ∧ cl_dead c = false ∧ updChIndex s' = wrap64 (updChIndex s + 1) ∧
  is_Some (updChs s' !! updChIndex s) ∧ ∀ k, k ≠ updChIndex s → updChs s' !! k = updChs s !! k.
Proof.
  unfold NewClient, GetUpdCh.
  intros (l & _ & ([i s1] & (copy & _ & [= <- <-])%bind_ret_inv & (_ & _ & [= <- <-])%bind_ret_inv)%bind_ret_inv)%bind_ret_inv.
  simpl. split_and!; [done..| |]; [rewrite lookup_insert_eq; eauto|].
  intros k Hk. by rewrite lookup_insert_ne.
Qed.

(** What the goroutines of a client change otherwise. *)
Lemma client_inv s cs ks h j c c' :
  cs !! j = Some c → cl_updCh c' = cl_updCh c → cl_dead c' = cl_dead c →
  life_inv (mkLife s cs ks h) → life_inv (mkLife s (<[j := c']> cs) ks h).
Proof.
  intros Hc Hu Hd [L1 L2 L3 L4 L5 L6]. split; simpl in *; rewrite ?length_insert; try done.
  - intros j' d [(-> & <- & _)|[_ Hj]]%list_lookup_insert_Some; [by rewrite Hu, (L2 _ _ Hc)|by apply L2].
  - intros j' d [(-> & <- & _)|[_ Hj]]%list_lookup_insert_Some; [by rewrite Hd, (L3 _ _ Hc)|by apply L3].
  - intros j' d p [(-> & <- & _)|[_ Hj]]%list_lookup_insert_Some Hin Hh; [by rewrite Hd, (L6 _ _ _ Hc Hin Hh)|by eapply L6].
Qed.

Lemma new_kill_inv s cs ks h j :
  (j < length cs)%nat → life_inv (mkLife s cs ks h) → life_inv (mkLife s cs (ks ++ [(j, KAbort)]) h).
Proof.
  intros Hj [L1 L2 L3 L4 L5 L6]. split; simpl in *; try done.
  - intros j' c Hc. rewrite (L3 _ _ Hc). set_solver.
  - set_solver.
  - intros t t' j' p p' Ht Ht' H1' H2'.
    apply lookup_app_Some in Ht as [Ht|[_ Ht]], Ht' as [Ht'|[_ Ht']];
      try apply list_lookup_singleton_Some in Ht as [? [= <- <-]];
      try apply list_lookup_singleton_Some in Ht' as [? [= <- <-]];
      [by eapply L5|by destruct H2'|by destruct H1'..].
  - intros j' c p Hc [Hin|Hin]%elem_of_app Hh; [by eapply L6|].
    apply list_elem_of_singleton in Hin as [= _ ->]. by destruct Hh.
Qed.

Lemma life_step_inv L L' :
  life_step L L' → Z.of_nat (length (clients L')) ≤ int_max → life_inv L → life_inv L'.
Proof.
  intros Hs Hb Hinv.
  destruct Hs as [s cs ks h Id now Me seed conf c s' _ _ HN|s cs ks h j Hj|t L L' Hk|s cs ks h msg b s' HA
    |s cs ks h op start r s' HS|s cs ks h j c sm copy v now l Hc _ _ _|s cs ks h j c o m Hc _ _]; simpl in *.
  - apply NewClient_spec in HN as (? & ? & ? & ? & ?). rewrite length_app in Hb. simpl in Hb.
    eapply new_client_inv; try done. lia.
  - by apply new_kill_inv.
  - by eapply kill_step_inv.
  - eapply life_inv_channels; [by eapply applier_channels|done].
  - eapply life_inv_channels; [by eapply submit_channels|done].
  - by eapply client_inv.
  - by eapply client_inv.
Qed.

(** The machines of the server satisfy their invariant, and the clients can read
    their copies and know a server. *)
Record memory_inv (L : life) : Prop := {
  mi_seen : ∀ sm, sm ∈ seen L → sm_inv sm ∧ Round sm < Z.of_nat (length (seen L));
  mi_server : srv_sm (server L) ∈ seen L;
  mi_client : ∀ j c, clients L !! j = Some c → conf_ok (cl_membership c) ∧ readable (last_sm (cl_lastUpdate c))
}.

(** How [Kill_submit] and [BecomeInactive] end. *)
Lemma Kill_submit_ended c w o :
  conf_ok (cl_membership c) → readable (last_sm (cl_lastUpdate c)) →
  ended (Kill_submit c w (cl_membership c)) = Some o → ∃ m, o = Ret m ∧ conf_ok m.
Proof.
  intros Hm Hr. unfold Kill_submit. destruct (killAbort_ok (cl_Id c) _ Hr) as [[op|] ->];
    [|intros [= <-]; eauto].
  pose proof (safe_bind False _ (fun _ => True) _ (fun _ => mret tt)
    (safe_submitOp debug (cl_serverId c) Hothers op) (fun _ _ => safe_ret _ _ _ I) w _ Hm) as Hs.
  unfold ended. match type of Hs with match ?x with _ => _ end => destruct x as [a w' m'|r|] end; [|by destruct Hs|done].
  intros [= <-]. destruct Hs. eauto.
Qed.

Lemma BecomeInactive_ended n c w o :
  conf_ok (cl_membership c) → ended (BecomeInactive debug (cl_serverId c) n w (cl_membership c)) = Some o →
  (∃ m, o = Ret m ∧ conf_ok m) ∨ o = Panic ExplicitPanic ∧ removal_refused (W := W) (Cmd := Op C) (cl_serverId c).
Proof.
  intros Hm. pose proof (safe_BecomeInactive debug (cl_serverId c) Hothers n w _ Hm) as Hs.
  destruct (BecomeInactive _ _ _ _ _) as [a w' m'|r|]; [| |done]; intros [= <-]; [left|right].
  - destruct Hs. eauto.
  - by destruct Hs as [-> ?].
Qed.

Lemma memory_client s cs ks ks' h j c c' :
  cs !! j = Some c → (conf_ok (cl_membership c) → readable (last_sm (cl_lastUpdate c)) →
    conf_ok (cl_membership c') ∧ readable (last_sm (cl_lastUpdate c'))) →
  memory_inv (mkLife s cs ks h) → memory_inv (mkLife s (<[j := c']> cs) ks' h).
Proof.
  intros Hc Hc' [M1 M2 M3]. split; simpl in *; [done|done|].
  intros j' d [(-> & <- & _)|[_ Hj]]%list_lookup_insert_Some; [by apply Hc'; apply (M3 _ _ Hc)|by eapply M3].
Qed.

Lemma kill_step_memory t L L' : memory_inv L → kill_step t L (Ret L') → memory_inv L'.
Proof.
  intros Hinv Hs.
  inversion Hs as [s cs ks h j c w o Ht Hc He E1 E2|s cs ks h j c n w o Ht Hc He E1 E2|s cs ks h j c Ht Hc Hf E1 E2
    |s cs ks h j c o Ht Hc Ho E1 E2|s cs ks h j c Ht Hc E1 E2]; subst; simpl in *.
  - apply bind_ret_inv in E2 as (m & -> & [= <-]). eapply memory_client; [done| |done].
    intros Hm Hr. destruct (Kill_submit_ended _ _ _ Hm Hr He) as (m' & [= <-] & ?). by split.
  - apply bind_ret_inv in E2 as (m & -> & [= <-]). eapply memory_client; [done| |done].
    intros Hm Hr. destruct (BecomeInactive_ended _ _ _ _ Hm He) as [(m' & [= <-] & ?)|[? _]]; [by split|done].
  - by destruct Hinv.
  - apply bind_ret_inv in E2 as (s' & Hcl & [= <-]). destruct Hinv as [M1 M2 M3]. split; simpl in *; [done| |done].
    unfold CloseUpdCh in Hcl. destruct (updChs s !! cl_updCh c); [by injection Hcl as <-|done].
  - by eapply memory_client.
Qed.

Lemma applier_memory s cs ks h msg b s' :
  applier_step debug msg s = Ret (b, s') → Z.of_nat (length h) ≤ int_max →
  memory_inv (mkLife s cs ks h) → memory_inv (mkLife s' cs ks (h ++ [srv_sm s'])).
Proof.
  intros HA Hb [M1 M2 M3]; simpl in *. destruct (M1 _ M2) as [Hi Hlt].
  assert (sm_inv (srv_sm s') ∧ Round (srv_sm s') ≤ Round (srv_sm s) + 1) as [Hi' Hr'].
  { destruct (applier_machine _ _ _ _ HA) as [->|(op & u & Ha)]; [split; [done|lia]|].
    destruct (Apply_asserts debug op _ Hi ltac:(lia)) as [E|E]; rewrite E in Ha; [|done].
    destruct (Apply_inv _ _ _ _ Hi ltac:(lia) Ha). split; [done|lia]. }
  split; simpl; [|set_solver|done]. rewrite length_app. simpl.
  intros sm [Hin|Hin]%elem_of_app; [destruct (M1 _ Hin); split; [done|lia]|].
  apply list_elem_of_singleton in Hin as ->. split; [done|lia].
Qed.

Lemma NewClient_memory Id now Me seed conf s c s' :
  seed ≠ [] → Z.of_nat (length seed) ≤ int_max → NewClient Id now Me seed conf s = Ret (c, s') →
  conf_ok (cl_membership c) ∧ readable (last_sm (cl_lastUpdate c)) ∧ srv_sm s' = srv_sm s.
Proof.
  intros Hne Hs. unfold NewClient, GetUpdCh.
  intros (l & Hl & ([i s1] & (copy & _ & [= <- <-])%bind_ret_inv & (_ & _ & [= <- <-])%bind_ret_inv)%bind_ret_inv)%bind_ret_inv.
  assert (readable (last_sm l)) as Hr by (destruct debug; injection Hl as <-; split; by vm_compute).
  split_and!; [|done|done]. split; simpl; [|done]. destruct seed; [done|simpl; lia].
Qed.

Lemma life_step_memory L L' :
  life_step L L' → Z.of_nat (length (seen L)) ≤ int_max → memory_inv L → memory_inv L'.
Proof.
  intros Hs Hb Hinv.
  destruct Hs as [s cs ks h Id now Me seed conf c s' Hn Hsz HN|s cs ks h j Hj|t L L' Hk|s cs ks h msg b s' HA
    |s cs ks h op start r s' HS|s cs ks h j c sm copy v now l Hc Hin HD HS|s cs ks h j c o m Hc Ho HA]; simpl in *.
  - destruct (NewClient_memory _ _ _ _ _ _ _ _ Hn Hsz HN) as (Hm & Hr & Hsm). destruct Hinv as [M1 M2 M3].
    split; simpl in *; [done|by rewrite Hsm|].
    intros j d [?|[_ Hd]]%lookup_app_Some; [by eapply M3|]. by apply list_lookup_singleton_Some in Hd as [_ <-].
  - by destruct Hinv.
  - by eapply kill_step_memory.
  - by eapply applier_memory.
  - destruct Hinv as [M1 M2 M3]. split; simpl in *; [done| |done].
    by destruct (SubmitOp_begin_cases _ _ _ _ _ _ HS) as [(_ & -> & _)|[[_ ->]|(?&?&?&?&_&_&_& ->)]].
  - eapply memory_client; [done| |done]. intros Hm Hr. split; [done|]. simpl.
    destruct (mi_seen _ Hinv _ Hin) as [Hi _].
    destruct (set_last_cases _ _ _ _ _ HS) as [-> | ->]; [|done].
    eapply DeepCopy_readable; [|done]. split; apply Hi.
  - eapply memory_client; [done| |done]. intros Hm Hr. split; [|done]. simpl.
    destruct (apply_other_ok debug (cl_serverId c) o _ Ho Hm) as (m' & E & ?). congruence.
Qed.

Lemma life_step_size L L' :
  life_step L L' → (length (clients L) ≤ length (clients L'))%nat ∧ (length (seen L) ≤ length (seen L'))%nat.
Proof.
  destruct 1 as [| |t L L' Hk| | | |]; simpl; rewrite ?length_app, ?length_insert; try lia.
  inversion Hk; subst; simpl; rewrite ?length_insert; try lia;
    (match goal with E : _ = Ret _ |- _ => apply bind_ret_inv in E as (s' & _ & [= <-]) end);
    simpl; rewrite ?length_insert; lia.
Qed.

Definition in_bounds (L : life) : Prop :=
  Z.of_nat (length (clients L)) ≤ int_max ∧ Z.of_nat (length (seen L)) ≤ int_max.

Lemma life_reachable_inv L : life_reachable L → in_bounds L → life_inv L ∧ memory_inv L.
Proof.
  unfold in_bounds. induction 1 as [s Hs|L L' HL IH Hst]; intros [Hb Hb'].
  - apply bind_ret_inv in Hs as (sm & Hsm & [= <-]). split; split; simpl; try done; try set_solver.
    intros sm' ->%list_elem_of_singleton. destruct (@NewStateMachine_inv C debug) as (sm0 & E & Hi & Hr).
    rewrite E in Hsm. injection Hsm as <-. split; [done|lia].
  - destruct (life_step_size _ _ Hst). destruct IH as [I1 I2]; [split; lia|].
    split; [by eapply life_step_inv|]. eapply life_step_memory; [done|lia|done].
Qed.

(** The call that holds the mutex finds the channel open. *)
Lemma close_once L t j c :
  life_inv L → kills L !! t = Some (j, KLocked) → clients L !! j = Some c →
  ∃ s', CloseUpdCh (cl_updCh c) (server L) = Ret s'.
Proof.
  intros [L1 L2 L3 L4 L5 L6] Ht Hc. unfold CloseUpdCh. rewrite (L2 _ _ Hc).
  destruct (updChs (server L) !! Z.of_nat j) eqn:E; [eauto|]. apply (L3 _ _ Hc) in E as [E|E].
  - rewrite (L6 j c KLocked) in E; [done|done|by eapply list_elem_of_lookup_2|by left].
  - apply list_elem_of_lookup in E as [t' E].
    pose proof (L5 _ _ _ _ _ Ht E ltac:(by left) ltac:(by right)). by simplify_eq.
Qed.

(** The only panic of a step of [Kill] is the one of [removeSelf]. *)
Lemma kill_step_panics L t o :
  life_inv L → memory_inv L → kill_step t L o → (∃ L', o = Ret L') ∨
  o = Panic ExplicitPanic ∧ ∃ j c, kills L !! t = Some (j, KInactive) ∧ clients L !! j = Some c ∧
    removal_refused (W := W) (Cmd := Op C) (cl_serverId c).
Proof.
  intros Hi Hm Hs. pose proof (mi_client _ Hm) as M.
  inversion Hs as [s cs ks h j c w o' Ht Hc He|s cs ks h j c n w o' Ht Hc He| |s cs ks h j c o' Ht Hc Ho|];
    subst; simpl in *; eauto.
  - destruct (M _ _ Hc) as [Hmc Hr]. destruct (Kill_submit_ended _ _ _ Hmc Hr He) as (m & -> & _). simpl. eauto.
  - destruct (M _ _ Hc) as [Hmc Hr]. destruct (BecomeInactive_ended _ _ _ _ Hmc He) as [(m & -> & _)|[-> ?]];
      simpl; [eauto|right; eauto 10].
  - destruct (close_once _ _ _ _ Hi Ht Hc) as [s' E]. simpl in E. rewrite E. simpl. eauto.
Qed.

Lemma kill_holder L t j p :
  life_inv L → kills L !! t = Some (j, p) → holds_killMu p → ∃ L', kill_step t L (Ret L').
Proof.
  intros Hi Ht Hp. pose proof (li_known _ Hi _ _ (list_elem_of_lookup_2 _ _ _ Ht)) as Hj.
  destruct (lookup_lt_is_Some_2 (clients L) j Hj) as [c Hc]. destruct L as [s cs ks h]; simpl in *.
  destruct Hp as [-> | ->]; [|eexists; by eapply k_dead].
  destruct (close_once _ _ _ _ Hi Ht Hc) as [s' Hs']. eexists. by apply (k_close _ _ _ _ _ _ _ _ Ht Hc Hs').
Qed.

(** Whoever waits for the mutex can take it, or its holder can go on. *)
Lemma kill_progress L t j p :
  life_inv L → kills L !! t = Some (j, p) → p ≠ KAbort → p ≠ KInactive → p ≠ KReturned →
  ∃ t' p' L', kills L !! t' = Some (j, p') ∧ kill_step t' L (Ret L').
Proof.
  intros Hi Ht Hp1 Hp2 Hp3.
  destruct (decide (Exists (fun jp => fst jp = j ∧ (snd jp = KLocked ∨ snd jp = KClosed)) (kills L))) as [He|Hne].
  - apply Exists_exists in He as ([j' p'] & [t' Ht']%list_elem_of_lookup & [Hj' Hh]). simpl in Hj', Hh. subst j'.
    destruct (kill_holder _ _ _ _ Hi Ht' Hh) as [L' HL']. eauto 10.
  - assert (killMu_free j (kills L)) as Hf.
    { intros q Hq Hh. apply Hne, Exists_exists. exists (j, q). by split. }
    pose proof (list_elem_of_lookup_2 _ _ _ Ht) as Hin. pose proof (li_known _ Hi _ _ Hin) as Hj.
    destruct (lookup_lt_is_Some_2 (clients L) j Hj) as [c Hc].
    assert (p = KLock) as ->.
    { pose proof (Hf _ Hin) as Hn. unfold holds_killMu in Hn. destruct p; tauto. }
    destruct L as [s cs ks h]. eexists t, KLock, _. split; [exact Ht|]. by eapply k_lock.
Qed.

(** C27: a client can be killed any number of times.  In every reachable state of a
    server and its clients (fewer than 2^63 of them and of messages of Raft, each
    client created with a non-empty seed configuration, and every configuration
    that reaches a client non-empty), whatever calls of [Kill] run concurrently and
    whatever the environment answers to their remote calls: a step of [Kill]
    panics only inside [BecomeInactive], with the explicit panic of [removeSelf],
    and only if a server answers its removal with AR_NOT_PROVISIONAL; submitting
    the abort, cycling through the servers, locking, closing the update channel and
    setting the flag do not panic, so that the channel is closed at most once.  A
    channel is open exactly until its own client has closed it, and closed once
    the client is dead.  As long as a call of [Kill] is past [BecomeInactive] and
    has not returned, one of the calls for its client can make a step, so that the
    mutex does not deadlock. *)
Theorem kill_closes_once L :
  life_reachable L → in_bounds L →
  (∀ t o, kill_step t L o → (∃ L', o = Ret L') ∨
     o = Panic ExplicitPanic ∧ ∃ j c, kills L !! t = Some (j, KInactive) ∧ clients L !! j = Some c ∧
       removal_refused (W := W) (Cmd := Op C) (cl_serverId c)) ∧
  (∀ j c, clients L !! j = Some c → cl_updCh c = Z.of_nat j ∧
     (updChs (server L) !! cl_updCh c = None ↔ cl_dead c = true ∨ (j, KClosed) ∈ kills L)) ∧
  (∀ t j p, kills L !! t = Some (j, p) → p ≠ KAbort → p ≠ KInactive → p ≠ KReturned →
     ∃ t' p' L', kills L !! t' = Some (j, p') ∧ kill_step t' L (Ret L')).
Proof.
  intros Hr Hb. destruct (life_reachable_inv L Hr Hb) as [Hi Hm]. split_and!.
  - intros t o. by apply kill_step_panics.
  - intros j c Hc. rewrite (li_chan _ Hi _ _ Hc). split; [done|]. by apply (li_open _ Hi).
  - intros t j p. by apply kill_progress.
Qed.

End life.

(** ** A concrete run *)

Module LifeDemo.
Import Demo ServerDemo.
#[local] Existing Instance ServerDemo.trial.

Abbreviation demo_life := (life (C := masseyOmuraCrypto)) (only parsing).

Definition demo_conf : ClientConfig := mkClientConfig 30 10.

(** An environment in which the server 0 is the leader and removes the client's
    server at once. *)
#[local] Instance calm_env : Environment unit (Op masseyOmuraCrypto) := {|
  env_killed w := (false, w);
  env_now w := (0, w);
  env_sleep _ w := w;
  env_others w := ([], w);
  call_SubmitOp _ _ w := (Some OK, w);
  call_InConfiguration _ _ w := (Some (mkInConfigurationReply false true), w);
  call_AddProvisional _ _ w := (Some (mkAddProvisionalReply AP_SUCCESS), w);
  call_AddRemove _ _ w := (Some (mkAddRemoveReply true AR_OK), w)
|}.

(** A client before and after [BecomeInactive]; its first [Kill] has closed the
    channel while a second one waits. *)
Definition demo_client (leav : bool) : client (C := masseyOmuraCrypto) :=
  mkClient alice demo_conf "0" newEliminationQueue (mkLast (st []) (-1) 5 5) 0
    (mkMembership false leav ["0"] 0) false.

Definition subscribed : Server (C := masseyOmuraCrypto) :=
  mkServer (st []) {[0 := [sm_update (st [])]]} 1 NewRespChannels.

Definition killed_twice : demo_life :=
  mkLife (mkServer (st []) ∅ 1 NewRespChannels) [demo_client true] [(0%nat, KClosed); (0%nat, KLock)] [st []].

(** Both calls have submitted their abort. *)
Lemma demo_aborted : life_reachable (W := unit) true
  (mkLife subscribed [demo_client false] [(0%nat, KInactive); (0%nat, KInactive)] [st []]).
Proof.
  pose (two p q := mkLife subscribed [demo_client false] [(0%nat, p); (0%nat, q)] [st []]).
  apply (lr_step _ (two KInactive KAbort)).
  2: { apply (l_killing _ 1), (k_abort true 1 subscribed [_] [_; _] [_] 0 (demo_client false) tt
         (Ret (mkMembership false false ["0"] 0))); by vm_compute. }
  apply (lr_step _ (two KAbort KAbort)).
  2: { apply (l_killing _ 0), (k_abort true 0 subscribed [_] [_; _] [_] 0 (demo_client false) tt
         (Ret (mkMembership false false ["0"] 0))); by vm_compute. }
  apply (lr_step _ (mkLife subscribed [demo_client false] [(0%nat, KAbort)] [st []]));
    [|apply (l_kill _ _ [_] [_] _ 0); simpl; lia].
  apply (lr_step _ (mkLife subscribed [demo_client false] [] [st []])); [|apply (l_kill _ _ [_] [] _ 0); simpl; lia].
  apply (lr_step _ (mkLife (mkServer (st []) ∅ 0 NewRespChannels) [] [] [st []]));
    [|apply (l_new _ _ [] [] [_] alice 5 "0" ["0"] demo_conf); by vm_compute].
  apply (lr_new _ (mkServer (st []) ∅ 0 NewRespChannels)). by vm_compute.
Qed.

(** Both have returned from [BecomeInactive]. *)
Lemma demo_inactive : life_reachable (W := unit) true
  (mkLife subscribed [demo_client true] [(0%nat, KLock); (0%nat, KLock)] [st []]).
Proof.
  apply (lr_step _ (mkLife subscribed [demo_client true] [(0%nat, KLock); (0%nat, KInactive)] [st []])).
  2: { apply (l_killing _ 1), (k_inactive true 1 subscribed [_] [_; _] [_] 0 (demo_client true) 3 tt
         (Ret (mkMembership false true ["0"] 0))); by vm_compute. }
  eapply lr_step; [apply demo_aborted|].
  apply (l_killing _ 0), (k_inactive true 0 subscribed [_] [_; _] [_] 0 (demo_client false) 3 tt
    (Ret (mkMembership false true ["0"] 0))); by vm_compute.
Qed.

Lemma killed_twice_reachable : life_reachable (W := unit) true killed_twice.
Proof.
  apply (lr_step _ (mkLife subscribed [demo_client true] [(0%nat, KLocked); (0%nat, KLock)] [st []]));
    [|apply (l_killing _ 0), (k_close true 0 subscribed [_] [_; _] [_] 0 (demo_client true)
        (Ret (mkServer (st []) ∅ 1 NewRespChannels))); by vm_compute].
  eapply lr_step; [apply demo_inactive|].
  apply (l_killing _ 0), (k_lock true 0 _ [_] [_; _] _ 0 (demo_client true)); [done..|].
  intros p [[= ->]|[[= ->]|[]%elem_of_nil]%elem_of_cons]%elem_of_cons; by intros [?|?].
Qed.

(** The waiting call does not block for ever, and no step panics. *)
Lemma kill_closes_once_witness :
  (∃ t p L', kills killed_twice !! t = Some (0%nat, p) ∧ kill_step (W := unit) true t killed_twice (Ret L')) ∧
  updChs (server killed_twice) !! 0 = None ∧
  ∀ t o, kill_step (W := unit) true t killed_twice o → ∃ L', o = Ret L'.
Proof.
  assert (∀ w : unit, Forall other_proper (env_others w).1) as Ho by (intros w; apply Forall_nil_2).
  destruct (kill_closes_once (W := unit) true Ho killed_twice killed_twice_reachable
    ltac:(split; by vm_compute)) as (Hp & H1 & H2).
  split; [by apply (H2 1%nat 0%nat KLock)|]. split.
  - apply (H1 0%nat (demo_client true) eq_refl). right. by left.
  - intros t o Hs. destruct (Hp t o Hs) as [?|(_ & j & c & _ & _ & l & w & r & [= <-] & E)]; [done|]. discriminate E.
Defined.

End LifeDemo.

(** ** Initialisation of the package *)

(** [binary.LittleEndian.Uint64]. *)
Definition LittleEndian_Uint64 (b : list byte) : Z := SetBytes (reverse b).

(** [init]: the seed of math/rand from eight random bytes; [err] tells whether
    reading them failed, in which case only an assertion objects. *)
Definition init_seed (debug : bool) (b : list byte) (err : bool) : outcome Z :=
  (if err then assertf debug false else Ret tt) ;; Ret (wrap64 (LittleEndian_Uint64 b)).

Lemma wrap64_inj a b : 0 ≤ a < 2 ^ 64 → 0 ≤ b < 2 ^ 64 → wrap64 a = wrap64 b → a = b.
Proof.
  intros Ha Hb Hw. rewrite <- (Z.mod_small a (2 ^ 64)), <- (Z.mod_small b (2 ^ 64)) by done.
  unfold wrap64 in Hw. assert ((a + 2 ^ 63) mod 2 ^ 64 = (b + 2 ^ 63) mod 2 ^ 64) as E by lia.
  replace a with (a + 2 ^ 63 - 2 ^ 63) by lia. replace b with (b + 2 ^ 63 - 2 ^ 63) by lia.
  by rewrite <- (Zminus_mod_idemp_l (a + _)), E, Zminus_mod_idemp_l.
Qed.

(** Seeding fails only if the random source does and assertions are enabled;
    every int64 can be the seed, for exactly one sequence of bytes. *)
Theorem init_seed_exact debug b b' :
  length b = 8%nat → length b' = 8%nat →
  (∃ z, init_seed debug b false = Ret z ∧ int_min ≤ z ≤ int_max) ∧
  (init_seed debug b false = init_seed debug b' false → b = b') ∧
  (init_seed debug b true = if debug then Panic AssertionError else init_seed debug b false).
Proof.
  intros Hb Hb'.
  assert (∀ l, length l = 8%nat → 0 ≤ LittleEndian_Uint64 l < 2 ^ 64) as Hr.
  { intros l Hl. unfold LittleEndian_Uint64. pose proof (SetBytes_range (reverse l)) as Hs.
    rewrite length_reverse, Hl in Hs. exact Hs. }
  split_and!.
  - eexists. split; [reflexivity|]. apply wrap64_range.
  - intros [= E%wrap64_inj]; [|by apply Hr..]. apply SetBytes_inj in E; [|by rewrite !length_reverse, Hb, Hb'].
    by apply (inj reverse).
  - by destruct debug.
Qed.

Lemma init_seed_exact_witness :
  init_seed true (Byte.x01 :: replicate 7 Byte.x00) false = Ret 1 ∧
  init_seed true (Byte.x01 :: replicate 7 Byte.x00) true = Panic AssertionError.
Proof.
  split; [by vm_compute|].
  by destruct (init_seed_exact true (Byte.x01 :: replicate 7 Byte.x00) (replicate 8 Byte.x00)) as (_ & _ & E).
Defined.
