(* ===== verification/MembershipLive.v ===== *)
(** * Requests under a stable leader

    A cluster with a stable, reachable leader as an environment of Membership:
    the remote calls are served by the handlers of Raft, on any implementation
    of the Raft interface that satisfies [StableLeadership].  In such a cluster the
    client's requests find the leader, whatever the other servers answer.  If the
    leader also carries out changes promptly ([PromptChanges], which the interface
    does not promise), joining and leaving terminate. *)

From stdpp Require Import gmap strings.
From S2P Require Import Prelude Bytes Crypto Op StateMachine RoundSpec StateMachineProps.
From S2P Require Import Client LastStateMachine ClientLoop RespChannels Server ServerProps Raft Membership.

Local Open Scope Z_scope.

(** ** Total correctness *)

Definition wp {W A} (c : IO W A) (Q : A → W → membership → Prop) (w : W) (m : membership) : Prop :=
  match c w m with Done a w' m' => Q a w' m' | _ => False end.

Lemma wp_bind {W A B} (c : IO W A) (f : A → IO W B) Q w m :
  wp c (fun a => wp (f a) Q) w m → wp (a ← c; f a) Q w m.
Proof. unfold wp, mbind, IO_bind. by destruct (c w m). Qed.

Lemma wp_mono {W A} (c : IO W A) (Q Q' : A → W → membership → Prop) w m :
  (∀ a w m, Q a w m → Q' a w m) → wp c Q w m → wp c Q' w m.
Proof. unfold wp. destruct (c w m); auto. Qed.

(** A loop whose iterations decrease a measure ends before its fuel does. *)
Lemma wp_loop {W St} (I : nat → St → W → membership → Prop) (Q : St → W → membership → Prop) cond body :
  (∀ k s w m, I k s w m → wp cond (fun b w m =>
     if b : bool then
       wp (body s) (fun r w m => if r.1 : bool then ∃ k', (k' < k)%nat ∧ I k' r.2 w m else Q r.2 w m) w m
     else Q s w m) w m) →
  ∀ n k s w m, (k < n)%nat → I k s w m → wp (loop (W := W) n cond body s) Q w m.
Proof.
  intros Hstep n. induction n as [|n IH]; intros k s w m Hk Hs; [lia|].
  cbn [loop]. apply wp_bind. eapply wp_mono; [|by apply Hstep]. simpl. clear w m Hs.
  intros b w m. destruct b; [|done]. intros Hb. apply wp_bind. eapply wp_mono; [|exact Hb]. simpl.
  intros [[] s'] w1 m1; simpl; [|done]. intros (k' & Hk' & HI). apply (IH k'); [lia|done].
Qed.

(** ** A cluster with a stable leader *)

Definition current {R Cmd} `{Raft R Cmd} (r : R) : Config := (rf_GetCurrentConfiguration r).2.
Definition provisional {R Cmd} `{Raft R Cmd} (r : R) : Config := (rf_GetProvisionalConfiguration r).2.
Definition is_member (s : string) (conf : Config) : bool :=
  match conf !! s with Some _ => true | None => false end.

(** A stable period, in which one instance leads: it says so, and it is a member of
    the configuration it reports. *)
Class StableLeadership {R Cmd : Type} `{Raft R Cmd} (leader : string) (maxServers : nat) (ok : R → Prop) := {
  sl_leads r : ok r → (rf_GetCurrentConfiguration r).1 = true ∧ (rf_GetProvisionalConfiguration r).1 = true;
  sl_size r : ok r → (size (current r) ≤ maxServers)%nat;
  sl_self r : ok r → is_member leader (current r) = true
}.

(** A leader that carries out the changes which the server [s] requests.  The
    interface of Raft (src/libraft/raft.go) promises none of this: the class is a
    sufficient condition for the termination of [BecomeActive] and
    [BecomeInactive], met by an implementation whose answers reflect its
    configuration at once, and it does not speak of the removal of the leader's
    own server.  [busy] bounds the transient errors still to come: the entry that a
    new leader must commit first, a concurrent change, a server catching up. *)
Class PromptChanges {R Cmd : Type} `{Raft R Cmd} (s leader : string) (ok : R → Prop) (busy : R → nat) := {
  sl_provisional r z err r' :
    ok r → rf_AddProvisional s r = ((z, err), r') →
    ok r' ∧ err ≠ AP_NOT_LEADER ∧ (busy r' ≤ busy r)%nat ∧ current r' = current r ∧
    (err = AP_ALREADY_IN_CONFIGURATION ↔ is_member s (current r) = true) ∧
    (is_member s (current r) = false → is_member s (provisional r') = true);
  sl_add r err r' :
    ok r → is_member s (provisional r) || is_member s (current r) = true → rf_AddServer s r = (err, r') →
    ok r' ∧ (busy r' ≤ busy r)%nat ∧
    ((err = AR_OK ∨ err = AR_ALREADY_COMPLETE) ∧ is_member s (current r') = true ∨
     (err = AR_NEW_LEADER ∨ err = AR_CONCURRENT_CHANGE ∨ err = AR_NOT_CAUGHT_UP) ∧
     (busy r' < busy r)%nat ∧ current r' = current r ∧
     (is_member s (provisional r) = true → is_member s (provisional r') = true));
  sl_remove r err r' :
    s ≠ leader → ok r → rf_RemoveServer s r = (err, r') →
    ok r' ∧ (busy r' ≤ busy r)%nat ∧
    ((err = AR_OK ∨ err = AR_ALREADY_COMPLETE) ∧ is_member s (current r') = false ∨
     (err = AR_NEW_LEADER ∨ err = AR_CONCURRENT_CHANGE) ∧ (busy r' < busy r)%nat)
}.

Section cluster.
Context {R Cmd : Type} `{Raft R Cmd}.
(** [me] is the client's server; [latency] counts the critical sections until
    its configuration update arrives; [tick] is the time between two reads of
    the clock; [silent] servers do not answer, the others know that they do not
    lead but may hold any belief about the configuration.  The leader commits
    every operation it is asked to submit. *)
Context (me leader : string) (latency : nat) (tick : Z) (silent believes : string → bool).

Record cluster := mkCluster { leader_raft : R; clock : Z; update : option nat }.

Definition denied {A} (s : string) (denial : A) : option A := if silent s then None else Some denial.

Definition cluster_others (w : cluster) : list other * cluster :=
  match update w with
  | None => ([], w)
  | Some O => ([OtherConfiguration (current (leader_raft w))], mkCluster (leader_raft w) (clock w) None)
  | Some (S k) => ([], mkCluster (leader_raft w) (clock w) (Some k))
  end.

Definition with_raft (r : R) (w : cluster) : cluster := mkCluster r (clock w) (update w).

#[export] Instance cluster_env : Environment cluster Cmd := {|
  env_killed w := (false, w);
  env_now w := (clock w, mkCluster (leader_raft w) (clock w + tick) (update w));
  env_sleep d w := mkCluster (leader_raft w) (clock w + d) (update w);
  env_others := cluster_others;
  call_SubmitOp s op w :=
    if bool_decide (s = leader) then (Some OK, w) else (denied s ErrWrongLeader, w);
  call_InConfiguration s args w :=
    if bool_decide (s = leader) then (Some (InConfiguration args (leader_raft w)), w)
    else (denied s (mkInConfigurationReply (believes s) false), w);
  call_AddProvisional s args w :=
    if bool_decide (s = leader) then
      let '(reply, r) := AddProvisional args (leader_raft w) in (Some reply, with_raft r w)
    else (denied s (mkAddProvisionalReply AP_NOT_LEADER), w);
  call_AddRemove s args w :=
    if bool_decide (s = leader) then
      let '(reply, r) := AddRemove args (leader_raft w) in
      (Some reply,
       mkCluster r (clock w)
         (if negb (is_member me (current (leader_raft w))) && is_member me (current r)
          then Some latency else update w))
    else (denied s (mkAddRemoveReply false AR_NOT_LEADER), w)
|}.

(** ** Invariants *)

Context (debug : bool) (maxServers : nat) (ok : R → Prop).
Context `{!StableLeadership leader maxServers ok}.
Context (Hmax : Z.of_nat maxServers ≤ int_max).

Definition member (w : cluster) : bool := is_member me (current (leader_raft w)).
Definition pend (w : cluster) : nat := match update w with None => O | Some k => S k end.

Record inv (w : cluster) (m : membership) : Prop := {
  inv_ok : ok (leader_raft w);
  inv_leader : leader ∈ currConf m;
  inv_index : 0 ≤ lastKnownLeaderInd m < Z.of_nat (length (currConf m));
  inv_size : (length (currConf m) ≤ maxServers)%nat;
  inv_pend : (pend w ≤ S latency)%nat
}.

(** Updates on their way to a member tell it so. *)
Definition upd_ok (w : cluster) : Prop := update w ≠ None → member w = true.

(** A member is active or will be told so. *)
Definition act_ok (w : cluster) (m : membership) : Prop :=
  member w = true → active m = true ∨ update w ≠ None.

(** What may happen while the leader's Raft is not changed. *)
Record frame (w : cluster) (m : membership) (w' : cluster) (m' : membership) : Prop := {
  fr_raft : leader_raft w' = leader_raft w;
  fr_clock : clock w ≤ clock w';
  fr_pend : (pend w' ≤ pend w)%nat;
  fr_inv : inv w' m';
  fr_upd : upd_ok w → upd_ok w';
  fr_active : upd_ok w → active m = true → active m' = true;
  fr_inactive : member w = false → active m = false → active m' = false;
  fr_act_ok : upd_ok w → act_ok w m → act_ok w' m'
}.

Lemma frame_refl w m : inv w m → frame w m w m.
Proof. by split. Qed.

Lemma frame_trans w1 m1 w2 m2 w3 m3 : frame w1 m1 w2 m2 → frame w2 m2 w3 m3 → frame w1 m1 w3 m3.
Proof.
  intros [R1 C1 P1 I1 U1 A1 N1 O1] [R2 C2 P2 I2 U2 A2 N2 O2].
  split; [congruence|lia|lia|done|auto|auto| |auto].
  intros Hm Ha. apply N2; [unfold member in *; by rewrite R1|auto].
Qed.

Lemma frame_member w m w' m' : frame w m w' m' → member w' = member w.
Proof. intros Hf. unfold member. by rewrite (fr_raft _ _ _ _ Hf). Qed.

(** Only the clock moves. *)
Lemma frame_clock w m t : inv w m → clock w ≤ t → frame w m (mkCluster (leader_raft w) t (update w)) m.
Proof. intros [] Ht. by split. Qed.

(** ** Other goroutines *)

Lemma is_member_mapToSlice s conf : is_member s conf = true → s ∈ mapToSlice conf.
Proof.
  unfold is_member, mapToSlice. destruct (conf !! s) as [b|] eqn:E; [|done]. intros _.
  change (map fst) with (fmap (M := list) (@fst string bool)).
  apply list_elem_of_fmap. exists (s, b). split; [done|]. by apply elem_of_map_to_list.
Qed.

Lemma others_frame w m : inv w m →
  ∃ m', apply_others debug me (cluster_others w).1 m = Ret m' ∧
    frame w m (cluster_others w).2 m' ∧
    (update w = None → (cluster_others w).2 = w ∧ m' = m) ∧
    (update w ≠ None → (pend (cluster_others w).2 < pend w)%nat).
Proof.
  intros Hi. pose proof Hi as [Iok Ilead Iidx Isz Ipend]. unfold cluster_others.
  unfold pend in *. destruct (update w) as [[|k]|] eqn:E; simpl.
  - pose proof (is_member_mapToSlice _ _ (sl_self _ Iok)) as Hin.
    pose proof (sl_size _ Iok) as Hsz. rewrite <- length_mapToSlice in Hsz.
    assert (0 < length (mapToSlice (current (leader_raft w))))%nat as Hlen
      by (destruct (mapToSlice _); [by apply elem_of_nil in Hin|simpl; lia]).
    assert (∃ m', setConfiguration debug me (current (leader_raft w)) m = Ret m' ∧
      currConf m' = mapToSlice (current (leader_raft w)) ∧ lastKnownLeaderInd m' = 0 ∧
      active m' = member w) as (m' & -> & Hc & Hx & Ha).
    { unfold setConfiguration, member, is_member. destruct (current (leader_raft w) !! me);
        (rewrite bool_decide_true, assertf_true by done); simpl; eexists; done. }
    exists m'. split; [done|]. split_and!; [|done|lia].
    assert (upd_ok w → member w = true) as Hup by (intros Hu; apply Hu; by rewrite E).
    split; simpl; [done|done|unfold pend; simpl; lia| |by intros _ []|by rewrite Ha; auto|by rewrite Ha|].
    + split; simpl; rewrite ?Hc, ?Hx; try done; [lia|unfold pend; simpl; lia].
    + intros Hu _ _. left. rewrite Ha. by auto.
  - exists m. split; [done|]. split_and!; [|done|unfold pend; simpl; lia].
    split; simpl; [done|done|unfold pend; rewrite E; simpl; lia| | |done|done|].
    + split; simpl; try done; unfold pend; simpl; lia.
    + unfold upd_ok. rewrite E. simpl. intros Hu _. by apply Hu.
    + unfold act_ok. rewrite E. intros _ _ _. by right.
  - exists m. split; [done|]. split_and!; [by apply frame_refl|done|done].
Qed.

Lemma wp_locked {A} (f : membership → outcome (A * membership)) Q w m :
  inv w m →
  (∀ w' m', frame w m w' m' → (update w = None → w' = w ∧ m' = m) →
     (update w ≠ None → (pend w' < pend w)%nat) → ∃ a m'', f m' = Ret (a, m'') ∧ Q a w' m'') →
  wp (locked debug me f) Q w m.
Proof.
  intros Hi Hf. destruct (others_frame w m Hi) as (m' & Ho & Hfr & Hn & Hs).
  unfold wp, locked. change (env_others w) with (cluster_others w).
  destruct (cluster_others w) as [os w'] eqn:E. simpl in *. rewrite Ho. simpl.
  destruct (Hf w' m' Hfr Hn Hs) as (a & m'' & -> & HQ). done.
Qed.

(** ** Finding the leader *)

(** The leader is [k] servers ahead of the presumed one. *)
Definition near (k : nat) (m : membership) : Prop :=
  currConf m !! Z.to_nat ((lastKnownLeaderInd m + Z.of_nat k) mod Z.of_nat (length (currConf m)))
  = Some leader.

Lemma near_exists w m : inv w m → ∃ k, (k < length (currConf m))%nat ∧ near k m.
Proof.
  intros [_ Hin [Hi0 Hi1] _ _]. apply list_elem_of_lookup_1 in Hin as [j Hj].
  pose proof (lookup_lt_Some _ _ _ Hj) as Hlt.
  exists (Z.to_nat ((Z.of_nat j - lastKnownLeaderInd m) mod Z.of_nat (length (currConf m)))).
  pose proof (Z.mod_pos_bound (Z.of_nat j - lastKnownLeaderInd m) (Z.of_nat (length (currConf m)))).
  split; [lia|]. unfold near. rewrite Z2Nat.id, Z.add_mod_idemp_r by lia.
  replace (lastKnownLeaderInd m + (Z.of_nat j - lastKnownLeaderInd m)) with (Z.of_nat j) by lia.
  by rewrite Z.mod_small, Nat2Z.id by lia.
Qed.

Lemma potentialLeader_valid w m : inv w m → ∃ s, potentialLeader m = Ret s ∧ (near 0 m → s = leader).
Proof.
  intros [_ _ [Hi0 Hi1] _ _]. unfold potentialLeader, slice_get, near.
  rewrite (proj2 (Z.ltb_ge _ _)), Z.add_0_r, Z.mod_small by lia.
  destruct (lookup_lt_is_Some_2 (currConf m) (Z.to_nat (lastKnownLeaderInd m))) as [s Hs]; [lia|].
  rewrite Hs. exists s. split; [done|]. by intros [= ->].
Qed.

Lemma updateLeader_valid w m : inv w m → ∃ m', updateLeader m = Ret m' ∧ inv w m' ∧
  active m' = active m ∧ currConf m' = currConf m ∧ ∀ k, near (S k) m → near k m'.
Proof.
  intros [Iok Ilead [Hi0 Hi1] Isz Ipend]. unfold updateLeader.
  destruct (currConf m) as [|s ss] eqn:Hc; [simpl in Hi1; lia|]. rewrite <- Hc in *.
  unfold int_max in Hmax. rewrite wrap64_id by (unfold int_min, int_max; lia).
  rewrite Z.rem_mod_nonneg by lia. eexists. split; [done|].
  pose proof (Z.mod_pos_bound (lastKnownLeaderInd m + 1) (Z.of_nat (length (currConf m)))).
  split_and!; [split; simpl; (done || lia)|done|done|].
  intros k. unfold near. simpl. rewrite Z.add_mod_idemp_l by lia.
  by replace (lastKnownLeaderInd m + 1 + Z.of_nat k) with (lastKnownLeaderInd m + Z.of_nat (S k)) by lia.
Qed.

Lemma frame_updateLeader w m m' :
  inv w m → inv w m' → active m' = active m → frame w m w m'.
Proof. intros Hi Hi' E. split; rewrite ?E; try done. unfold act_ok. by rewrite E. Qed.

(** The search for the leader ends after [mu] retries at most. *)
Definition searching (mu : nat) (w : cluster) (m : membership) : Prop :=
  inv w m ∧ ∃ k, (k < length (currConf m))%nat ∧ near k m ∧ mu = (pend w * S maxServers + k)%nat.

Definition search_bound : nat := S (S latency) * S maxServers.

Lemma searching_exists w m : inv w m → ∃ mu, searching mu w m ∧ (mu < search_bound)%nat.
Proof.
  intros Hi. destruct (near_exists _ _ Hi) as (k & Hk & Hn). pose proof Hi as [_ _ _ Hs Hp].
  eexists. split; [split; [done|]; by eauto|]. unfold search_bound. nia.
Qed.

Lemma searching_clock mu w m t :
  searching mu w m → searching mu (mkCluster (leader_raft w) t (update w)) m.
Proof. intros [[] (k & Hk & Hn & ->)]. split; [by split|]. by exists k. Qed.

Lemma wp_nextLeader (Q : unit → cluster → membership → Prop) w m :
  inv w m →
  (∀ w' m', frame w m w' m' →
     (update w = None → w' = w ∧ currConf m' = currConf m ∧ ∀ k, near (S k) m → near k m') → Q tt w' m') →
  wp (nextLeader debug me) Q w m.
Proof.
  intros Hi HQ. apply wp_locked; [done|]. intros w' m' Hf Hn Hs.
  destruct (updateLeader_valid w' m' (fr_inv _ _ _ _ Hf)) as (m2 & -> & Hi2 & Ha & Hc & Hk).
  exists tt, m2. split; [done|]. apply HQ.
  - eapply frame_trans; [done|]. apply frame_updateLeader; [by eapply fr_inv|done..].
  - intros E. destruct (Hn E) as [-> ->]. done.
Qed.

(** One attempt: the answer comes from the leader, or the search advances. *)
Lemma wp_attempt {A St} (rpc : string → cluster → option A * cluster) (K : option A → IO cluster (bool * St))
    (Q : bool * St → cluster → membership → Prop) mu w m :
  searching mu w m →
  (∀ s w', s ≠ leader → ∃ d v, rpc s w' = (d, w') ∧
     ∃ J, K d = (nextLeader debug me ;; J) ∧ ∀ w1 m1, ∃ t, clock w1 ≤ t ∧
       J w1 m1 = Done (true, v) (mkCluster (leader_raft w1) t (update w1)) m1) →
  (∀ w' m' v mu', frame w m w' m' → (mu' < mu)%nat → searching mu' w' m' → Q (true, v) w' m') →
  (∀ w' m', frame w m w' m' → potentialLeader m' = Ret leader →
     wp (reply ← call (rpc leader); K reply) Q w' m') →
  wp (l ← presumedLeader debug me; reply ← call (rpc l); K reply) Q w m.
Proof.
  intros [Hi (k & Hk & Hn & ->)] Hdeny Hretry Hlead. apply wp_bind, wp_locked; [done|].
  intros w1 m1 Hf1 Hnone1 Hsome1. pose proof (fr_inv _ _ _ _ Hf1) as Hi1.
  destruct (potentialLeader_valid _ _ Hi1) as (s & Hp & Hs). rewrite Hp. exists s, m1. split; [done|].
  destruct (decide (s = leader)) as [->|Hne]; [by apply Hlead|].
  destruct (Hdeny s w1 Hne) as (d & v & Hd & J & HK & HJ).
  apply wp_bind. unfold wp at 1, call. rewrite Hd, HK.
  apply wp_bind, wp_nextLeader; [done|]. intros w2 m2 Hf2 Hnone2. pose proof (fr_inv _ _ _ _ Hf2) as Hi2.
  assert (∃ mu', (mu' < pend w * S maxServers + k)%nat ∧ searching mu' w2 m2) as (mu' & Hmu & Hse).
  { destruct (update w) as [j|] eqn:E.
    - destruct (near_exists _ _ Hi2) as (k2 & Hk2 & Hn2). pose proof (inv_size _ _ Hi2).
      specialize (Hsome1 ltac:(done)). pose proof (fr_pend _ _ _ _ Hf2).
      exists (pend w2 * S maxServers + k2)%nat. split; [nia|]. split; [done|]. by exists k2.
    - destruct (Hnone1 eq_refl) as [-> ->]. destruct k as [|k]; [by destruct Hne; apply Hs|].
      destruct (Hnone2 E) as (-> & Hc & Hnear). exists (pend w * S maxServers + k)%nat. split; [lia|].
      split; [done|]. exists k. split_and!; [rewrite Hc; lia|by apply Hnear|done]. }
  destruct (HJ w2 m2) as (t & Ht & HJ'). unfold wp. rewrite HJ'.
  apply (Hretry _ _ _ mu'); [|done|by apply searching_clock].
  eapply frame_trans; [exact Hf1|]. eapply frame_trans; [exact Hf2|]. apply frame_clock; [done|lia].
Qed.

(** ** Questions to the leader *)

(** Closes the description of a denied request. *)
Ltac deny s :=
  rewrite ?bool_decide_false by done; unfold denied; destruct (silent s);
  eexists _, _; (split; [reflexivity|]); eexists; (split; [reflexivity|]);
  intros [] ?; eexists; (split; [|reflexivity]); simpl; unfold Millisecond; lia.



(** What the leader knows about the client's server. *)
Definition answer (isProvisionalReq : bool) (w : cluster) : bool :=
  is_member me (if isProvisionalReq then provisional (leader_raft w) else current (leader_raft w)).

Lemma frame_answer prov w m w' m' : frame w m w' m' → answer prov w' = answer prov w.
Proof. intros Hf. unfold answer. by rewrite (fr_raft _ _ _ _ Hf). Qed.

Lemma getMembership_spec n prov w m :
  inv w m → (search_bound ≤ n)%nat →
  wp (getMembership debug me n prov) (fun b w' m' => frame w m w' m' ∧ b = answer prov w) w m.
Proof.
  intros Hi Hn. destruct (searching_exists _ _ Hi) as (mu & Hs & Hmu).
  apply (wp_loop (fun mu _ w' m' => searching mu w' m' ∧ frame w m w' m')) with (k := mu);
    [|lia|by split; [|apply frame_refl]].
  intros k s w1 m1 [Hs1 Hf1]. unfold wp at 1, alive. simpl.
  eapply wp_attempt; [done| | |].
  - intros s' w' Hs'. simpl. deny s'.
  - intros w' m' v mu' Hf Hlt Hse. simpl. exists mu'. split; [done|]. split; [done|]. by eapply frame_trans.
  - intros w' m' Hf _. unfold wp, call, mbind, IO_bind. simpl. rewrite bool_decide_true by done.
    pose proof (fr_inv _ _ _ _ Hf) as Hi'. pose proof (frame_trans _ _ _ _ _ _ Hf1 Hf) as Hf'.
    destruct (sl_leads _ (inv_ok _ _ Hi')) as [Hl1 Hl2]. unfold InConfiguration.
    destruct prov; simpl;
      [destruct (rf_GetProvisionalConfiguration _) as [b conf] eqn:E
      |destruct (rf_GetCurrentConfiguration _) as [b conf] eqn:E]; simpl in *; subst b; simpl;
      (split; [done|]); unfold answer, provisional, current; rewrite <- (fr_raft _ _ _ _ Hf');
      by rewrite E.
Qed.


(** ** Changes of the configuration *)

Context (busy : R → nat) `{!PromptChanges me leader ok busy} (Htick : 0 < tick < Second).

Lemma checkMembership_spec n prov w m :
  inv w m → (search_bound ≤ n)%nat → (Z.to_nat Second < n)%nat →
  wp (checkMembership debug me n (1 * Second) prov)
    (fun b w' m' => frame w m w' m' ∧ b = answer prov w) w m.
Proof.
  intros Hi Hn Ht. apply wp_bind. unfold wp at 1, now. simpl.
  apply (wp_loop (fun k b w' m' => b = false ∧ frame w m w' m' ∧
      k = Z.to_nat (clock w + Second - clock w') ∧
      (answer prov w = false ∨ clock w' = clock w + tick)))
    with (k := Z.to_nat (Second - tick)); [|lia|].
  - intros k b w1 m1 (-> & Hf1 & -> & Ha). apply wp_bind. unfold wp at 1, alive. simpl.
    unfold wp at 1, mbind, IO_bind, now, mret, IO_ret. simpl.
    pose proof (fr_inv _ _ _ _ Hf1) as Hi1.
    assert (frame w m (mkCluster (leader_raft w1) (clock w1 + tick) (update w1)) m1) as Hf2
      by (eapply frame_trans; [done|]; apply frame_clock; [done|lia]).
    destruct (clock w1 - clock w <? 1 * Second) eqn:E; bool_to_prop.
    + apply wp_bind. eapply wp_mono; [|apply getMembership_spec; [by eapply fr_inv|done]].
      intros b w3 m3 [Hf3 ->]. pose proof (frame_trans _ _ _ _ _ _ Hf2 Hf3) as Hf.
      rewrite (frame_answer prov _ _ _ _ Hf2).
      destruct (answer prov w) eqn:Hans; unfold wp, mret, IO_ret; simpl; [done|].
      eexists. split; [|by split_and!; [..|left]].
      pose proof (fr_clock _ _ _ _ Hf3) as Hc. simpl in Hc. lia.
    + split; [done|]. destruct Ha as [->|Ha]; [done|lia].
  - split_and!; [done|apply frame_clock; [done|lia]|simpl; f_equal; lia|by right].
Qed.

(** ** Becoming provisional *)

(** The leader knows the client's server. *)
Record ready (w : cluster) (m : membership) : Prop := {
  rd_inv : inv w m;
  rd_upd : upd_ok w;
  rd_act : act_ok w m;
  rd_known : is_member me (provisional (leader_raft w)) || member w = true
}.

Lemma attemptProvisional_spec n w m :
  inv w m → upd_ok w → (search_bound ≤ n)%nat →
  wp (attemptProvisional debug me n) (fun b w' m' => inv w' m' ∧ upd_ok w' ∧ act_ok w' m' ∧
    (busy (leader_raft w') ≤ busy (leader_raft w))%nat ∧
    member w' = member w ∧
    (b = true → active m' = true ∧ member w = true) ∧
    (b = false → answer true w' = true)) w m.
Proof.
  intros Hi Hup Hn. destruct (searching_exists _ _ Hi) as (mu & Hs & Hmu).
  apply (wp_loop (fun mu _ w' m' => searching mu w' m' ∧ frame w m w' m')) with (k := mu);
    [|lia|by split; [|apply frame_refl]].
  intros k s w1 m1 [Hs1 Hf1]. unfold wp at 1, alive. simpl.
  eapply wp_attempt; [done| | |].
  - intros s' w' Hs'. simpl. deny s'.
  - intros w' m' v mu' Hf Hlt Hse. simpl. exists mu'. split; [done|]. split; [done|]. by eapply frame_trans.
  - intros w' m' Hf _. pose proof (fr_inv _ _ _ _ Hf) as Hi'.
    pose proof (frame_trans _ _ _ _ _ _ Hf1 Hf) as Hf'. pose proof (fr_upd _ _ _ _ Hf' Hup) as Hup'.
    pose proof (frame_member _ _ _ _ Hf') as Hmem.
    pose proof (fr_raft _ _ _ _ Hf') as Hraft.
    apply wp_bind. unfold wp at 1, call. simpl. rewrite bool_decide_true by done.
    unfold AddProvisional. simpl. destruct (rf_AddProvisional me (leader_raft w')) as [[z err] r'] eqn:E.
    destruct (sl_provisional _ _ _ _ (inv_ok _ _ Hi') E) as (Hok & Hnl & Hb & Hc & Hal & Hpr). simpl.
    rewrite (bool_decide_false (err = AP_NOT_LEADER)) by done.
    assert (inv (with_raft r' w') m') as Hi2 by (by destruct Hi').
    assert (member (with_raft r' w') = member w') as Hm2 by (unfold member; simpl; by rewrite Hc).
    assert (upd_ok (with_raft r' w')) as Hup2 by (unfold upd_ok; by rewrite Hm2).
    case_bool_decide as Ha.
    + apply wp_bind, wp_locked; [done|]. intros w2 m2 Hf2 _ _. eexists _, _. split; [done|].
      pose proof (fr_inv _ _ _ _ Hf2) as [Jok Jl Ji Js Jp].
      pose proof (fr_raft _ _ _ _ Hf2) as Er. simpl in Er.
      apply Hal in Ha. unfold wp, mret, IO_ret. simpl. split_and!; [by split|by eapply fr_upd|by intros _; left| | | |done].
      * rewrite Er, <- Hraft. done.
      * by rewrite (frame_member _ _ _ _ Hf2), Hm2.
      * intros _. split; [done|]. by rewrite <- Hmem.
    + assert (member w' = false) as Hnm by (apply not_true_iff_false; intros ?; by apply Ha, Hal).
      unfold wp, mret, IO_ret. simpl. split_and!; [done|done| | | |done|].
      * intros Ht. congruence.
      * by rewrite <- Hraft.
      * congruence.
      * intros _. unfold answer. simpl. by apply Hpr.
Qed.

Lemma addProvisional_spec n w m :
  inv w m → upd_ok w → (search_bound ≤ n)%nat → (Z.to_nat Second < n)%nat →
  wp (addProvisional debug me n) (fun _ w' m' => ready w' m' ∧
    (busy (leader_raft w') ≤ busy (leader_raft w))%nat) w m.
Proof.
  intros Hi Hup Hn Ht. apply (wp_loop (fun _ _ w' m' => w' = w ∧ m' = m)) with (k := 0%nat); [|lia|done].
  intros k [] w1 m1 [-> ->]. unfold wp at 1, alive. simpl. apply wp_bind.
  eapply wp_mono; [|by apply attemptProvisional_spec]. intros b w1 m1 (Hi1 & Hup1 & Ha1 & Hb1 & Hm1 & Htrue & Hfalse).
  destruct b.
  - destruct (Htrue eq_refl) as [Hact Hmem]. unfold wp, mret, IO_ret. simpl. split; [|done].
    split; [done..|]. by rewrite Hm1, Hmem, orb_true_r.
  - apply wp_bind. eapply wp_mono; [|by apply checkMembership_spec].
    intros b w2 m2 [Hf ->]. rewrite (Hfalse eq_refl). unfold wp, mret, IO_ret. simpl.
    rewrite (fr_raft _ _ _ _ Hf). split; [|done].
    split; [by eapply fr_inv|by eapply fr_upd|by eapply fr_act_ok|]. specialize (Hfalse eq_refl). unfold answer in Hfalse.
    by rewrite (fr_raft _ _ _ _ Hf), Hfalse.
Qed.

(** ** Joining *)

Record adv (w : cluster) (m : membership) (w' : cluster) (m' : membership) : Prop := {
  ad_ready : ready w' m';
  ad_busy : (busy (leader_raft w') ≤ busy (leader_raft w))%nat;
  ad_member : member w = true → member w' = true ∧ (pend w' ≤ pend w)%nat
}.

Lemma adv_trans w1 m1 w2 m2 w3 m3 : adv w1 m1 w2 m2 → adv w2 m2 w3 m3 → adv w1 m1 w3 m3.
Proof.
  intros [_ B1 M1] [R2 B2 M2]. split; [done|lia|]. intros [Hm Hp]%M1. apply M2 in Hm as [? ?].
  split; [done|lia].
Qed.

Lemma frame_ready w m w' m' : frame w m w' m' → ready w m → ready w' m'.
Proof.
  intros Hf [Hi Hu Ha Hk]. split; [by eapply fr_inv|by eapply fr_upd|by eapply fr_act_ok|].
  by rewrite (fr_raft _ _ _ _ Hf), (frame_member _ _ _ _ Hf).
Qed.

Lemma frame_adv w m w' m' : frame w m w' m' → ready w m → adv w m w' m'.
Proof.
  intros Hf Hr. split; [by eapply frame_ready|by rewrite (fr_raft _ _ _ _ Hf)|].
  rewrite (frame_member _ _ _ _ Hf). split; [done|]. by apply fr_pend in Hf.
Qed.

(** Sleeping before a retry. *)
Lemma ready_sleep w m d : ready w m → 0 ≤ d →
  let w' := mkCluster (leader_raft w) (clock w + d) (update w) in
  adv w m w' m ∧ ∃ mu, searching mu w' m ∧ (mu < search_bound)%nat.
Proof.
  intros Hr Hd. split; [apply frame_adv; [apply frame_clock; [by apply rd_inv|lia]|done]|].
  destruct (searching_exists _ _ (rd_inv _ _ Hr)) as (mu & Hs & Hmu).
  exists mu. split; [by apply searching_clock|done].
Qed.

(** What one [AddRemove] at the leader does. *)
Definition after_AddRemove (r' : R) (w : cluster) : cluster :=
  mkCluster r' (clock w)
    (if negb (member w) && is_member me (current r') then Some latency else update w).

Lemma AddRemove_added w m r' :
  ready w m → ok r' → (busy r' ≤ busy (leader_raft w))%nat → is_member me (current r') = true →
  adv w m (after_AddRemove r' w) m ∧ member (after_AddRemove r' w) = true.
Proof.
  intros [[Iok Il Ii Is Ip] Hu Ha Hk] Hok Hb Hm. unfold after_AddRemove. rewrite Hm, andb_true_r.
  split; [|done]. unfold act_ok, pend in *. destruct (member w) eqn:Hmw; simpl.
  - split; simpl; [|done|done]. split; [by split|intros _; exact Hm|by unfold act_ok; auto|].
    unfold member. simpl. by rewrite Hm, orb_true_r.
  - split; simpl; [|done|by rewrite Hmw]. split; [|intros _; exact Hm|by intros _; right|].
    + by split.
    + unfold member. simpl. by rewrite Hm, orb_true_r.
Qed.

Lemma AddRemove_transient w m r' :
  ready w m → ok r' → (busy r' < busy (leader_raft w))%nat → current r' = current (leader_raft w) →
  (is_member me (provisional (leader_raft w)) = true → is_member me (provisional r') = true) →
  adv w m (after_AddRemove r' w) m.
Proof.
  intros [[Iok Il Ii Is Ip] Hu Ha Hk] Hok Hb Hc Hp. unfold after_AddRemove. rewrite Hc.
  change (is_member me (current (leader_raft w))) with (member w). rewrite andb_negb_l.
  assert (member (mkCluster r' (clock w) (update w)) = member w) as Hm by (unfold member; simpl; by rewrite Hc).
  split; simpl; [|lia|by rewrite Hm].
  split; [by split|unfold upd_ok; by rewrite Hm|unfold act_ok; by rewrite Hm|].
  rewrite Hm. simpl. destruct (is_member me (provisional (leader_raft w))); [by rewrite Hp|].
  simpl in Hk. by rewrite Hk, orb_true_r.
Qed.

Lemma attemptAdd_spec n w m :
  ready w m → (S (busy (leader_raft w)) * search_bound ≤ n)%nat →
  wp (attemptAddRemove debug me n true) (fun err w' m' => adv w m w' m' ∧
    (err = AR_OK ∧ member w' = true ∨
     err = AR_NOT_CAUGHT_UP ∧ (busy (leader_raft w') < busy (leader_raft w))%nat)) w m.
Proof.
  intros Hr Hn. destruct (searching_exists _ _ (rd_inv _ _ Hr)) as (mu & Hs & Hmu).
  apply (wp_loop (fun k _ w' m' => adv w m w' m' ∧
      ∃ mu, searching mu w' m' ∧ (mu < search_bound)%nat ∧ k = (busy (leader_raft w') * search_bound + mu)%nat))
    with (k := (busy (leader_raft w) * search_bound + mu)%nat); [|lia|].
  2: { split; [|by eauto]. apply frame_adv; [by apply frame_refl, rd_inv|done]. }
  intros k s w1 m1 (Had & mu1 & Hs1 & Hmu1 & ->). unfold wp at 1, alive. simpl.
  eapply wp_attempt; [done| | |].
  - intros s' w' Hs'. simpl. deny s'.
  - intros w' m' v mu' Hf Hlt Hse. simpl. eexists. split; [|split; [|by exists mu'; split_and!; [|lia|]]].
    + rewrite (fr_raft _ _ _ _ Hf). lia.
    + eapply adv_trans; [done|]. apply frame_adv; [done|by apply ad_ready in Had].
  - intros w' m' Hf _. pose proof (adv_trans _ _ _ _ _ _ Had (frame_adv _ _ _ _ Hf (ad_ready _ _ _ _ Had))) as Had'.
    pose proof (ad_ready _ _ _ _ Had') as Hr'. pose proof (fr_raft _ _ _ _ Hf) as Er.
    apply wp_bind. unfold wp at 1, call. simpl. rewrite bool_decide_true by done.
    unfold AddRemove. simpl. destruct (rf_AddServer me (leader_raft w')) as [err r'] eqn:E.
    destruct (sl_add _ _ _ (inv_ok _ _ (rd_inv _ _ Hr')) (rd_known _ _ Hr') E) as (Hok & Hb & Hcase).
    fold (member w') (after_AddRemove r' w').
    destruct Hcase as [[Herr Hm]|(Herr & Hlt & Hc & Hp)].
    + destruct (AddRemove_added w' m' r' Hr' Hok Hb Hm) as [Hadd Hmem].
      assert (bool_decide (err = AR_OK) || bool_decide (err = AR_ALREADY_COMPLETE) = true) as ->
        by (destruct Herr; subst; done).
      unfold wp, mret, IO_ret. simpl. split; [by eapply adv_trans|]. left. done.
    + pose proof (AddRemove_transient w' m' r' Hr' Hok Hlt Hc Hp) as Htr.
      pose proof (adv_trans _ _ _ _ _ _ Had' Htr) as Hall.
      pose proof (ad_busy _ _ _ _ Had) as Hbusy.
      destruct (ready_sleep _ _ (50 * Millisecond) (ad_ready _ _ _ _ Hall)) as (Hsl & mu2 & Hs2 & Hmu2);
        [unfold Millisecond; lia|]. pose proof (adv_trans _ _ _ _ _ _ Hall Hsl) as Hall2.
      assert (busy r' * search_bound + mu2 < busy (leader_raft w1) * search_bound + mu1)%nat as Hdec
        by (rewrite Er in Hlt; nia).
      destruct Herr as [-> | [-> | ->]]; unfold wp, mret, IO_ret, mbind, IO_bind, sleep; simpl.
      * eexists. split; [exact Hdec|]. split; [exact Hall2|]. by exists mu2.
      * eexists. split; [exact Hdec|]. split; [exact Hall2|]. by exists mu2.
      * split; [done|]. right. split; [done|]. rewrite Er in Hlt. lia.
Qed.

Lemma addSelf_spec n w m :
  ready w m → (S (busy (leader_raft w)) * search_bound ≤ n)%nat → (Z.to_nat Second < n)%nat →
  wp (addSelf debug me n) (fun _ w' m' => adv w m w' m' ∧ (active m' = true ∨ update w' ≠ None)) w m.
Proof.
  intros Hr Hn Ht. assert (0 < search_bound)%nat as Hsb by (unfold search_bound; lia).
  apply (wp_loop (fun k _ w' m' => adv w m w' m' ∧ k = busy (leader_raft w')))
    with (k := busy (leader_raft w)); [|nia|].
  2: { split; [|done]. apply frame_adv; [by apply frame_refl, rd_inv|done]. }
  intros k [] w1 m1 [Had ->]. unfold wp at 1, alive. simpl. apply wp_bind.
  pose proof (ad_busy _ _ _ _ Had). eapply wp_mono; [|apply attemptAdd_spec; [by eapply ad_ready|nia]].
  intros err w2 m2 [Had2 Herr]. pose proof (adv_trans _ _ _ _ _ _ Had Had2) as Hall.
  rewrite bool_decide_false by (by destruct Herr as [[-> _]|[-> _]]).
  apply wp_bind, wp_locked; [by apply rd_inv, (ad_ready _ _ _ _ Had2)|].
  intros w3 m3 Hf3 _ _. eexists _, _. split; [done|].
  pose proof (adv_trans _ _ _ _ _ _ Hall (frame_adv _ _ _ _ Hf3 (ad_ready _ _ _ _ Had2))) as Hall3.
  destruct (active m3) eqn:Ha; [unfold wp, mret, IO_ret; simpl; by auto|].
  apply wp_bind. eapply wp_mono; [|apply checkMembership_spec; [by eapply fr_inv|nia|done]].
  intros b w4 m4 [Hf4 ->].
  pose proof (adv_trans _ _ _ _ _ _ Hall3 (frame_adv _ _ _ _ Hf4 (ad_ready _ _ _ _ Hall3))) as Hall4.
  change (answer false w3) with (member w3). pose proof (frame_member _ _ _ _ Hf3) as Hm3.
  unfold wp, mret, IO_ret. destruct (member w3) eqn:Em; simpl.
  - split; [done|]. apply (rd_act _ _ (ad_ready _ _ _ _ Hall4)). by rewrite (frame_member _ _ _ _ Hf4).
  - destruct Herr as [[_ Hm]|[_ Hlt]]; [congruence|]. eexists. split; [|by split].
    by rewrite (fr_raft _ _ _ _ Hf4), (fr_raft _ _ _ _ Hf3).
Qed.

(** Polling either sees the flag or brings the configuration update nearer. *)
Lemma pollActive_spec n start w m :
  ready w m → active m = true ∨ update w ≠ None → clock w < start + 2 * Second →
  (Z.to_nat (2 * Second) < n)%nat → start ≤ clock w →
  wp (pollActive debug me n true start (2 * Second)) (fun r w' m' => frame w m w' m' ∧
    (r = true ∧ active m' = true ∨ r = false ∧ update w ≠ None ∧ (pend w' < pend w)%nat)) w m.
Proof.
  intros Hr Hact Hc Hn Hst.
  apply (wp_loop (fun k r w' m' => r = false ∧ frame w m w' m' ∧ k = Z.to_nat (start + 2 * Second - clock w') ∧
      (w' = w ∧ m' = m ∨ update w ≠ None ∧ (pend w' < pend w)%nat)))
    with (k := Z.to_nat (start + 2 * Second - clock w)); [|lia|].
  2: { split_and!; [done|by apply frame_refl, rd_inv|done|by left]. }
  intros k r w1 m1 (-> & Hf1 & -> & Hp1). unfold wp at 1, mbind, IO_bind, now, mret, IO_ret. simpl.
  pose proof (fr_inv _ _ _ _ Hf1) as Hi1.
  assert (frame w1 m1 (mkCluster (leader_raft w1) (clock w1 + tick) (update w1)) m1) as Hf2
    by (apply frame_clock; [done|lia]).
  destruct (clock w1 - start <? 2 * Second) eqn:E; bool_to_prop.
  - apply wp_bind, wp_locked; [by eapply fr_inv|]. intros w3 m3 Hf3 _ Hsome. eexists _, _. split; [done|].
    pose proof (frame_trans _ _ _ _ _ _ Hf1 (frame_trans _ _ _ _ _ _ Hf2 Hf3)) as Hall.
    destruct (active m3) eqn:Ha; unfold wp, mret, IO_ret, mbind, IO_bind, sleep; simpl; [by auto|].
    eexists. split; [|split_and!; [done|eapply frame_trans; [exact Hall|]; apply frame_clock;
      [by eapply fr_inv|unfold Millisecond; lia]|done|]].
    + simpl. pose proof (fr_clock _ _ _ _ Hf3) as Hck. simpl in Hck. unfold Millisecond. lia.
    + right. pose proof (fr_pend _ _ _ _ Hf1) as Hp. simpl.
      assert (update w ≠ None) as Hu.
      { destruct Hact as [Hact|]; [|done]. apply (fr_active _ _ _ _ Hall (rd_upd _ _ Hr)) in Hact. congruence. }
      split; [done|]. destruct Hp1 as [[-> ->]|[_ Hlt]].
      * apply (Hsome Hu).
      * pose proof (fr_pend _ _ _ _ Hf3) as Hp3. unfold pend in *. simpl in *. lia.
  - split; [by eapply frame_trans|]. right. split; [done|]. destruct Hp1 as [[-> ->]|Hlt]; [lia|done].
Qed.

Lemma BecomeActive_spec n w m :
  inv w m → upd_ok w → (S (busy (leader_raft w)) * search_bound + Z.to_nat (2 * Second) < n)%nat →
  wp (BecomeActive debug me n) (fun _ w' m' => active m' = true ∧ inv w' m') w m.
Proof.
  intros Hi Hup Hn. assert (0 < search_bound ∧ S latency < search_bound)%nat as [Hsb Hlat]
    by (unfold search_bound; lia).
  assert (Z.to_nat Second < n)%nat as Ht by (unfold Second, Millisecond in *; lia).
  apply wp_bind. eapply wp_mono; [|apply addProvisional_spec; [done|done|nia|done]].
  intros _ w1 m1 [Hr1 Hb1].
  apply (wp_loop (fun k _ w' m' => ready w' m' ∧ (busy (leader_raft w') ≤ busy (leader_raft w))%nat ∧
      k = if member w' then pend w' else S (S latency)))
    with (k := if member w1 then pend w1 else S (S latency)); [| |done].
  2: { pose proof (inv_pend _ _ (rd_inv _ _ Hr1)). destruct (member w1); nia. }
  intros k [] w2 m2 (Hr2 & Hb2 & ->). unfold wp at 1, alive. simpl.
  apply wp_bind. eapply wp_mono; [|apply addSelf_spec; [done|nia|done]].
  intros _ w3 m3 [Had3 Hact]. pose proof (ad_ready _ _ _ _ Had3) as Hr3. pose proof (ad_busy _ _ _ _ Had3).
  apply wp_bind. unfold wp at 1, now. simpl. apply wp_bind.
  assert (frame w3 m3 (mkCluster (leader_raft w3) (clock w3 + tick) (update w3)) m3) as Hf4
    by (apply frame_clock; [by apply rd_inv|lia]).
  eapply wp_mono; [|apply pollActive_spec; [by eapply frame_ready|done|simpl; lia|lia|simpl; lia]].
  intros r w5 m5 [Hf5 Hr]. pose proof (frame_trans _ _ _ _ _ _ Hf4 Hf5) as Hf.
  pose proof (fr_inv _ _ _ _ Hf) as Hi5.
  unfold wp, mret, IO_ret. simpl. destruct Hr as [[-> Ha]|(-> & Hu & Hlt)]; simpl; [done|].
  eexists. split; [|split_and!; [by eapply frame_ready|rewrite (fr_raft _ _ _ _ Hf); lia|done]].
  simpl in Hu. pose proof (rd_upd _ _ Hr3 Hu) as Hm3.
  rewrite (frame_member _ _ _ _ Hf), Hm3.
  change (pend (mkCluster (leader_raft w3) (clock w3 + tick) (update w3))) with (pend w3) in Hlt.
  pose proof (inv_pend _ _ (rd_inv _ _ Hr3)). destruct (member w2) eqn:Hm2; [|lia].
  destruct (ad_member _ _ _ _ Had3 Hm2) as [_ Hp]. lia.
Qed.

(** ** Leaving *)

Lemma inv_flags w m a l : inv w m → inv w (mkMembership a l (currConf m) (lastKnownLeaderInd m)).
Proof. by intros []. Qed.

Lemma attemptRemove_spec n w m :
  me ≠ leader → inv w m → (S (busy (leader_raft w)) * search_bound ≤ n)%nat →
  wp (attemptAddRemove debug me n false) (fun err w' m' => inv w' m' ∧ err = AR_OK ∧ member w' = false) w m.
Proof.
  intros Hne Hi Hn. destruct (searching_exists _ _ Hi) as (mu & Hs & Hmu).
  apply (wp_loop (fun k _ w' m' => ∃ mu, searching mu w' m' ∧ (mu < search_bound)%nat ∧
      k = (busy (leader_raft w') * search_bound + mu)%nat))
    with (k := (busy (leader_raft w) * search_bound + mu)%nat); [|lia|by eauto].
  intros k s w1 m1 (mu1 & Hs1 & Hmu1 & ->). unfold wp at 1, alive. simpl.
  eapply wp_attempt; [done| | |].
  - intros s' w' Hs'. simpl. deny s'.
  - intros w' m' v mu' Hf Hlt Hse. simpl. eexists. split; [|by exists mu'; split_and!; [|lia|]].
    rewrite (fr_raft _ _ _ _ Hf). lia.
  - intros w' m' Hf _. pose proof (fr_inv _ _ _ _ Hf) as Hi'. pose proof (fr_raft _ _ _ _ Hf) as Er.
    apply wp_bind. unfold wp at 1, call. simpl. rewrite bool_decide_true by done.
    unfold AddRemove. simpl. destruct (rf_RemoveServer me (leader_raft w')) as [err r'] eqn:E.
    destruct (sl_remove _ _ _ Hne (inv_ok _ _ Hi') E) as (Hok & Hb & Hcase).
    fold (member w') (after_AddRemove r' w').
    assert (inv (after_AddRemove r' w') m') as Hi2.
    { destruct Hi'. split; try done. unfold after_AddRemove, pend in *. simpl.
      destruct (negb (member w') && is_member me (current r')); [lia|done]. }
    destruct Hcase as [[Herr Hm]|[Herr Hlt]].
    + assert (bool_decide (err = AR_OK) || bool_decide (err = AR_ALREADY_COMPLETE) = true) as ->
        by (destruct Herr; subst; done).
      unfold wp, mret, IO_ret. simpl. split_and!; [done|done|exact Hm].
    + destruct (searching_exists _ _ Hi2) as (mu2 & Hs2 & Hmu2).
      apply (searching_clock _ _ _ (clock w' + 50 * Millisecond)) in Hs2.
      assert (busy r' * search_bound + mu2 < busy (leader_raft w1) * search_bound + mu1)%nat as Hdec
        by (rewrite Er in Hlt; nia).
      destruct Herr as [-> | ->]; unfold wp, mret, IO_ret, mbind, IO_bind, sleep; simpl;
        (eexists; split; [exact Hdec|by exists mu2]).
Qed.

Lemma removeSelf_spec n w m :
  me ≠ leader → inv w m → (S (busy (leader_raft w)) * search_bound ≤ n)%nat →
  wp (removeSelf debug me n) (fun _ w' m' => inv w' m' ∧ member w' = false ∧ active m' = false) w m.
Proof.
  intros Hne Hi Hn. assert (0 < search_bound)%nat by (unfold search_bound; lia).
  apply (wp_loop (fun _ _ w' m' => w' = w ∧ m' = m)) with (k := 0%nat); [|nia|done].
  intros k [] w1 m1 [-> ->]. unfold wp at 1, alive. simpl. apply wp_bind.
  eapply wp_mono; [|by apply attemptRemove_spec]. intros err w1 m1 (Hi1 & -> & Hm1).
  rewrite bool_decide_false, bool_decide_true by done.
  apply wp_bind, wp_locked; [done|]. intros w2 m2 Hf2 _ _. eexists _, _. split; [done|].
  unfold wp, mret, IO_ret. simpl. split_and!; [|by rewrite (frame_member _ _ _ _ Hf2)|done].
  by apply inv_flags, (fr_inv _ _ _ _ Hf2).
Qed.

Lemma BecomeInactive_spec n w m :
  me ≠ leader → inv w m → (S (busy (leader_raft w)) * search_bound ≤ n)%nat →
  wp (BecomeInactive debug me n) (fun _ w' m' => active m' = false) w m.
Proof.
  intros Hne Hi Hn. assert (0 < search_bound)%nat by (unfold search_bound; lia).
  apply wp_bind, wp_locked; [done|]. intros w1 m1 Hf1 _ _. eexists _, _. split; [done|].
  pose proof (inv_flags _ _ (active m1) true (fr_inv _ _ _ _ Hf1)) as Hi1.
  apply (wp_loop (fun _ _ w' m' => inv w' m' ∧ leader_raft w' = leader_raft w)) with (k := 0%nat);
    [|nia|by split; [|apply (fr_raft _ _ _ _ Hf1)]].
  intros k [] w2 m2 [Hi2 Hr2]. unfold wp at 1, alive. simpl. apply wp_bind.
  eapply wp_mono; [|apply removeSelf_spec; [done|done|by rewrite Hr2]]. intros _ w3 m3 (Hi3 & Hm3 & Ha3).
  apply wp_bind. unfold wp at 1, now. simpl. apply wp_bind.
  eapply wp_mono with (Q := fun r w' m' => r = true ∧ active m' = false);
    [intros r w5 m5 [-> Ha]; unfold wp, mret, IO_ret; simpl; done|].
  apply (wp_loop (fun _ _ w' m' => clock w' = clock w3 + tick ∧ inv w' m' ∧ member w' = false ∧ active m' = false))
    with (k := 0%nat); [|nia|].
  - intros k4 r w4 m4 (Hc4 & Hi4 & Hm4 & Ha4). unfold wp at 1, mbind, IO_bind, now, mret, IO_ret. simpl.
    rewrite (proj2 (Z.ltb_lt _ _)) by lia. apply wp_bind, wp_locked; [by destruct Hi4|].
    intros w5 m5 Hf5 _ _. eexists _, _. split; [done|].
    pose proof (fr_inactive _ _ _ _ Hf5 Hm4 Ha4) as Ha5. rewrite Ha5.
    unfold wp, mret, IO_ret. simpl. done.
  - split_and!; [done|by destruct Hi3|done|done].
Qed.

(** ** Properties *)

(** Joining and leaving succeed under these conditions: [BecomeActive] returns with
    an active client and, unless the client's own server leads, [BecomeInactive]
    with an inactive one, whatever the other servers answer, however many transient
    errors the leader reports first and however late the configuration update
    arrives. *)
Theorem membership_changes_complete w m :
  ok (leader_raft w) → update w = None → leader ∈ currConf m →
  0 ≤ lastKnownLeaderInd m < Z.of_nat (length (currConf m)) →
  (length (currConf m) ≤ maxServers)%nat →
  ∃ n0, ∀ n, (n0 ≤ n)%nat →
    (∃ w' m', BecomeActive debug me n w m = Done tt w' m' ∧ active m' = true) ∧
    (me ≠ leader → ∃ w' m', BecomeInactive debug me n w m = Done tt w' m' ∧ active m' = false).
Proof.
  intros Hok Hu Hl Hx Hs. assert (inv w m) as Hi by (split; unfold pend; rewrite ?Hu; (done || lia)).
  exists (S (S (busy (leader_raft w)) * search_bound + Z.to_nat (2 * Second))). intros n Hn. split.
  - pose proof (BecomeActive_spec n w m Hi ltac:(by intros []) ltac:(lia)) as Hw. unfold wp in Hw.
    destruct (BecomeActive debug me n w m) as [[] w' m'| |]; [|done..]. exists w', m'. by destruct Hw.
  - intros Hne. pose proof (BecomeInactive_spec n w m Hne Hi ltac:(lia)) as Hw. unfold wp in Hw.
    destruct (BecomeInactive debug me n w m) as [[] w' m'| |]; [|done..]. by exists w', m'.
Qed.

End cluster.

(** ** A concrete cluster *)

Module ClusterDemo.

(** A leader of the servers a and b that first reports some transient errors. *)
Record refRaft := mkRefRaft { ref_conf : Config; ref_prov : Config; ref_busy : nat }.

Definition ref_AddProvisional (s : string) (r : refRaft) : (Z * AddProvisionalError) * refRaft :=
  if is_member s (ref_conf r) then ((0, AP_ALREADY_IN_CONFIGURATION), r)
  else ((0, AP_SUCCESS), mkRefRaft (ref_conf r) (<[s:=true]> (ref_prov r)) (ref_busy r)).

Definition ref_AddServer (s : string) (r : refRaft) : AddRemoveServerError * refRaft :=
  match ref_busy r with
  | S (S k) => (AR_NEW_LEADER, mkRefRaft (ref_conf r) (ref_prov r) (S k))
  | S O => (AR_NOT_CAUGHT_UP, mkRefRaft (ref_conf r) (ref_prov r) O)
  | O => if is_member s (ref_conf r) then (AR_ALREADY_COMPLETE, r)
         else if is_member s (ref_prov r)
         then (AR_OK, mkRefRaft (<[s:=true]> (ref_conf r)) (delete s (ref_prov r)) O)
         else (AR_NOT_PROVISIONAL, r)
  end.

Definition ref_RemoveServer (s : string) (r : refRaft) : AddRemoveServerError * refRaft :=
  match ref_busy r with
  | S k => (AR_CONCURRENT_CHANGE, mkRefRaft (ref_conf r) (ref_prov r) k)
  | O => (AR_OK, mkRefRaft (delete s (ref_conf r)) (ref_prov r) O)
  end.

#[export] Instance refRaft_Raft : Raft refRaft unit := {|
  rf_Start _ r := ((0, 0, true), r);
  rf_Kill r := r;
  rf_Snapshot _ _ r := r;
  rf_CondInstallSnapshot _ _ _ r := (true, r);
  rf_GetState r := (0, true);
  rf_GetProvisionalConfiguration r := (true, ref_prov r);
  rf_GetCurrentConfiguration r := (true, ref_conf r);
  rf_AddProvisional := ref_AddProvisional;
  rf_RemoveServer := ref_RemoveServer;
  rf_AddServer := ref_AddServer
|}.

Definition ref_ok (r : refRaft) : Prop :=
  is_member "b" (ref_conf r) = true ∧ dom (ref_conf r) ⊆ ({["a"; "b"; "c"]}%string : gset string).

Lemma is_member_insert s conf : is_member s (<[s:=true]> conf) = true.
Proof. unfold is_member. by rewrite lookup_insert_eq. Qed.

#[export] Instance refRaft_stable : StableLeadership (R := refRaft) "b" 3 ref_ok.
Proof.
  split; unfold current; simpl.
  - done.
  - intros r [_ Hd]. rewrite <- size_dom. etrans; [by apply subseteq_size|done].
  - by intros r [Hm _].
Qed.

#[export] Instance refRaft_prompt : PromptChanges (R := refRaft) "c" "b" ref_ok ref_busy.
Proof.
  split; unfold current, provisional; simpl.
  - intros r z err r' Hok. unfold ref_AddProvisional. destruct (is_member "c" (ref_conf r)) eqn:E; intros [= <- <- <-].
    + done.
    + split_and!; try done. intros _. apply is_member_insert.
  - intros r err r' Hok Hk. unfold ref_AddServer. destruct (ref_busy r) as [|[|k]] eqn:Eb.
    + destruct (is_member "c" (ref_conf r)) eqn:E; [intros [= <- <-]; rewrite Eb, E; split_and!; [done|lia|by left; auto]|].
      rewrite orb_false_r in Hk. rewrite Hk. intros [= <- <-]. simpl.
      destruct Hok as [Hm Hd]. split_and!; [|lia|left; split; [by left|apply is_member_insert]].
      split; simpl; [|set_solver]. unfold is_member in *. by rewrite lookup_insert_ne.
    + intros [= <- <-]. simpl. split_and!; [done|lia|]. right. split_and!; [by auto|lia|done|done].
    + intros [= <- <-]. simpl. split_and!; [done|lia|]. right. split_and!; [by auto|lia|done|done].
  - intros r err r' _ [Hm Hd]. unfold ref_RemoveServer. destruct (ref_busy r) as [|k] eqn:Eb; intros [= <- <-]; simpl.
    + split_and!; [|lia|left; split; [by left|unfold is_member; by rewrite lookup_delete_eq]].
      split; simpl; [|rewrite dom_delete_L; set_solver]. unfold is_member in *. by rewrite lookup_delete_ne.
    + split_and!; [done|lia|]. right. split; [by right|lia].
Qed.

Definition cluster0 : cluster (R := refRaft) :=
  mkCluster (mkRefRaft {["a":=true; "b":=true]}%string ∅ 3) 0 None.
Definition client0 : membership := mkMembership false false ["a"; "b"]%string 0.

#[local] Existing Instance cluster_env.

(** The server c joins; a does not answer, and the update takes five critical
    sections to arrive. *)
Lemma membership_changes_complete_witness :
  ∃ n0, ∀ n, (n0 ≤ n)%nat →
    (∃ w' m',
      BecomeActive (H := cluster_env "c" "b" 5 100000000 (fun s => bool_decide (s = "a"%string)) (fun _ => false))
        true "c" n cluster0 client0 = Done tt w' m' ∧ active m' = true) ∧
    ("c"%string ≠ "b"%string → ∃ w' m',
      BecomeInactive (H := cluster_env "c" "b" 5 100000000 (fun s => bool_decide (s = "a"%string)) (fun _ => false))
        true "c" n cluster0 client0 = Done tt w' m' ∧ active m' = false).
Proof.
  apply (membership_changes_complete "c" "b" 5 100000000 _ _ true 3 ref_ok) with (busy := ref_busy).
  - by vm_compute.
  - exact refRaft_prompt.
  - split; reflexivity.
  - split; [reflexivity|]. apply (bool_decide_unpack _). by vm_compute.
  - reflexivity.
  - right. left.
  - split; [done|reflexivity].
  - simpl. lia.
Defined.


End ClusterDemo.
