(* ===== verification/Persister.v ===== *)
(** * The persister

    Model of src/libraft/persister.go, which keeps the saved Raft state and
    snapshot of a server.  Its methods receive and return byte slices that the
    caller may go on modifying, and [Copy] makes two persisters share slices, so
    the model has a heap of buffers.  The specification has no buffers: a
    persister holds two byte strings.  The refinement holds because every slice
    is cloned on its way in and out. *)

From stdpp Require Import gmap.
From Stdlib Require Import Strings.Byte.
From S2P Require Import Prelude Bytes.

(** A slice is nil or a whole buffer of the heap. *)
Abbreviation loc := nat (only parsing).
Abbreviation slice := (option nat) (only parsing).

Record Persister := mkPersister { raftstate : slice; snapshot : slice }.

(** The persisters made so far, by number; [owned] are the buffers that the
    callers can reach. *)
Record world := mkWorld {
  heap : gmap loc (list byte);
  persisters : list Persister;
  owned : gset loc
}.

Definition contents (h : gmap loc (list byte)) (s : slice) : list byte :=
  match s with None => [] | Some l => default [] (h !! l) end.

(** [make] followed by [copy] into a fresh buffer. *)
Definition clone (orig : slice) (h : gmap loc (list byte)) : loc * gmap loc (list byte) :=
  let l := fresh (dom h) in
  (l, <[l := go_copy (replicate (length (contents h orig)) Byte.x00) (contents h orig)]> h).

Definition get_persister (i : nat) (w : world) : outcome Persister :=
  match persisters w !! i with Some p => Ret p | None => Panic NilDereference end.

Definition set_persister (i : nat) (p : Persister) (h : gmap loc (list byte)) (w : world) : world :=
  mkWorld h (<[i := p]> (persisters w)) (owned w).

Definition MakePersister (w : world) : nat * world :=
  (length (persisters w), mkWorld (heap w) (persisters w ++ [mkPersister None None]) (owned w)).

Definition Copy (i : nat) (w : world) : outcome (nat * world) :=
  ps ← get_persister i w;
  let '(np, w) := MakePersister w in
  Ret (np, set_persister np (mkPersister (raftstate ps) (snapshot ps)) (heap w) w).

Definition SaveRaftState (i : nat) (state : slice) (w : world) : outcome world :=
  ps ← get_persister i w;
  let '(l, h) := clone state (heap w) in
  Ret (set_persister i (mkPersister (Some l) (snapshot ps)) h w).

Definition SaveStateAndSnapshot (i : nat) (state snap : slice) (w : world) : outcome world :=
  ps ← get_persister i w;
  let '(l, h) := clone state (heap w) in
  let '(l', h) := clone snap h in
  Ret (set_persister i (mkPersister (Some l) (Some l')) h w).

(** A clone handed to the caller. *)
Definition give (s : slice) (w : world) : loc * world :=
  let '(l, h) := clone s (heap w) in (l, mkWorld h (persisters w) ({[l]} ∪ owned w)).

Definition ReadRaftState (i : nat) (w : world) : outcome (loc * world) :=
  ps ← get_persister i w; Ret (give (raftstate ps) w).

Definition ReadSnapshot (i : nat) (w : world) : outcome (loc * world) :=
  ps ← get_persister i w; Ret (give (snapshot ps) w).

Definition RaftStateSize (i : nat) (w : world) : outcome nat :=
  ps ← get_persister i w; Ret (length (contents (heap w) (raftstate ps))).

Definition SnapshotSize (i : nat) (w : world) : outcome nat :=
  ps ← get_persister i w; Ret (length (contents (heap w) (snapshot ps))).

(** ** Runs *)

(** A call of the persister, or the caller allocating or modifying a buffer of
    its own. *)
Inductive pcall :=
| CMake
| CCopy (i : nat)
| CSave (i : nat) (state : slice)
| CSaveBoth (i : nat) (state snap : slice)
| CRead (i : nat)
| CReadSnapshot (i : nat)
| CSize (i : nat)
| CSnapshotSize (i : nat)
| CAlloc (bs : list byte)
| CWrite (l : loc) (bs : list byte).

(** What the caller gets to see: a number, or the bytes of a slice. *)
Inductive observation := ONothing | ONumber (n : nat) | OBytes (bs : list byte).

Definition observe (o : outcome (loc * world)) : outcome (observation * world) :=
  '(l, w) ← o; Ret (OBytes (contents (heap w) (Some l)), w).

Definition exec (c : pcall) (w : world) : outcome (observation * world) :=
  match c with
  | CMake => let '(i, w) := MakePersister w in Ret (ONumber i, w)
  | CCopy i => '(j, w) ← Copy i w; Ret (ONumber j, w)
  | CSave i s => w ← SaveRaftState i s w; Ret (ONothing, w)
  | CSaveBoth i s s' => w ← SaveStateAndSnapshot i s s' w; Ret (ONothing, w)
  | CRead i => observe (ReadRaftState i w)
  | CReadSnapshot i => observe (ReadSnapshot i w)
  | CSize i => n ← RaftStateSize i w; Ret (ONumber n, w)
  | CSnapshotSize i => n ← SnapshotSize i w; Ret (ONumber n, w)
  | CAlloc bs =>
      let l := fresh (dom (heap w)) in
      Ret (ONothing, mkWorld (<[l := bs]> (heap w)) (persisters w) ({[l]} ∪ owned w))
  | CWrite l bs => Ret (ONothing, mkWorld (<[l := bs]> (heap w)) (persisters w) (owned w))
  end.

(** The caller passes and modifies only slices that it holds. *)
Definition holds (w : world) (s : slice) : bool :=
  match s with None => true | Some l => bool_decide (l ∈ owned w) end.

Definition caller_ok (c : pcall) (w : world) : bool :=
  match c with
  | CSave _ s => holds w s
  | CSaveBoth _ s s' => holds w s && holds w s'
  | CWrite l _ => holds w (Some l)
  | _ => true
  end.

Definition empty_world : world := mkWorld ∅ [] ∅.

Inductive reachable : world → Prop :=
| reach_empty : reachable empty_world
| reach_exec w c o w' :
    reachable w → caller_ok c w = true → exec c w = Ret (o, w') → reachable w'.

(** ** Specification *)

(** The persisters as byte strings, and the buffers of the caller. *)
Record spec := mkSpec { values : list (list byte * list byte); buffers : gmap loc (list byte) }.

Definition spec_value (i : nat) (s : spec) : outcome (list byte * list byte) :=
  match values s !! i with Some v => Ret v | None => Panic NilDereference end.

Definition abs (w : world) : spec :=
  mkSpec ((fun p => (contents (heap w) (raftstate p), contents (heap w) (snapshot p))) <$> persisters w)
    (filter (fun kv => kv.1 ∈ owned w) (heap w)).

(** What a call means on byte strings; the specification leaves open which
    buffers the caller is given. *)
Definition spec_exec (c : pcall) (s : spec) : outcome (observation * list (list byte * list byte)) :=
  match c with
  | CMake => Ret (ONumber (length (values s)), values s ++ [([], [])])
  | CCopy i => v ← spec_value i s; Ret (ONumber (length (values s)), values s ++ [v])
  | CSave i b => v ← spec_value i s; Ret (ONothing, <[i := (contents (buffers s) b, v.2)]> (values s))
  | CSaveBoth i b b' =>
      v ← spec_value i s;
      Ret (ONothing, <[i := (contents (buffers s) b, contents (buffers s) b')]> (values s))
  | CRead i => v ← spec_value i s; Ret (OBytes v.1, values s)
  | CReadSnapshot i => v ← spec_value i s; Ret (OBytes v.2, values s)
  | CSize i => v ← spec_value i s; Ret (ONumber (length v.1), values s)
  | CSnapshotSize i => v ← spec_value i s; Ret (ONumber (length v.2), values s)
  | CAlloc _ | CWrite _ _ => Ret (ONothing, values s)
  end.

(** ** Separation of the buffers *)

Definition inside (h : gmap loc (list byte)) (own : gset loc) (s : slice) : Prop :=
  match s with None => True | Some l => l ∈ dom h ∧ l ∉ own end.

Record separated (w : world) : Prop := {
  sep_owned : owned w ⊆ dom (heap w);
  sep_inside : Forall (fun p => inside (heap w) (owned w) (raftstate p) ∧
                                inside (heap w) (owned w) (snapshot p)) (persisters w)
}.

(** A change of the heap that the persisters cannot notice. *)
Lemma contents_insert h own l bs s :
  inside h own s → l ∉ dom h ∨ l ∈ own → contents (<[l := bs]> h) s = contents h s.
Proof.
  destruct s as [k|]; simpl; [|done]. intros [Hk Ho] Hl. rewrite lookup_insert_ne; [done|].
  intros ->. by destruct Hl.
Qed.

Lemma contents_at h l bs : contents (<[l := bs]> h) (Some l) = bs.
Proof. simpl. by rewrite lookup_insert_eq. Qed.

Lemma contents_at_ne h l k bs : l ≠ k → contents (<[l := bs]> h) (Some k) = contents h (Some k).
Proof. intros. simpl. by rewrite lookup_insert_ne. Qed.

Lemma values_insert w l bs own :
  separated w → l ∉ dom (heap w) ∨ l ∈ owned w →
  values (abs (mkWorld (<[l := bs]> (heap w)) (persisters w) own)) = values (abs w).
Proof.
  intros [_ Hin] Hl. simpl. apply list_fmap_ext. intros i p Hp. simpl.
  destruct (Forall_lookup_1 _ _ _ _ Hin Hp) as [H1 H2]. by rewrite !(contents_insert _ (owned w)).
Qed.

Lemma inside_mono h own h' own' s :
  dom h ⊆ dom h' → (∀ l, l ∈ dom h → l ∈ own' → l ∈ own) → inside h own s → inside h' own' s.
Proof. destruct s as [l|]; simpl; [|done]. intros Hd Ho [H1 H2]. split; [by apply Hd|auto]. Qed.

Lemma separated_insert w l bs own :
  separated w → ((l ∉ dom (heap w)) ∧ own = {[l]} ∪ owned w) ∨ own = owned w →
  separated (mkWorld (<[l := bs]> (heap w)) (persisters w) own).
Proof.
  intros [Ho Hin] Hl. split; simpl; [rewrite dom_insert_L; set_solver|].
  eapply Forall_impl; [exact Hin|]. intros p [H1 H2].
  split; (eapply inside_mono; [| |eassumption]; [rewrite dom_insert_L; set_solver|]); set_solver.
Qed.

Lemma contents_buffers w s : holds w s = true → contents (buffers (abs w)) s = contents (heap w) s.
Proof.
  destruct s as [l|]; simpl; [|done]. intros Hl%bool_decide_eq_true.
  destruct (heap w !! l) as [bs|] eqn:E.
  - by rewrite (map_lookup_filter_Some_2 _ _ _ _ E).
  - by rewrite map_lookup_filter_None_2 by auto.
Qed.

Lemma clone_spec s h l h' :
  clone s h = (l, h') → (l ∉ dom h) ∧ h' = <[l := contents h s]> h.
Proof.
  unfold clone. intros [= <- <-]. split; [apply is_fresh|].
  by rewrite go_copy_same by (by rewrite length_replicate).
Qed.

(** ** Refinement *)

(** Storing a fresh clone in a persister. *)
Lemma separated_set w i p h own :
  separated (mkWorld h (persisters w) own) →
  inside h own (raftstate p) → inside h own (snapshot p) →
  separated (mkWorld h (<[i := p]> (persisters w)) own).
Proof. intros [Ho Hin] H1 H2. split; [done|]. by apply Forall_insert. Qed.

Lemma values_set w i p h own :
  values (abs (mkWorld h (<[i := p]> (persisters w)) own)) =
  <[i := (contents h (raftstate p), contents h (snapshot p))]>
    (values (abs (mkWorld h (persisters w) own))).
Proof. simpl. by rewrite list_fmap_insert. Qed.

Lemma get_persister_spec i w : separated w →
  match get_persister i w with
  | Ret p => spec_value i (abs w) = Ret (contents (heap w) (raftstate p), contents (heap w) (snapshot p)) ∧
      persisters w !! i = Some p ∧
      inside (heap w) (owned w) (raftstate p) ∧ inside (heap w) (owned w) (snapshot p)
  | Panic r => spec_value i (abs w) = Panic r
  end.
Proof.
  intros [_ Hin]. unfold get_persister, spec_value. simpl. rewrite list_lookup_fmap.
  destruct (persisters w !! i) as [p|] eqn:E; simpl; [|done].
  destruct (Forall_lookup_1 _ _ _ _ Hin E). done.
Qed.

#[local] Arguments contents : simpl never.
#[local] Arguments give : simpl never.
#[local] Arguments clone : simpl never.

(** [exec] does what the specification says and keeps the buffers apart. *)
Definition refined (c : pcall) (w : world) : Prop :=
  match spec_exec c (abs w) with
  | Ret (o, vs) => ∃ w', exec c w = Ret (o, w') ∧ values (abs w') = vs ∧ separated w'
  | Panic r => exec c w = Panic r
  end.

(** The four methods that only look at one persister. *)
Lemma give_spec s w l w' :
  separated w → give s w = (l, w') →
  contents (heap w') (Some l) = contents (heap w) s ∧ values (abs w') = values (abs w) ∧ separated w'.
Proof.
  intros Hs. unfold give. destruct (clone s (heap w)) as [k h] eqn:E. intros [= <- <-].
  apply clone_spec in E as [Hk ->]. split_and!; [apply contents_at| |].
  - apply (values_insert w _ _ ∅); auto.
  - apply separated_insert; auto.
Qed.

Lemma refined_look w c : separated w → match c with CRead _ | CReadSnapshot _ | CSize _ | CSnapshotSize _ => True | _ => False end → refined c w.
Proof.
  intros Hs Hc. unfold refined.
  destruct c as [|i|i s|i s s'|i|i|i|i|bs|l bs]; try done; simpl;
    unfold observe, ReadRaftState, ReadSnapshot, RaftStateSize, SnapshotSize;
    pose proof (get_persister_spec i w Hs) as Hg; destruct (get_persister i w) as [p|r];
    (destruct Hg as (-> & _) || rewrite Hg); cbn [mbind outcome_bind]; try done; [| |by eauto|by eauto].
  - destruct (give (raftstate p) w) as [l w'] eqn:E. apply give_spec in E as (Hc' & Hv & Hsep); [|done].
    exists w'. by rewrite Hc'.
  - destruct (give (snapshot p) w) as [l w'] eqn:E. apply give_spec in E as (Hc' & Hv & Hsep); [|done].
    exists w'. by rewrite Hc'.
Qed.

Lemma separated_snoc w p :
  separated w → inside (heap w) (owned w) (raftstate p) → inside (heap w) (owned w) (snapshot p) →
  separated (mkWorld (heap w) (persisters w ++ [p]) (owned w)).
Proof. intros [Ho Hin] H1 H2. split; [done|]. simpl. apply Forall_app. auto. Qed.

Lemma refined_new w c : separated w → match c with CMake | CCopy _ | CAlloc _ | CWrite _ _ => True | _ => False end →
  caller_ok c w = true → refined c w.
Proof.
  intros Hs Hc Hcall. unfold refined. destruct c as [|i|i s|i s s'|i|i|i|i|bs|l bs]; try done; simpl.
  - rewrite length_fmap. eexists. split_and!; [done|simpl; by rewrite fmap_app|by apply separated_snoc].
  - unfold Copy. pose proof (get_persister_spec i w Hs) as Hg.
    destruct (get_persister i w) as [p|r]; simpl; [|by rewrite Hg]. destruct Hg as (-> & _ & H1 & H2). simpl.
    rewrite length_fmap. unfold set_persister. simpl.
    rewrite insert_app_r_alt, Nat.sub_diag by lia. simpl.
    eexists. split_and!; [done|simpl; by rewrite fmap_app|by apply separated_snoc].
  - pose proof (is_fresh (dom (heap w))).
    eexists. split_and!; [done|apply (values_insert w _ _ ∅); auto|apply separated_insert; auto].
  - simpl in Hcall. apply bool_decide_eq_true in Hcall.
    eexists. split_and!; [done|apply (values_insert w _ _ ∅); auto|apply separated_insert; auto].
Qed.

(** Storing fresh buffers does not disturb what is stored elsewhere. *)
Lemma refined_save w i s : separated w → holds w s = true → refined (CSave i s) w.
Proof.
  intros Hs Hh. unfold refined. cbn [spec_exec exec]. unfold SaveRaftState.
  pose proof (get_persister_spec i w Hs) as Hg. destruct (get_persister i w) as [p|r]; [|by rewrite Hg].
  destruct Hg as (-> & _ & H1 & H2). cbn [mbind outcome_bind].
  destruct (clone s (heap w)) as [l h] eqn:E. apply clone_spec in E as [Hl ->].
  eexists. split; [done|]. split.
  - unfold set_persister. rewrite values_set, (values_insert w _ _ (owned w)) by auto. simpl.
    rewrite (contents_insert _ (owned w) _ _ (snapshot p)) by auto.
    by rewrite contents_at, <- contents_buffers.
  - apply separated_set; [by apply separated_insert; auto|simpl|].
    + rewrite dom_insert_L. split; [set_solver|]. by intros ?%(sep_owned _ Hs).
    + eapply inside_mono; [|done|exact H2]. rewrite dom_insert_L. set_solver.
Qed.

Lemma refined_save_both w i s s' :
  separated w → holds w s = true → holds w s' = true → refined (CSaveBoth i s s') w.
Proof.
  intros Hs Hh Hh'. unfold refined. cbn [spec_exec exec]. unfold SaveStateAndSnapshot.
  pose proof (get_persister_spec i w Hs) as Hg. destruct (get_persister i w) as [p|r]; [|by rewrite Hg].
  destruct Hg as (-> & _ & _ & _). cbn [mbind outcome_bind].
  destruct (clone s (heap w)) as [l h] eqn:E. apply clone_spec in E as [Hl ->].
  destruct (clone s' _) as [l' h] eqn:E'. apply clone_spec in E' as [Hl' ->].
  rewrite dom_insert_L in Hl'. eexists. split; [done|].
  pose proof (separated_insert w l (contents (heap w) s) (owned w) Hs ltac:(auto)) as Hs1.
  assert ((l ∉ owned w) ∧ (l' ∉ owned w)) as [Ho Ho'] by (pose proof (sep_owned _ Hs); set_solver).
  assert (contents (<[l:=contents (heap w) s]> (heap w)) s' = contents (heap w) s') as Ec.
  { destruct s' as [k|]; [|done]. unfold contents. simpl in *. rewrite lookup_insert_ne; [done|].
    intros ->. apply bool_decide_eq_true in Hh'. set_solver. }
  rewrite Ec, !contents_buffers by done. split.
  - unfold set_persister. rewrite values_set.
    pose proof (values_insert _ l' (contents (heap w) s') (owned w) Hs1) as E2. cbn [heap persisters] in E2.
    rewrite E2, (values_insert w _ _ (owned w)) by (auto || (left; rewrite dom_insert_L; set_solver)). simpl.
    by rewrite contents_at_ne, !contents_at by set_solver.
  - apply separated_set; [apply (separated_insert _ _ _ _ Hs1); auto|simpl..];
      rewrite !dom_insert_L; set_solver.
Qed.

Lemma separated_refines w c : separated w → caller_ok c w = true → refined c w.
Proof.
  intros Hs Hc. destruct c; try (by apply refined_look); try (by apply refined_new); simpl in Hc.
  - by apply refined_save.
  - bool_to_prop. by apply refined_save_both.
Qed.

Lemma reachable_separated w : reachable w → separated w.
Proof.
  induction 1 as [|w c o w' Hr IH Hc He]; [by split|].
  pose proof (separated_refines w c IH Hc) as Hf. unfold refined in Hf.
  destruct (spec_exec c (abs w)) as [[o' vs]|r]; [|congruence].
  destruct Hf as (w1 & He' & _ & Hs). congruence.
Qed.

(** ** Properties *)

(** C33: the persister is isolated from its callers.  In every reachable state
    and for every call, the outcome is the one of the specification in which a
    persister is a pair of byte strings: saved contents are returned unchanged,
    whatever the caller does to the slices it passed in or got back, and a copy
    is independent of the original. *)
Theorem persister_refines_values w c :
  reachable w → caller_ok c w = true →
  match spec_exec c (abs w) with
  | Ret (o, vs) => ∃ w', exec c w = Ret (o, w') ∧ values (abs w') = vs ∧ reachable w'
  | Panic r => exec c w = Panic r
  end.
Proof.
  intros Hr Hc. pose proof (separated_refines w c (reachable_separated _ Hr) Hc) as Hf. unfold refined in Hf.
  destruct (spec_exec c (abs w)) as [[o vs]|r]; [|done]. destruct Hf as (w' & He & Hv & _).
  exists w'. split_and!; [done|done|by eapply reach_exec].
Qed.

(** ** A concrete run *)

Module PersisterDemo.

(** The caller saves a buffer and overwrites it afterwards. *)
Definition saved : list byte := [Byte.x01; Byte.x02].
Definition scribbled : list byte := [Byte.xff; Byte.xff].

Definition step (c : pcall) (w : world) : world :=
  match exec c w with Ret (_, w') => w' | Panic _ => w end.
Definition w_saved : world :=
  step (CWrite 0 scribbled) (step (CSave 0 (Some 0)) (step CMake (step (CAlloc saved) empty_world))).

Lemma step_reachable c w : reachable w → caller_ok c w = true →
  (∃ r, exec c w = Ret r) → reachable (step c w).
Proof. intros Hr Hc [[o w'] E]. unfold step. rewrite E. by eapply reach_exec. Qed.

Lemma w_saved_reachable : reachable w_saved.
Proof. repeat (apply step_reachable; [|done|by eexists]). apply reach_empty. Qed.

Lemma persister_refines_values_witness :
  ∃ w', exec (CRead 0) w_saved = Ret (OBytes saved, w') ∧
    values (abs w') = values (abs w_saved) ∧ reachable w'.
Proof. exact (persister_refines_values w_saved (CRead 0) w_saved_reachable eq_refl). Defined.

End PersisterDemo.
