(* ===== verification/ResChannel.v ===== *)
(** * The result channel of a client

    Model of [CreateResCh], [DestroyResCh] and of the way [sendRoundResult]
    hands over its result (src/anonbcast/client.go).  The channel is unbuffered
    and a sender keeps the mutex [resChMu] while it blocks, so a user who stops
    reading could lock the client up; [DestroyResCh] therefore first starts a
    goroutine that drains the channel and only then takes the mutex.

    Every section between two blocking points is one step.  A step that panics
    has the outcome [Panic]. *)

From stdpp Require Import gmap.
From S2P Require Import Prelude.

Abbreviation chan := nat (only parsing).
(** A goroutine that runs [sendRoundResult], by the number of its result. *)
Abbreviation sender := nat (only parsing).

(** What the user of the client does: nothing, reading from the channel it
    created, or inside [DestroyResCh], whose draining goroutine runs. *)
Inductive user := Idle | Reading (ch : chan) | Destroying (ch : chan).

Record state := mkState {
  resCh : option chan;
  (** the sender that holds [resChMu] and blocks on a channel *)
  holder : option (sender * chan);
  closed_chs : gset chan;
  next_ch : chan;
  (** senders that have a result and do not hold the mutex *)
  pending : gset sender;
  used : gset sender;
  who : user;
  delivered : list sender;
  drained : list sender
}.

Definition initial : state := mkState None None ∅ 0 ∅ ∅ Idle [] [].

Section reschannel.
Context (debug : bool).

(** [CreateResCh], with the mutex free. *)
Definition CreateResCh (s : state) : outcome state :=
  assertf debug (bool_decide (resCh s = None)) ;;
  let ch := next_ch s in
  Ret (mkState (Some ch) (holder s) (closed_chs s) (S ch) (pending s) (used s) (Reading ch)
    (delivered s) (drained s)).

(** [DestroyResCh] up to the lock: the draining goroutine is started. *)
Definition DestroyResCh_begin (ch : chan) (s : state) : state :=
  mkState (resCh s) (holder s) (closed_chs s) (next_ch s) (pending s) (used s) (Destroying ch)
    (delivered s) (drained s).

(** The rest, with the mutex free; closing nil or a closed channel panics. *)
Definition DestroyResCh_end (s : state) : outcome state :=
  assertf debug (bool_decide (resCh s ≠ None)) ;;
  match resCh s with
  | None => Panic ClosedChannel
  | Some ch =>
      if bool_decide (ch ∈ closed_chs s) then Panic ClosedChannel else
      Ret (mkState None (holder s) ({[ch]} ∪ closed_chs s) (next_ch s) (pending s) (used s) Idle
        (delivered s) (drained s))
  end.

(** [c.resChMu.Lock(); if c.resCh != nil { c.resCh <- result }], with the mutex
    free: the sender gives up, or it blocks with the mutex held; sending on a
    closed channel panics. *)
Definition send_begin (i : sender) (s : state) : outcome state :=
  match resCh s with
  | None => Ret (mkState None None (closed_chs s) (next_ch s) (pending s ∖ {[i]}) (used s) (who s)
              (delivered s) (drained s))
  | Some ch =>
      if bool_decide (ch ∈ closed_chs s) then Panic ClosedChannel else
      Ret (mkState (Some ch) (Some (i, ch)) (closed_chs s) (next_ch s) (pending s ∖ {[i]}) (used s) (who s)
        (delivered s) (drained s))
  end.

(** The blocked send completes and the mutex is released. *)
Definition send_end (to_user : bool) (i : sender) (s : state) : state :=
  mkState (resCh s) None (closed_chs s) (next_ch s) (pending s) (used s) (who s)
    (if to_user then delivered s ++ [i] else delivered s)
    (if to_user then drained s else drained s ++ [i]).

Inductive step : state → outcome state → Prop :=
| step_result i s :
    i ∉ used s →
    step s (Ret (mkState (resCh s) (holder s) (closed_chs s) (next_ch s) ({[i]} ∪ pending s)
      ({[i]} ∪ used s) (who s) (delivered s) (drained s)))
| step_create s : who s = Idle → holder s = None → step s (CreateResCh s)
| step_destroy_begin s ch : who s = Reading ch → step s (Ret (DestroyResCh_begin ch s))
| step_destroy_end s ch : who s = Destroying ch → holder s = None → step s (DestroyResCh_end s)
| step_send_begin i s : i ∈ pending s → holder s = None → step s (send_begin i s)
| step_receive s i ch : who s = Reading ch → holder s = Some (i, ch) → step s (Ret (send_end true i s))
| step_drain s i ch : who s = Destroying ch → holder s = Some (i, ch) → step s (Ret (send_end false i s)).

Inductive reachable : state → Prop :=
| reach_initial : reachable initial
| reach_step s s' : reachable s → step s (Ret s') → reachable s'.

(** ** Invariant *)

Definition user_channel (u : user) : option chan :=
  match u with Idle => None | Reading ch | Destroying ch => Some ch end.

Record inv (s : state) : Prop := {
  i_resCh : resCh s = user_channel (who s);
  i_open : ∀ ch, resCh s = Some ch → ch ∉ closed_chs s;
  i_next : ∀ ch, ch ∈ closed_chs s ∨ resCh s = Some ch → ch < next_ch s;
  i_holder : ∀ i ch, holder s = Some (i, ch) → resCh s = Some ch ∧ i ∈ used s ∧ (i ∉ pending s) ∧
    i ∉ delivered s ++ drained s;
  i_pending : ∀ i, i ∈ pending s → i ∈ used s ∧ i ∉ delivered s ++ drained s;
  i_done : ∀ i, i ∈ delivered s ++ drained s → i ∈ used s;
  i_once : NoDup (delivered s ++ drained s)
}.

Lemma CreateResCh_inv s : inv s → who s = Idle → holder s = None →
  ∃ s', CreateResCh s = Ret s' ∧ inv s'.
Proof.
  intros [I1 I2 I3 I4 I5 I6 I7] Hu Hh. rewrite Hu in I1. simpl in I1. unfold CreateResCh.
  rewrite bool_decide_true, assertf_true by done. simpl. eexists. split; [done|].
  split; simpl; try done.
  - intros ch [= <-] Hin. specialize (I3 (next_ch s) (or_introl Hin)). lia.
  - intros ch [Hin|[= <-]]; [|lia]. specialize (I3 ch (or_introl Hin)). lia.
  - by rewrite Hh.
Qed.

Lemma DestroyResCh_end_inv s ch : inv s → who s = Destroying ch → holder s = None →
  ∃ s', DestroyResCh_end s = Ret s' ∧ inv s' ∧ who s' = Idle.
Proof.
  intros [I1 I2 I3 I4 I5 I6 I7] Hu Hh. rewrite Hu in I1. simpl in I1. unfold DestroyResCh_end.
  rewrite I1, (bool_decide_true (Some ch ≠ None)), assertf_true by done. simpl.
  rewrite bool_decide_false by (by apply I2). eexists. split; [done|]. split; [|done].
  split; simpl; try done.
  - intros ch' [Hin|[=]]. apply I3. set_solver.
  - by rewrite Hh.
Qed.

Lemma send_begin_inv i s : inv s → i ∈ pending s → holder s = None →
  ∃ s', send_begin i s = Ret s' ∧ inv s'.
Proof.
  intros [I1 I2 I3 I4 I5 I6 I7] Hi Hh. unfold send_begin. destruct (resCh s) as [ch|] eqn:E.
  - rewrite bool_decide_false by (by apply I2). eexists. split; [done|].
    split; simpl; try done; [|intros j Hj; apply I5; set_solver].
    intros j ch' [= <- <-]. destruct (I5 i Hi). split_and!; [done|done|set_solver|done].
  - eexists. split; [done|]. split; simpl; try done. intros j Hj. apply I5. set_solver.
Qed.

Lemma send_end_inv b i ch s : inv s → holder s = Some (i, ch) → inv (send_end b i s).
Proof.
  intros [I1 I2 I3 I4 I5 I6 I7] Hh. destruct (I4 _ _ Hh) as (Hr & Hu & Hp & Hd).
  assert (delivered (send_end b i s) ++ drained (send_end b i s) ≡ₚ i :: delivered s ++ drained s) as Hperm.
  { destruct b; simpl; [|by rewrite app_assoc, <- Permutation_cons_append].
    rewrite <- app_assoc. symmetry. apply (Permutation_middle (delivered s)). }
  split; try done.
  - intros j Hj. destruct (I5 j Hj). split; [done|]. rewrite Hperm. simpl in Hj. set_solver.
  - intros j. rewrite Hperm. simpl. set_solver.
  - rewrite Hperm. by apply NoDup_cons.
Qed.

Lemma step_inv s o : inv s → step s o → ∃ s', o = Ret s' ∧ inv s'.
Proof.
  intros Hi Hst. destruct Hst as [i s Hn|s Hu Hh|s ch Hu|s ch Hu Hh|i s Hp Hh|s i ch Hu Hh|s i ch Hu Hh].
  - eexists. split; [done|]. destruct Hi as [I1 I2 I3 I4 I5 I6 I7]. split; simpl; try done.
    + intros j ch Hj. destruct (I4 _ _ Hj) as (? & ? & ? & ?). split_and!; [done|set_solver|set_solver|done].
    + intros j [->%elem_of_singleton|Hj]%elem_of_union; [|destruct (I5 j Hj); set_solver].
      split; [set_solver|]. intros Hd. by apply I6 in Hd.
    + intros j Hj. apply I6 in Hj. set_solver.
  - by apply CreateResCh_inv.
  - eexists. split; [done|]. destruct Hi as [I1 I2 I3 I4 I5 I6 I7]. split; simpl; try done.
    by rewrite I1, Hu.
  - destruct (DestroyResCh_end_inv s ch Hi Hu Hh) as (s' & ? & ? & _). eauto.
  - by apply send_begin_inv.
  - eexists. split; [done|]. by eapply send_end_inv.
  - eexists. split; [done|]. by eapply send_end_inv.
Qed.

Lemma reachable_inv s : reachable s → inv s.
Proof.
  induction 1 as [|s s' Hr IH Hst].
  - split; simpl; try done; [set_solver| |by apply NoDup_nil_2]. intros i Hi. set_solver.
  - destruct (step_inv _ _ IH Hst) as (s1 & [= ->] & Hi). done.
Qed.

(** ** Properties *)

(** C25: handing over results is safe and cannot lock up.  In every reachable
    state: no step panics, so no result is sent on a closed channel and no
    channel is closed twice; no result is handed over twice; and once the user
    has called [DestroyResCh] the call can finish, after draining the one
    result that may be blocked at most. *)
Theorem result_channel_safe s :
  reachable s →
  (∀ o, step s o → ∃ s', o = Ret s') ∧
  NoDup (delivered s ++ drained s) ∧
  (∀ ch, who s = Destroying ch →
     ∃ s1 s2, (s1 = s ∨ step s (Ret s1)) ∧ step s1 (Ret s2) ∧ who s2 = Idle ∧ resCh s2 = None).
Proof.
  intros Hr%reachable_inv. split_and!; [|by apply i_once|].
  - intros o Hst. destruct (step_inv _ _ Hr Hst) as (s' & -> & _). eauto.
  - intros ch Hu.
    assert (∃ s1, (s1 = s ∨ step s (Ret s1)) ∧ inv s1 ∧ who s1 = Destroying ch ∧ holder s1 = None)
      as (s1 & Hs1 & Hi1 & Hu1 & Hh1).
    { destruct (holder s) as [[i ch']|] eqn:Hh; [|by exists s; auto].
      pose proof (i_holder _ Hr _ _ Hh) as [E _]. rewrite (i_resCh _ Hr), Hu in E. injection E as <-.
      exists (send_end false i s). split_and!; [right; by eapply step_drain|by eapply send_end_inv|done|done]. }
    destruct (DestroyResCh_end_inv s1 ch Hi1 Hu1 Hh1) as (s2 & E & Hi2 & Hu2).
    exists s1, s2. split_and!; [done| |done|by rewrite (i_resCh _ Hi2), Hu2].
    rewrite <- E. by eapply step_destroy_end.
Qed.

End reschannel.

(** ** A concrete run *)

Module ResChannelDemo.

(** A result is blocked on the channel when the user stops reading. *)
Definition s1 : state := mkState None None ∅ 0 {[7]} {[7]} Idle [] [].
Definition s2 : state := mkState (Some 0) None ∅ 1 {[7]} {[7]} (Reading 0) [] [].
Definition s3 : state := mkState (Some 0) (Some (7, 0)) ∅ 1 ∅ {[7]} (Reading 0) [] [].
Definition s4 : state := mkState (Some 0) (Some (7, 0)) ∅ 1 ∅ {[7]} (Destroying 0) [] [].

Lemma s4_reachable : reachable true s4.
Proof.
  apply (reach_step _ s3); [|by apply (step_destroy_begin _ s3 0)].
  apply (reach_step _ s2); [|by apply (step_send_begin _ 7 s2); [set_solver|]].
  apply (reach_step _ s1); [|exact (step_create true s1 eq_refl eq_refl)].
  apply (reach_step _ initial); [apply reach_initial|].
  by apply (step_result _ 7 initial).
Qed.

Lemma result_channel_safe_witness :
  ∃ t1 t2, (t1 = s4 ∨ step true s4 (Ret t1)) ∧ step true t1 (Ret t2) ∧ who t2 = Idle ∧ resCh t2 = None.
Proof. apply (result_channel_safe true s4 s4_reachable) with (ch := 0). reflexivity. Defined.

End ResChannelDemo.
