(* ===== verification/GoString.v ===== *)
(** * Go strings

    What the program uses of packages strings, strconv and sort: searching and
    slicing, decimal conversion, and sorting.  A Go string is a [string]; its
    bytes are the characters. *)

From stdpp Require Import strings sorting.
From Stdlib Require Import Ascii.
From S2P Require Import Prelude.
Local Open Scope string_scope.
Local Open Scope Z_scope.

(** ** Searching and slicing *)

Definition slen (s : string) : Z := Z.of_nat (String.length s).

(** [strings.LastIndex] for a separator of one byte. *)
Fixpoint LastIndex (s : string) (sep : ascii) : Z :=
  match s with
  | "" => -1
  | String a s' =>
      let r := LastIndex s' sep in
      if 0 <=? r then r + 1 else if bool_decide (a = sep) then 0 else -1
  end.

(** [s[lo:hi]], with the bounds check of the runtime. *)
Definition str_slice (s : string) (lo hi : Z) : outcome string :=
  if (0 <=? lo) && (lo <=? hi) && (hi <=? slen s)
  then Ret (String.substring (Z.to_nat lo) (Z.to_nat (hi - lo)) s)
  else Panic SliceOutOfRange.

(** [strings.Contains]. *)
Fixpoint Contains (s sub : string) : bool :=
  String.prefix sub s ||
  match s with "" => false | String _ s' => Contains s' sub end.

(** [strings.TrimSuffix]. *)
Fixpoint TrimSuffix (s suffix : string) : string :=
  if bool_decide (s = suffix) then ""
  else match s with "" => "" | String a s' => String a (TrimSuffix s' suffix) end.

Fixpoint has_byte (c : ascii) (s : string) : bool :=
  match s with "" => false | String a s' => bool_decide (a = c) || has_byte c s' end.

(** ** Decimal conversion *)

Definition digit_val (c : ascii) : option Z :=
  let n := Z.of_nat (nat_of_ascii c) - 48 in
  if (0 <=? n) && (n <? 10) then Some n else None.

Definition digit_char (d : Z) : ascii := ascii_of_nat (Z.to_nat (d + 48)).

Fixpoint parse_digits (acc : Z) (s : string) : option Z :=
  match s with
  | "" => Some acc
  | String c s' => d ← digit_val c; parse_digits (acc * 10 + d) s'
  end.

(** [strconv.Atoi]; [None] is a syntax or a range error. *)
Definition Atoi (s : string) : option Z :=
  let '(neg, ds) :=
    match s with
    | String c s' =>
        if bool_decide (c = "-"%char) then (true, s')
        else if bool_decide (c = "+"%char) then (false, s') else (false, s)
    | "" => (false, "")
    end in
  match ds with
  | "" => None
  | _ =>
      n ← parse_digits 0 ds;
      let v := if neg : bool then - n else n in
      if (int_min <=? v) && (v <=? int_max) then Some v else None
  end.

(** The digits of [n] in front of [acc]; one more than the binary length of [n]
    is enough fuel. *)
Fixpoint digits (fuel : nat) (n : Z) (acc : string) : string :=
  match fuel with
  | O => acc
  | S fuel =>
      let acc := String (digit_char (n `mod` 10)) acc in
      if n `div` 10 =? 0 then acc else digits fuel (n `div` 10) acc
  end.

(** [strconv.Itoa], which is also what [fmt] prints for an int. *)
Definition Itoa (z : Z) : string :=
  if z <? 0 then String "-" (digits (S (Z.to_nat (Z.log2 (- z)))) (- z) "")
  else digits (S (Z.to_nat (Z.log2 z))) z "".

(** ** Sorting *)

(** [sort.Strings]: increasing in the bytewise order. *)
Definition sort_Strings (l : list string) : list string := merge_sort String.le l.

(** ** Lemmas *)

Lemma LastIndex_range s c : -1 ≤ LastIndex s c < Z.max 0 (slen s) ∨ LastIndex s c = -1.
Proof.
  unfold slen. induction s as [|a s IH]; simpl; [lia|].
  destruct (0 <=? LastIndex s c) eqn:E; bool_to_prop; [|case_bool_decide]; lia.
Qed.

Lemma LastIndex_none s c : LastIndex s c = -1 ↔ has_byte c s = false.
Proof.
  induction s as [|a s IH]; simpl; [done|]. rewrite orb_false_iff, bool_decide_eq_false, <- IH.
  pose proof (LastIndex_range s c). destruct (0 <=? LastIndex s c) eqn:E; bool_to_prop; [lia|].
  case_bool_decide; [naive_solver lia|]. split; [|done]. intros _. split; [done|lia].
Qed.

Lemma LastIndex_app s t c :
  has_byte c t = false → LastIndex (s ++ String c t) c = slen s.
Proof.
  intros Ht. apply LastIndex_none in Ht. unfold slen. induction s as [|a s IH]; simpl.
  - by rewrite Ht, bool_decide_true.
  - rewrite IH. destruct (0 <=? _) eqn:E; bool_to_prop; lia.
Qed.

(** What the last separator is followed by does not contain it. *)
Lemma LastIndex_split s c : has_byte c s = true →
  ∃ u v, s = u ++ String c v ∧ has_byte c v = false.
Proof.
  induction s as [|a s IH]; simpl; [done|]. intros H.
  destruct (has_byte c s) eqn:E.
  - destruct (IH eq_refl) as (u & v & -> & Hv). by exists (String a u), v.
  - rewrite orb_false_r, bool_decide_eq_true in H. subst. by exists "", s.
Qed.

Lemma substring_app_l s t : String.substring 0 (String.length s) (s ++ t) = s.
Proof. induction s; simpl; [by destruct t|by f_equal]. Qed.

Lemma substring_all s : String.substring 0 (String.length s) s = s.
Proof. induction s; simpl; [done|by f_equal]. Qed.

Lemma substring_app_r s t n :
  String.substring (String.length s) n (s ++ t) = String.substring 0 n t.
Proof. by induction s. Qed.

Lemma string_length_app s t :
  String.length (s ++ t) = (String.length s + String.length t)%nat.
Proof. induction s as [|a s IH]; [done|]. simpl. by rewrite IH. Qed.

Lemma slen_app s t : slen (s ++ t) = slen s + slen t.
Proof. unfold slen. rewrite string_length_app. lia. Qed.

Lemma str_slice_prefix s t : str_slice (s ++ t) 0 (slen s) = Ret s.
Proof.
  unfold str_slice. rewrite slen_app. unfold slen.
  rewrite !(proj2 (Z.leb_le _ _)) by lia. simpl.
  by rewrite Z.sub_0_r, Nat2Z.id, substring_app_l.
Qed.

Lemma str_slice_suffix s t : str_slice (s ++ t) (slen s) (slen (s ++ t)) = Ret t.
Proof.
  unfold str_slice. rewrite slen_app. unfold slen.
  rewrite !(proj2 (Z.leb_le _ _)) by lia. simpl.
  rewrite Nat2Z.id, Z.add_simpl_l, Nat2Z.id, substring_app_r. by rewrite substring_all.
Qed.

Lemma digit_val_char d : 0 ≤ d < 10 → digit_val (digit_char d) = Some d.
Proof.
  intros H. unfold digit_val, digit_char.
  rewrite nat_ascii_embedding by lia. rewrite Z2Nat.id by lia.
  replace (d + 48 - 48) with d by lia.
  rewrite (proj2 (Z.leb_le _ _)), (proj2 (Z.ltb_lt _ _)) by lia. done.
Qed.

Lemma digits_fuel n f : 0 ≤ n → (Z.to_nat (Z.log2 n) < S f)%nat → n `div` 10 ≠ 0 →
  (Z.to_nat (Z.log2 (n `div` 10)) < f)%nat.
Proof.
  intros Hn Hf Hd. assert (0 < n `div` 10) by (pose proof (Z.div_pos n 10); lia).
  assert (Z.log2 (n `div` 10) < Z.log2 n); [|pose proof (Z.log2_nonneg (n `div` 10)); lia].
  assert (Z.log2 (2 * (n `div` 10)) ≤ Z.log2 n) as Hl.
  { apply Z.log2_le_mono. lia_div. }
  rewrite Z.log2_double in Hl by lia. lia.
Qed.

Lemma parse_digits_digits f n acc :
  0 ≤ n → (Z.to_nat (Z.log2 n) < f)%nat → parse_digits 0 (digits f n acc) = parse_digits n acc.
Proof.
  revert n acc. induction f as [|f IH]; intros n acc Hn Hf; [lia|]. simpl.
  assert (Hd : digit_val (digit_char (n `mod` 10)) = Some (n `mod` 10)).
  { apply digit_val_char, Z.mod_pos_bound. lia. }
  destruct (n `div` 10 =? 0) eqn:E; bool_to_prop.
  - cbn [parse_digits]. rewrite Hd. cbn [mbind option_bind]. f_equal. lia_div.
  - rewrite IH; [|apply Z.div_pos; lia|by apply digits_fuel].
    cbn [parse_digits]. rewrite Hd. cbn [mbind option_bind]. f_equal. lia_div.
Qed.

Lemma digit_char_not_sign d : 0 ≤ d < 10 → digit_char d ≠ "-"%char ∧ digit_char d ≠ "+"%char.
Proof.
  intros H. split; intros E; apply (f_equal digit_val) in E;
    rewrite digit_val_char in E by done; discriminate.
Qed.

(** The first character is a digit. *)
Lemma digits_head f n acc : 0 ≤ n → (0 < f)%nat →
  ∃ d s, 0 ≤ d < 10 ∧ digits f n acc = String (digit_char d) s.
Proof.
  revert n acc. induction f as [|f IH]; intros n acc Hn Hf; [lia|]. simpl.
  pose proof (Z.mod_pos_bound n 10). destruct (n `div` 10 =? 0) eqn:E; bool_to_prop.
  - eexists _, _. split; [|done]. lia.
  - destruct f; [simpl; eexists _, _; split; [|done]; lia|]. apply IH; [apply Z.div_pos; lia|lia].
Qed.

Lemma Atoi_Itoa z : int_min ≤ z ≤ int_max → Atoi (Itoa z) = Some z.
Proof.
  intros Hz. unfold Itoa. destruct (z <? 0) eqn:E; bool_to_prop.
  - unfold Atoi. rewrite bool_decide_true by done.
    destruct (digits_head (S (Z.to_nat (Z.log2 (- z)))) (- z) "") as (d & s & Hd & Hs); [lia..|].
    rewrite Hs. rewrite <- Hs, parse_digits_digits by lia. simpl parse_digits.
    cbn [mbind option_bind]. rewrite Z.opp_involutive.
    by rewrite !(proj2 (Z.leb_le _ _)) by lia.
  - unfold Atoi.
    destruct (digits_head (S (Z.to_nat (Z.log2 z))) z "") as (d & s & Hd & Hs); [lia..|].
    destruct (digit_char_not_sign d Hd). rewrite Hs, !bool_decide_false by done.
    rewrite <- Hs, parse_digits_digits by lia. simpl parse_digits. cbn [mbind option_bind].
    by rewrite !(proj2 (Z.leb_le _ _)) by lia.
Qed.

Lemma Itoa_inj z z' : int_min ≤ z ≤ int_max → int_min ≤ z' ≤ int_max → Itoa z = Itoa z' → z = z'.
Proof. intros H H' E. apply Atoi_Itoa in H, H'. rewrite E in H. congruence. Qed.

Lemma sort_Strings_perm l : sort_Strings l ≡ₚ l.
Proof. apply merge_sort_Permutation. Qed.

Lemma sort_Strings_sorted l : StronglySorted String.le (sort_Strings l).
Proof. apply StronglySorted_merge_sort; apply _. Qed.

(** Two lists with the same elements have the same sorted list. *)
Lemma sort_Strings_proper l k : l ≡ₚ k → sort_Strings l = sort_Strings k.
Proof.
  intros H. apply (StronglySorted_unique String.le).
  - apply sort_Strings_sorted.
  - apply sort_Strings_sorted.
  - by rewrite !sort_Strings_perm.
Qed.
