(* ===== verification/Labgob.v ===== *)
(** * Checks of the encoder

    Model of src/labgob/labgob.go, which wraps encoding/gob and warns about types
    and values that gob would not transmit as expected.  The types of a program
    are a finite graph [U]: reflection shows for each of them its kind, its fields
    and its element types, and types may be recursive.  gob itself is a parameter
    of the wrappers.

    [checkType] visits every type at most once; the theorem says that it visits
    all types that a value contains and complains once about each of their
    lower-case fields, whatever was checked before. *)

From stdpp Require Import strings gmap fin_sets.
From S2P Require Import Prelude.
#[local] Set Warnings "-register-all".
Local Open Scope string_scope.
Local Open Scope Z_scope.

(** [reflect.Kind]. *)
Inductive Kind :=
| Bool | Int | Int8 | Int16 | Int32 | Int64 | Uint | Uint8 | Uint16 | Uint32 | Uint64 | Uintptr
| Float32 | Float64 | Complex64 | Complex128 | Array | Chan | FuncKind | Interface | Map | Ptr
| Slice | KString | Struct | UnsafePointer.

#[export] Instance Kind_eq_dec : EqDecision Kind.
Proof. solve_decision. Defined.

(** A [reflect.Type], by number, and what is used of it. *)
Abbreviation tid := nat (only parsing).
Record rtype := mkType { kind : Kind; fields : list (string * tid); telem : tid; tkey : tid }.

(** The variables of the package; a nil map of checked types is the empty set. *)
Record labgob := mkLabgob { checked : gset tid; errorCount : Z }.

Definition initial : labgob := mkLabgob ∅ 0.

Definition complain (st : labgob) : labgob := mkLabgob (checked st) (wrap64 (errorCount st + 1)).
Definition mark (t : tid) (st : labgob) : labgob := mkLabgob ({[t]} ∪ checked st) (errorCount st).

Section labgob.
(** [IsUpper name]: [unicode.IsUpper] of the first rune of the name. *)
Context (U : gmap tid rtype) (IsUpper : string → bool).

(** ** Types *)

(** The loops over what a type contains: for each part, whether its field name is
    lower-case, and its type. *)
Fixpoint check_parts (check : tid → labgob → option labgob) (parts : list (bool * tid))
    (st : labgob) : option labgob :=
  match parts with
  | [] => Some st
  | (lower, t) :: parts' => st ← check t (if lower : bool then complain st else st); check_parts check parts' st
  end.

(** [checkType]; [None] when the fuel is used up.  A type that is not in [U] is
    the nil type, whose kind cannot be asked for. *)
Fixpoint checkType (fuel : nat) (t : tid) (st : labgob) : option labgob :=
  match fuel with
  | O => None
  | S fuel =>
      ty ← U !! t;
      if bool_decide (t ∈ checked st) then Some st else
      let st := mark t st in
      match kind ty with
      | Struct =>
          check_parts (checkType fuel) ((fun f => (negb (IsUpper (fst f)), snd f)) <$> fields ty) st
      | Slice | Array | Ptr => check_parts (checkType fuel) [(false, telem ty)] st
      | Map => check_parts (checkType fuel) [(false, telem ty); (false, tkey ty)] st
      | _ => Some st
      end
  end.

(** As many calls can be nested as there are types. *)
Definition check_fuel : nat := S (size (dom U)).

(** [checkValue]: the type of a nil interface is nil. *)
Definition checkValue (t : option tid) (st : labgob) : outcome labgob :=
  match t ≫= (fun t => checkType check_fuel t st) with
  | Some st => Ret st
  | None => Panic NilDereference
  end.

(** ** Values *)

(** A value as reflection shows it: structs and pointers with their parts, values
    of the comparable basic kinds with the answer to "is it the zero value", and
    everything else. *)
Inductive value :=
| VStruct (parts : list (string * value))
| VNil
| VPtr (v : value)
| VBasic (k : Kind) (zero : bool)
| VOther (k : Kind).

Definition is_basic (k : Kind) : bool :=
  match k with
  | Bool | Int | Int8 | Int16 | Int32 | Int64 | Uint | Uint8 | Uint16 | Uint32 | Uint64 | Uintptr
  | Float32 | Float64 | KString => true
  | _ => false
  end.

(** [checkDefault1]; [levels] is 4 - [depth], so that the test [depth > 3] is
    [levels = 0].  The result is the variable [errorCount] and the names that are
    printed, which happens only while it is less than 1. *)
Fixpoint checkDefault1 (levels : nat) (name : string) (v : value) (st : Z * list string)
    : Z * list string :=
  match levels with
  | O => st
  | S levels =>
      match v with
      | VStruct parts =>
          foldl (fun st f =>
            let name1 := if bool_decide (name ≠ "") then name +:+ "." +:+ fst f else fst f in
            checkDefault1 levels name1 (snd f) st) st parts
      | VNil => st
      | VPtr v => checkDefault1 levels name v st
      | VBasic k zero =>
          if is_basic k && negb zero then
            let '(n, printed) := st in
            (wrap64 (n + 1), if n <? 1 then printed ++ [name] else printed)%list
          else st
      | VOther _ => st
      end
  end.

Definition checkDefault (v : option value) (st : labgob) : labgob :=
  match v with
  | None => st
  | Some v => mkLabgob (checked st) (fst (checkDefault1 3 "" v (errorCount st, [])))
  end.

(** ** The wrappers

    [e] is the type and the shape of the argument, [gob] the function of
    encoding/gob that is called. *)

Definition Encode {A} (gob : A) (e : option (tid * value)) (st : labgob) : outcome (A * labgob) :=
  st ← checkValue (fst <$> e) st; Ret (gob, st).

Definition Decode {A} (gob : A) (e : option (tid * value)) (st : labgob) : outcome (A * labgob) :=
  st ← checkValue (fst <$> e) st; Ret (gob, checkDefault (snd <$> e) st).

Definition Register {A} (gob : A) (e : option (tid * value)) (st : labgob) : outcome (A * labgob) :=
  st ← checkValue (fst <$> e) st; Ret (gob, st).

(** ** The graph of types *)

Definition parts (ty : rtype) : list (bool * tid) :=
  match kind ty with
  | Struct => (fun f => (negb (IsUpper (fst f)), snd f)) <$> fields ty
  | Slice | Array | Ptr => [(false, telem ty)]
  | Map => [(false, telem ty); (false, tkey ty)]
  | _ => []
  end.

Definition contains (t u : tid) : Prop := ∃ ty b, U !! t = Some ty ∧ (b, u) ∈ parts ty.

(** Every part of a type of the program is a type of the program. *)
Definition closed_universe : Prop := ∀ t u, contains t u → is_Some (U !! u).

Definition lower_parts (ps : list (bool * tid)) : Z :=
  foldr (fun p n => (if fst p : bool then 1 else 0) + n) 0 ps.

(** The lower-case fields of a type and of a set of types. *)
Definition lower_fields (t : tid) : Z :=
  match U !! t with Some ty => lower_parts (parts ty) | None => 0 end.
Definition lower_total (X : gset tid) : Z := sum_with lower_fields (elements X).

Lemma checkType_S fuel t st :
  checkType (S fuel) t st = ty ← U !! t;
    if bool_decide (t ∈ checked st) then Some st else check_parts (checkType fuel) (parts ty) (mark t st).
Proof.
  simpl. destruct (U !! t) as [ty|]; [|done]. simpl. destruct (bool_decide _); [done|].
  unfold parts. by destruct (kind ty).
Qed.

Lemma lower_total_union X Y : X ## Y → lower_total (X ∪ Y) = lower_total X + lower_total Y.
Proof. intros Hd. unfold lower_total. by rewrite elements_disj_union, sum_with_app. Qed.

(** [t] and what it contains, directly or not. *)
Definition reach : tid → tid → Prop := rtc contains.

(** The effect of a check that started in [st] and ended in [st']: the types [N]
    are new, all of them satisfy [P], everything they contain is checked, and
    [n] lower-case fields were reported besides those of [N]. *)
Record visited (P : tid → Prop) (n : Z) (st st' : labgob) : Prop := {
  v_incl : checked st ⊆ checked st';
  v_new : ∀ u, u ∈ checked st' → u ∈ checked st ∨ P u ∧ is_Some (U !! u);
  v_closed : ∀ u v, u ∈ checked st' → u ∉ checked st → contains u v → v ∈ checked st';
  v_count : errorCount st' =
    wrap64 (errorCount st + n + lower_total (checked st' ∖ checked st))
}.

Definition in_range (st : labgob) : Prop := int_min ≤ errorCount st ≤ int_max.

Lemma visited_range P n st st' : visited P n st st' → in_range st'.
Proof. intros [_ _ _ Hc]. unfold in_range. rewrite Hc. apply wrap64_range. Qed.

Lemma visited_refl P st : in_range st → visited P 0 st st.
Proof.
  intros Hr. split; [done|by left|done|].
  replace (checked st ∖ checked st) with (∅ : gset tid) by set_solver.
  unfold lower_total. rewrite elements_empty. simpl. rewrite wrap64_id; [lia|]. unfold in_range in Hr. lia.
Qed.

Lemma visited_trans (P P' Q : tid → Prop) n n' st1 st2 st3 :
  (∀ u, P u → Q u) → (∀ u, P' u → Q u) →
  visited P n st1 st2 → visited P' n' st2 st3 → visited Q (n + n') st1 st3.
Proof.
  intros HP HP' [I1 N1 C1 E1] [I2 N2 C2 E2]. split.
  - set_solver.
  - intros u Hu. destruct (N2 u Hu) as [Hu2|[? ?]]; [|eauto]. destruct (N1 u Hu2) as [|[? ?]]; eauto.
  - intros u v Hu Hn Hc. destruct (decide (u ∈ checked st2)); [|by eapply C2]. apply I2. by eapply C1.
  - rewrite E2, E1. replace (wrap64 (errorCount st1 + n + lower_total (checked st2 ∖ checked st1)) + n' +
      lower_total (checked st3 ∖ checked st2)) with
      (wrap64 (errorCount st1 + n + lower_total (checked st2 ∖ checked st1)) + (n' +
      lower_total (checked st3 ∖ checked st2))) by lia.
    rewrite wrap64_add. f_equal.
    replace (checked st3 ∖ checked st1)
      with ((checked st2 ∖ checked st1) ∪ (checked st3 ∖ checked st2)).
    + rewrite lower_total_union by set_solver. lia.
    + apply set_eq. intros u. destruct (decide (u ∈ checked st2)); set_solver.
Qed.

Lemma visited_complain P n (b : bool) st st' :
  visited P n (if b then complain st else st) st' → visited P ((if b then 1 else 0) + n) st st'.
Proof.
  destruct b; simpl; intros [I N C E]; (split; [done..|]); simpl in *; rewrite E; [|done].
  set (x := lower_total _). replace (wrap64 (errorCount st + 1) + n + x) with
    (wrap64 (errorCount st + 1) + (n + x)) by lia.
  rewrite wrap64_add. f_equal. lia.
Qed.

(** The loop over the parts of a type, for any check of the parts that does its
    job whenever enough types are left. *)
Lemma check_parts_visited check k ps : ∀ st,
  (∀ t st, is_Some (U !! t) → (size (dom U ∖ checked st) < k)%nat → in_range st →
     ∃ st', check t st = Some st' ∧ visited (reach t) 0 st st' ∧ t ∈ checked st') →
  (∀ b t, (b, t) ∈ ps → is_Some (U !! t)) → (size (dom U ∖ checked st) < k)%nat → in_range st →
  ∃ st', check_parts check ps st = Some st' ∧
    visited (fun u => ∃ b t, (b, t) ∈ ps ∧ reach t u) (lower_parts ps) st st' ∧
    ∀ b t, (b, t) ∈ ps → t ∈ checked st'.
Proof.
  induction ps as [|[b t] ps IH]; intros st Hck Hps Hk Hr; simpl.
  { exists st. split; [done|]. split; [|set_solver]. by apply visited_refl. }
  destruct (Hck t (if b then complain st else st)) as (st1 & Hc1 & Hv1 & Ht1).
  { apply (Hps b). by left. }
  { by destruct b. }
  { destruct b; [|done]. apply wrap64_range. }
  apply visited_complain in Hv1.
  destruct (IH st1 Hck) as (st2 & Hc2 & Hv2 & Hin2).
  { intros b' t' Hin. apply (Hps b'). by right. }
  { eapply Nat.le_lt_trans; [|exact Hk]. apply subseteq_size. pose proof (v_incl _ _ _ _ Hv1). set_solver. }
  { by eapply visited_range. }
  exists st2. rewrite Hc1. split; [done|]. split.
  - replace ((if b then 1 else 0) + lower_parts ps) with ((if b then 1 else 0) + 0 + lower_parts ps) by lia.
    eapply visited_trans; [| |exact Hv1|exact Hv2].
    + intros u Hu. exists b, t. split; [by left|done].
    + intros u (b' & t' & Hin & Hu). exists b', t'. split; [by right|done].
  - intros b' t' [[= -> ->]|Hin]%elem_of_cons; [|by eapply Hin2]. by apply (v_incl _ _ _ _ Hv2).
Qed.

(** Marking [t] and visiting its parts is visiting [t]. *)
Lemma visited_mark t ty st st' :
  U !! t = Some ty → t ∉ checked st →
  visited (fun u => ∃ b v, (b, v) ∈ parts ty ∧ reach v u) (lower_parts (parts ty)) (mark t st) st' →
  (∀ b v, (b, v) ∈ parts ty → v ∈ checked st') →
  visited (reach t) 0 st st' ∧ t ∈ checked st'.
Proof.
  intros Ht Hnt [I N C E] Hps. simpl in *. assert (t ∈ checked st') as Hin by set_solver.
  split; [|done]. split.
  - set_solver.
  - intros u Hu. destruct (N u Hu) as [Hu'|[(b & v & Hv & Hr) Hs]].
    + apply elem_of_union in Hu' as [->%elem_of_singleton|]; [|by left]. right. split; [constructor|eauto].
    + right. split; [|done]. eapply rtc_l; [|exact Hr]. by exists ty, b.
  - intros u v Hu Hn Hc. destruct (decide (u = t)) as [-> |]; [|apply (C u); set_solver].
    destruct Hc as (ty' & b & Hty & Hv). simplify_eq. by eapply Hps.
  - rewrite E. f_equal. replace (checked st' ∖ checked st)
      with ({[t]} ∪ (checked st' ∖ ({[t]} ∪ checked st))).
    + rewrite lower_total_union by set_solver. unfold lower_total at 2. rewrite elements_singleton. simpl.
      unfold lower_fields. rewrite Ht. lia.
    + apply set_eq. intros u. destruct (decide (u = t)); set_solver.
Qed.

Lemma checkType_visited (Hcl : closed_universe) fuel : ∀ t st,
  is_Some (U !! t) → (size (dom U ∖ checked st) < fuel)%nat → in_range st →
  ∃ st', checkType fuel t st = Some st' ∧ visited (reach t) 0 st st' ∧ t ∈ checked st'.
Proof.
  induction fuel as [|fuel IH]; intros t st [ty Ht] Hf Hr; [lia|]. rewrite checkType_S, Ht. simpl.
  destruct (bool_decide (t ∈ checked st)) eqn:Hin; bool_to_prop.
  { exists st. split; [done|]. split; [by apply visited_refl|done]. }
  destruct (check_parts_visited (checkType fuel) fuel (parts ty) (mark t st)) as (st' & Hc & Hv & Hps).
  - exact IH.
  - intros b u Hu. apply (Hcl t). by exists ty, b.
  - simpl. assert (dom U ∖ ({[t]} ∪ checked st) ⊂ dom U ∖ checked st) as Hlt%subset_size; [|lia].
    apply elem_of_dom_2 in Ht. set_solver.
  - done.
  - exists st'. split; [done|]. by eapply visited_mark.
Qed.

(** The checked types are closed under containment; this holds between calls. *)
Record wf (st : labgob) : Prop := {
  wf_types : checked st ⊆ dom U;
  wf_closed : ∀ u v, u ∈ checked st → contains u v → v ∈ checked st;
  wf_range : in_range st
}.

Lemma initial_wf : wf initial.
Proof. split; simpl; [set_solver..|]. unfold in_range, int_min, int_max. simpl. lia. Qed.

Lemma wf_reach st t u : wf st → t ∈ checked st → reach t u → u ∈ checked st.
Proof. intros Hw Ht Hr. induction Hr as [|t v u Hc _ IH]; [done|]. apply IH. by eapply wf_closed. Qed.

(** In any state that the package can be in, checking a type of the program
    terminates, leaves the package in such a state, marks exactly the types
    contained in [t] besides those already marked, and adds the number of
    lower-case fields of the types that were not marked before. *)
Lemma checkType_complete (Hcl : closed_universe) t st :
  is_Some (U !! t) → wf st →
  ∃ st', checkValue (Some t) st = Ret st' ∧ wf st' ∧
    (∀ u, u ∈ checked st' ↔ u ∈ checked st ∨ reach t u) ∧
    errorCount st' = wrap64 (errorCount st + lower_total (checked st' ∖ checked st)).
Proof.
  intros Ht [W1 W2 W3]. destruct (checkType_visited Hcl check_fuel t st) as (st' & Hc & Hv & Hin); [done| |done|].
  { unfold check_fuel. assert (size (dom U ∖ checked st) ≤ size (dom U))%nat; [|lia].
    apply subseteq_size. set_solver. }
  exists st'. unfold checkValue. cbn [mbind option_bind]. rewrite Hc. destruct (Hv) as [I N C E].
  assert (wf st') as Hw.
  { split; [| |by eapply visited_range].
    - intros u Hu. destruct (N u Hu) as [|[_ ?]]; [by apply W1|]. by apply elem_of_dom.
    - intros u v Hu Hc'. destruct (decide (u ∈ checked st)); [|by eapply C]. apply I. by eapply W2. }
  split_and!; [done|done| |].
  - intros u. split; [intros Hu; destruct (N u Hu) as [|[? _]]; eauto|].
    intros [Hu|Hu]; [by apply I|by eapply wf_reach].
  - rewrite E. f_equal. lia.
Qed.

(** Calls of [Encode], [Register] and the like, one after the other. *)
Fixpoint check_values (ts : list tid) (st : labgob) : outcome labgob :=
  match ts with
  | [] => Ret st
  | t :: ts' => st ← checkValue (Some t) st; check_values ts' st
  end.

Lemma check_values_spec (Hcl : closed_universe) ts : ∀ st,
  Forall (fun t => is_Some (U !! t)) ts → wf st → errorCount st = wrap64 (lower_total (checked st)) →
  ∃ st', check_values ts st = Ret st' ∧ wf st' ∧
    (∀ u, u ∈ checked st' ↔ u ∈ checked st ∨ ∃ t, t ∈ ts ∧ reach t u) ∧
    errorCount st' = wrap64 (lower_total (checked st')).
Proof.
  induction ts as [|t ts IH]; intros st Hts Hw Hcount; simpl.
  { exists st. split_and!; [done..| |done]. set_solver. }
  apply Forall_cons in Hts as [Ht Hts].
  destruct (checkType_complete Hcl t st Ht Hw) as (st1 & -> & Hw1 & Hin1 & Hc1).
  destruct (IH st1 Hts Hw1) as (st' & Hs' & Hw' & Hin' & Hc').
  { rewrite Hc1, Hcount, wrap64_add, <- lower_total_union by set_solver. do 2 f_equal.
    apply set_eq. intros u. rewrite elem_of_union, elem_of_difference, Hin1.
    destruct (decide (u ∈ checked st)); naive_solver. }
  exists st'. split_and!; [done..| |done]. intros u. rewrite Hin', Hin1. set_solver.
Qed.

(** C39: every lower-case field is reported exactly once.  After any sequence of
    checks of types of the program, in any order and with repetitions, the checks
    have terminated (recursive types included), the marked types are exactly those
    contained in the checked ones, and the error count is the number of their
    lower-case fields. *)
Theorem each_field_reported_once (ts : list tid) :
  closed_universe → Forall (fun t => is_Some (U !! t)) ts →
  ∃ st, check_values ts initial = Ret st ∧
    (∀ u, u ∈ checked st ↔ ∃ t, t ∈ ts ∧ reach t u) ∧
    errorCount st = wrap64 (lower_total (checked st)).
Proof.
  intros Hcl Hts. destruct (check_values_spec Hcl ts initial Hts initial_wf) as (st & Hs & _ & Hin & Hc).
  { unfold lower_total. simpl. by rewrite elements_empty. }
  exists st. split_and!; [done| |done]. intros u. rewrite Hin. set_solver.
Qed.

End labgob.

(** ** Default values *)

(** The depths at which a value has a non-zero part of a basic kind; the value
    itself is at depth [d]. *)
Fixpoint nondefault (d : nat) (v : value) : list nat :=
  match v with
  | VStruct parts => flat_map (fun f => nondefault (S d) (snd f)) parts
  | VNil => []
  | VPtr v => nondefault (S d) v
  | VBasic k zero => if is_basic k && negb zero then [d] else []
  | VOther _ => []
  end.

Definition shallow (ds : list nat) : Z := Z.of_nat (length (filter (fun d => d ≤ 3)%nat ds)).

Lemma nondefault_ge : ∀ v d, Forall (fun x => d ≤ x)%nat (nondefault d v).
Proof.
  fix IH 1. intros [ps| |v|k zero|k] d; simpl; [|constructor|..|constructor].
  - induction ps as [|[nm v] ps IHps]; simpl; [constructor|]. apply Forall_app. split; [|done].
    eapply Forall_impl; [apply IH|]. simpl. lia.
  - eapply Forall_impl; [apply IH|]. simpl. lia.
  - destruct (is_basic k && negb zero); repeat constructor.
Qed.

Lemma shallow_app ds es : shallow (ds ++ es) = shallow ds + shallow es.
Proof. unfold shallow. rewrite filter_app, length_app. lia. Qed.

Lemma shallow_deep v : shallow (nondefault 4 v) = 0.
Proof.
  unfold shallow. assert (filter (fun d => d ≤ 3)%nat (nondefault 4 v) = []) as ->; [|done].
  pose proof (nondefault_ge v 4) as Hall. induction Hall as [|x l Hx Hl IHl]; [done|].
  rewrite filter_cons_False by lia. done.
Qed.

Lemma shallow_nil n : int_min ≤ n ≤ int_max → n = wrap64 (n + shallow []).
Proof. intros Hn. change (shallow []) with 0. rewrite Z.add_0_r. by rewrite wrap64_id. Qed.

Lemma checkDefault1_count levels : ∀ name v st,
  (levels ≤ 3)%nat → int_min ≤ fst st ≤ int_max →
  fst (checkDefault1 levels name v st) = wrap64 (fst st + shallow (nondefault (4 - levels) v)).
Proof.
  induction levels as [|levels IH]; intros name v st Hl Hst.
  { simpl checkDefault1. replace (4 - 0)%nat with 4%nat by lia. rewrite shallow_deep, wrap64_id; lia. }
  replace (4 - levels)%nat with (S (4 - S levels))%nat in IH by lia.
  destruct v as [ps| |v|k zero|k]; cbn [checkDefault1 nondefault].
  - revert st Hst. induction ps as [|[nm v] ps IHps]; intros st Hst; cbn [foldl flat_map].
    { by apply shallow_nil. }
    rewrite IHps, IH, wrap64_add, shallow_app; [f_equal; simpl; lia|lia|done|].
    rewrite IH by (done || lia). apply wrap64_range.
  - by apply shallow_nil.
  - rewrite IH by (done || lia). done.
  - destruct (is_basic k && negb zero); [|by apply shallow_nil].
    destruct st as [n printed]. unfold shallow. rewrite filter_cons_True by lia. simpl. f_equal; lia.
  - by apply shallow_nil.
Qed.

(** Decoding into a value that has non-zero parts.  [Decode] counts an error
    for every non-zero part of a basic kind at depth at most 3, and no others:
    parts deeper inside, and slices, maps and interfaces at any depth, are not
    reported. *)
Theorem checkDefault_counts_shallow v st :
  int_min ≤ errorCount st ≤ int_max →
  errorCount (checkDefault (Some v) st) = wrap64 (errorCount st + shallow (nondefault 1 v)) ∧
  checked (checkDefault (Some v) st) = checked st.
Proof.
  intros Hst. split; [|done]. cbn [checkDefault errorCount].
  rewrite checkDefault1_count; [done|lia|done].
Qed.

(** A pointer to a struct whose only field is a struct with a non-zero number:
    the number is at depth 4. *)
Definition nested_reply : value := VPtr (VStruct [("A", VStruct [("X", VBasic Int false)])]).

Lemma checkDefault_counts_shallow_witness :
  errorCount (checkDefault (Some nested_reply) initial) = 0.
Proof.
  destruct (checkDefault_counts_shallow nested_reply initial) as [-> _]; [|done].
  unfold int_min, int_max. simpl. lia.
Defined.

(** A recursive struct type with one lower-case field: [type T struct { next *T }]. *)
Definition demo_types : gmap tid rtype :=
  {[0%nat := mkType Struct [("next", 1%nat)] 0 0; 1%nat := mkType Ptr [] 0 0]}.

(** Names of ASCII letters. *)
Definition ascii_upper (name : string) : bool :=
  match name with
  | String c _ => let n := Ascii.nat_of_ascii c in (Nat.leb 65 n && Nat.leb n 90)%bool
  | _ => false
  end.

Lemma demo_types_closed : closed_universe demo_types ascii_upper.
Proof.
  intros t u (ty & b & Ht & Hin). unfold demo_types in Ht. apply lookup_insert_Some in Ht as [[<- <-]|[_ Ht]].
  - apply list_elem_of_singleton in Hin as [= _ ->]. by vm_compute; eexists.
  - apply lookup_singleton_Some in Ht as [<- <-]. apply list_elem_of_singleton in Hin as [= _ ->].
    by vm_compute; eexists.
Qed.

Lemma each_field_reported_once_witness :
  ∃ st, check_values demo_types ascii_upper [1%nat; 0%nat; 1%nat] initial = Ret st ∧ errorCount st = 1.
Proof.
  destruct (each_field_reported_once demo_types ascii_upper [1%nat; 0%nat; 1%nat]) as (st & Hs & _ & Hc).
  - apply demo_types_closed.
  - repeat constructor; by vm_compute; eexists.
  - exists st. split; [exact Hs|]. vm_compute in Hs. injection Hs as <-. reflexivity.
Defined.
