(* ===== verification/RpcServer.v ===== *)
(** * Servers and services of the simulated network

    Model of [Server], [Service], [MakeService] and of the two [dispatch]
    methods of src/labrpc/labrpc.go.

    A service wraps an arbitrary object and finds its handlers by reflection, so
    what reflection shows of the object is data here: the list of its methods
    with the names and kinds of their parameters.  The codec (labgob on top of
    encoding/gob) is the class [Codec]; what the RPC layer relies on is
    [CodecLaws]. *)

From stdpp Require Import strings gmap.
From Stdlib Require Import Ascii Strings.Byte.
From S2P Require Import Prelude GoString Labgob.
Local Open Scope string_scope.
Local Open Scope Z_scope.

(** What the RPC layer uses of [reflect.Type] and of the codec.  [decode bs v] is
    the value left in [v] by decoding [bs] into it and whether the error is nil. *)
Class Codec (T V : Type) := {
  Name : T → string;
  KindOf : T → Kind;
  Elem : T → T;
  AssignableTo : T → T → bool;
  TypeOf : V → T;
  Zero : T → V;
  encode : V → list byte * bool;
  decode : list byte → V → V * bool
}.

(** Decoding into a variable with the zero value restores what was encoded. *)
Class CodecLaws (T V : Type) `{Codec T V} := {
  encode_ok : ∀ v, snd (encode v) = true;
  decode_encode : ∀ v, decode (fst (encode v)) (Zero (TypeOf v)) = (v, true)
}.

Record reqMsg {E T : Type} := mkReq {
  endname : E;
  svcMeth : string;
  argsType : T;
  args : list byte
}.
Arguments reqMsg : clear implicits.
Arguments mkReq {E T} _ _ _ _.

Record replyMsg := mkReply { ok : bool; reply : list byte }.

Section server.
Context {T V W E : Type} `{Codec T V}.

(** [reflect.Method]; [In] includes the receiver.  [Func args reply w] runs the
    handler of the wrapped object when the program is in state [w]: [None] when
    it cannot return yet, otherwise the final value of the reply variable, the
    error and the new state. *)
Record Method := mkMethod {
  mname : string;
  PkgPath : string;
  In : list T;
  Out : list T;
  Func : V → V → W → option (V * option string * W)
}.

Record Service := mkService { name : string; methods : gmap string Method }.

(** The condition under which a method is a handler.  The tests are evaluated
    from left to right and stop at the first that holds, so [In(1)], [In(3)] and
    [Out(0)] are only taken when they exist. *)
Definition unsuitable (m : Method) : bool :=
  bool_decide (PkgPath m ≠ "") ||
  bool_decide (length (In m) ≠ 4%nat) ||
  match In m !! 1%nat with Some t => bool_decide (Name t ≠ "Context") | None => true end ||
  match In m !! 3%nat with Some t => bool_decide (KindOf t ≠ Ptr) | None => true end ||
  bool_decide (length (Out m) ≠ 1%nat) ||
  match Out m !! 0%nat with Some t => bool_decide (Name t ≠ "error") | None => true end.

(** The body of the loop of [MakeService]. *)
Definition add_method (acc : gmap string Method) (m : Method) : gmap string Method :=
  if unsuitable m then acc else <[mname m := m]> acc.

(** [MakeService]: [typeName] is the name of the type that [rcvr] is or points
    to, [ms] are its methods in the order of reflection. *)
Definition MakeService (typeName : string) (ms : list Method) : Service :=
  mkService typeName (foldl add_method ∅ ms).

Record Server := mkServer { services : gmap string Service; count : Z }.

Definition MakeServer : Server := mkServer ∅ 0.

Definition AddService (svc : Service) (rs : Server) : Server :=
  mkServer (<[name svc := svc]> (services rs)) (count rs).

Definition GetCount (rs : Server) : Z := count rs.

(** [req.svcMeth] split at its last dot; without a dot the slice expression is
    out of range. *)
Definition split_svcMeth (svcMeth : string) : outcome (string * string) :=
  let dot := LastIndex svcMeth "."%char in
  serviceName ← str_slice svcMeth 0 dot;
  methodName ← str_slice svcMeth (dot + 1) (slen svcMeth);
  Ret (serviceName, methodName).

(** The locked part of [Server.dispatch]: the service and the name of the method
    that will be called. *)
Definition Server_dispatch (req : reqMsg E T) (rs : Server) : outcome (Service * string * Server) :=
  let rs := mkServer (services rs) (wrap64 (count rs + 1)) in
  '(serviceName, methodName) ← split_svcMeth (svcMeth req);
  match services rs !! serviceName with
  | Some service => Ret (service, methodName, rs)
  | None => Panic Fatal
  end.

(** [function.Call] panics when an argument is not assignable to the type of the
    parameter; [ctxType] is the type of [context.Background()]. *)
Definition call_types_ok (ctxType : T) (m : Method) (args : V) : bool :=
  match In m !! 1%nat, In m !! 2%nat with
  | Some ctx, Some p => AssignableTo ctxType ctx && AssignableTo (TypeOf args) p
  | _, _ => false
  end.

(** [Service.dispatch].  [None] when the handler has not returned; the errors of
    decoding the arguments, of the handler and of encoding the reply are
    discarded by the source. *)
Definition Service_dispatch (ctxType : T) (svc : Service) (methname : string) (req : reqMsg E T)
    (w : W) : option (outcome (replyMsg * W)) :=
  match methods svc !! methname with
  | Some method =>
      let '(args, _) := decode (args req) (Zero (argsType req)) in
      match In method !! 3%nat with
      | None => Some (Panic IndexOutOfRange)
      | Some replyType =>
          let replyv := Zero (Elem replyType) in
          if call_types_ok ctxType method args then
            match Func method args replyv w with
            | None => None
            | Some (replyv, _, w) => Some (Ret (mkReply true (fst (encode replyv)), w))
            end
          else Some (Panic BadTypeAssertion)
      end
  | None => Some (Panic Fatal)
  end.

(** ** Lemmas *)

Lemma split_svcMeth_qualified svc meth :
  has_byte "."%char meth = false → split_svcMeth (svc ++ String "."%char meth) = Ret (svc, meth).
Proof.
  intros Hm. unfold split_svcMeth. rewrite LastIndex_app by done. rewrite str_slice_prefix. simpl.
  replace (svc ++ String "."%char meth) with ((svc ++ ".") ++ meth).
  2: { clear. induction svc as [|a svc IH]; [done|].
       change (String a ((svc ++ ".") ++ meth) = String a (svc ++ String "."%char meth)). by f_equal. }
  replace (slen svc + 1) with (slen (svc ++ ".")) by (rewrite slen_app; done).
  by rewrite str_slice_suffix.
Qed.

Lemma split_svcMeth_no_dot s : has_byte "."%char s = false → split_svcMeth s = Panic SliceOutOfRange.
Proof.
  intros Hs. unfold split_svcMeth. rewrite (proj2 (LastIndex_none s "."%char) Hs). done.
Qed.

(** Splitting panics exactly on names without a dot. *)
Lemma split_svcMeth_ret s p : split_svcMeth s = Ret p →
  s = fst p ++ String "."%char (snd p) ∧ has_byte "."%char (snd p) = false.
Proof.
  destruct (has_byte "."%char s) eqn:Es; [|by rewrite split_svcMeth_no_dot].
  destruct (LastIndex_split _ _ Es) as (u & v & -> & Hv).
  rewrite split_svcMeth_qualified by done. by intros [= <-].
Qed.

Lemma MakeService_foldl ms acc k m :
  foldl add_method acc ms !! k = Some m →
  (m ∈ ms ∧ unsuitable m = false ∧ mname m = k) ∨ acc !! k = Some m.
Proof.
  revert acc. induction ms as [|m' ms IH]; intros acc; simpl; [by right|].
  intros [(?&?&?)|Ha]%IH; [left; by split_and!; [right|..]|]. unfold add_method in Ha.
  destruct (unsuitable m') eqn:Es; [by right|].
  apply lookup_insert_Some in Ha as [[<- <-]|[_ Ha]]; [left; by split_and!; [left|..]|by right].
Qed.

Lemma MakeService_complete ms acc m :
  NoDup (mname <$> ms) → m ∈ ms → unsuitable m = false →
  foldl add_method acc ms !! mname m = Some m.
Proof.
  revert acc. induction ms as [|m' ms IH]; intros acc Hnd Hin Hm; [by apply elem_of_nil in Hin|].
  apply NoDup_cons in Hnd as [Hni Hnd]. simpl. apply elem_of_cons in Hin as [->|Hin]; [|by apply IH].
  clear IH Hnd.
  assert (∀ acc, acc !! mname m' = Some m' →
    foldl add_method acc ms !! mname m' = Some m')
    as Hkeep; [|apply Hkeep; unfold add_method; by rewrite Hm, lookup_insert_eq].
  induction ms as [|m2 ms IH2]; intros acc2 Ha; simpl; [done|].
  apply not_elem_of_cons in Hni as [Hne Hni]. apply IH2; [done|].
  unfold add_method. destruct (unsuitable m2); [done|]. by rewrite lookup_insert_ne.
Qed.

(** The methods of a service are exactly the suitable methods of the object
    (whose names are distinct, as the method names of a Go type are). *)
Lemma MakeService_methods typeName ms k m :
  NoDup (mname <$> ms) →
  methods (MakeService typeName ms) !! k = Some m ↔ m ∈ ms ∧ unsuitable m = false ∧ mname m = k.
Proof.
  intros Hnd. split.
  - intros [?|He]%MakeService_foldl; [done|]. by rewrite lookup_empty in He.
  - intros (Hin & Hm & <-). by apply MakeService_complete.
Qed.

Lemma suitable_reply_type m : unsuitable m = false → ∃ t, In m !! 3%nat = Some t ∧ KindOf t = Ptr.
Proof.
  unfold unsuitable. intros Hm. bool_to_prop. destruct (In m !! 3%nat) as [t|]; [|done].
  exists t. split; [done|]. bool_to_prop. by apply dec_stable.
Qed.

End server.

Arguments Method : clear implicits.
Arguments Service : clear implicits.
Arguments Server : clear implicits.
