(* ===== verification/Network.v ===== *)
(** * The simulated network

    Model of [Network], [ClientEnd] and [processReq] of src/labrpc/labrpc.go.

    The methods of [Network] run under its mutex and are functions on its state.
    A call of [ClientEnd.Call] becomes an entry of [calls]: its request, the
    point that the goroutine [processReq] has reached ([pc]) and the goroutine
    that runs the handler ([goroutine]).  [step] interleaves the goroutines of
    all calls, changes of the network and everything else that may change the
    state [W] of the program.  Random draws and timers are nondeterministic.  The
    history [log] is not part of the program; it records what the theorems of
    NetworkProps speak about. *)

From stdpp Require Import strings gmap.
From Stdlib Require Import Strings.Byte.
From S2P Require Import Prelude GoString RpcServer.
Local Open Scope Z_scope.

Definition wrap32 (z : Z) : Z := (z + 2 ^ 31) `mod` 2 ^ 32 - 2 ^ 31.

Section network.
Context {T V W E S : Type} `{Codec T V} `{Countable E} `{Countable S}.
Abbreviation Server := (RpcServer.Server T V W) (only parsing).
Abbreviation Service := (RpcServer.Service T V W) (only parsing).
Abbreviation request := (reqMsg E T) (only parsing).
(** A [*Server], by number. *)
Abbreviation server_ref := nat (only parsing).

(** [ends] are the names of the client ends, which differ in nothing else; nil
    is [None] in [servers] and [connections], and [done] tells whether the
    channel of this name is closed. *)
Record Network := mkNetwork {
  reliable : bool;
  longDelays : bool;
  longReordering : bool;
  ends : gset E;
  enabled : gmap E bool;
  servers : gmap S (option server_ref);
  connections : gmap E (option S);
  done : bool;
  net_count : Z;
  net_bytes : Z
}.

Definition MakeNetwork : Network := mkNetwork true false false ∅ ∅ ∅ ∅ false 0 0.

Definition Reliable (yes : bool) (rn : Network) : Network :=
  mkNetwork yes (longDelays rn) (longReordering rn) (ends rn) (enabled rn) (servers rn)
    (connections rn) (done rn) (net_count rn) (net_bytes rn).

Definition LongReordering (yes : bool) (rn : Network) : Network :=
  mkNetwork (reliable rn) (longDelays rn) yes (ends rn) (enabled rn) (servers rn)
    (connections rn) (done rn) (net_count rn) (net_bytes rn).

Definition LongDelays (yes : bool) (rn : Network) : Network :=
  mkNetwork (reliable rn) yes (longReordering rn) (ends rn) (enabled rn) (servers rn)
    (connections rn) (done rn) (net_count rn) (net_bytes rn).

(** Closing the channel a second time panics. *)
Definition Cleanup (rn : Network) : outcome Network :=
  if done rn then Panic ClosedChannel else
  Ret (mkNetwork (reliable rn) (longDelays rn) (longReordering rn) (ends rn) (enabled rn)
    (servers rn) (connections rn) true (net_count rn) (net_bytes rn)).

Definition MakeEnd (endname : E) (rn : Network) : outcome Network :=
  if bool_decide (endname ∈ ends rn) then Panic Fatal else
  Ret (mkNetwork (reliable rn) (longDelays rn) (longReordering rn) ({[endname]} ∪ ends rn)
    (<[endname := false]> (enabled rn)) (servers rn) (<[endname := None]> (connections rn))
    (done rn) (net_count rn) (net_bytes rn)).

Definition set_server (servername : S) (rs : option server_ref) (rn : Network) : Network :=
  mkNetwork (reliable rn) (longDelays rn) (longReordering rn) (ends rn) (enabled rn)
    (<[servername := rs]> (servers rn)) (connections rn) (done rn) (net_count rn) (net_bytes rn).

Definition AddServer (servername : S) (rs : server_ref) (rn : Network) : Network :=
  set_server servername (Some rs) rn.

Definition DeleteServer (servername : S) (rn : Network) : Network :=
  set_server servername None rn.

Definition Connect (endname : E) (servername : S) (rn : Network) : Network :=
  mkNetwork (reliable rn) (longDelays rn) (longReordering rn) (ends rn) (enabled rn)
    (servers rn) (<[endname := Some servername]> (connections rn)) (done rn) (net_count rn)
    (net_bytes rn).

Definition Enable (endname : E) (yes : bool) (rn : Network) : Network :=
  mkNetwork (reliable rn) (longDelays rn) (longReordering rn) (ends rn)
    (<[endname := yes]> (enabled rn)) (servers rn) (connections rn) (done rn) (net_count rn)
    (net_bytes rn).

(** Reading the maps: a missing key gives the zero value. *)
Definition is_enabled (rn : Network) (e : E) : bool := default false (enabled rn !! e).
Definition connected_to (rn : Network) (e : E) : option S := mjoin (connections rn !! e).
Definition server_of (rn : Network) (s : S) : option server_ref := mjoin (servers rn !! s).

Definition GetTotalCount (rn : Network) : Z := net_count rn.
Definition GetTotalBytes (rn : Network) : Z := net_bytes rn.

(** [GetCount] locks the mutex of the server, so that a nil server panics. *)
Definition GetCount (objs : gmap server_ref Server) (servername : S) (rn : Network) : outcome Z :=
  match server_of rn servername ≫= (objs !!.) with
  | Some rs => Ret (RpcServer.GetCount rs)
  | None => Panic NilDereference
  end.

Definition readEndnameInfo (endname : E) (rn : Network)
    : bool * option S * option server_ref * bool * bool :=
  let servername := connected_to rn endname in
  let server := match servername with Some s => server_of rn s | None => None end in
  (is_enabled rn endname, servername, server, reliable rn, longReordering rn).

Definition isServerDead (endname : E) (servername : S) (server : server_ref) (rn : Network) : bool :=
  negb (is_enabled rn endname) || bool_decide (server_of rn servername ≠ Some server).

(** The counters of the goroutine that receives from [endCh]. *)
Definition count_request (nargs : nat) (rn : Network) : Network :=
  mkNetwork (reliable rn) (longDelays rn) (longReordering rn) (ends rn) (enabled rn) (servers rn)
    (connections rn) (done rn) (wrap32 (net_count rn + 1))
    (wrap64 (net_bytes rn + Z.of_nat nargs)).

Definition count_reply (nreply : nat) (rn : Network) : Network :=
  mkNetwork (reliable rn) (longDelays rn) (longReordering rn) (ends rn) (enabled rn) (servers rn)
    (connections rn) (done rn) (net_count rn) (wrap64 (net_bytes rn + Z.of_nat nreply)).

(** ** One call *)

(** Where [processReq] stands.  [Chosen]: the server has been looked up and
    [reliable] and [longreordering] read; [Waiting]: in the loop around
    [select]; [Leaving r]: after the loop, where [r] is the reply when [replyOK];
    [TimingOut] and [Delayed]: a timer will send the answer; [Answered]: the
    answer has been handed to the caller. *)
Inductive pc :=
| Arrived
| TimingOut
| Chosen (servername : S) (server : server_ref) (rel longr : bool)
| Waiting (servername : S) (server : server_ref) (rel longr : bool)
| Leaving (servername : S) (server : server_ref) (rel longr : bool) (r : option replyMsg)
| Delayed (r : replyMsg)
| Answered (r : replyMsg).

(** The goroutine that runs [server.dispatch]. *)
Inductive goroutine :=
| NotStarted
| Started (server : server_ref)
| Calling (server : server_ref) (svc : Service) (methname : string)
| Sending (r : replyMsg)
| Finished.

Definition no_reply : replyMsg := mkReply false [].

Definition processReq_read (req : request) (rn : Network) : pc :=
  let '(enabled, servername, server, reliable, longreordering) := readEndnameInfo (endname req) rn in
  match enabled, servername, server with
  | true, Some servername, Some server => Chosen servername server reliable longreordering
  | _, _, _ => TimingOut
  end.

(** After the short delay; [r] is the value of [rand.Int()]. *)
Definition processReq_start (r : Z) (servername : S) (server : server_ref) (rel longr : bool)
    : pc * goroutine :=
  if negb rel && (r `mod` 1000 <? 100) then (Answered no_reply, NotStarted)
  else (Waiting servername server rel longr, Started server).

(** The timer of the [select]. *)
Definition processReq_tick (req : request) (servername : S) (server : server_ref) (rel longr : bool)
    (rn : Network) : pc :=
  if isServerDead (endname req) servername server rn
  then Leaving servername server rel longr None else Waiting servername server rel longr.

(** After the loop; [r1] is a value of [rand.Int()], [r2] of [rand.Intn(900)]. *)
Definition processReq_finish (r1 r2 : Z) (req : request) (servername : S) (server : server_ref)
    (rel longr : bool) (r : option replyMsg) (rn : Network) : pc * Network :=
  let serverDead := isServerDead (endname req) servername server rn in
  match r with
  | None => (Answered no_reply, rn)
  | Some r =>
      if serverDead then (Answered no_reply, rn)
      else if negb rel && (r1 `mod` 1000 <? 100) then (Answered no_reply, rn)
      else if longr && (r2 <? 600) then (Delayed r, rn)
      else (Answered r, count_reply (length (reply r)) rn)
  end.

(** ** The system *)

Record call := mkCall { creq : request; cpc : pc; cgo : goroutine }.

(** History: [processReq] chose a server, with the network at that time; a
    handler was run on a server, with its reply; the check after the loop found
    the server alive; a call was answered; a server was added. *)
Inductive event :=
| EChosen (i : nat) (rn : Network)
| EExec (i : nat) (server : server_ref) (r : replyMsg) (rn : Network)
| EAlive (i : nat) (rn : Network)
| EAnswer (i : nat) (r : replyMsg)
| EAdd (server : server_ref).

Record sys := mkSys {
  net : Network;
  objs : gmap server_ref Server;
  calls : list call;
  world : W;
  log : list event
}.

Definition set_call (i : nat) (c : call) (n : Network) (es : list event) (s : sys) : sys :=
  mkSys n (objs s) (<[i := c]> (calls s)) (world s) (log s ++ es).

Definition chosen_event (i : nat) (p : pc) (rn : Network) : list event :=
  match p with Chosen _ _ _ _ => [EChosen i rn] | _ => [] end.

Definition answer_event (i : nat) (p : pc) : list event :=
  match p with Answered r => [EAnswer i r] | _ => [] end.

(** The timers armed with [time.AfterFunc]. *)
Definition fire (p : pc) (rn : Network) : pc * Network :=
  match p with
  | TimingOut => (Answered no_reply, rn)
  | Delayed r => (Answered r, count_reply (length (reply r)) rn)
  | _ => (p, rn)
  end.

Context (ctxType : T).

(** Calls of the exported methods that change the network. *)
Inductive admin :=
| AReliable (yes : bool) | ALongReordering (yes : bool) | ALongDelays (yes : bool)
| ACleanup | AMakeEnd (e : E) | AAddServer (s : S) (rs : server_ref) | ADeleteServer (s : S)
| AConnect (e : E) (s : S) | AEnable (e : E) (yes : bool).

Definition exec_admin (a : admin) (rn : Network) : outcome Network :=
  match a with
  | AReliable yes => Ret (Reliable yes rn)
  | ALongReordering yes => Ret (LongReordering yes rn)
  | ALongDelays yes => Ret (LongDelays yes rn)
  | ACleanup => Cleanup rn
  | AMakeEnd e => MakeEnd e rn
  | AAddServer s rs => Ret (AddServer s rs rn)
  | ADeleteServer s => Ret (DeleteServer s rn)
  | AConnect e s => Ret (Connect e s rn)
  | AEnable e yes => Ret (Enable e yes rn)
  end.

Definition admin_event (a : admin) : list event :=
  match a with AAddServer _ rs => [EAdd rs] | _ => [] end.

(** [ClientEnd.Call] up to the point where it waits for the reply: [None] when it
    notices that the network is closed and returns false.  The goroutine that
    receives requests notices this at a time of its own, so that a request may
    still be [received]. *)
Definition Call_send (received : bool) (e : E) (svcMeth : string) (v : V) (s : sys) : outcome (option sys) :=
  let '(bs, eok) := encode v in
  if negb eok then Panic ExplicitPanic else
  if done (net s) && negb received then Ret None else
  Ret (Some (mkSys (count_request (length bs) (net s)) (objs s)
    (calls s ++ [mkCall (mkReq e svcMeth (TypeOf v) bs) Arrived NotStarted]) (world s) (log s))).

(** What [Call] returns, and what it leaves in the reply variable, when it has
    got the answer [r]. *)
Definition Call_return (r : replyMsg) (replyv : V) : outcome (bool * V) :=
  if ok r then
    let '(v, dok) := decode (reply r) replyv in
    if dok : bool then Ret (true, v) else Panic Fatal
  else Ret (false, replyv).

(** A step of call number [i]. *)
Inductive call_step (i : nat) (s : sys) : outcome sys → Prop :=
| cs_read c :
    calls s !! i = Some c → cpc c = Arrived →
    call_step i s (Ret (set_call i (mkCall (creq c) (processReq_read (creq c) (net s)) (cgo c))
      (net s) (chosen_event i (processReq_read (creq c) (net s)) (net s)) s))
| cs_start c r sn srv rel lr p g :
    calls s !! i = Some c → cpc c = Chosen sn srv rel lr → 0 ≤ r →
    processReq_start r sn srv rel lr = (p, g) →
    call_step i s (Ret (set_call i (mkCall (creq c) p g) (net s) (answer_event i p) s))
| cs_dispatch c srv rs svc meth rs' :
    calls s !! i = Some c → cgo c = Started srv → objs s !! srv = Some rs →
    Server_dispatch (creq c) rs = Ret (svc, meth, rs') →
    call_step i s (Ret (mkSys (net s) (<[srv := rs']> (objs s))
      (<[i := mkCall (creq c) (cpc c) (Calling srv svc meth)]> (calls s)) (world s) (log s)))
| cs_dispatch_panic c srv rs e :
    calls s !! i = Some c → cgo c = Started srv → objs s !! srv = Some rs →
    Server_dispatch (creq c) rs = Panic e → call_step i s (Panic e)
| cs_execute c srv svc meth r w' :
    calls s !! i = Some c → cgo c = Calling srv svc meth →
    Service_dispatch ctxType svc meth (creq c) (world s) = Some (Ret (r, w')) →
    call_step i s (Ret (mkSys (net s) (objs s) (<[i := mkCall (creq c) (cpc c) (Sending r)]> (calls s))
      w' (log s ++ [EExec i srv r (net s)])))
| cs_execute_panic c srv svc meth e :
    calls s !! i = Some c → cgo c = Calling srv svc meth →
    Service_dispatch ctxType svc meth (creq c) (world s) = Some (Panic e) → call_step i s (Panic e)
| cs_receive c sn srv rel lr r :
    calls s !! i = Some c → cpc c = Waiting sn srv rel lr → cgo c = Sending r →
    call_step i s (Ret (set_call i (mkCall (creq c) (Leaving sn srv rel lr (Some r)) Finished)
      (net s) [] s))
| cs_tick c sn srv rel lr :
    calls s !! i = Some c → cpc c = Waiting sn srv rel lr →
    call_step i s (Ret (set_call i
      (mkCall (creq c) (processReq_tick (creq c) sn srv rel lr (net s)) (cgo c)) (net s) [] s))
(** the goroutine that drains [ech] after a dead server was noticed *)
| cs_drain c r p :
    calls s !! i = Some c → cpc c = p → (∀ sn srv rel lr, p ≠ Waiting sn srv rel lr) →
    cgo c = Sending r →
    call_step i s (Ret (set_call i (mkCall (creq c) p Finished) (net s) [] s))
| cs_finish c r1 r2 sn srv rel lr r p n :
    calls s !! i = Some c → cpc c = Leaving sn srv rel lr r → 0 ≤ r1 → 0 ≤ r2 < 900 →
    processReq_finish r1 r2 (creq c) sn srv rel lr r (net s) = (p, n) →
    call_step i s (Ret (set_call i (mkCall (creq c) p (cgo c)) n
      ((if bool_decide (r ≠ None) && negb (isServerDead (endname (creq c)) sn srv (net s))
        then [EAlive i (net s)] else []) ++ answer_event i p) s))
| cs_fire c p n :
    calls s !! i = Some c → cpc c = TimingOut ∨ (∃ r, cpc c = Delayed r) →
    fire (cpc c) (net s) = (p, n) →
    call_step i s (Ret (set_call i (mkCall (creq c) p (cgo c)) n (answer_event i p) s)).

(** Everything else. *)
Inductive other_step (s : sys) : outcome sys → Prop :=
| os_call received e svcMeth v s' :
    e ∈ ends (net s) → Call_send received e svcMeth v s = Ret (Some s') → other_step s (Ret s')
| os_world w : other_step s (Ret (mkSys (net s) (objs s) (calls s) w (log s)))
| os_make_server srv :
    objs s !! srv = None →
    other_step s (Ret (mkSys (net s) (<[srv := MakeServer]> (objs s)) (calls s) (world s) (log s)))
| os_add_service srv rs svc :
    objs s !! srv = Some rs →
    other_step s (Ret (mkSys (net s) (<[srv := AddService svc rs]> (objs s)) (calls s) (world s)
      (log s))).

Inductive step (s : sys) : outcome sys → Prop :=
| step_call i o : call_step i s o → step s o
| step_other o : other_step s o → step s o
| step_admin a n :
    (∀ name srv, a = AAddServer name srv → is_Some (objs s !! srv)) →
    exec_admin a (net s) = Ret n →
    step s (Ret (mkSys n (objs s) (calls s) (world s) (log s ++ admin_event a)))
| step_admin_panic a e : exec_admin a (net s) = Panic e → step s (Panic e).

Definition initial (w : W) : sys := mkSys MakeNetwork ∅ [] w [].

Inductive reachable : sys → Prop :=
| reach_initial w : reachable (initial w)
| reach_step s s' : reachable s → step s (Ret s') → reachable s'.

End network.

Arguments Network : clear implicits.
Arguments Network E S {_ _ _ _}.
Arguments sys T V W E S {_ _ _ _}.
Arguments call T V W E S : clear implicits.
Arguments pc : clear implicits.
Arguments goroutine : clear implicits.
Arguments event E S {_ _ _ _}.
