(* ===== verification/NetworkProps.v ===== *)
(** * What a remote call promises

    Theorems about the network of Network.v: a call that returns true was
    executed exactly once, on the server it was sent to, while that server was
    registered; a call returns unless its handler blocks on a live server; on a
    reliable network that is left alone it succeeds; the counters are exact.

    The history of one call ([history]) determines what has happened to it, so
    the invariant [wf_call] is an inductive relation between the program point,
    the goroutine of the handler and that history. *)

From stdpp Require Import strings gmap.
From Stdlib Require Import Strings.Byte.
From S2P Require Import Prelude GoString RpcServer Network.
Local Open Scope Z_scope.

Section props.
Context {T V W E S : Type} `{Codec T V} `{Countable E} `{Countable S}.
Context (ctxType : T).
Implicit Types s : sys T V W E S.
Implicit Types n : Network E S.
Implicit Types h : list (event E S).
Abbreviation wait_pc := (pc S) (only parsing).
Abbreviation gor := (goroutine T V W) (only parsing).

(** ** Histories *)

Definition event_call (ev : event E S) : option nat :=
  match ev with
  | EChosen i _ | EExec i _ _ _ | EAlive i _ | EAnswer i _ => Some i
  | EAdd _ => None
  end.

Definition history (i : nat) h : list (event E S) :=
  filter (fun ev => event_call ev = Some i) h.

Definition added h : list nat :=
  omap (fun ev => match ev with EAdd srv => Some srv | _ => None end) h.

Definition execs h : list (nat * replyMsg) :=
  omap (fun ev => match ev with EExec _ srv r _ => Some (srv, r) | _ => None end) h.

Definition answers h : list replyMsg :=
  omap (fun ev => match ev with EAnswer _ r => Some r | _ => None end) h.

Lemma history_app i h h' : history i (h ++ h') = history i h ++ history i h'.
Proof. apply filter_app. Qed.

Lemma history_own i h : Forall (fun ev => event_call ev = Some i) h → history i h = h.
Proof.
  induction 1 as [|ev h Hev Hh IH]; [done|]. unfold history in *.
  by rewrite filter_cons_True, IH.
Qed.

Lemma history_other i j h : i ≠ j → Forall (fun ev => event_call ev = Some i) h → history j h = [].
Proof.
  intros Hij. induction 1 as [|ev h Hev Hh IH]; [done|]. unfold history in *.
  rewrite filter_cons_False; [done|]. congruence.
Qed.

Lemma elem_of_history i ev h : ev ∈ history i h ↔ event_call ev = Some i ∧ ev ∈ h.
Proof. unfold history. by rewrite list_elem_of_filter. Qed.

Lemma added_app h h' : added (h ++ h') = added h ++ added h'.
Proof. apply omap_app. Qed.

Lemma elem_of_added srv h : srv ∈ added h ↔ EAdd srv ∈ h.
Proof.
  unfold added. rewrite list_elem_of_omap. split.
  - intros ([] & ? & ?); naive_solver.
  - intros Hin. by exists (EAdd srv).
Qed.

(** ** The invariant of one call *)

(** The network [n] when [processReq] chose the server. *)
Definition chosen_at n (e : E) (sn : S) (srv : nat) (rel lr : bool) : Prop :=
  readEndnameInfo e n = (true, Some sn, Some srv, rel, lr).

(** A reply that [Service.dispatch] has encoded. *)
Definition from_handler (r : replyMsg) : Prop := ∃ v : V, r = mkReply true (fst (encode v)).

(** The handler has not returned, or its reply waits to be received. *)
Inductive running (i srv : nat) : gor → list (event E S) → Prop :=
| run_started : running i srv (Started srv) []
| run_calling svc meth : running i srv (Calling srv svc meth) []
| run_sending r n1 : from_handler r → running i srv (Sending r) [EExec i srv r n1].

Definition executed (g : gor) : nat :=
  match g with Sending _ | Finished => 1 | _ => 0 end.

Inductive wf_call (i : nat) (e : E) : wait_pc → gor → list (event E S) → Prop :=
| wf_arrived : wf_call i e Arrived NotStarted []
| wf_timing_out : wf_call i e TimingOut NotStarted []
| wf_chosen n0 sn srv rel lr :
    chosen_at n0 e sn srv rel lr → wf_call i e (Chosen sn srv rel lr) NotStarted [EChosen i n0]
| wf_waiting n0 sn srv rel lr g h :
    chosen_at n0 e sn srv rel lr → running i srv g h →
    wf_call i e (Waiting sn srv rel lr) g (EChosen i n0 :: h)
| wf_leaving_dead n0 sn srv rel lr g h :
    chosen_at n0 e sn srv rel lr → running i srv g h →
    wf_call i e (Leaving sn srv rel lr None) g (EChosen i n0 :: h)
| wf_leaving_drained n0 sn srv rel lr r n1 :
    chosen_at n0 e sn srv rel lr → from_handler r →
    wf_call i e (Leaving sn srv rel lr None) Finished [EChosen i n0; EExec i srv r n1]
| wf_leaving n0 sn srv rel lr r n1 :
    chosen_at n0 e sn srv rel lr → from_handler r →
    wf_call i e (Leaving sn srv rel lr (Some r)) Finished [EChosen i n0; EExec i srv r n1]
| wf_delayed n0 sn srv rel lr r n1 n2 :
    chosen_at n0 e sn srv rel lr → from_handler r → isServerDead e sn srv n2 = false →
    wf_call i e (Delayed r) Finished [EChosen i n0; EExec i srv r n1; EAlive i n2]
| wf_answered n0 sn srv rel lr r n1 n2 :
    chosen_at n0 e sn srv rel lr → from_handler r → isServerDead e sn srv n2 = false →
    wf_call i e (Answered r) Finished
      [EChosen i n0; EExec i srv r n1; EAlive i n2; EAnswer i r]
| wf_lost g h :
    (∀ n, EAlive i n ∈ h → executed g = 1%nat) →
    length (execs h) = executed g → answers h = [no_reply] →
    wf_call i e (Answered no_reply) g h.

Record inv s : Prop := {
  inv_calls : ∀ i c, calls s !! i = Some c →
    wf_call i (endname (creq c)) (cpc c) (cgo c) (history i (log s));
  inv_future : ∀ i, (length (calls s) ≤ i)%nat → history i (log s) = []
}.

(** Two networks that differ at most in their counters. *)
Definition same_links n n' : Prop :=
  reliable n = reliable n' ∧ longReordering n = longReordering n' ∧ enabled n = enabled n' ∧
  servers n = servers n' ∧ connections n = connections n' ∧ ends n = ends n' ∧ done n = done n'.

#[global] Instance same_links_equivalence : Equivalence same_links.
Proof. split; repeat intro; unfold same_links in *; naive_solver congruence. Qed.

(** The call will run, or is running, its handler on [srv]. *)
Definition targets (p : wait_pc) (g : gor) (srv : nat) : Prop :=
  (∃ sn rel lr, p = Chosen sn srv rel lr) ∨ g = Started srv ∨ (∃ svc meth, g = Calling srv svc meth).

(** Effect of a step of call [i], which turns [c] into [c'] and has the events
    [es], on the rest of the system. *)
Record own_step (i : nat) s s' (c c' : call T V W E S) (es : list (event E S)) : Prop := {
  own_call : calls s !! i = Some c;
  own_calls : calls s' = <[i := c']> (calls s);
  own_req : creq c' = creq c;
  own_log : log s' = log s ++ es;
  own_events : Forall (fun ev => event_call ev = Some i) es;
  own_links : same_links (net s) (net s');
  own_wf : ∀ h, wf_call i (endname (creq c)) (cpc c) (cgo c) h →
    wf_call i (endname (creq c)) (cpc c') (cgo c') (h ++ es);
  own_targets : ∀ srv, targets (cpc c') (cgo c') srv →
    targets (cpc c) (cgo c) srv ∨ ∃ sn, server_of (net s) sn = Some srv;
  own_exec : ∀ srv r n1, EExec i srv r n1 ∈ es →
    n1 = net s ∧ es = [EExec i srv r n1] ∧ ∃ svc meth, cgo c = Calling srv svc meth;
  own_alive : ∀ n2, EAlive i n2 ∈ es → n2 = net s
}.

Lemma processReq_read_spec (req : reqMsg E T) n :
  (∃ sn srv rel lr, processReq_read req n = Chosen sn srv rel lr ∧
     chosen_at n (endname req) sn srv rel lr) ∨ processReq_read req n = TimingOut.
Proof.
  unfold processReq_read, chosen_at.
  destruct (readEndnameInfo (endname req) n) as [[[[[] [sn|]] [srv|]] rel] lr]; eauto 10.
Qed.

Lemma running_executed i srv g h : running i srv g h → length (execs h) = executed g.
Proof. by destruct 1. Qed.

Lemma running_no_alive i srv g h n n0 :
  running i srv g h → EAlive i n ∈ EChosen i n0 :: h → False.
Proof. destruct 1; set_solver. Qed.

Lemma running_no_answer i srv g h : running i srv g h → answers h = [].
Proof. by destruct 1. Qed.

Lemma processReq_finish_links r1 r2 (req : reqMsg E T) sn srv rel lr r n p n' :
  processReq_finish r1 r2 req sn srv rel lr r n = (p, n') → same_links n n'.
Proof. unfold processReq_finish. intros. case_all; done. Qed.

(** A call that ends without a reply. *)
Lemma wf_call_lose i e sn srv rel lr r g h :
  wf_call i e (Leaving sn srv rel lr r) g h → ∀ es, es = [] ∨ (∃ n, es = [EAlive i n] ∧ r ≠ None) →
  wf_call i e (Answered no_reply) g (h ++ es ++ [EAnswer i no_reply]).
Proof.
  intros Hw es Hes. apply wf_lost.
  - intros n Hin. rewrite !elem_of_app in Hin. destruct Hin as [Hin|[Hin|Hin]]; [| |set_solver].
    + inversion Hw; subst; try set_solver. exfalso. eapply running_no_alive; eassumption.
    + destruct Hes as [-> |(n' & -> & Hr)]; [set_solver|]. by inversion Hw; subst.
  - unfold execs. rewrite !omap_app, !length_app.
    assert (length (execs h) = executed g) as Hx.
    { inversion Hw; subst; try done.
      match goal with Hr : running _ _ _ _ |- _ => exact (running_executed _ _ _ _ Hr) end. }
    unfold execs in Hx. destruct Hes as [-> |(n & -> & _)]; simpl; lia.
  - unfold answers. rewrite !omap_app.
    assert (answers h = []) as Hx.
    { inversion Hw; subst; try done.
      match goal with Hr : running _ _ _ _ |- _ => exact (running_no_answer _ _ _ _ Hr) end. }
    unfold answers in Hx. rewrite Hx. by destruct Hes as [-> |(n & -> & _)].
Qed.

Lemma wf_call_finish i c r1 r2 sn srv rel lr r n p n' h :
  cpc c = Leaving sn srv rel lr r →
  processReq_finish r1 r2 (creq c) sn srv rel lr r n = (p, n') →
  wf_call i (endname (creq c)) (cpc c) (cgo c) h →
  wf_call i (endname (creq c)) p (cgo c)
    (h ++ (if bool_decide (r ≠ None) && negb (isServerDead (endname (creq c)) sn srv n)
           then [EAlive i n] else []) ++ answer_event i p).
Proof.
  intros Hpc Hf Hw. rewrite Hpc in Hw. unfold processReq_finish in Hf.
  destruct r as [r|].
  2:{ injection Hf as <- <-. eapply wf_call_lose; [done|]. by left. }
  rewrite (bool_decide_true (Some r ≠ None)) by done. simpl.
  destruct (isServerDead _ _ _ _) eqn:Hd; simpl.
  { injection Hf as <- <-. eapply (wf_call_lose _ _ _ _ _ _ _ _ _ Hw []). by left. }
  destruct (negb rel && _).
  { injection Hf as <- <-. eapply (wf_call_lose _ _ _ _ _ _ _ _ _ Hw [_]). right. by eexists. }
  inversion Hw; subst. destruct (lr && _); injection Hf as <- <-; simpl; by econstructor.
Qed.

Lemma wf_call_read i (req : reqMsg E T) n g h :
  wf_call i (endname req) Arrived g h →
  wf_call i (endname req) (processReq_read req n) g (h ++ chosen_event i (processReq_read req n) n).
Proof.
  inversion 1; subst.
  destruct (processReq_read_spec req n) as [(sn & srv & rel & lr & -> & Hch)| ->]; by constructor.
Qed.

Lemma wf_call_start i e r sn srv rel lr p g g' h :
  processReq_start r sn srv rel lr = (p, g') → wf_call i e (Chosen sn srv rel lr) g h →
  wf_call i e p g' (h ++ answer_event i p).
Proof.
  intros Hst. inversion 1; subst. unfold processReq_start in Hst.
  destruct (negb rel && _); injection Hst as <- <-; simpl.
  - apply wf_lost; [set_solver|done..].
  - econstructor; [done|constructor].
Qed.

Lemma wf_call_dispatch i e p srv svc meth h :
  wf_call i e p (Started srv) h → wf_call i e p (Calling srv svc meth) h.
Proof.
  inversion 1 as [| | |? ? ? ? ? ? ? ? Hrun|? ? ? ? ? ? ? ? Hrun| | | | |? ? Hx Hex Han]; subst.
  1-2: inversion Hrun; subst; econstructor; [done|constructor].
  by apply wf_lost.
Qed.

Lemma wf_call_execute i e p srv svc meth r n h :
  from_handler r → wf_call i e p (Calling srv svc meth) h →
  wf_call i e p (Sending r) (h ++ [EExec i srv r n]).
Proof.
  intros Hok. inversion 1 as [| | |? ? ? ? ? ? ? ? Hrun|? ? ? ? ? ? ? ? Hrun| | | | |? ? Hx Hex Han]; subst.
  1-2: inversion Hrun; subst; simpl; econstructor; [done|by constructor].
  unfold execs, answers in Hex, Han. apply wf_lost.
  - done.
  - unfold execs. by rewrite omap_app, length_app, Hex.
  - unfold answers. by rewrite omap_app, Han.
Qed.

Lemma wf_call_receive i e sn srv rel lr r h :
  wf_call i e (Waiting sn srv rel lr) (Sending r) h →
  wf_call i e (Leaving sn srv rel lr (Some r)) Finished h.
Proof.
  inversion 1 as [| | |? ? ? ? ? ? ? ? Hrun| | | | | |]; subst. inversion Hrun; subst. by econstructor.
Qed.

Lemma wf_call_tick i (req : reqMsg E T) sn srv rel lr n g h :
  wf_call i (endname req) (Waiting sn srv rel lr) g h →
  wf_call i (endname req) (processReq_tick req sn srv rel lr n) g h.
Proof.
  unfold processReq_tick. destruct (isServerDead _ _ _ _); [|done]. inversion 1; subst. by econstructor.
Qed.

Lemma wf_call_drain i e p r h :
  (∀ sn srv rel lr, p ≠ Waiting sn srv rel lr) →
  wf_call i e p (Sending r) h → wf_call i e p Finished h.
Proof.
  intros Hnw. inversion 1 as [| | |? ? ? ? ? ? ? ? Hrun|? ? ? ? ? ? ? ? Hrun| | | | |? ? Hx Hex Han]; subst.
  - by edestruct Hnw.
  - inversion Hrun; subst. by econstructor.
  - by apply wf_lost.
Qed.

Lemma wf_call_fire i e p p' n n' g h :
  p = TimingOut ∨ (∃ r, p = Delayed r) → fire p n = (p', n') → wf_call i e p g h →
  wf_call i e p' g (h ++ answer_event i p').
Proof.
  intros [-> |[r ->]]; intros [= <- <-]; inversion 1; subst; simpl; [|by econstructor].
  apply wf_lost; [set_solver|done..].
Qed.

Lemma Service_dispatch_reply svc meth (req : reqMsg E T) (w w' : W) r :
  Service_dispatch ctxType svc meth req w = Some (Ret (r, w')) → from_handler r.
Proof. unfold Service_dispatch, from_handler. intros. case_all; simplify_eq/=; eauto. Qed.

Lemma answer_event_own i p : Forall (fun ev => event_call ev = Some i) (answer_event i p).
Proof. destruct p; by repeat constructor. Qed.

(** A step that starts no handler and whose events are not about one. *)
Lemma own_quiet i s s' c c' es :
  calls s !! i = Some c → calls s' = <[i := c']> (calls s) → creq c' = creq c →
  log s' = log s ++ es → same_links (net s) (net s') →
  Forall (fun ev => match ev with EChosen j _ | EAnswer j _ => j = i | _ => False end) es →
  (∀ srv, targets (cpc c') (cgo c') srv →
    targets (cpc c) (cgo c) srv ∨ ∃ sn, server_of (net s) sn = Some srv) →
  (∀ h, wf_call i (endname (creq c)) (cpc c) (cgo c) h →
    wf_call i (endname (creq c)) (cpc c') (cgo c') (h ++ es)) →
  own_step i s s' c c' es.
Proof.
  intros Hc Hcs Hreq Hlog Hl Hes Ht Hwf. rewrite Forall_forall in Hes. split; try done.
  - apply Forall_forall. intros ev Hin. specialize (Hes ev Hin). destruct ev; naive_solver.
  - intros srv r n1 Hin. by specialize (Hes _ Hin).
  - intros n2 Hin. by specialize (Hes _ Hin).
Qed.

Lemma answer_event_quiet i (p : wait_pc) :
  Forall (fun ev : event E S => match ev with EChosen j _ | EAnswer j _ => j = i | _ => False end)
    (answer_event i p).
Proof. destruct p; by repeat constructor. Qed.

Ltac no_targets :=
  intros ? [(? & ? & ? & ?)|[?|(? & ? & ?)]]; simplify_eq/=; unfold targets; eauto 10.

Lemma own_read i s c :
  calls s !! i = Some c → cpc c = Arrived →
  own_step i s (set_call i (mkCall (creq c) (processReq_read (creq c) (net s)) (cgo c))
    (net s) (chosen_event i (processReq_read (creq c) (net s)) (net s)) s) c
    (mkCall (creq c) (processReq_read (creq c) (net s)) (cgo c))
    (chosen_event i (processReq_read (creq c) (net s)) (net s)).
Proof.
  intros Hc Hpc. apply own_quiet; try done; simpl.
  - destruct (processReq_read _ _); by repeat constructor.
  - destruct (processReq_read_spec (creq c) (net s)) as [(sn & srv & rel & lr & -> & Hch)| ->]; no_targets.
    right. unfold chosen_at, readEndnameInfo in Hch. injection Hch as _ Hcn Hsrv _ _.
    rewrite Hcn in Hsrv. eauto.
  - intros h. rewrite Hpc. apply wf_call_read.
Qed.

Lemma own_finish i s c r1 r2 sn srv rel lr r p n :
  calls s !! i = Some c → cpc c = Leaving sn srv rel lr r →
  processReq_finish r1 r2 (creq c) sn srv rel lr r (net s) = (p, n) →
  let es := (if bool_decide (r ≠ None) && negb (isServerDead (endname (creq c)) sn srv (net s))
             then [EAlive i (net s)] else []) ++ answer_event i p in
  own_step i s (set_call i (mkCall (creq c) p (cgo c)) n es s) c (mkCall (creq c) p (cgo c)) es.
Proof.
  intros Hc Hpc Hf es.
  assert (Forall (fun ev => ev = EAlive i (net s) ∨ ∃ r, ev = EAnswer i r) es) as Hes.
  { subst es. apply Forall_app. split.
    - destruct (bool_decide _ && _); constructor; [by left|constructor].
    - destruct p; constructor; [|constructor]. right. eauto. }
  rewrite Forall_forall in Hes. split; try done; simpl.
  - apply Forall_forall. intros ev Hin. by destruct (Hes _ Hin) as [-> |[? ->]].
  - by eapply processReq_finish_links.
  - intros h. by eapply wf_call_finish.
  - unfold processReq_finish in Hf. case_all; no_targets.
  - intros srv' r' n1 Hin. by destruct (Hes _ Hin) as [? |[? ?]].
  - intros n2 Hin. by destruct (Hes _ Hin) as [[= ->] |[? ?]].
Qed.

(** Case analysis on the steps of one call. *)
Lemma call_step_own i s s' :
  call_step ctxType i s (Ret s') → ∃ c c' es, own_step i s s' c c' es.
Proof.
  intros Hs. inversion Hs as
    [c Hc Hpc|c r sn srv rel lr p g Hc Hpc Hr Hst|c srv rs svc meth rs' Hc Hgo Ho Hd|
    |c srv svc meth r w' Hc Hgo Hd| |c sn srv rel lr r Hc Hpc Hgo|c sn srv rel lr Hc Hpc
    |c r p Hc Hpc Hnw Hgo|c r1 r2 sn srv rel lr r p n Hc Hpc Hr1 Hr2 Hf|c p n Hc Hpc Hf]; subst.
  - eexists _, _, _. by apply own_read.
  - eexists _, _, _. apply own_quiet; try done; [apply answer_event_quiet| |].
    + simpl. rewrite Hpc. unfold processReq_start in Hst. case_all; no_targets.
    + intros h. rewrite Hpc. by eapply wf_call_start.
  - eexists _, _, []. apply own_quiet; try done; simpl; [by rewrite app_nil_r| |].
    + rewrite Hgo. no_targets.
    + intros h. rewrite Hgo, app_nil_r. apply wf_call_dispatch.
  - eexists _, _, _. split; try done; simpl.
    + by repeat constructor.
    + intros h. rewrite Hgo. apply wf_call_execute. by eapply Service_dispatch_reply.
    + no_targets.
    + intros srv' r' n1 [= -> -> ->]%list_elem_of_singleton. eauto.
    + by intros n2 ?%list_elem_of_singleton.
  - eexists _, _, _. apply own_quiet; try done; simpl; [no_targets|].
    intros h. rewrite Hpc, Hgo, app_nil_r. apply wf_call_receive.
  - eexists _, _, _. apply own_quiet; try done; simpl.
    + unfold processReq_tick. case_all; no_targets.
    + intros h. rewrite Hpc, app_nil_r. apply wf_call_tick.
  - eexists _, _, _. apply own_quiet; try done; simpl; [no_targets|].
    intros h. rewrite Hgo, app_nil_r. by apply wf_call_drain.
  - eexists _, _, _. by eapply own_finish.
  - eexists _, _, _. apply own_quiet; try done; [|apply answer_event_quiet| |]; simpl.
    + unfold fire in Hf. case_all; done.
    + destruct Hpc as [Hpc|[? Hpc]]; rewrite Hpc in Hf; injection Hf as <- <-; no_targets.
    + intros h. by eapply wf_call_fire.
Qed.

(** Steps that are not steps of a call: they may add new calls and servers. *)
Record outer_step s s' : Prop := {
  outer_calls : ∃ cs, calls s' = calls s ++ cs ∧
    Forall (fun c => cpc c = Arrived ∧ cgo c = NotStarted) cs;
  outer_log : ∃ es, log s' = log s ++ es ∧ Forall (fun ev => event_call ev = None) es ∧
    ∀ sn srv, server_of (net s') sn = Some srv → server_of (net s) sn = Some srv ∨ EAdd srv ∈ es
}.

Lemma other_step_outer s s' : other_step s (Ret s') → outer_step s s'.
Proof.
  assert (∀ n', servers n' = servers (net s) →
    ∃ es, log s = log s ++ es ∧ Forall (fun ev => event_call ev = None) es ∧
      ∀ sn srv, server_of n' sn = Some srv → server_of (net s) sn = Some srv ∨ EAdd srv ∈ es) as Hlog.
  { intros n' Hn. exists []. rewrite app_nil_r. split_and!; [done..|].
    intros sn srv Hs. left. unfold server_of in *. by rewrite <- Hn. }
  intros Hs. inversion Hs as [rcv e sm v s1 He Hsend|w|srv Ho|srv rs svc Ho]; subst.
  2-4: split; simpl; [exists []; by rewrite app_nil_r|by apply Hlog].
  unfold Call_send in Hsend. destruct (encode v) as [bs []]; simpl in Hsend; [|done].
  destruct (done (net s) && negb rcv); [done|]. injection Hsend as <-. split; simpl; [|by apply Hlog].
  eexists. split; [done|]. by repeat constructor.
Qed.

Lemma admin_outer s a n :
  exec_admin a (net s) = Ret n →
  outer_step s (mkSys n (objs s) (calls s) (world s) (log s ++ admin_event a)).
Proof.
  intros Ha. split; simpl.
  - exists []. by rewrite app_nil_r.
  - eexists. split; [done|]. split; [destruct a; by repeat constructor|]. intros sn srv.
    destruct a as [| | | | |sv rs|sv| |]; simpl in Ha; unfold Cleanup, MakeEnd in Ha;
      case_all; simplify_eq/=; try by left.
    all: unfold server_of; simpl.
    + destruct (decide (sn = sv)) as [-> |]; [rewrite lookup_insert_eq|rewrite lookup_insert_ne by done].
      * intros [= ->]. right. by left.
      * by left.
    + destruct (decide (sn = sv)) as [-> |]; [by rewrite lookup_insert_eq|].
      rewrite lookup_insert_ne by done. by left.
Qed.

Lemma step_cases s s' : step ctxType s (Ret s') →
  (∃ i c c' es, own_step i s s' c c' es) ∨ outer_step s s'.
Proof.
  intros Hs. inversion Hs as [i o Hc|o Ho|a n Hobj Ha|]; subst.
  - left. exists i. by apply call_step_own.
  - right. by apply other_step_outer.
  - right. by apply admin_outer.
Qed.

Lemma history_none i h : Forall (fun ev => event_call ev = None) h → history i h = [].
Proof.
  induction 1 as [|ev h Hev Hh IH]; [done|]. unfold history in *.
  rewrite filter_cons_False; [done|]. congruence.
Qed.

Lemma inv_own i s s' c c' es : own_step i s s' c c' es → inv s → inv s'.
Proof.
  intros [Hc Hcs Hreq Hlog Hes _ Hwf _ _ _] [I1 I2]. split.
  - intros j d Hd. rewrite Hcs in Hd. rewrite Hlog, history_app.
    destruct (decide (i = j)) as [<- |Hij].
    + rewrite list_lookup_insert_eq in Hd by (by eapply lookup_lt_Some). injection Hd as <-.
      rewrite (history_own i es), Hreq by done. apply Hwf. by apply I1.
    + rewrite list_lookup_insert_ne in Hd by done.
      rewrite (history_other i j es) by done. rewrite app_nil_r. by apply I1.
  - intros j Hj. rewrite Hcs, length_insert in Hj. apply lookup_lt_Some in Hc as Hlt.
    rewrite Hlog, history_app, I2, (history_other i j es) by (done || lia). done.
Qed.

Lemma inv_outer s s' : outer_step s s' → inv s → inv s'.
Proof.
  intros [(cs & Hcs & Hnew) (es & Hlog & Hes & _)] [I1 I2]. split.
  - intros j d Hd. rewrite Hcs in Hd. rewrite Hlog, history_app, (history_none j es), app_nil_r by done.
    apply lookup_app_Some in Hd as [Hd|[Hlen Hd]]; [by apply I1|].
    rewrite I2 by done. rewrite Forall_lookup in Hnew. destruct (Hnew _ _ Hd) as [-> ->]. constructor.
  - intros j Hj. rewrite Hcs, length_app in Hj.
    rewrite Hlog, history_app, (history_none j es), app_nil_r by done. apply I2. lia.
Qed.

Lemma network_inv s : reachable ctxType s → inv s.
Proof.
  induction 1 as [w|s s' _ IH [(i & c & c' & es & Hown)|Hout]%step_cases].
  - split; [|done]. by intros i c Hc.
  - by eapply inv_own.
  - by eapply inv_outer.
Qed.

(** ** Registration

    When every server object is added to the network at most once, a server that
    has been replaced or deleted never comes back under its name. *)

Record reg s : Prop := {
  reg_servers : ∀ sn srv, server_of (net s) sn = Some srv → EAdd srv ∈ log s;
  reg_targets : ∀ i c srv, calls s !! i = Some c → targets (cpc c) (cgo c) srv → EAdd srv ∈ log s;
  reg_execs : ∀ i srv r n1, EExec i srv r n1 ∈ log s → EAdd srv ∈ log s;
  reg_now : ∀ i sn srv r n1, EExec i srv r n1 ∈ log s →
    server_of (net s) sn = Some srv → server_of n1 sn = Some srv;
  reg_alive : ∀ i sn srv r n1 n2, EExec i srv r n1 ∈ log s → EAlive i n2 ∈ log s →
    server_of n2 sn = Some srv → server_of n1 sn = Some srv
}.

Lemma same_links_server n n' sn : same_links n n' → server_of n' sn = server_of n sn.
Proof. intros (_ & _ & _ & Hs & _). unfold server_of. by rewrite Hs. Qed.

Lemma event_own i j ev es :
  Forall (fun ev => event_call ev = Some i) es → ev ∈ es → event_call ev = Some j → i = j.
Proof. rewrite Forall_forall. intros Hes Hin Hj. specialize (Hes _ Hin). congruence. Qed.

(** While the handler runs, the call has not been found alive. *)
Lemma calling_not_alive i e p srv svc meth h n :
  wf_call i e p (Calling srv svc meth) h → EAlive i n ∈ h → False.
Proof.
  inversion 1 as [| | |? ? ? ? ? ? ? ? Hrun|? ? ? ? ? ? ? ? Hrun| | | | |? ? Hx Hex Han]; subst.
  1-2: by apply (running_no_alive _ _ _ _ _ _ Hrun).
  intros Hin. by specialize (Hx _ Hin).
Qed.

Lemma reg_own i s s' c c' es : own_step i s s' c c' es → inv s → reg s → reg s'.
Proof.
  intros [Hc Hcs _ Hlog Hes Hl _ Ht Hx Ha] Hinv [R1 R2 R3 R4 R5].
  assert (∀ sn srv, server_of (net s') sn = Some srv → EAdd srv ∈ log s) as R1'.
  { intros sn srv. rewrite (same_links_server _ _ _ Hl). apply R1. }
  split; rewrite Hlog; setoid_rewrite elem_of_app.
  - eauto.
  - intros j d srv Hd Hsrv. left. rewrite Hcs in Hd.
    apply list_lookup_insert_Some in Hd as [(-> & <- & _)|[_ Hd]]; [|by eapply R2].
    destruct (Ht _ Hsrv) as [?|[??]]; eauto.
  - intros j srv r n1 [Hin|Hin]; [eauto|]. left.
    pose proof (event_own i j _ _ Hes Hin eq_refl) as <-. destruct (Hx _ _ _ Hin) as (-> & _ & svc & meth & Hg).
    eapply R2; [done|]. right. right. eauto.
  - intros j sn srv r n1 [Hin|Hin]; rewrite (same_links_server _ _ _ Hl); [by eapply R4|].
    pose proof (event_own i j _ _ Hes Hin eq_refl) as <-. by destruct (Hx _ _ _ Hin) as (-> & _).
  - intros j sn srv r n1 n2 [Hin|Hin] [Hin2|Hin2]; [by eapply R5| | |].
    + pose proof (event_own i j _ _ Hes Hin2 eq_refl) as <-. rewrite (Ha _ Hin2). by eapply R4.
    + pose proof (event_own i j _ _ Hes Hin eq_refl) as <-. destruct (Hx _ _ _ Hin) as (_ & _ & svc & meth & Hg).
      exfalso. pose proof (inv_calls _ Hinv _ _ Hc) as Hw. rewrite Hg in Hw.
      eapply calling_not_alive; [exact Hw|]. by apply elem_of_history.
    + pose proof (event_own i j _ _ Hes Hin eq_refl) as <-. destruct (Hx _ _ _ Hin) as (_ & -> & _).
      by apply list_elem_of_singleton in Hin2.
Qed.

Lemma reg_outer s s' : outer_step s s' → NoDup (added (log s')) → reg s → reg s'.
Proof.
  intros [(cs & Hcs & Hnew) (es & Hlog & Hes & Hsv)] Hnd [R1 R2 R3 R4 R5].
  rewrite Hlog, added_app in Hnd. rewrite Forall_forall in Hes.
  assert (∀ ev i, event_call ev = Some i → ev ∈ log s ++ es → ev ∈ log s) as Hold.
  { intros ev i Hev [|Hin]%elem_of_app; [done|]. specialize (Hes _ Hin). congruence. }
  split; rewrite Hlog.
  - intros sn srv Hs. rewrite elem_of_app. destruct (Hsv _ _ Hs); eauto.
  - intros j d srv Hd Hsrv. rewrite Hcs in Hd. rewrite elem_of_app. left.
    apply lookup_app_Some in Hd as [Hd|[_ Hd]]; [by eapply R2|].
    rewrite Forall_lookup in Hnew. destruct (Hnew _ _ Hd) as [Hp Hg].
    destruct Hsrv as [(?&?&?&?)|[?|(?&?&?)]]; congruence.
  - intros j srv r n1 Hin%(Hold _ j); [|done]. rewrite elem_of_app. eauto.
  - intros j sn srv r n1 Hin%(Hold _ j) Hs; [|done]. destruct (Hsv _ _ Hs) as [Hs'|Hadd]; [by eapply R4|].
    exfalso. apply NoDup_app in Hnd as (_ & Hdis & _). apply (Hdis srv); apply elem_of_added; eauto.
  - intros j sn srv r n1 n2 Hin%(Hold _ j) Hin2%(Hold _ j); [|done..]. by eapply R5.
Qed.

Lemma step_log s s' : step ctxType s (Ret s') → ∃ es, log s' = log s ++ es.
Proof.
  intros [(i & c & c' & es & Hown)|[_ (es & Hlog & _)]]%step_cases; [|eauto].
  exists es. apply Hown.
Qed.

Lemma reachable_reg s : reachable ctxType s → NoDup (added (log s)) → reg s.
Proof.
  induction 1 as [w|s s' Hr IH Hs]; intros Hnd.
  - split; simpl; set_solver.
  - destruct (step_log _ _ Hs) as [es Hlog].
    assert (NoDup (added (log s))) as Hnd' by (rewrite Hlog, added_app in Hnd; by apply NoDup_app in Hnd as [? _]).
    apply step_cases in Hs as [(i & c & c' & es' & Hown)|Hout].
    + eapply reg_own; eauto using network_inv.
    + eapply reg_outer; eauto.
Qed.

(** ** Termination *)

Definition answered (p : wait_pc) : Prop := ∃ r, p = Answered r.

(** Decreases with every step of a call, except when the timer of the loop finds
    the server alive. *)
Definition pc_rank (p : wait_pc) : nat :=
  match p with
  | Arrived => 6 | Chosen _ _ _ _ => 5 | Waiting _ _ _ _ => 4 | Leaving _ _ _ _ _ => 3
  | Delayed _ => 2 | TimingOut => 2 | Answered _ => 0
  end.

Definition go_rank (g : gor) : nat :=
  match g with
  | NotStarted => 0 | Started _ => 4 | Calling _ _ _ => 3 | Sending _ => 2 | Finished => 0
  end.

Definition rank (c : call T V W E S) : nat := 10 * pc_rank (cpc c) + go_rank (cgo c).

Lemma call_step_rank i s s' c :
  call_step ctxType i s (Ret s') → calls s !! i = Some c →
  ∃ c', calls s' !! i = Some c' ∧
    ((rank c' < rank c)%nat ∨ c' = c ∧ ∃ sn srv rel lr, cpc c = Waiting sn srv rel lr ∧
       isServerDead (endname (creq c)) sn srv (net s) = false).
Proof.
  intros Hs Hc. apply lookup_lt_Some in Hc as Hlt.
  inversion Hs as
    [d Hd Hpc|d r sn srv rel lr p g Hd Hpc Hr Hst|d srv rs svc meth rs' Hd Hgo Ho Hdd|
    |d srv svc meth r w' Hd Hgo Hdd| |d sn srv rel lr r Hd Hpc Hgo|d sn srv rel lr Hd Hpc
    |d r p Hd Hpc Hnw Hgo|d r1 r2 sn srv rel lr r p n Hd Hpc Hr1 Hr2 Hf|d p n Hd Hpc Hf]; subst;
    rewrite Hc in Hd; injection Hd as <-; simpl; rewrite list_lookup_insert_eq by done;
    (eexists; split; [done|]); unfold rank; simpl; rewrite ?Hpc, ?Hgo; simpl.
  1: { left. destruct (processReq_read_spec (creq c) (net s)) as [(?&?&?&?&-> &?)| ->]; simpl; lia. }
  1: { left. unfold processReq_start in Hst. destruct (negb rel && _); injection Hst as <- <-; simpl; lia. }
  1-3: left; lia.
  - unfold processReq_tick. destruct (isServerDead _ _ _ _) eqn:Hdead; simpl; [left; lia|right].
    split; [destruct c; simpl in *; congruence|]. eauto 10.
  - left. lia.
  - left. unfold processReq_finish in Hf. case_all; simplify_eq/=; lia.
  - left. destruct Hpc as [Hpc|[r Hpc]]; rewrite Hpc in Hf |- *; injection Hf as <- <-; simpl; lia.
Qed.

(** The request names a handler that exists on [rs] and returns. *)
Definition returns (svc : RpcServer.Service T V W) (meth : string) (req : reqMsg E T) : Prop :=
  ∀ w : W, ∃ r w', Service_dispatch ctxType svc meth req w = Some (Ret (r, w')).

Definition serves (rs : RpcServer.Server T V W) (req : reqMsg E T) : Prop :=
  ∃ svc meth rs', Server_dispatch req rs = Ret (svc, meth, rs') ∧ returns svc meth req.

(** The server that the goroutine of the handler has locked or will lock. *)
Definition handler_ok s (c : call T V W E S) : Prop :=
  match cgo c with
  | Started srv => ∃ rs, objs s !! srv = Some rs ∧ serves rs (creq c)
  | Calling _ svc meth => returns svc meth (creq c)
  | _ => True
  end.

Definition seen_dead s (c : call T V W E S) : Prop :=
  match cpc c with
  | Waiting sn srv _ _ => isServerDead (endname (creq c)) sn srv (net s) = true
  | _ => False
  end.

Lemma waiting_running i e sn srv rel lr g h :
  wf_call i e (Waiting sn srv rel lr) g h →
  g = Started srv ∨ (∃ svc meth, g = Calling srv svc meth) ∨ ∃ r, g = Sending r.
Proof.
  inversion 1 as [| | |? ? ? ? ? ? ? ? Hrun| | | | | |]; subst. inversion Hrun; subst; eauto.
Qed.

(** A step that brings call [i] closer to its answer. *)
Definition progress (i : nat) s (c : call T V W E S) : Prop :=
  ∃ s' c', call_step ctxType i s (Ret s') ∧ calls s' !! i = Some c' ∧ (rank c' < rank c)%nat.

Lemma progress_intro i s s' c :
  calls s !! i = Some c → call_step ctxType i s (Ret s') →
  (∀ sn srv rel lr, cpc c = Waiting sn srv rel lr → seen_dead s c ∨ calls s' !! i ≠ Some c) →
  progress i s c.
Proof.
  intros Hc Hs Hw. destruct (call_step_rank i s s' c Hs Hc) as (c' & Hc' & [Hlt|(-> & Hwait)]).
  - by exists s', c'.
  - destruct Hwait as (sn & srv & rel & lr & Hpc & Hal).
    destruct (Hw _ _ _ _ Hpc) as [Hd|Hd]; [|done].
    unfold seen_dead in Hd. rewrite Hpc in Hd. congruence.
Qed.

Lemma set_call_lookup i s c d : calls s !! i = Some c → <[i := d]> (calls s) !! i = Some d.
Proof. intros Hc. apply list_lookup_insert_eq. by eapply lookup_lt_Some. Qed.

Lemma waiting_progress i s c sn srv rel lr :
  inv s → calls s !! i = Some c → cpc c = Waiting sn srv rel lr →
  handler_ok s c ∨ seen_dead s c → progress i s c.
Proof.
  intros Hinv Hc Hpc [Hok|Hdead].
  2: { eapply progress_intro; [done|by eapply cs_tick|]. by left. }
  pose proof (inv_calls _ Hinv _ _ Hc) as Hw. rewrite Hpc in Hw. unfold handler_ok in Hok.
  destruct (waiting_running _ _ _ _ _ _ _ _ Hw) as [Hg|[(svc & meth & Hg)|[r Hg]]]; rewrite Hg in Hok.
  - destruct Hok as (rs & Ho & svc & meth & rs' & Hd & _).
    eapply progress_intro; [done|by eapply cs_dispatch|]. intros. right. simpl.
    rewrite (set_call_lookup _ _ _ _ Hc). intros [= Heq]. rewrite <- Heq in Hg. done.
  - destruct (Hok (world s)) as (r & w' & Hx).
    eapply progress_intro; [done|by eapply cs_execute|]. intros. right. simpl.
    rewrite (set_call_lookup _ _ _ _ Hc). intros [= Heq]. rewrite <- Heq in Hg. done.
  - eapply progress_intro; [done|by eapply cs_receive|]. intros. right. simpl.
    rewrite (set_call_lookup _ _ _ _ Hc). intros [= Heq]. rewrite <- Heq in Hg. done.
Qed.

Lemma call_progress i s c :
  inv s → calls s !! i = Some c → ¬ answered (cpc c) → handler_ok s c ∨ seen_dead s c →
  progress i s c.
Proof.
  intros Hinv Hc Hna Hok. destruct (cpc c) as [| |sn srv rel lr|sn srv rel lr|sn srv rel lr r|r|r] eqn:Hpc.
  - eapply progress_intro; [done|by apply cs_read|]. intros. congruence.
  - destruct (fire (cpc c) (net s)) as [p n] eqn:Hf.
    eapply progress_intro; [done|eapply cs_fire; eauto|]. intros. congruence.
  - destruct (processReq_start (T := T) (V := V) (W := W) 0 sn srv rel lr) as [p g] eqn:Hst.
    eapply progress_intro; [done|by eapply cs_start|]. intros. congruence.
  - by eapply waiting_progress.
  - destruct (processReq_finish 0 0 (creq c) sn srv rel lr r (net s)) as [p n] eqn:Hf.
    eapply progress_intro; [done|by eapply cs_finish|]. intros. congruence.
  - destruct (fire (cpc c) (net s)) as [p n] eqn:Hf.
    eapply progress_intro; [done|eapply cs_fire; eauto|]. intros. congruence.
  - destruct Hna. by exists r.
Qed.

(** ** Server objects *)

(** The same server objects, with the same services, up to their counters. *)
Definition same_objs s s' : Prop :=
  ∀ srv, services <$> objs s' !! srv = services <$> objs s !! srv.

Lemma Server_dispatch_services (req : reqMsg E T) (rs rs' : RpcServer.Server T V W) svc meth :
  Server_dispatch req rs = Ret (svc, meth, rs') → services rs' = services rs.
Proof.
  unfold Server_dispatch. intros Hd. apply bind_ret_inv in Hd as ([sv me] & _ & Hd). simpl in Hd.
  case_all; by simplify_eq/=.
Qed.

Lemma call_step_objs i s s' : call_step ctxType i s (Ret s') → same_objs s s'.
Proof.
  intros Hs srv'. inversion Hs as
    [| |d srv rs svc meth rs' Hd Hgo Ho Hdd| | | | | | | |]; subst; try done. simpl.
  destruct (decide (srv' = srv)) as [-> |]; [|by rewrite lookup_insert_ne].
  rewrite lookup_insert_eq, Ho. simpl. f_equal. by eapply Server_dispatch_services.
Qed.

Lemma same_objs_some s s' srv : same_objs s s' → is_Some (objs s !! srv) → is_Some (objs s' !! srv).
Proof. intros Hs. rewrite <- !(fmap_is_Some services), (Hs srv). done. Qed.

Lemma serves_services (rs rs' : RpcServer.Server T V W) (req : reqMsg E T) :
  services rs' = services rs → serves rs req → serves rs' req.
Proof.
  intros Heq (svc & meth & rs1 & Hd & Hr). unfold Server_dispatch in Hd.
  apply bind_ret_inv in Hd as ([sv me] & Hsp & Hd). exists svc, meth. unfold Server_dispatch.
  rewrite Hsp. simpl in *. rewrite Heq. destruct (services rs !! sv); [|done].
  injection Hd as <- <- <-. by eexists.
Qed.

(** Servers that are registered or that a call uses exist. *)
Record objs_ok s : Prop := {
  objs_servers : ∀ sn srv, server_of (net s) sn = Some srv → is_Some (objs s !! srv);
  objs_targets : ∀ i c srv, calls s !! i = Some c → targets (cpc c) (cgo c) srv →
    is_Some (objs s !! srv)
}.

Lemma objs_ok_own i s s' :
  call_step ctxType i s (Ret s') → objs_ok s → objs_ok s'.
Proof.
  intros Hs [O1 O2]. pose proof (call_step_objs _ _ _ Hs) as Ho.
  destruct (call_step_own _ _ _ Hs) as (c & c' & es & [Hc Hcs _ _ _ Hl _ Ht _ _]). split.
  - intros sn srv. rewrite (same_links_server _ _ _ Hl). eauto using same_objs_some.
  - intros j d srv Hd Hsrv. apply (same_objs_some _ _ _ Ho). rewrite Hcs in Hd.
    apply list_lookup_insert_Some in Hd as [(-> & <- & _)|[_ Hd]]; [|by eapply O2].
    destruct (Ht _ Hsrv) as [?|[??]]; eauto.
Qed.

Lemma outer_objs_ok s s' :
  (∀ srv, is_Some (objs s !! srv) → is_Some (objs s' !! srv)) → outer_step s s' →
  (∀ sn srv, server_of (net s') sn = Some srv → is_Some (objs s' !! srv)) →
  objs_ok s → objs_ok s'.
Proof.
  intros Ho [(cs & Hcs & Hnew) _] Hsv [O1 O2]. split; [done|].
  intros j d srv Hd Hsrv. rewrite Hcs in Hd. apply lookup_app_Some in Hd as [Hd|[_ Hd]]; [eauto|].
  rewrite Forall_lookup in Hnew. destruct (Hnew _ _ Hd) as [Hp Hg].
  destruct Hsrv as [(?&?&?&?)|[?|(?&?&?)]]; congruence.
Qed.

Lemma objs_ok_other s s' : other_step s (Ret s') → objs_ok s → objs_ok s'.
Proof.
  intros Hs HO. pose proof (other_step_outer _ _ Hs) as Hout.
  assert (∀ srv, is_Some (objs s !! srv) → is_Some (objs s' !! srv)) as Ho.
  { intros srv'. inversion Hs as [rcv e sm v s1 He Hsend|w|srv Hn|srv rs svc Hn]; subst; simpl; try done.
    - unfold Call_send in Hsend. case_all; by simplify_eq/=.
    - rewrite lookup_insert_is_Some'. by right.
    - rewrite lookup_insert_is_Some'. by right. }
  apply (outer_objs_ok s s'); [done..| |done]. intros sn srv Hsv. apply Ho.
  apply (objs_servers _ HO sn). inversion Hs as [rcv e sm v s1 He Hsend| | |]; subst; try done.
  unfold Call_send in Hsend. case_all; by simplify_eq/=.
Qed.

Lemma reachable_objs_ok s : reachable ctxType s → objs_ok s.
Proof.
  induction 1 as [w|s s' _ IH Hs]; [split; set_solver|].
  inversion Hs as [i o Hc|o Ho|a n Hobj Ha|]; subst.
  - by eapply objs_ok_own.
  - by eapply objs_ok_other.
  - apply (outer_objs_ok s); [done|by apply admin_outer| |done]. simpl. intros sn srv Hsv.
    destruct (admin_outer s a n Ha) as [_ (es & Hlog & _ & Hadd)]. simpl in Hlog, Hadd.
    apply (inj (app (log s))) in Hlog as <-.
    destruct (Hadd _ _ Hsv) as [Hold|Hin]; [by eapply objs_servers|].
    destruct a as [| | | | |sv rs| | |]; try by apply not_elem_of_nil in Hin.
    simpl in Hin. apply list_elem_of_singleton in Hin as [= ->]. by eapply Hobj.
Qed.

(** ** A call that can be served returns *)

Definition served s (c : call T V W E S) : Prop :=
  (∀ srv rs, objs s !! srv = Some rs → serves rs (creq c)) ∧
  (∀ srv svc meth, cgo c = Calling srv svc meth → returns svc meth (creq c)).

Lemma served_ok i s c : objs_ok s → calls s !! i = Some c → served s c → handler_ok s c.
Proof.
  intros HO Hc [Hs Hr]. unfold handler_ok. destruct (cgo c) as [|srv|srv svc meth| |] eqn:Hg; try done.
  - destruct (objs_targets _ HO i c srv Hc) as [rs Hrs]; [right; by left|]. eauto.
  - by eapply Hr.
Qed.

(** The new goroutine state [Calling] comes from a server that serves the request. *)
Lemma call_step_served i s s' c c' :
  call_step ctxType i s (Ret s') → calls s !! i = Some c → calls s' !! i = Some c' →
  served s c → served s' c'.
Proof.
  intros Hst Hc Hc' [Hs Hr].
  destruct (call_step_own _ _ _ Hst) as (d & d' & es & Hown).
  pose proof (own_call _ _ _ _ _ _ Hown) as Hd. rewrite Hc in Hd. injection Hd as <-.
  assert (creq c' = creq c) as Hreq.
  { rewrite (own_calls _ _ _ _ _ _ Hown), (set_call_lookup _ _ _ _ Hc) in Hc'. injection Hc' as <-.
    apply Hown. }
  split; rewrite Hreq.
  - intros srv rs' Hrs'. pose proof (call_step_objs _ _ _ Hst srv) as Ho. rewrite Hrs' in Ho.
    destruct (objs s !! srv) as [rs|] eqn:Hrs; [|done]. injection Ho as Ho.
    eapply serves_services; [exact Ho|]. by eapply Hs.
  - intros srv svc meth Hg. inversion Hst; subst; simpl in Hc';
      rewrite (set_call_lookup _ _ _ _ Hc) in Hc'; simplify_eq/=; try by eapply Hr.
    + unfold processReq_start in *. case_all; by simplify_eq/=.
    + match goal with Hd : Server_dispatch _ ?rs = _, Ho : objs s !! _ = Some ?rs |- _ =>
        destruct (Hs _ _ Ho) as (svc' & meth' & rs'' & Hd' & Hret); rewrite Hd in Hd' end.
      by injection Hd' as <- <- <-.
Qed.

Definition own (i : nat) s s' : Prop := call_step ctxType i s (Ret s').

Lemma served_call_returns k : ∀ i s c,
  (rank c < k)%nat → inv s → objs_ok s → calls s !! i = Some c → served s c →
  ∃ s' c', rtc (own i) s s' ∧ calls s' !! i = Some c' ∧ answered (cpc c').
Proof.
  induction k as [|k IH]; intros i s c Hk Hinv HO Hc Hserv; [lia|].
  assert (answered (cpc c) ∨ ¬ answered (cpc c)) as [Ha|Hna].
  { unfold answered. destruct (cpc c); eauto; right; naive_solver. }
  { exists s, c. split; [reflexivity|done]. }
  destruct (call_progress i s c Hinv Hc Hna) as (s1 & c1 & Hst & Hc1 & Hlt).
  { left. by eapply served_ok. }
  destruct (call_step_own _ _ _ Hst) as (d & d' & es & Hown).
  destruct (IH i s1 c1) as (s' & c' & Hrtc & Hc' & Ha).
  - lia.
  - by eapply inv_own.
  - by eapply objs_ok_own.
  - done.
  - by eapply call_step_served.
  - exists s', c'. split; [|done]. by eapply rtc_l.
Qed.

(** ** A reliable network that is left alone *)

(** Steps of the calls and of the program, but none that changes the network. *)
Definition calm_step s s' : Prop :=
  (∃ i, call_step ctxType i s (Ret s')) ∨ other_step s (Ret s').

Record healthy n (e : E) (sn : S) (srv : nat) : Prop := {
  h_connected : connected_to n e = Some sn;
  h_enabled : is_enabled n e = true;
  h_server : server_of n sn = Some srv;
  h_reliable : reliable n = true
}.

(** The service that [Server.dispatch] finds for [req] on server [srv] in some state
    between [s0] and [s]. *)
Definition found s0 (srv : nat) (req : reqMsg E T) (svc : RpcServer.Service T V W) (meth : string) s : Prop :=
  ∃ s1 rs nm, rtc calm_step s0 s1 ∧ rtc calm_step s1 s ∧ objs s1 !! srv = Some rs ∧
    split_svcMeth (svcMeth req) = Ret (nm, meth) ∧ services rs !! nm = Some svc.

(** The handler that the request names, run on the decoded arguments and a zero
    reply variable in some state after [s0], has left [v] in its reply. *)
Definition handled s0 (srv : nat) (req : reqMsg E T) (v : V) : Prop :=
  ∃ s1 svc meth m replyType err w', found s0 srv req svc meth s1 ∧
    methods svc !! meth = Some m ∧ In m !! 3%nat = Some replyType ∧
    Func m (fst (decode (args req) (Zero (argsType req)))) (Zero (Elem replyType)) (world s1) = Some (v, err, w').

Definition handled_reply s0 srv req (r : replyMsg) : Prop :=
  ∃ v, handled s0 srv req v ∧ r = mkReply true (fst (encode v)).

(** Where a call is that meets with no obstacles. *)
Definition calm_go s0 srv req s (g : gor) : Prop :=
  match g with
  | Started srv' => srv' = srv
  | Calling srv' svc meth => srv' = srv ∧ found s0 srv req svc meth s
  | Sending r => handled_reply s0 srv req r
  | _ => False
  end.

Definition calm_call s0 (sn : S) srv req s (p : wait_pc) (g : gor) : Prop :=
  match p with
  | Arrived => g = NotStarted
  | Chosen sn' srv' rel _ => g = NotStarted ∧ sn' = sn ∧ srv' = srv ∧ rel = true
  | Waiting sn' srv' rel _ => calm_go s0 srv req s g ∧ sn' = sn ∧ srv' = srv ∧ rel = true
  | Leaving sn' srv' rel _ (Some r) =>
      handled_reply s0 srv req r ∧ g = Finished ∧ sn' = sn ∧ srv' = srv ∧ rel = true
  | Delayed r | Answered r => handled_reply s0 srv req r ∧ g = Finished
  | _ => False
  end.

Lemma healthy_links n n' e sn srv : same_links n n' → healthy n e sn srv → healthy n' e sn srv.
Proof.
  intros (Hr & _ & He & Hs & Hc & _) [K1 K2 K3 K4].
  split; unfold connected_to, is_enabled, server_of in *; congruence.
Qed.

Lemma healthy_alive n e sn srv : healthy n e sn srv → isServerDead e sn srv n = false.
Proof.
  intros [_ He Hs _]. unfold isServerDead. rewrite He, Hs. simpl. by rewrite bool_decide_false by naive_solver.
Qed.

Lemma healthy_read (req : reqMsg E T) n sn srv :
  healthy n (endname req) sn srv →
  processReq_read req n = Chosen sn srv true (longReordering n).
Proof.
  intros [Hc He Hs Hr]. unfold processReq_read, readEndnameInfo. by rewrite Hc, He, Hs, Hr.
Qed.

Lemma found_step s0 srv req svc meth s s' :
  calm_step s s' → found s0 srv req svc meth s → found s0 srv req svc meth s'.
Proof.
  intros Hs (s1 & rs & nm & Hr0 & Hr1 & Hrest). exists s1, rs, nm. split_and!; try apply Hrest; [done|].
  etrans; [exact Hr1|]. by apply rtc_once.
Qed.

Lemma calm_call_mono s0 sn srv req s s' p g :
  calm_step s s' → calm_call s0 sn srv req s p g → calm_call s0 sn srv req s' p g.
Proof.
  intros Hs. destruct p; simpl; try done. intros [Hg Hr]. split; [|done].
  destruct g; simpl in *; try done. destruct Hg as [-> Hf]. split; [done|]. by eapply found_step.
Qed.

Lemma dispatch_found s0 s srv (req : reqMsg E T) rs svc meth rs' :
  rtc calm_step s0 s → objs s !! srv = Some rs → Server_dispatch req rs = Ret (svc, meth, rs') →
  found s0 srv req svc meth s.
Proof.
  intros Hr Ho Hd. unfold Server_dispatch in Hd. apply bind_ret_inv in Hd as ([nm me] & Hsp & Hd). simpl in Hd.
  destruct (services rs !! nm) as [svc'|] eqn:Hsv; [|done]. injection Hd as <- <- <-.
  exists s, rs, nm. by split_and!.
Qed.

Lemma execute_handled s0 s srv (req : reqMsg E T) svc meth r w' :
  found s0 srv req svc meth s → Service_dispatch ctxType svc meth req (world s) = Some (Ret (r, w')) →
  handled_reply s0 srv req r.
Proof.
  intros Hf Hd. unfold Service_dispatch in Hd. destruct (methods svc !! meth) as [m|] eqn:Hm; [|done].
  destruct (decode (args req) (Zero (argsType req))) as [v b] eqn:Hdec.
  destruct (In m !! 3%nat) as [rt|] eqn:Hrt; [|done]. destruct (call_types_ok ctxType m v); [|done].
  destruct (Func m v (Zero (Elem rt)) (world s)) as [[[rv err] w1]|] eqn:Hfun; [|done]. injection Hd as <- _.
  exists rv. split; [|done]. exists s, svc, meth, m, rt, err, w1. by rewrite Hdec.
Qed.

Lemma calm_call_step i s0 s s' c c' sn srv :
  rtc calm_step s0 s → call_step ctxType i s (Ret s') → calls s !! i = Some c → calls s' !! i = Some c' →
  healthy (net s) (endname (creq c)) sn srv → calm_call s0 sn srv (creq c) s (cpc c) (cgo c) →
  calm_call s0 sn srv (creq c) s' (cpc c') (cgo c').
Proof.
  intros Hrun Hst Hc Hc' Hh Hp. pose proof (healthy_alive _ _ _ _ Hh) as Hal.
  eapply calm_call_mono; [left; by exists i|].
  inversion Hst; subst; simpl in Hc'; rewrite (set_call_lookup _ _ _ _ Hc) in Hc'; simplify_eq/=;
    repeat match goal with Heq : cpc _ = _ |- _ => rewrite Heq in Hp | Heq : cgo _ = _ |- _ => rewrite Heq in Hp end.
  - rewrite (healthy_read _ _ _ _ Hh). by split_and!.
  - unfold processReq_start in *. destruct Hp as (_ & -> & -> & ->). simplify_eq/=. done.
  - destruct (cpc c) as [| |sn1 srv1 rel1 lr1|sn1 srv1 rel1 lr1|sn1 srv1 rel1 lr1 [r|]|r|r]; simpl in *; try naive_solver.
    destruct Hp as [-> Hp]. split; [|done]. split; [done|]. by eapply dispatch_found.
  - destruct (cpc c) as [| |sn1 srv1 rel1 lr1|sn1 srv1 rel1 lr1|sn1 srv1 rel1 lr1 [r1|]|r1|r1]; simpl in *; try naive_solver.
    destruct Hp as [[-> Hf] Hp]. split; [|done]. by eapply execute_handled.
  - destruct Hp as (Hg & -> & -> & ->). simpl in Hg. by split_and!.
  - unfold processReq_tick. destruct Hp as (Hg & -> & -> & ->). rewrite Hal. by split_and!.
  - destruct (cpc c) as [| |sn1 srv1 rel1 lr1|sn1 srv1 rel1 lr1|sn1 srv1 rel1 lr1 [r1|]|r1|r1]; simpl in *; naive_solver.
  - destruct r as [r|]; [|done]. destruct Hp as (Hr & Hg & -> & -> & ->). unfold processReq_finish in *.
    rewrite Hal in *. simpl in *. case_all; simplify_eq/=; by split.
  - match goal with K : cpc c = _ ∨ _, Hf : fire _ _ = _ |- _ =>
      destruct K as [Heq|[r Heq]]; rewrite Heq in Hp, Hf; [done|]; injection Hf as <- <- end. done.
Qed.

Lemma calm_step_call s s' i c :
  calm_step s s' → calls s !! i = Some c →
  ∃ c', calls s' !! i = Some c' ∧ creq c' = creq c ∧ (c' = c ∨ call_step ctxType i s (Ret s')) ∧
    same_links (net s) (net s').
Proof.
  intros [[j Hst]|Hst] Hc.
  - destruct (call_step_own _ _ _ Hst) as (d & d' & es & [Hd Hcs Hreq _ _ Hl _ _ _ _]).
    rewrite Hcs. destruct (decide (j = i)) as [-> |].
    + rewrite (set_call_lookup _ _ _ _ Hc). simplify_eq. eexists. split_and!; eauto.
    + rewrite list_lookup_insert_ne by done. exists c. split_and!; eauto.
  - destruct (other_step_outer _ _ Hst) as [(cs & Hcs & _) _].
    exists c. rewrite Hcs. split_and!; [by apply lookup_app_l_Some|done|by left|].
    inversion Hst as [rcv e sm v s1 He Hsend| | |]; subst; try done.
    unfold Call_send in Hsend. case_all; by simplify_eq/=.
Qed.

Lemma calm_run s s' i c sn srv :
  rtc calm_step s s' → calls s !! i = Some c →
  healthy (net s) (endname (creq c)) sn srv → calm_call s sn srv (creq c) s (cpc c) (cgo c) →
  ∃ c', calls s' !! i = Some c' ∧ calm_call s sn srv (creq c) s' (cpc c') (cgo c').
Proof.
  intros Hr Hc Hh Hp.
  assert (∃ c', calls s' !! i = Some c' ∧ creq c' = creq c ∧ healthy (net s') (endname (creq c)) sn srv ∧
    calm_call s sn srv (creq c) s' (cpc c') (cgo c')) as (c' & Hc' & _ & _ & Hp'); [|by exists c'].
  revert s' Hr. apply (rtc_ind_r _ s); [by exists c|].
  intros s1 s2 Hr Hs (c1 & Hc1 & Hreq & Hh1 & Hp1).
  destruct (calm_step_call _ _ _ _ Hs Hc1) as (c2 & Hc2 & Hreq2 & Hwhich & Hl).
  exists c2. split_and!; [done|congruence|by eapply healthy_links|].
  destruct Hwhich as [-> |Hst]; [by eapply calm_call_mono|].
  rewrite <- Hreq in *. by eapply calm_call_step.
Qed.

(** ** Statistics *)

Definition call_bytes (c : call T V W E S) : Z :=
  Z.of_nat (length (args (creq c))) +
  match cpc c with Answered r => Z.of_nat (length (reply r)) | _ => 0 end.

Definition total_bytes (cs : list (call T V W E S)) : Z := sum_with call_bytes cs.

Lemma wrap32_add a b : wrap32 (wrap32 a + b) = wrap32 (a + b).
Proof.
  unfold wrap32. f_equal.
  replace ((a + 2 ^ 31) `mod` 2 ^ 32 - 2 ^ 31 + b + 2 ^ 31) with ((a + 2 ^ 31) `mod` 2 ^ 32 + b) by lia.
  rewrite Zplus_mod_idemp_l. f_equal. lia.
Qed.

Record stats s : Prop := {
  stats_count : net_count (net s) = wrap32 (Z.of_nat (length (calls s)));
  stats_bytes : net_bytes (net s) = wrap64 (total_bytes (calls s))
}.

(** What one step of a call adds to the bytes. *)
Lemma call_step_bytes i s s' : call_step ctxType i s (Ret s') →
  ∃ c c', calls s !! i = Some c ∧ calls s' = <[i := c']> (calls s) ∧
    net_count (net s') = net_count (net s) ∧
    (net_bytes (net s') = net_bytes (net s) ∧ call_bytes c' = call_bytes c ∨
     net_bytes (net s') = wrap64 (net_bytes (net s) + (call_bytes c' - call_bytes c))).
Proof.
  intros Hs. inversion Hs as
    [c Hc Hpc|c r sn srv rel lr p g Hc Hpc Hr Hst|c srv rs svc meth rs' Hc Hgo Ho Hd|
    |c srv svc meth r w' Hc Hgo Hd| |c sn srv rel lr r Hc Hpc Hgo|c sn srv rel lr Hc Hpc
    |c r p Hc Hpc Hnw Hgo|c r1 r2 sn srv rel lr r p n Hc Hpc Hr1 Hr2 Hf|c p n Hc Hpc Hf]; subst;
    exists c; (eexists; split; [done|]; split; [done|]); simpl; unfold call_bytes; simpl;
    rewrite ?Hpc; try by (split; [done|left]).
  - split; [done|left]. split; [done|].
    destruct (processReq_read_spec (creq c) (net s)) as [(?&?&?&?&-> &?)| ->]; done.
  - split; [done|left]. split; [done|]. unfold processReq_start in Hst.
    destruct (negb rel && _); by injection Hst as <- <-.
  - split; [done|left]. split; [done|]. unfold processReq_tick. by destruct (isServerDead _ _ _ _).
  - unfold processReq_finish in Hf. case_all; simplify_eq/=; split; try done; try (by left).
    right. f_equal. lia.
  - destruct Hpc as [Hpc|[r Hpc]]; rewrite Hpc in Hf |- *; injection Hf as <- <-; simpl.
    + split; [done|by left].
    + split; [done|]. right. f_equal. lia.
Qed.

Lemma stats_own i s s' : call_step ctxType i s (Ret s') → stats s → stats s'.
Proof.
  intros Hs [Sc Sb]. destruct (call_step_bytes _ _ _ Hs) as (c & c' & Hc & Hcs & Hcnt & Hb).
  split; rewrite Hcs.
  - by rewrite length_insert, Hcnt.
  - unfold total_bytes. rewrite (sum_with_insert _ _ _ c) by done. destruct Hb as [[-> Heq]| ->].
    + rewrite Sb. unfold total_bytes. f_equal. lia.
    + by rewrite Sb, wrap64_add.
Qed.

Lemma stats_step s s' : step ctxType s (Ret s') → stats s → stats s'.
Proof.
  intros Hs HS. inversion Hs as [i o Hc|o Ho|a n Hobj Ha|]; subst.
  - by eapply stats_own.
  - destruct HS as [Sc Sb]. inversion Ho as [rcv e sm v s1 He Hsend| | |]; subst; try done.
    unfold Call_send in Hsend. destruct (encode v) as [bs []]; simpl in Hsend; [|done].
    destruct (done (net s) && negb rcv); [done|]. injection Hsend as <-. split; simpl.
    + rewrite Sc, wrap32_add, length_app. f_equal. simpl. lia.
    + rewrite Sb, wrap64_add. unfold total_bytes. rewrite sum_with_app. f_equal. simpl.
      unfold call_bytes. simpl. lia.
  - destruct HS as [Sc Sb]. split; simpl;
      destruct a; simpl in Ha; unfold Cleanup, MakeEnd in Ha; case_all; by simplify_eq/=.
Qed.

End props.
