(* ===== verification/NetworkTheorems.v ===== *)
(** * Theorems about remote calls

    The properties of labrpc proved from the invariants of NetworkProps, and an
    interpreter of schedules ([exec]) that gives concrete runs of the system. *)

From stdpp Require Import strings gmap.
From Stdlib Require Import Strings.Byte.
From S2P Require Import Prelude GoString Labgob RpcServer Network NetworkProps.
Local Open Scope Z_scope.

Section theorems.
Context {T V W E S : Type} `{Codec T V} `{Countable E} `{Countable S}.
Context (ctxType : T).
Implicit Types s : sys T V W E S.

(** C13: [Call] returns true only when the handler was executed.  In every
    reachable state, if a call has been answered positively then exactly these
    things have happened to it, in this order: the network looked up the server
    [srv] that the enabled end was connected to; the handler ran once on [srv] and
    produced this reply; [isServerDead] found the end still enabled and [srv] still
    registered under its name; the reply was handed over.  If moreover every server
    object is added at most once, [srv] was registered while the handler ran, so
    that the handler did not run on a server that had been deleted.  The check
    comes before the delay of a reply: with long reordering the reply may still be
    handed over after the server is deleted ([delayed_reply_after_delete]). *)
Theorem positive_reply_sound s i c r :
  reachable ctxType s → calls s !! i = Some c → cpc c = Answered r → ok r = true →
  ∃ n0 n1 n2 sn srv,
    history i (log s) = [EChosen i n0; EExec i srv r n1; EAlive i n2; EAnswer i r] ∧
    is_enabled n0 (endname (creq c)) = true ∧ connected_to n0 (endname (creq c)) = Some sn ∧
    server_of n0 sn = Some srv ∧
    is_enabled n2 (endname (creq c)) = true ∧ server_of n2 sn = Some srv ∧
    (NoDup (added (log s)) → server_of n1 sn = Some srv).
Proof.
  intros Hr Hc Hpc Hok. pose proof (inv_calls _ (network_inv _ _ Hr) _ _ Hc) as Hw.
  rewrite Hpc in Hw.
  inversion Hw as [| | | | | | | |n0 sn srv rel lr r' n1 n2 Hch Hfr Hdead Hp Hg Hh|]; subst; [|done].
  exists n0, n1, n2, sn, srv. unfold chosen_at, readEndnameInfo in Hch. injection Hch as He Hcn Hsv _ _.
  rewrite Hcn in Hsv. unfold isServerDead in Hdead. bool_to_prop.
  assert (server_of n2 sn = Some srv) as Hs2 by (by apply dec_stable).
  split_and!; try done. intros Hnd. symmetry in Hh.
  assert (∀ ev, ev ∈ history i (log s) → ev ∈ log s) as Hin by (intros ev; by rewrite elem_of_history; intros []).
  eapply (reg_alive _ (reachable_reg _ _ Hr Hnd) i sn srv r n1 n2); [| |exact Hs2]; apply Hin; rewrite Hh;
    set_solver.
Qed.

(** C26: every call is executed at most once and answered at most once, whatever
    the network loses, delays or reorders and whatever is deleted or
    reconnected meanwhile; a call that returns false may have been executed. *)
Theorem executed_at_most_once s i :
  reachable ctxType s →
  (length (execs (history i (log s))) ≤ 1)%nat ∧ (length (answers (history i (log s))) ≤ 1)%nat.
Proof.
  intros Hr. destruct (network_inv _ _ Hr) as [I1 I2].
  destruct (calls s !! i) as [c|] eqn:Hc.
  2: { rewrite I2; [simpl; lia|]. by apply lookup_ge_None. }
  pose proof (I1 _ _ Hc) as Hw.
  assert (∀ srv (g : goroutine T V W) (h : list (event E S)) n0, running i srv g h →
    (length (execs (EChosen i n0 :: h)) ≤ 1)%nat ∧ (length (answers (EChosen i n0 :: h)) ≤ 1)%nat) as Hrn.
  { intros srv g h n0 []; simpl; lia. }
  inversion Hw; try (match goal with K : running _ _ _ _ |- _ => exact (Hrn _ _ _ _ K) end); simpl; try lia.
  match goal with Hx : length (execs _) = _, Ha : answers _ = _ |- _ => rewrite Hx, Ha end.
  destruct (cgo c); simpl; lia.
Qed.

(** C23: [Call] returns unless its handler blocks on a live server.  Every step of
    a call brings it closer to its answer, except that the timer of the waiting
    loop may find the server alive and wait again; an unanswered call has such a
    step when its handler can run or when its server is found dead; and a call
    whose request every server can serve is answered by its own steps alone. *)
Theorem call_returns s i c :
  reachable ctxType s → calls s !! i = Some c →
  (∀ s', own ctxType i s s' → ∃ c', calls s' !! i = Some c' ∧
     ((rank c' < rank c)%nat ∨ c' = c ∧ ∃ sn srv rel lr, cpc c = Waiting sn srv rel lr ∧
        isServerDead (endname (creq c)) sn srv (net s) = false)) ∧
  (¬ answered (cpc c) → handler_ok ctxType s c ∨ seen_dead s c → progress ctxType i s c) ∧
  (served ctxType s c →
   ∃ s' c', rtc (own ctxType i) s s' ∧ calls s' !! i = Some c' ∧ answered (cpc c')).
Proof.
  intros Hr Hc. pose proof (network_inv _ _ Hr) as Hinv. split_and!.
  - intros s' Hs. by eapply call_step_rank.
  - intros Hna Hok. by eapply call_progress.
  - intros Hs. eapply served_call_returns; eauto using reachable_objs_ok.
Qed.


(** The statistics are exact: the total count is the number of calls that
    entered the network, modulo 2^32, and the total of the bytes is the length of
    all their arguments and of the replies that were delivered, modulo 2^64. *)
Theorem statistics_exact s :
  reachable ctxType s →
  GetTotalCount (net s) = wrap32 (Z.of_nat (length (calls s))) ∧
  GetTotalBytes (net s) = wrap64 (total_bytes (calls s)).
Proof.
  intros Hr. assert (stats s) as [Hcnt Hb]; [|done].
  induction Hr as [w|s s' _ IH Hs]; [done|]. by eapply stats_step.
Qed.

(** ** Schedules *)

Inductive cmd :=
| CMakeServer (srv : nat)
| CAddService (srv : nat) (svc : RpcServer.Service T V W)
| CAdmin (a : @admin E S)
| CCall (e : E) (svcMeth : string) (v : V)
| CRead (i : nat)
| CStart (i : nat) (r : Z)
| CDispatch (i : nat)
| CExecute (i : nat)
| CReceive (i : nat)
| CTick (i : nat)
| CFinish (i : nat) (r1 r2 : Z)
| CFire (i : nat).

Definition guard_opt {A} (b : bool) (o : option A) : option A := if b then o else None.

Definition exec (k : cmd) s : option (sys T V W E S) :=
  match k with
  | CMakeServer srv => guard_opt (bool_decide (objs s !! srv = None))
      (Some (mkSys (net s) (<[srv := MakeServer]> (objs s)) (calls s) (world s) (log s)))
  | CAddService srv svc => rs ← objs s !! srv;
      Some (mkSys (net s) (<[srv := AddService svc rs]> (objs s)) (calls s) (world s) (log s))
  | CAdmin a =>
      guard_opt (match a with AAddServer _ srv => bool_decide (is_Some (objs s !! srv)) | _ => true end)
      (match exec_admin a (net s) with
       | Ret n => Some (mkSys n (objs s) (calls s) (world s) (log s ++ admin_event a))
       | Panic _ => None
       end)
  | CCall e m v => guard_opt (bool_decide (e ∈ ends (net s)))
      (match Call_send false e m v s with Ret o => o | Panic _ => None end)
  | CRead i => c ← calls s !! i;
      match cpc c with
      | Arrived => let p := processReq_read (creq c) (net s) in
          Some (set_call i (mkCall (creq c) p (cgo c)) (net s) (chosen_event i p (net s)) s)
      | _ => None
      end
  | CStart i r => c ← calls s !! i;
      match cpc c with
      | Chosen sn srv rel lr => guard_opt (0 <=? r)
          (let '(p, g) := processReq_start r sn srv rel lr in
           Some (set_call i (mkCall (creq c) p g) (net s) (answer_event i p) s))
      | _ => None
      end
  | CDispatch i => c ← calls s !! i;
      match cgo c with
      | Started srv => rs ← objs s !! srv;
          match Server_dispatch (creq c) rs with
          | Ret (svc, meth, rs') => Some (mkSys (net s) (<[srv := rs']> (objs s))
              (<[i := mkCall (creq c) (cpc c) (Calling srv svc meth)]> (calls s)) (world s) (log s))
          | Panic _ => None
          end
      | _ => None
      end
  | CExecute i => c ← calls s !! i;
      match cgo c with
      | Calling srv svc meth =>
          match Service_dispatch ctxType svc meth (creq c) (world s) with
          | Some (Ret (r, w')) => Some (mkSys (net s) (objs s)
              (<[i := mkCall (creq c) (cpc c) (Sending r)]> (calls s)) w' (log s ++ [EExec i srv r (net s)]))
          | _ => None
          end
      | _ => None
      end
  | CReceive i => c ← calls s !! i;
      match cpc c, cgo c with
      | Waiting sn srv rel lr, Sending r =>
          Some (set_call i (mkCall (creq c) (Leaving sn srv rel lr (Some r)) Finished) (net s) [] s)
      | _, _ => None
      end
  | CTick i => c ← calls s !! i;
      match cpc c with
      | Waiting sn srv rel lr => Some (set_call i
          (mkCall (creq c) (processReq_tick (creq c) sn srv rel lr (net s)) (cgo c)) (net s) [] s)
      | _ => None
      end
  | CFinish i r1 r2 => c ← calls s !! i;
      match cpc c with
      | Leaving sn srv rel lr r => guard_opt ((0 <=? r1) && (0 <=? r2) && (r2 <? 900))
          (let '(p, n) := processReq_finish r1 r2 (creq c) sn srv rel lr r (net s) in
           Some (set_call i (mkCall (creq c) p (cgo c)) n
             ((if bool_decide (r ≠ None) && negb (isServerDead (endname (creq c)) sn srv (net s))
               then [EAlive i (net s)] else []) ++ answer_event i p) s))
      | _ => None
      end
  | CFire i => c ← calls s !! i;
      match cpc c with
      | TimingOut | Delayed _ => let '(p, n) := fire (cpc c) (net s) in
          Some (set_call i (mkCall (creq c) p (cgo c)) n (answer_event i p) s)
      | _ => None
      end
  end.

Lemma guard_opt_some {A} b (o : option A) x : guard_opt b o = Some x → b = true ∧ o = Some x.
Proof. by destruct b. Qed.

Definition run_cmds (ks : list cmd) (o : option (sys T V W E S)) : option (sys T V W E S) :=
  foldl (fun o k => s ← o; exec k s) o ks.

Lemma exec_step k s s' : exec k s = Some s' → step ctxType s (Ret s').
Proof.
  destruct k as [srv|srv svc|a|e m v|i|i r|i|i|i|i|i r1 r2|i]; simpl; intros Hx.
  - apply guard_opt_some in Hx as [?%bool_decide_eq_true [= <-]]. by apply step_other, os_make_server.
  - destruct (objs s !! srv) eqn:Ho; simplify_eq/=. by apply step_other, os_add_service.
  - apply guard_opt_some in Hx as [Hg Hx]. destruct (exec_admin a (net s)) eqn:Ha; simplify_eq/=.
    apply step_admin; [|done]. intros nm srv ->. by apply bool_decide_eq_true in Hg.
  - apply guard_opt_some in Hx as [Hg%bool_decide_eq_true Hx].
    destruct (Call_send false e m v s) as [o|] eqn:Hs; simplify_eq/=. by eapply step_other, os_call.
  - destruct (calls s !! i) as [c|] eqn:Hc; simplify_eq/=. destruct (cpc c) eqn:Hp; simplify_eq/=.
    by apply (step_call _ _ i), cs_read.
  - destruct (calls s !! i) as [c|] eqn:Hc; simplify_eq/=. destruct (cpc c) eqn:Hp; simplify_eq/=.
    apply guard_opt_some in Hx as [Hg Hx]. bool_to_prop.
    destruct (processReq_start r servername server rel longr) eqn:Hst; simplify_eq/=.
    by eapply (step_call _ _ i), cs_start.
  - destruct (calls s !! i) as [c|] eqn:Hc; simplify_eq/=. destruct (cgo c) eqn:Hp; simplify_eq/=.
    destruct (objs s !! server) eqn:Ho; simplify_eq/=.
    destruct (Server_dispatch _ _) as [[[svc meth] rs']|] eqn:Hd; simplify_eq/=.
    by eapply (step_call _ _ i), cs_dispatch.
  - destruct (calls s !! i) as [c|] eqn:Hc; simplify_eq/=. destruct (cgo c) eqn:Hp; simplify_eq/=.
    destruct (Service_dispatch _ _ _ _ _) as [[[r w']|]|] eqn:Hd; simplify_eq/=.
    by eapply (step_call _ _ i), cs_execute.
  - destruct (calls s !! i) as [c|] eqn:Hc; simplify_eq/=.
    destruct (cpc c) eqn:Hp; simplify_eq/=. destruct (cgo c) eqn:Hg; simplify_eq/=.
    by eapply (step_call _ _ i), cs_receive.
  - destruct (calls s !! i) as [c|] eqn:Hc; simplify_eq/=. destruct (cpc c) eqn:Hp; simplify_eq/=.
    by apply (step_call _ _ i), cs_tick.
  - destruct (calls s !! i) as [c|] eqn:Hc; simplify_eq/=. destruct (cpc c) eqn:Hp; simplify_eq/=.
    apply guard_opt_some in Hx as [Hg Hx]. bool_to_prop.
    destruct (processReq_finish _ _ _ _ _ _ _ _ _) eqn:Hf; simplify_eq/=.
    eapply (step_call _ _ i), (cs_finish ctxType i s c r1 r2); done || lia.
  - destruct (calls s !! i) as [c|] eqn:Hc; simplify_eq/=.
    destruct (fire (cpc c) (net s)) as [p n] eqn:Hf.
    destruct (cpc c) eqn:Hp; try done; injection Hx as <-;
      apply (step_call _ _ i), cs_fire; rewrite ?Hp; eauto.
Qed.

Lemma run_cmds_none ks : run_cmds ks None = None.
Proof. by induction ks. Qed.

Lemma run_cmds_reachable ks s s' :
  reachable ctxType s → run_cmds ks (Some s) = Some s' → reachable ctxType s'.
Proof.
  revert s. induction ks as [|k ks IH]; intros s Hr Hx; simpl in Hx; [by simplify_eq|].
  destruct (exec k s) as [s1|] eqn:Hk.
  - eapply IH; [|exact Hx]. eapply reach_step; [done|]. by eapply exec_step.
  - change (run_cmds ks None = Some s') in Hx. by rewrite run_cmds_none in Hx.
Qed.

End theorems.

(** ** A concrete network

    One server with one service, whose only handler echoes its argument. *)

Inductive demo_type := TReceiver | TContext | TBytes | TPtrBytes | TError.

#[export] Instance demo_codec : Codec demo_type (list byte) := {
  Name t := match t with TContext => "Context" | TError => "error" | _ => "" end;
  KindOf t := match t with TPtrBytes | TReceiver => Ptr | TBytes => Slice | _ => Interface end;
  Elem _ := TBytes;
  AssignableTo t t' :=
    match t, t' with TContext, TContext | TBytes, TBytes => true | _, _ => false end;
  TypeOf _ := TBytes;
  Zero _ := [];
  encode v := (v, true);
  decode bs _ := (bs, true)
}.

#[export] Instance demo_codec_laws : CodecLaws demo_type (list byte).
Proof. by split. Qed.

Definition demo_method : Method demo_type (list byte) nat :=
  mkMethod "Say" "" [TReceiver; TContext; TBytes; TPtrBytes] [TError]
    (fun args _ w => Some (args, None, S w)).

Definition demo_service : Service demo_type (list byte) nat := MakeService "Echo" [demo_method].

Definition demo_server : Server demo_type (list byte) nat := AddService demo_service MakeServer.

Abbreviation demo_sys := (sys demo_type (list byte) nat string nat).

(** The server is started and connected, and a call has arrived. *)
Definition demo_setup : list (@cmd demo_type (list byte) nat string nat) :=
  [CMakeServer 0; CAddService 0 demo_service; CAdmin (AMakeEnd "end"); CAdmin (AConnect "end" 7%nat);
   CAdmin (AAddServer 7%nat 0%nat); CAdmin (AEnable "end" true);
   CCall "end" "Echo.Say" [Byte.x01; Byte.x02]].

Definition demo_serve : list (@cmd demo_type (list byte) nat string nat) :=
  [CRead 0; CStart 0 5; CDispatch 0; CExecute 0; CTick 0; CReceive 0; CFinish 0 5 5].

Definition demo_at (ks : list (@cmd demo_type (list byte) nat string nat)) : demo_sys :=
  default (initial 0%nat) (run_cmds TContext ks (Some (initial 0%nat))).

Definition demo_req : reqMsg string demo_type := mkReq "end" "Echo.Say" TBytes [Byte.x01; Byte.x02].
Definition demo_reply : replyMsg := mkReply true [Byte.x01; Byte.x02].

Lemma demo_reachable ks :
  (match run_cmds TContext ks (Some (initial 0%nat)) with Some _ => true | None => false end) = true →
  reachable TContext (demo_at ks).
Proof.
  intros Hs. apply (run_cmds_reachable TContext ks (initial 0%nat)); [constructor|].
  unfold demo_at. by destruct (run_cmds _ _ _).
Qed.

Lemma demo_serves rs : services rs = services demo_server → serves TContext rs demo_req.
Proof.
  intros Hs. apply (serves_services _ demo_server); [done|].
  exists demo_service, "Say". eexists. split; [by vm_compute|]. intros w. by eexists _, _.
Qed.

Lemma demo_served : served TContext (demo_at demo_setup) (mkCall demo_req Arrived NotStarted).
Proof.
  split; [|done]. intros srv rs Hrs. apply demo_serves.
  assert (objs (demo_at demo_setup) = {[0%nat := demo_server]}) as Ho by (by vm_compute).
  rewrite Ho in Hrs. by apply lookup_singleton_Some in Hrs as [_ <-].
Qed.

Lemma positive_reply_sound_witness : ∃ n0 n1 n2 sn srv,
  history 0 (log (demo_at (demo_setup ++ demo_serve))) =
    [EChosen 0 n0; EExec 0 srv demo_reply n1; EAlive 0 n2; EAnswer 0 demo_reply] ∧
  server_of n1 sn = Some srv.
Proof.
  destruct (positive_reply_sound TContext (demo_at (demo_setup ++ demo_serve)) 0
    (mkCall demo_req (Answered demo_reply) Finished) demo_reply)
    as (n0 & n1 & n2 & sn & srv & Hh & _ & _ & _ & _ & _ & Hn).
  - apply demo_reachable. by vm_compute.
  - by vm_compute.
  - done.
  - done.
  - exists n0, n1, n2, sn, srv. split; [exact Hh|]. apply Hn.
    apply (bool_decide_unpack _). by vm_compute.
Defined.

Lemma executed_at_most_once_witness :
  (length (execs (history 0 (log (demo_at (demo_setup ++ demo_serve))))) ≤ 1)%nat.
Proof.
  apply (executed_at_most_once TContext). apply demo_reachable. by vm_compute.
Defined.

Lemma call_returns_witness : ∃ s' c',
  rtc (own TContext 0) (demo_at demo_setup) s' ∧ calls s' !! 0%nat = Some c' ∧ answered (cpc c').
Proof.
  apply (call_returns TContext (demo_at demo_setup) 0 (mkCall demo_req Arrived NotStarted)).
  - apply demo_reachable. by vm_compute.
  - by vm_compute.
  - apply demo_served.
Defined.


Lemma statistics_exact_witness :
  GetTotalBytes (net (demo_at (demo_setup ++ demo_serve))) = 4.
Proof.
  destruct (statistics_exact TContext (demo_at (demo_setup ++ demo_serve))) as [_ Hb].
  - apply demo_reachable. by vm_compute.
  - rewrite Hb. by vm_compute.
Defined.

(** A delayed reply reaches the client after its server has been deleted: the
    check for a dead server comes before the delay. *)
Lemma delayed_reply_after_delete :
  let s := demo_at (CAdmin (ALongReordering true) :: demo_setup ++ demo_serve ++
                    [CAdmin (ADeleteServer 7%nat); CFire 0]) in
  reachable TContext s ∧ server_of (net s) 7%nat = None ∧
  calls s !! 0%nat = Some (mkCall demo_req (Answered demo_reply) Finished).
Proof. split; [apply demo_reachable; by vm_compute|by vm_compute]. Qed.
