(* ===== verification/ConnectionProvider.v ===== *)
(** * Connection providers

    Model of src/network: the interface [ConnectionProvider], its implementation
    on the simulated network (labrpc_connection_provider.go) and on libp2p
    (libp2p.go).  libp2p, its RPC package and multiaddr are not part of the
    repository, so what the provider calls of them is a record of functions. *)

From stdpp Require Import strings gmap.
From Stdlib Require Import Ascii Strings.Byte.
From S2P Require Import Prelude GoString RpcServer Network.
Local Open Scope string_scope.
Local Open Scope Z_scope.

(** [fmt.Sprintf("%s.%s", svcName, svcMeth)]. *)
Definition qualified (svcName svcMeth : string) : string := svcName ++ String "."%char svcMeth.

(** ** On the simulated network *)

Section labrpc.
Context {E : Type}.

Record LabrpcConnectionProvider := mkProvider { ends : list E; me : Z }.

(** The loop that appends every peer. *)
Definition New (peers : list E) (me : Z) : LabrpcConnectionProvider :=
  mkProvider (foldl (fun es v => (es ++ [v])%list) [] peers) me.

Definition NumPeers (cp : LabrpcConnectionProvider) : Z := Z.of_nat (length (ends cp)).

Definition Me (cp : LabrpcConnectionProvider) : string := Itoa (me cp).

(** [cp.ends[i]] for a machine integer. *)
Definition end_at (es : list E) (i : Z) : outcome E :=
  if i <? 0 then Panic IndexOutOfRange else es.[Z.to_nat i].

(** The end that [Call] uses and the name that it sends. *)
Definition address (cp : LabrpcConnectionProvider) (server svcName svcMeth : string)
    : outcome (E * string) :=
  match Atoi server with
  | None => Panic ExplicitPanic
  | Some serverInt => e ← end_at (ends cp) serverInt; Ret (e, qualified svcName svcMeth)
  end.

Lemma New_ends peers i : ends (New peers i) = peers.
Proof.
  unfold New. simpl. assert (∀ es, foldl (fun es v => es ++ [v])%list es peers = (es ++ peers)%list) as Hf.
  { induction peers as [|p peers IH]; intros es; simpl; [by rewrite app_nil_r|].
    rewrite IH. by rewrite <- app_assoc. }
  by rewrite Hf.
Qed.

Lemma end_at_ret es i e : end_at es i = Ret e ↔ 0 ≤ i ∧ es !! Z.to_nat i = Some e.
Proof.
  unfold end_at. destruct (i <? 0) eqn:Hi; bool_to_prop; [split; [done|lia]|].
  rewrite slice_get_ret. naive_solver.
Qed.

(** Addressing on the simulated network.  A provider made by [New] answers for
    its number of peers; [Call] reaches the end at the position that the server
    name spells in decimal and panics on every other name; in particular the
    names "0", "1", ... reach all ends in order and [Me] its own; and the receiving
    server splits the sent name into the same service and method, provided that
    the method name has no dot. *)
Theorem provider_addresses_peers (peers : list E) (i : Z) (svcName svcMeth : string) :
  int_min ≤ i ≤ int_max → Z.of_nat (length peers) ≤ int_max → has_byte "."%char svcMeth = false →
  let cp := New peers i in
  NumPeers cp = Z.of_nat (length peers) ∧
  (∀ server e m, address cp server svcName svcMeth = Ret (e, m) ↔
     m = qualified svcName svcMeth ∧
     ∃ k : nat, Atoi server = Some (Z.of_nat k) ∧ peers !! k = Some e) ∧
  (∀ k e, peers !! k = Some e →
     address cp (Itoa (Z.of_nat k)) svcName svcMeth = Ret (e, qualified svcName svcMeth)) ∧
  (∀ e, 0 ≤ i → peers !! Z.to_nat i = Some e →
     address cp (Me cp) svcName svcMeth = Ret (e, qualified svcName svcMeth)) ∧
  split_svcMeth (qualified svcName svcMeth) = Ret (svcName, svcMeth).
Proof.
  intros Hi Hlen Hdot cp. unfold cp, NumPeers, address, Me. rewrite New_ends.
  assert (∀ k e, peers !! k = Some e → Atoi (Itoa (Z.of_nat k)) = Some (Z.of_nat k)) as Hk.
  { intros k e Hke. apply Atoi_Itoa. apply lookup_lt_Some in Hke. unfold int_min. lia. }
  split_and!; [done| | | |by apply split_svcMeth_qualified].
  - intros server e m. destruct (Atoi server) as [z|]; [|naive_solver]. split.
    + intros (e' & He & [= <- <-])%bind_ret_inv. apply end_at_ret in He as [Hz He].
      split; [done|]. exists (Z.to_nat z). split; [f_equal; lia|done].
    + intros [-> (k & [= ->] & Hke)]. assert (end_at peers (Z.of_nat k) = Ret e) as ->; [|done].
      apply end_at_ret. rewrite Nat2Z.id. split; [lia|done].
  - intros k e Hke. rewrite (Hk _ _ Hke). assert (end_at peers (Z.of_nat k) = Ret e) as ->; [|done].
    apply end_at_ret. rewrite Nat2Z.id. split; [lia|done].
  - intros e Hi0 He. simpl. rewrite Atoi_Itoa by done. assert (end_at peers i = Ret e) as ->; [|done].
    by apply end_at_ret.
Qed.

End labrpc.
Arguments LabrpcConnectionProvider : clear implicits.

Lemma provider_addresses_peers_witness :
  address (New ["a"; "b"; "c"] 1) "2" "Server" "PublicSubmitOp" = Ret ("c", "Server.PublicSubmitOp").
Proof.
  destruct (provider_addresses_peers ["a"; "b"; "c"] 1 "Server" "PublicSubmitOp")
    as (_ & Ha & _).
  - unfold int_min, int_max. lia.
  - unfold int_max. simpl. lia.
  - done.
  - apply Ha. split; [done|]. by exists 2%nat.
Defined.

(** [Call]: the panics of [address], otherwise [ClientEnd.Call] at that end. *)
Definition Call_start {T V W E S} `{Codec T V} `{Countable E} `{Countable S}
    (cp : LabrpcConnectionProvider E) (received : bool) (server svcName svcMeth : string) (v : V)
    (s : sys T V W E S) : outcome (option (sys T V W E S)) :=
  '(e, name) ← address cp server svcName svcMeth; Call_send received e name v s.

(** ** On libp2p *)

(** What the provider uses of libp2p: parsing of addresses, the identifier and
    the addresses of the host, connecting to a peer, and remote calls.  [Net] is
    the state of the network, [None] an error. *)
Record Libp2p (Net MA ID V : Type) := mkLibp2p {
  NewMultiaddr : string → option MA;
  AddrInfoFromP2pAddr : MA → option ID;
  AddrInfoToP2pAddrs : ID → list MA → option (list MA);
  MAString : MA → string;
  HostID : ID;
  Addrs : Net → list MA;
  HostConnect : ID → Net → bool * Net;
  ClientCall : ID → string → string → V → V → Net → bool * V * Net
}.
Arguments NewMultiaddr {_ _ _ _} _ _.
Arguments AddrInfoFromP2pAddr {_ _ _ _} _ _.
Arguments AddrInfoToP2pAddrs {_ _ _ _} _ _ _.
Arguments MAString {_ _ _ _} _ _.
Arguments HostID {_ _ _ _} _.
Arguments Addrs {_ _ _ _} _ _.
Arguments HostConnect {_ _ _ _} _ _ _.
Arguments ClientCall {_ _ _ _} _ _ _ _ _ _ _.

Section libp2p.
Context {Net MA ID V : Type} `{EqDecision ID} (lib : Libp2p Net MA ID V).

(** [Libp2pConnectionProvider.Call]; the result is the success, the value of the
    reply variable and the new state. *)
Definition Libp2p_Call (server svcName svcMeth : string) (args replyv : V) (n : Net)
    : outcome (bool * V * Net) :=
  match NewMultiaddr lib server with
  | None => Panic ExplicitPanic
  | Some ma =>
      match AddrInfoFromP2pAddr lib ma with
      | None => Panic ExplicitPanic
      | Some peer =>
          let '(connected, n) :=
            if bool_decide (peer ≠ HostID lib) then HostConnect lib peer n else (true, n) in
          if connected : bool then Ret (ClientCall lib peer svcName svcMeth args replyv n)
          else Ret (false, replyv, n)
      end
  end.

Definition Libp2p_NumPeers : outcome Z := Panic ExplicitPanic.

(** The loop of [Me]: the last address without "127.0.0.1". *)
Fixpoint choose_addr (chosenAddr : string) (addrs : list string) : string :=
  match addrs with
  | [] => chosenAddr
  | addr :: addrs' =>
      choose_addr (if negb (Contains addr "127.0.0.1") then addr else chosenAddr) addrs'
  end.

Definition Libp2p_Me (n : Net) : outcome string :=
  match AddrInfoToP2pAddrs lib (HostID lib) (Addrs lib n) with
  | None => Panic ExplicitPanic
  | Some addrs => Ret (choose_addr "" (MAString lib <$> addrs))
  end.

Lemma choose_addr_filter d addrs :
  choose_addr d addrs = default d (last (filter (fun a => Contains a "127.0.0.1" = false) addrs)).
Proof.
  revert d. induction addrs as [|a addrs IH]; intros d; simpl; [done|]. rewrite IH.
  destruct (Contains a "127.0.0.1") eqn:Ha; simpl.
  - by rewrite filter_cons_False by (by rewrite Ha).
  - rewrite filter_cons_True by done. rewrite last_cons.
    destruct (last (filter _ addrs)); done.
Qed.

(** The address of a libp2p host.  [Me] panics when the addresses cannot be
    formed; otherwise it is the last of them that does not contain "127.0.0.1",
    and the empty string exactly when all of them do or that address is empty.
    With an address that libp2p cannot parse, [Call] panics; to itself a host
    never connects, and a failed connection gives false with the reply
    unchanged. *)
Theorem libp2p_Me_chooses_public n :
  (∀ a, Libp2p_Me n = Ret a ↔
     ∃ addrs, AddrInfoToP2pAddrs lib (HostID lib) (Addrs lib n) = Some addrs ∧
       let public := filter (fun a => Contains a "127.0.0.1" = false) (MAString lib <$> addrs) in
       (last public = Some a ∨ last public = None ∧ a = "")) ∧
  (∀ server svc meth v rv, NewMultiaddr lib server ≫= AddrInfoFromP2pAddr lib = None →
     Libp2p_Call server svc meth v rv n = Panic ExplicitPanic) ∧
  (∀ server svc meth v rv, NewMultiaddr lib server ≫= AddrInfoFromP2pAddr lib = Some (HostID lib) →
     Libp2p_Call server svc meth v rv n = Ret (ClientCall lib (HostID lib) svc meth v rv n)) ∧
  (∀ server svc meth v rv peer, NewMultiaddr lib server ≫= AddrInfoFromP2pAddr lib = Some peer →
     peer ≠ HostID lib → fst (HostConnect lib peer n) = false →
     Libp2p_Call server svc meth v rv n = Ret (false, rv, snd (HostConnect lib peer n))).
Proof.
  unfold Libp2p_Me, Libp2p_Call. split_and!.
  - intros a. destruct (AddrInfoToP2pAddrs _ _ _) as [addrs|]; [|naive_solver].
    rewrite choose_addr_filter. split.
    + intros [= <-]. exists addrs. split; [done|]. simpl. destruct (last _); [by left|by right].
    + intros (addrs' & [= <-] & Hl). simpl in Hl. by destruct Hl as [-> |[-> ->]].
  - intros server svc meth v rv Hn. destruct (NewMultiaddr lib server) as [ma|]; simpl in Hn; [|done].
    by rewrite Hn.
  - intros server svc meth v rv Hn. destruct (NewMultiaddr lib server) as [ma|]; simpl in Hn; [|done].
    rewrite Hn. rewrite bool_decide_false by naive_solver. done.
  - intros server svc meth v rv peer Hn Hne Hf. destruct (NewMultiaddr lib server) as [ma|]; simpl in Hn; [|done].
    rewrite Hn, bool_decide_true by done. destruct (HostConnect lib peer n) as [[] n']; done.
Qed.

End libp2p.

(** [createPeer] and [NewLibp2p]: [libp2p_New] starts a host that listens on an
    address, [gorpc_NewServer] and [gorpc_NewClientWithServer] are the
    constructors of the RPC package. *)
Section new_libp2p.
Context {Host RpcSrv RpcClient : Type}.
Context (libp2p_New : string → option Host) (gorpc_NewServer : Host → string → RpcSrv)
  (gorpc_NewClientWithServer : Host → string → RpcSrv → RpcClient).

Record Libp2pConnectionProvider := mkLibp2pProvider { Host_ : Host; Client_ : RpcClient; Server_ : RpcSrv }.

Definition rpcProtocolID : string := "/p2p/rpc/eggscrambler".

Definition createPeer (listenAddr : string) : outcome Host :=
  match libp2p_New listenAddr with None => Panic ExplicitPanic | Some h => Ret h end.

Definition NewLibp2p : outcome Libp2pConnectionProvider :=
  h ← createPeer "/ip4/0.0.0.0/tcp/0";
  let server := gorpc_NewServer h rpcProtocolID in
  Ret (mkLibp2pProvider h (gorpc_NewClientWithServer h rpcProtocolID server) server).

(** Without a host the program ends; otherwise client and server share the host
    and the protocol, so that calls to oneself are served by the own server. *)
Lemma NewLibp2p_spec :
  match NewLibp2p with
  | Ret cp => libp2p_New "/ip4/0.0.0.0/tcp/0" = Some (Host_ cp) ∧
      Server_ cp = gorpc_NewServer (Host_ cp) rpcProtocolID ∧
      Client_ cp = gorpc_NewClientWithServer (Host_ cp) rpcProtocolID (Server_ cp)
  | Panic r => r = ExplicitPanic ∧ libp2p_New "/ip4/0.0.0.0/tcp/0" = None
  end.
Proof. unfold NewLibp2p, createPeer. by destruct (libp2p_New _). Qed.

End new_libp2p.
