(* ===== verification/NetPipeline.v ===== *)
(** * Operations over the simulated network

    The composition of the elimination queue and [submitOp]
    (src/anonbcast/client.go), of the connection provider
    (src/network/labrpc_connection_provider.go), of the simulated network
    (src/labrpc/labrpc.go) and of the anonbcast servers (src/anonbcast/server.go).

    The state of the program behind the network is a [cluster]: the servers, with
    what has happened to them, and the answers of the handlers of [SubmitOp] that
    have finished and are about to be returned to the network.  A handler that is
    still waiting blocks its call.  Requests of other clients, lost, delayed and
    reordered messages, connections that are cut or led to other servers while
    calls are under way, and all other services of a server are steps of the
    network. *)

From stdpp Require Import gmap strings.
From Stdlib Require Import Strings.Byte.
From S2P Require Import Prelude Bytes Crypto Op StateMachine RoundSpec StateMachineProps.
From S2P Require Import Primes Representation RespChannels Server ServerProps EliminationQueue Pipeline.
From S2P Require Import GoString Labgob RpcServer Network NetworkProps ConnectionProvider.

Local Open Scope Z_scope.

(** The values that [submitOp] and [SubmitOp] exchange, among those of the codec:
    operations and [OpRpcReply]; [None] is a value of another kind. *)
Class RpcValues (C T V : Type) `{Codec T V} := {
  op_value : Op C → V;
  value_op : V → option (Op C);
  reply_value : Err → V;
  value_err : V → option Err;
  value_op_value op : value_op (op_value op) = Some op;
  value_err_value e : value_err (reply_value e) = Some e;
  reply_type e : TypeOf (reply_value e) = TypeOf (reply_value OK)
}.

Section net_pipeline.
Context {C : Type} `{CommutativeCrypto C} `{EqDecision C}.
Context {T V E S : Type} `{Codec T V} `{!CodecLaws T V} `{!RpcValues C T V} `{Countable E} `{Countable S}.
Context (ctxType : T) (cp : LabrpcConnectionProvider E).
Implicit Types (op : Op C).

Abbreviation qevent := (EliminationQueue.event (C := C)) (only parsing).
Abbreviation sevent := (Server.event (C := C)) (only parsing).

(** ** Model *)

Record cluster := mkCluster {
  members : list (list sevent * Server.sys (C := C));
  replied : list (nat * Op C * Err)
}.

Abbreviation nsys := (Network.sys T V cluster E S) (only parsing).

(** The answer of a handler of server [k] for [op]. *)
Fixpoint take_reply (k : nat) op (rs : list (nat * Op C * Err)) : option (Err * list (nat * Op C * Err)) :=
  match rs with
  | [] => None
  | (k', op', e) :: rs' =>
      if bool_decide (k' = k ∧ op' = op) then Some (e, rs')
      else '(e', rs'') ← take_reply k op rs'; Some (e', (k', op', e) :: rs'')
  end.

(** [SubmitOp] of server [k], as the network sees it. *)
Definition SubmitOp_handler (k : nat) (args replyv : V) (w : cluster) : option (V * option string * cluster) :=
  op ← value_op args;
  '(e, rs) ← take_reply k op (replied w);
  Some (reply_value e, None, mkCluster (members w) rs).

(** The services that are registered: [SubmitOp] of the service Server is the
    handler of some server, all other methods leave the cluster alone. *)
Definition keeps (f : V → V → cluster → option (V * option string * cluster)) : Prop :=
  ∀ a r w r' err w', f a r w = Some (r', err, w') → w' = w.

Definition proper (nm : string) (svc : Service T V cluster) : Prop :=
  ∀ meth m, methods svc !! meth = Some m →
    if decide (nm = "Server"%string ∧ meth = "SubmitOp"%string) then ∃ k, Func m = SubmitOp_handler k
    else keeps (Func m).

Definition proper_objs (s : nsys) : Prop :=
  map_Forall (fun _ rs => map_Forall proper (services rs)) (objs s).

(** The steps of the network; the cluster is changed by handlers only. *)
Inductive net_step (s : nsys) : nsys → Prop :=
| ns_call i s' : call_step ctxType i s (Ret s') → net_step s s'
| ns_other s' : other_step s (Ret s') → world s' = world s → proper_objs s' → net_step s s'
| ns_admin a n :
    (∀ name srv, a = AAddServer name srv → is_Some (objs s !! srv)) → exec_admin a (net s) = Ret n →
    net_step s (Network.mkSys n (objs s) (calls s) (world s) (log s ++ admin_event a)).

(** A step of server [k]: a finished handler leaves its answer. *)
Definition answer_of (k : nat) (e : sevent) : list (nat * Op C * Err) :=
  match e with EReply op err => [(k, op, err)] | _ => [] end.

Definition set_world (w : cluster) (s : nsys) : nsys := Network.mkSys (net s) (objs s) (calls s) w (log s).

(** The client: its queue and submitting goroutine with their history, and the
    number of its call while it waits for the answer. *)
Record netpipe := mkNetPipe {
  np_history : list qevent;
  np_queue : eliminationQueue (C := C) * submitter (C := C);
  np_net : nsys;
  np_call : option nat
}.

(** [var reply OpRpcReply]. *)
Definition no_reply_yet : V := Zero (TypeOf (reply_value OK)).

(** Whether [submitOp] returns a nil error for the answer [r]; [None] if decoding
    the reply ends the program. *)
Definition submitOp_result (r : replyMsg) : option bool :=
  match Call_return r no_reply_yet with
  | Ret (true, v) => Some (match value_err v with Some OK => true | _ => false end)
  | Ret (false, _) => Some false
  | Panic _ => None
  end.

Inductive netpipe_step (debug : bool) : netpipe → netpipe → Prop :=
| np_add op h q q' s w :
    qstep debug q (EvAdd op) q' →
    netpipe_step debug (mkNetPipe h q s w) (mkNetPipe (h ++ [EvAdd op]) q' s w)
| np_get op h q q' s :
    qstep debug q (EvGet op) q' →
    netpipe_step debug (mkNetPipe h q s None) (mkNetPipe (h ++ [EvGet op]) q' s None)
| np_submit received op h p s s' leader e m :
    address cp leader "Server" "SubmitOp" = Ret (e, m) → e ∈ Network.ends (net s) →
    Call_start cp received leader "Server" "SubmitOp" (op_value op) s = Ret (Some s') →
    netpipe_step debug (mkNetPipe h (p, Submitting op) s None)
      (mkNetPipe h (p, Submitting op) s' (Some (length (calls s))))
| np_closed op h q q' s leader :
    Call_start cp false leader "Server" "SubmitOp" (op_value op) s = Ret None →
    qstep debug q (EvFail op) q' →
    netpipe_step debug (mkNetPipe h q s None) (mkNetPipe (h ++ [EvFail op]) q' s None)
| np_network h q s s' w :
    net_step s s' → netpipe_step debug (mkNetPipe h q s w) (mkNetPipe h q s' w)
| np_server h q s w k tr y e y' :
    members (world s) !! k = Some (tr, y) → sys_step false y e y' →
    netpipe_step debug (mkNetPipe h q s w)
      (mkNetPipe h q (set_world (mkCluster (<[k := (tr ++ [e], y')]> (members (world s)))
        (replied (world s) ++ answer_of k e)) s) w)
| np_error op h q q' s i c r :
    calls s !! i = Some c → cpc c = Answered r → submitOp_result r = Some false →
    qstep debug q (EvFail op) q' →
    netpipe_step debug (mkNetPipe h q s (Some i)) (mkNetPipe (h ++ [EvFail op]) q' s None)
| np_ok op h q q' s i c r :
    calls s !! i = Some c → cpc c = Answered r → submitOp_result r = Some true →
    qstep debug q (EvFinish op) q' →
    netpipe_step debug (mkNetPipe h q s (Some i)) (mkNetPipe (h ++ [EvFinish op]) q' s None).

(** A new client and a new network, in front of servers that may have been
    running for some time. *)
Definition netpipe_start (N : netpipe) : Prop :=
  np_history N = [] ∧ np_queue N = (newEliminationQueue, EliminationQueue.Waiting) ∧ np_call N = None ∧
  ∃ ss, np_net N = initial (mkCluster ss []) ∧ Forall (fun ty => sys_run false (fst ty) (snd ty)) ss.

Inductive netpipe_reachable (debug : bool) : netpipe → Prop :=
| npr_start N : netpipe_start N → netpipe_reachable debug N
| npr_step N N' : netpipe_reachable debug N → netpipe_step debug N N' → netpipe_reachable debug N'.

(** ** The network and the cluster *)

(** The request that [submitOp] sends for [op]. *)
Definition submits op (req : reqMsg E T) : Prop :=
  svcMeth req = qualified "Server" "SubmitOp" ∧
  argsType req = TypeOf (op_value op) ∧ args req = fst (encode (op_value op)).

(** Every answer of a handler, before it is returned to the network and after,
    is backed by an event of its server. *)
Record cluster_inv (s : nsys) : Prop := {
  ci_reach : reachable ctxType s;
  ci_servers : Forall (fun ty => sys_run false (fst ty) (snd ty)) (members (world s));
  ci_objs : proper_objs s;
  ci_calling : ∀ i c srv svc meth, calls s !! i = Some c → cgo c = Calling srv svc meth →
    ∃ nm, split_svcMeth (svcMeth (creq c)) = Ret (nm, meth) ∧ proper nm svc;
  ci_replied : ∀ k op, (k, op, OK) ∈ replied (world s) → approved (members (world s)) op;
  ci_exec : ∀ i c srv r n op, calls s !! i = Some c → EExec i srv r n ∈ log s → submits op (creq c) →
    ∃ e, r = mkReply true (fst (encode (reply_value e))) ∧ (e = OK → approved (members (world s)) op)
}.

Lemma take_reply_in k op rs e rs' :
  take_reply k op rs = Some (e, rs') → (k, op, e) ∈ rs ∧ ∀ x, x ∈ rs' → x ∈ rs.
Proof.
  revert rs'. induction rs as [|[[k' op'] e'] rs IH]; intros rs'; simpl; [done|].
  case_bool_decide as Hb.
  - destruct Hb as [-> ->]. intros [= -> ->]. set_solver.
  - intros ([e1 rs1] & Ht & [= -> <-])%bind_Some. apply IH in Ht as [Hin Hsub]. set_solver.
Qed.

Lemma chosen_no_exec i (p : pc S) (n : Network E S) j srv r n' : EExec j srv r n' ∉ chosen_event i p n.
Proof. destruct p; set_solver. Qed.

Lemma answer_no_exec i (p : pc S) j srv r (n : Network E S) : EExec j srv r n ∉ answer_event i p.
Proof. destruct p; set_solver. Qed.

(** A step of a call runs a handler, or it leaves the cluster alone. *)
Lemma call_step_effect i (s s' : nsys) :
  call_step ctxType i s (Ret s') → ∃ c c' es, own_step i s s' c c' es ∧
    (world s' = world s ∧ (∀ srv r n, EExec i srv r n ∉ es) ∧
     (∀ srv svc meth, cgo c' = Calling srv svc meth → cgo c = Calling srv svc meth ∨
        ∃ rs rs', objs s !! srv = Some rs ∧ Server_dispatch (creq c) rs = Ret (svc, meth, rs')) ∨
     ∃ srv svc meth r, cgo c = Calling srv svc meth ∧ cgo c' = Sending r ∧ es = [EExec i srv r (net s)] ∧
       Service_dispatch ctxType svc meth (creq c) (world s) = Some (Ret (r, world s'))).
Proof.
  intros Hs. destruct (call_step_own _ _ _ _ Hs) as (c & c' & es & Ho). exists c, c', es. split; [done|].
  destruct Ho as [Hc Hcs Hreq Hlog _ _ _ _ _ _].
  assert (∀ d d' es', calls s !! i = Some d → calls s' = <[i := d']> (calls s) → log s' = log s ++ es' →
    c = d ∧ c' = d' ∧ es = es') as Hsame.
  { intros d d' es' Hd Hd' Hl. rewrite Hc in Hd. injection Hd as ->. rewrite Hlog in Hl. apply app_inv_head in Hl.
    rewrite Hcs in Hd'. apply (f_equal (.!! i)) in Hd'.
    rewrite !list_lookup_insert_eq in Hd' by (by eapply lookup_lt_Some). naive_solver. }
  inversion Hs as
    [d Hd Hpc|d r sn srv rel lr p g Hd Hpc Hr Hst|d srv rs svc meth rs' Hd Hgo Hobj Hdd|
    |d srv svc meth r w' Hd Hgo Hdd| |d sn srv rel lr r Hd Hpc Hgo|d sn srv rel lr Hd Hpc
    |d r p Hd Hpc Hnw Hgo|d r1 r2 sn srv rel lr r p n Hd Hpc Hr1 Hr2 Hf|d p n Hd Hpc Hf]; subst s'.
  4: { destruct (Hsame _ _ _ Hd eq_refl eq_refl) as (-> & -> & ->). right. by exists srv, svc, meth, r. }
  all: left; split; [done|].
  3: { destruct (Hsame d _ [] Hd eq_refl) as (-> & -> & ->); [by rewrite app_nil_r|].
       split; [set_solver|]. simpl. intros ??? [= -> -> ->]. right. by exists rs, rs'. }
  all: destruct (Hsame _ _ _ Hd eq_refl eq_refl) as (-> & -> & ->); simpl; (split; [|try by left]).
  - intros srv r n. apply chosen_no_exec.
  - intros srv' r' n. apply answer_no_exec.
  - intros srv' svc meth ->. unfold processReq_start in Hst. case_all; simplify_eq.
  - set_solver.
  - set_solver.
  - set_solver.
  - intros srv' r' n' [Hin|Hin]%elem_of_app; [|by eapply answer_no_exec].
    destruct (_ && _); set_solver.
  - intros srv r n'. apply answer_no_exec.
Qed.

Lemma proper_services (s s' : nsys) : same_objs s s' → proper_objs s → proper_objs s'.
Proof.
  intros Hsame Hp srv rs Hrs. specialize (Hsame srv). rewrite Hrs in Hsame.
  destruct (objs s !! srv) as [rs0|] eqn:Hrs0; [|done]. injection Hsame as ->. by apply (Hp srv).
Qed.

(** The service that [Server.dispatch] finds is the one that the request names. *)
Lemma dispatch_proper (s : nsys) srv rs (req : reqMsg E T) svc meth rs' :
  proper_objs s → objs s !! srv = Some rs → Server_dispatch req rs = Ret (svc, meth, rs') →
  ∃ nm, split_svcMeth (svcMeth req) = Ret (nm, meth) ∧ proper nm svc.
Proof.
  intros Hp Hrs Hd. unfold Server_dispatch in Hd. apply bind_ret_inv in Hd as ([nm me] & Hsp & Hd).
  simpl in Hd. destruct (services rs !! nm) as [svc'|] eqn:Hsvc; [|done]. injection Hd as <- <- <-.
  exists nm. split; [done|]. by apply (Hp srv rs Hrs).
Qed.

(** What a handler returns to the network. *)
Lemma handler_effect (s : nsys) nm meth svc (req : reqMsg E T) r w' :
  proper nm svc → split_svcMeth (svcMeth req) = Ret (nm, meth) →
  Service_dispatch ctxType svc meth req (world s) = Some (Ret (r, w')) →
  members w' = members (world s) ∧ (∀ x, x ∈ replied w' → x ∈ replied (world s)) ∧
  ∀ op, submits op req → ∃ k e, (k, op, e) ∈ replied (world s) ∧ r = mkReply true (fst (encode (reply_value e))).
Proof.
  intros Hp Hsp Hd. unfold Service_dispatch in Hd.
  destruct (methods svc !! meth) as [m|] eqn:Hm; [|done]. specialize (Hp _ _ Hm).
  destruct (decode (args req) (Zero (argsType req))) as [v b] eqn:Hdec.
  destruct (In m !! 3%nat) as [rt|]; [|done]. destruct (call_types_ok ctxType m v); [|done].
  destruct (Func m v (Zero (Elem rt)) (world s)) as [[[rv err] w1]|] eqn:Hf; [|done]. injection Hd as <- <-.
  destruct (decide (nm = "Server" ∧ meth = "SubmitOp")%string) as [Hnm|Hnm].
  - destruct Hp as [k Hk]. rewrite Hk in Hf. unfold SubmitOp_handler in Hf.
    apply bind_Some in Hf as (op & Hop & Hf). apply bind_Some in Hf as ([e rs] & Ht & [= <- <- <-]).
    apply take_reply_in in Ht as [Hin Hsub]. split_and!; [done..|]. intros op' (_ & Hty & Harg).
    rewrite Hty, Harg, decode_encode in Hdec. injection Hdec as <- _. rewrite value_op_value in Hop.
    injection Hop as ->. eauto.
  - rewrite (Hp _ _ _ _ _ _ Hf). split_and!; [done..|]. intros op' (Hmeth & _ & _).
    rewrite Hmeth in Hsp. unfold qualified in Hsp.
    rewrite (split_svcMeth_qualified "Server" "SubmitOp") in Hsp by done. injection Hsp as <- <-. by destruct Hnm.
Qed.

Lemma net_step_step (s s' : nsys) : net_step s s' → step ctxType s (Ret s').
Proof. destruct 1; [by eapply step_call|by apply step_other|by apply step_admin]. Qed.

Lemma exec_call (s : nsys) i srv r n : inv s → EExec i srv r n ∈ log s → ∃ c, calls s !! i = Some c.
Proof.
  intros [_ I2] Hin. apply lookup_lt_is_Some. apply not_ge. intros Hge.
  assert (EExec i srv r n ∈ history i (log s)) as Hh by (by apply elem_of_history). rewrite I2 in Hh by lia. set_solver.
Qed.

Lemma cluster_inv_call i (s s' : nsys) : call_step ctxType i s (Ret s') → cluster_inv s → cluster_inv s'.
Proof.
  intros Hs [R M O G P X]. assert (reachable ctxType s') as R' by (eapply reach_step; [done|by eapply step_call]).
  pose proof (proper_services _ _ (call_step_objs _ _ _ _ Hs) O) as O'.
  destruct (call_step_effect _ _ _ Hs) as (c & c' & es & [Hc Hcs Hreq Hlog Hes _ _ _ _ _] & Heff).
  assert (∀ j d, calls s' !! j = Some d → ∃ d0, calls s !! j = Some d0 ∧ creq d = creq d0 ∧
    (j = i ∧ d = c' ∧ d0 = c ∨ d = d0)) as Hold.
  { intros j d. rewrite Hcs. intros [(-> & <- & _)|[_ Hd]]%list_lookup_insert_Some; eauto 10. }
  destruct Heff as [(Hw & Hne & Hcall)|(srv & svc & meth & r & Hgo & Hgo' & -> & Hd)].
  - split; rewrite ?Hw; try done.
    + intros j d srv svc meth Hd Hgo. destruct (Hold _ _ Hd) as (d0 & Hd0 & -> & [(-> & -> & ->)| ->]); [|by eapply G].
      destruct (Hcall _ _ _ Hgo) as [Hgo0|(rs & rs' & Hrs & Hdis)]; [by eapply G|exact (dispatch_proper _ _ _ _ _ _ _ O Hrs Hdis)].
    + intros j d srv r n op Hd Hin Hsub. destruct (Hold _ _ Hd) as (d0 & Hd0 & Hr & _). rewrite Hr in Hsub.
      rewrite Hlog in Hin. apply elem_of_app in Hin as [Hin|Hin]; [by eapply X|].
      rewrite Forall_forall in Hes. pose proof (Hes _ Hin) as [= ->]. by apply Hne in Hin.
  - destruct (G _ _ _ _ _ Hc Hgo) as (nm & Hsp & Hp).
    destruct (handler_effect _ _ _ _ _ _ _ Hp Hsp Hd) as (Hm & Hr & Hsub).
    split; rewrite ?Hm; try done.
    + intros j d srv' svc' meth' Hd' Hgo1. destruct (Hold _ _ Hd') as (d0 & Hd0 & -> & [(-> & -> & ->)| ->]);
        [congruence|by eapply G].
    + intros k op Hin. by eapply P, Hr.
    + intros j d srv' r' n op Hd' Hin Hs'. destruct (Hold _ _ Hd') as (d0 & Hd0 & Hr' & Hj). rewrite Hr' in Hs'.
      rewrite Hlog in Hin. apply elem_of_app in Hin as [Hin|Hin]; [by eapply X|].
      apply list_elem_of_singleton in Hin as [= -> -> -> ->]. assert (d0 = c) as -> by congruence.
      destruct (Hsub _ Hs') as (k & e & Hin & ->). exists e. split; [done|]. intros ->. by eapply P.
Qed.

Lemma cluster_inv_outer (s s' : nsys) :
  reachable ctxType s' → outer_step s s' → world s' = world s → proper_objs s' → cluster_inv s → cluster_inv s'.
Proof.
  intros R' [(cs & Hcs & Hnew) (es & Hlog & Hes & _)] Hw O' [R M O G P X]. rewrite Forall_lookup in Hnew.
  split; rewrite ?Hw; try done.
  - intros i c srv svc meth Hc Hgo. rewrite Hcs in Hc. apply lookup_app_Some in Hc as [Hc|[_ Hc]]; [by eapply G|].
    destruct (Hnew _ _ Hc). congruence.
  - intros i c srv r n op Hc Hin Hsub. rewrite Hlog in Hin. apply elem_of_app in Hin as [Hin|Hin].
    + destruct (exec_call _ _ _ _ _ (network_inv _ _ R) Hin) as [c0 Hc0]. rewrite Hcs in Hc.
      rewrite (lookup_app_l_Some _ _ _ _ Hc0) in Hc. injection Hc as <-. by eapply X.
    + rewrite Forall_forall in Hes. by apply Hes in Hin.
Qed.

Lemma cluster_inv_net (s s' : nsys) : net_step s s' → cluster_inv s → cluster_inv s'.
Proof.
  intros Hs HI. pose proof (net_step_step _ _ Hs) as Hstep.
  assert (reachable ctxType s') as R' by (eapply reach_step; [apply HI|done]).
  destruct Hs as [i s' Hc|s' Ho Hw Hp|a n Hsrv Ha]; [by eapply cluster_inv_call| |].
  - eapply cluster_inv_outer; eauto using other_step_outer.
  - eapply cluster_inv_outer; [done|by apply admin_outer|done|apply HI|done].
Qed.

Lemma cluster_inv_server (s : nsys) k tr y e y' :
  members (world s) !! k = Some (tr, y) → sys_step false y e y' → cluster_inv s →
  cluster_inv (set_world (mkCluster (<[k := (tr ++ [e], y')]> (members (world s)))
    (replied (world s) ++ answer_of k e)) s).
Proof.
  intros Hk Hy [R M O G P X]. pose proof (lookup_lt_Some _ _ _ Hk) as Hlt. split; simpl.
  - eapply reach_step; [done|]. apply step_other, os_world.
  - apply Forall_insert; [done|]. simpl. eapply run_snoc; [|done]. by apply (Forall_lookup_1 _ _ _ _ M Hk).
  - done.
  - done.
  - intros k' op [Hin|Hin]%elem_of_app; [by eapply approved_step, P|].
    destruct e; simpl in Hin; try set_solver. apply list_elem_of_singleton in Hin as [= -> -> <-].
    eexists k, _, y'. rewrite list_lookup_insert_eq by done. split; [done|set_solver].
  - intros i c srv r n op Hc Hin Hsub. destruct (X _ _ _ _ _ _ Hc Hin Hsub) as (err & Hr & Ha).
    exists err. split; [done|]. intros He. by eapply approved_step, Ha.
Qed.

(** ** The client *)

Record netpipe_inv (debug : bool) (N : netpipe) : Prop := {
  ni_queue : qrun debug (np_history N) (np_queue N);
  ni_cluster : cluster_inv (np_net N);
  ni_call : ∀ i, np_call N = Some i → ∃ p op c, np_queue N = (p, Submitting op) ∧
    calls (np_net N) !! i = Some c ∧ submits op (creq c);
  ni_finished : ∀ f, EvFinish f ∈ np_history N → approved (members (world (np_net N))) f
}.

(** A call that has been answered positively was executed. *)
Lemma answered_executed (s : nsys) i c r :
  reachable ctxType s → calls s !! i = Some c → cpc c = Answered r → ok r = true →
  ∃ srv n, EExec i srv r n ∈ log s.
Proof.
  intros R Hc Hpc Hok. pose proof (inv_calls _ (network_inv _ _ R) _ _ Hc) as Hw. rewrite Hpc in Hw.
  inversion Hw as [| | | | | | | |n0 sn srv rel lr r' n1 n2 Hch Hfr Hdead Hp Hg Hh|]; subst; [|done].
  exists srv, n1. assert (EExec i srv r n1 ∈ history i (log s)) as [_ ?]%elem_of_history by (rewrite <- Hh; set_solver).
  done.
Qed.

(** [submitOp] returns nil only for an operation that a server has approved. *)
Lemma result_approved (s : nsys) i c r op :
  cluster_inv s → calls s !! i = Some c → submits op (creq c) → cpc c = Answered r →
  submitOp_result r = Some true → approved (members (world s)) op.
Proof.
  intros HI Hc Hsub Hpc Hres. unfold submitOp_result, Call_return in Hres.
  destruct (ok r) eqn:Hok; [|done].
  destruct (answered_executed _ _ _ _ (ci_reach _ HI) Hc Hpc Hok) as (srv & n & Hin).
  destruct (ci_exec _ HI _ _ _ _ _ _ Hc Hin Hsub) as (e & -> & Ha). simpl in Hres.
  unfold no_reply_yet in Hres. rewrite <- (reply_type e), decode_encode, value_err_value in Hres.
  destruct e; [by apply Ha|done].
Qed.

(** Requests do not change. *)
Lemma net_step_req (s s' : nsys) i c :
  net_step s s' → calls s !! i = Some c → ∃ c', calls s' !! i = Some c' ∧ creq c' = creq c.
Proof.
  intros [(j & d & d' & es & Ho)|[(cs & -> & _) _]]%net_step_step%step_cases Hc.
  - rewrite (own_calls _ _ _ _ _ _ Ho). destruct (decide (j = i)) as [->|Hne].
    + rewrite list_lookup_insert_eq by (by eapply lookup_lt_Some). exists d'. split; [done|].
      rewrite (own_req _ _ _ _ _ _ Ho). pose proof (own_call _ _ _ _ _ _ Ho). congruence.
    + rewrite list_lookup_insert_ne by done. eauto.
  - exists c. split; [by apply lookup_app_l_Some|done].
Qed.

(** What [submitOp] sends. *)
Lemma Call_start_submits received op (s s' : nsys) leader e m :
  address cp leader "Server" "SubmitOp" = Ret (e, m) →
  Call_start cp received leader "Server" "SubmitOp" (op_value op) s = Ret (Some s') → e ∈ Network.ends (net s) →
  other_step s (Ret s') ∧ world s' = world s ∧ objs s' = objs s ∧
  ∃ c, calls s' !! length (calls s) = Some c ∧ submits op (creq c).
Proof.
  intros Ha Hs He. unfold Call_start in Hs. rewrite Ha in Hs. cbn [mbind outcome_bind] in Hs.
  split; [by eapply os_call|]. unfold address in Ha. destruct (Atoi leader) as [z|]; [|done].
  apply bind_ret_inv in Ha as (e' & _ & [= -> <-]). unfold Call_send in Hs.
  destruct (encode (op_value op)) as [bs b] eqn:Henc. destruct b; [|done]. simpl in Hs.
  destruct (done (net s) && negb received); [done|]. injection Hs as <-. split_and!; [done..|].
  eexists. simpl. rewrite lookup_app_r, Nat.sub_diag by lia. split; [done|]. unfold submits. by rewrite Henc.
Qed.

Lemma netpipe_step_inv debug N N' : netpipe_step debug N N' → netpipe_inv debug N → netpipe_inv debug N'.
Proof.
  intros Hs [Q I W F].
  destruct Hs as [op h q q' s w Hq|op h q q' s Hq|rcv op h p s s' leader e m Ha He Hc|op h q q' s leader Hc Hq
    |h q s s' w Hn|h q s w k tr y e y' Hk Hy|op h q q' s i c r Hc Hp Hr Hq|op h q q' s i c r Hc Hp Hr Hq]; simpl in *.
  - split; simpl; [by eapply qrun_snoc|done| |set_solver].
    intros i Hi. destruct (W _ Hi) as (p & op' & c & -> & Hc & Hsub). inversion Hq; subst. eauto 10.
  - split; simpl; [by eapply qrun_snoc|done|done|set_solver].
  - destruct (Call_start_submits _ _ _ _ _ _ _ Ha Hc He) as (Ho & Hw & Hobj & c & Hc' & Hsub).
    split; simpl; [done| | |by rewrite Hw].
    + eapply cluster_inv_net; [|done]. apply ns_other; [done..|]. unfold proper_objs. rewrite Hobj. apply I.
    + intros i [= <-]. eauto 10.
  - split; simpl; [by eapply qrun_snoc|done|done|set_solver].
  - split; simpl; [done|by eapply cluster_inv_net| |].
    + intros i Hi. destruct (W _ Hi) as (p & op & c & -> & Hc & Hsub).
      destruct (net_step_req _ _ _ _ Hn Hc) as (c' & Hc' & Hreq). rewrite <- Hreq in Hsub. eauto 10.
    + intros f Hf. assert (members (world s') = members (world s)) as ->; [|by apply F].
      destruct Hn as [i s' Hn|s' _ Hw _|]; [|by rewrite Hw|done].
      destruct (call_step_effect _ _ _ Hn) as (c & c' & es & Ho & [(-> & _)|(srv & svc & meth & r & Hgo & _ & _ & Hd)]); [done|].
      destruct (ci_calling _ I _ _ _ _ _ (own_call _ _ _ _ _ _ Ho) Hgo) as (nm & Hsp & Hp).
      by destruct (handler_effect _ _ _ _ _ _ _ Hp Hsp Hd).
  - split; simpl; [done|by eapply cluster_inv_server|done|]. intros f Hf. eapply approved_step; eauto.
  - split; simpl; [by eapply qrun_snoc|done|done|set_solver].
  - split; simpl; [by eapply qrun_snoc|done|done|]. intros f [Hf|Hf]%elem_of_app; [by apply F|].
    apply list_elem_of_singleton in Hf as [= ->]. destruct (W _ eq_refl) as (p & op' & c' & -> & Hc' & Hsub).
    inversion Hq; subst. simplify_eq. by eapply result_approved.
Qed.

Lemma netpipe_reachable_inv debug N : netpipe_reachable debug N → netpipe_inv debug N.
Proof.
  induction 1 as [N (Hh & Hq & Hc & ss & Hn & Hs)|N N' _ IH Hst]; [|by eapply netpipe_step_inv].
  split; [rewrite Hh, Hq; constructor| |by rewrite Hc|rewrite Hh; set_solver].
  rewrite Hn. split; simpl; [constructor|done|by intros ???|by intros [] ?|set_solver|set_solver].
Qed.

(** C8: no operation is lost on the way over the network.  A client submits its
    operations with remote calls, through its connection provider and the codec,
    on a network that may lose, delay and reorder requests and replies, on which
    ends are enabled, cut and led to other servers and servers are added and
    deleted at any time, and on which other clients make calls.  In every reachable
    state: every operation that the client has finished was applied by a server, or
    is rejected there whatever is applied from now on; and when the client has
    nothing left to submit, then every operation it has added is no newer than
    one for which this holds. *)
Theorem no_operation_lost_on_network debug N :
  netpipe_reachable debug N → Forall (fun ty => raft_ok (fst ty)) (members (world (np_net N))) →
  (∀ f, EvFinish f ∈ np_history N →
     ∃ k tr y, members (world (np_net N)) !! k = Some (tr, y) ∧ settled tr y f) ∧
  (get_op debug (fst (np_queue N)) = Ret None → ∀ a, EvAdd a ∈ np_history N → 0 ≤ op_Round a →
     ∃ f k tr y, EvFinish f ∈ np_history N ∧ upto a f ∧
       members (world (np_net N)) !! k = Some (tr, y) ∧ settled tr y f).
Proof.
  intros [Q I W F]%netpipe_reachable_inv Hok. eapply finished_settled; [done|apply I|done|done].
Qed.

(** ** A submission that goes through *)

Inductive server_run : Server.sys (C := C) → list sevent → Server.sys (C := C) → Prop :=
| sr_nil y : server_run y [] y
| sr_cons y e y' tr y'' : sys_step false y e y' → server_run y' tr y'' → server_run y (e :: tr) y''.

(** The server object answers calls of [SubmitOp] as server [k]. *)
Definition offers (rs : RpcServer.Server T V cluster) (k : nat) op : Prop :=
  ∃ svc m rt, services rs !! "Server"%string = Some svc ∧ methods svc !! "SubmitOp"%string = Some m ∧
    In m !! 3%nat = Some rt ∧ call_types_ok ctxType m (op_value op) = true ∧ Func m = SubmitOp_handler k.

(** [SubmitOp] as the network reaches it: the handler of a call. *)
Definition in_handler (s : nsys) (i : nat) (req : reqMsg E T) (sn : S) (srv : nat) (k : nat) op : Prop :=
  ∃ lr svc, calls s !! i = Some (mkCall req (Network.Waiting sn srv true lr) (Calling srv svc "SubmitOp")) ∧
    ∃ m rt, methods svc !! "SubmitOp"%string = Some m ∧ In m !! 3%nat = Some rt ∧
      call_types_ok ctxType m (op_value op) = true ∧ Func m = SubmitOp_handler k.

Lemma take_reply_first k op rs e rs' :
  (∀ e', (k, op, e') ∉ rs) → take_reply k op (rs ++ (k, op, e) :: rs') = Some (e, rs ++ rs').
Proof.
  induction rs as [|[[k' op'] e'] rs IH]; intros Hn; simpl.
  - by rewrite bool_decide_true.
  - rewrite bool_decide_false by (intros [-> ->]; apply (Hn e'); set_solver).
    rewrite IH; [done|]. intros e'' Hin. apply (Hn e''). set_solver.
Qed.

Lemma set_call_at i (s : nsys) c c' n es : calls s !! i = Some c → calls (set_call i c' n es s) !! i = Some c'.
Proof. intros Hc. apply list_lookup_insert_eq. by eapply lookup_lt_Some. Qed.

Lemma reach_handler (s : nsys) i c sn srv rs k op :
  calls s !! i = Some c → cpc c = Arrived → submits op (creq c) →
  healthy (net s) (endname (creq c)) sn srv → objs s !! srv = Some rs → offers rs k op →
  ∃ s', rtc net_step s s' ∧ in_handler s' i (creq c) sn srv k op ∧ net s' = net s ∧ world s' = world s.
Proof.
  intros Hc Hpc (Hm & Hty & Harg) Hh Hrs (svc & m & rt & Hsvc & Hmeth & Hrest).
  pose proof (healthy_read _ _ _ _ Hh) as Hread. set (lr := longReordering (net s)) in *.
  assert (Server_dispatch (creq c) rs =
    Ret (svc, "SubmitOp"%string, RpcServer.mkServer (services rs) (wrap64 (count rs + 1)))) as Hd.
  { unfold Server_dispatch. rewrite Hm. unfold qualified. rewrite split_svcMeth_qualified by done.
    cbn [mbind outcome_bind services]. by rewrite Hsvc. }
  pose proof (ns_call _ _ _ (cs_read ctxType i s c Hc Hpc)) as H1'. rewrite Hread in H1'.
  pose proof (set_call_at i s c (mkCall (creq c) (Chosen sn srv true lr) (cgo c)) (net s)
    (chosen_event i (Chosen sn srv true lr) (net s)) Hc) as Hc1.
  pose proof (ns_call _ _ _ (cs_start ctxType i _ _ 0 sn srv true lr _ _ Hc1 eq_refl ltac:(lia) eq_refl)) as H2'.
  pose proof (set_call_at i _ _ (mkCall (creq c) (Network.Waiting sn srv true lr) (Started srv)) (net s)
    (answer_event i (Network.Waiting sn srv true lr)) Hc1) as Hc2.
  pose proof (ns_call _ _ _ (cs_dispatch ctxType i _ _ srv rs svc _ _ Hc2 eq_refl Hrs Hd)) as H3'.
  eexists. split; [eapply rtc_l; [exact H1'|]; eapply rtc_l; [exact H2'|]; by apply rtc_once|].
  split; [|done]. exists lr, svc. split; [|by exists m, rt]. apply list_lookup_insert_eq. by eapply lookup_lt_Some.
Qed.

(** A handler that can answer leads to the answer of the call. *)
Lemma leave_handler (s : nsys) i req sn srv k op e rs :
  in_handler s i req sn srv k op → submits op req → healthy (net s) (endname req) sn srv →
  take_reply k op (replied (world s)) = Some (e, rs) →
  ∃ s' g, rtc net_step s s' ∧ members (world s') = members (world s) ∧
    calls s' !! i = Some (mkCall req (Answered (mkReply true (fst (encode (reply_value e))))) g).
Proof.
  intros (lr & svc & Hc & m & rt & Hmeth & Hin & Htypes & Hf) (_ & Hty & Harg) Hh Ht.
  set (r := mkReply true (fst (encode (reply_value e)))).
  assert (Service_dispatch ctxType svc "SubmitOp" req (world s) = Some (Ret (r, mkCluster (members (world s)) rs))) as Hd.
  { unfold Service_dispatch. rewrite Hmeth, Hty, Harg, decode_encode, Hin, Htypes, Hf. unfold SubmitOp_handler.
    rewrite value_op_value. simpl. by rewrite Ht. }
  pose proof (ns_call _ _ _ (cs_execute ctxType i s _ srv svc _ r _ Hc eq_refl Hd)) as H1'.
  match type of H1' with net_step _ ?t => set (s1 := t) in H1' end.
  assert (calls s1 !! i = Some (mkCall req (Network.Waiting sn srv true lr) (Sending r))) as Hc1
    by (apply list_lookup_insert_eq; by eapply lookup_lt_Some).
  pose proof (ns_call _ _ _ (cs_receive ctxType i s1 _ sn srv true lr r Hc1 eq_refl eq_refl)) as H2'.
  pose proof (set_call_at i s1 _ (mkCall req (Leaving sn srv true lr (Some r)) Finished) (net s1) [] Hc1) as Hc2.
  assert (∃ n, processReq_finish 0 899 req sn srv true lr (Some r) (net s) = (Answered r, n)) as [n Hfin].
  { unfold processReq_finish. rewrite (healthy_alive _ _ _ _ Hh). simpl. rewrite andb_false_r. eauto. }
  pose proof (ns_call _ _ _ (cs_finish ctxType i _ _ 0 899 sn srv true lr (Some r) _ _ Hc2 eq_refl ltac:(lia) ltac:(lia) Hfin)) as H3'.
  eexists _, Finished. split; [eapply rtc_l; [exact H1'|]; eapply rtc_l; [exact H2'|]; apply rtc_once; exact H3'|].
  split; [done|]. by eapply set_call_at.
Qed.

Lemma net_phase debug h q (s s' : nsys) w :
  rtc net_step s s' → rtc (netpipe_step debug) (mkNetPipe h q s w) (mkNetPipe h q s' w).
Proof. induction 1; [done|]. eapply rtc_l; [by apply np_network|done]. Qed.

Lemma netpipe_reachable_rtc debug N N' :
  netpipe_reachable debug N → rtc (netpipe_step debug) N N' → netpipe_reachable debug N'.
Proof. intros Hr Hs. induction Hs; [done|]. eauto using npr_step. Qed.

Lemma server_phase debug h q w k y evs y' : server_run y evs y' → ∀ (s : nsys) tr,
  members (world s) !! k = Some (tr, y) →
  rtc (netpipe_step debug) (mkNetPipe h q s w)
    (mkNetPipe h q (set_world (mkCluster (<[k := (tr ++ evs, y')]> (members (world s)))
      (replied (world s) ++ mbind (answer_of k) evs)) s) w).
Proof.
  induction 1 as [y|y e y' tr' y'' Hs _ IH]; intros s tr Hk.
  - destruct s as [n o cs [ms rs] l]. simpl in *. rewrite !app_nil_r, list_insert_id by done. done.
  - eapply rtc_l; [by eapply np_server|].
    set (s1 := set_world _ _). assert (members (world s1) !! k = Some (tr ++ [e], y')) as Hk1
      by (simpl; apply list_lookup_insert_eq; by eapply lookup_lt_Some).
    specialize (IH s1 (tr ++ [e]) Hk1). simpl in IH.
    rewrite list_insert_insert_eq, <- !app_assoc in IH. exact IH.
Qed.

Lemma replies_last k op evs :
  (∀ e, EReply op e ∉ evs) → ∀ e, (k, op, e) ∉ mbind (answer_of k) evs.
Proof.
  intros Hn e Hin. apply list_elem_of_bind in Hin as (ev & Hin & Hev). destruct ev; simpl in Hin; try set_solver.
Qed.

Lemma submission_run debug h p op (s : nsys) i c sn srv rs k tr y evs y' :
  one_place p → calls s !! i = Some c → submits op (creq c) → cpc c = Arrived →
  healthy (net s) (endname (creq c)) sn srv → objs s !! srv = Some rs → offers rs k op →
  members (world s) !! k = Some (tr, y) → (∀ e, (k, op, e) ∉ replied (world s)) →
  server_run y (evs ++ [EReply op OK]) y' → (∀ e, EReply op e ∉ evs) →
  ∃ s' p', rtc (netpipe_step debug) (mkNetPipe h (p, Submitting op) s (Some i))
      (mkNetPipe (h ++ [EvFinish op]) (p', EliminationQueue.Waiting) s' None) ∧
    finish debug op p = Ret p' ∧
    members (world s') = <[k := (tr ++ evs ++ [EReply op OK], y')]> (members (world s)).
Proof.
  intros Hone Hc Hsub Hpc Hh Hrs Hof Hk Hno Hrun Hnot.
  destruct (reach_handler _ _ _ _ _ _ _ _ Hc Hpc Hsub Hh Hrs Hof) as (s1 & R1 & Hin & Hn1 & Hw1).
  rewrite <- Hw1 in Hk, Hno |- *. rewrite <- Hn1 in Hh.
  pose proof (server_phase debug h (p, Submitting op) (Some i) k _ _ _ Hrun s1 tr Hk) as R2.
  rewrite bind_app, !app_assoc in R2. simpl in R2. set (s2 := set_world _ _) in R2.
  destruct (leave_handler s2 i (creq c) sn srv k op OK (replied (world s1) ++ mbind (answer_of k) evs))
    as (s3 & g & R3 & Hm3 & Hc3); [exact Hin|done|exact Hh| |].
  { simpl. rewrite take_reply_first; [by rewrite app_nil_r|].
    intros e [?|?]%elem_of_app; [by eapply Hno|by eapply replies_last]. }
  destruct (finish_cases debug op p Hone) as (p' & Hfin & _).
  assert (submitOp_result (mkReply true (fst (encode (reply_value OK)))) = Some true) as Hres.
  { unfold submitOp_result, Call_return, no_reply_yet. simpl. by rewrite decode_encode, value_err_value. }
  pose proof (np_ok debug op h _ _ s3 i _ _ Hc3 eq_refl Hres (qs_finish debug op p p' Hfin)) as Hlast.
  exists s3, p'. split_and!; [|done|by rewrite Hm3, app_assoc].
  etrans; [by apply net_phase|]. etrans; [exact R2|]. etrans; [by apply net_phase|]. by apply rtc_once.
Qed.

(** C19: an operation that the leader commits is finished, and the client takes
    the next one.  Consider a reachable state in which the request of the client's
    call has arrived, over an end that is connected to a registered server on a
    reliable network; suppose that no answer for this operation is waiting to be
    returned by that server, and that the server has a run in which its first
    answer for the operation is OK.  Then the network and the server have a run,
    extending the history of the server by this one, after which the client has
    finished exactly this operation: it is the one recorded as finished last, and
    [get] returns the newest operation added so far if that one is newer than the
    finished one, and the client takes it; otherwise [get] waits, and nothing newer
    than the finished operation was added.  The network may reorder replies. *)
Theorem submission_completes debug N i p op c sn srv rs k tr y evs y' :
  netpipe_reachable debug N → np_call N = Some i → np_queue N = (p, Submitting op) →
  calls (np_net N) !! i = Some c → cpc c = Arrived →
  healthy (net (np_net N)) (endname (creq c)) sn srv → objs (np_net N) !! srv = Some rs → offers rs k op →
  members (world (np_net N)) !! k = Some (tr, y) → (∀ e, (k, op, e) ∉ replied (world (np_net N))) →
  server_run y (evs ++ [EReply op OK]) y' → (∀ e, EReply op e ∉ evs) →
  ∃ N' p', rtc (netpipe_step debug) N N' ∧ np_history N' = np_history N ++ [EvFinish op] ∧ np_call N' = None ∧
    members (world (np_net N')) !! k = Some (tr ++ evs ++ [EReply op OK], y') ∧
    finish debug op p = Ret p' ∧ np_queue N' = (p', EliminationQueue.Waiting) ∧ lastFinished p' = op ∧
    ∃ next, next_op debug (np_history N) p' op next ∧
      ∀ n, next = Some n → ∃ N'', netpipe_step debug N' N'' ∧ np_history N'' = np_history N' ++ [EvGet n] ∧
        np_queue N'' = (p', Submitting n).
Proof.
  intros [Q _ W _]%netpipe_reachable_inv Hcall Hq Hc Hpc Hh Hrs Hof Hk Hno Hrun Hnot.
  destruct N as [h q s w]. simpl in *. subst q w.
  destruct (W _ eq_refl) as (p1 & op1 & c1 & [= <- <-] & Hc1 & Hsub). simplify_eq.
  apply qrun_inv in Q.
  destruct (submission_run debug h p op s i c sn srv rs k tr y evs y'
    (inv_one _ _ _ Q) Hc Hsub Hpc Hh Hrs Hof Hk Hno Hrun Hnot) as (s' & p' & Hr & Hfin & Hm).
  destruct (after_finish _ _ _ _ _ Q Hfin) as (Hlast & next & Hnext).
  eexists _, p'. split; [exact Hr|]. split_and!; [done..| |done|done|done|].
  - simpl. rewrite Hm. apply list_lookup_insert_eq. by eapply lookup_lt_Some.
  - exists next. split; [done|]. intros n ->. eexists. split; [by apply np_get, qs_get, Hnext|done].
Qed.

End net_pipeline.
