(* ===== verification/NetPipelineRun.v ===== *)
(** * A codec for operations, and a submission over the network

    An instance of the codec and of the values that NetPipeline needs, for the
    operations of the program: gob is replaced by an encoding of the data types
    into bytes whose round trip is proved.  With it a client submits an operation
    over a network with one server, and the theorems of NetPipeline apply to
    the run. *)

From stdpp Require Import gmap strings countable.
From Stdlib Require Import Strings.Byte.
From S2P Require Import Prelude Bytes Primes MasseyOmura Crypto Op StateMachine RoundSpec StateMachineProps.
From S2P Require Import Representation RespChannels Server ServerProps EliminationQueue Pipeline.
From S2P Require Import GoString Labgob RpcServer Network NetworkProps NetworkTheorems ConnectionProvider NetPipeline.

Local Open Scope Z_scope.

(** ** Encoding of operations *)

#[export] Instance byte_countable : Countable byte.
Proof.
  refine (inj_countable Byte.to_N Byte.of_N _). intros b. apply Byte.of_to_N.
Defined.

#[export] Instance Msg_countable : Countable Msg.
Proof. refine (inj_countable' M mkMsg _). by intros []. Defined.

#[export] Instance PrivateKey_countable : Countable PrivateKey.
Proof.
  refine (inj_countable' (fun k => (E k, D k)) (fun p => mkPrivateKey (fst p) (snd p)) _). by intros [].
Defined.

#[export] Instance masseyOmuraCrypto_countable : Countable masseyOmuraCrypto.
Proof. refine (inj_countable' P mkMasseyOmuraCrypto _). by intros []. Defined.

Section op_codec.
Context {C : Type} `{Countable C}.

(** One summand for each struct of op.go. *)
Definition op_fields : Type :=
  (list byte * Z) + (list byte * Z * option C) + (list byte * Z * Msg * list byte) +
  (list byte * Z * list Msg * Z) + (list byte * Z * list Msg) + (list byte * Z * list Msg * Z) +
  (list byte * Z * PrivateKey) + Z.

Definition fields_of (op : Op C) : op_fields :=
  match op with
  | JoinOp Id R => inl (inl (inl (inl (inl (inl (inl (Id, R)))))))
  | StartOp Id R c => inl (inl (inl (inl (inl (inl (inr (Id, R, c)))))))
  | MessageOp Id R m h => inl (inl (inl (inl (inl (inr (Id, R, m, h))))))
  | EncryptedOp Id R ms p => inl (inl (inl (inl (inr (Id, R, ms, p)))))
  | ScrambledOp Id R ms => inl (inl (inl (inr (Id, R, ms))))
  | DecryptedOp Id R ms p => inl (inl (inr (Id, R, ms, p)))
  | RevealOp Id R k => inl (inr (Id, R, k))
  | AbortOp R => inr R
  end.

Definition of_fields (f : op_fields) : Op C :=
  match f with
  | inl (inl (inl (inl (inl (inl (inl (Id, R))))))) => JoinOp Id R
  | inl (inl (inl (inl (inl (inl (inr (Id, R, c))))))) => StartOp Id R c
  | inl (inl (inl (inl (inl (inr (Id, R, m, h)))))) => MessageOp Id R m h
  | inl (inl (inl (inl (inr (Id, R, ms, p))))) => EncryptedOp Id R ms p
  | inl (inl (inl (inr (Id, R, ms)))) => ScrambledOp Id R ms
  | inl (inl (inr (Id, R, ms, p))) => DecryptedOp Id R ms p
  | inl (inr (Id, R, k)) => RevealOp Id R k
  | inr R => AbortOp R
  end.

#[export] Instance Op_countable : Countable (Op C).
Proof. refine (inj_countable' fields_of of_fields _). by intros []. Defined.

(** ** The codec *)

Inductive rpc_type := TServer | TContext | TOp | TReply | TPtrReply | TError.

#[export] Instance rpc_type_eq_dec : EqDecision rpc_type.
Proof. solve_decision. Defined.

(** Operations and [OpRpcReply], whose zero value is [None]. *)
Inductive rpc_value := VOp (op : Op C) | VReply (e : option Err).

(** The bits of a number as bytes. *)
Fixpoint bits (p : positive) : list byte :=
  match p with xH => [] | xO p => Byte.x00 :: bits p | xI p => Byte.x01 :: bits p end.

Fixpoint unbits (bs : list byte) : option positive :=
  match bs with
  | [] => Some xH
  | b :: bs' =>
      p ← unbits bs';
      if bool_decide (b = Byte.x00) then Some (xO p) else if bool_decide (b = Byte.x01) then Some (xI p) else None
  end.

Lemma unbits_bits p : unbits (bits p) = Some p.
Proof. induction p as [p IH|p IH|]; [| |done]; simpl; by rewrite IH. Qed.

Definition err_bytes (e : option Err) : list byte :=
  match e with None => [] | Some OK => [Byte.x01] | Some ErrWrongLeader => [Byte.x02] end.

Definition bytes_err (bs : list byte) : option (option Err) :=
  match bs with [] => Some None | [Byte.x01] => Some (Some OK) | [Byte.x02] => Some (Some ErrWrongLeader) | _ => None end.

#[export] Instance rpc_codec : Codec rpc_type rpc_value := {
  Name t := match t with TContext => "Context" | TError => "error" | _ => "" end%string;
  KindOf t := match t with TPtrReply | TServer | TOp => Ptr | TReply => Struct | _ => Interface end;
  Elem t := match t with TPtrReply => TReply | _ => t end;
  AssignableTo t t' := bool_decide (t = t');
  TypeOf v := match v with VOp _ => TOp | VReply _ => TReply end;
  Zero t := match t with TReply => VReply None | _ => VOp (AbortOp 0) end;
  encode v := match v with VOp op => (bits (countable.encode op), true) | VReply e => (err_bytes e, true) end;
  decode bs v :=
    match v with
    | VOp _ => match unbits bs ≫= countable.decode with Some op => (VOp op, true) | None => (v, false) end
    | VReply _ => match bytes_err bs with Some e => (VReply e, true) | None => (v, false) end
    end
}.

#[export] Instance rpc_codec_laws : CodecLaws rpc_type rpc_value.
Proof.
  split; [by intros []|]. intros [op|[[]|]]; simpl; try done.
  rewrite unbits_bits. simpl. by rewrite countable.decode_encode.
Qed.

#[export] Instance rpc_values : RpcValues C rpc_type rpc_value := {
  op_value := VOp;
  value_op v := match v with VOp op => Some op | VReply _ => None end;
  reply_value e := VReply (Some e);
  value_err v := match v with VReply e => e | VOp _ => None end;
  value_op_value _ := eq_refl;
  value_err_value _ := eq_refl;
  reply_type _ := eq_refl
}.

End op_codec.
Arguments rpc_value : clear implicits.

(** ** Preparing a network *)

Section prepare.
Context {C : Type} `{CommutativeCrypto C} `{EqDecision C}.
Context {T V E S : Type} `{Codec T V} `{!CodecLaws T V} `{!RpcValues C T V} `{Countable E} `{Countable S}.
Context (ctxType : T).
Abbreviation nsys := (Network.sys T V (cluster (C := C)) E S) (only parsing).

(** The commands of a test program that sets up servers and connections. *)
Definition prepares (k : @cmd T V (cluster (C := C)) E S) : Prop :=
  match k with
  | CMakeServer _ | CAdmin _ => True
  | CAddService _ svc => proper (name svc) svc
  | _ => False
  end.

Lemma prepare_step (k : @cmd T V (cluster (C := C)) E S) (s s' : nsys) :
  prepares k → proper_objs s → exec ctxType k s = Some s' →
  net_step ctxType s s' ∧ proper_objs s' ∧ calls s' = calls s ∧ world s' = world s.
Proof.
  intros Hk Hp Hx. pose proof (exec_step _ _ _ _ Hx) as Hs. destruct k; simpl in Hk, Hx; try done.
  - apply guard_opt_some in Hx as [Hn%bool_decide_eq_true [= <-]].
    assert (proper_objs (T := T) (V := V) (C := C) (E := E) (S := S)
      (Network.mkSys (net s) (<[srv := MakeServer]> (objs s)) (calls s) (world s) (log s))) as Hp'.
    { apply map_Forall_insert_2; [|done]. simpl. apply map_Forall_empty. }
    split; [|done]. apply ns_other; [by apply os_make_server|done..].
  - apply bind_Some in Hx as (rs & Hrs & [= <-]).
    assert (proper_objs (T := T) (V := V) (C := C) (E := E) (S := S)
      (Network.mkSys (net s) (<[srv := AddService svc rs]> (objs s)) (calls s) (world s) (log s))) as Hp'.
    { apply map_Forall_insert_2; [|done]. simpl. apply map_Forall_insert_2; [done|]. by apply (Hp srv). }
    split; [|done]. apply ns_other; [by apply os_add_service|done..].
  - apply guard_opt_some in Hx as [Hg Hx]. destruct (exec_admin a (net s)) as [n|] eqn:Ha; [|done].
    injection Hx as <-. split; [|done]. apply ns_admin; [|done]. intros nm srv ->. by apply bool_decide_eq_true in Hg.
Qed.

Lemma prepare_run (ks : list (@cmd T V (cluster (C := C)) E S)) : ∀ s s' : nsys,
  Forall prepares ks → proper_objs s → run_cmds ctxType ks (Some s) = Some s' →
  rtc (net_step ctxType) s s' ∧ calls s' = calls s ∧ world s' = world s.
Proof.
  induction ks as [|k ks IH]; intros s s' HF Hp Hx; simpl in Hx; [by simplify_eq|].
  apply Forall_cons in HF as [Hk HF]. destruct (exec ctxType k s) as [s1|] eqn:He.
  - destruct (prepare_step _ _ _ Hk Hp He) as (Hn & Hp1 & Hc & Hw). rewrite <- Hc, <- Hw.
    destruct (IH s1 s' HF Hp1 Hx) as (? & ? & ?). split; [by eapply rtc_l|done].
  - change (run_cmds ctxType ks None = Some s') in Hx. by rewrite run_cmds_none in Hx.
Qed.

End prepare.

(** ** The run *)

Module NetPipelineDemo.
Import Demo ServerDemo.
#[local] Existing Instance ServerDemo.trial.

Abbreviation value := (rpc_value masseyOmuraCrypto).
Abbreviation dcluster := (cluster (C := masseyOmuraCrypto)).
Abbreviation dsys := (Network.sys rpc_type value dcluster string nat).
Abbreviation dcmd := (@cmd rpc_type value dcluster string nat).

(** [SubmitOp] as reflection sees it. *)
Definition submit_method : Method rpc_type value dcluster :=
  mkMethod "SubmitOp" "" [TServer; TContext; TOp; TPtrReply] [TError] (SubmitOp_handler (T := rpc_type) 0).
Definition server_service : Service rpc_type value dcluster := MakeService "Server" [submit_method].

Definition setup : list dcmd :=
  [CMakeServer 0; CAddService 0 server_service; CAdmin (AMakeEnd "end"%string); CAdmin (AConnect "end"%string 7%nat);
   CAdmin (AAddServer 7%nat 0%nat); CAdmin (AEnable "end"%string true)].

Definition provider : LabrpcConnectionProvider string := New ["end"%string] 0.
Definition behind : dcluster := mkCluster [(take 1 trace, y1)] [].
Definition ready : dsys := default (initial behind) (run_cmds TContext setup (Some (initial behind))).
Definition join_request : reqMsg string rpc_type := mkReq "end"%string "Server.SubmitOp" TOp (bits (countable.encode joined)).
Definition sent : dsys :=
  Network.mkSys (count_request (length (bits (countable.encode joined))) (net ready)) (objs ready)
    [mkCall join_request Arrived NotStarted] behind (log ready).
Definition waiting_queue : eliminationQueue (C := masseyOmuraCrypto) := mkQueue [joined] (AbortOp (-1)).
Definition submitted : netpipe :=
  mkNetPipe [EvAdd joined; EvGet joined] (waiting_queue, Submitting joined) sent (Some 0%nat).

Lemma service_proper : proper "Server" server_service.
Proof.
  intros meth m Hm. apply MakeService_methods in Hm as (Hin & _ & <-);
    [|apply NoDup_singleton]. apply list_elem_of_singleton in Hin as ->.
  rewrite decide_True by done. by exists 0%nat.
Qed.

Lemma ready_run : rtc (net_step TContext) (initial behind) ready ∧ calls ready = [] ∧ world ready = behind.
Proof.
  apply (prepare_run TContext setup).
  - repeat constructor. apply service_proper.
  - apply map_Forall_empty.
  - assert (is_Some (run_cmds TContext setup (Some (initial behind)))) as [s Hs]
      by (apply (bool_decide_unpack _); vm_compute; exact I).
    unfold ready. by rewrite Hs.
Qed.

Lemma submitted_reachable : netpipe_reachable TContext provider true submitted.
Proof.
  destruct ready_run as (Hr & Hc & Hw).
  assert (netpipe_reachable TContext provider true (mkNetPipe [] (newEliminationQueue, EliminationQueue.Waiting) ready None)) as H0.
  { eapply netpipe_reachable_rtc; [|by apply net_phase].
    apply npr_start. split_and!; [done..|]. eexists. split; [done|]. repeat constructor. simpl.
    apply (run_snoc _ [] y0); [by apply run_new|]. by apply step_subscribe. }
  eapply npr_step; [eapply npr_step; [eapply npr_step; [exact H0|]|]|].
  - by apply (np_add _ _ _ joined [] _ (waiting_queue, EliminationQueue.Waiting)), (qs_add _ joined _ true).
  - by apply (np_get _ _ _ joined [_] _ (waiting_queue, Submitting joined)); constructor.
  - assert (sent = Network.mkSys (count_request (length (bits (countable.encode joined))) (net ready)) (objs ready)
      (calls ready ++ [mkCall join_request Arrived NotStarted]) (world ready) (log ready)) as E
      by (by rewrite Hc, Hw).
    replace (Some 0%nat) with (Some (length (calls ready))) by (by rewrite Hc).
    apply (np_submit TContext provider true false joined [_; _] waiting_queue ready sent "0" "end" "Server.SubmitOp");
      [done|by vm_compute|]. rewrite E. reflexivity.
Qed.

Definition registered_server : RpcServer.Server rpc_type value dcluster := AddService server_service MakeServer.

Lemma ready_healthy : healthy (net sent) "end"%string 7%nat 0%nat.
Proof. split; by vm_compute. Qed.

Lemma ready_server : objs sent !! 0%nat = Some registered_server.
Proof. reflexivity. Qed.

Lemma server_offers : offers TContext registered_server 0 joined.
Proof. exists server_service, submit_method, TPtrReply. by split_and!. Qed.

Lemma join_submits : submits (V := value) joined join_request.
Proof. by split_and!. Qed.

(** The server starts the request, Raft commits it, and the handler returns. *)
Definition committed : list (Server.event (C := masseyOmuraCrypto)) :=
  [EStart joined 1 7; ECommand joined 1 7 true (st [joined])].

Lemma server_commits : server_run y1 (committed ++ [EReply joined OK]) y4.
Proof.
  eapply sr_cons; [by apply (step_submit_wait _ joined 7 1 true)|].
  eapply sr_cons; [by apply (step_command _ commit_msg joined)|].
  eapply sr_cons; [apply (step_deliver _ served [] rq [])|]. constructor.
Qed.

Lemma committed_no_reply e : EReply joined e ∉ committed.
Proof. unfold committed. set_solver. Qed.

Lemma submission_completes_witness : ∃ N', rtc (netpipe_step TContext provider true) submitted N' ∧
  np_history N' = [EvAdd joined; EvGet joined; EvFinish joined] ∧ lastFinished (fst (np_queue N')) = joined.
Proof.
  destruct (submission_completes TContext provider true submitted 0 waiting_queue joined
    (mkCall join_request Arrived NotStarted) 7%nat 0%nat registered_server 0 (take 1 trace) y1 committed y4)
    as (N' & p' & Hr & Hh & _ & _ & _ & Hq & Hl & _).
  - exact submitted_reachable.
  - reflexivity.
  - reflexivity.
  - reflexivity.
  - reflexivity.
  - exact ready_healthy.
  - exact ready_server.
  - exact server_offers.
  - reflexivity.
  - intros e. apply not_elem_of_nil.
  - exact server_commits.
  - exact committed_no_reply.
  - exists N'. split; [exact Hr|]. split; [exact Hh|]. rewrite Hq. exact Hl.
Defined.

(** The client after its operation has been committed. *)
Lemma finished_run : ∃ s' : dsys, netpipe_reachable TContext provider true
    (mkNetPipe [EvAdd joined; EvGet joined; EvFinish joined] (mkQueue [] joined, EliminationQueue.Waiting) s' None) ∧
  members (world s') = [(trace, y4)].
Proof.
  destruct (submission_run TContext provider true [EvAdd joined; EvGet joined] waiting_queue joined sent 0
    (mkCall join_request Arrived NotStarted) 7%nat 0%nat registered_server 0 (take 1 trace) y1 committed y4)
    as (s' & p' & Hr & Hf & Hm); [|done|apply join_submits|done|apply ready_healthy|apply ready_server
      |apply server_offers|done|intros e; apply not_elem_of_nil|apply server_commits|apply committed_no_reply|].
  - unfold one_place. simpl. lia.
  - exists s'. split; [|exact Hm]. injection Hf as <-.
    eapply netpipe_reachable_rtc; [apply submitted_reachable|exact Hr].
Qed.

Lemma no_operation_lost_on_network_witness : ∃ f tr y, upto joined f ∧ settled tr y f.
Proof.
  destruct finished_run as (s' & Hr & Hm).
  destruct (proj2 (no_operation_lost_on_network TContext provider true _ Hr
    ltac:(simpl; rewrite Hm; repeat constructor; apply PipelineDemo.trace_raft_ok)) eq_refl joined)
    as (f & k & tr & y & _ & Hu & _ & Hs).
  - apply elem_of_cons. by left.
  - simpl. lia.
  - eauto.
Defined.

End NetPipelineDemo.
