(* ===== verification/ResultOrder.v ===== *)
(** * Ordering the results of rounds

    Model of [resultOrderer] of src/localconfessions/confessions.go and of
    [resultOrderer.order] of src/anonbcast/config.go.  Clients report the results
    of rounds in any order; the goroutine passes them on in the order of the
    rounds, starting with a given one. *)

From Stdlib Require Import Strings.Byte.
From S2P Require Import Prelude Client.
Local Open Scope Z_scope.

(** The entry that stands for a result that has not arrived. *)
Definition absent : RoundResult := failure (-1) None.

(** [for len(results) <= r.Round { append }]. *)
Definition grow (results : list RoundResult) (round : Z) : list RoundResult :=
  results ++ replicate (Z.to_nat (round + 1 - Z.of_nat (length results))) absent.

(** [results[r.Round] = r]. *)
Definition store (results : list RoundResult) (r : RoundResult) : outcome (list RoundResult) :=
  if rr_Round r <? 0 then Panic IndexOutOfRange else results.[Z.to_nat (rr_Round r) <- r].

(** The inner loop: what is sent, from the entries starting at [applyIndex]. *)
Fixpoint ready (rest : list RoundResult) : list RoundResult :=
  match rest with
  | [] => []
  | r :: rest' => if bool_decide (rr_Round r ≠ -1) then r :: ready rest' else []
  end.

Definition send_ready (results : list RoundResult) (applyIndex : Z) : outcome (list RoundResult * Z) :=
  if (applyIndex <? Z.of_nat (length results)) && (applyIndex <? 0) then Panic IndexOutOfRange else
  let out := ready (drop (Z.to_nat applyIndex) results) in
  Ret (out, applyIndex + Z.of_nat (length out)).

(** One iteration: what is sent, and the new local variables. *)
Definition order_step (r : RoundResult) (results : list RoundResult) (applyIndex : Z)
    : outcome (list RoundResult * list RoundResult * Z) :=
  results ← store (grow results (rr_Round r)) r;
  '(out, applyIndex) ← send_ready results applyIndex;
  Ret (out, results, applyIndex).

(** [order]: the flag of an input is what [ro.killed()] returns before it is
    received. *)
Fixpoint order (inputs : list (bool * RoundResult)) (results : list RoundResult) (applyIndex : Z)
    : outcome (list RoundResult) :=
  match inputs with
  | [] => Ret []
  | (killed, r) :: inputs' =>
      if killed : bool then Ret [] else
      '(out, results, applyIndex) ← order_step r results applyIndex;
      outs ← order inputs' results applyIndex;
      Ret (out ++ outs)
  end.

(** [resultOrderer] of localconfessions, which has no flag and starts at 0. *)
Definition resultOrderer (inputs : list RoundResult) : outcome (list RoundResult) :=
  order ((false,.) <$> inputs) [] 0.

(** The results that are received: those before the flag is set. *)
Fixpoint received (inputs : list (bool * RoundResult)) : list RoundResult :=
  match inputs with
  | [] => []
  | (killed, r) :: inputs' => if killed : bool then [] else r :: received inputs'
  end.

(** ** Lemmas *)

Lemma ready_lookup l k r : ready l !! k = Some r → l !! k = Some r ∧ rr_Round r ≠ -1.
Proof.
  revert k. induction l as [|x l IH]; intros k Hk; simpl in Hk; [done|].
  case_bool_decide; [|done]. destruct k as [|k]; simplify_eq/=; [done|]. by apply IH.
Qed.

Lemma ready_stop l : match l !! length (ready l) with Some r => rr_Round r = -1 | None => True end.
Proof.
  induction l as [|x l IH]; simpl; [done|]. case_bool_decide as Hx; [done|]. simpl. lia.
Qed.

Lemma grow_lookup results round k :
  grow results round !! k = match results !! k with
    | Some r => Some r
    | None => if decide (k < length (grow results round))%nat then Some absent else None end.
Proof.
  unfold grow. destruct (results !! k) as [r|] eqn:Hk; [by apply lookup_app_l_Some|].
  apply lookup_ge_None in Hk as Hlen. rewrite lookup_app_r by done. rewrite length_app, length_replicate.
  case_decide; [apply lookup_replicate_2; lia|]. apply lookup_replicate_None. lia.
Qed.

Lemma grow_length results round : round < Z.of_nat (length (grow results round)).
Proof. unfold grow. rewrite length_app, length_replicate. lia. Qed.

Section ordering.
Context (start : Z) (Hstart : 0 ≤ start).

(** What the local variables say when [seen] has been received and [out] sent. *)
Record ordered (seen out results : list RoundResult) (applyIndex : Z) : Prop := {
  o_entries : ∀ k r, results !! k = Some r → r = absent ∨ r ∈ seen ∧ rr_Round r = Z.of_nat k;
  o_nonneg : ∀ r, r ∈ seen → 0 ≤ rr_Round r;
  o_seen : ∀ r, r ∈ seen → results !! Z.to_nat (rr_Round r) = Some r;
  o_index : applyIndex = start + Z.of_nat (length out);
  o_out : ∀ k r, out !! k = Some r →
    r ∈ seen ∧ rr_Round r = start + Z.of_nat k;
  o_stop : match results !! Z.to_nat applyIndex with Some r => rr_Round r = -1 | None => True end
}.

Lemma ordered_init : ordered [] [] [] start.
Proof. split; try done; simpl; [set_solver..|lia]. Qed.

(** The array after a result has been stored. *)
Lemma store_entries seen results r k x :
  (∀ k r, results !! k = Some r → r = absent ∨ r ∈ seen ∧ rr_Round r = Z.of_nat k) →
  0 ≤ rr_Round r →
  <[Z.to_nat (rr_Round r) := r]> (grow results (rr_Round r)) !! k = Some x →
  x = absent ∨ x ∈ seen ++ [r] ∧ rr_Round x = Z.of_nat k.
Proof.
  intros He Hr Hk. apply list_lookup_insert_Some in Hk as [(<- & <- & _)|[Hne Hk]].
  - right. split; [set_solver|lia].
  - rewrite grow_lookup in Hk. destruct (results !! k) as [y|] eqn:Hy.
    + injection Hk as <-. destruct (He _ _ Hy) as [|[? ?]]; [by left|]. right. split; [set_solver|done].
    + case_decide; simplify_eq. by left.
Qed.

Lemma ordered_step seen out results applyIndex r :
  ordered seen out results applyIndex → 0 ≤ rr_Round r → rr_Round r ∉ rr_Round <$> seen →
  ∃ out' results' applyIndex', order_step r results applyIndex = Ret (out', results', applyIndex') ∧
    ordered (seen ++ [r]) (out ++ out') results' applyIndex'.
Proof.
  intros [He Hnn Hs Hi Ho Hst] Hr Hnew. set (results' := <[Z.to_nat (rr_Round r) := r]> (grow results (rr_Round r))).
  set (out' := ready (drop (Z.to_nat applyIndex) results')).
  exists out', results', (applyIndex + Z.of_nat (length out')).
  pose proof (grow_length results (rr_Round r)) as Hlen.
  assert (order_step r results applyIndex = Ret (out', results', applyIndex + Z.of_nat (length out'))) as Hstep.
  { unfold order_step, store. rewrite (proj2 (Z.ltb_ge _ _)) by lia. rewrite slice_set_ret by lia. simpl.
    unfold send_ready. rewrite (proj2 (Z.ltb_ge applyIndex 0)) by lia. by rewrite andb_false_r. }
  split; [exact Hstep|].
  assert (∀ k x, results' !! k = Some x → x = absent ∨ x ∈ seen ++ [r] ∧ rr_Round x = Z.of_nat k) as He'.
  { intros k x. by apply store_entries. }
  split; [done|set_solver| | | |].
  - intros x [Hx| ->%list_elem_of_singleton]%elem_of_app.
    + assert (rr_Round x ≠ rr_Round r) as Hne.
      { intros Heq. apply Hnew. rewrite <- Heq. by apply list_elem_of_fmap_2. }
      destruct (He _ _ (Hs x Hx)) as [Ha|[_ Hk]].
      { subst x. by apply Hnn in Hx. }
      unfold results'. rewrite list_lookup_insert_ne by lia. rewrite grow_lookup. by rewrite (Hs x Hx).
    + unfold results'. apply list_lookup_insert_eq. lia.
  - rewrite length_app. lia.
  - intros k x [Hk|[Hk Hx]]%lookup_app_Some.
    + destruct (Ho _ _ Hk). split; [set_solver|done].
    + apply ready_lookup in Hx as [Hx Hne]. rewrite lookup_drop in Hx.
      destruct (He' _ _ Hx) as [-> |[? ?]]; [done|]. split; [done|]. lia.
  - pose proof (ready_stop (drop (Z.to_nat applyIndex) results')) as Hstop. rewrite lookup_drop in Hstop.
    replace (Z.to_nat (applyIndex + Z.of_nat (length out'))) with (Z.to_nat applyIndex + length out')%nat by lia.
    exact Hstop.
Qed.

Lemma order_ordered inputs : ∀ seen out results applyIndex,
  ordered seen out results applyIndex → NoDup (rr_Round <$> seen ++ received inputs) →
  Forall (fun r => 0 ≤ rr_Round r) (received inputs) →
  ∃ outs results' applyIndex', order inputs results applyIndex = Ret outs ∧
    ordered (seen ++ received inputs) (out ++ outs) results' applyIndex'.
Proof.
  induction inputs as [|[[] r] inputs IH]; intros seen out results applyIndex Ho Hnd Hpos; simpl in *.
  - exists [], results, applyIndex. by rewrite !app_nil_r.
  - exists [], results, applyIndex. by rewrite !app_nil_r.
  - apply Forall_cons in Hpos as [Hr Hpos].
    destruct (ordered_step _ _ _ _ r Ho Hr) as (o1 & res1 & i1 & -> & Ho1).
    { rewrite fmap_app, fmap_cons in Hnd. apply NoDup_app in Hnd as (_ & Hdis & _).
      intros Hin. apply (Hdis _ Hin). by left. }
    destruct (IH _ _ _ _ Ho1) as (outs & res2 & i2 & Hout & Ho2).
    { by rewrite <- app_assoc. }
    { done. }
    exists (o1 ++ outs), res2, i2. simpl. rewrite Hout. split; [done|].
    rewrite <- app_assoc in Ho2. by rewrite (app_assoc out).
Qed.

(** The results come out in order.  If the results received have distinct
    non-negative rounds, then nothing panics, what is sent are received results
    of the rounds [start], [start + 1], ... without gap or repetition, and nothing
    is held back: the result of the next round has not been received. *)
Theorem results_in_order (inputs : list (bool * RoundResult)) :
  NoDup (rr_Round <$> received inputs) → Forall (fun r => 0 ≤ rr_Round r) (received inputs) →
  ∃ outs, order inputs [] start = Ret outs ∧
    (∀ k r, outs !! k = Some r → r ∈ received inputs ∧ rr_Round r = start + Z.of_nat k) ∧
    (∀ r, r ∈ received inputs → rr_Round r ≠ start + Z.of_nat (length outs)).
Proof.
  intros Hnd Hpos. destruct (order_ordered inputs [] [] [] start ordered_init) as (outs & res & i & Hout & Ho);
    [done..|]. destruct Ho as [He Hnn Hs Hi Ho Hst]. simpl in *.
  exists outs. split_and!; [done..|]. intros r Hr Heq. specialize (Hs r Hr). rewrite Heq, <- Hi in Hs.
  rewrite Hs in Hst. specialize (Hnn r Hr). lia.
Qed.

End ordering.

Lemma results_in_order_witness :
  ∃ outs, order [(false, failure 2 None); (false, failure 4 None); (false, failure 1 None)] [] 1 = Ret outs ∧
    length outs = 2%nat.
Proof.
  destruct (results_in_order 1 ltac:(lia)
    [(false, failure 2 None); (false, failure 4 None); (false, failure 1 None)]) as (outs & Hout & _).
  - apply (bool_decide_unpack _). by vm_compute.
  - repeat constructor; simpl; lia.
  - exists outs. split; [exact Hout|]. vm_compute in Hout. by injection Hout as <-.
Defined.
