(* ===== verification/Shuffle.v ===== *)
(** * The shuffle hides the order

    The anonymity of the protocol rests on [scramble] (src/anonbcast/client.go):
    its result must not depend on the order of the messages that it received.
    [rand.Shuffle] draws one number for every position; this file shows that for
    every wanted order there is exactly one sequence of draws that produces it,
    whatever the order of the input.  With uniform draws all orders are therefore
    equally likely. *)

From S2P Require Import Prelude Bytes Crypto Op StateMachine Client Layers Protocol ProtocolWitness.

(** The draws that [rand.Shuffle(i + 1, _)] can make: [Int31n(i + 1)], [Int31n(i)],
    and so on down to [Int31n(2)]. *)
Fixpoint valid_draws (i : nat) (draws : list nat) : Prop :=
  match i, draws with
  | O, [] => True
  | S i', d :: draws' => d ≤ i ∧ valid_draws i' draws'
  | _, _ => False
  end.

Lemma swap_inv {A} (l l' : list A) i j :
  swap l i j = Ret l' → ∃ x y, l !! i = Some x ∧ l !! j = Some y ∧ l' = <[j := x]> (<[i := y]> l).
Proof.
  unfold swap. intros (x & Hx & (y & Hy & (l1 & H1 & H2)%bind_ret_inv)%bind_ret_inv)%bind_ret_inv.
  apply slice_get_ret in Hx, Hy. apply slice_set_inv in H1 as [_ ->]. apply slice_set_inv in H2 as [_ ->].
  eauto.
Qed.

(** After the swap, position [i] holds what was at [j]; positions beyond both are
    untouched. *)
Lemma swap_lookup_i {A} (l l' : list A) i j : swap l i j = Ret l' → l' !! i = l !! j.
Proof.
  intros (x & y & Hx & Hy & ->)%swap_inv. apply lookup_lt_Some in Hx as Hi. apply lookup_lt_Some in Hy as Hj.
  destruct (decide (i = j)) as [-> |].
  - rewrite list_lookup_insert_eq by (by rewrite length_insert). congruence.
  - rewrite list_lookup_insert_ne, list_lookup_insert_eq by done. done.
Qed.

Lemma swap_lookup_other {A} (l l' : list A) i j k :
  swap l i j = Ret l' → k ≠ i → k ≠ j → l' !! k = l !! k.
Proof. intros (x & y & _ & _ & ->)%swap_inv Hi Hj. by rewrite !list_lookup_insert_ne. Qed.

Lemma shuffle_from_above {A} i : ∀ draws (l l' : list A) k,
  shuffle_from i draws l = Ret l' → i < k → l' !! k = l !! k.
Proof.
  induction i as [|i IH]; intros draws l l' k Hs Hk; [by simplify_eq/=|]. cbn [shuffle_from] in Hs.
  pose proof (Nat.mod_upper_bound (hd 0 draws) (S (S i))).
  apply bind_ret_inv in Hs as (l1 & Hsw & Hs). rewrite (IH _ _ _ k Hs) by lia.
  eapply swap_lookup_other; [done|lia..].
Qed.

(** Two permutations that agree from position 1 on are equal. *)
Lemma perm_agree_tail {A} (l o : list A) :
  o ≡ₚ l → (∀ k, 0 < k → o !! k = l !! k) → o = l.
Proof.
  intros Hp Ht. destruct l as [|x l]; [by apply Permutation_nil_r in Hp|].
  destruct o as [|y o]; [by apply Permutation_nil_cons in Hp|].
  assert (o = l) as ->.
  { apply list_eq. intros k. apply (Ht (S k)). lia. }
  apply (Permutation_app_inv_r l [y] [x]) in Hp. apply Permutation_singleton_inj in Hp. by f_equal.
Qed.

(** The element that must come to position [i] is at a position not above it. *)
Lemma perm_source {A} (l o : list A) i :
  NoDup l → o ≡ₚ l → i < length l → (∀ k, i < k → o !! k = l !! k) →
  ∃ j, j ≤ i ∧ l !! j = o !! i.
Proof.
  intros Hnd Hp Hi Ht. assert (i < length o) as Hio by (by rewrite Hp).
  destruct (lookup_lt_is_Some_2 o i Hio) as [x Hx].
  assert (x ∈ l) as [j Hj]%list_elem_of_lookup by (rewrite <- Hp; by eapply list_elem_of_lookup_2).
  exists j. split; [|congruence]. destruct (decide (j ≤ i)); [done|].
  assert (o !! j = Some x) as Hoj by (rewrite Ht by lia; done).
  assert (NoDup o) as Hndo by (by rewrite Hp). pose proof (NoDup_lookup o i j x Hndo Hx Hoj). lia.
Qed.

(** The first draw is determined by what ends up at position [i]. *)
Lemma shuffle_first_draw {A} i draws (l o : list A) j :
  NoDup l → S i < length l → valid_draws (S i) draws → shuffle_from (S i) draws l = Ret o →
  l !! j = o !! S i → hd 0 draws = j.
Proof.
  intros Hnd Hi Hv Hs Hj. destruct draws as [|d draws]; [done|]. destruct Hv as [Hd Hv].
  cbn [shuffle_from hd tail] in *. apply bind_ret_inv in Hs as (l1 & Hsw & Hs).
  rewrite Nat.mod_small in Hsw by lia. rewrite (shuffle_from_above _ _ _ _ (S i) Hs) in Hj by lia.
  rewrite (swap_lookup_i _ _ _ _ Hsw) in Hj.
  destruct (lookup_lt_is_Some_2 l d) as [x Hx]; [lia|].
  rewrite Hx in Hj. by apply (NoDup_lookup l d j x).
Qed.

Lemma shuffle_from_unique {A} i : ∀ (l o : list A),
  NoDup l → o ≡ₚ l → i < length l → (∀ k, i < k → o !! k = l !! k) →
  exists! draws, valid_draws i draws ∧ shuffle_from i draws l = Ret o.
Proof.
  induction i as [|i IH]; intros l o Hnd Hp Hi Ht.
  { exists []. split; [|by intros [] [? ?]]. split; [done|]. simpl. f_equal. symmetry. by apply perm_agree_tail. }
  destruct (perm_source l o (S i) Hnd Hp Hi Ht) as (j & Hj & Hjx).
  destruct (swap_perm l (S i) j) as (l1 & Hsw & Hp1); [lia..|].
  destruct (IH l1 o) as (ds & [Hv Hs] & Hu).
  - by rewrite Hp1.
  - by rewrite Hp, Hp1.
  - rewrite Hp1. lia.
  - intros k Hk. destruct (decide (k = S i)) as [-> |].
    + by rewrite (swap_lookup_i _ _ _ _ Hsw).
    + rewrite (swap_lookup_other _ _ _ _ k Hsw) by lia. apply Ht. lia.
  - exists (j :: ds). split.
    + split; [split; [lia|done]|]. cbn [shuffle_from hd tail]. rewrite Nat.mod_small by lia.
      rewrite Hsw. exact Hs.
    + intros ds' [Hv' Hs']. pose proof (shuffle_first_draw i ds' l o j Hnd Hi Hv' Hs' Hjx) as Hh.
      destruct ds' as [|d ds']; [done|]. simpl in Hh. subst d. f_equal. apply Hu.
      destruct Hv' as [_ Hv']. split; [done|]. cbn [shuffle_from hd tail] in Hs'.
      rewrite Nat.mod_small, Hsw in Hs' by lia. exact Hs'.
Qed.

Lemma rand_Shuffle_unique {A} (l o : list A) :
  NoDup l → o ≡ₚ l → exists! draws, valid_draws (length l - 1) draws ∧ rand_Shuffle draws l = Ret o.
Proof.
  intros Hnd Hp. destruct l as [|x l].
  - apply Permutation_nil_r in Hp as ->. exists []. split; [done|]. by intros [] [? ?].
  - apply shuffle_from_unique; [done..|simpl; lia|]. intros k Hk.
    rewrite !(proj2 (lookup_ge_None _ _)); [done|..]; rewrite ?Hp; simpl in *; lia.
Qed.

(** ** The operation of a client *)

Section scramble.
Context {C : Type} `{CommutativeCrypto C} (Id : UUID).

(** Both layers that [scramble] adds. *)
Definition scramble_layers (c : C) (scrambleKey revealKey : PrivateKey) (m : Msg) : Msg :=
  Encrypt c revealKey (Encrypt c scrambleKey m).

Lemma scramble_shuffles round ri me k1 k2 c draws :
  Scrambled ri !! me = Some false → Crypto ri = Some c →
  scramble Id round ri me k1 k2 draws =
  ms ← rand_Shuffle draws (map (scramble_layers c k1 k2) (Messages ri));
  Ret (Some (ScrambledOp Id round ms)).
Proof.
  intros Hme Hc. unfold scramble. rewrite (proj2 (slice_get_ret _ _ _) Hme). simpl.
  assert (∀ ms, map_outcome (fun m => crypto ← crypto_of ri;
    let m1 := Encrypt crypto k1 m in let m2 := Encrypt crypto k2 m1 in Ret m2) ms =
    Ret (map (scramble_layers c k1 k2) ms)) as ->; [|done].
  induction ms as [|m ms IH]; [done|]. cbn [map_outcome map]. unfold crypto_of in *. rewrite Hc in *. simpl in *.
  by rewrite IH.
Qed.

(** [scramble] hides the order of the messages.  Let two snapshots of a round
    hold the same messages in different orders, whose encryptions are distinct.
    Then the operations that the client can submit are the same for both: the
    encrypted messages in any order, and for each of these orders there is exactly
    one sequence of draws of [rand.Shuffle] that produces it, for either snapshot.
    With uniform draws the operation thus carries no information about the order
    of the messages, that is about who sent which. *)
Theorem scramble_hides_order (round : Z) (me : nat) (k1 k2 : PrivateKey) (c : C) ri ri' :
  Scrambled ri !! me = Some false → Scrambled ri' !! me = Some false →
  Crypto ri = Some c → Crypto ri' = Some c → Messages ri' ≡ₚ Messages ri →
  NoDup (map (scramble_layers c k1 k2) (Messages ri)) →
  let n := length (Messages ri) - 1 in
  let yields r draws op := valid_draws n draws ∧ scramble Id round r me k1 k2 draws = Ret (Some op) in
  (∀ draws, ∃ o, o ≡ₚ map (scramble_layers c k1 k2) (Messages ri) ∧
     scramble Id round ri me k1 k2 draws = Ret (Some (ScrambledOp Id round o))) ∧
  (∀ o, o ≡ₚ map (scramble_layers c k1 k2) (Messages ri) →
     (exists! draws, yields ri draws (ScrambledOp Id round o)) ∧
     (exists! draws, yields ri' draws (ScrambledOp Id round o))).
Proof.
  intros Hs Hs' Hc Hc' Hp Hnd n yields. split.
  - intros draws. rewrite (scramble_shuffles _ _ _ _ _ c) by done.
    destruct (rand_Shuffle_perm draws (map (scramble_layers c k1 k2) (Messages ri))) as (o & -> & Ho). eauto.
  - assert (∀ r o, Scrambled r !! me = Some false → Crypto r = Some c → Messages r ≡ₚ Messages ri →
      o ≡ₚ map (scramble_layers c k1 k2) (Messages ri) →
      exists! draws, yields r draws (ScrambledOp Id round o)) as Hu; [|by eauto].
    intros r o Hsr Hcr Hpr Ho. pose proof (Permutation_map (scramble_layers c k1 k2) Hpr) as Hm.
    destruct (rand_Shuffle_unique (map (scramble_layers c k1 k2) (Messages r)) o) as (ds & [Hv Hd] & Hun).
    + by rewrite Hm.
    + by rewrite Ho, Hm.
    + assert (length (map (scramble_layers c k1 k2) (Messages r)) - 1 = n) as Hn by (by rewrite length_map, Hpr).
      rewrite Hn in Hv. exists ds. unfold yields. split.
      * split; [exact Hv|]. rewrite (scramble_shuffles _ _ _ _ _ c) by done. by rewrite Hd.
      * intros ds' [Hv' Hd']. apply Hun. rewrite Hn. split; [exact Hv'|].
        rewrite (scramble_shuffles _ _ _ _ _ c) in Hd' by done.
        apply bind_ret_inv in Hd' as (o' & -> & Heq). by injection Heq as ->.
Qed.

End scramble.

Import ProtocolWitness.
#[local] Existing Instance known_prime.

(** The two messages of the round of ProtocolWitness, in both orders. *)
Lemma scramble_hides_order_witness :
  let ri := cur st8 in
  let ri' := set_Messages (rev (Messages ri)) ri in
  exists! draws, valid_draws 1 draws ∧
    scramble alice 0 ri' 0 (sk alice_data) (rk alice_data) draws =
    Ret (Some (ScrambledOp alice 0 (map (scramble_layers crypto (sk alice_data) (rk alice_data)) (Messages ri)))).
Proof.
  apply (scramble_hides_order alice 0 0 (sk alice_data) (rk alice_data) crypto (cur st8)
    (set_Messages (rev (Messages (cur st8))) (cur st8))).
  - by vm_compute.
  - by vm_compute.
  - by vm_compute.
  - by vm_compute.
  - simpl. symmetry. apply Permutation_rev.
  - apply (bool_decide_unpack _). by vm_compute.
  - done.
Defined.
