(* ===== verification/Anonymity.v ===== *)
(** * One honest participant hides the order

    The scramble phase as a whole: the participants take their turns in the order
    of the participants, each computing its operation with [scramble]
    (src/anonbcast/client.go) from the replicated state, and [Apply]
    (src/anonbcast/statemachine.go) putting the messages on the board.  Shuffle
    shows what one call of [scramble] does; here the turns are composed with the
    state machine, and the draws of a single participant are varied while all
    others are fixed. *)

From S2P Require Import Prelude Bytes Crypto Op StateMachine RoundSpec StateMachineProps Client Layers Protocol.
From S2P Require Import ProtocolWitness Shuffle.
Local Open Scope Z_scope.

(** ** Shuffles with given draws are injective *)

Lemma swap_lookup_j {A} (l l' : list A) i j : swap l i j = Ret l' → l' !! j = l !! i.
Proof.
  intros (x & y & Hx & Hy & ->)%swap_inv. apply lookup_lt_Some in Hy.
  rewrite list_lookup_insert_eq; [done|]. by rewrite length_insert.
Qed.

Lemma swap_inj {A} (l l' o : list A) i j : swap l i j = Ret o → swap l' i j = Ret o → l = l'.
Proof.
  intros H1 H2. apply list_eq. intros k. destruct (decide (k = j)) as [-> |].
  { by rewrite <- (swap_lookup_i _ _ _ _ H1), (swap_lookup_i _ _ _ _ H2). }
  destruct (decide (k = i)) as [-> |].
  { by rewrite <- (swap_lookup_j _ _ _ _ H1), (swap_lookup_j _ _ _ _ H2). }
  by rewrite <- (swap_lookup_other _ _ _ _ k H1), (swap_lookup_other _ _ _ _ k H2).
Qed.

Lemma shuffle_from_inj {A} i : ∀ draws (l l' o : list A),
  shuffle_from i draws l = Ret o → shuffle_from i draws l' = Ret o → l = l'.
Proof.
  induction i as [|i IH]; intros draws l l' o H1 H2; [by simplify_eq/=|]. cbn [shuffle_from] in H1, H2.
  apply bind_ret_inv in H1 as (l1 & Hs1 & H1). apply bind_ret_inv in H2 as (l2 & Hs2 & H2).
  rewrite (IH _ _ _ _ H1 H2) in Hs1. by eapply swap_inj.
Qed.

Lemma rand_Shuffle_inj {A} draws (l l' o : list A) :
  length l = length l' → rand_Shuffle draws l = Ret o → rand_Shuffle draws l' = Ret o → l = l'.
Proof. unfold rand_Shuffle. intros ->. apply shuffle_from_inj. Qed.

(** A function without collisions on a list is injective on its rearrangements. *)
Lemma map_perm_inj {A B} (g : A → B) (l l' : list A) :
  NoDup (map g l) → l' ≡ₚ l → map g l' = map g l → l' = l.
Proof.
  intros Hnd Hp Hm. apply list_eq_same_length with (n := length l); [done|by rewrite Hp|].
  intros k x y _ Hx Hy. assert (x ∈ l) as [q Hq]%list_elem_of_lookup by (rewrite <- Hp; by eapply list_elem_of_lookup_2).
  assert (map g l !! k = Some (g x)) as Hk by (rewrite <- Hm, list_lookup_fmap, Hx; done).
  assert (map g l !! q = Some (g x)) as Hk' by (rewrite list_lookup_fmap, Hq; done).
  pose proof (NoDup_lookup _ _ _ _ Hnd Hk Hk'). congruence.
Qed.

Section anonymity.
Context {C : Type} `{CommutativeCrypto C}.
Implicit Types (sm : StateMachine C) (ri : RoundInfo C).

(** ** Model *)

(** A participant with its keys and the draws of its [rand.Shuffle]. *)
Record turn := mkTurn { tu_Id : UUID; tu_sk : PrivateKey; tu_rk : PrivateKey; tu_draws : list nat }.

(** The case [ScramblePhase] of [readUpdates] on the current state, for a client
    that is active and has not scrambled in this round: nothing unless it is its
    turn, otherwise [scramble] and the application of its operation. *)
Definition scramble_turn (t : turn) sm : outcome (StateMachine C) :=
  '(r, _) ← CurrentRoundInfo false sm;
  '(ri, _) ← load r sm;
  match phase ri, whereAmI (tu_Id t) ri with
  | ScramblePhase, Some me =>
      if bool_decide (me ≠ numScrambled ri) then Ret sm else
      o ← scramble (tu_Id t) (Round sm) ri me (tu_sk t) (tu_rk t) (tu_draws t);
      match o with
      | None => Ret sm
      | Some op => '(_, sm') ← Apply false op sm; Ret sm'
      end
  | _, _ => Ret sm
  end.

Definition with_draws (d : list nat) (t : turn) : turn := mkTurn (tu_Id t) (tu_sk t) (tu_rk t) d.

Fixpoint scramble_turns (ts : list turn) sm : outcome (StateMachine C) :=
  match ts with [] => Ret sm | t :: ts' => sm' ← scramble_turn t sm; scramble_turns ts' sm' end.

(** ** The turns on the list of messages *)

Definition layer (c : C) (t : turn) : Msg → Msg := scramble_layers c (tu_sk t) (tu_rk t).

Fixpoint all_layers (c : C) (ts : list turn) (m : Msg) : Msg :=
  match ts with [] => m | t :: ts' => all_layers c ts' (layer c t m) end.

Fixpoint shuffles (c : C) (ts : list turn) (ms : list Msg) : outcome (list Msg) :=
  match ts with [] => Ret ms | t :: ts' => o ← rand_Shuffle (tu_draws t) (map (layer c t) ms); shuffles c ts' o end.

(** A machine with other messages in its current round, and the round after a
    turn. *)
Definition frame sm ri (ms : list Msg) : StateMachine C := set_current sm (set_Messages ms ri).

Definition next_info ri : RoundInfo C :=
  let r := mark_scrambled (numScrambled ri) [] ri in advance (all_scrambled r) DecryptPhase r.

Lemma next_info_messages ri o :
  set_Messages o (next_info ri) =
  let r := mark_scrambled (numScrambled ri) o ri in advance (all_scrambled r) DecryptPhase r.
Proof. unfold next_info, advance, all_scrambled, numScrambled. simpl. by destruct (bool_decide _). Qed.

Lemma current_frame sm ri ms : length (Rounds sm) = 3%nat → current (frame sm ri ms) = Some (set_Messages ms ri).
Proof. intros Hl. apply list_lookup_insert_eq. rewrite Hl. apply slot_lt. Qed.

Lemma frame_frame sm ri ri' ms ms' : set_current (frame sm ri ms) (set_Messages ms' ri') = frame sm ri' ms'.
Proof. unfold frame, set_current. simpl. by rewrite list_insert_insert_eq. Qed.

(** A turn whose participant is the next one. *)
Lemma scramble_turn_frame t c sm ri ms :
  sm_inv (frame sm ri ms) → Round sm < int_max → length (Rounds sm) = 3%nat →
  phase ri = ScramblePhase → Participants ri !! numScrambled ri = Some (tu_Id t) → Crypto ri = Some c →
  ∃ o, rand_Shuffle (tu_draws t) (map (layer c t) ms) = Ret o ∧ o ≡ₚ map (layer c t) ms ∧
    scramble_turn t (frame sm ri ms) = Ret (frame sm (next_info ri) o) ∧ sm_inv (frame sm (next_info ri) o).
Proof.
  intros Hi Hlt Hl Hph Hp Hc. pose proof (current_frame sm ri ms Hl) as Hcur.
  destruct (current_inv _ Hi) as (ri0 & Hcur' & Hri & _). rewrite Hcur in Hcur'. injection Hcur' as <-.
  assert (whereAmI (tu_Id t) (set_Messages ms ri) = Some (numScrambled ri)) as Hw
    by (by apply whereAmI_lookup; [apply Hri|]).
  assert (Scrambled ri !! numScrambled ri = Some false) as Hf.
  { pose proof (inv_in_order _ Hri) as Ho. simpl in Ho. change (numScrambled (set_Messages ms ri)) with (numScrambled ri) in Ho.
    rewrite Ho. rewrite lookup_app_r, length_replicate, Nat.sub_diag by (by rewrite length_replicate).
    apply lookup_replicate. split; [done|]. apply lookup_lt_Some in Hp. lia. }
  destruct (rand_Shuffle_perm (tu_draws t) (map (layer c t) ms)) as (o & Ho & Hperm). exists o.
  assert (round_step (set_Messages ms ri) (ScrambledOp (tu_Id t) (Round sm) o) (set_Messages o (next_info ri)) false) as Hst.
  { rewrite next_info_messages. by eapply step_scrambled. }
  destruct (Apply_cases (ScrambledOp (tu_Id t) (Round sm) o) (frame sm ri ms) Hi Hlt)
    as [(r1 & r2 & fin & _ & Hr1 & Hst' & Happ)|[Hno _]]; [|by edestruct Hno; eauto].
  rewrite Hcur in Hr1. injection Hr1 as <-.
  assert (r2 = set_Messages o (next_info ri) ∧ fin = false) as [-> ->].
  { rewrite next_info_messages. inversion Hst'; subst. done. }
  split_and!; [done..| |].
  - unfold scramble_turn. rewrite CurrentRoundInfo_eq by apply Hi. cbn [mbind outcome_bind].
    rewrite (load_current _ _ Hcur). cbn [mbind outcome_bind]. rewrite Hw. simpl phase. rewrite Hph.
    rewrite bool_decide_eq_false_2 by (intros Hne; by apply Hne).
    rewrite (scramble_shuffles _ _ _ _ _ _ c) by done. simpl Messages.
    change (map (scramble_layers c (tu_sk t) (tu_rk t)) ms) with (map (layer c t) ms).
    rewrite Ho. cbn [mbind outcome_bind]. change (Round (frame sm ri ms)) with (Round sm).
    rewrite Happ. simpl. by rewrite frame_frame.
  - pose proof (commit_inv _ _ _ _ _ Hi Hlt Hcur Hst) as Hci. simpl in Hci. by rewrite frame_frame in Hci.
Qed.

(** ** All the turns *)

Lemma next_info_facts ri ms :
  ri_inv (set_Messages ms ri) → (numScrambled ri < length (Participants ri))%nat →
  Participants (next_info ri) = Participants ri ∧ Crypto (next_info ri) = Crypto ri ∧
  numScrambled (next_info ri) = S (numScrambled ri) ∧
  (phase ri = ScramblePhase → (S (numScrambled ri) < length (Participants ri))%nat →
   phase (next_info ri) = ScramblePhase).
Proof.
  intros Hri Hlt. pose proof (inv_in_order _ Hri) as Ho. pose proof (inv_scrambled _ Hri) as Hl. simpl in Ho, Hl.
  change (numScrambled (set_Messages ms ri)) with (numScrambled ri) in Ho.
  assert (numScrambled (mark_scrambled (numScrambled ri) [] ri) = S (numScrambled ri)) as Hn.
  { apply (mark_in_order (Scrambled ri) _ (numScrambled ri) Hl eq_refl); [|done].
    rewrite Ho, lookup_app_r, length_replicate, Nat.sub_diag by (by rewrite length_replicate).
    apply lookup_replicate. split; [done|lia]. }
  unfold next_info. destruct (advance_cases (all_scrambled (mark_scrambled (numScrambled ri) [] ri)) DecryptPhase
    (mark_scrambled (numScrambled ri) [] ri)) as [[Ha ->]|[_ ->]]; split_and!; try done.
  unfold all_scrambled in Ha. apply bool_decide_eq_true in Ha. rewrite Hn in Ha. simpl in Ha.
  rewrite length_insert in Ha. intros _ ?. lia.
Qed.

(** The turns of the next participants in order are the shuffles of the messages. *)
Lemma scramble_turns_frame c ts : ∀ sm ri ms,
  sm_inv (frame sm ri ms) → Round sm < int_max → length (Rounds sm) = 3%nat →
  phase ri = ScramblePhase → Crypto ri = Some c →
  map tu_Id ts `prefix_of` drop (numScrambled ri) (Participants ri) →
  ∃ o, shuffles c ts ms = Ret o ∧
    scramble_turns ts (frame sm ri ms) = Ret (frame sm (Nat.iter (length ts) next_info ri) o).
Proof.
  induction ts as [|t ts IH]; intros sm ri ms Hi Hlt Hl Hph Hc Hp; [by exists ms|].
  destruct Hp as [rest Hp]. cbn [map app] in Hp.
  assert (Participants ri !! numScrambled ri = Some (tu_Id t)) as Hq.
  { rewrite <- (Nat.add_0_r (numScrambled ri)), <- lookup_drop, Hp. done. }
  destruct (scramble_turn_frame t c sm ri ms Hi Hlt Hl Hph Hq Hc) as (o & Ho & _ & Hturn & Hi').
  destruct (current_inv _ Hi) as (ri0 & Hcur & Hri & _). rewrite current_frame in Hcur by done.
  injection Hcur as <-. pose proof (lookup_lt_Some _ _ _ Hq) as Hlen.
  destruct (next_info_facts ri ms Hri Hlen) as (HP & HC & HN & HPh).
  destruct (decide (length ts = 0%nat)) as [->%nil_length_inv|Hne].
  { exists o. cbn [shuffles scramble_turns length Nat.iter]. rewrite Ho, Hturn. done. }
  assert (map tu_Id ts ++ rest = drop (S (numScrambled ri)) (Participants ri)) as Hrest.
  { apply (f_equal (drop 1)) in Hp. rewrite drop_drop, Nat.add_1_r in Hp. by rewrite Hp. }
  destruct (IH sm (next_info ri) o) as (o' & Ho' & Hturns); [done..| | | |].
  - apply HPh; [done|]. apply (f_equal length) in Hrest. rewrite length_drop, length_app, length_map in Hrest. lia.
  - congruence.
  - rewrite HN, HP. exists rest. by rewrite Hrest.
  - exists o'. cbn [shuffles scramble_turns]. rewrite Ho, Hturn. cbn [mbind outcome_bind].
    rewrite Hturns, Ho'. split; [done|]. by rewrite <- Nat.iter_succ_r.
Qed.

(** ** The shuffles of the messages *)

Lemma shuffles_app c ts ts' ms : shuffles c (ts ++ ts') ms = (o ← shuffles c ts ms; shuffles c ts' o).
Proof.
  revert ms. induction ts as [|t ts IH]; intros ms; [done|]. cbn [shuffles app].
  destruct (rand_Shuffle_perm (tu_draws t) (map (layer c t) ms)) as (o & -> & _). apply IH.
Qed.

Lemma all_layers_app c ts ts' m : all_layers c (ts ++ ts') m = all_layers c ts' (all_layers c ts m).
Proof. revert m. induction ts as [|t ts IH]; intros m; [done|]. apply IH. Qed.

Lemma shuffles_perm c ts : ∀ ms, ∃ o, shuffles c ts ms = Ret o ∧ o ≡ₚ map (all_layers c ts) ms.
Proof.
  induction ts as [|t ts IH]; intros ms; [exists ms; by rewrite map_id|]. cbn [shuffles].
  destruct (rand_Shuffle_perm (tu_draws t) (map (layer c t) ms)) as (o & -> & Ho).
  destruct (IH o) as (o' & Ho' & Hp). exists o'. split; [done|]. rewrite Hp, Ho, map_map. done.
Qed.

(** Layers without collisions lose nothing on the way. *)
Lemma NoDup_map_prefix {A B D} (g : A → B) (h : B → D) (l : list A) :
  NoDup (map (fun x => h (g x)) l) → NoDup (map g l).
Proof. rewrite <- map_map. apply NoDup_fmap_1. Qed.

Lemma shuffles_inj c ts : ∀ ms ms' o,
  ms' ≡ₚ ms → NoDup (map (all_layers c ts) ms) → shuffles c ts ms = Ret o → shuffles c ts ms' = Ret o → ms' = ms.
Proof.
  induction ts as [|t ts IH]; intros ms ms' o Hp Hnd H1 H2; [by simplify_eq/=|]. cbn [shuffles] in H1, H2.
  apply bind_ret_inv in H1 as (o1 & Hs1 & H1). apply bind_ret_inv in H2 as (o2 & Hs2 & H2).
  destruct (rand_Shuffle_perm (tu_draws t) (map (layer c t) ms)) as (q1 & Hq1 & Hp1).
  destruct (rand_Shuffle_perm (tu_draws t) (map (layer c t) ms')) as (q2 & Hq2 & Hp2).
  rewrite Hs1 in Hq1. rewrite Hs2 in Hq2. injection Hq1 as <-. injection Hq2 as <-.
  assert (o2 = o1) as ->.
  { apply (IH o1 o2 o); [by rewrite Hp1, Hp2, Hp| |done..]. rewrite Hp1, map_map. exact Hnd. }
  apply (map_perm_inj (layer c t)); [by eapply (NoDup_map_prefix _ (all_layers c ts))|done|].
  apply (rand_Shuffle_inj (tu_draws t) _ _ o1); [by rewrite !length_map, Hp|done..].
Qed.

(** One turn can make up for any order of the messages, in exactly one way. *)
Lemma shuffles_hide c before t after ms ms' o :
  ms' ≡ₚ ms → NoDup (map (all_layers c (before ++ t :: after)) ms) →
  shuffles c (before ++ t :: after) ms = Ret o →
  exists! d, valid_draws (length ms - 1) d ∧ shuffles c (before ++ with_draws d t :: after) ms' = Ret o.
Proof.
  intros Hp Hnd Hs. rewrite shuffles_app in Hs.
  destruct (shuffles_perm c before ms) as (b & Hb & Hbp). destruct (shuffles_perm c before ms') as (b' & Hb' & Hbp').
  rewrite Hb in Hs. cbn [shuffles mbind outcome_bind] in Hs. apply bind_ret_inv in Hs as (q & Hq & Hs).
  destruct (rand_Shuffle_perm (tu_draws t) (map (layer c t) b)) as (q0 & Hq0 & Hqp).
  rewrite Hq in Hq0. injection Hq0 as <-.
  assert (b' ≡ₚ b) as Hbb by (by rewrite Hbp, Hbp', Hp).
  assert (NoDup (map (all_layers c after) q)) as Hnq.
  { rewrite Hqp, Hbp, !map_map. erewrite map_ext; [exact Hnd|]. intros m. by rewrite all_layers_app. }
  assert (NoDup (map (layer c t) b')) as Hnl by (rewrite Hbb, <- Hqp; by eapply NoDup_fmap_1).
  assert (length (map (layer c t) b') = length ms) as Hlen by (rewrite length_map, Hbb, Hbp; apply length_map).
  destruct (rand_Shuffle_unique (map (layer c t) b') q Hnl) as (d & [Hv Hd] & Hu); [by rewrite Hqp, Hbb|].
  rewrite Hlen in Hv, Hu. exists d. split.
  - split; [done|]. rewrite shuffles_app, Hb'. cbn [shuffles mbind outcome_bind].
    change (layer c (with_draws d t)) with (layer c t). simpl tu_draws. by rewrite Hd.
  - intros d2 [Hv2 H2]. apply Hu. split; [done|]. rewrite shuffles_app, Hb' in H2.
    cbn [shuffles mbind outcome_bind] in H2. change (layer c (with_draws d2 t)) with (layer c t) in H2.
    simpl tu_draws in H2. apply bind_ret_inv in H2 as (q2 & Hq2 & H2).
    destruct (rand_Shuffle_perm d2 (map (layer c t) b')) as (q0 & Hq0 & Hqp2).
    rewrite Hq2 in Hq0. injection Hq0 as <-. rewrite Hq2. f_equal.
    apply (shuffles_inj c after q q2 o); [|done..]. by rewrite Hqp2, Hqp, Hbb.
Qed.

Lemma frame_messages sm ri : current sm = Some ri → frame sm ri (Messages ri) = sm.
Proof.
  intros Hc. unfold frame, set_current. destruct sm, ri. simpl. f_equal. by apply list_insert_id.
Qed.

Lemma frame_inv sm ri ms :
  sm_inv sm → current sm = Some ri → phase ri = ScramblePhase → sm_inv (frame sm ri ms).
Proof.
  intros Hi Hcur Hph. destruct (current_inv _ Hi) as (ri0 & Hc & Hri & Ha). rewrite Hcur in Hc. injection Hc as <-.
  apply set_current_inv; [done| |done]. destruct Hri as [He Hs Hd Hk Hh _ Hn Ho Hf].
  split; [done..|simpl; rewrite Hph; by intros [?|?]|done|exact Ho|].
  unfold phase_flags in *. simpl. rewrite Hph in *. exact Hf.
Qed.

(** C6: one honest participant is enough to hide the order.  From a state in the
    scramble phase the next participants take their turns, [before], [t] and
    [after]; all but [t] may be known completely, their keys and their draws.
    Compare the run from this state with the run from the state that holds the
    same messages in another order.  Provided that the layers that they add do not
    make two messages equal, every draw of [t] leads to a state of the machine
    that exactly one draw of [t] reaches from the other state.  With uniform draws
    of [t] the state after the turns is thus distributed in the same way whatever
    the order of the messages, that is whoever sent which. *)
Theorem one_honest_scrambler_hides_order (sm : StateMachine C) ri c before t after (ms' : list Msg) :
  sm_inv sm → Round sm < int_max → current sm = Some ri → phase ri = ScramblePhase → Crypto ri = Some c →
  map tu_Id (before ++ t :: after) `prefix_of` drop (numScrambled ri) (Participants ri) →
  NoDup (map (all_layers c (before ++ t :: after)) (Messages ri)) →
  ms' ≡ₚ Messages ri →
  ∀ d, ∃ sm1, scramble_turns (before ++ with_draws d t :: after) sm = Ret sm1 ∧
    exists! d', valid_draws (length (Messages ri) - 1) d' ∧
      scramble_turns (before ++ with_draws d' t :: after) (frame sm ri ms') = Ret sm1.
Proof.
  intros Hi Hlt Hcur Hph Hc Hpre Hnd Hp d. pose proof (inv_size _ Hi) as Hl.
  assert (∀ d' ms, ∃ o, shuffles c (before ++ with_draws d' t :: after) ms = Ret o ∧
    scramble_turns (before ++ with_draws d' t :: after) (frame sm ri ms) =
    Ret (frame sm (Nat.iter (length (before ++ t :: after)) next_info ri) o)) as Hrun.
  { intros d' ms. replace (length (before ++ t :: after)) with (length (before ++ with_draws d' t :: after))
      by (by rewrite !length_app).
    apply scramble_turns_frame; [by apply frame_inv|done..|]. rewrite map_app in Hpre |- *. exact Hpre. }
  destruct (Hrun d (Messages ri)) as (o & Ho & Hsm). rewrite frame_messages in Hsm by done.
  exists (frame sm (Nat.iter (length (before ++ t :: after)) next_info ri) o). split; [exact Hsm|].
  destruct (shuffles_hide c before (with_draws d t) after (Messages ri) ms' o Hp) as (d' & [Hv Hd] & Hu);
    [|exact Ho|].
  { erewrite map_ext; [exact Hnd|]. intros m. by rewrite !all_layers_app. }
  exists d'. split.
  - split; [exact Hv|]. destruct (Hrun d' ms') as (o' & Ho' & ->). change (with_draws d' (with_draws d t)) with (with_draws d' t) in Hd.
    congruence.
  - intros d2 [Hv2 H2]. apply Hu. split; [exact Hv2|]. change (with_draws d2 (with_draws d t)) with (with_draws d2 t).
    destruct (Hrun d2 ms') as (o2 & Ho2 & H2'). rewrite H2' in H2. injection H2 as Hfr.
    rewrite Ho2. f_equal. apply (f_equal (.!! slot (Round sm))) in Hfr.
    rewrite !list_lookup_insert_eq in Hfr by (rewrite Hl; apply slot_lt). by injection Hfr.
Qed.
End anonymity.

Import ProtocolWitness.
#[local] Existing Instance known_prime.

Lemma st8_inv : sm_inv st8.
Proof.
  destruct (@NewStateMachine_inv masseyOmuraCrypto false) as (sm & HN & Hi & _).
  vm_compute in HN. injection HN as <-.
  eapply (run_bound [JoinOp alice 0; JoinOp bob 0; StartOp alice 0 (Some crypto); do_submit bob 1 st3;
    do_submit alice 0 st3; do_encrypt bob 1 st5; do_encrypt alice 0 st6]); [exact Hi| |].
  - vm_compute. reflexivity.
  - by vm_compute.
Qed.

Definition turn_of (id : UUID) (d : list nat) : turn := mkTurn id (sk (who id)) (rk (who id)) d.

(** Two participants scramble the messages of the round of ProtocolWitness; alice
    is the honest one, and bob's draw is known. *)
Lemma one_honest_scrambler_hides_order_witness :
  ∃ sm1, scramble_turns [turn_of alice [0%nat]; turn_of bob [1%nat]] st8 = Ret sm1 ∧
    exists! d', valid_draws 1 d' ∧
      scramble_turns [turn_of alice d'; turn_of bob [1%nat]]
        (frame st8 (cur st8) (rev (Messages (cur st8)))) = Ret sm1.
Proof.
  apply (one_honest_scrambler_hides_order st8 (cur st8) crypto [] (turn_of alice []) [turn_of bob [1%nat]]
    (rev (Messages (cur st8)))) with (d := [0%nat]).
  - exact st8_inv.
  - by vm_compute.
  - by vm_compute.
  - by vm_compute.
  - by vm_compute.
  - by exists [].
  - apply (bool_decide_unpack _). by vm_compute.
  - symmetry. apply Permutation_rev.
Defined.
