(* ===== verification/Links.v ===== *)
(** * Links between the servers of the test harness

    Model of the part of src/anonbcast/config.go that connects and disconnects
    servers: [connectUnlocked], [disconnectUnlocked], [ConnectAll], [partition],
    [make_partition] and the connections of clients.  Server [i] reaches server
    [j] through its own client end number [j]; [endnames] holds the names of these
    ends, and nil for a server that was never started.  The network is the one of
    Network.v. *)

From stdpp Require Import strings gmap.
From S2P Require Import Prelude Network.

(** [cfg.endnames]; servers are numbered, so their network names are numbers. *)
Abbreviation endnames := (list (option (list string))) (only parsing).
Abbreviation net := (Network string nat) (only parsing).

(** [cfg.endnames[i][j]]; indexing a nil slice is out of range. *)
Definition end_name (names : endnames) (i j : nat) : outcome string :=
  row ← names.[i];
  match row with Some row => row.[j] | None => Panic IndexOutOfRange end.

(** Running the body of a loop for every element. *)
Fixpoint fold_outcome {A B} (f : A → B → outcome B) (l : list A) (b : B) : outcome B :=
  match l with
  | [] => Ret b
  | x :: l' => b ← f x b; fold_outcome f l' b
  end.

Section links.
Context (names : endnames).

(** [cfg.net.Enable(cfg.endnames[i][j], v)]. *)
Definition set_link (v : bool) (i j : nat) (rn : net) : outcome net :=
  endname ← end_name names i j; Ret (Enable endname v rn).

Definition connectUnlocked (i : nat) (to : list nat) (rn : net) : outcome net :=
  rn ← fold_outcome (fun j => set_link true i j) to rn;
  fold_outcome (fun j => set_link true j i) to rn.

(** The second loop of [disconnectUnlocked]: its guard tests the row at the
    position [j] in the list, not the row of the server [from[j]]. *)
Fixpoint disconnect_incoming (i j : nat) (from : list nat) (rn : net) : outcome net :=
  match from with
  | [] => Ret rn
  | k :: from' =>
      row ← names.[j];
      rn ← (if bool_decide (row ≠ None) then set_link false k i rn else Ret rn);
      disconnect_incoming i (S j) from' rn
  end.

Definition disconnectUnlocked (i : nat) (from : list nat) (rn : net) : outcome net :=
  rn ← fold_outcome (fun k rn =>
    row ← names.[i];
    if bool_decide (row ≠ None) then set_link false i k rn else Ret rn) from rn;
  disconnect_incoming i 0 from rn.

(** [cfg.All()] for [n] servers. *)
Definition All (n : nat) : list nat := seq 0 n.

Definition ConnectAll (n : nat) (rn : net) : outcome net :=
  fold_outcome (fun i => connectUnlocked i (All n)) (seq 0 n) rn.

Definition partition (p1 p2 : list nat) (rn : net) : outcome net :=
  rn ← fold_outcome (fun i rn => rn ← disconnectUnlocked i p2 rn; connectUnlocked i p1 rn) p1 rn;
  fold_outcome (fun i rn => rn ← disconnectUnlocked i p1 rn; connectUnlocked i p2 rn) p2 rn.

(** [ConnectClientUnlocked] and [DisconnectClientUnlocked], for the ends of one
    client. *)
Definition set_client_links (v : bool) (ends : list string) (js : list nat) (rn : net) : outcome net :=
  fold_outcome (fun j rn => s ← ends.[j]; Ret (Enable s v rn)) js rn.

(** ** The effect on the links *)

(** All servers have been started, and no two ends have the same name. *)
Record started (n : nat) : Prop := {
  st_name : ∀ i j, i < n → j < n → ∃ e, end_name names i j = Ret e;
  st_row : ∀ i, i < n → ∃ row, names !! i = Some (Some row);
  st_inj : ∀ i j i' j' e, end_name names i j = Ret e → end_name names i' j' = Ret e → i = i' ∧ j = j'
}.

(** The link from server [i] to server [j] is enabled. *)
Definition link (rn : net) (i j : nat) : bool :=
  match end_name names i j with Ret e => is_enabled rn e | Panic _ => false end.

(** [rn'] is [rn] with the links of [X] set to [v]. *)
Record relinked (X : nat → nat → Prop) (v : bool) (n : nat) (rn rn' : net) : Prop := {
  rl_in : ∀ i j, i < n → j < n → X i j → link rn' i j = v;
  rl_out : ∀ i j, i < n → j < n → ¬ X i j → link rn' i j = link rn i j
}.

Context (n : nat) (Hst : started n).

Lemma link_set_link v i j i' j' rn e :
  end_name names i j = Ret e → i' < n → j' < n →
  link (Enable e v rn) i' j' = if decide (i' = i ∧ j' = j) then v else link rn i' j'.
Proof.
  intros He Hi Hj. unfold link. destruct (st_name _ Hst i' j' Hi Hj) as [e' He']. rewrite He'.
  unfold is_enabled. simpl. case_decide as Heq.
  - destruct Heq as [-> ->]. assert (e' = e) as -> by congruence. by rewrite lookup_insert_eq.
  - rewrite lookup_insert_ne; [done|]. intros <-. apply Heq. eapply st_inj; eauto.
Qed.

(** Setting the links between [i] and the servers of a list, in one direction. *)
Lemma fold_set_links (v : bool) (pos : nat → nat * nat) js : ∀ rn,
  (∀ k, k ∈ js → fst (pos k) < n ∧ snd (pos k) < n) →
  ∃ rn', fold_outcome (fun k => set_link v (fst (pos k)) (snd (pos k))) js rn = Ret rn' ∧
    relinked (fun a b => ∃ k, k ∈ js ∧ pos k = (a, b)) v n rn rn'.
Proof.
  induction js as [|k js IH]; intros rn Hjs; simpl.
  { exists rn. split; [done|]. split; [set_solver|done]. }
  destruct (Hjs k) as [Hk1 Hk2]; [by left|].
  destruct (st_name _ Hst _ _ Hk1 Hk2) as [e He]. 
  assert (set_link v (pos k).1 (pos k).2 rn = Ret (Enable e v rn)) as -> by (unfold set_link; by rewrite He).
  simpl. destruct (IH (Enable e v rn)) as (rn' & -> & [Hin Hout]).
  { intros k' Hk'. apply Hjs. by right. }
  exists rn'. split; [done|].
  assert (∀ a b, Decision (∃ k, k ∈ js ∧ pos k = (a, b))) as Hdec.
  { intros a b. destruct (decide (Exists (fun k => pos k = (a, b)) js)) as [Hx|Hx].
    - left. by apply Exists_exists in Hx.
    - right. intros Hy. apply Hx. by apply Exists_exists. }
  split.
  - intros a b Ha Hb (k' & [-> |Hk']%elem_of_cons & Hp).
    + destruct (Hdec a b) as [Hx|Hx]; [by apply Hin|]. rewrite Hout by done.
      rewrite (link_set_link _ _ _ _ _ _ _ He) by done. rewrite decide_True; [done|].
      rewrite Hp. done.
    + apply Hin; eauto.
  - intros a b Ha Hb Hx. rewrite Hout; [|done..|set_solver].
    rewrite (link_set_link _ _ _ _ _ _ _ He) by done. rewrite decide_False; [done|].
    intros [-> ->]. apply Hx. exists k. split; [by left|]. by destruct (pos k).
Qed.

(** The links between [i] and the servers of [js], in both directions. *)
Definition between (i : nat) (js : list nat) (a b : nat) : Prop := a = i ∧ b ∈ js ∨ b = i ∧ a ∈ js.

Lemma relinked_both v i js rn rn1 rn2 :
  relinked (fun a b => ∃ k, k ∈ js ∧ (i, k) = (a, b)) v n rn rn1 →
  relinked (fun a b => ∃ k, k ∈ js ∧ (k, i) = (a, b)) v n rn1 rn2 →
  relinked (between i js) v n rn rn2.
Proof.
  intros [I1 O1] [I2 O2]. split.
  - intros a b Ha Hb Hx. destruct (decide (b = i ∧ a ∈ js)) as [[-> Hin]|Hn]; [apply I2; eauto|].
    destruct Hx as [[-> Hin]|?]; [|done]. rewrite O2; [apply I1; eauto|done..|]. naive_solver.
  - intros a b Ha Hb Hx. unfold between in Hx. rewrite O2, O1; [done|naive_solver..].
Qed.

Lemma connectUnlocked_links i to rn :
  i < n → Forall (fun j => j < n) to →
  ∃ rn', connectUnlocked i to rn = Ret rn' ∧ relinked (between i to) true n rn rn'.
Proof.
  intros Hi Hto. rewrite Forall_forall in Hto. unfold connectUnlocked.
  destruct (fold_set_links true (fun k => (i, k)) to rn) as (rn1 & H1 & R1); [naive_solver|].
  simpl in H1. rewrite H1. simpl.
  destruct (fold_set_links true (fun k => (k, i)) to rn1) as (rn2 & H2 & R2); [naive_solver|].
  simpl in H2. exists rn2. split; [done|]. by eapply relinked_both.
Qed.

Lemma disconnect_incoming_eq i from : ∀ j rn,
  Forall (fun k => k < n) from → j + length from ≤ n →
  disconnect_incoming i j from rn = fold_outcome (fun k => set_link false k i) from rn.
Proof.
  induction from as [|k from IH]; intros j rn Hf Hj; simpl in *; [done|].
  apply Forall_cons in Hf as [Hk Hf]. destruct (st_row _ Hst j) as [row Hrow]; [lia|].
  unfold slice_get. rewrite Hrow. simpl. rewrite ?bool_decide_true by done.
  destruct (set_link false k i rn); [|done]. simpl. apply IH; [done|lia].
Qed.

Lemma disconnectUnlocked_links i from rn :
  i < n → Forall (fun j => j < n) from → length from ≤ n →
  ∃ rn', disconnectUnlocked i from rn = Ret rn' ∧ relinked (between i from) false n rn rn'.
Proof.
  intros Hi Hfr Hlen. unfold disconnectUnlocked.
  assert (∀ l rn, fold_outcome (fun k rn => row ← names.[i];
      if bool_decide (row ≠ None) then set_link false i k rn else Ret rn) l rn =
    fold_outcome (fun k => set_link false i k) l rn) as Hout.
  { destruct (st_row _ Hst i Hi) as [row Hrow]. unfold slice_get. rewrite Hrow. simpl.
    induction l as [|k l IH]; intros rn0; simpl; [done|]. rewrite ?bool_decide_true by done.
    destruct (set_link false i k rn0); [|done]. simpl. apply IH. }
  rewrite Hout. rewrite Forall_forall in Hfr.
  destruct (fold_set_links false (fun k => (i, k)) from rn) as (rn1 & H1 & R1); [naive_solver|].
  simpl in H1. rewrite H1. simpl. rewrite disconnect_incoming_eq by (by rewrite ?Forall_forall).
  destruct (fold_set_links false (fun k => (k, i)) from rn1) as (rn2 & H2 & R2); [naive_solver|].
  simpl in H2. exists rn2. split; [done|]. by eapply relinked_both.
Qed.

(** ** Partitions *)

(** The links that the loop over [l] sets, where [l] is part of [side]. *)
Definition within (side l : list nat) (a b : nat) : Prop :=
  a ∈ side ∧ b ∈ side ∧ (a ∈ l ∨ b ∈ l).
Definition across (other l : list nat) (a b : nat) : Prop :=
  a ∈ l ∧ b ∈ other ∨ b ∈ l ∧ a ∈ other.

#[local] Instance within_dec side l a b : Decision (within side l a b).
Proof. unfold within. apply _. Defined.
#[local] Instance across_dec other l a b : Decision (across other l a b).
Proof. unfold across. apply _. Defined.

Definition sides_links (side other l : list nat) (rn rn' : net) : Prop :=
  ∀ a b, a < n → b < n → link rn' a b =
    if decide (within side l a b) then true
    else if decide (across other l a b) then false else link rn a b.

(** One iteration of a loop of [partition]. *)
Lemma partition_body_links side other i rn :
  (∀ x, x ∈ side → x ∉ other) → i ∈ side →
  Forall (fun j => j < n) side → Forall (fun j => j < n) other → length other ≤ n →
  ∃ rn1 rn2, disconnectUnlocked i other rn = Ret rn1 ∧ connectUnlocked i side rn1 = Ret rn2 ∧
    sides_links side other [i] rn rn2.
Proof.
  intros Hdis Hi Hs Ho Hlen. assert (i < n) as Hin by (rewrite Forall_forall in Hs; auto).
  destruct (disconnectUnlocked_links i other rn Hin Ho Hlen) as (rn1 & H1 & [I1 O1]).
  destruct (connectUnlocked_links i side rn1 Hin Hs) as (rn2 & H2 & [I2 O2]).
  exists rn1, rn2. split_and!; [done..|]. intros a b Ha Hb.
  destruct (decide (within side [i] a b)) as [Hw|Hw].
  { apply I2; [done..|]. unfold within, between in *. set_solver. }
  rewrite O2; [|done..|unfold within, between in *; set_solver].
  destruct (decide (across other [i] a b)) as [Hx|Hx].
  - apply I1; [done..|]. unfold across, between in *. set_solver.
  - apply O1; [done..|]. unfold across, between in *. set_solver.
Qed.

Lemma partition_side side other l : ∀ rn,
  (∀ x, x ∈ side → x ∉ other) → l ⊆ side →
  Forall (fun j => j < n) side → Forall (fun j => j < n) other → length other ≤ n →
  ∃ rn', fold_outcome (fun i rn => rn ← disconnectUnlocked i other rn;
      connectUnlocked i side rn) l rn = Ret rn' ∧ sides_links side other l rn rn'.
Proof.
  induction l as [|i l IH]; intros rn Hdis Hl Hs Ho Hlen; simpl.
  { exists rn. split; [done|]. intros a b _ _.
    rewrite !decide_False; [done|unfold across; set_solver|unfold within; set_solver]. }
  destruct (partition_body_links side other i rn) as (rn1 & rn2 & -> & H2 & Hb); [set_solver..|done|done|done|].
  simpl. rewrite H2. simpl. destruct (IH rn2) as (rn' & -> & Hr); [set_solver..|done|done|done|].
  exists rn'. split; [done|]. intros a b Ha Hb'. rewrite Hr, Hb by done.
  destruct (decide (within side l a b)) as [W|W]; [rewrite decide_True by (unfold within in *; set_solver); done|].
  destruct (decide (across other l a b)) as [X|X].
  - rewrite decide_False by (unfold within, across in *; set_solver).
    by rewrite decide_True by (unfold across in *; set_solver).
  - destruct (decide (within side [i] a b)) as [W'|W'];
      [rewrite decide_True by (unfold within in *; set_solver); done|].
    rewrite (decide_False (P := within side (i :: l) a b)) by (unfold within in *; set_solver).
    destruct (decide (across other [i] a b)) as [X'|X'].
    + by rewrite decide_True by (unfold across in *; set_solver).
    + by rewrite decide_False by (unfold across in *; set_solver).
Qed.

(** [partition] cuts exactly the links between the two sides.  For disjoint
    groups of started servers it does not panic; afterwards two servers of the
    same group can reach each other, servers of different groups cannot, in either
    direction, and links to servers of neither group are as before. *)
Theorem partition_separates (p1 p2 : list nat) (rn : net) :
  (∀ x, x ∈ p1 → x ∉ p2) → Forall (fun j => j < n) (p1 ++ p2) → NoDup p1 → NoDup p2 →
  ∃ rn', partition p1 p2 rn = Ret rn' ∧ ∀ a b, a < n → b < n →
    link rn' a b =
      if decide (a ∈ p1 ∧ b ∈ p1 ∨ a ∈ p2 ∧ b ∈ p2) then true
      else if decide (a ∈ p1 ∧ b ∈ p2 ∨ a ∈ p2 ∧ b ∈ p1) then false
      else link rn a b.
Proof.
  intros Hdis [Hp1 Hp2]%Forall_app Hnd1 Hnd2.
  assert (∀ p, NoDup p → Forall (fun j => j < n) p → length p ≤ n) as Hlen.
  { intros p Hnd Hp. rewrite <- (length_seq n 0). apply submseteq_length.
    apply NoDup_submseteq; [done|]. intros x Hx. rewrite Forall_forall in Hp. apply elem_of_seq. split; [lia|auto]. }
  unfold partition.
  destruct (partition_side p1 p2 p1 rn) as (rn1 & -> & H1); [done|done|done|done|auto|]. simpl.
  destruct (partition_side p2 p1 p2 rn1) as (rn2 & -> & H2); [set_solver|done|done|done|auto|].
  exists rn2. split; [done|]. intros a b Ha Hb. rewrite H2, H1 by done. unfold within, across.
  pose proof (Hdis a). pose proof (Hdis b). repeat case_decide; first [done | exfalso; tauto].
Qed.

(** After [ConnectAll] every server reaches every server. *)
Lemma ConnectAll_links rn :
  ∃ rn', ConnectAll n rn = Ret rn' ∧ ∀ a b, a < n → b < n → link rn' a b = true.
Proof.
  assert (∀ l rn, Forall (fun j => j < n) l →
    ∃ rn', fold_outcome (fun i => connectUnlocked i (All n)) l rn = Ret rn' ∧
      ∀ a b, a < n → b < n → a ∈ l ∨ link rn a b = true → link rn' a b = true) as Hf.
  { induction l as [|i l IH]; intros rn0 Hl; simpl; [exists rn0; split; [done|]; set_solver|].
    apply Forall_cons in Hl as [Hi Hl].
    destruct (connectUnlocked_links i (All n) rn0 Hi) as (rn1 & -> & [I1 O1]).
    { apply Forall_forall. intros x Hx%elem_of_seq. lia. }
    simpl. destruct (IH rn1 Hl) as (rn' & -> & Hr). exists rn'. split; [done|].
    intros a b Ha Hb Hx. apply Hr; [done..|].
    assert (between i (All n) a b ∨ ¬ between i (All n) a b) as [Hbt|Hbt].
    { unfold between. destruct (decide (a = i ∧ b ∈ All n ∨ b = i ∧ a ∈ All n)); eauto. }
    - right. by apply I1.
    - destruct Hx as [[-> |Hin]%elem_of_cons|Hlk]; [|by left|right; by rewrite O1].
      exfalso. apply Hbt. left. split; [done|]. apply elem_of_seq. lia. }
  destruct (Hf (seq 0 n) rn) as (rn' & Hr & Hl).
  { apply Forall_forall. intros x Hx%elem_of_seq. lia. }
  exists rn'. split; [exact Hr|]. intros a b Ha Hb. apply Hl; [done..|]. left. apply elem_of_seq. lia.
Qed.

End links.

(** ** Choosing a partition *)

(** The loop of [make_partition] over the servers [srvs], with its counter [j]. *)
Fixpoint fill (l : nat) (srvs : list nat) (j : nat) (p1 p2 : list nat) : outcome (list nat * list nat) :=
  match srvs with
  | [] => Ret (p1, p2)
  | i :: srvs' =>
      if bool_decide (i ≠ l) then
        if bool_decide (j < length p1)
        then p1 ← p1.[j <- i]; fill l srvs' (S j) p1 p2
        else p2 ← p2.[j - length p1 <- i]; fill l srvs' (S j) p1 p2
      else fill l srvs' j p1 p2
  end.

(** [make_partition] for [n] servers, where [l] is what [Leader] returned. *)
Definition make_partition (n l : nat) : outcome (list nat * list nat) :=
  '(p1, p2) ← fill l (seq 0 n) 0 (replicate (n / 2 + 1) 0) (replicate (n / 2) 0);
  if bool_decide (length p2 = 0) then Panic IndexOutOfRange else
  p2 ← p2.[length p2 - 1 <- l];
  Ret (p1, p2).

(** The loop writes the other servers one after the other into both slices. *)
Lemma fill_spec l srvs : ∀ j p1 p2,
  j + length (filter (.≠ l) srvs) ≤ length p1 + length p2 →
  ∃ q1 q2, fill l srvs j p1 p2 = Ret (q1, q2) ∧ length q1 = length p1 ∧ length q2 = length p2 ∧
    q1 ++ q2 = take j (p1 ++ p2) ++ filter (.≠ l) srvs ++ drop (j + length (filter (.≠ l) srvs)) (p1 ++ p2).
Proof.
  induction srvs as [|i srvs IH]; intros j p1 p2 Hj; cbn [fill].
  { exists p1, p2. split_and!; [done..|]. simpl. by rewrite Nat.add_0_r, take_drop. }
  case_bool_decide as Hi.
  2: { rewrite filter_cons_False in Hj |- * by (simpl; tauto). by apply IH. }
  rewrite filter_cons_True in Hj |- * by exact Hi. simpl in Hj. assert (∃ r1 r2, (if bool_decide (j < length p1)
      then p1 ← p1.[j <- i]; fill l srvs (S j) p1 p2
      else p2 ← p2.[j - length p1 <- i]; fill l srvs (S j) p1 p2) = fill l srvs (S j) r1 r2 ∧
      length r1 = length p1 ∧ length r2 = length p2 ∧ r1 ++ r2 = <[j := i]> (p1 ++ p2)) as Hw.
  { case_bool_decide.
    - rewrite slice_set_ret by done. exists (<[j := i]> p1), p2. rewrite length_insert.
      split_and!; [done..|]. by rewrite insert_app_l.
    - rewrite slice_set_ret by lia. exists p1, (<[j - length p1 := i]> p2). rewrite length_insert.
      split_and!; [done..|]. by rewrite insert_app_r_alt by lia. }
  destruct Hw as (r1 & r2 & -> & Hl1 & Hl2 & Hr). destruct (IH (S j) r1 r2) as (q1 & q2 & -> & Hq1 & Hq2 & Hq); [lia|].
  exists q1, q2. split_and!; [done|lia..|]. rewrite Hq, Hr. clear Hq Hr IH.
  assert (j < length (p1 ++ p2)) as Hlt by (rewrite length_app; lia).
  rewrite (take_S_r _ _ i) by (by rewrite list_lookup_insert_eq).
  rewrite take_insert_ge by lia. rewrite drop_insert_lt by lia. rewrite <- app_assoc. simpl.
  by rewrite Nat.add_succ_r.
Qed.

Lemma filter_ne_seq n l : l < n → filter (.≠ l) (seq 0 n) ++ [l] ≡ₚ seq 0 n.
Proof.
  intros Hl. apply NoDup_Permutation.
  - apply NoDup_app. split_and!; [apply NoDup_filter, NoDup_seq| |apply NoDup_singleton].
    intros x [Hx _]%list_elem_of_filter. set_solver.
  - apply NoDup_seq.
  - intros x. rewrite elem_of_app, list_elem_of_filter, elem_of_seq, list_elem_of_singleton.
    destruct (decide (x = l)); naive_solver lia.
Qed.

(** [make_partition] puts the leader into the minority.  For every number of
    servers above 1 and every leader it returns two groups, the larger one first,
    with the leader in the smaller.  If the number of servers is odd, every server
    is in exactly one group; if it is even, server 0 is listed a second time. *)
Theorem make_partition_splits n l :
  2 ≤ n → l < n →
  ∃ p1 p2, make_partition n l = Ret (p1, p2) ∧ length p1 = n / 2 + 1 ∧ length p2 = n / 2 ∧ l ∈ p2 ∧
    p1 ++ p2 ≡ₚ (if Nat.odd n then seq 0 n else 0 :: seq 0 n).
Proof.
  intros Hn Hl. pose proof (filter_ne_seq n l Hl) as Hperm.
  assert (length (filter (.≠ l) (seq 0 n)) = n - 1) as Hlen.
  { apply Permutation_length in Hperm. rewrite length_app, length_seq in Hperm. simpl in Hperm. lia. }
  pose proof (Nat.div_mod n 2 ltac:(lia)) as Hdm. pose proof (Nat.mod_upper_bound n 2 ltac:(lia)) as Hmod.
  assert (1 ≤ n / 2) as Hhalf by lia.
  destruct (fill_spec l (seq 0 n) 0 (replicate (n / 2 + 1) 0) (replicate (n / 2) 0)) as (q1 & q2 & Hf & Hl1 & Hl2 & Hq).
  { rewrite !length_replicate, Hlen. lia. }
  rewrite length_replicate in Hl1, Hl2. unfold make_partition. rewrite Hf. cbn [mbind outcome_bind].
  rewrite bool_decide_false by lia. rewrite slice_set_ret by lia. cbn [mbind outcome_bind].
  exists q1, (<[length q2 - 1 := l]> q2). rewrite length_insert. split_and!; [done..| |].
  { apply list_elem_of_insert. lia. }
  rewrite <- insert_app_r, Hq, take_0, app_nil_l, Nat.add_0_l, <- replicate_add, drop_replicate, Hlen, Hl1, Hl2.
  rewrite insert_app_r_alt by (rewrite Hlen; lia). rewrite Hlen.
  destruct (Nat.odd n) eqn:Hodd.
  - apply Nat.odd_spec in Hodd as [k Hk].
    replace (n / 2 + 1 + n / 2 - (n - 1)) with 1 by lia.
    by replace (n / 2 + 1 + (n / 2 - 1) - (n - 1)) with 0 by lia.
  - rewrite <- Nat.negb_even in Hodd. apply negb_false_iff, Nat.even_spec in Hodd as [k Hk].
    replace (n / 2 + 1 + n / 2 - (n - 1)) with 2 by lia.
    replace (n / 2 + 1 + (n / 2 - 1) - (n - 1)) with 1 by lia. simpl.
    etransitivity; [|exact (perm_skip 0 Hperm)]. symmetry. apply Permutation_middle.
Qed.

Lemma make_partition_splits_witness :
  ∃ p1 p2, make_partition 5 3 = Ret (p1, p2) ∧ 3 ∈ p2 ∧ p1 ++ p2 ≡ₚ seq 0 5.
Proof.
  destruct (make_partition_splits 5 3) as (p1 & p2 & Hm & _ & _ & Hin & Hp); [lia..|]. eauto.
Defined.

(** With four servers, of which the last is the leader, server 0 is on both sides. *)
Lemma even_partition_overlaps : make_partition 4 3 = Ret ([0; 1; 2], [0; 3]).
Proof. done. Qed.

Lemma make_partition_small n l : n ≤ 1 → l ≤ n → make_partition n l = Panic IndexOutOfRange.
Proof. intros Hn Hl. destruct n as [|[|n]]; [done| |lia]. destruct l as [|[|l]]; [done|done|lia]. Qed.

(** ** A concrete network *)

(** Servers 0, 1 and 2, whose ends have distinct names. *)
Definition demo_names : endnames :=
  [Some ["a0"; "a1"; "a2"]; Some ["b0"; "b1"; "b2"]; Some ["c0"; "c1"; "c2"]].

Lemma demo_started : started demo_names 3.
Proof.
  split.
  - intros i j Hi Hj. destruct i as [|[|[|i]]]; [..|lia]; (destruct j as [|[|[|j]]]; [..|lia]); by eexists.
  - intros i Hi. destruct i as [|[|[|i]]]; [..|lia]; by eexists.
  - intros i j i' j' e He He'.
    destruct i as [|[|[|i]]]; try done; (destruct j as [|[|[|j]]]; try done);
    (destruct i' as [|[|[|i']]]; try done); (destruct j' as [|[|[|j']]]; try done); cbv in He, He'; congruence.
Qed.

Lemma partition_separates_witness :
  ∃ rn', partition demo_names [0; 2] [1] MakeNetwork = Ret rn' ∧
    link demo_names rn' 0 2 = true ∧ link demo_names rn' 0 1 = false.
Proof.
  destruct (partition_separates demo_names 3 demo_started [0; 2] [1] MakeNetwork) as (rn' & Hp & Hl).
  - set_solver.
  - repeat constructor; lia.
  - repeat constructor; set_solver.
  - repeat constructor; set_solver.
  - exists rn'. split; [exact Hp|]. rewrite !Hl by lia. by vm_compute.
Defined.

(** The guard of the second loop of [disconnectUnlocked] looks at the wrong row:
    when server 0 was never started, disconnecting server 1 from server 2 leaves
    the link from 2 to 1 enabled. *)
Lemma disconnect_guard_wrong_row :
  let names := [None; Some ["b0"; "b1"; "b2"]; Some ["c0"; "c1"; "c2"]] in
  let rn := Enable "c1" true MakeNetwork in
  ∃ rn', disconnectUnlocked names 1 [2] rn = Ret rn' ∧ link names rn' 2 1 = true.
Proof. eexists. split; [reflexivity|]. by vm_compute. Qed.
