(* ===== verification/Base64.v ===== *)
(** * Random names

    [randstring] of src/anonbcast/config.go, which names the ends of the test
    network: the first characters of the URL-safe base64 encoding of random
    bytes.  base64.URLEncoding of the standard library is modelled on byte
    lists.  The names are distinct exactly when the bytes they are made of are,
    which discharges the hypothesis of the harness that names do not repeat. *)

From stdpp Require Import strings.
From Stdlib Require Import Ascii Strings.Byte.
From S2P Require Import Prelude Bytes GoString.
Local Open Scope string_scope.
Local Open Scope Z_scope.

(** ** base64.URLEncoding *)

Definition encodeURL : string := "ABCDEFGHIJKLMNOPQRSTUVWXYZabcdefghijklmnopqrstuvwxyz0123456789-_".

(** [enc.encode[v&0x3F]]. *)
Definition char64 (v : Z) : ascii := default "="%char (String.get (Z.to_nat (Z.land v 63)) encodeURL).

(** [EncodeToString]: three bytes become four characters; the rest is padded. *)
Fixpoint EncodeToString (src : list byte) : string :=
  match src with
  | b0 :: b1 :: b2 :: src' =>
      let val := Z.lor (Z.lor (Z.shiftl (b2z b0) 16) (Z.shiftl (b2z b1) 8)) (b2z b2) in
      String (char64 (Z.shiftr val 18)) (String (char64 (Z.shiftr val 12))
        (String (char64 (Z.shiftr val 6)) (String (char64 val) (EncodeToString src'))))
  | [b0; b1] =>
      let val := Z.lor (Z.shiftl (b2z b0) 16) (Z.shiftl (b2z b1) 8) in
      String (char64 (Z.shiftr val 18)) (String (char64 (Z.shiftr val 12))
        (String (char64 (Z.shiftr val 6)) "="))
  | [b0] =>
      let val := Z.shiftl (b2z b0) 16 in
      String (char64 (Z.shiftr val 18)) (String (char64 (Z.shiftr val 12)) "==")
  | [] => ""
  end.

(** [b] are the bytes read from crypto/rand, twice as many as characters. *)
Definition randstring (n : Z) (b : list byte) : outcome string :=
  str_slice (EncodeToString b) 0 n.

(** [makeSeed]: [rand.Int] below 2^62, whose value fits an int64. *)
Definition makeSeed (draw : Z) : Z := wrap64 (draw mod 2 ^ 62).

(** ** Decoding *)

Fixpoint index_of (c : ascii) (s : string) : option Z :=
  match s with
  | "" => None
  | String a s' => if bool_decide (a = c) then Some 0 else Z.succ <$> index_of c s'
  end.
Definition value64 (c : ascii) : option Z := index_of c encodeURL.

Fixpoint Decode (s : string) : option (list byte) :=
  match s with
  | "" => Some []
  | String c0 (String c1 (String c2 (String c3 s'))) =>
      v0 ← value64 c0; v1 ← value64 c1;
      match value64 c2, value64 c3 with
      | Some v2, Some v3 =>
          rest ← Decode s';
          Some (z2b (v0 * 4 + v1 / 16) :: z2b (v1 * 16 + v2 / 4) :: z2b (v2 * 64 + v3) :: rest)
      | Some v2, None => if bool_decide (s' = "") then Some [z2b (v0 * 4 + v1 / 16); z2b (v1 * 16 + v2 / 4)] else None
      | None, _ => if bool_decide (s' = "") then Some [z2b (v0 * 4 + v1 / 16)] else None
      end
  | _ => None
  end.

Lemma value64_char64 v : value64 (char64 v) = Some (v mod 64).
Proof.
  unfold char64. change 63 with (Z.ones 6). rewrite Z.land_ones by lia. change (2 ^ 6) with 64.
  pose proof (Z.mod_pos_bound v 64 ltac:(lia)) as Hv. generalize dependent (v mod 64). clear v. intros v Hv.
  assert (Forall (fun v => value64 (default "="%char (String.get (Z.to_nat v) encodeURL)) = Some v)
    (seqZ 0 64)) as Hall by (apply (bool_decide_unpack _); by vm_compute).
  rewrite Forall_forall in Hall. apply Hall, elem_of_seqZ. lia.
Qed.

Lemma lor_shift a b k : 0 ≤ k → 0 ≤ b < 2 ^ k → Z.lor (Z.shiftl a k) b = a * 2 ^ k + b.
Proof.
  intros Hk Hb. rewrite <- Z.add_nocarry_lor; [by rewrite Z.shiftl_mul_pow2|].
  apply Z.bits_inj'. intros i Hi. rewrite Z.land_spec, Z.bits_0.
  destruct (decide (i < k)) as [Hlt|Hge]; [by rewrite Z.shiftl_spec_low|].
  destruct (decide (b = 0)) as [->|]; [by rewrite Z.bits_0, andb_false_r|].
  rewrite (Z.bits_above_log2 b i), andb_false_r; [done|lia|].
  apply Z.log2_lt_pow2; [lia|]. apply Z.lt_le_trans with (2 ^ k); [lia|]. apply Z.pow_le_mono_r; lia.
Qed.

Lemma val2 b0 b1 : Z.lor (Z.shiftl (b2z b0) 16) (Z.shiftl (b2z b1) 8) = b2z b0 * 65536 + b2z b1 * 256.
Proof.
  pose proof (b2z_range b1). rewrite lor_shift by (rewrite ?Z.shiftl_mul_pow2; lia).
  by rewrite Z.shiftl_mul_pow2 by lia.
Qed.

Lemma val3 b0 b1 b2 :
  Z.lor (Z.lor (Z.shiftl (b2z b0) 16) (Z.shiftl (b2z b1) 8)) (b2z b2) =
  b2z b0 * 65536 + b2z b1 * 256 + b2z b2.
Proof.
  pose proof (b2z_range b2). rewrite val2.
  replace (b2z b0 * 65536 + b2z b1 * 256) with (Z.shiftl (b2z b0 * 256 + b2z b1) 8)
    by (rewrite Z.shiftl_mul_pow2; lia).
  rewrite lor_shift, Z.shiftl_mul_pow2; lia.
Qed.

Lemma z2b_eq z b : z mod 256 = b2z b → z2b z = b.
Proof. intros Hz. apply b2z_inj. by rewrite b2z_z2b. Qed.

Lemma three_ind {A} (P : list A → Prop) :
  P [] → (∀ a, P [a]) → (∀ a b, P [a; b]) → (∀ a b d l, P l → P (a :: b :: d :: l)) → ∀ l, P l.
Proof.
  intros H0 H1 H2 H3 l. induction l as [l IH] using (well_founded_induction (Wf_nat.well_founded_ltof _ length)).
  destruct l as [|a [|b [|d l]]]; auto. apply H3, IH. unfold Wf_nat.ltof. simpl. lia.
Qed.

Lemma value64_pad : value64 "="%char = None.
Proof. done. Qed.

(** Decoding inverts encoding. *)
Lemma Decode_EncodeToString b : Decode (EncodeToString b) = Some b.
Proof.
  induction b as [|b0|b0 b1|b0 b1 b2 b IH] using three_ind; [done|..]; cbn [EncodeToString Decode];
    rewrite ?val3, ?val2, !Z.shiftr_div_pow2, !value64_char64, ?value64_pad by lia; cbn [mbind option_bind];
    rewrite ?IH; cbn [mbind option_bind]; rewrite ?bool_decide_true by done; repeat f_equal;
    apply z2b_eq; change (2 ^ 18) with 262144; change (2 ^ 12) with 4096; change (2 ^ 6) with 64;
    rewrite ?Z.shiftl_mul_pow2 by lia; change (2 ^ 16) with 65536;
    pose proof (b2z_range b0); try pose proof (b2z_range b1); try pose proof (b2z_range b2);
    Z.div_mod_to_equations; lia.
Qed.

Lemma EncodeToString_inj b b' : EncodeToString b = EncodeToString b' → b = b'.
Proof.
  intros E. pose proof (Decode_EncodeToString b) as E1. rewrite E, Decode_EncodeToString in E1. congruence.
Qed.

Lemma EncodeToString_length b : String.length (EncodeToString b) = (4 * ((length b + 2) / 3))%nat.
Proof.
  induction b as [|b0|b0 b1|b0 b1 b2 b IH] using three_ind; [done..|]. cbn [EncodeToString String.length length].
  rewrite IH. replace (S (S (S (length b))) + 2)%nat with (length b + 2 + 1 * 3)%nat by lia.
  rewrite Nat.div_add by lia. lia.
Qed.

(** Four characters encode three bytes. *)
Lemma substring_groups k : ∀ b, (3 * k ≤ length b)%nat →
  String.substring 0 (4 * k) (EncodeToString b) = EncodeToString (take (3 * k) b).
Proof.
  induction k as [|k IH]; intros b Hb; [by destruct (EncodeToString b)|].
  destruct b as [|b0 [|b1 [|b2 b]]]; simpl in Hb; try lia.
  replace (4 * S k)%nat with (S (S (S (S (4 * k))))) by lia.
  replace (3 * S k)%nat with (S (S (S (3 * k)))) by lia. cbn [take EncodeToString String.substring].
  by rewrite IH by lia.
Qed.

Fixpoint all_chars (P : ascii → Prop) (s : string) : Prop :=
  match s with "" => True | String a s' => P a ∧ all_chars P s' end.

(** Whole groups are not padded. *)
Lemma EncodeToString_alphabet k : ∀ b, length b = (3 * k)%nat →
  all_chars (fun a => is_Some (value64 a)) (EncodeToString b).
Proof.
  induction k as [|k IH]; intros b Hb; destruct b as [|b0 [|b1 [|b2 b]]]; simpl in Hb; try lia; [done|].
  cbn [EncodeToString all_chars]. rewrite !value64_char64. split_and!; eauto. apply IH. lia.
Qed.

(** What names consist of. *)
Lemma randstring_spec k b : length b = (8 * k)%nat →
  randstring (4 * Z.of_nat k) b = Ret (EncodeToString (take (3 * k) b)).
Proof.
  intros Hb. unfold randstring, str_slice, slen.
  assert (4 * Z.of_nat k ≤ Z.of_nat (String.length (EncodeToString b))) as Hl.
  { rewrite EncodeToString_length, Hb. pose proof (Nat.div_mod_eq (8 * k + 2) 3).
    pose proof (Nat.mod_upper_bound (8 * k + 2) 3). lia. }
  rewrite !(proj2 (Z.leb_le _ _)) by lia. cbn [andb]. f_equal.
  replace (Z.to_nat (4 * Z.of_nat k - 0)) with (4 * k)%nat by lia. apply substring_groups. lia.
Qed.

(** The name of an end of the network: [randstring(20)]. *)
Definition name20 (b : list byte) : string := match randstring 20 b with Ret s => s | Panic _ => "" end.

(** Base64 names: [randstring] never panics on the bytes that it draws, the name
    of length 4k has 4k characters of the alphabet, and two names are equal
    exactly when the first 3k of their 8k random bytes are. *)
Theorem randstring_injective k b b' :
  length b = (8 * k)%nat → length b' = (8 * k)%nat →
  ∃ s s', randstring (4 * Z.of_nat k) b = Ret s ∧ randstring (4 * Z.of_nat k) b' = Ret s' ∧
    String.length s = (4 * k)%nat ∧ all_chars (fun a => is_Some (value64 a)) s ∧
    (s = s' ↔ take (3 * k) b = take (3 * k) b').
Proof.
  intros Hb Hb'. eexists _, _. rewrite !randstring_spec by done. split_and!; try done.
  - rewrite EncodeToString_length, length_take, Nat.min_l by lia.
    replace (3 * k + 2)%nat with (2 + k * 3)%nat by lia. rewrite Nat.div_add by lia. simpl. lia.
  - apply (EncodeToString_alphabet k). rewrite length_take. lia.
  - split; [apply EncodeToString_inj|by intros ->].
Qed.

Lemma end_name_inj (draws : nat → list byte) :
  (∀ k, length (draws k) = 40%nat) → Inj (=) (=) (fun k => take 15 (draws k)) →
  Inj (=) (=) (fun k => name20 (draws k)).
Proof.
  intros Hl Hinj i j. unfold name20. rewrite !(randstring_spec 5) by apply Hl.
  intros E%EncodeToString_inj. by apply Hinj.
Qed.

Lemma makeSeed_range draw : 0 ≤ makeSeed draw < 2 ^ 62.
Proof.
  unfold makeSeed. pose proof (Z.mod_pos_bound draw (2 ^ 62)). rewrite wrap64_id; [lia|].
  unfold int_min, int_max. lia.
Qed.

(** ** Examples *)

Example encode_man : EncodeToString (map z2b [77; 97; 110]) = "TWFu".
Proof. reflexivity. Qed.
Example encode_url : EncodeToString (map z2b [251; 255]) = "-_8=".
Proof. reflexivity. Qed.
Example encode_one : EncodeToString (map z2b [77]) = "TQ==".
Proof. reflexivity. Qed.

Lemma randstring_injective_witness :
  ∃ s s', randstring 4 (map z2b [1; 2; 3; 4; 5; 6; 7; 8]) = Ret s ∧
    randstring 4 (map z2b [1; 2; 9; 4; 5; 6; 7; 8]) = Ret s' ∧ s ≠ s'.
Proof.
  destruct (randstring_injective 1 (map z2b [1; 2; 3; 4; 5; 6; 7; 8]) (map z2b [1; 2; 9; 4; 5; 6; 7; 8])
    eq_refl eq_refl) as (s & s' & E & E' & _ & _ & Hs).
  exists s, s'. split_and!; [exact E|exact E'|]. rewrite Hs. by vm_compute.
Defined.
