(* ===== verification/Harness.v ===== *)
(** * The test harness

    Model of src/anonbcast/config.go: a cluster of servers and clients on the
    simulated network, with the operations that the tests use to start, stop and
    connect them.  The links are those of Links.v, the network the one of
    Network.v, and the persisters those of Persister.v.  Random end names are a
    parameter: [randstring k] is the k-th name drawn; identifiers and messagers of
    clients are arguments. *)

From stdpp Require Import strings gmap.
From Stdlib Require Import Strings.Byte.
From S2P Require Import Prelude GoString Bytes Op Client Network ConnectionProvider Links.
From S2P Require Persister.
Local Open Scope nat_scope.

(** [random_handles]: position [i] is exchanged with a drawn position not above it. *)
Fixpoint handles_from {A} (i k : nat) (draws : list nat) (sa : list A) : outcome (list A) :=
  match k with
  | O => Ret sa
  | S k' => sa ← swap sa i (hd 0 draws mod S i); handles_from (S i) k' (tail draws) sa
  end.

Definition random_handles {A} (draws : list nat) (kvh : list A) : outcome (list A) :=
  let sa := go_copy kvh kvh in handles_from 0 (length sa) draws sa.

Section harness.
Context (randstring : nat → string).

(** A [*Server], [*labrpc.Server] and [*Client] is a number; [next] is the next
    unused one, [drawn] the number of names drawn so far.  nil is [None]. *)
Record config := mkConfig {
  n : nat;
  net : Network string nat;
  servers : list (option nat);
  saved : list (option nat);
  persisters : Persister.world;
  endnames : list (option (list string));
  clients : gmap nat (list string);
  client_Id : gmap nat UUID;
  providers : gmap nat (LabrpcConnectionProvider string);
  orderedClientIds : list UUID;
  orderedMessagers : list (option string);
  killed : gset nat;
  next : nat;
  drawn : nat
}.

Definition set_net (rn : Network string nat) (cfg : config) : config :=
  mkConfig (n cfg) rn (servers cfg) (saved cfg) (persisters cfg) (endnames cfg) (clients cfg)
    (client_Id cfg) (providers cfg) (orderedClientIds cfg) (orderedMessagers cfg) (killed cfg)
    (next cfg) (drawn cfg).

Definition set_saved (ps : list (option nat)) (pw : Persister.world) (cfg : config) : config :=
  mkConfig (n cfg) (net cfg) (servers cfg) ps pw (endnames cfg) (clients cfg)
    (client_Id cfg) (providers cfg) (orderedClientIds cfg) (orderedMessagers cfg) (killed cfg)
    (next cfg) (drawn cfg).

Definition set_servers (ss : list (option nat)) (ks : gset nat) (cfg : config) : config :=
  mkConfig (n cfg) (net cfg) ss (saved cfg) (persisters cfg) (endnames cfg) (clients cfg)
    (client_Id cfg) (providers cfg) (orderedClientIds cfg) (orderedMessagers cfg) ks
    (next cfg) (drawn cfg).

(** ** Connections *)

Definition on_links (f : list (option (list string)) → Network string nat → outcome (Network string nat))
    (cfg : config) : outcome config :=
  rn ← f (endnames cfg) (net cfg); Ret (set_net rn cfg).

Definition connect (i : nat) (to : list nat) : config → outcome config :=
  on_links (fun names => connectUnlocked names i to).
Definition disconnect (i : nat) (from : list nat) : config → outcome config :=
  on_links (fun names => disconnectUnlocked names i from).
Definition connect_all (cfg : config) : outcome config :=
  on_links (fun names => ConnectAll names (n cfg)) cfg.
Definition partition_servers (p1 p2 : list nat) : config → outcome config :=
  on_links (fun names => partition names p1 p2).

(** A client that is not in the map has a nil slice of names. *)
Definition set_client (v : bool) (cl : nat) (js : list nat) (cfg : config) : outcome config :=
  rn ← set_client_links v (default [] (clients cfg !! cl)) js (net cfg); Ret (set_net rn cfg).

Definition ConnectClient (cl : nat) (to : list nat) : config → outcome config := set_client true cl to.
Definition DisconnectClient (cl : nat) (from : list nat) : config → outcome config :=
  set_client false cl from.

(** ** Clients *)

(** The loop that draws a name for every server, makes the end and connects it. *)
Fixpoint make_ends (k : nat) (js : list nat) (rn : Network string nat) : outcome (Network string nat) :=
  match js with
  | [] => Ret rn
  | j :: js' =>
      rn ← MakeEnd (randstring k) rn;
      make_ends (S k) js' (Connect (randstring k) j rn)
  end.

Definition fresh_names (cfg : config) : list string := randstring <$> seq (drawn cfg) (n cfg).

(** [makeClient]; [id] is the identifier that [NewClient] generates, [draws] are
    the draws of [random_handles].  [NewClient] subscribes at the local server,
    which is nil after [ShutdownServer]. *)
Definition makeClient (id : UUID) (draws : list nat) (localSrv : nat) (to : list nat) (cfg : config)
    : outcome (nat * config) :=
  let names := fresh_names cfg in
  rn ← make_ends (drawn cfg) (seq 0 (n cfg)) (net cfg);
  handles ← random_handles draws names;
  let cp := New handles (Z.of_nat localSrv) in
  local ← (servers cfg).[localSrv];
  match local with None => Panic NilDereference | Some _ =>
  let cl := next cfg in
  let cfg := mkConfig (n cfg) rn (servers cfg) (saved cfg) (persisters cfg) (endnames cfg)
    (<[cl := names]> (clients cfg)) (<[cl := id]> (client_Id cfg)) (<[cl := cp]> (providers cfg))
    (orderedClientIds cfg) (orderedMessagers cfg) (killed cfg) (S cl) (drawn cfg + n cfg) in
  cfg ← ConnectClient cl to cfg;
  Ret (cl, cfg)
  end.

Definition deleteClient (cl : nat) (cfg : config) : config :=
  mkConfig (n cfg) (net cfg) (servers cfg) (saved cfg) (persisters cfg) (endnames cfg)
    (delete cl (clients cfg)) (client_Id cfg) (providers cfg) (orderedClientIds cfg)
    (orderedMessagers cfg) (killed cfg) (next cfg) (drawn cfg).

(** ** Servers *)

(** [cfg.saved[i] = cfg.saved[i].Copy()] for a persister that is not nil. *)
Definition copy_saved (i p : nat) (cfg : config) : outcome config :=
  '(q, pw) ← Persister.Copy p (persisters cfg);
  ps ← (saved cfg).[i <- Some q];
  Ret (set_saved ps pw cfg).

Definition ShutdownServer (i : nat) (cfg : config) : outcome config :=
  cfg ← disconnect i (All (n cfg)) cfg;
  let cfg := set_net (DeleteServer i (net cfg)) cfg in
  p ← (saved cfg).[i];
  cfg ← match p with Some p => copy_saved i p cfg | None => Ret cfg end;
  kv ← (servers cfg).[i];
  match kv with
  | None => Ret cfg
  | Some kv =>
      ss ← (servers cfg).[i <- None];
      Ret (set_servers ss ({[kv]} ∪ killed cfg) cfg)
  end.

(** [StartServer]; the anonbcast server and the labrpc server made for it are the
    next two objects. *)
Definition StartServer (id : UUID) (draws : list nat) (i : nat) (cfg : config) : outcome config :=
  let names := fresh_names cfg in
  rows ← (endnames cfg).[i <- Some names];
  rn ← make_ends (drawn cfg) (seq 0 (n cfg)) (net cfg);
  p ← (saved cfg).[i];
  cfg ← match p with
        | Some p => copy_saved i p cfg
        | None =>
            let '(q, pw) := Persister.MakePersister (persisters cfg) in
            ps ← (saved cfg).[i <- Some q]; Ret (set_saved ps pw cfg)
        end;
  let server := next cfg in
  let srv := S (next cfg) in
  ss ← (servers cfg).[i <- Some server];
  ms ← (orderedMessagers cfg).[i <- Some (Itoa (Z.of_nat i))];
  let cfg := mkConfig (n cfg) (AddServer i srv rn) ss (saved cfg) (persisters cfg) rows
    (clients cfg) (client_Id cfg) (providers cfg) (orderedClientIds cfg) ms (killed cfg)
    (S srv) (drawn cfg + n cfg) in
  '(cl, cfg) ← makeClient id draws i (All (n cfg)) cfg;
  ids ← (orderedClientIds cfg).[i <- id];
  Ret (mkConfig (n cfg) (net cfg) (servers cfg) (saved cfg) (persisters cfg) (endnames cfg)
    (clients cfg) (client_Id cfg) (providers cfg) ids (orderedMessagers cfg) (killed cfg)
    (next cfg) (drawn cfg)).

(** [make_config_with_initial_config]: [zero] is the zero identifier; server [i]
    is started with the identifier and the draws [arg i]. *)
Definition empty_config (zero : UUID) (size : nat) : config :=
  mkConfig size MakeNetwork (replicate size None) (replicate size None)
    (Persister.mkWorld ∅ [] ∅) (replicate size None) ∅ ∅ ∅ (replicate size zero)
    (replicate size None) ∅ 0 0.

Definition make_config (zero : UUID) (arg : nat → UUID * list nat) (size : nat) (unreliable : bool)
    : outcome config :=
  cfg ← fold_outcome (fun i => StartServer (fst (arg i)) (snd (arg i)) i) (seq 0 size)
    (empty_config zero size);
  cfg ← connect_all cfg;
  Ret (set_net (Reliable (negb unreliable) (net cfg)) cfg).

(** [cleanup]: every server and client is killed and the network closed. *)
Definition cleanup (cfg : config) : outcome config :=
  let ks := list_to_set (omap id (servers cfg)) ∪ dom (clients cfg) ∪ killed cfg in
  rn ← Cleanup (net cfg);
  Ret (set_net rn (set_servers (servers cfg) ks cfg)).

(** The loop of [LogSize] and [SnapshotSize] over the servers: the largest size,
    at least 0. *)
Fixpoint max_size (size : nat → Persister.world → outcome nat) (srvs : list nat) (cfg : config)
    (acc : nat) : outcome nat :=
  match srvs with
  | [] => Ret acc
  | i :: srvs' =>
      p ← (saved cfg).[i];
      p ← match p with Some p => Ret p | None => Panic NilDereference end;
      k ← size p (persisters cfg);
      max_size size srvs' cfg (if bool_decide (acc < k) then k else acc)
  end.

Definition LogSize (cfg : config) : outcome nat :=
  max_size Persister.RaftStateSize (seq 0 (n cfg)) cfg 0.
Definition SnapshotSize (cfg : config) : outcome nat :=
  max_size Persister.SnapshotSize (seq 0 (n cfg)) cfg 0.

End harness.
