(* ===== verification/HarnessProps.v ===== *)
(** * Well-formed clusters

    The invariant [wf] of the configurations of Harness.v and what the operations
    of the harness do to it: every slot for an end, of a server or of a client,
    holds a name of its own, which belongs to an end of the network that is
    connected to the server of that slot. *)

From stdpp Require Import strings gmap.
From Stdlib Require Import Ascii Strings.Byte.
From S2P Require Import Prelude GoString Bytes Op Client Layers Network ConnectionProvider Links Harness.
From S2P Require Persister.
Local Open Scope nat_scope.

Section props.
Context (randstring : nat → string) `{!Inj (=) (=) randstring}.
Implicit Types rn : Network string nat.
Implicit Types cfg : config.

(** ** Lemmas on networks *)

(** Networks that differ only in which ends are enabled. *)
Definition same_wiring rn rn' : Prop :=
  Network.ends rn' = Network.ends rn ∧ connections rn' = connections rn ∧ Network.servers rn' = Network.servers rn ∧
  reliable rn' = reliable rn.

#[global] Instance same_wiring_equivalence : Equivalence same_wiring.
Proof. split; repeat intro; unfold same_wiring in *; naive_solver congruence. Qed.

Lemma fold_outcome_inv {A B} (P : B → Prop) (f : A → B → outcome B) l : ∀ b b',
  (∀ x b b', P b → f x b = Ret b' → P b') → P b → fold_outcome f l b = Ret b' → P b'.
Proof.
  induction l as [|x l IH]; intros b b' Hf Hb Hr; simpl in Hr; [by simplify_eq|].
  apply bind_ret_inv in Hr as (b1 & H1 & Hr). eauto.
Qed.

Lemma set_link_inv names v i j rn rn' :
  set_link names v i j rn = Ret rn' → ∃ e, rn' = Enable e v rn.
Proof. intros (e & _ & Hr)%bind_ret_inv. simplify_eq. eauto. Qed.

(** A predicate that [Enable] preserves is preserved by all changes of links. *)
Section enable.
Context (v : bool) (P : Network string nat → Prop) (HP : ∀ e rn, P rn → P (Enable e v rn)).

Lemma fold_link_inv names (f g : nat → nat) l rn rn' :
  P rn → fold_outcome (fun k => set_link names v (f k) (g k)) l rn = Ret rn' → P rn'.
Proof.
  apply fold_outcome_inv. intros x b b' Hb (e & ->)%set_link_inv. by apply HP.
Qed.

Lemma set_client_links_inv es js rn rn' :
  P rn → set_client_links v es js rn = Ret rn' → P rn'.
Proof.
  apply fold_outcome_inv. intros j b b' Hb (e & _ & Hr)%bind_ret_inv. simplify_eq. by apply HP.
Qed.
End enable.

Lemma connectUnlocked_inv (P : Network string nat → Prop) names i to rn rn' :
  (∀ e rn, P rn → P (Enable e true rn)) → P rn → connectUnlocked names i to rn = Ret rn' → P rn'.
Proof.
  intros HP Hb (rn1 & H1 & H2)%bind_ret_inv.
  eapply (fold_link_inv true P HP names (fun j => j) (fun _ => i)); [|exact H2].
  by eapply (fold_link_inv true P HP names (fun _ => i) (fun j => j)).
Qed.

Lemma disconnectUnlocked_inv (P : Network string nat → Prop) names i from rn rn' :
  (∀ e rn, P rn → P (Enable e false rn)) → P rn → disconnectUnlocked names i from rn = Ret rn' → P rn'.
Proof.
  intros HP Hb (rn1 & H1 & H2)%bind_ret_inv.
  assert (P rn1) as Hb1.
  { revert Hb H1. apply fold_outcome_inv. intros k b b' Hb (row & _ & Hr)%bind_ret_inv.
    case_bool_decide; [|by simplify_eq]. apply set_link_inv in Hr as (e & ->). auto. }
  clear H1 Hb rn. revert rn1 Hb1 H2. generalize 0. induction from as [|k from IH]; intros j rn1 Hb1 H2; simpl in H2.
  { by simplify_eq. }
  apply bind_ret_inv in H2 as (row & _ & (rn2 & H1 & H2)%bind_ret_inv). eapply IH; [|exact H2].
  case_bool_decide; [|by simplify_eq]. apply set_link_inv in H1 as (e & ->). auto.
Qed.

Lemma wiring_enable e v rn0 rn : same_wiring rn0 rn → same_wiring rn0 (Enable e v rn).
Proof. done. Qed.

(** ** New ends *)

Lemma connected_to_Connect e j e' rn :
  connected_to (Connect e j rn) e' = if decide (e = e') then Some j else connected_to rn e'.
Proof.
  unfold connected_to. simpl. case_decide; [subst; by rewrite lookup_insert_eq|by rewrite lookup_insert_ne].
Qed.

(** What [make_ends] does, when the names from the [k]-th on are unused. *)
Record made_ends (k : nat) (js : list nat) rn rn' : Prop := {
  me_ends : ∀ e, e ∈ Network.ends rn' ↔ e ∈ Network.ends rn ∨ ∃ i, i < length js ∧ e = randstring (k + i);
  me_new : ∀ i j, js !! i = Some j → connected_to rn' (randstring (k + i)) = Some j;
  me_old : ∀ m, m < k → connected_to rn' (randstring m) = connected_to rn (randstring m) ∧
    is_enabled rn' (randstring m) = is_enabled rn (randstring m);
  me_servers : Network.servers rn' = Network.servers rn;
  me_reliable : reliable rn' = reliable rn
}.

Definition names_below (k : nat) rn : Prop := ∀ e, e ∈ Network.ends rn → ∃ m, m < k ∧ e = randstring m.

Lemma MakeEnd_fresh k rn : names_below k rn → ∃ rn', MakeEnd (randstring k) rn = Ret rn' ∧
  Network.ends rn' = {[randstring k]} ∪ Network.ends rn ∧ Network.servers rn' = Network.servers rn ∧ reliable rn' = reliable rn ∧
  ∀ e, e ≠ randstring k → connected_to rn' e = connected_to rn e ∧ is_enabled rn' e = is_enabled rn e.
Proof.
  intros Hb. unfold MakeEnd. rewrite bool_decide_false.
  2: { intros (m & Hm & Heq%(inj randstring))%Hb. lia. }
  eexists. split; [done|]. simpl. split_and!; [done..|]. intros e He. unfold connected_to, is_enabled. simpl.
  by rewrite !lookup_insert_ne.
Qed.

Lemma make_ends_spec js : ∀ k rn,
  names_below k rn → ∃ rn', make_ends randstring k js rn = Ret rn' ∧ made_ends k js rn rn'.
Proof.
  induction js as [|j js IH]; intros k rn Hb; simpl.
  { exists rn. split; [done|]. split; try done. intros e. split; [by left|]. intros [?|(i & Hi & _)]; [done|simpl in Hi; lia]. }
  destruct (MakeEnd_fresh k rn Hb) as (rn1 & -> & He1 & Hs1 & Hr1 & Ho1). simpl.
  destruct (IH (S k) (Connect (randstring k) j rn1)) as (rn' & -> & [M1 M2 M3 M4 M5]).
  { intros e. simpl. rewrite He1. intros [->%elem_of_singleton|Hin]%elem_of_union; [exists k; split; [lia|done]|].
    destruct (Hb e Hin) as (m & ? & ->). exists m. split; [lia|done]. }
  exists rn'. split; [done|]. split.
  - intros e. rewrite M1. simpl. rewrite He1, elem_of_union, elem_of_singleton. split.
    + intros [[-> |Hin]|(i & Hi & ->)]; [right; exists 0|by left|right; exists (S i)]; simpl;
        (split; [lia|]); f_equal; lia.
    + intros [Hin|([|i] & Hi & ->)]; [by left; right|left; left; f_equal; lia|right]. exists i. simpl in Hi.
      split; [lia|]. f_equal. lia.
  - intros [|i] j' Hj'; simplify_eq/=.
    + rewrite Nat.add_0_r. destruct (M3 k) as [-> _]; [lia|]. rewrite connected_to_Connect. by rewrite decide_True.
    + replace (k + S i) with (S k + i) by lia. by apply M2.
  - intros m Hm. destruct (M3 m) as [-> ->]; [lia|]. rewrite connected_to_Connect.
    rewrite decide_False by (intros Heq%(inj randstring); lia).
    destruct (Ho1 (randstring m)) as [<- <-]; [intros Heq%(inj randstring); lia|done].
  - by rewrite M4.
  - by rewrite M5.
Qed.

(** ** Names *)

(** The places that hold the name of an end, and the server the end is for. *)
Inductive slot := SServer (i j : nat) | SClient (cl j : nat).
Definition slot_target (s : slot) : nat := match s with SServer _ j | SClient _ j => j end.

Definition slot_name cfg (s : slot) : option string :=
  match s with
  | SServer i j => mjoin (endnames cfg !! i) ≫= (fun row => row !! j)
  | SClient cl j => clients cfg !! cl ≫= (fun row => row !! j)
  end.

(** [k] names have been drawn; [sn] tells which of them are in use. *)
Record wf_names (sn : slot → option string) (k : nat) rn : Prop := {
  wn_below : names_below k rn;
  wn_name : ∀ s e, sn s = Some e →
    (∃ m, m < k ∧ e = randstring m) ∧ e ∈ Network.ends rn ∧ connected_to rn e = Some (slot_target s);
  wn_inj : ∀ s s' e, sn s = Some e → sn s' = Some e → s = s'
}.

Lemma wf_names_add (mk : nat → slot) m (sn sn' : slot → option string) k rn rn' :
  (∀ j, slot_target (mk j) = j) → wf_names sn k rn → made_ends k (seq 0 m) rn rn' →
  (∀ s e, sn' s = Some e → (∃ j, j < m ∧ s = mk j ∧ e = randstring (k + j)) ∨ sn s = Some e) →
  wf_names sn' (k + m) rn'.
Proof.
  intros Hmk [B N I] [M1 M2 M3 _ _] Hsn. rewrite length_seq in M1. split.
  - intros e He. apply M1 in He as [Hin|(i & Hi & ->)].
    + destruct (B e Hin) as (x & Hx & ->). exists x. split; [lia|done].
    + exists (k + i). split; [lia|done].
  - intros s e [(j & Hj & -> & ->)|Hold]%Hsn.
    + split_and!; [exists (k + j); split; [lia|done]|apply M1; eauto|].
      rewrite Hmk. apply M2. by apply lookup_seq.
    + destruct (N s e Hold) as ((x & Hx & ->) & Hin & Hc). split_and!.
      * exists x. split; [lia|done].
      * apply M1. by left.
      * destruct (M3 x Hx) as [-> _]. done.
  - intros s s' e [(j & Hj & -> & ->)|Hold]%Hsn [(j' & Hj' & -> & Heq)|Hold']%Hsn.
    + apply (inj randstring) in Heq. f_equal. lia.
    + destruct (N _ _ Hold') as ((x & Hx & Heq%(inj randstring)) & _). lia.
    + subst. destruct (N _ _ Hold) as ((x & Hx & Heq%(inj randstring)) & _). lia.
    + by eapply I.
Qed.

Lemma wf_names_wiring sn k rn rn' : same_wiring rn rn' → wf_names sn k rn → wf_names sn k rn'.
Proof.
  intros (He & Hc & _ & _) [B N I]. split; [|intros s e Hs; destruct (N s e Hs) as (? & ? & ?)|done].
  - intros e. rewrite He. apply B.
  - unfold connected_to. rewrite He, Hc. done.
Qed.

Lemma wf_names_sub sn sn' k rn :
  (∀ s e, sn' s = Some e → sn s = Some e) → wf_names sn k rn → wf_names sn' k rn.
Proof. intros Hs [B N I]. split; eauto. Qed.

(** ** Configurations *)

Record wf cfg : Prop := {
  wf_servers : length (servers cfg) = n cfg;
  wf_saved : length (saved cfg) = n cfg;
  wf_rows : length (endnames cfg) = n cfg;
  wf_ids : length (orderedClientIds cfg) = n cfg;
  wf_messagers : length (orderedMessagers cfg) = n cfg;
  wf_row : ∀ i row, endnames cfg !! i = Some (Some row) → length row = n cfg;
  wf_client : ∀ cl row, clients cfg !! cl = Some row → length row = n cfg ∧ cl < next cfg;
  wf_slots : wf_names (slot_name cfg) (drawn cfg) (net cfg);
  wf_persisters : ∀ i p, saved cfg !! i = Some (Some p) →
    p < length (Persister.persisters (persisters cfg))
}.

Lemma fresh_names_lookup cfg j e :
  fresh_names randstring cfg !! j = Some e ↔ j < n cfg ∧ e = randstring (drawn cfg + j).
Proof.
  unfold fresh_names. rewrite list_lookup_fmap_Some. setoid_rewrite lookup_seq. naive_solver.
Qed.

Lemma length_fresh_names cfg : length (fresh_names randstring cfg) = n cfg.
Proof. unfold fresh_names. by rewrite length_fmap, length_seq. Qed.

Lemma handles_from_perm {A} k : ∀ i draws (l : list A),
  i + k ≤ length l → ∃ l', handles_from i k draws l = Ret l' ∧ l' ≡ₚ l.
Proof.
  induction k as [|k IH]; intros i draws l Hi; [by exists l|]. cbn [handles_from].
  pose proof (Nat.mod_upper_bound (hd 0 draws) (S i)).
  destruct (swap_perm l i (hd 0 draws mod S i)) as (l1 & -> & Hp1); [lia..|]. cbn [mbind outcome_bind].
  destruct (IH (S i) (tail draws) l1) as (l' & -> & Hp2).
  { apply Permutation_length in Hp1. lia. }
  exists l'. split; [done|]. by rewrite Hp2.
Qed.

(** [random_handles] permutes. *)
Lemma random_handles_perm {A} draws (l : list A) : ∃ l', random_handles draws l = Ret l' ∧ l' ≡ₚ l.
Proof. unfold random_handles. rewrite go_copy_same by done. by apply handles_from_perm. Qed.

Lemma is_enabled_Enable e v e' rn :
  is_enabled (Enable e v rn) e' = if decide (e = e') then v else is_enabled rn e'.
Proof.
  unfold is_enabled. simpl. case_decide; [subst; by rewrite lookup_insert_eq|by rewrite lookup_insert_ne].
Qed.

Lemma enabled_mono e rn e' : is_enabled rn e' = true → is_enabled (Enable e true rn) e' = true.
Proof. intros He. rewrite is_enabled_Enable. by case_decide. Qed.

Lemma set_client_links_true es js : ∀ rn,
  Forall (fun j => j < length es) js →
  ∃ rn', set_client_links true es js rn = Ret rn' ∧
    ∀ j e, j ∈ js → es !! j = Some e → is_enabled rn' e = true.
Proof.
  induction js as [|k js IH]; intros rn Hjs; [exists rn; split; [done|set_solver]|].
  apply Forall_cons in Hjs as [Hk Hjs]. destruct (lookup_lt_is_Some_2 es k Hk) as [ek Hek].
  destruct (IH (Enable ek true rn) Hjs) as (rn' & Hr & Hen). exists rn'.
  split; [unfold set_client_links in *; simpl; by rewrite (proj2 (slice_get_ret _ _ _) Hek)|].
  intros j e [-> |Hin]%elem_of_cons He; [|by eapply Hen].
  assert (ek = e) as -> by congruence.
  eapply (set_client_links_inv true (fun rn => is_enabled rn e = true)); [| |exact Hr].
  - intros e0 rn0. apply enabled_mono.
  - rewrite is_enabled_Enable. by rewrite decide_True.
Qed.

(** What [makeClient] leaves as it was. *)
Record client_frame cfg cfg' : Prop := {
  cf_n : n cfg' = n cfg;
  cf_rows : endnames cfg' = endnames cfg;
  cf_servers : servers cfg' = servers cfg;
  cf_saved : saved cfg' = saved cfg ∧ persisters cfg' = persisters cfg;
  cf_ids : orderedClientIds cfg' = orderedClientIds cfg;
  cf_messagers : orderedMessagers cfg' = orderedMessagers cfg;
  cf_net : Network.servers (net cfg') = Network.servers (net cfg) ∧ reliable (net cfg') = reliable (net cfg);
  cf_enabled : ∀ m, m < drawn cfg → is_enabled (net cfg) (randstring m) = true →
    is_enabled (net cfg') (randstring m) = true
}.

(** Server [i] is running. *)
Definition running cfg (i : nat) : Prop := ∃ sv, servers cfg !! i = Some (Some sv).

Lemma makeClient_nil id draws localSrv to cfg :
  wf cfg → servers cfg !! localSrv = Some None →
  makeClient randstring id draws localSrv to cfg = Panic NilDereference.
Proof.
  intros [_ _ _ _ _ _ _ W8 _] Hsv. unfold makeClient.
  destruct (make_ends_spec (seq 0 (n cfg)) (drawn cfg) (net cfg) (wn_below _ _ _ W8)) as (rn1 & -> & _).
  cbn [mbind outcome_bind]. destruct (random_handles_perm draws (fresh_names randstring cfg)) as (hs & -> & _).
  cbn [mbind outcome_bind]. by rewrite (proj2 (slice_get_ret _ _ _) Hsv).
Qed.

Lemma makeClient_spec id draws localSrv to cfg :
  wf cfg → running cfg localSrv → Forall (fun j => j < n cfg) to →
  ∃ cfg', makeClient randstring id draws localSrv to cfg = Ret (next cfg, cfg') ∧ wf cfg' ∧
    client_frame cfg cfg' ∧ clients cfg' = <[next cfg := fresh_names randstring cfg]> (clients cfg) ∧
    client_Id cfg' = <[next cfg := id]> (client_Id cfg) ∧ drawn cfg' = drawn cfg + n cfg ∧
    next cfg' = S (next cfg) ∧
    ∀ j, j ∈ to → is_enabled (net cfg') (randstring (drawn cfg + j)) = true.
Proof.
  intros [W1 W2 W3 W4 W5 W6 W7 W8 W9] [sv Hsv] Hto. unfold makeClient.
  destruct (make_ends_spec (seq 0 (n cfg)) (drawn cfg) (net cfg) (wn_below _ _ _ W8)) as (rn1 & -> & Hme).
  cbn [mbind outcome_bind]. destruct (random_handles_perm draws (fresh_names randstring cfg)) as (hs & -> & _).
  cbn [mbind outcome_bind]. rewrite (proj2 (slice_get_ret _ _ _) Hsv). cbn [mbind outcome_bind].
  unfold ConnectClient, set_client. cbn [clients net]. rewrite lookup_insert_eq. cbn [default].
  destruct (set_client_links_true (fresh_names randstring cfg) to rn1) as (rn2 & Hr & Hen).
  { by rewrite length_fresh_names. }
  change (Datatypes.id (fresh_names randstring cfg)) with (fresh_names randstring cfg).
  rewrite Hr. cbn [mbind outcome_bind].
  assert (same_wiring rn1 rn2) as Hw.
  { eapply (set_client_links_inv true (same_wiring rn1)); [|reflexivity|exact Hr]. intros; by apply wiring_enable. }
  eexists. split; [reflexivity|]. split_and!; try reflexivity.
  - split; cbn; try done.
    + intros cl row. destruct (decide (cl = next cfg)) as [-> |].
      * rewrite lookup_insert_eq. intros [= <-]. rewrite length_fresh_names. lia.
      * rewrite lookup_insert_ne by done. intros [? ?]%W7. lia.
    + apply (wf_names_wiring _ _ rn1); [done|].
      eapply (wf_names_add (SClient (next cfg))); [done|exact W8|exact Hme|].
      intros [i j|cl j] e; cbn; [by right|]. destruct (decide (cl = next cfg)) as [-> |].
      * rewrite lookup_insert_eq. cbn. intros [? ->]%fresh_names_lookup. left. eauto.
      * rewrite lookup_insert_ne by done. by right.
  - destruct Hme as [_ _ Mo Ms Mr]. destruct Hw as (_ & _ & Hws & Hwr). split; cbn; try done.
    + split; congruence.
    + intros m Hm He. destruct (Mo m Hm) as [_ Hmo]. rewrite <- Hmo in He.
      eapply (set_client_links_inv true (fun rn => is_enabled rn (randstring m) = true));
        [intros; by apply enabled_mono|exact He|exact Hr].
  - intros j Hj. cbn. eapply Hen; [exact Hj|]. apply fresh_names_lookup. rewrite Forall_forall in Hto. auto.
Qed.

(** ** Starting a server *)

Lemma Copy_total p pw : p < length (Persister.persisters pw) →
  ∃ q pw', Persister.Copy p pw = Ret (q, pw') ∧ q < length (Persister.persisters pw') ∧
    length (Persister.persisters pw) ≤ length (Persister.persisters pw').
Proof.
  intros [ps Hps]%lookup_lt_is_Some_2. unfold Persister.Copy, Persister.get_persister. rewrite Hps. simpl.
  eexists _, _. split; [done|]. simpl. rewrite length_insert, length_app. simpl. lia.
Qed.

(** The persisters after one of them was replaced. *)
Definition saved_ok (size : nat) (ps : list (option nat)) (pw : Persister.world) : Prop :=
  length ps = size ∧ ∀ i p, ps !! i = Some (Some p) → p < length (Persister.persisters pw).

Lemma saved_ok_insert size ps pw pw' i q :
  saved_ok size ps pw → q < length (Persister.persisters pw') →
  length (Persister.persisters pw) ≤ length (Persister.persisters pw') →
  saved_ok size (<[i := Some q]> ps) pw'.
Proof.
  intros [Hl Hs] Hq Hle. split; [by rewrite length_insert|].
  intros i' p [(_ & [= <-] & _)|[_ Hp]]%list_lookup_insert_Some; [done|]. apply Hs in Hp. lia.
Qed.

Lemma renew_saved i p cfg :
  wf cfg → saved cfg !! i = Some p →
  ∃ ps pw, match p with
    | Some p => copy_saved i p cfg
    | None => let '(q, pw) := Persister.MakePersister (persisters cfg) in
        ps ← (saved cfg).[i <- Some q]; Ret (set_saved ps pw cfg)
    end = Ret (set_saved ps pw cfg) ∧ saved_ok (n cfg) ps pw.
Proof.
  intros W Hp. apply lookup_lt_Some in Hp as Hi.
  assert (saved_ok (n cfg) (saved cfg) (persisters cfg)) as Hok by (split; apply W).
  destruct p as [p|].
  - destruct (Copy_total p (persisters cfg)) as (q & pw & Hc & Hq & Hle); [by eapply W|].
    unfold copy_saved. rewrite Hc. simpl. rewrite slice_set_ret by done. simpl.
    eexists _, _. split; [done|]. by eapply saved_ok_insert.
  - simpl. rewrite slice_set_ret by done. simpl. eexists _, _. split; [done|].
    eapply saved_ok_insert; [done|simpl; rewrite length_app; simpl; lia..].
Qed.

(** The client [cl] with identifier [id] can reach every server. *)
Definition client_ready cfg (cl : nat) (id : UUID) : Prop :=
  client_Id cfg !! cl = Some id ∧ ∃ row, clients cfg !! cl = Some row ∧
    ∀ j e, row !! j = Some e → is_enabled (net cfg) e = true.

Record start_effect (id : UUID) (i : nat) cfg cfg' : Prop := {
  se_n : n cfg' = n cfg;
  se_rows : endnames cfg' = <[i := Some (fresh_names randstring cfg)]> (endnames cfg);
  se_ids : orderedClientIds cfg' = <[i := id]> (orderedClientIds cfg);
  se_server : ∀ k, k = i ∨ is_Some (server_of (net cfg) k) → is_Some (server_of (net cfg') k);
  se_new : ∃ cl, client_ready cfg' cl id;
  se_old : ∀ cl id', client_ready cfg cl id' → client_ready cfg' cl id'
}.

(** The configuration of [StartServer] before the client is made. *)
Definition start_mid (i : nat) rn ps pw cfg : config :=
  mkConfig (n cfg) (AddServer i (S (next cfg)) rn) (<[i := Some (next cfg)]> (servers cfg)) ps pw
    (<[i := Some (fresh_names randstring cfg)]> (endnames cfg)) (clients cfg) (client_Id cfg)
    (providers cfg) (orderedClientIds cfg) (<[i := Some (Itoa (Z.of_nat i))]> (orderedMessagers cfg))
    (killed cfg) (S (S (next cfg))) (drawn cfg + n cfg).

Lemma start_mid_wf i rn ps pw cfg :
  wf cfg → i < n cfg → made_ends (drawn cfg) (seq 0 (n cfg)) (net cfg) rn → saved_ok (n cfg) ps pw →
  wf (start_mid i rn ps pw cfg).
Proof.
  intros [W1 W2 W3 W4 W5 W6 W7 W8 W9] Hi Hme [Hps Hrefs]. split; cbn; rewrite ?length_insert; try done.
  - intros k row [(_ & [= <-] & _)|[_ Hk]]%list_lookup_insert_Some; [apply length_fresh_names|by eapply W6].
  - intros cl row [? ?]%W7. lia.
  - assert (same_wiring rn rn → wf_names (slot_name (start_mid i rn ps pw cfg)) (drawn cfg + n cfg) rn) as Hn.
    { intros _. eapply (wf_names_add (SServer i)); [done|exact W8|exact Hme|].
      intros [k j|cl j] e; cbn; [|by right]. destruct (decide (k = i)) as [-> |].
      - rewrite list_lookup_insert_eq by lia. cbn. intros [? ->]%fresh_names_lookup. left. eauto.
      - rewrite list_lookup_insert_ne by done. by right. }
    destruct (Hn ltac:(reflexivity)) as [B N I]. by split.
Qed.

Lemma StartServer_spec id draws i cfg :
  wf cfg → i < n cfg →
  ∃ cfg', StartServer randstring id draws i cfg = Ret cfg' ∧ wf cfg' ∧ start_effect id i cfg cfg'.
Proof.
  intros W Hi. pose proof W as [W1 W2 W3 W4 W5 W6 W7 W8 W9]. unfold StartServer.
  rewrite slice_set_ret by lia. cbn [mbind outcome_bind].
  destruct (make_ends_spec (seq 0 (n cfg)) (drawn cfg) (net cfg) (wn_below _ _ _ W8)) as (rn & -> & Hme).
  cbn [mbind outcome_bind]. destruct (lookup_lt_is_Some_2 (saved cfg) i) as [p Hp]; [lia|].
  rewrite (proj2 (slice_get_ret _ _ _) Hp). cbn [mbind outcome_bind].
  destruct (renew_saved i p cfg W Hp) as (ps & pw & -> & Hsv). cbn [mbind outcome_bind].
  cbn [next set_saved servers orderedMessagers n saved persisters clients client_Id providers
    orderedClientIds killed drawn].
  rewrite slice_set_ret by lia. cbn [mbind outcome_bind]. rewrite slice_set_ret by lia. cbn [mbind outcome_bind].
  match goal with |- context [makeClient randstring id draws i _ ?c] =>
    change c with (start_mid i rn ps pw cfg) end.
  pose proof (start_mid_wf i rn ps pw cfg W Hi Hme Hsv) as Wm.
  destruct (makeClient_spec id draws i (All (n cfg)) (start_mid i rn ps pw cfg) Wm) as
    (cfg' & Hmc & [V1 V2 V3 V4 V5 V6 V7 V8 V9] & [F1 F2 F3 F4 F5 F6 [F7 F7'] F8] & Hcl & Hid & Hdr & Hnx & Hen).
  { exists (next cfg). cbn. apply list_lookup_insert_eq. lia. }
  { apply Forall_forall. intros x Hx%elem_of_seq. cbn. lia. }
  cbn [n start_mid]. rewrite Hmc. cbn [mbind outcome_bind]. rewrite F1, F5 in V4. cbn in V4.
  rewrite F5. cbn [orderedClientIds start_mid]. rewrite slice_set_ret by lia. cbn [mbind outcome_bind].
  eexists. split; [reflexivity|]. split.
  { split; cbn; try done. rewrite length_insert. rewrite F1. cbn. lia. }
  split; cbn; try done.
  - intros k Hk. unfold server_of in *. cbn in *. rewrite F7. cbn. rewrite (me_servers _ _ _ _ Hme).
    destruct (decide (k = i)) as [-> |]; [rewrite lookup_insert_eq; by eexists|].
    rewrite lookup_insert_ne by done. by destruct Hk.
  - exists (next (start_mid i rn ps pw cfg)). split; cbn; [by rewrite Hid, lookup_insert_eq|].
    exists (fresh_names randstring (start_mid i rn ps pw cfg)). rewrite Hcl, lookup_insert_eq. split; [done|].
    intros j e [Hj ->]%fresh_names_lookup. apply Hen, elem_of_seq. cbn in Hj. lia.
  - intros cl id' [Hci (row & Hrow & Hall)]. destruct (W7 _ _ Hrow) as [_ Hlt]. split; cbn.
    + rewrite Hid, lookup_insert_ne by (cbn; lia). done.
    + exists row. rewrite Hcl, lookup_insert_ne by (cbn; lia). split; [done|]. intros j e He.
      destruct (wn_name _ _ _ W8 (SClient cl j) e) as ((m & Hm & ->) & _); [cbn; by rewrite Hrow|].
      apply F8; [cbn; lia|]. cbn. destruct (me_old _ _ _ _ Hme m Hm) as [_ Ho].
      change (is_enabled (AddServer i (S (next cfg)) rn) (randstring m)) with (is_enabled rn (randstring m)).
      rewrite Ho. by eapply Hall.
Qed.

(** ** The whole cluster *)

Lemma end_name_slot cfg i j e :
  end_name (endnames cfg) i j = Ret e ↔ slot_name cfg (SServer i j) = Some e.
Proof.
  unfold end_name, slice_get. cbn. destruct (endnames cfg !! i) as [[row|]|]; cbn.
  - destruct (row !! j); naive_solver.
  - by split.
  - by split.
Qed.

Lemma wf_started cfg :
  wf cfg → (∀ i, i < n cfg → ∃ row, endnames cfg !! i = Some (Some row)) → started (endnames cfg) (n cfg).
Proof.
  intros W Hall. split; [|done|].
  - intros i j Hi Hj. destruct (Hall i Hi) as [row Hrow]. pose proof (wf_row _ W _ _ Hrow) as Hl.
    destruct (lookup_lt_is_Some_2 row j) as [e He]; [lia|]. exists e. apply end_name_slot. cbn. by rewrite Hrow.
  - intros i j i' j' e He He'. apply end_name_slot in He, He'.
    pose proof (wn_inj _ _ _ (wf_slots _ W) _ _ _ He He') as Heq. by simplify_eq.
Qed.

(** Server [i] is up, and so is its client. *)
Definition server_ready cfg (i : nat) : Prop :=
  (∃ row, endnames cfg !! i = Some (Some row)) ∧ is_Some (server_of (net cfg) i) ∧
  ∃ cl id, orderedClientIds cfg !! i = Some id ∧ client_ready cfg cl id.

Lemma server_ready_start id i k cfg cfg' :
  start_effect id i cfg cfg' → wf cfg → i < n cfg → k = i ∨ server_ready cfg k → server_ready cfg' k.
Proof.
  intros [Sn Sr Si Ss Snew Sold] W Hi Hk. unfold server_ready. rewrite Sr, Si.
  destruct (decide (k = i)) as [-> |Hne].
  - rewrite !list_lookup_insert_eq by (rewrite ?(wf_rows _ W), ?(wf_ids _ W); lia).
    split_and!; [eauto|by apply Ss; left|]. destruct Snew as [cl Hcl]. eauto.
  - destruct Hk as [|(Hrow & Hsv & cl & id' & Hid & Hcl)]; [done|].
    rewrite !list_lookup_insert_ne by done. split_and!; [done|by apply Ss; right|]. eauto.
Qed.

Lemma start_all arg size srvs : ∀ cfg up,
  wf cfg → n cfg = size → Forall (fun i => i < size) srvs → Forall (server_ready cfg) up →
  ∃ cfg', fold_outcome (fun i => StartServer randstring (fst (arg i)) (snd (arg i)) i) srvs cfg = Ret cfg' ∧
    wf cfg' ∧ n cfg' = size ∧ Forall (server_ready cfg') (up ++ srvs).
Proof.
  induction srvs as [|i srvs IH]; intros cfg up W Hn Hs Hup; simpl.
  { exists cfg. by rewrite app_nil_r. }
  apply Forall_cons in Hs as [Hi Hs].
  destruct (StartServer_spec (fst (arg i)) (snd (arg i)) i cfg W) as (cfg1 & -> & W1 & Se); [lia|]. simpl.
  destruct (IH cfg1 (up ++ [i])) as (cfg' & -> & W' & Hn' & Hall); [done| |done| |].
  - by rewrite (se_n _ _ _ _ Se).
  - rewrite Forall_forall in Hup |- *. intros k [Hk| ->%list_elem_of_singleton]%elem_of_app;
      eapply server_ready_start; eauto; lia.
  - exists cfg'. rewrite <- app_assoc in Hall. done.
Qed.

Lemma empty_config_wf zero size : wf (empty_config zero size).
Proof.
  split; cbn; rewrite ?length_replicate; try done.
  - intros i row [? _]%lookup_replicate_1. done.
  - split.
    + intros e. cbn. set_solver.
    + intros [i j|cl j] e; cbn; [|by rewrite lookup_empty].
      destruct (replicate size None !! i) as [row|] eqn:Hr; [|done]. apply lookup_replicate_1 in Hr as [-> _]. done.
    + intros [i j|cl j] s' e; cbn; [|by rewrite lookup_empty].
      destruct (replicate size None !! i) as [row|] eqn:Hr; [|done]. apply lookup_replicate_1 in Hr as [-> _]. done.
  - intros i p [? _]%lookup_replicate_1. done.
Qed.

(** Replacing the network by one that differs only in enabled ends. *)
Lemma wf_set_net rn cfg : same_wiring (net cfg) rn → wf cfg → wf (set_net rn cfg).
Proof.
  intros Hw [W1 W2 W3 W4 W5 W6 W7 W8 W9]. split; cbn; try done.
  by eapply (wf_names_wiring _ _ (net cfg)).
Qed.

Lemma ConnectAll_inv (P : Network string nat → Prop) names k rn rn' :
  (∀ e rn, P rn → P (Enable e true rn)) → P rn → ConnectAll names k rn = Ret rn' → P rn'.
Proof.
  intros HP. apply fold_outcome_inv. intros i b b' Hb Hr. by eapply connectUnlocked_inv.
Qed.

Lemma make_config_spec (zero : UUID) arg (size : nat) (unreliable : bool) :
  ∃ cfg, make_config randstring zero arg size unreliable = Ret cfg ∧ wf cfg ∧
    n cfg = size ∧ reliable (net cfg) = negb unreliable ∧
    (∀ i j, i < size → j < size → link (endnames cfg) (net cfg) i j = true ∧
       ∃ e, end_name (endnames cfg) i j = Ret e ∧ connected_to (net cfg) e = Some j) ∧
    (∀ i, i < size → is_Some (server_of (net cfg) i) ∧
       ∃ cl id row, orderedClientIds cfg !! i = Some id ∧ client_Id cfg !! cl = Some id ∧
         clients cfg !! cl = Some row ∧ length row = size ∧
         ∀ j e, row !! j = Some e → is_enabled (net cfg) e = true ∧ connected_to (net cfg) e = Some j).
Proof.
  destruct (start_all arg size (seq 0 size) (empty_config zero size) [] (empty_config_wf zero size))
    as (cfg & Hs & W & Hn & Hup); [done|apply Forall_forall; intros x Hx%elem_of_seq; lia|done|].
  cbn [app] in Hup. rewrite Forall_forall in Hup.
  assert (∀ i, i < size → server_ready cfg i) as Hrd by (intros i Hi; apply Hup, elem_of_seq; lia).
  pose proof (wf_started cfg W) as Hstd. rewrite Hn in Hstd.
  destruct (ConnectAll_links (endnames cfg) size (Hstd (fun i Hi => proj1 (Hrd i Hi))) (net cfg)) as (rn & Hc & Hl).
  assert (same_wiring (net cfg) rn) as Hw.
  { eapply (ConnectAll_inv (same_wiring (net cfg))); [|reflexivity|exact Hc]. intros; by apply wiring_enable. }
  pose proof (wf_set_net rn cfg Hw W) as W'.
  exists (set_net (Reliable (negb unreliable) rn) cfg). unfold make_config. rewrite Hs. cbn [mbind outcome_bind].
  unfold connect_all, on_links. rewrite Hn, Hc. cbn [mbind outcome_bind]. split_and!; [done| |done|done| |].
  - destruct W' as [V1 V2 V3 V4 V5 V6 V7 [V8 V9 V10] V11]. split; cbn in *; done.
  - intros i j Hi Hj. split; [by apply Hl|].
    destruct (st_name _ _ (Hstd (fun i Hi => proj1 (Hrd i Hi))) i j Hi Hj) as [e He]. exists e.
    split; [exact He|]. apply end_name_slot in He.
    by destruct (wn_name _ _ _ (wf_slots _ W') (SServer i j) e He) as (_ & _ & Ht).
  - intros i Hi. destruct (Hrd i Hi) as (_ & Hsv & cl & id & Hid & Hcid & row & Hrow & Hen).
    split; [unfold server_of in *; cbn; destruct Hw as (_ & _ & -> & _); done|].
    exists cl, id, row. destruct (wf_client _ W _ _ Hrow) as [Hlen _]. split_and!; [done..|lia|].
    intros j e He. split.
    + change (is_enabled rn e = true).
      eapply (ConnectAll_inv (fun rn => is_enabled rn e = true)); [intros; by apply enabled_mono| |exact Hc].
      by eapply Hen.
    + assert (slot_name cfg (SClient cl j) = Some e) as Hsl by (cbn; by rewrite Hrow).
      by destruct (wn_name _ _ _ (wf_slots _ W') (SClient cl j) e Hsl) as (_ & _ & Ht).
Qed.

(** ** All operations *)

Lemma fold_outcome_total {A B} (P : B → Prop) (f : A → B → outcome B) l : ∀ b,
  (∀ x b, x ∈ l → P b → ∃ b', f x b = Ret b' ∧ P b') → P b → ∃ b', fold_outcome f l b = Ret b' ∧ P b'.
Proof.
  induction l as [|x l IH]; intros b Hf Hb; simpl; [eauto|].
  destruct (Hf x b) as (b1 & -> & Hb1); [by left|done|]. simpl. apply IH; [|done].
  intros y c Hy. apply Hf. by right.
Qed.

(** Every server has been started at least once. *)
Record up cfg : Prop := {
  up_wf : wf cfg;
  up_rows : ∀ i, i < n cfg → ∃ row, endnames cfg !! i = Some (Some row)
}.

Lemma up_started cfg : up cfg → started (endnames cfg) (n cfg).
Proof. intros [W Hr]. by apply wf_started. Qed.

Lemma up_set_net rn cfg : same_wiring (net cfg) rn → up cfg → up (set_net rn cfg).
Proof. intros Hw [W Hr]. split; [by apply wf_set_net|done]. Qed.

(** An operation on links that succeeds and keeps the wiring. *)
Lemma on_links_up f cfg :
  up cfg → (∃ rn, f (endnames cfg) (net cfg) = Ret rn ∧ same_wiring (net cfg) rn) →
  ∃ cfg', on_links f cfg = Ret cfg' ∧ up cfg'.
Proof.
  intros U (rn & Hf & Hw). exists (set_net rn cfg). unfold on_links. rewrite Hf. split; [done|].
  by apply up_set_net.
Qed.

Lemma connect_wired cfg i to rn :
  up cfg → i < n cfg → Forall (fun j => j < n cfg) to → same_wiring (net cfg) rn →
  ∃ rn', connectUnlocked (endnames cfg) i to rn = Ret rn' ∧ same_wiring (net cfg) rn'.
Proof.
  intros U Hi Hto Hw. destruct (connectUnlocked_links _ _ (up_started _ U) i to rn Hi Hto) as (rn' & Hr & _).
  exists rn'. split; [done|]. eapply (connectUnlocked_inv (same_wiring (net cfg))); [|exact Hw|exact Hr].
  intros; by apply wiring_enable.
Qed.

Lemma disconnect_wired cfg i from rn :
  up cfg → i < n cfg → Forall (fun j => j < n cfg) from → length from ≤ n cfg → same_wiring (net cfg) rn →
  ∃ rn', disconnectUnlocked (endnames cfg) i from rn = Ret rn' ∧ same_wiring (net cfg) rn'.
Proof.
  intros U Hi Hfr Hlen Hw.
  destruct (disconnectUnlocked_links _ _ (up_started _ U) i from rn Hi Hfr Hlen) as (rn' & Hr & _).
  exists rn'. split; [done|]. eapply (disconnectUnlocked_inv (same_wiring (net cfg))); [|exact Hw|exact Hr].
  intros; by apply wiring_enable.
Qed.

Lemma side_wired cfg side other l rn :
  up cfg → l ⊆ side → Forall (fun j => j < n cfg) side → Forall (fun j => j < n cfg) other →
  length other ≤ n cfg → same_wiring (net cfg) rn →
  ∃ rn', fold_outcome (fun i rn => rn ← disconnectUnlocked (endnames cfg) i other rn;
      connectUnlocked (endnames cfg) i side rn) l rn = Ret rn' ∧ same_wiring (net cfg) rn'.
Proof.
  intros U Hl Hs Ho Hlen. apply fold_outcome_total. intros i b Hi Hw.
  assert (i < n cfg) by (rewrite Forall_forall in Hs; auto).
  destruct (disconnect_wired cfg i other b) as (rn1 & -> & Hw1); [done..|]. simpl.
  by apply connect_wired.
Qed.

Lemma set_client_up v cl js row cfg :
  up cfg → clients cfg !! cl = Some row → Forall (fun j => j < n cfg) js →
  ∃ cfg', set_client v cl js cfg = Ret cfg' ∧ up cfg'.
Proof.
  intros U Hrow Hjs. destruct (wf_client _ (up_wf _ U) _ _ Hrow) as [Hlen _].
  assert (∃ rn, set_client_links v row js (net cfg) = Ret rn ∧ same_wiring (net cfg) rn) as (rn & Hr & Hw).
  { apply fold_outcome_total; [|reflexivity]. intros j b Hj Hw. rewrite Forall_forall in Hjs.
    destruct (lookup_lt_is_Some_2 row j) as [e He]; [rewrite Hlen; auto|].
    rewrite (proj2 (slice_get_ret _ _ _) He). simpl. eexists. split; [done|]. by apply wiring_enable. }
  exists (set_net rn cfg). unfold set_client. rewrite Hrow. simpl.
  change (Datatypes.id row) with row. rewrite Hr. split; [done|]. by apply up_set_net.
Qed.

Lemma wf_set_saved ps pw cfg : saved_ok (n cfg) ps pw → wf cfg → wf (set_saved ps pw cfg).
Proof. intros [Hl Hs] [W1 W2 W3 W4 W5 W6 W7 W8 W9]. by split. Qed.

(** The operations of the harness, with their arguments. *)
Inductive hop :=
| HStart (id : UUID) (draws : list nat) (i : nat)
| HShutdown (i : nat)
| HConnect (i : nat) (to : list nat)
| HDisconnect (i : nat) (from : list nat)
| HConnectAll
| HPartition (p1 p2 : list nat)
| HMakeClient (id : UUID) (draws : list nat) (localSrv : nat) (to : list nat)
| HDeleteClient (cl : nat)
| HConnectClient (cl : nat) (to : list nat)
| HDisconnectClient (cl : nat) (from : list nat).

Definition hexec (op : hop) cfg : outcome config :=
  match op with
  | HStart id draws i => StartServer randstring id draws i cfg
  | HShutdown i => ShutdownServer i cfg
  | HConnect i to => connect i to cfg
  | HDisconnect i from => disconnect i from cfg
  | HConnectAll => connect_all cfg
  | HPartition p1 p2 => partition_servers p1 p2 cfg
  | HMakeClient id draws l to => '(_, cfg) ← makeClient randstring id draws l to cfg; Ret cfg
  | HDeleteClient cl => Ret (deleteClient cl cfg)
  | HConnectClient cl to => ConnectClient cl to cfg
  | HDisconnectClient cl from => DisconnectClient cl from cfg
  end.

(** Arguments are numbers of servers, of running ones for the local server of a new
    client, and clients that exist. *)
Definition servers_ok cfg (js : list nat) : Prop := Forall (fun j => j < n cfg) js ∧ length js ≤ n cfg.

Definition hvalid (op : hop) cfg : Prop :=
  match op with
  | HStart _ _ i | HShutdown i => i < n cfg
  | HConnect i js | HDisconnect i js => i < n cfg ∧ servers_ok cfg js
  | HMakeClient _ _ i js => running cfg i ∧ servers_ok cfg js
  | HConnectAll | HDeleteClient _ => True
  | HPartition p1 p2 => servers_ok cfg p1 ∧ servers_ok cfg p2
  | HConnectClient cl js | HDisconnectClient cl js => is_Some (clients cfg !! cl) ∧ servers_ok cfg js
  end.

Lemma All_ok cfg : servers_ok cfg (All (n cfg)).
Proof. split; [apply Forall_forall; intros x Hx%elem_of_seq; lia|]. unfold All. by rewrite length_seq. Qed.

(** What [ShutdownServer] does to the rest of the configuration. *)
Lemma ShutdownServer_spec i cfg :
  up cfg → i < n cfg →
  ∃ cfg' rn, ShutdownServer i cfg = Ret cfg' ∧ up cfg' ∧ n cfg' = n cfg ∧
    disconnectUnlocked (endnames cfg) i (All (n cfg)) (net cfg) = Ret rn ∧ net cfg' = DeleteServer i rn ∧
    endnames cfg' = endnames cfg ∧ clients cfg' = clients cfg ∧ servers cfg' = <[i := None]> (servers cfg).
Proof.
  intros U Hi. destruct (All_ok cfg) as [Ha Hal].
  destruct (disconnect_wired cfg i (All (n cfg)) (net cfg) U Hi Ha Hal) as (rn & Hd & Hw); [reflexivity|].
  unfold ShutdownServer, disconnect, on_links. rewrite Hd. cbn [mbind outcome_bind].
  set (cfg1 := set_net (DeleteServer i (net (set_net rn cfg))) (set_net rn cfg)).
  assert (wf cfg1) as W1.
  { destruct (wf_set_net rn cfg Hw (up_wf _ U)) as [V1 V2 V3 V4 V5 V6 V7 [V8 V9 V10] V11]. by split. }
  destruct (lookup_lt_is_Some_2 (saved cfg1) i) as [p Hp]; [rewrite (wf_saved _ W1); done|].
  rewrite (proj2 (slice_get_ret _ _ _) Hp). cbn [mbind outcome_bind].
  assert (∃ ps pw, match p with Some p => copy_saved i p cfg1 | None => Ret cfg1 end = Ret (set_saved ps pw cfg1) ∧
    saved_ok (n cfg) ps pw) as (ps & pw & -> & Hok).
  { destruct p as [p|].
    - destruct (renew_saved i (Some p) cfg1 W1 Hp) as (ps & pw & Heq & Hok). eauto.
    - exists (saved cfg1), (persisters cfg1). split; [done|]. split; apply W1. }
  cbn [mbind outcome_bind]. pose proof (wf_set_saved ps pw cfg1 Hok W1) as W2.
  destruct (lookup_lt_is_Some_2 (servers cfg) i) as [kv Hkv]; [rewrite (wf_servers _ (up_wf _ U)); done|].
  change (servers (set_saved ps pw cfg1)) with (servers cfg). rewrite (proj2 (slice_get_ret _ _ _) Hkv).
  cbn [mbind outcome_bind]. destruct kv as [kv|].
  - rewrite slice_set_ret by (by eapply lookup_lt_Some). cbn [mbind outcome_bind]. eexists _, rn.
    split; [done|]. split_and!; try done. split; [|apply U].
    destruct W2 as [V1 V2 V3 V4 V5 V6 V7 V8 V9]. split; cbn in *; try done. by rewrite length_insert.
  - eexists _, rn. split; [done|]. split_and!; try done; [split; [done|apply U]|].
    cbn. by rewrite list_insert_id.
Qed.

(** Every operation succeeds in a cluster whose servers have all been started. *)
Lemma hexec_total (op : hop) cfg :
  up cfg → hvalid op cfg → ∃ cfg', hexec op cfg = Ret cfg' ∧ up cfg'.
Proof.
  intros U Hv. destruct op as [id draws i|i|i js|i js| |p1 p2|id draws i js|cl|cl js|cl js]; cbn [hvalid hexec] in Hv |- *.
  - destruct (StartServer_spec id draws i cfg (up_wf _ U) Hv) as (cfg' & Hs & W & [Sn Sr _ _ _ _]).
    exists cfg'. split; [done|]. split; [done|]. intros k Hk. rewrite Sr, Sn in *.
    destruct (decide (k = i)) as [-> |]; [rewrite list_lookup_insert_eq by (rewrite (wf_rows _ (up_wf _ U)); lia); eauto|].
    rewrite list_lookup_insert_ne by done. by apply U.
  - destruct (ShutdownServer_spec i cfg U Hv) as (cfg' & rn & Hs & U' & _). eauto.
  - destruct Hv as [Hi [Hjs _]]. unfold connect. apply on_links_up; [done|]. by apply connect_wired.
  - destruct Hv as [Hi [Hjs Hl]]. unfold disconnect. apply on_links_up; [done|]. by apply disconnect_wired.
  - apply (on_links_up (fun names => ConnectAll names (n cfg))); [done|]. unfold ConnectAll.
    apply fold_outcome_total; [|reflexivity]. intros i b Hi%elem_of_seq Hw.
    apply connect_wired; [done|lia|apply All_ok|done].
  - destruct Hv as [[H1 L1] [H2 L2]]. unfold partition_servers. apply on_links_up; [done|]. unfold partition.
    destruct (side_wired cfg p1 p2 p1 (net cfg)) as (rn1 & -> & Hw1); [done..|]. simpl.
    by apply side_wired.
  - destruct Hv as [Hi [Hjs _]].
    destruct (makeClient_spec id draws i js cfg (up_wf _ U) Hi Hjs) as (cfg' & -> & W & [F1 F2 _ _ _ _ _ _] & _).
    exists cfg'. split; [done|]. split; [done|]. intros k. rewrite F1, F2. apply U.
  - eexists. split; [done|]. destruct U as [[W1 W2 W3 W4 W5 W6 W7 W8 W9] Hr]. split; [|done]. split; cbn; try done.
    + intros c row [_ Hc]%lookup_delete_Some. by eapply W7.
    + eapply wf_names_sub; [|exact W8]. intros [a b|a b] e; cbn; [done|].
      destruct (delete cl (clients cfg) !! a) as [row|] eqn:Hrow; [|done].
      apply lookup_delete_Some in Hrow as [_ ->]. done.
  - destruct Hv as [[row Hrow] [Hjs _]]. by eapply set_client_up.
  - destruct Hv as [[row Hrow] [Hjs _]]. by eapply set_client_up.
Qed.

(** A server that is shut down is isolated.  In a cluster whose servers have
    all been started, [ShutdownServer i] succeeds; afterwards no link from or to
    [i] is enabled, the network has no server under this name, links between other
    servers are as before, and the cluster is intact. *)
Theorem shutdown_isolates i cfg :
  up cfg → i < n cfg →
  ∃ cfg', ShutdownServer i cfg = Ret cfg' ∧ up cfg' ∧ servers cfg' !! i = Some None ∧
    server_of (net cfg') i = None ∧
    (∀ j, j < n cfg → link (endnames cfg') (net cfg') i j = false ∧ link (endnames cfg') (net cfg') j i = false) ∧
    (∀ j k, j < n cfg → k < n cfg → j ≠ i → k ≠ i →
       link (endnames cfg') (net cfg') j k = link (endnames cfg) (net cfg) j k).
Proof.
  intros U Hi. destruct (ShutdownServer_spec i cfg U Hi) as (cfg' & rn & Hs & U' & Hn & Hd & Hnet & Hrows & _ & Hsv).
  destruct (All_ok cfg) as [Ha Hal].
  destruct (disconnectUnlocked_links _ _ (up_started _ U) i (All (n cfg)) (net cfg) Hi Ha Hal) as (rn' & Hd' & [Li Lo]).
  rewrite Hd in Hd'. injection Hd' as <-.
  exists cfg'. rewrite Hrows, Hnet, Hsv. split_and!; [done|done| | | |].
  - apply list_lookup_insert_eq. by rewrite (wf_servers _ (up_wf _ U)).
  - unfold server_of. simpl. by rewrite lookup_insert_eq.
  - intros j Hj. change (link (endnames cfg) (DeleteServer i rn)) with (link (endnames cfg) rn).
    assert (j ∈ All (n cfg)) by (apply elem_of_seq; lia).
    split; apply Li; try done; [by left|by right].
  - intros j k Hj Hk Hji Hki. change (link (endnames cfg) (DeleteServer i rn)) with (link (endnames cfg) rn).
    apply Lo; [done..|]. intros [[? _]|[? _]]; done.
Qed.

End props.

(** ** A concrete cluster *)

(** Strings of different lengths as names. *)
Fixpoint demo_name (k : nat) : string := match k with O => "" | S k => String "x"%char (demo_name k) end.

#[export] Instance demo_name_inj : Inj (=) (=) demo_name.
Proof.
  assert (∀ k, String.length (demo_name k) = k) as Hl by (induction k; simpl; congruence).
  intros k k' Heq. by rewrite <- (Hl k), Heq.
Qed.

Definition demo_arg (i : nat) : UUID * list nat := ([Byte.x01], [0; 1; 0]).

Definition demo_config : config :=
  match make_config demo_name [] demo_arg 3 false with Ret cfg => cfg | Panic _ => empty_config [] 0 end.

Lemma demo_config_up : up demo_name demo_config ∧ n demo_config = 3.
Proof.
  destruct (make_config_spec demo_name [] demo_arg 3 false) as (cfg & Hm & W & Hn & _ & Hl & _).
  unfold demo_config. rewrite Hm. split; [|done]. split; [done|]. rewrite Hn. intros i Hi.
  destruct (Hl i i Hi Hi) as [_ (e & He & _)]. apply end_name_slot in He. cbn in He.
  destruct (endnames cfg !! i) as [[row|]|]; [eauto|done..].
Qed.

Lemma shutdown_isolates_witness :
  ∃ cfg', ShutdownServer 1 demo_config = Ret cfg' ∧ server_of (net cfg') 1 = None.
Proof.
  destruct (shutdown_isolates demo_name 1 demo_config) as (cfg' & Hs & _ & _ & Hsv & _).
  - apply demo_config_up.
  - destruct demo_config_up as [_ ->]. lia.
  - eauto.
Defined.

(** The provider of a client addresses the ends in a random order: here its call
    to server "0" goes to the end that is connected to server 2. *)
Lemma client_addresses_shuffled :
  ∃ cp e m, providers demo_config !! 2 = Some cp ∧ address cp "0" "Server" "PublicSubmitOp" = Ret (e, m) ∧
    connected_to (net demo_config) e = Some 2.
Proof. eexists _, _, _. split; [vm_compute; reflexivity|]. split; [vm_compute; reflexivity|]. by vm_compute. Qed.
