(* ===== verification/HarnessNames.v ===== *)
(** * The harness with random names

    HarnessProps assumes an injective supply of names.  The names that the
    harness really draws have twenty characters, so that only finitely many of
    them differ.  Here the theorems are stated for the names that [randstring]
    makes of the bytes drawn: it is enough that those drawn so far differ in
    their first fifteen bytes. *)

From stdpp Require Import strings gmap.
From Stdlib Require Import Ascii Strings.Byte.
From S2P Require Import Prelude GoString Bytes Op Client Network ConnectionProvider Links Base64 Harness HarnessProps.
From S2P Require Persister.
Local Open Scope nat_scope.

(** ** Only the names that are drawn matter *)

Section agree.
Context (f g : nat → string).

(** The two supplies agree on the names from [k] to [k + m]. *)
Definition agree (k m : nat) : Prop := ∀ x, k ≤ x < k + m → f x = g x.

Lemma agree_sub k m k' m' : agree k m → k ≤ k' → k' + m' ≤ k + m → agree k' m'.
Proof. intros Ha ?? x Hx. apply Ha. lia. Qed.

Lemma make_ends_agree js : ∀ k rn, agree k (length js) → make_ends f k js rn = make_ends g k js rn.
Proof.
  induction js as [|j js IH]; intros k rn Ha; [done|]. simpl in *. rewrite (Ha k) by lia.
  destruct (MakeEnd (g k) rn) as [rn1|]; [|done]. simpl. apply IH. eapply agree_sub; [exact Ha|lia|lia].
Qed.

Lemma fresh_names_agree cfg : agree (drawn cfg) (n cfg) → fresh_names f cfg = fresh_names g cfg.
Proof.
  intros Ha. unfold fresh_names. apply list_fmap_ext. intros i x [-> Hi]%lookup_seq. apply Ha. lia.
Qed.

Lemma makeClient_agree id draws i to cfg :
  agree (drawn cfg) (n cfg) → makeClient f id draws i to cfg = makeClient g id draws i to cfg.
Proof.
  intros Ha. unfold makeClient. rewrite (fresh_names_agree cfg Ha).
  by rewrite (make_ends_agree (seq 0 (n cfg))) by (by rewrite length_seq).
Qed.

Lemma set_saved_frame cfg ps pw : n (set_saved ps pw cfg) = n cfg ∧ drawn (set_saved ps pw cfg) = drawn cfg.
Proof. done. Qed.

(** Saving does not draw names. *)
Lemma renew_frame i p cfg cfg' :
  match p with
  | Some p => copy_saved i p cfg
  | None =>
      let '(q, pw) := Persister.MakePersister (persisters cfg) in
      ps ← (saved cfg).[i <- Some q]; Ret (set_saved ps pw cfg)
  end = Ret cfg' → n cfg' = n cfg ∧ drawn cfg' = drawn cfg.
Proof.
  destruct p as [p|].
  - intros ([q pw] & _ & (ps & _ & [= <-])%bind_ret_inv)%bind_ret_inv. done.
  - destruct (Persister.MakePersister _) as [q pw]. by intros (ps & _ & [= <-])%bind_ret_inv.
Qed.

Lemma StartServer_agree id draws i cfg :
  agree (drawn cfg) (2 * n cfg) → StartServer f id draws i cfg = StartServer g id draws i cfg.
Proof.
  intros Ha. unfold StartServer. rewrite fresh_names_agree by (eapply agree_sub; [exact Ha|lia|lia]).
  destruct ((endnames cfg).[i <- _]) as [rows|]; [|done]. cbn [mbind outcome_bind].
  rewrite (make_ends_agree (seq 0 (n cfg))) by (rewrite length_seq; eapply agree_sub; [exact Ha|lia|lia]).
  destruct (make_ends g (drawn cfg) _ _) as [rn|]; [|done]. cbn [mbind outcome_bind].
  destruct ((saved cfg).[i]) as [p|]; [|done]. cbn [mbind outcome_bind].
  match goal with |- mbind _ ?o = _ => destruct o as [cfg1|] eqn:Hs; [|done] end. cbn [mbind outcome_bind].
  apply renew_frame in Hs as [Hn Hd].
  destruct ((servers cfg1).[i <- _]) as [ss|]; [|done]. cbn [mbind outcome_bind].
  destruct ((orderedMessagers cfg1).[i <- _]) as [ms|]; [|done]. cbn [mbind outcome_bind].
  rewrite makeClient_agree; [done|]. simpl. rewrite Hn, Hd. eapply agree_sub; [exact Ha|lia|lia].
Qed.

Lemma makeClient_frame id draws i to cfg cl cfg' :
  makeClient g id draws i to cfg = Ret (cl, cfg') → n cfg' = n cfg ∧ drawn cfg' = drawn cfg + n cfg.
Proof.
  unfold makeClient, ConnectClient, set_client.
  intros (rn & _ & (hs & _ & ([x|] & _ & HS)%bind_ret_inv)%bind_ret_inv)%bind_ret_inv; [|done].
  by apply bind_ret_inv in HS as (c2 & (rn2 & _ & [= <-])%bind_ret_inv & [= <- <-]).
Qed.

Lemma StartServer_frame id draws i cfg cfg' :
  StartServer g id draws i cfg = Ret cfg' → n cfg' = n cfg ∧ drawn cfg' = drawn cfg + 2 * n cfg.
Proof.
  unfold StartServer. intros (rows & _ & (rn & _ & (p & _ & (cfg1 & Hs & HS)%bind_ret_inv)%bind_ret_inv)
    %bind_ret_inv)%bind_ret_inv.
  apply renew_frame in Hs as [Hn Hd]. apply bind_ret_inv in HS as (ss & _ & (ms & _ & HS)%bind_ret_inv).
  apply bind_ret_inv in HS as ([cl cfg2] & Hm & (ids & _ & [= <-])%bind_ret_inv).
  apply makeClient_frame in Hm as [Hn2 Hd2]. simpl in *. rewrite Hn2, Hd2, Hn, Hd. lia.
Qed.

Lemma start_all_agree arg srvs : ∀ cfg,
  agree (drawn cfg) (2 * n cfg * length srvs) →
  fold_outcome (fun i => StartServer f (fst (arg i)) (snd (arg i)) i) srvs cfg =
  fold_outcome (fun i => StartServer g (fst (arg i)) (snd (arg i)) i) srvs cfg.
Proof.
  induction srvs as [|i srvs IH]; intros cfg Ha; [done|]. simpl in *.
  rewrite StartServer_agree by (eapply agree_sub; [exact Ha|lia|nia]).
  destruct (StartServer g _ _ i cfg) as [cfg1|] eqn:Hs; [|done]. simpl. apply StartServer_frame in Hs as [Hn Hd].
  apply IH. rewrite Hn, Hd. eapply agree_sub; [exact Ha|lia|nia].
Qed.

Lemma make_config_agree zero arg size unreliable :
  agree 0 (2 * size * size) → make_config f zero arg size unreliable = make_config g zero arg size unreliable.
Proof.
  intros Ha. unfold make_config. by rewrite (start_all_agree arg) by (simpl; by rewrite length_seq).
Qed.

Lemma hexec_agree op cfg : agree (drawn cfg) (2 * n cfg) → hexec f op cfg = hexec g op cfg.
Proof.
  intros Ha. destruct op; try done; simpl; [by apply StartServer_agree|].
  by rewrite makeClient_agree by (eapply agree_sub; [exact Ha|lia|lia]).
Qed.

Lemma wf_agree cfg : agree 0 (drawn cfg) → wf f cfg → wf g cfg.
Proof.
  intros Ha [W1 W2 W3 W4 W5 W6 W7 [B N I] W9]. split; try done. split; [| |exact I].
  - intros e He. destruct (B e He) as (m & Hm & ->). exists m. split; [done|]. apply Ha. lia.
  - intros s e Hs. destruct (N s e Hs) as ((m & Hm & ->) & ? & ?). split; [|done].
    exists m. split; [done|]. apply Ha. lia.
Qed.

End agree.

(** An operation draws at most two names per server. *)
Lemma hexec_drawn f op cfg cfg' : hexec f op cfg = Ret cfg' → drawn cfg' ≤ drawn cfg + 2 * n cfg.
Proof.
  assert (∀ g c c', on_links g c = Ret c' → drawn c' = drawn c) as Hl
    by (intros g c c' (rn & _ & [= <-])%bind_ret_inv; done).
  destruct op; simpl; unfold ConnectClient, DisconnectClient, set_client, ShutdownServer, connect, disconnect, connect_all, partition_servers.
  - intros [_ ->]%StartServer_frame. lia.
  - intros (c1 & Hd%Hl & (p & _ & (c2 & Hs & (kv & _ & HK)%bind_ret_inv)%bind_ret_inv)
      %bind_ret_inv)%bind_ret_inv.
    assert (drawn c2 = drawn cfg) as E.
    { destruct p as [p|]; [|by injection Hs as <-]. apply bind_ret_inv in Hs as ([q pw] & _ & Hs).
      by apply bind_ret_inv in Hs as (ps & _ & [= <-]). }
    destruct kv; [apply bind_ret_inv in HK as (ss & _ & [= <-]); simpl|injection HK as <-]; lia.
  - intros ->%Hl. lia.
  - intros ->%Hl. lia.
  - intros ->%Hl. lia.
  - intros ->%Hl. lia.
  - intros ([cl c1] & [_ Hd]%makeClient_frame & [= <-])%bind_ret_inv. lia.
  - intros [= <-]. simpl. lia.
  - intros (rn & _ & [= <-])%bind_ret_inv. simpl. lia.
  - intros (rn & _ & [= <-])%bind_ret_inv. simpl. lia.
Qed.

(** ** Names made of random bytes *)

Section names.
Context (draws : nat → list byte) (B : nat).
Context (Hlen : ∀ k, length (draws k) = 40).
Context (Hdistinct : ∀ i j, i < B → j < B → take 15 (draws i) = take 15 (draws j) → i = j).

(** The [k]-th name. *)
Definition name (k : nat) : string := name20 (draws k).

Lemma name_length k : String.length (name k) = 20.
Proof.
  unfold name, name20. change 20%Z with (4 * Z.of_nat 5)%Z. rewrite (randstring_spec 5) by apply Hlen.
  rewrite EncodeToString_length, length_take, Hlen. done.
Qed.

(** Beyond the bound, names that are longer. *)
Definition supply (k : nat) : string := if decide (k < B) then name k else demo_name (21 + k).

Lemma demo_name_length k : String.length (demo_name k) = k.
Proof. induction k; simpl; congruence. Qed.

#[local] Instance supply_inj : Inj (=) (=) supply.
Proof.
  intros i j. unfold supply. case_decide as Hi; case_decide as Hj.
  - unfold name, name20. change 20%Z with (4 * Z.of_nat 5)%Z. rewrite !(randstring_spec 5) by apply Hlen.
    intros E%EncodeToString_inj. by apply Hdistinct.
  - intros E%(f_equal String.length). rewrite name_length, demo_name_length in E. lia.
  - intros E%(f_equal String.length). rewrite name_length, demo_name_length in E. lia.
  - intros E%(f_equal String.length). rewrite !demo_name_length in E. lia.
Qed.

Lemma name_supply k m : k + m ≤ B → agree name supply k m.
Proof. intros Hb x Hx. unfold supply. by rewrite decide_True by lia. Qed.

Lemma supply_name k m : k + m ≤ B → agree supply name k m.
Proof. intros Hb x Hx. symmetry. by apply (name_supply k m). Qed.

(** [make_config] produces a working cluster.  For every number n of servers,
    provided that the 2n^2 names it draws differ in their first fifteen random
    bytes, it does not panic or exit, and in the result every server is
    registered, every link between servers is enabled and leads to the right
    server, and for every server there is a client with its recorded identifier
    all of whose ends are enabled and lead to the right servers. *)
Theorem make_config_ready (zero : UUID) arg (size : nat) (unreliable : bool) :
  2 * size * size ≤ B →
  ∃ cfg, make_config name zero arg size unreliable = Ret cfg ∧
    n cfg = size ∧ reliable (net cfg) = negb unreliable ∧
    (∀ i j, i < size → j < size → link (endnames cfg) (net cfg) i j = true ∧
       ∃ e, end_name (endnames cfg) i j = Ret e ∧ connected_to (net cfg) e = Some j) ∧
    (∀ i, i < size → is_Some (server_of (net cfg) i) ∧
       ∃ cl id row, orderedClientIds cfg !! i = Some id ∧ client_Id cfg !! cl = Some id ∧
         clients cfg !! cl = Some row ∧ length row = size ∧
         ∀ j e, row !! j = Some e → is_enabled (net cfg) e = true ∧ connected_to (net cfg) e = Some j).
Proof.
  intros Hb. destruct (make_config_spec supply zero arg size unreliable) as (cfg & Hm & _ & Hrest).
  exists cfg. split; [|done]. by rewrite (make_config_agree name supply) by (by apply name_supply).
Qed.

(** C37: the operations of the harness are type-safe.  In a cluster whose servers
    have all been started at least once, as long as the names drawn differ in their
    first fifteen random bytes, every operation of the harness that is called with
    numbers of servers and with existing clients, and with a server that is running
    as the local server of a new client, succeeds (no index is out of range, no nil
    pointer is followed, no end name is used twice), and leaves such a cluster:
    every slot holds its own end, connected to the right server.  The condition on
    the local server is necessary: after it has been shut down, [makeClient] follows
    a nil pointer. *)
Theorem harness_operations_total (op : hop) cfg :
  up name cfg → drawn cfg + 2 * n cfg ≤ B →
  (hvalid op cfg → ∃ cfg', hexec name op cfg = Ret cfg' ∧ up name cfg') ∧
  (∀ id ds i js, servers cfg !! i = Some None →
     hexec name (HMakeClient id ds i js) cfg = Panic NilDereference).
Proof.
  intros [W Hr] Hb. assert (wf supply cfg) as W' by (eapply wf_agree; [apply name_supply; lia|done]). split.
  - intros Hv. destruct (hexec_total supply op cfg) as (cfg' & Hx & [W1 Hr1]); [by split|done|].
    exists cfg'. rewrite (hexec_agree name supply) by (by apply name_supply). split; [done|].
    split; [|done]. eapply wf_agree; [|exact W1]. apply supply_name. apply hexec_drawn in Hx. lia.
  - intros id ds i js Hi. rewrite (hexec_agree name supply) by (by apply name_supply).
    cbn [hexec]. by rewrite (makeClient_nil supply).
Qed.

End names.

(** ** A concrete cluster *)

(** The bytes of the [k]-th draw: its number, in forty bytes. *)
Definition demo_draws (k : nat) : list byte := replicate 14 Byte.x00 ++ [z2b (Z.of_nat k)] ++ replicate 25 Byte.x01.

Lemma demo_draws_length k : length (demo_draws k) = 40.
Proof. done. Qed.

Lemma demo_draws_distinct i j : i < 256 → j < 256 → take 15 (demo_draws i) = take 15 (demo_draws j) → i = j.
Proof.
  intros Hi Hj E. apply (f_equal (fun l => l !! 14)) in E. simpl in E. injection E as E.
  apply (f_equal b2z) in E. rewrite !b2z_z2b, !Z.mod_small in E by lia. lia.
Qed.

Lemma make_config_ready_witness :
  ∃ cfg, make_config (name demo_draws) [] demo_arg 3 true = Ret cfg ∧ reliable (net cfg) = false ∧
    link (endnames cfg) (net cfg) 0 2 = true.
Proof.
  destruct (make_config_ready demo_draws 256 demo_draws_length demo_draws_distinct [] demo_arg 3 true)
    as (cfg & Hm & _ & Hr & Hl & _); [lia|].
  exists cfg. split_and!; [exact Hm|exact Hr|]. apply Hl; lia.
Defined.

Definition small_config : config :=
  match make_config (name demo_draws) [] demo_arg 3 false with Ret cfg => cfg | Panic _ => empty_config [] 0 end.

Lemma small_config_up : up (name demo_draws) small_config ∧ n small_config = 3 ∧ drawn small_config = 18.
Proof.
  pose proof (supply_inj demo_draws 256 demo_draws_length demo_draws_distinct) as Hinj.
  destruct (make_config_spec (supply demo_draws 256) [] demo_arg 3 false) as (cfg & Hm & W & Hn & _ & Hl & _).
  assert (agree (supply demo_draws 256) (name demo_draws) 0 (2 * 3 * 3)) as Ha by (apply supply_name; lia).
  rewrite (make_config_agree _ _ [] demo_arg 3 false Ha) in Hm. clear Ha.
  assert (drawn small_config = 18) as Hd by (vm_compute; reflexivity).
  assert (small_config = cfg) as E by (unfold small_config; rewrite Hm; reflexivity).
  rewrite <- E in *. clear E Hm.
  split_and!; [|done|done]. split.
  - apply (wf_agree (supply demo_draws 256)); [apply supply_name; simpl; rewrite Hd; lia|exact W].
  - rewrite Hn. intros i Hi. destruct (Hl i i Hi Hi) as [_ (e & He & _)]. apply end_name_slot in He. cbn in He.
    destruct (endnames small_config !! i) as [[row|]|]; [eauto|done..].
Qed.

Lemma harness_operations_total_witness :
  (∃ cfg', hexec (name demo_draws) (HPartition [0; 2] [1]) small_config = Ret cfg' ∧ up (name demo_draws) cfg') ∧
  ∃ cfg' cfg'', hexec (name demo_draws) (HMakeClient [Byte.x07] [] 1 [0]) small_config = Ret cfg' ∧
    hexec (name demo_draws) (HShutdown 1) small_config = Ret cfg'' ∧ up (name demo_draws) cfg''.
Proof.
  destruct small_config_up as (Hu & Hn & Hd).
  pose proof (fun op => harness_operations_total demo_draws 256 demo_draws_length demo_draws_distinct op
    small_config Hu ltac:(lia)) as Ht.
  split.
  - apply (Ht (HPartition [0; 2] [1])). split; split; rewrite Hn; simpl; repeat constructor; lia.
  - destruct (proj1 (Ht (HMakeClient [Byte.x07] [] 1 [0]))) as (c1 & H1 & _).
    { split; [eexists; vm_compute; reflexivity|]. split; rewrite Hn; simpl; repeat constructor; lia. }
    destruct (proj1 (Ht (HShutdown 1))) as (c2 & H2 & U2); [simpl; lia|]. exists c1, c2. split_and!; assumption.
Defined.

