(* ===== verification/HarnessChecks.v ===== *)
(** * What the tests check

    Model of the helper functions of src/anonbcast/config.go with which the tests
    judge a round: the comparison of message lists, the messages that a round is
    expected to have, and the comparison of the participants with the
    configuration.  [cfg.t.Fatalf] is the panic [Fatal]. *)

From stdpp Require Import strings gmap sorting.
From Stdlib Require Import Strings.Byte.
From S2P Require Import Prelude GoString Bytes Op Network ConnectionProvider Links Harness HarnessProps.
Local Open Scope nat_scope.

(** [string(b)]. *)
Definition to_string (b : list byte) : string := String.string_of_list_byte b.

(** The loop over the sorted copies, from position [i]. *)
Fixpoint equal_from (i : nat) (s1c s2c : list string) : outcome bool :=
  match s1c with
  | [] => Ret true
  | c1 :: s1c' =>
      c2 ← s2c.[i];
      if bool_decide (c1 ≠ c2) then Ret false else equal_from (S i) s1c' s2c
  end.

Definition equalContents (s1 s2 : list string) : outcome bool :=
  if bool_decide (length s1 ≠ length s2) then Ret false else
  let s1c := go_copy (replicate (length s1) "") s1 in
  let s2c := go_copy (replicate (length s2) "") s2 in
  equal_from 0 (sort_Strings s1c) (sort_Strings s2c).

Definition equalContentsBytes (b1 b2 : list (list byte)) : outcome bool :=
  equalContents (to_string <$> b1) (to_string <$> b2).

(** [messageGenerator.Message]; the generator is given by its identifier. *)
Definition Message (id : string) (round : Z) : list byte :=
  String.list_byte_of_string ("message in round " +:+ Itoa round +:+ " from " +:+ id).

(** Calling a messager that is nil panics. *)
Definition message_of (mg : option string) (round : Z) : outcome (list byte) :=
  match mg with Some id => Ret (Message id round) | None => Panic NilDereference end.

(** The inner loop of [oneRoundWithExpectedConfiguration]: the messages of the
    clients whose identifier is [p] and not [c1Id], from position [j]. *)
Fixpoint messages_for (p c1Id : UUID) (round : Z) (mgs : list (option string)) (j : nat) (ids : list UUID)
    : outcome (list (list byte)) :=
  match ids with
  | [] => Ret []
  | id :: ids' =>
      here ← (if bool_decide (p = id) && bool_decide (id ≠ c1Id)
              then mgj ← mgs.[j]; m ← message_of mgj round; Ret [m] else Ret []);
      rest ← messages_for p c1Id round mgs (S j) ids';
      Ret (here ++ rest)
  end.

(** The expected messages of a round in which only the client [c1Id] was waited
    for. *)
Definition expected_race (mg1 : option string) (c1Id : UUID) (round : Z) (participants ids : list UUID)
    (mgs : list (option string)) : outcome (list (list byte)) :=
  m1 ← message_of mg1 round;
  others ← map_outcome (fun p => messages_for p c1Id round mgs 0 ids) participants;
  Ret (m1 :: concat others).

(** The expected messages of a round in which everybody was waited for. *)
Definition expected_all (round : Z) (mgs : list (option string)) : outcome (list (list byte)) :=
  map_outcome (fun mg => message_of mg round) mgs.

(** The checks at the end of an iteration. *)
Definition check_round (expected : list (list byte)) (actualRound : Z) (rRound : Z) (succeeded : bool)
    (messages : list (list byte)) : outcome unit :=
  if bool_decide (rRound ≠ actualRound) then Panic Fatal else
  if negb succeeded then Panic Fatal else
  same ← equalContentsBytes expected messages;
  if same : bool then Ret tt else Panic Fatal.

(** ** Configurations *)

#[export] Program Instance byte_countable : Countable byte := inj_countable Byte.to_N Byte.of_N _.
Next Obligation. intros b. apply Byte.of_to_N. Qed.

(** [getActiveClientIds]; the keys of the map in any order. *)
Fixpoint getActiveClientIds (keys : list string) (ids : list UUID) : outcome (gset UUID) :=
  match keys with
  | [] => Ret ∅
  | s :: keys' =>
      match Atoi s with
      | None => Panic ExplicitPanic
      | Some sI =>
          id ← (if (sI <? 0)%Z then Panic IndexOutOfRange else ids.[Z.to_nat sI]);
          rest ← getActiveClientIds keys' ids;
          Ret ({[id]} ∪ rest)
      end
  end.

(** [getClientById]: a client of the configuration with this identifier. *)
Definition client_with_id (cfg : config) (id : UUID) : option nat :=
  fst <$> head (map_to_list (filter (fun kv => client_Id cfg !! fst kv = Some id) (clients cfg))).

Definition getClientById (cfg : config) (id : UUID) : outcome nat :=
  match client_with_id cfg id with Some cl => Ret cl | None => Panic Fatal end.

(** [getActiveClient]; [key] is the key that the first iteration over the map
    yields, [None] when the map is empty; the identifier is then zero. *)
Definition getActiveClient (zero : UUID) (key : option string) (cfg : config)
    : outcome (UUID * nat * option string) :=
  '(cId, mg) ← match key with
    | None => Ret (zero, None)
    | Some s =>
        match Atoi s with
        | None => Panic ExplicitPanic
        | Some sI =>
            if (sI <? 0)%Z then Panic IndexOutOfRange else
            id ← (orderedClientIds cfg).[Z.to_nat sI];
            mg ← (orderedMessagers cfg).[Z.to_nat sI];
            Ret (id, mg)
        end
    end;
  cl ← getClientById cfg cId;
  Ret (cId, cl, mg).

Fixpoint all_active (participants : list UUID) (active : gset UUID) : outcome unit :=
  match participants with
  | [] => Ret tt
  | p :: ps => if bool_decide (p ∈ active) then all_active ps active else Panic Fatal
  end.

(** [checkConfigurationMatchesParticipants]: [keys] are the keys of the expected
    configuration and [key] the one that [getActiveClient] meets first;
    [participants cl] is the list of participants of the current round in the last
    state machine of the client [cl]. *)
Definition checkConfigurationMatchesParticipants (zero : UUID) (key : option string) (keys : list string)
    (participants : nat → list UUID) (cfg : config) : outcome unit :=
  activeClientIds ← getActiveClientIds keys (orderedClientIds cfg);
  '(_, activeClient, _) ← getActiveClient zero key cfg;
  let participants := participants activeClient in
  if bool_decide (length participants ≠ size activeClientIds) then Panic Fatal else
  all_active participants activeClientIds.

(** ** The leader *)

(** The loop of [Leader] over the servers [srvs]; [is_leader] is what [GetState]
    answers for the Raft instance of a server.  A server that was shut down is a
    nil pointer. *)
Fixpoint leader_from (is_leader : nat → bool) (srvs : list nat) (cfg : config) : outcome (bool * nat) :=
  match srvs with
  | [] => Ret (false, 0)
  | i :: srvs' =>
      sv ← (servers cfg).[i];
      match sv with
      | None => Panic NilDereference
      | Some rf => if is_leader rf then Ret (true, i) else leader_from is_leader srvs' cfg
      end
  end.

Definition Leader (is_leader : nat → bool) (cfg : config) : outcome (bool * nat) :=
  leader_from is_leader (seq 0 (n cfg)) cfg.

(** [make_partition] on the servers of the configuration. *)
Definition partition_around_leader (is_leader : nat → bool) (cfg : config) : outcome (list nat * list nat) :=
  '(_, l) ← Leader is_leader cfg;
  make_partition (n cfg) l.

(** [DisconnectClientById]: without such a client the names are a nil slice. *)
Definition DisconnectClientById (id : UUID) (from : list nat) (cfg : config) : outcome config :=
  match client_with_id cfg id with
  | Some cl => DisconnectClient cl from cfg
  | None => rn ← set_client_links false [] from (net cfg); Ret (set_net rn cfg)
  end.

(** ** Theorems *)

Lemma equal_from_spec s1c : ∀ pre s2c,
  length s1c = length s2c → equal_from (length pre) s1c (pre ++ s2c) = Ret (bool_decide (s1c = s2c)).
Proof.
  induction s1c as [|c1 s1c IH]; intros pre [|c2 s2c] Hl; simplify_eq/=; [done|].
  rewrite (proj2 (slice_get_ret _ _ c2)) by (by apply list_lookup_middle). simpl.
  case_bool_decide as Hc.
  - by rewrite bool_decide_false by naive_solver.
  - subst c1. specialize (IH (pre ++ [c2]) s2c Hl).
    rewrite <- app_assoc, length_app in IH. simpl in IH. replace (length pre + 1) with (S (length pre)) in IH by lia.
    rewrite IH. f_equal. apply bool_decide_ext. naive_solver.
Qed.

(** [equalContents] decides whether two lists are permutations of each other. *)
Lemma equalContents_spec s1 s2 : equalContents s1 s2 = Ret (bool_decide (s1 ≡ₚ s2)).
Proof.
  unfold equalContents. case_bool_decide as Hl.
  - rewrite bool_decide_false; [done|]. intros Hp. apply Hl. by rewrite Hp.
  - rewrite !go_copy_same by (by rewrite length_replicate).
    pose proof (equal_from_spec (sort_Strings s1) [] (sort_Strings s2)) as He. simpl in He.
    rewrite He by (by rewrite !sort_Strings_perm). f_equal. apply bool_decide_ext. split.
    + intros Hs. rewrite <- (sort_Strings_perm s1), <- (sort_Strings_perm s2). by rewrite Hs.
    + apply sort_Strings_proper.
Qed.

#[export] Instance to_string_inj : Inj (=) (=) to_string.
Proof.
  intros b b' Hb. unfold to_string in Hb.
  rewrite <- (String.list_byte_of_string_of_list_byte b), Hb. apply String.list_byte_of_string_of_list_byte.
Qed.

(** Injective functions reflect permutations. *)
Lemma fmap_Permutation_inv {A B} (f : A → B) `{!Inj (=) (=) f} (l k : list A) :
  f <$> l ≡ₚ f <$> k ↔ l ≡ₚ k.
Proof.
  split; [|by intros ->]. intros (l' & Heq & Hp)%Permutation_map_inv.
  apply (inj (map f)) in Heq. by subst.
Qed.

Lemma equalContentsBytes_spec b1 b2 : equalContentsBytes b1 b2 = Ret (bool_decide (b1 ≡ₚ b2)).
Proof.
  unfold equalContentsBytes. rewrite equalContents_spec. f_equal. apply bool_decide_ext.
  apply (fmap_Permutation_inv to_string).
Qed.

(** The check of a round accepts exactly the right results.  An iteration of
    [oneRoundWithExpectedConfiguration] passes its checks if and only if the result
    is that of the round, it succeeded, and its messages are the expected ones in
    some order; otherwise the test fails. *)
Theorem check_round_exact expected actualRound rRound succeeded messages :
  check_round expected actualRound rRound succeeded messages =
  if bool_decide (rRound = actualRound ∧ succeeded = true ∧ expected ≡ₚ messages)
  then Ret tt else Panic Fatal.
Proof.
  unfold check_round. rewrite equalContentsBytes_spec. destruct succeeded; repeat case_bool_decide; simpl;
    try done; repeat case_bool_decide; naive_solver.
Qed.

(** [f] gives the messager of every client identifier. *)
Definition messagers_of (f : UUID → string) (ids : list UUID) (mgs : list (option string)) : Prop :=
  ∀ j id, ids !! j = Some id → mgs !! j = Some (Some (f id)).

Lemma messages_for_spec f p c1Id round mgs ids : ∀ j,
  NoDup ids → (∀ k id, ids !! k = Some id → mgs !! (j + k) = Some (Some (f id))) →
  messages_for p c1Id round mgs j ids =
  Ret (if bool_decide (p ∈ ids ∧ p ≠ c1Id) then [Message (f p) round] else []).
Proof.
  induction ids as [|id ids IH]; intros j Hnd Hm; cbn [messages_for].
  { rewrite bool_decide_false; [done|]. set_solver. }
  apply NoDup_cons in Hnd as [Hni Hnd].
  pose proof (Hm 0 id eq_refl) as H0. rewrite Nat.add_0_r in H0.
  rewrite IH; [|done|].
  2: { intros k id' Hk. replace (S j + k) with (j + S k) by lia. by apply Hm. }
  unfold slice_get. rewrite H0. cbn [mbind outcome_bind message_of].
  destruct (decide (p = id)) as [-> |Hne].
  - rewrite (bool_decide_true (id = id)) by done. rewrite (bool_decide_false (id ∈ ids ∧ _)) by naive_solver.
    cbn [andb]. destruct (decide (id = c1Id)).
    + rewrite (bool_decide_false (id ≠ c1Id)) by naive_solver. simpl.
      by rewrite bool_decide_false by naive_solver.
    + rewrite (bool_decide_true (id ≠ c1Id)) by done. simpl.
      by rewrite bool_decide_true by set_solver.
  - rewrite (bool_decide_false (p = id)) by done. cbn [andb mbind outcome_bind app].
    rewrite (bool_decide_ext (p ∈ ids ∧ p ≠ c1Id) (p ∈ id :: ids ∧ p ≠ c1Id)); [done|]. set_solver.
Qed.

Lemma filter_ne_perm (c1Id : UUID) l :
  NoDup l → c1Id ∈ l → l ≡ₚ c1Id :: filter (.≠ c1Id) l.
Proof.
  intros Hnd Hin. apply NoDup_Permutation; [done| |].
  - apply NoDup_cons. split; [|by apply NoDup_filter]. rewrite list_elem_of_filter. naive_solver.
  - intros x. rewrite elem_of_cons, list_elem_of_filter. destruct (decide (x = c1Id)); naive_solver.
Qed.

(** The expected messages are those of the participants.  When every client
    has a messager, identifiers are distinct, and the client that raced is one of
    the participants, the messages that the test expects are the messages of the
    participants of the round, each once. *)
Theorem expected_race_participants f mg1 c1Id round participants ids mgs :
  NoDup ids → messagers_of f ids mgs → NoDup participants → participants ⊆ ids →
  c1Id ∈ participants → mg1 = Some (f c1Id) →
  ∃ ms, expected_race mg1 c1Id round participants ids mgs = Ret ms ∧
    ms ≡ₚ (fun p => Message (f p) round) <$> participants.
Proof.
  intros Hndi Hm Hndp Hsub Hc1 ->. unfold expected_race. cbn [message_of mbind outcome_bind].
  assert (∀ ps, ps ⊆ ids → map_outcome (fun p => messages_for p c1Id round mgs 0 ids) ps =
    Ret ((fun p => if bool_decide (p ≠ c1Id) then [Message (f p) round] else []) <$> ps)) as Hmap.
  { induction ps as [|p ps IH]; intros Hps; [done|]. cbn [map_outcome].
    rewrite (messages_for_spec f) by done. cbn [mbind outcome_bind]. rewrite IH by set_solver.
    cbn [mbind outcome_bind fmap list_fmap].
    rewrite (bool_decide_ext (p ∈ ids ∧ p ≠ c1Id) (p ≠ c1Id)); [done|]. set_solver. }
  rewrite Hmap by done. cbn [mbind outcome_bind]. eexists. split; [done|].
  rewrite (filter_ne_perm c1Id participants) at 2 by done. rewrite fmap_cons. f_equiv.
  apply reflexive_eq. clear. induction participants as [|p ps IH]; [done|]. cbn [fmap list_fmap concat].
  case_bool_decide as Hp.
  - rewrite filter_cons_True by exact Hp. simpl. by rewrite IH.
  - rewrite filter_cons_False by (intros Hq; by apply Hq). simpl. by rewrite IH.
Qed.

(** Two clients that both take part. *)
Lemma expected_race_participants_witness :
  ∃ ms, expected_race (Some "0") [Byte.x0a] 3 [[Byte.x0b]; [Byte.x0a]] [[Byte.x0a]; [Byte.x0b]]
      [Some "0"; Some "1"] = Ret ms ∧ ms ≡ₚ [Message "1" 3; Message "0" 3].
Proof.
  destruct (expected_race_participants (fun id => if bool_decide (id = [Byte.x0a]) then "0" else "1")
    (Some "0") [Byte.x0a] 3 [[Byte.x0b]; [Byte.x0a]] [[Byte.x0a]; [Byte.x0b]] [Some "0"; Some "1"])
    as (ms & Hm & Hp).
  - apply (bool_decide_unpack _). by vm_compute.
  - intros [|[|j]] id Hid; simplify_eq/=; done.
  - apply (bool_decide_unpack _). by vm_compute.
  - set_solver.
  - set_solver.
  - done.
  - exists ms. split; [exact Hm|]. etransitivity; [exact Hp|]. vm_compute. reflexivity.
Defined.

Lemma all_active_spec ps X :
  all_active ps X = if bool_decide (Forall (.∈ X) ps) then Ret tt else Panic Fatal.
Proof.
  induction ps as [|p ps IH]; simpl; [done|]. rewrite IH.
  destruct (decide (p ∈ X)) as [Hp|Hp].
  - rewrite (bool_decide_true (p ∈ X)) by done.
    rewrite (bool_decide_ext (Forall (.∈ X) (p :: ps)) (Forall (.∈ X) ps)); [done|].
    rewrite Forall_cons. naive_solver.
  - rewrite (bool_decide_false (p ∈ X)) by done. rewrite bool_decide_false; [done|]. rewrite Forall_cons. naive_solver.
Qed.

Lemma getActiveClientIds_spec ids js :
  Forall (fun j => j < length ids) js → (Z.of_nat (length ids) ≤ int_max)%Z →
  ∃ X, getActiveClientIds ((fun j => Itoa (Z.of_nat j)) <$> js) ids = Ret X ∧
    ∀ id, id ∈ X ↔ ∃ j, j ∈ js ∧ ids !! j = Some id.
Proof.
  intros Hjs Hlen. induction Hjs as [|j js Hj _ IH]; [exists ∅; split; [done|set_solver]|].
  destruct IH as (X & HX & Hin). cbn [fmap list_fmap getActiveClientIds].
  rewrite Atoi_Itoa by (unfold int_min in *; lia). rewrite (proj2 (Z.ltb_ge _ _)) by lia. rewrite Nat2Z.id.
  destruct (lookup_lt_is_Some_2 ids j Hj) as [id Hid]. rewrite (proj2 (slice_get_ret _ _ _) Hid).
  cbn [mbind outcome_bind]. change (list_fmap _ _ _ js) with ((fun j => Itoa (Z.of_nat j)) <$> js).
  rewrite HX. cbn [mbind outcome_bind]. eexists. split; [done|]. set_solver.
Qed.

(** The check of the participants.  For participants without repetition,
    [checkConfigurationMatchesParticipants] passes if and only if the participants
    that the active client sees are exactly the clients of the servers in the
    expected configuration. *)
Theorem configuration_check_exact zero key js participants cfg id cl mg :
  Forall (fun j => j < length (orderedClientIds cfg)) js →
  (Z.of_nat (length (orderedClientIds cfg)) ≤ int_max)%Z →
  getActiveClient zero key cfg = Ret (id, cl, mg) → NoDup (participants cl) →
  checkConfigurationMatchesParticipants zero key ((fun j => Itoa (Z.of_nat j)) <$> js) participants cfg = Ret tt ↔
  ∀ id, id ∈ participants cl ↔ ∃ j, j ∈ js ∧ orderedClientIds cfg !! j = Some id.
Proof.
  intros Hjs Hlen Hact Hnd. destruct (getActiveClientIds_spec _ js Hjs Hlen) as (X & HX & Hin).
  unfold checkConfigurationMatchesParticipants. rewrite HX. cbn [mbind outcome_bind].
  rewrite Hact. cbn [mbind outcome_bind].
  assert ((∀ id, id ∈ participants cl ↔ ∃ j, j ∈ js ∧ orderedClientIds cfg !! j = Some id) ↔
    list_to_set (participants cl) = X) as ->.
  { rewrite set_eq. setoid_rewrite elem_of_list_to_set. by setoid_rewrite Hin. }
  rewrite all_active_spec. split.
  - case_bool_decide as Hl; [done|]. case_bool_decide as Hall; [|done]. intros _.
    apply set_subseteq_size_eq.
    + rewrite Forall_forall in Hall. set_solver.
    + rewrite size_list_to_set by done. lia.
  - intros <-. rewrite bool_decide_false by (rewrite size_list_to_set by done; naive_solver).
    rewrite bool_decide_true; [done|]. apply Forall_forall. set_solver.
Qed.

Lemma leader_from_spec is_leader cfg srvs :
  (∀ i, i ∈ srvs → ∃ rf, servers cfg !! i = Some (Some rf)) →
  (∃ pre i rest rf, srvs = pre ++ i :: rest ∧ leader_from is_leader srvs cfg = Ret (true, i) ∧
     servers cfg !! i = Some (Some rf) ∧ is_leader rf = true) ∨
  leader_from is_leader srvs cfg = Ret (false, 0) ∧
    ∀ i rf, i ∈ srvs → servers cfg !! i = Some (Some rf) → is_leader rf = false.
Proof.
  induction srvs as [|i srvs IH]; intros Hup; simpl; [right; set_solver|].
  destruct (Hup i) as [rf Hrf]; [set_solver|].
  rewrite (proj2 (slice_get_ret _ _ _) Hrf). cbn [mbind outcome_bind].
  destruct (is_leader rf) eqn:Hl; [left; exists [], i, srvs, rf; by split_and!|].
  destruct IH as [(pre & k & rest & rf' & -> & Hr)|[Hr Hno]]; [set_solver| |].
  - left. exists (i :: pre), k, rest, rf'. split_and!; [done|apply Hr..].
  - right. split; [done|]. intros k rf' [-> |Hk]%elem_of_cons Hs; [by simplify_eq|eauto].
Qed.

(** In a cluster of at least two servers that are all up, [make_partition] returns
    two groups with a leader in the smaller one, or server 0 if there is none. *)
Theorem partition_around_leader_spec is_leader cfg :
  2 ≤ n cfg → (∀ i, i < n cfg → ∃ rf, servers cfg !! i = Some (Some rf)) →
  ∃ p1 p2 l, partition_around_leader is_leader cfg = Ret (p1, p2) ∧ l ∈ p2 ∧ length p2 < length p1 ∧
    p1 ++ p2 ≡ₚ (if Nat.odd (n cfg) then seq 0 (n cfg) else 0 :: seq 0 (n cfg)) ∧
    ((∃ rf, servers cfg !! l = Some (Some rf) ∧ is_leader rf = true) ∨
     l = 0 ∧ ∀ i rf, i < n cfg → servers cfg !! i = Some (Some rf) → is_leader rf = false).
Proof.
  intros Hn Hup. unfold partition_around_leader, Leader.
  destruct (leader_from_spec is_leader cfg (seq 0 (n cfg))) as [(pre & l & rest & rf & Hs & Hr & Hrf & Hl)|[Hr Hno]].
  { intros i Hi%elem_of_seq. apply Hup. lia. }
  - assert (l ∈ seq 0 (n cfg)) as Hlt%elem_of_seq by (rewrite Hs; set_solver).
    destruct (make_partition_splits (n cfg) l) as (p1 & p2 & Hp & H1 & H2 & Hin & Hperm); [lia..|].
    rewrite Hr. cbn [mbind outcome_bind]. exists p1, p2, l. split_and!; [done..|lia|done|]. left. eauto.
  - destruct (make_partition_splits (n cfg) 0) as (p1 & p2 & Hp & H1 & H2 & Hin & Hperm); [lia..|].
    rewrite Hr. cbn [mbind outcome_bind]. exists p1, p2, 0. split_and!; [done..|lia|done|]. right. split; [done|].
    intros i rf Hi. apply Hno. apply elem_of_seq. lia.
Qed.

(** The cluster of three servers of [HarnessProps]. *)
Lemma configuration_check_demo :
  checkConfigurationMatchesParticipants [] (Some "1") ["1"; "0"; "2"] (fun _ => [[Byte.x01]]) demo_config = Ret tt ∧
  Leader (fun rf => bool_decide (rf = 3)) demo_config = Ret (true, 1).
Proof. split; vm_compute; reflexivity. Qed.
