(* ===== verification/OneRound.v ===== *)
(** * The rounds that the tests run

    Model of [oneRoundWithExpectedConfiguration] and [oneRound] of
    src/anonbcast/config.go, which carry two rounds and judge their results, and
    of the statistics of a test.  The driver reads the last state machine of a
    client again and again and receives results from [resultOrderer]: the
    machines it sees and the results it receives are its arguments, in the order
    in which it reads them; when they run out it still waits.

    The theorems show that the driver passes on what the clients deliver and
    fails on anything else. *)

From stdpp Require Import strings gmap.
From Stdlib Require Import Strings.Byte.
From S2P Require Import Prelude GoString Bytes Crypto Op StateMachine RoundSpec StateMachineProps Representation.
From S2P Require Import Client LastStateMachine ClientLoop Layers Protocol.
From S2P Require Import RpcServer Network NetworkProps NetworkTheorems ConnectionProvider ResultOrder Links Harness HarnessProps HarnessChecks.
Local Open Scope Z_scope.

Section one_round.
Context {C : Type} `{CommutativeCrypto C} (debug : bool).
Implicit Types (sm : StateMachine C) (samples : list (StateMachine C)).

(** ** The loops *)

(** [for err != nil { err = c1.Start(actualRound) }]; [None] when it still
    waits.  The result is the operation submitted and the machines not yet read. *)
Fixpoint start_loop (Id : UUID) (crypto : C) (actualRound : Z) samples
    : outcome (option (Op C * list (StateMachine C))) :=
  match samples with
  | [] => Ret None
  | sm :: samples' =>
      r ← Start debug Id crypto sm actualRound;
      match r with
      | inr op => Ret (Some (op, samples'))
      | inl _ => start_loop Id crypto actualRound samples'
      end
  end.

(** The loop that waits for everyone to join. *)
Fixpoint wait_for_all (actualRound : Z) (expected : nat) samples : outcome (option (list (StateMachine C))) :=
  match samples with
  | [] => Ret None
  | sm :: samples' =>
      if bool_decide (Round sm ≠ actualRound) then wait_for_all actualRound expected samples' else
      '(r, _) ← CurrentRoundInfo debug sm;
      '(ri, _) ← load r sm;
      if bool_decide (length (Participants ri) < expected)%nat then wait_for_all actualRound expected samples'
      else Ret (Some samples')
  end.

(** The loop that waits for the next round. *)
Fixpoint wait_for_next (round : Z) samples : option (StateMachine C * list (StateMachine C)) :=
  match samples with
  | [] => None
  | sm :: samples' =>
      if bool_decide (Round sm ≠ wrap64 (round + 1)) then wait_for_next round samples' else Some (sm, samples')
  end.

(** ** One iteration *)

Record test := mkTest { c1Id : UUID; mg1 : option string; ids : list UUID; mgs : list (option string);
  expectedSize : nat; newCrypto : C }.

(** The expected messages of iteration [i]; [None] while it waits. *)
Definition expectedMessages (t : test) (i : nat) (r : RoundResult) samples
    : outcome (option (list (list byte) * list (StateMachine C))) :=
  if bool_decide (i mod 2 = 0)%nat then
    _ ← message_of (mg1 t) (rr_Round r);
    match wait_for_next (rr_Round r) samples with
    | None => Ret None
    | Some (sm1, samples) =>
        match GetRoundInfo sm1 (rr_Round r) with
        | (_, Some _) => Panic Fatal
        | (ref, None) =>
            '(ri, _) ← load ref sm1;
            ms ← expected_race (mg1 t) (c1Id t) (rr_Round r) (Participants ri) (ids t) (mgs t);
            Ret (Some (ms, samples))
        end
    end
  else ms ← expected_all (rr_Round r) (mgs t); Ret (Some (ms, samples)).

(** Starting the round, in iteration [i]. *)
Definition startRound (t : test) (i : nat) (actualRound : Z) samples
    : outcome (option (Op C * list (StateMachine C))) :=
  if bool_decide (i mod 2 = 0)%nat then start_loop (c1Id t) (newCrypto t) actualRound samples
  else
    w ← wait_for_all actualRound (expectedSize t) samples;
    match w with
    | None => Ret None
    | Some samples => start_loop (c1Id t) (newCrypto t) actualRound samples
    end.

(** The loop over [i < 2]; the operations submitted so far are [ops]. *)
Fixpoint rounds_from (t : test) (k i : nat) (round : Z) samples (results : list RoundResult) (ops : list (Op C))
    : outcome (option (list (Op C))) :=
  match k with
  | O => Ret (Some ops)
  | S k' =>
      let actualRound := wrap64 (round + Z.of_nat i) in
      st ← startRound t i actualRound samples;
      match st, results with
      | Some (op, samples), r :: results =>
          if bool_decide (rr_Round r ≠ actualRound) then Panic Fatal else
          if negb (Succeeded r) then Panic Fatal else
          e ← expectedMessages t i r samples;
          match e with
          | None => Ret None
          | Some (expected, samples) =>
              same ← equalContentsBytes expected (rr_Messages r);
              if same : bool then rounds_from t k' (S i) round samples results (ops ++ [op]) else Panic Fatal
          end
      | _, _ => Ret None
      end
  end.

(** [None] while it waits; otherwise the operations submitted and the number
    returned. *)
Definition oneRoundWithExpectedConfiguration (zero : UUID) (crypto : C) (key : option string) (size : nat)
    (round : Z) samples (results : list RoundResult) (cfg : config) : outcome (option (list (Op C) * Z)) :=
  '(c1Id, _, mg1) ← getActiveClient zero key cfg;
  let t := mkTest c1Id mg1 (orderedClientIds cfg) (orderedMessagers cfg) size crypto in
  ops ← rounds_from t 2 0 round samples results [];
  match ops with Some ops => Ret (Some (ops, wrap64 (round + 1))) | None => Ret None end.

(** The expected configuration of [oneRound] has a key for every server. *)
Definition oneRound (zero : UUID) (crypto : C) (key : option string) (round : Z) samples
    (results : list RoundResult) (cfg : config) : outcome (option (list (Op C) * Z)) :=
  oneRoundWithExpectedConfiguration zero crypto key (n cfg) round samples results cfg.

(** ** What a passed test shows *)

Lemma start_loop_op Id crypto actualRound samples op rest :
  start_loop Id crypto actualRound samples = Ret (Some (op, rest)) →
  op = StartOp Id actualRound (Some crypto) ∧
  ∃ pre sm, samples = pre ++ sm :: rest ∧ Round sm = actualRound.
Proof.
  induction samples as [|sm samples IH]; simpl; [done|]. intros (r & Hr & HS)%bind_ret_inv.
  destruct r as [e|op'].
  - destruct (IH HS) as [-> (pre & sm' & -> & ?)]. split; [done|]. by exists (sm :: pre), sm'.
  - injection HS as <- <-. unfold Start in Hr.
    destruct (Round sm =? actualRound) eqn:HR; simpl in Hr; [|done]. apply Z.eqb_eq in HR.
    apply bind_ret_inv in Hr as ([a b] & _ & Hr). apply bind_ret_inv in Hr as ([ri b'] & _ & Hr).
    destruct (negb _); [done|]. injection Hr as <-. split; [done|]. by exists [], sm.
Qed.

Lemma wait_for_next_sm round samples sm rest :
  wait_for_next round samples = Some (sm, rest) → sm ∈ samples ∧ Round sm = wrap64 (round + 1) ∧ rest ⊆ samples.
Proof.
  induction samples as [|sm' samples IH]; simpl; [done|]. case_bool_decide as HR.
  - intros (? & ? & ?)%IH. split_and!; [by right|done|set_solver].
  - intros [= <- <-]. split_and!; [by left|done|set_solver].
Qed.

Lemma wait_for_all_rest actualRound expected samples rest :
  wait_for_all actualRound expected samples = Ret (Some rest) → rest ⊆ samples.
Proof.
  induction samples as [|sm samples IH]; simpl; [done|].
  case_bool_decide; [intros ?%IH; set_solver|].
  intros ([r x] & _ & ([ri y] & _ & HS)%bind_ret_inv)%bind_ret_inv.
  case_bool_decide; [apply IH in HS; set_solver|]. injection HS as <-. set_solver.
Qed.

(** The conditions on the result of the iteration in which only the client of
    the test was waited for. *)
Definition race_ok (t : test) (actualRound : Z) samples (r : RoundResult) : Prop :=
  rr_Round r = actualRound ∧ Succeeded r = true ∧
  ∃ sm1 ref ri ms, sm1 ∈ samples ∧ Round sm1 = wrap64 (actualRound + 1) ∧
    GetRoundInfo sm1 actualRound = (ref, None) ∧ load ref sm1 = Ret (ri, sm1) ∧
    expected_race (mg1 t) (c1Id t) actualRound (Participants ri) (ids t) (mgs t) = Ret ms ∧ rr_Messages r ≡ₚ ms.

(** Those of the iteration in which everybody was waited for. *)
Definition all_ok (t : test) (actualRound : Z) (r : RoundResult) : Prop :=
  rr_Round r = actualRound ∧ Succeeded r = true ∧
  ∃ ms, expected_all actualRound (mgs t) = Ret ms ∧ rr_Messages r ≡ₚ ms.

Lemma load_state ref sm ri sm' : load ref sm = Ret (ri, sm') → sm' = sm.
Proof. unfold load. destruct ref; [intros (? & _ & [= _ <-])%bind_ret_inv|intros [= _ <-]]; done. Qed.

(** One iteration that is passed. *)
Lemma rounds_from_step t k i round samples results ops ops' :
  rounds_from t (S k) i round samples results ops = Ret (Some ops') →
  ∃ r results' samples' op, results = r :: results' ∧ op = StartOp (c1Id t) (wrap64 (round + Z.of_nat i)) (Some (newCrypto t)) ∧
    samples' ⊆ samples ∧
    (if bool_decide (i mod 2 = 0)%nat then race_ok t (wrap64 (round + Z.of_nat i)) samples r
     else all_ok t (wrap64 (round + Z.of_nat i)) r) ∧
    rounds_from t k (S i) round samples' results' (ops ++ [op]) = Ret (Some ops').
Proof.
  cbn [rounds_from]. set (a := wrap64 (round + Z.of_nat i)). intros (st & Hst & HS)%bind_ret_inv.
  destruct st as [[op samples1]|]; [|done]. destruct results as [|r results']; [done|].
  case_bool_decide as HR; [done|]. destruct (Succeeded r) eqn:Hok; simpl in HS; [|done].
  apply bind_ret_inv in HS as (e & He & HS). destruct e as [[expected samples2]|]; [|done].
  rewrite equalContentsBytes_spec in HS. cbn [mbind outcome_bind] in HS. case_bool_decide as Hp; [|done].
  assert (op = StartOp (c1Id t) a (Some (newCrypto t)) ∧ samples1 ⊆ samples) as [-> Hsub].
  { unfold startRound in Hst. case_bool_decide.
    - apply start_loop_op in Hst as [-> (pre & sm & -> & _)]. split; [done|]. intros x Hx. apply elem_of_app. by right; right.
    - apply bind_ret_inv in Hst as (w & Hw & Hst). destruct w as [s1|]; [|done].
      apply wait_for_all_rest in Hw. apply start_loop_op in Hst as [-> (pre & sm & -> & _)].
      split; [done|]. intros x Hx. apply Hw, elem_of_app. by right; right. }
  eexists r, results', samples2, _. split; [done|]. split; [done|].
  unfold expectedMessages in He. rewrite HR in He. case_bool_decide as Hi.
  - apply bind_ret_inv in He as (m & _ & He).
    destruct (wait_for_next a samples1) as [[sm1 s2]|] eqn:Hw; [|done].
    destruct (GetRoundInfo sm1 a) as [ref [err|]] eqn:Hg; [done|].
    apply bind_ret_inv in He as ([ri sm1'] & Hl & He). apply bind_ret_inv in He as (ms & Hms & [= <- <-]).
    pose proof (load_state _ _ _ _ Hl) as ->.
    pose proof (wait_for_next_sm _ _ _ _ Hw) as (Hin & HR1 & Hs2).
    split; [by etransitivity|]. split; [|done]. split_and!; [done|done|].
    exists sm1, ref, ri, ms. split_and!; auto. by apply Permutation_sym.
  - apply bind_ret_inv in He as (ms & Hms & [= <- <-]). split; [done|]. split; [|done].
    split_and!; [done|done|]. exists ms. split; [done|]. by apply Permutation_sym.
Qed.

(** What a passed test means.  When [oneRoundWithExpectedConfiguration] returns,
    then two results were received, for the given round and the next one, both
    successful; the first contains exactly the messages that the generators of
    the clients give for the participants of this round in a machine that was
    seen in the following one, the second exactly those of all generators; the
    client started both rounds; and the number returned is that of the second
    round, which is over. *)
Theorem one_round_judges_results zero crypto key size round samples results cfg ops last :
  0 ≤ round → round + 1 < int_max →
  oneRoundWithExpectedConfiguration zero crypto key size round samples results cfg = Ret (Some (ops, last)) →
  ∃ id cl mg r0 r1 rest,
    getActiveClient zero key cfg = Ret (id, cl, mg) ∧ results = r0 :: r1 :: rest ∧
    race_ok (mkTest id mg (orderedClientIds cfg) (orderedMessagers cfg) size crypto) round samples r0 ∧
    all_ok (mkTest id mg (orderedClientIds cfg) (orderedMessagers cfg) size crypto) (round + 1) r1 ∧
    ops = [StartOp id round (Some crypto); StartOp id (round + 1) (Some crypto)] ∧ last = round + 1.
Proof.
  intros H0 H1. unfold oneRoundWithExpectedConfiguration. intros ([[id cl] mg] & Hact & HS)%bind_ret_inv.
  apply bind_ret_inv in HS as (o & Ho & HS). destruct o as [ops'|]; [|done]. injection HS as <- <-.
  apply rounds_from_step in Ho as (r0 & res & samples1 & op0 & -> & -> & Hs1 & Hr0 & Ho).
  apply rounds_from_step in Ho as (r1 & rest & samples2 & op1 & -> & -> & Hs2 & Hr1 & Ho).
  injection Ho as <-. unfold int_max in H1.
  rewrite bool_decide_true in Hr0 by done. rewrite bool_decide_false in Hr1 by done.
  rewrite wrap64_id in * by (unfold int_min, int_max; lia). rewrite Z.add_0_r in *.
  change (Z.of_nat 1) with 1 in *. rewrite wrap64_id in * by (unfold int_min, int_max; lia).
  exists id, cl, mg, r0, r1, rest. by split_and!.
Qed.

End one_round.

(** ** Statistics of a test *)

(** Times are in nanoseconds; [ops] is an int32. *)
Record stats := mkStats { st_start : Z; t0 : Z; rpcs0 : Z; ops : Z; failed : bool }.

Definition checkTimeout (now : Z) (s : stats) : outcome unit :=
  if negb (failed s) && (120 * 10 ^ 9 <? now - st_start s) then Panic Fatal else Ret tt.

Definition rpcTotal (cfg : config) : Z := GetTotalCount (net cfg).

(** [rpcTotal] is what the network has counted. *)
Definition begin_test (now rpcTotal : Z) (s : stats) : stats := mkStats (st_start s) now rpcTotal 0 (failed s).

Definition op_done (s : stats) : stats := mkStats (st_start s) (t0 s) (rpcs0 s) (wrap32 (ops s + 1)) (failed s).

(** The line that [end] prints: time, peers, RPCs, operations. *)
Definition end_test (now rpcTotal npeers : Z) (s : stats) : outcome (option (Z * Z * Z * Z)) :=
  checkTimeout now s ;;
  if negb (failed s) then Ret (Some (now - t0 s, npeers, wrap64 (rpcTotal - rpcs0 s), ops s)) else Ret None.

(** The flag of [resultOrderer]. *)
Definition ro_kill (dead : Z) : Z := 1.
Definition ro_killed (dead : Z) : bool := dead =? 1.

Lemma op_done_count k s :
  ops s + Z.of_nat k < 2 ^ 31 → 0 ≤ ops s →
  Nat.iter k op_done s = mkStats (st_start s) (t0 s) (rpcs0 s) (ops s + Z.of_nat k) (failed s).
Proof.
  intros Hk H0. induction k as [|k IH]; [simpl; rewrite Z.add_0_r; by destruct s|].
  change (Nat.iter (S k) op_done s) with (op_done (Nat.iter k op_done s)). rewrite IH by lia. unfold op_done. simpl. f_equal. unfold wrap32.
  rewrite Z.mod_small by lia. lia.
Qed.

(** What a test prints at its end. *)
Theorem statistics_of_test s t rpcs k now rpcs' npeers :
  failed s = false → (Z.of_nat k < 2 ^ 31) → 0 ≤ rpcs ≤ rpcs' → rpcs' ≤ int_max →
  end_test now rpcs' npeers (Nat.iter k op_done (begin_test t rpcs s)) =
  if 120 * 10 ^ 9 <? now - st_start s then Panic Fatal
  else Ret (Some (now - t, npeers, rpcs' - rpcs, Z.of_nat k)).
Proof.
  intros Hf Hk Hr Hm. rewrite op_done_count by (simpl; lia). unfold end_test, checkTimeout. simpl. rewrite Hf. simpl.
  destruct (_ <? _); [done|]. simpl. unfold int_max in Hm. by rewrite wrap64_id by (unfold int_min, int_max; lia).
Qed.

(** The number of RPCs that a test prints is the number of calls that have entered
    the simulated network between its beginning and its end. *)
Theorem rpcs_of_test {T V W} `{Codec T V} (ctxType : T) (s s' : Network.sys T V W string nat) cfg cfg' st t k now npeers :
  reachable ctxType s → reachable ctxType s' → (length (calls s) ≤ length (calls s'))%nat →
  Z.of_nat (length (calls s')) < 2 ^ 31 → net cfg = Network.net s → net cfg' = Network.net s' →
  failed st = false → Z.of_nat k < 2 ^ 31 → now - st_start st ≤ 120 * 10 ^ 9 →
  end_test now (rpcTotal cfg') npeers (Nat.iter k op_done (begin_test t (rpcTotal cfg) st)) =
    Ret (Some (now - t, npeers, Z.of_nat (length (calls s')) - Z.of_nat (length (calls s)), Z.of_nat k)).
Proof.
  intros Hr Hr' Hle Hlt Hn Hn' Hf Hk Htime. unfold rpcTotal. rewrite Hn, Hn'.
  destruct (statistics_exact _ _ Hr) as [-> _]. destruct (statistics_exact _ _ Hr') as [-> _].
  assert (∀ j : nat, Z.of_nat j < 2 ^ 31 → wrap32 (Z.of_nat j) = Z.of_nat j) as Hw.
  { intros j Hj. unfold wrap32. rewrite Z.mod_small by lia. lia. }
  rewrite !Hw by lia. rewrite statistics_of_test; [|done|done|lia|unfold int_max; lia].
  assert ((120 * 10 ^ 9 <? now - st_start st) = false) as -> by lia. done.
Qed.

(** ** A concrete test *)

Module OneRoundDemo.
#[local] Instance trial : BigProbablyPrime := fun p _ => Primes.trial_prime p.

Definition prepared (ps : list UUID) : RoundInfo masseyOmuraCrypto :=
  mkRoundInfo PreparePhase None ps (replicate (length ps) NilMsg) (replicate (length ps) false)
    (replicate (length ps) false) (replicate (length ps) false) (replicate (length ps) NilPrivateKey)
    (replicate (length ps) []).
Definition sm0 := mkStateMachine 0 [prepared [[Byte.x01]]; zeroRoundInfo; zeroRoundInfo].
Definition sm1 := mkStateMachine 1 [set_phase DonePhase (prepared [[Byte.x01]]); prepared [[Byte.x01]]; zeroRoundInfo].

Definition one_server : config :=
  match make_config demo_name [] demo_arg 1 false with Ret cfg => cfg | Panic _ => empty_config [] 0 end.
Definition a_crypto : masseyOmuraCrypto := mkMasseyOmuraCrypto [Byte.x17].
Definition two_results : list RoundResult :=
  [mkRoundResult 0 true [Message "0" 0] None; mkRoundResult 1 true [Message "0" 1] None].

Example passed :
  oneRound true [] a_crypto (Some "0") 0 [sm0; sm0; sm1; sm1; sm1] two_results one_server =
  Ret (Some ([StartOp [Byte.x01] 0 (Some a_crypto); StartOp [Byte.x01] 1 (Some a_crypto)], 1)).
Proof. vm_compute. reflexivity. Qed.

(** A lost message is noticed. *)
Example failed_test :
  oneRound true [] a_crypto (Some "0") 0 [sm0; sm0; sm1; sm1; sm1] [mkRoundResult 0 true [] None] one_server = Panic Fatal.
Proof. vm_compute. reflexivity. Qed.

Lemma one_round_judges_results_witness :
  ∃ id mg r0 r1, two_results = [r0; r1] ∧
    all_ok (mkTest id mg (orderedClientIds one_server) (orderedMessagers one_server) 1 a_crypto) 1 r1.
Proof.
  destruct (one_round_judges_results true [] a_crypto (Some "0") 1 0 [sm0; sm0; sm1; sm1; sm1] two_results one_server
    [StartOp [Byte.x01] 0 (Some a_crypto); StartOp [Byte.x01] 1 (Some a_crypto)] 1)
    as (id & cl & mg & r0 & r1 & rest & _ & E & _ & Ha & _).
  - lia.
  - by vm_compute.
  - vm_compute. reflexivity.
  - exists id, mg, r0, r1. unfold two_results in E. injection E as E1 E2 E3. subst rest. split; [by rewrite <- E1, <- E2|exact Ha].
Defined.

End OneRoundDemo.
