(* ===== verification/Confessions.v ===== *)
(** * The applications

    Models of the two command-line programs: src/localconfessions/confessions.go,
    which runs two clients in one process, and src/confessions/confessions.go,
    whose participants are separate processes.  Each main loop is a function of
    what it reads, in the order in which it reads it: state machines from its
    client, lines and poison from the input channel, results, ticks and signals.
    [None] means that the loop still waits for something. *)

From stdpp Require Import strings.
From Stdlib Require Import Ascii Strings.Byte.
From S2P Require Import Prelude GoString Bytes Client ResultOrder.
Local Open Scope string_scope.
Local Open Scope Z_scope.

Definition newline : string := String (ascii_of_nat 10) "".

(** ** localconfessions *)

(** [ConfessionsGenerator.Message]; [None] is an error of the reader. *)
Definition local_Message (line : option string) : outcome string :=
  match line with None => Panic Fatal | Some msg => Ret (TrimSuffix msg newline) end.

(** The retries of [c1.Start(i)]: whether each attempt succeeds. *)
Fixpoint start_retries (attempts : list bool) : option (list bool) :=
  match attempts with
  | [] => None
  | true :: rest => Some rest
  | false :: rest => start_retries rest
  end.

(** The main loop from round [i]: [results] are read from [orderedResults]; the
    answer is the list of the results that are shown. *)
Fixpoint local_main (i : Z) (attempts : list bool) (results : list RoundResult)
    : outcome (list RoundResult) :=
  match results with
  | [] => Ret []
  | r :: results' =>
      match start_retries attempts with
      | None => Ret []
      | Some attempts =>
          if bool_decide (rr_Round r ≠ i) then Panic Fatal else
          shown ← local_main (wrap64 (i + 1)) attempts results'; Ret (r :: shown)
      end
  end.

(** ** confessions *)

(** [confessionsGenerator.Message]: what the [select] receives, a string from the
    input channel or the timeout; nil is [None]. *)
Definition cg_Message (received : option string) : option string :=
  match received with
  | Some msg => if bool_decide (msg = "poison") then None else Some (TrimSuffix msg newline)
  | None => Some (TrimSuffix "" newline)
  end.

(** What the program uses of a state machine: its round, and whether this client
    is a participant of the current round. *)
Record snapshot := mkSnapshot { s_round : Z; s_me : bool }.

Inductive wait_event := WTimer (sm : snapshot) | WSignal.

(** The loop [for !me]: the last state machine, and whether to stop. *)
Fixpoint wait_me (i : Z) (sm : snapshot) (me : bool) (evs : list wait_event) : option (snapshot * bool) :=
  if me then Some (sm, false) else
  match evs with
  | [] => None
  | WSignal :: _ => Some (sm, true)
  | WTimer sm' :: evs' =>
      if i <? s_round sm' then Some (sm', false) else wait_me i sm' (s_me sm') evs'
  end.

Inductive inner_event := IResult (r : RoundResult) | ISignal | ITick (sm : snapshot).

(** The loop [for !doneSelect]: the value of [r], and whether to stop. *)
Fixpoint inner_loop (i : Z) (r : RoundResult) (evs : list inner_event) : option (RoundResult * bool) :=
  match evs with
  | [] => None
  | IResult r' :: _ => Some (r', false)
  | ISignal :: _ => Some (r, true)
  | ITick sm :: evs' => if i <? s_round sm then Some (r, false) else inner_loop i r evs'
  end.

(** The outer [select]; an input comes with the answer of [c.Start]: the nil error
    followed by the events of the inner loop, or the state machine read after an
    error. *)
Inductive select_event :=
| SInput (msg : string) (answer : snapshot + list inner_event)
| SResult (r : RoundResult)
| SSignal.

(** What an iteration leads to: the loop variables before the next test of the
    loop condition, and the result that was shown. *)
Record next_iteration := mkNext { ni_i : Z; ni_stop : bool; ni_shown : option RoundResult }.

Definition zero_result : RoundResult := failure 0 None.

(** The end of an iteration. *)
Definition show (i : Z) (r : RoundResult) (stop : bool) : outcome next_iteration :=
  if stop then Ret (mkNext (wrap64 (i + 1)) true None) else
  if bool_decide (rr_Round r ≠ i) then Panic Fatal else Ret (mkNext (wrap64 (i + 1)) false (Some r)).

#[global] Arguments show : simpl never.

(** One iteration of the main loop of [main]. *)
Definition iteration (i : Z) (sm : snapshot) (waits : list wait_event) (sel : select_event)
    : option (outcome next_iteration) :=
  let skip := Some (Ret (mkNext (wrap64 (i + 1)) false None)) in
  if i <? s_round sm then skip else
  '(sm, stop) ← wait_me i sm (s_me sm) waits;
  if stop : bool then Some (Ret (mkNext (wrap64 (i + 1)) true None)) else
  if i <? s_round sm then skip else
  match sel with
  | SInput _ (inl sm') =>
      if i <? s_round sm' then skip
      else Some (Ret (mkNext (wrap64 (wrap64 (i - 1) + 1)) false None))
  | SInput _ (inr evs) => '(r, stop) ← inner_loop i zero_result evs; Some (show i r stop)
  | SResult r => Some (show i r false)
  | SSignal => Some (show i zero_result true)
  end.

(** ** Theorems *)

Lemma local_main_consecutive results : ∀ i attempts,
  (∀ k r, results !! k = Some r → rr_Round r = i + Z.of_nat k) →
  int_min ≤ i → i + Z.of_nat (length results) ≤ int_max →
  ∃ shown, local_main i attempts results = Ret shown ∧ shown `prefix_of` results.
Proof.
  induction results as [|r results IH]; intros i attempts Hr Hmin Hmax; simpl; [by exists []|].
  destruct (start_retries attempts) as [rest|]; [|exists []; split; [done|apply prefix_nil]].
  assert (rr_Round r = i) as Hi by (rewrite (Hr 0%nat r eq_refl); lia).
  rewrite bool_decide_false by (intros Hne; by apply Hne). cbn [length] in Hmax.
  rewrite wrap64_id by lia.
  destruct (IH (i + 1) rest) as (shown & -> & Hp); [|lia|lia|].
  - intros k x Hx. rewrite (Hr (S k) x Hx). lia.
  - exists (r :: shown). split; [done|]. by apply prefix_cons.
Qed.

(** Localconfessions never exits because of the order of results.  Whatever
    order the client reports the results of rounds in, as long as each round has
    one, the main loop behind [resultOrderer] shows them in the order of the
    rounds and never finds the result of another round than the one it waits
    for. *)
Theorem local_main_never_fatal (inputs : list RoundResult) (attempts : list bool) :
  NoDup (rr_Round <$> inputs) → Forall (fun r => 0 ≤ rr_Round r) inputs →
  Z.of_nat (length inputs) ≤ int_max →
  ∃ outs shown, resultOrderer inputs = Ret outs ∧ local_main 0 attempts outs = Ret shown ∧
    shown `prefix_of` outs ∧ ∀ k r, shown !! k = Some r → rr_Round r = Z.of_nat k ∧ r ∈ inputs.
Proof.
  intros Hnd Hpos Hlen.
  assert (received ((false,.) <$> inputs) = inputs) as Hrec.
  { clear. induction inputs as [|r inputs IH]; [done|]. simpl. by f_equal. }
  destruct (order_ordered 0 ltac:(lia) ((false,.) <$> inputs) [] [] [] 0 (ordered_init 0 ltac:(lia)))
    as (outs & res & ix & Hout & [_ _ _ _ Ho _]); [by rewrite Hrec|by rewrite Hrec|].
  rewrite Hrec in Ho. simpl in Ho.
  assert (length outs ≤ length inputs)%nat as Hle.
  { apply (submseteq_length (A := RoundResult)), NoDup_submseteq.
    - apply NoDup_alt. intros a b x Ha Hb. apply Ho in Ha as [_ Ha]. apply Ho in Hb as [_ Hb]. lia.
    - intros x [k Hk]%list_elem_of_lookup. by destruct (Ho k x Hk). }
  destruct (local_main_consecutive outs 0 attempts) as (shown & Hs & Hp).
  - intros k r Hk. by destruct (Ho k r Hk).
  - unfold int_min. lia.
  - lia.
  - exists outs, shown. split_and!; [done..|]. intros k r Hk.
    destruct (Ho k r) as [? ?]; [by eapply prefix_lookup_Some|]. split; [lia|done].
Qed.

Lemma local_main_never_fatal_witness :
  ∃ outs shown, resultOrderer [failure 1 None; failure 0 None] = Ret outs ∧
    local_main 0 [true; false; true] outs = Ret shown ∧ shown = [failure 0 None; failure 1 None].
Proof.
  destruct (local_main_never_fatal [failure 1 None; failure 0 None] [true; false; true])
    as (outs & shown & Ho & Hs & _).
  - apply (bool_decide_unpack _). by vm_compute.
  - repeat constructor; simpl; lia.
  - unfold int_max. simpl. lia.
  - exists outs, shown. split; [exact Ho|]. split; [exact Hs|]. vm_compute in Ho. injection Ho as <-.
    vm_compute in Hs. by injection Hs as <-.
Defined.

(** The last state machine of the waiting loop is not ahead of [i] when the
    client is a participant. *)
Lemma wait_me_spec i : ∀ evs sm sm' stop,
  s_round sm ≤ i → wait_me i sm (s_me sm) evs = Some (sm', stop) →
  stop = true ∨ i < s_round sm' ∨ s_me sm' = true.
Proof.
  induction evs as [|ev evs IH]; intros sm sm' stop Hsm; simpl.
  { destruct (s_me sm) eqn:Hme; [|done]. intros [= <- <-]. auto. }
  destruct (s_me sm) eqn:Hme; [intros [= <- <-]; auto|]. destruct ev as [sm1|]; [|intros [= _ <-]; auto].
  destruct (i <? s_round sm1) eqn:Hlt; bool_to_prop; [intros [= <- <-]; auto|]. by apply IH.
Qed.

(** The value of [r] after the inner loop: a result that was read, or the zero
    value, when a tick showed that the round was over or a signal came. *)
Lemma inner_loop_spec i r0 : ∀ evs r stop,
  inner_loop i r0 evs = Some (r, stop) →
  (IResult r ∈ evs ∧ stop = false) ∨ (r = r0 ∧ stop = true) ∨
  (r = r0 ∧ stop = false ∧ ∃ sm, ITick sm ∈ evs ∧ i < s_round sm).
Proof.
  induction evs as [|[r'| |sm] evs IH]; intros r stop; simpl; [done|..].
  - intros [= <- <-]. left. split; [by left|done].
  - intros [= <- <-]. auto.
  - destruct (i <? s_round sm) eqn:Hlt; bool_to_prop.
    + intros [= <- <-]. right. right. split_and!; [done..|]. exists sm. split; [by left|done].
    + intros Hr. destruct (IH _ _ Hr) as [[? ?]|[?|(? & ? & sm' & ? & ?)]]; [left|by auto|right; right].
      * split; [by right|done].
      * split_and!; [done..|]. exists sm'. split; [by right|done].
Qed.

Lemma show_inv i r stop nx r' : show i r stop = Ret nx → ni_shown nx = Some r' → r' = r ∧ rr_Round r = i ∧ stop = false.
Proof.
  unfold show. destruct stop; [by intros [= <-]|]. case_bool_decide as Hr; [done|].
  intros [= <-] [= <-]. split_and!; [done| |done]. lia.
Qed.

(** What the main loop of confessions shows.  An iteration for round [i]
    shows a result only of round [i]; it is one that it read from its client,
    except that in round 0 a tick that finds the round over makes it show the zero
    result.  Otherwise it goes on with the next round, with the same round when the
    start was refused, or it stops after a signal. *)
Theorem confessions_shows_own_round i sm waits sel nx :
  int_min < i < int_max → iteration i sm waits sel = Some (Ret nx) →
  (∀ r, ni_shown nx = Some r →
     rr_Round r = i ∧ ni_i nx = i + 1 ∧ ni_stop nx = false ∧
     (sel = SResult r ∨
      ∃ msg evs, sel = SInput msg (inr evs) ∧ (IResult r ∈ evs ∨ r = zero_result ∧ i = 0))) ∧
  (ni_i nx = i + 1 ∨ ni_i nx = i ∧ ni_shown nx = None ∧ ∃ msg sm', sel = SInput msg (inl sm')).
Proof.
  intros Hi. unfold iteration. rewrite (wrap64_id (i + 1)) by lia.
  rewrite (wrap64_id (i - 1)) by lia. rewrite (wrap64_id (i - 1 + 1)) by lia.
  assert (∀ r stop nx, show i r stop = Ret nx → ni_i nx = i + 1 ∧ ni_stop nx = stop) as Hshow.
  { intros r stop nx'. unfold show. rewrite wrap64_id by lia. case_all; intros; by simplify_eq/=. }
  destruct (i <? s_round sm); [intros [= <-]; split; [done|by left]|].
  destruct (wait_me _ _ _ _) as [[sm1 []]|]; simpl; [intros [= <-]; split; [done|by left]| |done].
  destruct (i <? s_round sm1); [intros [= <-]; split; [done|by left]|].
  destruct sel as [msg [sm'|evs]|r|].
  - destruct (i <? s_round sm'); intros [= <-]; (split; [done|]); [by left|]. right. split_and!; [simpl; lia|done|eauto].
  - destruct (inner_loop i zero_result evs) as [[r stop]|] eqn:Hin; [|done]. intros [= Hs].
    destruct (Hshow _ _ _ Hs) as [Hni Hst]. split; [|by left]. intros r' Hr'.
    destruct (show_inv _ _ _ _ _ Hs Hr') as (-> & Hrr & ->). split_and!; [done..|]. right. exists msg, evs.
    split; [done|]. destruct (inner_loop_spec _ _ _ _ _ Hin) as [[? _]|[[_ ?]|(-> & _)]]; [by left|done|].
    right. split; [done|]. by rewrite <- Hrr.
  - intros Hs. apply (inj Some) in Hs. destruct (Hshow _ _ _ Hs) as [Hni Hst]. split; [|by left]. intros r' Hr'.
    destruct (show_inv _ _ _ _ _ Hs Hr') as (-> & Hrr & _). split_and!; [done..|]. by left.
  - intros Hs. apply (inj Some) in Hs. destruct (Hshow _ _ _ Hs) as [Hni _]. split; [|by left].
    intros r' Hr'. by destruct (show_inv _ _ _ _ _ Hs Hr') as (_ & _ & ?).
Qed.

Lemma confessions_shows_own_round_witness :
  ∀ r, ni_shown (mkNext 3 false (Some (failure 2 None))) = Some r → rr_Round r = 2.
Proof.
  intros r Hr.
  destruct (confessions_shows_own_round 2 (mkSnapshot 2 false) [WTimer (mkSnapshot 2 true)]
    (SInput "go" (inr [ITick (mkSnapshot 2 true); IResult (failure 2 None)]))
    (mkNext 3 false (Some (failure 2 None)))) as [Hs _].
  - unfold int_min, int_max. lia.
  - by vm_compute.
  - by apply Hs.
Defined.

(** C38: what the main loop of confessions does when a round ends unobserved.
    Suppose that in an iteration for round [i] the round is started and a tick then
    finds the client's state machine in a later round, before the result has been
    read.  The variable for the result still has its zero value, whose round is 0:
    if [i] > 0, the program exits with a fatal error, and if [i] = 0, it shows round
    0 as failed and goes on with round 1.  And suppose that an iteration skips round
    [i] because the state machine is ahead: if the result of round [i] is then read
    in the next iteration, the program exits, also for [i] = 0. *)
Theorem confessions_exits_on_finished_round i sm sm1 sm2 msg r :
  0 ≤ i < int_max → s_me sm = true → s_round sm ≤ i → i < s_round sm1 →
  s_me sm2 = true → s_round sm2 = i + 1 → rr_Round r = i →
  iteration i sm [] (SInput msg (inr [ITick sm1])) =
    Some (if bool_decide (0 < i) then Panic Fatal else Ret (mkNext 1 false (Some (failure 0 None)))) ∧
  iteration i sm1 [] (SResult r) = Some (Ret (mkNext (i + 1) false None)) ∧
  iteration (i + 1) sm2 [] (SResult r) = Some (Panic Fatal).
Proof.
  intros Hi Hme Hsm Hsm1 Hme2 Hsm2 Hr. unfold iteration.
  rewrite (proj2 (Z.ltb_ge i (s_round sm))) by lia. rewrite (proj2 (Z.ltb_ge (i + 1) (s_round sm2))) by lia.
  rewrite (proj2 (Z.ltb_lt i (s_round sm1))) by lia. rewrite Hme, Hme2. simpl.
  rewrite (proj2 (Z.ltb_ge i (s_round sm))) by lia. rewrite (proj2 (Z.ltb_ge (i + 1) (s_round sm2))) by lia.
  rewrite (proj2 (Z.ltb_lt i (s_round sm1))) by lia. simpl. unfold show, int_max in *.
  rewrite (wrap64_id (i + 1)) by (unfold int_min, int_max; lia).
  rewrite (bool_decide_true (rr_Round r ≠ i + 1)) by lia. split_and!; [|done|done].
  destruct (decide (i = 0)) as [->|Hne]; [done|]. by rewrite !bool_decide_true by (simpl; lia).
Qed.

Lemma confessions_exits_on_finished_round_witness :
  iteration 2 (mkSnapshot 2 true) [] (SInput "" (inr [ITick (mkSnapshot 3 true)])) = Some (Panic Fatal) ∧
  iteration 0 (mkSnapshot 0 true) [] (SInput "" (inr [ITick (mkSnapshot 1 true)])) =
    Some (Ret (mkNext 1 false (Some (failure 0 None)))).
Proof.
  split.
  - apply (confessions_exits_on_finished_round 2 (mkSnapshot 2 true) (mkSnapshot 3 true) (mkSnapshot 3 true) ""
      (failure 2 None)); simpl; unfold int_max; (reflexivity || lia).
  - apply (confessions_exits_on_finished_round 0 (mkSnapshot 0 true) (mkSnapshot 1 true) (mkSnapshot 1 true) ""
      (failure 0 None)); simpl; unfold int_max; (reflexivity || lia).
Defined.
