(* ===== verification/ConfessionsInput.v ===== *)
(** * The terminal input of confessions

    Model of how src/confessions/confessions.go shares the standard input: the
    goroutine [readInput], the calls of [confessionsGenerator.Message], which
    client goroutines make once per round, and the main loop all meet on the
    unbuffered channel [input].  A call of [Message] first sends the string
    poison without blocking, so as to stop whoever waits for input, then waits
    for a line or for its timeout; the main loop receives from the channel in the
    [select] that waits for the user to start a round, and sends poison at the end
    of an iteration.

    A sender on an unbuffered channel meets any one of the waiting receivers, as
    the language leaves open which.  Events say what happens next, and [step] is
    defined when this can happen. *)

From stdpp Require Import strings.
From Stdlib Require Import Ascii.
From S2P Require Import Prelude GoString Confessions.

Local Open Scope string_scope.
Local Open Scope list_scope.
Local Open Scope nat_scope.

(** ** Model *)

Definition newline_byte : ascii := ascii_of_nat 10.

Inductive message_call := AtPoison | Waiting | Returned (m : option string).
Inductive reader_pc := Reading | Sending (line : string).

(** [selecting]: the main loop waits in the [select] that receives from [input]. *)
Record terminal := mkTerminal { calls : list message_call; rd : reader_pc; selecting : bool }.

(** A receiver: a call of [Message], or ([None]) the main loop. *)
Definition receive (x : option nat) (msg : string) (t : terminal) : option terminal :=
  match x with
  | None => if selecting t then Some (mkTerminal (calls t) (rd t) false) else None
  | Some j =>
      match calls t !! j with
      | Some Waiting => Some (mkTerminal (<[j := Returned (cg_Message (Some msg))]> (calls t)) (rd t) (selecting t))
      | _ => None
      end
  end.

Definition is_waiting (c : message_call) : bool := match c with Waiting => true | _ => false end.

(** Nobody waits on the channel, so that [default] is chosen. *)
Definition no_receiver (t : terminal) : bool := negb (selecting t) && negb (existsb is_waiting (calls t)).

Inductive input_event :=
| ERead (line : string)              (* readInput has read a line *)
| EDeliver (x : option nat)          (* the line is received *)
| ECall                              (* Message is called *)
| EPoison (j : nat) (x : option nat) (* its poison is received, it goes on to wait *)
| EDefault (j : nat)                 (* there is no receiver, it goes on to wait *)
| ETimeout (j : nat)
| ESelect                            (* the main loop reaches its select *)
| ELeave                             (* and leaves it for a result or a signal *)
| EMainPoison (j : nat).             (* the main loop stops a call of Message *)

Definition set_call (j : nat) (c : message_call) (t : terminal) : terminal :=
  mkTerminal (<[j := c]> (calls t)) (rd t) (selecting t).

(** [ReadString] returns a line with its newline. *)
Definition step (e : input_event) (t : terminal) : option terminal :=
  match e with
  | ERead text =>
      match rd t with
      | Reading => if has_byte newline_byte text then None
                   else Some (mkTerminal (calls t) (Sending (text +:+ newline)) (selecting t))
      | Sending _ => None
      end
  | EDeliver x =>
      match rd t with
      | Sending line => receive x line (mkTerminal (calls t) Reading (selecting t))
      | Reading => None
      end
  | ECall => Some (mkTerminal (calls t ++ [AtPoison]) (rd t) (selecting t))
  | EPoison j x =>
      match calls t !! j with
      | Some AtPoison => t' ← receive x "poison" t; Some (set_call j Waiting t')
      | _ => None
      end
  | EDefault j =>
      match calls t !! j with
      | Some AtPoison => if no_receiver t then Some (set_call j Waiting t) else None
      | _ => None
      end
  | ETimeout j =>
      match calls t !! j with
      | Some Waiting => Some (set_call j (Returned (cg_Message None)) t)
      | _ => None
      end
  | ESelect => if selecting t then None else Some (mkTerminal (calls t) (rd t) true)
  | ELeave => if selecting t then Some (mkTerminal (calls t) (rd t) false) else None
  | EMainPoison j => if selecting t then None else receive (Some j) "poison" t
  end.

Fixpoint run (evs : list input_event) (t : terminal) : option terminal :=
  match evs with [] => Some t | e :: evs' => t' ← step e t; run evs' t' end.

Definition start : terminal := mkTerminal [] Reading false.

(** ** Specification *)

(** The lines read, without their newlines, and who received lines, in order. *)
Definition typed (evs : list input_event) : list string :=
  omap (fun e => match e with ERead text => Some text | _ => None end) evs.
Definition receivers (evs : list input_event) : list (option nat) :=
  omap (fun e => match e with EDeliver x => Some x | _ => None end) evs.

Definition poisons (j : nat) (e : input_event) : Prop :=
  e = EMainPoison j ∨ ∃ i, e = EPoison i (Some j).

(** What call [j] may have returned after [evs]: the [k]-th line if it received
    it, the empty string after its timeout, nil when it was stopped. *)
Definition explained (evs : list input_event) (j : nat) (m : option string) : Prop :=
  match m with
  | None => ∃ e, e ∈ evs ∧ poisons j e
  | Some text => (∃ k, receivers evs !! k = Some (Some j) ∧ typed evs !! k = Some text) ∨
                 (ETimeout j ∈ evs ∧ text = "")
  end.

(** ** Lines *)

Lemma has_byte_app c s s' : has_byte c (s +:+ s') = has_byte c s || has_byte c s'.
Proof. induction s as [|a s IH]; [done|]. simpl. by rewrite IH, orb_assoc. Qed.

Lemma TrimSuffix_line text : TrimSuffix (text +:+ newline) newline = text.
Proof.
  induction text as [|a text IH]; [done|].
  change (TrimSuffix (String a (text +:+ newline)) newline = String a text). simpl.
  rewrite bool_decide_false, IH; [done|]. intros [= _ E]. by destruct text.
Qed.

(** A line is never taken for poison, not even if the user types that word. *)
Lemma cg_Message_line text : cg_Message (Some (text +:+ newline)) = Some text.
Proof.
  unfold cg_Message. rewrite TrimSuffix_line, bool_decide_false; [done|].
  intros E. apply (f_equal (has_byte newline_byte)) in E. rewrite has_byte_app in E.
  by rewrite orb_true_r in E.
Qed.

Lemma run_snoc evs e t : run (evs ++ [e]) t = run evs t ≫= step e.
Proof.
  revert t. induction evs as [|e' evs IH]; intros t; simpl; [by destruct (step e t)|].
  destruct (step e' t) as [t'|]; simpl; [apply IH|done].
Qed.

(** ** The invariant *)

(** Every line read has been received, except the one that [readInput] still
    holds; every return of a call is explained. *)
Record faithful (evs : list input_event) (t : terminal) : Prop := {
  fa_lines : (fun text => text +:+ newline) <$> drop (length (receivers evs)) (typed evs) =
             match rd t with Reading => [] | Sending line => [line] end;
  fa_le : length (receivers evs) ≤ length (typed evs);
  fa_returned : ∀ j m, calls t !! j = Some (Returned m) → explained evs j m;
  fa_received : ∀ k j, receivers evs !! k = Some (Some j) →
    ∃ text, typed evs !! k = Some text ∧ calls t !! j = Some (Returned (Some text))
}.

Lemma typed_app evs evs' : typed (evs ++ evs') = typed evs ++ typed evs'.
Proof. apply omap_app. Qed.
Lemma receivers_app evs evs' : receivers (evs ++ evs') = receivers evs ++ receivers evs'.
Proof. apply omap_app. Qed.

Lemma explained_app evs e j m : explained evs j m → explained (evs ++ [e]) j m.
Proof.
  unfold explained. destruct m as [text|]; [|intros (e' & He & Hp); exists e'; set_solver].
  rewrite typed_app, receivers_app. intros [(k & H1 & H2)|[H1 ->]]; [left|right; set_solver].
  exists k. split; by apply lookup_app_l_Some.
Qed.

(** An event that neither reads nor delivers a line. *)
Lemma faithful_step evs e t t' :
  faithful evs t → typed [e] = [] → receivers [e] = [] → rd t' = rd t →
  (∀ j m, calls t' !! j = Some (Returned m) → calls t !! j = Some (Returned m) ∨ explained (evs ++ [e]) j m) →
  (∀ j m, calls t !! j = Some (Returned m) → calls t' !! j = Some (Returned m)) →
  faithful (evs ++ [e]) t'.
Proof.
  intros [F1 F2 F3 F4] Ht Hr Hrd Hnew Hold.
  split; rewrite ?typed_app, ?receivers_app, ?Ht, ?Hr, ?app_nil_r, ?Hrd; try done.
  - intros j m Hj. destruct (Hnew j m Hj) as [Hj'|Hx]; [by apply explained_app, F3|done].
  - intros k j Hk. destruct (F4 k j Hk) as (text & ? & ?). eauto.
Qed.

Lemma lookup_set_returned (cs : list message_call) j c c0 i m :
  cs !! j = Some c0 → <[j := c]> cs !! i = Some (Returned m) →
  cs !! i = Some (Returned m) ∨ (i = j ∧ c = Returned m).
Proof.
  intros Hj. destruct (decide (i = j)) as [->|Hne].
  - rewrite list_lookup_insert_eq by (by eapply lookup_lt_Some). naive_solver.
  - rewrite list_lookup_insert_ne by done. naive_solver.
Qed.

Lemma lookup_set_other (cs : list message_call) j c c0 i m :
  cs !! j = Some c0 → (∀ m, c0 ≠ Returned m) → cs !! i = Some (Returned m) →
  <[j := c]> cs !! i = Some (Returned m).
Proof. intros Hj Hc Hi. rewrite list_lookup_insert_ne; [done|]. naive_solver. Qed.

Lemma receive_inv x msg t t' :
  receive x msg t = Some t' →
  (x = None ∧ selecting t = true ∧ t' = mkTerminal (calls t) (rd t) false) ∨
  ∃ j, x = Some j ∧ calls t !! j = Some Waiting ∧ t' = set_call j (Returned (cg_Message (Some msg))) t.
Proof.
  unfold receive, set_call. destruct x as [j|].
  - destruct (calls t !! j) as [[]|] eqn:Hj; try done. intros [= <-]. right. by exists j.
  - destruct (selecting t); [|done]. intros [= <-]. by left.
Qed.

(** Putting a call that has not returned into another state. *)
Lemma faithful_set evs e t j c c0 :
  faithful evs t → typed [e] = [] → receivers [e] = [] → calls t !! j = Some c0 → (∀ m, c0 ≠ Returned m) →
  (∀ m, c = Returned m → explained (evs ++ [e]) j m) →
  faithful (evs ++ [e]) (set_call j c t).
Proof.
  intros HF Ht Hr Hj Hc0 Hc. eapply faithful_step; [done..| |].
  - intros i m Hi. destruct (lookup_set_returned _ _ _ _ _ _ Hj Hi) as [?|[-> E]]; auto.
  - intros i m. by eapply lookup_set_other.
Qed.

Lemma faithful_poisoned evs e t t' x :
  faithful evs t → typed [e] = [] → receivers [e] = [] → receive x "poison" t = Some t' →
  (∀ j, x = Some j → poisons j e) → faithful (evs ++ [e]) t'.
Proof.
  intros HF Ht Hr HR Hx. apply receive_inv in HR as [(_ & _ & ->)|(j & -> & Hj & ->)].
  - eapply faithful_step; [done..|by left|done].
  - eapply faithful_set; [done..|]. intros m [= <-]. exists e. set_solver.
Qed.

Lemma faithful_delivered evs x t t' line :
  faithful evs t → rd t = Sending line →
  receive x line (mkTerminal (calls t) Reading (selecting t)) = Some t' → faithful (evs ++ [EDeliver x]) t'.
Proof.
  intros [F1 F2 F3 F4] Hrd HR. rewrite Hrd in F1.
  assert (∃ text, line = text +:+ newline ∧ drop (length (receivers evs)) (typed evs) = [text]) as (text & -> & Hd).
  { destruct (drop _ _) as [|a [|]]; simplify_list_eq; eauto. }
  assert (typed evs !! length (receivers evs) = Some text) as Hk
    by (rewrite <- (Nat.add_0_r (length _)), <- lookup_drop, Hd; done).
  pose proof (lookup_lt_Some _ _ _ Hk) as Hlt. pose proof (f_equal length Hd) as Hlen.
  rewrite length_drop in Hlen. simpl in Hlen.
  assert (typed (evs ++ [EDeliver x]) = typed evs) as Ht by (rewrite typed_app; apply app_nil_r).
  apply receive_inv in HR as HI.
  split; rewrite ?Ht, ?receivers_app, ?length_app; simpl.
  - rewrite drop_ge by lia. by destruct HI as [(_ & _ & ->)|(? & _ & _ & ->)].
  - lia.
  - intros i m Hi. destruct HI as [(_ & _ & ->)|(j & -> & Hj & ->)]; cbn [calls set_call] in Hi; [by apply explained_app, F3|].
    destruct (lookup_set_returned _ _ _ _ _ _ Hj Hi) as [?|[-> E]]; [by apply explained_app, F3|].
    rewrite cg_Message_line in E. injection E as <-. left. exists (length (receivers evs)).
    rewrite Ht, receivers_app. split; [by rewrite lookup_app_r, Nat.sub_diag by lia|done].
  - intros k j Hkj. apply lookup_app_Some in Hkj as [Hkj|[Hge Hkj]].
    + destruct (F4 k j Hkj) as (tx & ? & Hj). exists tx. split; [done|].
      destruct HI as [(_ & _ & ->)|(i & -> & Hi & ->)]; [done|]. by eapply lookup_set_other.
    + apply list_lookup_singleton_Some in Hkj as [Hk0 ->]. exists text.
      replace k with (length (receivers evs)) by lia. split; [done|].
      destruct HI as [(? & _)|(i & [= <-] & Hi & ->)]; [done|]. cbn [calls set_call].
      rewrite cg_Message_line. apply list_lookup_insert_eq. by eapply lookup_lt_Some.
Qed.

Lemma faithful_read evs text t :
  faithful evs t → rd t = Reading →
  faithful (evs ++ [ERead text]) (mkTerminal (calls t) (Sending (text +:+ newline)) (selecting t)).
Proof.
  intros [F1 F2 F3 F4] Hrd. rewrite Hrd in F1. apply fmap_nil_inv in F1.
  pose proof (f_equal length F1) as Hlen. rewrite length_drop in Hlen. simpl in Hlen.
  assert (receivers (evs ++ [ERead text]) = receivers evs) as Hr by (rewrite receivers_app; apply app_nil_r).
  split; rewrite ?Hr, ?typed_app; cbn [calls rd selecting typed omap list_omap].
  - rewrite drop_app_ge by lia. by replace (_ - _) with 0 by lia.
  - rewrite length_app. lia.
  - intros j m Hj. by apply explained_app, F3.
  - intros k j Hk. destruct (F4 k j Hk) as (tx & ? & ?). exists tx. split; [by apply lookup_app_l_Some|done].
Qed.

Lemma faithful_event evs e t t' : faithful evs t → step e t = Some t' → faithful (evs ++ [e]) t'.
Proof.
  intros HF HS. destruct e; cbn [step] in HS.
  - destruct (rd t) eqn:Hrd; [|done]. destruct (has_byte _ _); [done|]. injection HS as <-. by apply faithful_read.
  - destruct (rd t) eqn:Hrd; [done|]. by eapply faithful_delivered.
  - injection HS as <-. eapply faithful_step; [done..| |]; simpl.
    + intros j m [?|[_ Hj]]%lookup_app_Some; [by left|]. by apply list_lookup_singleton_Some in Hj as [_ ?].
    + intros j m Hj. by apply lookup_app_l_Some.
  - destruct (calls t !! j) as [[]|] eqn:Hj; try done.
    destruct (receive x "poison" t) as [t1|] eqn:HR; [|done]. injection HS as <-.
    assert (calls t1 !! j = Some AtPoison) as Hj1.
    { apply receive_inv in HR as [(_ & _ & ->)|(i & _ & Hi & ->)]; [done|]. simpl.
      rewrite list_lookup_insert_ne; [done|]. intros ->. congruence. }
    assert (faithful (evs ++ [EPoison j x]) t1) as HF1
      by (eapply faithful_poisoned; [done..|]; intros i ->; right; eauto).
    destruct HF1 as [F1 F2 F3 F4]. split; [done..| |]; simpl.
    + intros i m Hi. destruct (lookup_set_returned _ _ _ _ _ _ Hj1 Hi) as [?|[_ ?]]; [auto|done].
    + intros k i Hk. destruct (F4 k i Hk) as (tx & ? & Hi). exists tx. split; [done|].
      by eapply lookup_set_other.
  - destruct (calls t !! j) as [[]|] eqn:Hj; try done. destruct (no_receiver t); [|done]. injection HS as <-.
    by eapply faithful_set.
  - destruct (calls t !! j) as [[]|] eqn:Hj; try done. injection HS as <-.
    eapply faithful_set; [done..|]. intros m [= <-]. right. split; [set_solver|done].
  - destruct (selecting t); [done|]. injection HS as <-. eapply faithful_step; [done..|by left|done].
  - destruct (selecting t); [|done]. injection HS as <-. eapply faithful_step; [done..|by left|done].
  - destruct (selecting t); [done|]. apply (faithful_poisoned _ _ t _ (Some j)); [done|done|done|exact HS|].
    intros i [= <-]. by left.
Qed.

Lemma run_faithful evs : ∀ t, run evs start = Some t → faithful evs t.
Proof.
  induction evs as [|e evs IH] using rev_ind; intros t.
  - intros [= <-]. split; [done..|by intros [|j]|by intros [|k]].
  - rewrite run_snoc. intros (t1 & Ht1 & HS)%bind_Some. eapply faithful_event; eauto.
Qed.

(** What the user types reaches at most one call, and only what was typed is
    sent.  In every run, the lines that have been received, with the one that
    [readInput] holds, are all lines read; a call of [Message] returns nil only
    if it was stopped, the empty message only after its timeout or for an empty
    line, and otherwise the one line, without its newline, that it received;
    and a call that received a line returns this line. *)
Theorem input_reaches_messages evs t :
  run evs start = Some t →
  length (typed evs) = length (receivers evs) + match rd t with Reading => 0 | Sending _ => 1 end ∧
  (∀ j m, calls t !! j = Some (Returned m) → explained evs j m) ∧
  (∀ k j, receivers evs !! k = Some (Some j) →
    ∃ text, typed evs !! k = Some text ∧ calls t !! j = Some (Returned (Some text))) ∧
  (∀ k k' j, receivers evs !! k = Some (Some j) → receivers evs !! k' = Some (Some j) →
    typed evs !! k = typed evs !! k').
Proof.
  intros [F1 F2 F3 F4]%run_faithful. split_and!; [|done|done|].
  - apply (f_equal length) in F1. rewrite length_fmap, length_drop in F1. destruct (rd t); simpl in F1; lia.
  - intros k k' j H1 H2. apply F4 in H1 as (x & -> & Hx). apply F4 in H2 as (y & -> & Hy). congruence.
Qed.

(** ** Who receives *)

(** The first steps of a call. *)
Definition open_call (x : option nat) (t : terminal) : option terminal :=
  t' ← step ECall t;
  let j := length (calls t) in
  match x with Some _ => step (EPoison j x) t' | None => step (EDefault j) t' end.

(** Calls of [Message] start one after the other, while the main loop is not in
    its [select]. *)
Inductive orderly : terminal → Prop :=
| ord_start : orderly start
| ord_call x t t' : orderly t → selecting t = false → open_call x t = Some t' → orderly t'
| ord_step e t t' : orderly t → (e ≠ ECall) → step e t = Some t' → orderly t'.

Definition settled (t : terminal) : Prop :=
  ∀ j c, calls t !! j = Some c → (∃ m, c = Returned m) ∨ (c = Waiting ∧ S j = length (calls t)).

Lemma settled_return t j m b r :
  settled t → settled (mkTerminal (<[j := Returned m]> (calls t)) r b).
Proof.
  intros HT i c. simpl. rewrite length_insert. intros [(-> & <- & _)|[_ Hi]]%list_lookup_insert_Some; eauto.
Qed.

Lemma settled_no_poison t j : settled t → calls t !! j ≠ Some AtPoison.
Proof. intros HT Hj. by destruct (HT _ _ Hj) as [[]|[]]. Qed.

(** A call that opens leaves all older calls returned. *)
Lemma settled_open x t t' : settled t → selecting t = false → open_call x t = Some t' → settled t'.
Proof.
  intros HT Hs HO. unfold open_call in HO. cbn [step mbind option_bind calls rd selecting] in HO.
  rewrite lookup_app_r, Nat.sub_diag in HO by lia.
  assert (∃ t1, (∀ i c, calls t1 !! i = Some c → i < length (calls t) → ∃ m, c = Returned m) ∧
    length (calls t1) = S (length (calls t)) ∧ t' = set_call (length (calls t)) Waiting t1) as (t1 & Ho & Hl & ->).
  { destruct x as [i|]; simpl in HO.
    - destruct (_ !! i) as [[]|] eqn:Hi; try done. injection HO as <-. eexists. split; [|split; [|done]].
      + intros k c. simpl. intros [(-> & <- & _)|[Hne Hk]]%list_lookup_insert_Some Hlt; [eauto|].
        rewrite lookup_app_l in Hk by done. destruct (HT _ _ Hk) as [|[-> E]]; [done|].
        apply lookup_app_Some in Hi as [Hi|[_ Hi]]; [|by apply list_lookup_singleton_Some in Hi as [_ ?]].
        destruct (HT _ _ Hi) as [[]|[_ E']]; [done|]. lia.
      + simpl. rewrite length_insert, length_app. simpl. lia.
    - destruct (no_receiver _) eqn:Hn; [|done]. injection HO as <-. eexists. split; [|split; [|done]].
      + intros k c. simpl. intros Hk Hlt. rewrite lookup_app_l in Hk by done.
        destruct (HT _ _ Hk) as [|[-> E]]; [done|]. unfold no_receiver in Hn. simpl in Hn.
        rewrite existsb_app in Hn. rewrite andb_true_iff, !negb_true_iff, orb_false_iff in Hn.
        destruct Hn as [_ [Hn _]]. assert (existsb is_waiting (calls t) = true); [|congruence].
        apply existsb_exists. exists Waiting. split; [|done]. apply list_elem_of_In. by eapply list_elem_of_lookup_2.
      + simpl. rewrite length_app. simpl. lia. }
  intros k c. simpl. rewrite length_insert, Hl. intros [(<- & <- & _)|[Hne Hk]]%list_lookup_insert_Some; [by right|].
  left. eapply Ho; [done|]. apply lookup_lt_Some in Hk. lia.
Qed.

Lemma settled_step e t t' : settled t → e ≠ ECall → step e t = Some t' → settled t'.
Proof.
  intros HT He HS. destruct e; simpl in HS; try done.
  - destruct (rd t); [|done]. destruct (has_byte newline_byte line); by simplify_eq.
  - destruct (rd t); [done|]. apply receive_inv in HS as [(_ & _ & ->)|(j & _ & _ & ->)]; [done|].
    by apply (settled_return (mkTerminal (calls t) Reading (selecting t))).
  - destruct (calls t !! j) as [[]|] eqn:Hj; try done. by apply settled_no_poison in Hj.
  - destruct (calls t !! j) as [[]|] eqn:Hj; try done. by apply settled_no_poison in Hj.
  - destruct (calls t !! j) as [[]|] eqn:Hj; try done. injection HS as <-. by apply settled_return.
  - destruct (selecting t); by simplify_eq.
  - destruct (selecting t); by simplify_eq.
  - destruct (selecting t); [done|]. destruct (calls t !! j) as [[]|] eqn:Hj; try done. injection HS as <-.
    by apply settled_return.
Qed.

Lemma orderly_settled t : orderly t → settled t.
Proof. induction 1; [by intros [|?]|by eapply settled_open|by eapply settled_step]. Qed.

(** When calls open one after the other and never while the main loop waits for
    the user to start a round, only the newest call can receive a line, and it
    is the only one that can have to be stopped. *)
Theorem newest_call_receives t j t' :
  orderly t → step (EDeliver (Some j)) t = Some t' ∨ step (EMainPoison j) t = Some t' →
  S j = length (calls t).
Proof.
  intros HT%orderly_settled HS.
  assert (calls t !! j = Some Waiting) as Hj.
  { destruct HS as [HS|HS]; simpl in HS; repeat case_match; by simplify_eq. }
  by destruct (HT _ _ Hj) as [[]|[_ ?]].
Qed.

(** Every call can return within two of its own steps, whatever the others do,
    because of its timeout; its poison finds a receiver or nobody waits. *)
Theorem message_call_returns t j c :
  calls t !! j = Some c → (∀ m, c ≠ Returned m) →
  ∃ evs t', run evs t = Some t' ∧ length evs ≤ 2 ∧ calls t' !! j = Some (Returned (Some "")).
Proof.
  intros Hj Hc. pose proof (lookup_lt_Some _ _ _ Hj) as Hlt.
  destruct c as [| |m]; [|exists [ETimeout j]|by edestruct Hc].
  - destruct (no_receiver t) eqn:Hn.
    + exists [EDefault j; ETimeout j]. eexists. simpl. rewrite Hj, Hn. simpl.
      rewrite list_lookup_insert_eq by done. split_and!; [done|lia|].
      simpl. by rewrite list_lookup_insert_eq by (by rewrite length_insert).
    + assert (∃ x t1, receive x "poison" t = Some t1 ∧ calls t1 !! j = Some AtPoison) as (x & t1 & HR & Hj1).
      { unfold no_receiver in Hn. destruct (selecting t) eqn:Hs.
        - exists None. eexists. simpl. by rewrite Hs.
        - simpl in Hn. apply negb_false_iff, existsb_exists in Hn as (w & Hw & Ew). destruct w; try done.
          apply list_elem_of_In, list_elem_of_lookup in Hw as [i Hi]. exists (Some i). eexists. simpl. rewrite Hi.
          split; [done|]. simpl. rewrite list_lookup_insert_ne; [done|]. intros ->. congruence. }
      pose proof (lookup_lt_Some _ _ _ Hj1) as Hlt1.
      exists [EPoison j x; ETimeout j]. eexists. cbn [run step]. rewrite Hj, HR. simpl.
      rewrite list_lookup_insert_eq by done. split_and!; [done|lia|].
      simpl. by rewrite list_lookup_insert_eq by (by rewrite length_insert).
  - eexists. simpl. rewrite Hj. split_and!; [done|lia|]. simpl. by rewrite list_lookup_insert_eq.
Qed.

(** The restriction on the main loop is needed.  If somebody else starts the round
    before the main loop has reached its [select], the poison of the call finds
    nobody, and then both wait for input; a runtime that does not serve the
    receivers in the order of their arrival can give the line to the main loop,
    which ignores its text, and the call times out with an empty message. *)
Lemma typed_message_taken_by_main :
  run [ECall; EDefault 0; ESelect; ERead "hello"; EDeliver None; ETimeout 0] start =
    Some (mkTerminal [Returned (Some "")] Reading false).
Proof. reflexivity. Qed.

(** The word poison, typed by the user, is an ordinary message. *)
Lemma typed_poison_is_sent :
  run [ECall; EDefault 0; ERead "poison"; EDeliver (Some 0)] start =
    Some (mkTerminal [Returned (Some "poison")] Reading false).
Proof. reflexivity. Qed.

Lemma input_reaches_messages_witness :
  explained [ECall; EDefault 0; ERead "poison"; EDeliver (Some 0)] 0 (Some "poison").
Proof.
  destruct (input_reaches_messages _ _ typed_poison_is_sent) as (_ & HR & _). by apply HR.
Defined.
