(* ===== verification/Setup.v ===== *)
(** * Starting the programs

    Model of [makeRaft] (src/anonbcast/raft.go), [MakeServer]
    (src/anonbcast/server.go), and of the first part of the two main functions:
    src/localconfessions/confessions.go, which connects two clients to one server
    over the simulated network, and src/confessions/confessions.go, which starts
    a seed server or joins one, both up to the main loop.  The Raft
    implementation, plugins and libp2p are arguments. *)

From stdpp Require Import gmap strings.
From Stdlib Require Import Ascii Strings.Byte.
From S2P Require Import Prelude GoString Bytes Primes MasseyOmura Crypto Op StateMachine RespChannels Server EliminationQueue.
From S2P Require Import LastStateMachine ClientLoop ClientLife Debug Raft Network ConnectionProvider.

Local Open Scope string_scope.
Local Open Scope Z_scope.

(** ** The Raft implementation *)

Section raft.
Context {CP Pers Ch RF Plugin Symbol : Type}.

(** The type of [Make], in the sources and in a plugin. *)
Definition MakeFn : Type := CP → string → gmap string bool → Pers → Ch → bool → RF.

(** What [makeRaft] uses: the submodule raft, and package plugin. *)
Record RaftLib := mkRaftLib {
  raft_Make : MakeFn;
  plugin_Open : string → option Plugin;
  plugin_Lookup : Plugin → string → option Symbol;
  as_Make : Symbol → option MakeFn
}.

Definition compiledRaftEnvKey : string := "RAFT".

Definition makeRaft (lib : RaftLib) (p : proc) (Me : CP → string) (cp : CP) (initialConfig : gmap string bool)
    (persister : Pers) (applyCh : Ch) (sendAllLogAsInt : bool) : outcome RF :=
  let me := Me cp in
  let compiledRaft := Getenv compiledRaftEnvKey p in
  if bool_decide (compiledRaft = "") then
    Ret (raft_Make lib cp me initialConfig persister applyCh sendAllLogAsInt)
  else
    match plugin_Open lib compiledRaft with
    | None => Panic Fatal
    | Some pl =>
        match plugin_Lookup lib pl "Make" with
        | None => Panic Fatal
        | Some xmakef =>
            match as_Make lib xmakef with
            | None => Panic BadTypeAssertion
            | Some makef => Ret (makef cp me initialConfig persister applyCh sendAllLogAsInt)
            end
        end
    end.

(** [MakeServer]: the name and the state of the server, and its Raft instance. *)
Definition MakeServer {C} `{CommutativeCrypto C} (debug : bool) (lib : RaftLib) (p : proc) (Me : CP → string) (cp : CP)
    (initialCfg : gmap string bool) (persister : Pers) (applyCh : Ch) : outcome (string * Server (C := C) * RF) :=
  rf ← makeRaft lib p Me cp initialCfg persister applyCh false;
  s ← NewServer debug;
  Ret (Me cp, s, rf).

End raft.
Arguments RaftLib : clear implicits.
Arguments MakeFn : clear implicits.

(** ** localconfessions *)

Section local.
Context {C : Type} `{CommutativeCrypto C} (debug : bool).

(** [clcf]; times are in seconds.  The message size is 100. *)
Definition clcf : ClientConfig := mkClientConfig 30 10.

(** [rs] is the labrpc server that offers the methods of the anonbcast server;
    [id1] and [id2] are the identifiers of the clients, [now] is the time. *)
Definition local_network (rs : nat) : outcome (Network string string) :=
  let net := MakeNetwork in
  net ← MakeEnd "client1" net;
  net ← MakeEnd "client2" net;
  let net := AddServer "server" rs net in
  let net := Connect "client1" "server" net in
  let net := Enable "client1" true net in
  let net := Connect "client2" "server" net in
  Ret (Enable "client2" true net).

Record local_world := mkLocal {
  lw_net : Network string string;
  lw_server : Server (C := C);
  lw_cp1 : LabrpcConnectionProvider string;
  lw_cp2 : LabrpcConnectionProvider string;
  lw_c1 : client (C := C);
  lw_c2 : client (C := C)
}.

Definition local_setup (rs : nat) (id1 id2 : UUID) (now : Z) : outcome local_world :=
  s ← NewServer debug;
  net ← local_network rs;
  let cp1 := New ["client1"] 0 in
  let cp2 := New ["client2"] 0 in
  let seedConf : gmap string bool := {["0" := true]} in
  '(c1, s) ← NewClient debug id1 now "0" (mapToSlice seedConf) clcf s;
  '(c2, s) ← NewClient debug id2 now "0" (mapToSlice seedConf) clcf s;
  Ret (mkLocal net s cp1 cp2 c1 c2).

End local.

(** Both clients of localconfessions can talk to the server: the setup does not
    panic, the address "0", which is the name of the server and the only one in
    the configuration, leads each client to its own end, both ends are enabled
    and connected to the server, which is registered, and each client has an
    update channel of its own that starts with the initial state. *)
Theorem local_setup_ready {C} `{CommutativeCrypto C} (debug : bool) rs id1 id2 now svc meth :
  ∃ w sm, local_setup (C := C) debug rs id1 id2 now = Ret w ∧ NewStateMachine debug = Ret sm ∧
    address (lw_cp1 w) "0" svc meth = Ret ("client1", qualified svc meth) ∧
    address (lw_cp2 w) "0" svc meth = Ret ("client2", qualified svc meth) ∧
    (∀ e, e = "client1" ∨ e = "client2" →
       readEndnameInfo e (lw_net w) = (true, Some "server", Some rs, true, false)) ∧
    cl_updCh (lw_c1 w) = 0 ∧ cl_updCh (lw_c2 w) = 1 ∧
    (∀ i, i = 0 ∨ i = 1 → updChs (lw_server w) !! i = Some [sm_update sm]) ∧
    Forall (fun c => currConf (cl_membership c) = ["0"] ∧ cl_dead c = false) [lw_c1 w; lw_c2 w].
Proof.
  destruct debug; (eexists _, _; split; [reflexivity|]; split; [reflexivity|]);
    (split_and!; [reflexivity|reflexivity|by intros e [-> | ->]|reflexivity|reflexivity|by intros i [-> | ->]|]);
    repeat constructor.
Qed.

(** ** confessions *)

Section seed.
Context {Net MA ID V : Type} `{EqDecision ID} (lib : Libp2p Net MA ID V).

(** The seed configuration: oneself, or the server to join, after connecting
    to it. *)
Definition seedConfiguration (join : string) (n : Net) : outcome (gmap string bool * Net) :=
  if bool_decide (join = "") then
    me ← Libp2p_Me lib n; Ret ({[me := true]}, n)
  else
    match NewMultiaddr lib join with
    | None => Panic ExplicitPanic
    | Some ma =>
        match AddrInfoFromP2pAddr lib ma with
        | None => Panic ExplicitPanic
        | Some peerInfo =>
            let '(connected, n) := HostConnect lib peerInfo n in
            if connected : bool then Ret ({[join := true]}, n) else Panic ExplicitPanic
        end
    end.

(** The seed configuration has exactly one server, so that [NewClient] does not
    trip its assertion: one's own address, or the given one, to which the host
    has then connected.  In every other case the program panics. *)
Theorem seed_configuration_spec (debug : bool) join n :
  match seedConfiguration join n with
  | Ret (conf, n') =>
      (∃ a, conf = {[a := true]} ∧
        if bool_decide (join = "") then Libp2p_Me lib n = Ret a ∧ n' = n
        else a = join ∧ ∃ peer, NewMultiaddr lib join ≫= AddrInfoFromP2pAddr lib = Some peer ∧
          HostConnect lib peer n = (true, n')) ∧
      assertf debug (bool_decide (0 < length (mapToSlice conf))%nat) = Ret tt
  | Panic r => r = ExplicitPanic ∧
      if bool_decide (join = "") then Libp2p_Me lib n = Panic r
      else ∀ peer, NewMultiaddr lib join ≫= AddrInfoFromP2pAddr lib = Some peer → fst (HostConnect lib peer n) = false
  end.
Proof.
  assert (∀ a, assertf debug (bool_decide (0 < length (mapToSlice {[a := true]}))%nat) = Ret tt) as Ha.
  { intros a. unfold mapToSlice. rewrite map_to_list_singleton. by rewrite bool_decide_true, assertf_true by (simpl; lia). }
  unfold seedConfiguration. case_bool_decide as Hj.
  - destruct (Libp2p_Me lib n) as [me|r] eqn:Hm; simpl; [split; [eauto|done]|].
    split; [|done]. unfold Libp2p_Me in Hm. destruct (AddrInfoToP2pAddrs _ _ _); congruence.
  - destruct (NewMultiaddr lib join) as [ma|] eqn:Hma; simpl; [|split; [done|by intros]].
    destruct (AddrInfoFromP2pAddr lib ma) as [peer|] eqn:Hp; [|split; [done|by intros]].
    destruct (HostConnect lib peer n) as [[] n'] eqn:Hc; (split; [|try done]).
    + exists join. split; [done|]. split; [done|]. exists peer. by split.
    + done.
    + intros peer' [= <-]. by rewrite Hc.
Qed.

(** The set-up of confessions.  [Register] is the registration of the methods of
    the server and of the Raft instance with the RPC server of libp2p; [Id] is the
    identifier of the client and [now] the time. *)
Section confessions_setup.
Context {C Pers Ch RF Plugin Symbol : Type} `{CommutativeCrypto C} (debug : bool).
Context (raftlib : RaftLib Net Pers Ch RF Plugin Symbol) (p : proc).
Context (Register : Server (C := C) + RF → Net → bool * Net).

Definition register (x : Server (C := C) + RF) (n : Net) : outcome Net :=
  let '(ok, n) := Register x n in if ok : bool then Ret n else Panic ExplicitPanic.

Definition confessions_setup (join : string) (Id : UUID) (now : Z) (persister : Pers) (applyCh : Ch) (n : Net)
    : outcome (gmap string bool * Server (C := C) * RF * client (C := C) * Net) :=
  '(seedConf, n) ← seedConfiguration join n;
  me ← Libp2p_Me lib n;
  '(Me, s, rf) ← MakeServer debug raftlib p (fun _ => me) n seedConf persister applyCh;
  n ← register (inl s) n;
  n ← register (inr rf) n;
  '(c, s) ← NewClient debug Id now Me (mapToSlice seedConf) clcf s;
  Ret (seedConf, s, rf, c, n).

Lemma first_client Id now Me a s0 c s :
  NewServer debug = Ret s0 → NewClient (C := C) debug Id now Me [a] clcf s0 = Ret (c, s) →
  ∃ sm, NewStateMachine debug = Ret sm ∧ updChs s = {[0 := [sm_update sm]]} ∧
    cl_updCh c = 0 ∧ cl_serverId c = Me ∧ cl_Id c = Id ∧ cl_dead c = false ∧
    currConf (cl_membership c) = [a] ∧ active (cl_membership c) = false.
Proof.
  destruct debug; intros [= <-] [= <- <-]; (eexists; split; [reflexivity|]); by split_and!.
Qed.

(** When the program gets through its set-up, its client talks to one server
    first: the own one if no address was given, else the one to join; it is a
    client of the own server, whose state it is going to receive from the
    beginning on the first update channel, and the Raft instance was made for
    the own address and the same configuration. *)
Theorem confessions_setup_spec join Id now persister applyCh n seedConf s rf c n' :
  confessions_setup join Id now persister applyCh n = Ret (seedConf, s, rf, c, n') →
  ∃ a me n1 sm, seedConf = {[a := true]} ∧ (join ≠ "" → a = join) ∧ (join = "" → a = me) ∧
    seedConfiguration join n = Ret (seedConf, n1) ∧ Libp2p_Me lib n1 = Ret me ∧
    makeRaft raftlib p (fun _ => me) n1 seedConf persister applyCh false = Ret rf ∧
    NewStateMachine debug = Ret sm ∧ updChs s = {[0 := [sm_update sm]]} ∧
    cl_updCh c = 0 ∧ cl_serverId c = me ∧ cl_Id c = Id ∧ cl_dead c = false ∧
    currConf (cl_membership c) = [a] ∧ active (cl_membership c) = false.
Proof.
  unfold confessions_setup, MakeServer, register. intros ([conf n1] & HC & HS)%bind_ret_inv.
  apply bind_ret_inv in HS as (me & Hme & HS). apply bind_ret_inv in HS as ([[Me s0] rf0] & HM & HS).
  apply bind_ret_inv in HM as (rf1 & HM & HN). apply bind_ret_inv in HN as (s1 & Hs1 & [= <- <- <-]).
  apply bind_ret_inv in HS as (n2 & _ & HS). apply bind_ret_inv in HS as (n3 & _ & HS).
  apply bind_ret_inv in HS as ([c0 s2] & HCl & [= <- <- <- <- <-]).
  pose proof (seed_configuration_spec debug join n) as Hspec. rewrite HC in Hspec.
  destruct Hspec as [(a & -> & Ha) _]. unfold mapToSlice in HCl. rewrite map_to_list_singleton in HCl.
  apply (first_client _ _ _ _ _ _ _ Hs1) in HCl as (sm & H1 & H2 & H3 & H4 & H5 & H6 & H7 & H8).
  exists a, me, n1, sm. split_and!; try done.
  - intros Hj. rewrite bool_decide_false in Ha by done. by destruct Ha.
  - intros Hj. rewrite bool_decide_true in Ha by done. destruct Ha as [Ha ->]. congruence.
Qed.

End confessions_setup.

End seed.

(** [readInput] on the lines of the standard input ([None] is a read error, and
    so is its end): what it sends before it ends the program. *)
Fixpoint readInput (stdin : list (option string)) : list string * outcome unit :=
  match stdin with
  | [] | None :: _ => ([], Panic Fatal)
  | Some msg :: stdin' => let '(sent, o) := readInput stdin' in (msg :: sent, o)
  end.

(** Everything that is read before the first error is passed on; then the
    program ends. *)
Lemma readInput_spec msgs rest :
  readInput ((Some <$> msgs) ++ None :: rest) = (msgs, Panic Fatal).
Proof. induction msgs as [|m msgs IH]; [done|]. rewrite fmap_cons. cbn [app readInput]. by rewrite IH. Qed.

(** ** A concrete host *)

Module SetupDemo.
#[local] Instance trial : BigProbablyPrime := fun p _ => Primes.trial_prime p.

(** Addresses are strings, peers are known by their address, and the network
    knows the peers that can be reached. *)
Definition tiny_libp2p : Libp2p (list string) string string unit :=
  mkLibp2p (list string) string string unit Some Some (fun _ mas => Some mas) id "me"
    (fun _ => ["/ip4/10.0.0.1"]) (fun peer n => (bool_decide (peer ∈ n), n)) (fun _ _ _ _ v n => (true, v, n)).

Definition tiny_raft : RaftLib (list string) unit unit (string * gmap string bool) unit unit :=
  mkRaftLib (fun _ me conf _ _ _ => (me, conf)) (fun _ => None) (fun _ _ => None) (fun _ => None).

Definition quiet_process : proc := mkProc ∅ [] false.

Definition tiny_setup (join : string) :=
  confessions_setup (C := masseyOmuraCrypto) tiny_libp2p true tiny_raft quiet_process
    (fun _ n => (true, n)) join [Byte.x01] 0 tt tt ["seed"].

Lemma confessions_setup_spec_witness :
  ∃ s rf c n', tiny_setup "seed" = Ret ({["seed" := true]}, s, rf, c, n') ∧
    currConf (cl_membership c) = ["seed"] ∧ cl_updCh c = 0.
Proof.
  destruct (tiny_setup "seed") as [[[[[conf s] rf] c] n']|] eqn:E; [|by vm_compute in E].
  destruct (confessions_setup_spec _ _ _ _ _ _ _ _ _ _ _ _ _ _ _ _ E)
    as (a & me & n1 & sm & -> & Ha & _ & _ & _ & _ & _ & _ & Hu & _ & _ & _ & Hc & _).
  assert (a = "seed") as -> by (apply Ha; discriminate).
  exists s, rf, c, n'. split; [reflexivity|]. split; [exact Hc|exact Hu].
Defined.

(** An address that cannot be reached ends the program. *)
Lemma unreachable_seed : tiny_setup "nobody" = Panic ExplicitPanic.
Proof. by vm_compute. Qed.

End SetupDemo.
